(* ===== verification/_CoqProject ===== *)
-Q . S2P
Prelude.v
Leb128.v
Base32.v
JmapId.v
Utf8.v
Decimal.v
Json.v
JmapValues.v
StoreKeys.v
Maps.v
StoreLog.v
KvStore.v
StorePurge.v
StoreTxn.v
StoreQuery.v
StoreSort.v
Access.v
ChangesQuery.v
ImapReceiver.v
ImapSession.v
ImapSequence.v
ImapMailbox.v
Utf7.v
SmtpQueue.v
SmtpDelivery.v
SmtpWorker.v
SmtpEnvelope.v
SmtpSession.v
SmtpInbound.v
SmtpMail.v
SmtpServer.v
ExprValue.v
ExprFunctions.v
Expr.v
ExprMeaning.v
ExprGrammar.v
ExprText.v
ExprSafe.v
ExprBlock.v
