(* ===== verification/Prelude.v ===== *)
(** * Stalwart Mail Server: a verification development

    Stalwart (crates/ of this repository) is a mail server in Rust: SMTP, IMAP, JMAP,
    POP3 and ManageSieve front ends over one multi-tenant document store.  This library
    models the parts of it that a kernel can check, one file per component, and proves
    what makes each of them correct.

    ** The program and the files

    A client's bytes are cut into requests, a session decides what a request may do, a
    handler turns it into reads and write batches, and the store lays documents,
    indexes, bitmaps, counters and change logs out in one ordered key space.

    - Codecs.  [Leb128] (utils/src/codec/leb128.rs), [Base32]
      (utils/src/codec/base32_custom.rs), [Utf8] and [Decimal] (what the code uses of the
      standard library's UTF-8 and decimal numbers), [Utf7] (imap-proto/src/utf7.rs).
    - JMAP values.  [Json] (jmap-proto/src/parser: json.rs, mod.rs, impls.rs), [JmapId]
      (jmap-proto/src/types/id.rs), [JmapValues] (types/blob.rs and state.rs,
      parser/base32.rs and the JSON form of ids).
    - Layout of the store.  [StoreKeys] (the key types of store/src/lib.rs and
      write/mod.rs, serialized by write/key.rs), [Maps] (utils/src/map: [VecMap] and
      [Bitmap]), [StoreLog] (store/src/write/log.rs and the reader of query/log.rs).
    - The store.  [KvStore] states, as the classes [KvStore] and [KvLaws], what the storage
      engine promises, gives it a concrete instance ([MapStore]), and models the reads of
      backend/rocksdb/read.rs with the range operations of write.rs; [StorePurge] the
      purges of dispatch/store.rs; [StoreTxn] the batches of write/mod.rs, batch.rs and
      assert.rs and the transaction of backend/rocksdb/write.rs with its retries.
    - Queries.  [StoreQuery] filters (store/src/query/filter.rs, the tokenizer of
      nlp/src/tokenizers/word.rs), [StoreSort] sorting and paging (query/sort.rs),
      [ChangesQuery] the JMAP /changes method (jmap/src/changes/get.rs over
      store/src/query/log.rs).
    - Access.  [Access]: permissions and access tokens (common/src/auth), grants on shared
      objects (jmap/src/auth/acl.rs, store/src/query/acl.rs), the IMAP ACL commands
      (imap/src/op/acl.rs).
    - IMAP.  [ImapReceiver] the request receiver, shared with ManageSieve
      (imap-proto/src/receiver.rs), [ImapSession] admission, dispatch and the states of a
      session (imap/src/core, the entries of imap/src/op), [ImapSequence] sequence sets
      (imap-proto/src/parser/mod.rs, protocol/mod.rs), [ImapMailbox] the numbering of the
      selected mailbox and what the client is told (imap/src/core/message.rs).
    - SMTP.  [SmtpQueue] the queue: spool, quotas, locks and the manager
      (smtp/src/queue: mod.rs, spool.rs, quota.rs, manager.rs); [SmtpDelivery] one delivery
      attempt: the dialogue with a server (outbound/session.rs, client.rs, mod.rs), local
      delivery (local.rs), retries and expiry (delivery.rs, queue/throttle.rs), which
      recipients a notification lists (queue/dsn.rs); [SmtpWorker] workers over the queue;
      [SmtpEnvelope] the envelope of a session, what scripts, milters and hooks do to it
      and the message it becomes (scripts/envelope.rs, inbound/milter, inbound/hooks,
      [build_message] of inbound/data.rs); [SmtpSession] the commands, the loop and the
      connection (inbound/*.rs, core/mod.rs, core/params.rs); [SmtpInbound] the invariant
      of a session; [SmtpMail] what a session puts into the queue; [SmtpServer]
      connections in steps, and many of them with the workers on one store.

    Definitions keep the names of the source, with a prefix where two of them meet.  A
    w-bit integer is a [Z] with [wrap] written where the code wraps; a [Vec<u8>] is a list
    of such integers; a hash map is a [gmap]; [Result] is [result]; a panic
    ([unreachable!], an index out of range, an [unwrap]) is an outcome of its own.
    Assignments to fields and early returns go through small state and error monads, one
    for each component ([RM] of the receiver, [H] of the handlers, those of the JSON parser
    and of the transaction).

    ** What the theorems show

    - Round trips: LEB128 (all widths but u8), base32, ids, blob ids, states, modified
      UTF-7 on the basic plane, sequence sets, IMAP requests in any segmentation.
    - Keys: well-formed values, and bitmap entries, that share a subspace and a key are
      equal; log keys sort by account, collection and change id.
    - Refinement: a committed batch changes the sets of documents as its operations say;
      [VecMap] is a map while its keys are distinct and [Bitmap] a set of items below 64;
      the numbering an IMAP client derives from the responses is a beginning of the
      store's.
    - Transactions: of two writers that guard a replacement with the hash of the value
      both read, the second is refused; a batch that is retried takes effect at most once.
      Transactions run one after the other; the isolation of the engine is not modelled.
    - Queries: a filter selects the documents its tree means, when no leaf follows an
      operand that emptied an AND; an index scan is exact; pages are windows of one list
      of the result; the changes reported since a state are the net effect of the log, and
      paging through them ends with every change reported once.
    - Sessions: no handler meets a state it does not expect, when only the last request of
      a chunk moves the state; every operation is within the permissions of an account
      that was let in, however requests are pipelined; the receiver keeps its bounds.
    - Mail delivery: the rows of the queue are its messages with one event each, whatever
      writes fail; two grants of a lock are more than its lifetime apart; the manager
      attempts what is due.  Over any interleaving of workers, and whatever the network
      answers, a message stays in the queue or is removed by a task that accounts for each
      recipient: delivered, reported as its envelope asks, or in the one case where the
      code says nothing ([dropped]).  A recipient is marked as delivered only when a
      server took the message for it; expiry ends delivery; a failed write loses nothing;
      the fields keep their widths.
    - Mail submission: a connection ends with its input; while it is open its counters are
      within the limits; it does not panic, under conditions whose need is shown; each
      recipient it accepts is vouched for by an answer it got; the reply to a message
      tells what became of it; a transaction becomes one message.  With connections and
      workers in any order on one store, every accepted message is accounted for to its
      last recipient.
    - Purges: which rows of the bitmap, log, index and property subspaces an account loses;
      [purge_account_index_spill] and [purge_account_acl] show where the purge does not
      do what it means to.
    - Termination: loops over input carry fuel, and lemmas show that the fuel given is
      enough ([json_loops_terminate], [collect_fuel], [execute_fuel], [write_once]).

    Where the code departs from what it means to do there is a lemma that shows it on a
    concrete case (for instance [filter_short_circuit], [anchor_before_lost],
    [pipelining_unsafe], [close_expunges_unchecked], [starttls_keeps_partial],
    [append_unannounced], [utf7_truncates], [atom_unbounded], [quota_leaks],
    [lock_not_awaited], [temporary_failure_dropped], [notice_lost], [expiry_overslept],
    [refused_ehlo_crashes], [refused_chunk_forgotten], [quarantine_discards],
    [auth_in_transaction]).

    ** Fuel and bounds

    Fuel in the JSON loops is the bytes left plus one or two, in [collect] one more than
    the bytes of the input, in [execute] the number of requests, in a walk over pages one
    more than the number of changes, in decimal printing the logarithm of the number plus
    one.  The held messages of the queue manager are taken with as many turns as there are
    messages and one.  The command loop of an SMTP session has three times the bytes of the
    input and three: a turn reads a byte, or is one of at most two that end a state.  The
    retry loop of a transaction runs over a list of attempts and looks at eleven
    at most.  Integers keep the widths of the code: u32 ids and counts, u64 change ids.

    ** Parameters

    Code that is not in the repository is an argument: the storage engine ([KvStore], laws
    in [KvLaws]), the hash functions and character tables ([Hashes], [Chars]), floating
    point ([Floats]), random numbers and the outcomes of commits in [StoreTxn], the
    iteration order of hash sets.  What IMAP handlers ask of the directory, the socket, the
    store and the argument parsers is an [Answers] value, and every answer is allowed; so
    is what a delivery meets ([TaskAnswers]: clocks, resolvers, remote servers, throttles
    and the engine).  The encoding of queued messages is the class [MessageCodec] with its
    round trip as law, reply codes and envelope flags are [SmtpProto].  The receivers of
    smtp_proto are [SmtpReceivers] (a receiver that returns something has read a byte),
    its parameter parsers [SmtpSyntax]; directories, filters, resolvers, mail
    authentication and expressions are the answers of a session, any of them allowed.  A
    turn of the command loop and a task of a worker are atomic steps on the store.

    Helpers that model a part of a function are not mapped apart from that function.

    ** Not modelled

    POP3, the ManageSieve session, the expression language, the internal
    directory and JMAP result references are not modelled yet; they are plain state
    machines and the next candidates, in this order.  Of an SMTP session, reports about
    failed authentication, throttle counters and the text of the Received header are left
    out.  Of a delivery, MX lookup, MTA-STS,
    DANE and TLS are answers of the model and the text of notifications is not modelled.
    The bodies of the JMAP
    methods and of the IMAP tasks are long sequences of store reads turned into response
    objects; the engine they call is modelled, they are not.  Full-text search packs
    postings with a third-party compressor.  TLS, ACME, OAuth, DANE, MTA-STS, milters,
    telemetry, the other store backends, blob stores, LDAP and SQL directories, the
    command line client and the web interface are input and output around third-party
    libraries. *)

(** * Prelude

    Results, machine integers, bytes and the lemmas the components share. *)

From Stdlib Require Export ZArith Lia.
From Stdlib Require Import Strings.Byte.
From stdpp Require Export base tactics decidable option list numbers gmap sets strings.

#[export] Set Default Goal Selector "!".
#[global] Open Scope Z_scope.

(** ** Results *)

(** The two-way outcome of fallible code, [Result<A, E>]. *)
Inductive result (E A : Type) : Type :=
| Ok (a : A)
| Err (e : E).
Arguments Ok {E A} a.
Arguments Err {E A} e.

#[export] Instance result_ret E : MRet (result E) := λ A a, Ok a.
#[export] Instance result_bind E : MBind (result E) := λ A B k r,
  match r with Ok a => k a | Err e => Err e end.
#[export] Instance result_fmap E : FMap (result E) := λ A B f r,
  match r with Ok a => Ok (f a) | Err e => Err e end.

(** [o.ok_or_else(|| e)] *)
Definition ok_or {E A} (e : E) (o : option A) : result E A :=
  match o with Some a => Ok a | None => Err e end.

(** ** Machine integers *)

(** A [w]-bit unsigned integer is a [Z] in [0, 2^w); [wrap] is the
    wrap-around of arithmetic and of [as] casts, [shl] the left shift that
    drops the bits that leave the width. *)
Definition wrap (w z : Z) : Z := z mod 2 ^ w.
Definition fits (w z : Z) : Prop := 0 ≤ z < 2 ^ w.
Definition shl (w a n : Z) : Z := wrap w (Z.shiftl a n).
Definition umax (w : Z) : Z := 2 ^ w - 1.

#[export] Instance fits_dec w z : Decision (fits w z).
Proof. unfold fits. apply _. Defined.

Abbreviation u8_max := (umax 8).
Abbreviation u32_max := (umax 32).
Abbreviation u64_max := (umax 64).

Declare Scope word_scope.
Delimit Scope word_scope with word.
Notation "a .| b" := (Z.lor a b) (at level 54, left associativity) : word_scope.
Notation "a .& b" := (Z.land a b) (at level 52, left associativity) : word_scope.
Notation "a .^ b" := (Z.lxor a b) (at level 53, left associativity) : word_scope.

(** Bytes are 8-bit integers, byte strings are lists of them. *)
Abbreviation byte := Z (only parsing).
Abbreviation bytes := (list Z) (only parsing).
Abbreviation is_byte := (fits 8).
Abbreviation bytes_ok := (Forall is_byte).

(** Byte literals: ["a"%chr] is Rust's [b'a']; [str "abc"] is [b"abc"]. *)
Definition chr_parse (l : list Byte.byte) : option Z :=
  match l with [b] => Some (Z.of_N (Byte.to_N b)) | _ => None end.
Definition chr_print (z : Z) : option (list Byte.byte) := None.
Declare Scope chr_scope.
Delimit Scope chr_scope with chr.
String Notation Z chr_parse chr_print : chr_scope.

Definition str (s : string) : bytes :=
  (λ a, Z.of_N (Ascii.N_of_ascii a)) <$> String.list_ascii_of_string s.

(** The double quote and the backslash. *)
Abbreviation DQUOTE := 34.
Abbreviation BACKSLASH := 92.

(** [u8::is_ascii_*] and the case conversions of ASCII. *)
Definition is_digit (b : Z) : bool := (48 <=? b) && (b <=? 57).
Definition is_upper (b : Z) : bool := (65 <=? b) && (b <=? 90).
Definition is_lower (b : Z) : bool := (97 <=? b) && (b <=? 122).
Definition is_alpha (b : Z) : bool := is_upper b || is_lower b.
Definition is_alnum (b : Z) : bool := is_alpha b || is_digit b.
Definition is_whitespace (b : Z) : bool :=
  (b =? 32) || (b =? 9) || (b =? 10) || (b =? 12) || (b =? 13).
Definition to_upper (b : Z) : Z := if is_lower b then b - 32 else b.
Definition to_lower (b : Z) : Z := if is_upper b then b + 32 else b.

Create HintDb words.
Create Rewrite HintDb words.
#[export] Hint Unfold fits umax wrap : words.

(** Closes goals on widths with concrete bounds. *)
Ltac width := unfold fits, umax, wrap in *; simpl Z.pow in *; lia.

(** Closes range conditions on closed terms by computation. *)
Ltac concrete := solve [vm_compute; repeat split; congruence].

Lemma wrap_fits w z : 0 ≤ w → fits w (wrap w z).
Proof. intros Hw. unfold fits, wrap. apply Z.mod_pos_bound. lia. Qed.

Lemma wrap_id w z : fits w z → wrap w z = z.
Proof. intros Hz. unfold fits, wrap in *. apply Z.mod_small. lia. Qed.

#[export] Hint Resolve wrap_fits wrap_id : words.
#[export] Hint Rewrite wrap_id using (solve [auto with words]) : words.

(** *** Bit operations as arithmetic *)

Lemma land_ones_low a n : 0 ≤ n → Z.land a (2 ^ n - 1) = a mod 2 ^ n.
Proof. intros Hn. rewrite <- Z.land_ones by done. f_equal. by rewrite Z.ones_equiv, Z.sub_1_r. Qed.

Lemma land_shiftl_disjoint a b n :
  0 ≤ n → 0 ≤ a < 2 ^ n → Z.land a (Z.shiftl b n) = 0.
Proof.
  intros Hn Ha. apply Z.bits_inj'. intros i Hi.
  rewrite Z.land_spec, Z.shiftl_spec, Z.bits_0 by done.
  destruct (decide (i < n)).
  - rewrite (Z.testbit_neg_r b) by lia. apply andb_false_r.
  - rewrite <- (Z.mod_small a (2 ^ n)) by done.
    rewrite Z.mod_pow2_bits_high by lia. done.
Qed.

(** Setting bits above those in use is an addition. *)
Lemma lor_shiftl_add a b n :
  0 ≤ n → 0 ≤ a < 2 ^ n → Z.lor a (Z.shiftl b n) = a + b * 2 ^ n.
Proof.
  intros Hn Ha. rewrite <- Z.shiftl_mul_pow2 by done.
  rewrite Z.add_nocarry_lxor.
  - symmetry. apply Z.lxor_lor, land_shiftl_disjoint; done.
  - apply land_shiftl_disjoint; done.
Qed.

Lemma lor_add a b n : 0 ≤ n → 0 ≤ a < 2 ^ n → Z.lor a (b * 2 ^ n) = a + b * 2 ^ n.
Proof. intros. rewrite <- lor_shiftl_add by done. by rewrite Z.shiftl_mul_pow2. Qed.

(** The low [n] bits of [a] next to bits placed from [n] on. *)
Lemma lor_shiftl_mod_div a n :
  0 ≤ n → 0 ≤ a → Z.lor (a mod 2 ^ n) (Z.shiftl (a / 2 ^ n) n) = a.
Proof.
  intros Hn Ha. rewrite lor_shiftl_add by (done || apply Z.mod_pos_bound; lia).
  pose proof (Z.div_mod a (2 ^ n) ltac:(lia)). lia.
Qed.

Lemma fits_lor w a b : 0 ≤ w → fits w a → fits w b → fits w (Z.lor a b).
Proof.
  unfold fits. intros Hw [Ha Ha'] [Hb Hb'].
  assert (0 ≤ Z.lor a b) by (apply Z.lor_nonneg; lia). split; [done|].
  destruct (decide (Z.lor a b = 0)) as [->|]; [lia|].
  apply Z.log2_lt_pow2; [lia|]. rewrite Z.log2_lor by lia.
  destruct (decide (a = 0)) as [->|], (decide (b = 0)) as [->|]; simpl in *;
    try (rewrite Z.lor_0_l in *); try (rewrite Z.lor_0_r in *); try lia;
    try (apply Z.max_lub_lt);
    try (apply Z.log2_lt_pow2; lia);
    try (change (Z.log2 0) with 0; assert (0 < w) by (destruct (decide (w = 0)) as [->|];
      [simpl in *; lia|lia]); lia).
Qed.

(** *** Bit by bit *)

Lemma fits_shiftr w a n : 0 ≤ n → fits w a → fits w (Z.shiftr a n).
Proof.
  unfold fits. intros Hn Ha. rewrite Z.shiftr_div_pow2 by done.
  split; [apply Z.div_pos; lia|]. apply Z.le_lt_trans with a; [|lia].
  apply Z.div_le_upper_bound; nia.
Qed.

Lemma fits_land_l w a b : 0 ≤ w → fits w a → fits w (Z.land a b).
Proof.
  intros Hw Ha. rewrite <- (wrap_id w a Ha). unfold wrap.
  rewrite <- Z.land_ones, <- Z.land_assoc, (Z.land_comm (Z.ones w)), Z.land_assoc by done.
  rewrite Z.land_ones by done. by apply wrap_fits.
Qed.

Lemma fits_shl w a n : 0 ≤ w → fits w (shl w a n).
Proof. apply wrap_fits. Qed.

#[export] Hint Resolve fits_shiftr fits_land_l fits_lor fits_shl : words.
#[export] Hint Extern 1 (0 ≤ _) => lia : words.

Lemma fits_bit_high w a i : fits w a → w ≤ i → Z.testbit a i = false.
Proof.
  intros [Ha Ha'] Hi. destruct (decide (0 ≤ w)).
  - rewrite <- (Z.mod_small a (2 ^ w)) by lia. apply Z.mod_pow2_bits_high. lia.
  - rewrite Z.pow_neg_r in Ha' by lia. lia.
Qed.

Lemma wrap_bit w a i : 0 ≤ w → Z.testbit (wrap w a) i = (i <? w) && Z.testbit a i.
Proof.
  intros Hw. unfold wrap. destruct (Z.ltb_spec i w).
  - destruct (decide (0 ≤ i)); [by rewrite Z.mod_pow2_bits_low|].
    by rewrite !Z.testbit_neg_r by lia.
  - by rewrite Z.mod_pow2_bits_high by lia.
Qed.

Lemma bits_ext w a b :
  fits w a → fits w b → (∀ i, 0 ≤ i < w → Z.testbit a i = Z.testbit b i) → a = b.
Proof.
  intros Ha Hb Hbits. apply Z.bits_inj'. intros i Hi. destruct (decide (i < w)); [auto|].
  by rewrite !(fits_bit_high w) by (done || lia).
Qed.

Lemma below8 (P : Z → Prop) :
  P 0 → P 1 → P 2 → P 3 → P 4 → P 5 → P 6 → P 7 → ∀ i, 0 ≤ i < 8 → P i.
Proof.
  intros. assert (i = 0 ∨ i = 1 ∨ i = 2 ∨ i = 3 ∨ i = 4 ∨ i = 5 ∨ i = 6 ∨ i = 7) by lia.
  destruct_or!; by subst.
Qed.

(** Computes a test of a constant position through the bit operations. *)
Ltac bit_step :=
  match goal with
  | |- context [Z.testbit (Z.lor ?a ?b) ?i] => rewrite (Z.lor_spec a b i)
  | |- context [Z.testbit (Z.land ?a ?b) ?i] => rewrite (Z.land_spec a b i)
  | |- context [Z.testbit (Z.lxor ?a ?b) ?i] => rewrite (Z.lxor_spec a b i)
  | |- context [Z.testbit ?a (Zneg ?p)] => rewrite (Z.testbit_neg_r a (Zneg p)) by lia
  | |- context [Z.testbit (Z.shiftr ?a ?n) ?i] =>
      rewrite (Z.shiftr_spec a n i) by lia;
      let j := eval vm_compute in (i + n) in change (i + n) with j
  | |- context [Z.testbit (Z.shiftl ?a ?n) ?i] =>
      rewrite (Z.shiftl_spec a n i) by lia;
      let j := eval vm_compute in (i - n) in change (i - n) with j
  | |- context [Z.testbit (wrap ?w ?a) ?i] =>
      rewrite (wrap_bit w a i) by lia;
      let c := eval vm_compute in (i <? w) in change (i <? w) with c
  | |- context [Z.testbit (Zpos ?c) ?i] =>
      let v := eval vm_compute in (Z.testbit (Zpos c) i) in change (Z.testbit (Zpos c) i) with v
  | |- context [Z.testbit 0 ?i] => rewrite (Z.bits_0 i)
  | H : fits ?w ?a |- context [Z.testbit ?a ?i] => rewrite (fits_bit_high w a i H) by lia
  end.

(** Proves an equation between bytes that are built by bit operations. *)
Ltac byte_bits :=
  apply (bits_ext 8); [auto 10 with words|auto 10 with words|];
  unfold shl; apply below8; repeat bit_step;
  rewrite ?andb_true_r, ?andb_true_l, ?andb_false_r, ?orb_false_r, ?orb_false_l; try done;
  repeat match goal with |- context [Z.testbit ?a ?i] => destruct (Z.testbit a i) end; done.

(** A statement on bytes is decided by the 256 of them. *)
Lemma byte_cases (P : Z → Prop) `{∀ b, Decision (P b)} :
  forallb (λ n, bool_decide (P (Z.of_nat n))) (seq 0 256) = true → ∀ b, is_byte b → P b.
Proof.
  intros Hall b Hb. rewrite forallb_forall in Hall. unfold fits in Hb.
  specialize (Hall (Z.to_nat b)). rewrite in_seq, Z2Nat.id in Hall by lia.
  apply (bool_decide_unpack _), Is_true_true, Hall. lia.
Qed.

(** ** Bytes in big- and little-endian order *)

(** [v.to_be_bytes()] for an integer of [n] bytes. *)
Fixpoint be_bytes (n : nat) (v : Z) : bytes :=
  match n with
  | O => []
  | S m => wrap 8 (Z.shiftr v (8 * Z.of_nat m)) :: be_bytes m v
  end.

(** [from_be_bytes] on the bytes read so far. *)
Definition from_be (l : bytes) : Z := foldl (λ acc b, acc * 256 + b) 0 l.

(** [v.to_le_bytes()] and [from_le_bytes]. *)
Definition le_bytes (n : nat) (v : Z) : bytes := reverse (be_bytes n v).
Definition from_le (l : bytes) : Z := from_be (reverse l).

Lemma length_be_bytes n v : length (be_bytes n v) = n.
Proof. induction n; simpl; congruence. Qed.

Lemma be_bytes_ok n v : bytes_ok (be_bytes n v).
Proof. induction n; simpl; constructor; [by apply (wrap_fits 8)|done]. Qed.

#[export] Hint Resolve be_bytes_ok : words.

Lemma foldl_be_acc acc l :
  foldl (λ a b, a * 256 + b) acc l = acc * 256 ^ Z.of_nat (length l) + from_be l.
Proof.
  unfold from_be. revert acc. induction l as [|b l IH]; intros acc; cbn [foldl length]; [lia|].
  rewrite (IH (acc * 256 + b)), (IH (0 * 256 + b)). rewrite Nat2Z.inj_succ, Z.pow_succ_r by lia. lia.
Qed.

Lemma from_be_cons b l : from_be (b :: l) = b * 256 ^ Z.of_nat (length l) + from_be l.
Proof. unfold from_be at 1. cbn [foldl]. rewrite foldl_be_acc. lia. Qed.

Lemma pow256 n : 256 ^ Z.of_nat n = 2 ^ (8 * Z.of_nat n).
Proof. rewrite Z.pow_mul_r by lia. done. Qed.

Lemma from_be_be_bytes n v : from_be (be_bytes n v) = v mod 256 ^ Z.of_nat n.
Proof.
  induction n as [|n IH]; [by rewrite Z.mod_1_r|].
  simpl be_bytes. rewrite from_be_cons, length_be_bytes, IH.
  unfold wrap. rewrite Z.shiftr_div_pow2, <- pow256 by lia.
  rewrite Nat2Z.inj_succ, Z.pow_succ_r, Z.mul_comm by lia.
  rewrite (Z.mul_comm 256 (256 ^ _)), Z.rem_mul_r by lia.
  change (2 ^ 8) with 256. lia.
Qed.

Lemma from_be_bytes_id n v : fits (8 * Z.of_nat n) v → from_be (be_bytes n v) = v.
Proof. intros Hv. rewrite from_be_be_bytes, pow256. by apply Z.mod_small. Qed.

Lemma from_be_bound l : bytes_ok l → 0 ≤ from_be l < 256 ^ Z.of_nat (length l).
Proof.
  induction 1 as [|b l Hb _ IH]; [done|]. unfold fits in Hb.
  rewrite from_be_cons. simpl length. rewrite Nat2Z.inj_succ, Z.pow_succ_r by lia. nia.
Qed.

Lemma be_bytes_mod n v : be_bytes n (v mod 256 ^ Z.of_nat n) = be_bytes n v.
Proof.
  enough (∀ m, (n ≤ m)%nat → be_bytes n (v mod 256 ^ Z.of_nat m) = be_bytes n v) by auto.
  induction n as [|n IH]; intros m Hm; [done|]. simpl. f_equal; [|apply IH; lia].
  unfold wrap. rewrite !Z.shiftr_div_pow2, <- pow256 by lia. change (2 ^ 8) with 256.
  replace (Z.of_nat m) with (Z.of_nat n + Z.of_nat (S (m - n - 1))) by lia.
  rewrite Z.pow_add_r, Z.rem_mul_r by lia.
  rewrite (Z.mul_comm (256 ^ Z.of_nat n)), Z.div_add, Z.div_small by
    (try apply Z.mod_pos_bound; lia).
  rewrite Z.add_0_l, Nat2Z.inj_succ, Z.pow_succ_r by lia.
  apply Z.mod_mod_divide, Z.divide_factor_l.
Qed.

Lemma be_bytes_from_be l : bytes_ok l → be_bytes (length l) (from_be l) = l.
Proof.
  induction 1 as [|b l Hb Hl IH]; [done|]. simpl. rewrite from_be_cons.
  pose proof (from_be_bound l Hl) as Hbd. unfold fits in Hb. f_equal.
  - unfold wrap. rewrite Z.shiftr_div_pow2, <- pow256 by lia.
    rewrite Z.add_comm, Z.div_add, Z.div_small by lia. apply Z.mod_small. simpl. lia.
  - rewrite <- be_bytes_mod. rewrite Z.add_comm, Z.mod_add by lia.
    by rewrite be_bytes_mod.
Qed.

Lemma be_bytes_inj n v1 v2 :
  fits (8 * Z.of_nat n) v1 → fits (8 * Z.of_nat n) v2 →
  be_bytes n v1 = be_bytes n v2 → v1 = v2.
Proof.
  intros H1 H2 He. rewrite <- (from_be_bytes_id n v1), <- (from_be_bytes_id n v2) by done.
  by rewrite He.
Qed.

Lemma from_le_bytes_id n v : fits (8 * Z.of_nat n) v → from_le (le_bytes n v) = v.
Proof. intros. unfold from_le, le_bytes. rewrite reverse_involutive. by apply from_be_bytes_id. Qed.

(** *** Lexicographic order, the order of [Ord for [u8]] *)

Fixpoint bytes_compare (l k : bytes) : comparison :=
  match l, k with
  | [], [] => Eq
  | [], _ :: _ => Lt
  | _ :: _, [] => Gt
  | a :: l, b :: k => match a ?= b with Eq => bytes_compare l k | c => c end
  end.

Definition bytes_leb (l k : bytes) : bool :=
  match bytes_compare l k with Gt => false | _ => true end.

Lemma bytes_compare_eq l k : bytes_compare l k = Eq ↔ l = k.
Proof.
  revert k. induction l as [|a l IH]; intros [|b k]; simpl; try (split; congruence).
  destruct (Z.compare_spec a b) as [->|?|?].
  - rewrite IH. split; congruence.
  - split; [done|]. intros [= -> ->]. lia.
  - split; [done|]. intros [= -> ->]. lia.
Qed.

Lemma bytes_compare_app p q l k :
  length p = length q →
  bytes_compare (p ++ l) (q ++ k) =
    match bytes_compare p q with Eq => bytes_compare l k | c => c end.
Proof.
  revert q. induction p as [|a p IH]; intros [|b q] Hlen; simplify_eq/=; [done|].
  destruct (a ?= b); auto.
Qed.

Lemma bytes_compare_from_be l k :
  bytes_ok l → bytes_ok k → length l = length k →
  bytes_compare l k = (from_be l ?= from_be k).
Proof.
  intros Hl. revert k. induction Hl as [|a l Ha Hl IH]; intros k Hk Hlen.
  { destruct k; [done|discriminate]. }
  destruct Hk as [|b k Hb Hk]; [discriminate|]. injection Hlen as Hlen.
  simpl. rewrite !from_be_cons, IH, <- Hlen by done.
  pose proof (from_be_bound l Hl). pose proof (from_be_bound k Hk) as Hbk.
  rewrite <- Hlen in Hbk. unfold fits in *.
  destruct (Z.compare_spec a b) as [->|?|?].
  - by rewrite Z.add_compare_mono_l.
  - symmetry. apply Z.compare_lt_iff. nia.
  - symmetry. apply Z.compare_gt_iff. nia.
Qed.

Lemma bytes_compare_opp l k : bytes_compare k l = CompOpp (bytes_compare l k).
Proof.
  revert k. induction l as [|a l IH]; intros [|b k]; simpl; [done..|].
  rewrite (Z.compare_antisym a b). destruct (a ?= b); simpl; [apply IH|done..].
Qed.

Lemma bytes_compare_lt_trans l k m :
  bytes_compare l k = Lt → bytes_compare k m = Lt → bytes_compare l m = Lt.
Proof.
  revert k m. induction l as [|a l IH]; intros [|b k] [|c m]; simpl; try done.
  destruct (Z.compare_spec a b), (Z.compare_spec b c), (Z.compare_spec a c);
    try done; try lia. apply IH.
Qed.

Definition bytes_le (l k : bytes) : Prop := bytes_compare l k ≠ Gt.
Definition bytes_lt (l k : bytes) : Prop := bytes_compare l k = Lt.

#[export] Instance bytes_le_dec l k : Decision (bytes_le l k).
Proof. unfold bytes_le. apply _. Defined.
#[export] Instance bytes_lt_dec l k : Decision (bytes_lt l k).
Proof. unfold bytes_lt. apply _. Defined.

Lemma bytes_le_lt_eq l k : bytes_le l k ↔ bytes_lt l k ∨ l = k.
Proof.
  unfold bytes_le, bytes_lt. rewrite <- (bytes_compare_eq l k).
  destruct (bytes_compare l k); intuition congruence.
Qed.

Lemma bytes_not_le l k : ¬ bytes_le l k ↔ bytes_lt k l.
Proof.
  unfold bytes_le, bytes_lt. rewrite (bytes_compare_opp l k).
  destruct (bytes_compare l k); simpl; intuition congruence.
Qed.

#[export] Instance bytes_lt_strict : StrictOrder bytes_lt.
Proof.
  split.
  - intros l Hl. assert (bytes_compare l l = Eq) by (by apply bytes_compare_eq).
    unfold bytes_lt in Hl. congruence.
  - intros l k m. apply bytes_compare_lt_trans.
Qed.

#[export] Instance bytes_le_preorder : PreOrder bytes_le.
Proof.
  split.
  - intros l. apply bytes_le_lt_eq. by right.
  - intros l k m. rewrite !bytes_le_lt_eq. intros [?| ->] [?| ->]; [|by eauto..].
    left. by etrans.
Qed.

#[export] Instance bytes_le_total : Total bytes_le.
Proof.
  intros l k. unfold bytes_le. rewrite (bytes_compare_opp l k).
  destruct (bytes_compare l k); simpl; [by left|by left|by right].
Qed.

Lemma bytes_lt_le_trans l k m : bytes_lt l k → bytes_le k m → bytes_lt l m.
Proof. rewrite bytes_le_lt_eq. intros ? [?| <-]; [by etrans|done]. Qed.

Lemma bytes_le_lt_trans l k m : bytes_le l k → bytes_lt k m → bytes_lt l m.
Proof. rewrite bytes_le_lt_eq. intros [?| ->] ?; [by etrans|done]. Qed.

(** Big-endian encodings of equal width compare as the numbers do. *)
Lemma be_bytes_compare n a b :
  fits (8 * Z.of_nat n) a → fits (8 * Z.of_nat n) b →
  bytes_compare (be_bytes n a) (be_bytes n b) = (a ?= b).
Proof.
  intros Ha Hb. rewrite bytes_compare_from_be, !from_be_bytes_id by
    (auto with words || by rewrite !length_be_bytes).
  done.
Qed.

(** ** Filters *)

Section Filter.
Context {A : Type} (P : A → Prop) `{∀ x, Decision (P x)}.

Lemma filter_all l : Forall P l → filter P l = l.
Proof. induction 1; [done|]. rewrite filter_cons_True by done. by f_equal. Qed.

Lemma filter_none l : Forall (λ x, ¬ P x) l → filter P l = [].
Proof. induction 1; [done|]. by rewrite filter_cons_False by done. Qed.
End Filter.
