(* ===== verification/Leb128.v ===== *)
(** * LEB128 integers: crates/utils/src/codec/leb128.rs

    The variable-length integers of every key and value of the store.  The
    trait [Leb128_] is a class; the macro's five instances give the width of
    the integer and the shifts the reader accepts. *)

From S2P Require Import Prelude.

Open Scope word_scope.

(** An [Iterator<Item = u8>]: the next byte and the iterator after it. *)
Class ByteIter (It : Type) := iter_next : It → option Z * It.

(** [slice::Iter] *)
#[export] Instance slice_iter : ByteIter bytes := λ l,
  match l with [] => (None, []) | b :: l => (Some b, l) end.

(** What [impl_unsigned_leb128!(int_ty, shifts)] fixes for an integer type:
    its width in bits and its list of shifts. *)
Class Leb128_ := {
  leb_width : Z;
  leb_shifts : list Z;
}.

(** The instances of the macro's last lines; [usize] is 64 bits wide. *)
Definition leb_u8 : Leb128_ := {| leb_width := 8; leb_shifts := [0] |}.
Definition leb_u16 : Leb128_ := {| leb_width := 16; leb_shifts := [0; 7; 14] |}.
Definition leb_u32 : Leb128_ := {| leb_width := 32; leb_shifts := [0; 7; 14; 21; 28] |}.
Definition leb_u64 : Leb128_ :=
  {| leb_width := 64; leb_shifts := [0; 7; 14; 21; 28; 35; 42; 49; 56; 63] |}.
Definition leb_usize : Leb128_ :=
  {| leb_width := 64; leb_shifts := [0; 7; 14; 21; 28; 35; 42; 49; 56; 63] |}.

Section Codec.
Context `{L : Leb128_}.

(** The writing loop.  Every round shifts [value] right by seven bits, so ten
    rounds see the end of any 64-bit value ([write_loop_fuel]). *)
Fixpoint write_loop (fuel : nat) (value : Z) : bytes :=
  match fuel with
  | O => []
  | S fuel =>
      if value <? 128 then [value]
      else wrap 8 ((value .& 127) .| 128) :: write_loop fuel (Z.shiftr value 7)
  end.

Definition to_leb128_bytes (value : Z) (out : bytes) : bytes :=
  out ++ write_loop 10 value.

(** The writer hands each byte to [out.write], which takes it or fails; the
    count of bytes written is returned. *)
Definition to_leb128_writer (value : Z) (out : bytes) : bytes * Z :=
  (out ++ write_loop 10 value, Z.of_nat (length (write_loop 10 value))).

(** [from_leb128_bytes_pos]: the shifts zipped with the enumerated slice. *)
Fixpoint read_pos (shifts : list Z) (result pos : Z) (slice : bytes) : option (Z * Z) :=
  match shifts, slice with
  | shift :: shifts, b :: slice =>
      if (b .& 128) =? 0 then Some (result .| shl leb_width b shift, pos + 1)
      else read_pos shifts (result .| shl leb_width (b .& 127) shift) (pos + 1) slice
  | _, _ => None
  end.

Definition from_leb128_bytes_pos (slice : bytes) : option (Z * Z) :=
  read_pos leb_shifts 0 0 slice.

Fixpoint read_slice (shifts : list Z) (result : Z) (slice : bytes) : option Z :=
  match shifts, slice with
  | shift :: shifts, b :: slice =>
      if (b .& 128) =? 0 then Some (result .| shl leb_width b shift)
      else read_slice shifts (result .| shl leb_width (b .& 127) shift) slice
  | _, _ => None
  end.

Definition from_leb128_bytes (slice : bytes) : option Z :=
  read_slice leb_shifts 0 slice.

(** [from_leb128_it] advances the caller's iterator, so the model returns what
    is left of it.  The iterator is asked for a byte only while shifts are
    left. *)
Fixpoint read_it `{ByteIter It} (shifts : list Z) (result : Z) (it : It) : option Z * It :=
  match shifts with
  | [] => (None, it)
  | shift :: shifts =>
      match iter_next it with
      | (None, it) => (None, it)
      | (Some b, it) =>
          if (b .& 128) =? 0 then (Some (result .| shl leb_width b shift), it)
          else read_it shifts (result .| shl leb_width (b .& 127) shift) it
      end
  end.

Definition next_leb128 `{ByteIter It} (it : It) : option Z * It := read_it leb_shifts 0 it.

(** [Leb128Reader::skip_leb128] and the iterator's [skip_leb128]. *)
Fixpoint skip_from (pos : Z) (slice : bytes) : option Z :=
  match slice with
  | [] => None
  | b :: slice => if (b .& 128) =? 0 then Some (pos + 1) else skip_from (pos + 1) slice
  end.

Definition skip_leb128 (slice : bytes) : option Z := skip_from 0 slice.

Fixpoint skip_leb128_it (it : bytes) : option () * bytes :=
  match it with
  | [] => (None, [])
  | b :: it => if (b .& 128) =? 0 then (Some (), it) else skip_leb128_it it
  end.
End Codec.

(** ** Lemmas *)

(** The shifts [7k, 7(k+1), ...], [n] of them. *)
Fixpoint sevens (k : Z) (n : nat) : list Z :=
  match n with O => [] | S n => 7 * k :: sevens (k + 1) n end.

(** An instance whose shifts reach every bit of its width: all but [u8]. *)
Class LebLawful (L : Leb128_) : Prop := {
  leb_shifts_sevens : leb_shifts = sevens 0 (length leb_shifts);
  leb_shifts_reach : 0 < leb_width ≤ 7 * Z.of_nat (length leb_shifts);
  leb_width_bound : leb_width ≤ 64;
}.

#[export] Instance leb_u16_lawful : LebLawful leb_u16.
Proof. by repeat constructor. Qed.
#[export] Instance leb_u32_lawful : LebLawful leb_u32.
Proof. by repeat constructor. Qed.
#[export] Instance leb_u64_lawful : LebLawful leb_u64.
Proof. by repeat constructor. Qed.
#[export] Instance leb_usize_lawful : LebLawful leb_usize.
Proof. by repeat constructor. Qed.

Lemma last_byte_flag b : 0 ≤ b < 128 → ((b .& 128) =? 0) = true.
Proof.
  intros Hb. apply (byte_cases (λ b, b < 128 → ((b .& 128) =? 0) = true));
    [by vm_compute|unfold fits; lia|lia].
Qed.

Lemma cont_byte_flag b : 0 ≤ b < 128 → ((128 + b .& 128) =? 0) = false.
Proof.
  intros Hb. apply (byte_cases (λ b, b < 128 → ((128 + b .& 128) =? 0) = false));
    [by vm_compute|unfold fits; lia|lia].
Qed.

Lemma cont_byte_data b : 0 ≤ b < 128 → (128 + b .& 127) = b.
Proof.
  intros Hb. apply (byte_cases (λ b, b < 128 → (128 + b .& 127) = b));
    [by vm_compute|unfold fits; lia|lia].
Qed.

Lemma cont_byte v : wrap 8 ((v .& 127) .| 128) = 128 + v mod 128.
Proof.
  change 127 with (2 ^ 7 - 1). rewrite land_ones_low by lia.
  change 128 with (Z.shiftl 1 7) at 1.
  rewrite lor_shiftl_add by (try apply Z.mod_pos_bound; lia).
  change (2 ^ 7) with 128. rewrite Z.mul_1_l, Z.add_comm. apply wrap_id.
  pose proof (Z.mod_pos_bound v 128 ltac:(lia)). width.
Qed.

(** Every loop round that is not the last one emits a continuation byte. *)
Lemma write_loop_cons fuel v :
  128 ≤ v → write_loop (S fuel) v = 128 + v mod 128 :: write_loop fuel (v / 128).
Proof.
  intros Hv. simpl. destruct (Z.ltb_spec v 128); [lia|].
  by rewrite cont_byte, Z.shiftr_div_pow2 by lia.
Qed.

Lemma write_loop_last fuel v : v < 128 → write_loop (S fuel) v = [v].
Proof. intros Hv. simpl. by destruct (Z.ltb_spec v 128); [|lia]. Qed.

(** Ten rounds are enough: more fuel changes nothing below [2^70]. *)
Lemma write_loop_fuel n m v :
  0 ≤ v < 2 ^ (7 * Z.of_nat (S n)) → write_loop (S n + m) v = write_loop (S n) v.
Proof.
  revert v. induction n as [|n IH]; intros v Hv.
  - rewrite Nat.add_succ_l. simpl in Hv. by rewrite !write_loop_last by lia.
  - rewrite Nat.add_succ_l.
    destruct (decide (v < 128)); [by rewrite !write_loop_last by lia|].
    rewrite !write_loop_cons by lia. f_equal. apply IH.
    rewrite (Nat2Z.inj_succ (S n)), Z.mul_succ_r, Z.pow_add_r in Hv by lia.
    change (2 ^ 7) with 128 in Hv. split; [apply Z.div_pos; lia|].
    apply Z.div_lt_upper_bound; lia.
Qed.

Lemma write_loop_bytes fuel v : 0 ≤ v → bytes_ok (write_loop fuel v).
Proof.
  revert v. induction fuel as [|fuel IH]; intros v Hv; [constructor|].
  destruct (decide (v < 128)).
  - rewrite write_loop_last by done. repeat constructor; lia.
  - rewrite write_loop_cons by lia. pose proof (Z.mod_pos_bound v 128 ltac:(lia)).
    constructor; [unfold fits; lia|]. apply IH, Z.div_pos; lia.
Qed.

(** [delivers it l it']: the iterator hands out the bytes of [l] and is [it'] then. *)
Inductive delivers `{ByteIter It} : It → bytes → It → Prop :=
| delivers_nil it : delivers it [] it
| delivers_cons it it' it'' b l :
    iter_next it = (Some b, it') → delivers it' l it'' → delivers it (b :: l) it''.

Lemma write_loop_length n fuel v :
  (1 ≤ n)%nat → v < 2 ^ (7 * Z.of_nat n) → (length (write_loop fuel v) ≤ n)%nat.
Proof.
  revert fuel v. induction n as [|n IH]; intros fuel v Hn Hv; [lia|].
  destruct fuel as [|fuel]; simpl; [lia|]. destruct (Z.ltb_spec v 128) as [Hlt|Hge]; simpl; [lia|].
  destruct n as [|n]; [change (2 ^ (7 * Z.of_nat 1)) with 128 in Hv; lia|].
  apply le_n_S, IH; [lia|]. rewrite Z.shiftr_div_pow2 by lia. apply Z.div_lt_upper_bound; [lia|].
  rewrite <- Z.pow_add_r by lia. by replace (7 + 7 * Z.of_nat (S n)) with (7 * Z.of_nat (S (S n))) by lia.
Qed.

Lemma write_loop_nonempty fuel v : (1 ≤ length (write_loop (S fuel) v))%nat.
Proof. simpl. destruct (v <? 128); simpl; lia. Qed.

Lemma slice_delivers (l k : bytes) : delivers (l ++ k) l k.
Proof. induction l; econstructor; done. Qed.

Lemma slice_delivers_inv (l k : bytes) : delivers l k [] → l = k.
Proof.
  revert k. induction l as [|b l IH]; intros k Hd; inversion Hd as [|? ? ? ? ? Hn Hd']; subst;
    unfold iter_next, slice_iter in *; simplify_eq; [done|]. f_equal. by apply IH.
Qed.

Lemma delivers_app `{ByteIter It} (it it' : It) l k :
  delivers it (l ++ k) it' ↔ ∃ im, delivers it l im ∧ delivers im k it'.
Proof.
  split.
  - revert it. induction l as [|b l IH]; intros it Hd; simpl in Hd; [by exists it; split; [constructor|]|].
    inversion Hd as [|? it1 ? ? ? Hn Hd']; subst. destruct (IH _ Hd') as (im & ? & ?).
    exists im. split; [by econstructor|done].
  - intros (im & Hl & Hk). induction Hl; [done|]. econstructor; eauto.
Qed.

(** Reading from an iterator is reading from the bytes it delivers. *)
Lemma read_it_delivers `{Leb128_} `{ByteIter It} shifts result (it it' : It) l v rest :
  delivers it l it' → read_it shifts result l = (Some v, rest) →
  ∃ im, read_it shifts result it = (Some v, im) ∧ delivers im rest it'.
Proof.
  intros Hit. revert shifts result.
  induction Hit as [it|it im it' b l Hn Hs IH]; intros [|s shifts] result Hr; simpl in *;
    try done.
  rewrite Hn. destruct (_ =? _); [|by apply IH]. simplify_eq. eauto.
Qed.

Section Lemmas.
Context `{L : Leb128_} {HL : LebLawful L}.

Lemma shl_small k v :
  0 ≤ k → 0 ≤ v → v * 2 ^ k < 2 ^ leb_width → shl leb_width v k = v * 2 ^ k.
Proof.
  intros Hk Hv Hb. unfold shl. rewrite Z.shiftl_mul_pow2 by done.
  apply wrap_id. unfold fits. nia.
Qed.

(** The reading loop continues where the writing loop is: after [k] groups,
    [result] holds the low [7k] bits and [v] the rest. *)
Lemma read_it_write_loop n k fuel result v rest :
  0 ≤ k → 0 ≤ result < 2 ^ (7 * k) → 0 ≤ v → (1 ≤ v ∨ (1 ≤ n)%nat) →
  leb_width ≤ 7 * (k + Z.of_nat n) → v < 2 ^ (7 * Z.of_nat fuel) → (1 ≤ fuel)%nat →
  result + v * 2 ^ (7 * k) < 2 ^ leb_width →
  read_it (sevens k n) result (write_loop fuel v ++ rest)
  = (Some (result + v * 2 ^ (7 * k)), rest).
Proof.
  revert k fuel result v.
  induction n as [|n IH]; intros k fuel result v Hk Hr Hv Hn Hw Hf Hf1 Hsum.
  { exfalso. destruct Hn; [|lia].
    pose proof (Z.pow_le_mono_r 2 leb_width (7 * (k + Z.of_nat 0)) ltac:(lia) Hw) as Hp.
    rewrite Z.add_0_r in Hp. nia. }
  destruct fuel as [|fuel]; [lia|]. simpl sevens.
  destruct (decide (v < 128)) as [Hlt|Hge].
  - rewrite write_loop_last by done. simpl.
    rewrite last_byte_flag, shl_small by lia.
    by rewrite lor_add by lia.
  - rewrite write_loop_cons by lia.
    pose proof (Z.mod_pos_bound v 128 ltac:(lia)) as Hm.
    pose proof (Z.div_mod v 128 ltac:(lia)) as Hdm.
    assert (2 ^ (7 * (k + 1)) = 128 * 2 ^ (7 * k)) as Hpow.
    { rewrite Z.mul_add_distr_l, Z.pow_add_r by lia. change (2 ^ (7 * 1)) with 128. lia. }
    cbn [app read_it iter_next slice_iter]. rewrite cont_byte_flag, cont_byte_data by lia.
    rewrite shl_small, lor_add by nia. rewrite IH.
    + f_equal. f_equal. rewrite Hpow. rewrite Hdm at 3. lia.
    + lia.
    + rewrite Hpow. nia.
    + apply Z.div_pos; lia.
    + left. apply Z.div_le_lower_bound; lia.
    + lia.
    + rewrite Nat2Z.inj_succ, Z.mul_succ_r, Z.pow_add_r in Hf by lia.
      change (2 ^ 7) with 128 in Hf. apply Z.div_lt_upper_bound; lia.
    + destruct fuel; [simpl in Hf; change (2 ^ 7) with 128 in Hf; lia|lia].
    + rewrite Hpow. rewrite Hdm in Hsum. lia.
Qed.

Lemma fits_70 v : fits leb_width v → 0 ≤ v < 2 ^ (7 * Z.of_nat 10).
Proof.
  unfold fits. intros Hv. pose proof (leb_shifts_reach (L := L)).
  pose proof (leb_width_bound (L := L)) as Hw.
  assert (2 ^ leb_width ≤ 2 ^ (7 * Z.of_nat 10)) by (apply Z.pow_le_mono_r; lia). lia.
Qed.

Lemma next_leb128_write v rest :
  fits leb_width v → next_leb128 (write_loop 10 v ++ rest) = (Some v, rest).
Proof.
  intros Hv. pose proof (fits_70 v Hv). unfold fits in Hv. unfold next_leb128.
  pose proof (leb_shifts_reach (L := L)) as Hreach.
  pose proof (read_it_write_loop (length leb_shifts) 0 10 0 v rest) as Hl.
  rewrite Z.mul_0_r, Z.pow_0_r, Z.mul_1_r, !Z.add_0_l, <- leb_shifts_sevens in Hl.
  apply Hl; lia.
Qed.

(** The same through any iterator that delivers the bytes written. *)
Lemma next_leb128_delivers `{ByteIter It} (it it' : It) v rest :
  fits leb_width v → delivers it (write_loop 10 v ++ rest) it' →
  ∃ im, next_leb128 it = (Some v, im) ∧ delivers im rest it'.
Proof.
  intros Hv Hd. eapply read_it_delivers; [done|]. by apply next_leb128_write.
Qed.

(** The slice readers see what the iterator reader sees. *)
Lemma read_slice_it shifts result l :
  read_slice shifts result l = (read_it shifts result l).1.
Proof.
  revert result l. induction shifts as [|s shifts IH]; intros result [|b l]; try done.
  simpl. by destruct (_ =? _).
Qed.

Lemma read_pos_it shifts result pos l :
  read_pos shifts result pos l =
    match read_it shifts result l with
    | (Some v, rest) => Some (v, pos + Z.of_nat (length l) - Z.of_nat (length rest))
    | (None, _) => None
    end.
Proof.
  revert result pos l. induction shifts as [|s shifts IH]; intros result pos [|b l]; try done.
  simpl. destruct (_ =? _).
  - do 2 f_equal. lia.
  - rewrite IH. destruct (read_it _ _ _) as [[?|] ?]; [|done]. do 2 f_equal. lia.
Qed.
End Lemmas.

(** Skipping an integer passes over exactly what a reader would consume. *)
Lemma skip_from_write_loop fuel v pos rest :
  0 ≤ v < 2 ^ (7 * Z.of_nat fuel) → (1 ≤ fuel)%nat →
  skip_from pos (write_loop fuel v ++ rest)
  = Some (pos + Z.of_nat (length (write_loop fuel v))).
Proof.
  revert v pos. induction fuel as [|fuel IH]; intros v pos Hv Hf; [lia|].
  destruct (decide (v < 128)).
  - rewrite write_loop_last by done. simpl. by rewrite last_byte_flag by lia.
  - rewrite write_loop_cons by lia.
    pose proof (Z.mod_pos_bound v 128 ltac:(lia)).
    cbn [app skip_from length]. rewrite cont_byte_flag by lia.
    rewrite Nat2Z.inj_succ, Z.mul_succ_r, Z.pow_add_r in Hv by lia.
    change (2 ^ 7) with 128 in Hv. rewrite IH.
    + f_equal. lia.
    + split; [apply Z.div_pos; lia|apply Z.div_lt_upper_bound; lia].
    + destruct fuel; [change (2 ^ (7 * Z.of_nat 0)) with 1 in Hv; lia|lia].
Qed.

(** ** Properties *)

(** C40.  For [u16], [u32], [u64] and [usize] every reader returns the value
    that [to_leb128_bytes] wrote, whatever bytes follow: the iterator stops
    right after the integer and the position returned is the number of bytes
    that were written. *)
Theorem leb128_roundtrip `{L : Leb128_} {HL : LebLawful L} (v : Z) (rest : bytes)
    (Hv : fits leb_width v) :
  let out := to_leb128_bytes v [] in
  next_leb128 (out ++ rest) = (Some v, rest) ∧
  from_leb128_bytes (out ++ rest) = Some v ∧
  from_leb128_bytes_pos (out ++ rest) = Some (v, Z.of_nat (length out)) ∧
  skip_leb128 (out ++ rest) = Some (Z.of_nat (length out)).
Proof.
  unfold to_leb128_bytes. cbv zeta. rewrite app_nil_l.
  pose proof (next_leb128_write v rest Hv) as Hn. unfold next_leb128 in Hn.
  repeat split.
  - done.
  - unfold from_leb128_bytes. by rewrite read_slice_it, Hn.
  - unfold from_leb128_bytes_pos. rewrite read_pos_it, Hn, length_app. do 2 f_equal. lia.
  - unfold skip_leb128. rewrite skip_from_write_loop by (apply (fits_70 v Hv) || lia).
    done.
Qed.

Lemma leb128_roundtrip_witness :
  fits 64 624485 ∧ to_leb128_bytes 624485 [] = [229; 142; 38] ∧
  next_leb128 (L := leb_u64) ([229; 142; 38] ++ [7]) = (Some 624485, [7]).
Proof.
  split; [width|]. split; [reflexivity|].
  apply (leb128_roundtrip (L := leb_u64) 624485 [7]). width.
Defined.

(**  The [u8] instance is not lawful: it accepts one byte only, so every
    value from 128 on is written as two bytes that no [u8] reader accepts,
    while values below 128 do come back. *)
Theorem leb128_u8_limit (v : Z) (Hv : fits 8 v) :
  @from_leb128_bytes leb_u8 (to_leb128_bytes v []) =
    if v <? 128 then Some v else None.
Proof.
  apply (byte_cases (λ v, @from_leb128_bytes leb_u8 (to_leb128_bytes v []) =
    if v <? 128 then Some v else None)); [by vm_compute|exact Hv].
Qed.

Lemma leb128_u8_limit_witness :
  fits 8 200 ∧ @from_leb128_bytes leb_u8 (to_leb128_bytes 200 []) = None.
Proof. split; [width|]. apply (leb128_u8_limit 200). width. Defined.
