(* ===== verification/Base32.v ===== *)
(** * The custom base32 alphabet: crates/utils/src/codec/base32_custom.rs

    Writer and reader of the five-bit encoding that blob ids are made of. *)

From S2P Require Import Prelude Leb128.

Open Scope word_scope.

(** The 32 letters [abcdefghijklmnopqrstuvwxyz792013]. *)
Definition BASE32_ALPHABET : list Z :=
  [97; 98; 99; 100; 101; 102; 103; 104; 105; 106; 107; 108; 109; 110; 111; 112; 113; 114;
   115; 116; 117; 118; 119; 120; 121; 122; 55; 57; 50; 48; 49; 51].

(** The inverse table, 255 for a byte outside the alphabet; upper-case letters
    [K]..[Z] are accepted too. *)
Definition BASE32_INVERSE : list Z :=
  replicate 48 255 ++ [29; 30; 28; 31; 255; 255; 255; 26; 255; 27] ++ replicate 17 255 ++
  seqZ 10 16 ++ replicate 6 255 ++ seqZ 0 26 ++ replicate 133 255.

Definition base32_char (i : Z) : Z := default 0 (BASE32_ALPHABET !! Z.to_nat i).
Definition base32_rank (b : Z) : Z := default 255 (BASE32_INVERSE !! Z.to_nat b).

(** ** The writer *)

Record Base32Writer := {
  w_last_byte : Z;
  w_pos : Z;
  w_result : bytes;
}.

Definition with_raw_capacity : Base32Writer :=
  {| w_last_byte := 0; w_pos := 0; w_result := [] |}.

Definition push_char (ch : Z) (w : Base32Writer) : Base32Writer :=
  {| w_last_byte := w_last_byte w; w_pos := w_pos w; w_result := w_result w ++ [ch] |}.

Definition push_string (s : bytes) (w : Base32Writer) : Base32Writer :=
  {| w_last_byte := w_last_byte w; w_pos := w_pos w; w_result := w_result w ++ s |}.

(** The one or two five-bit groups that a byte completes at a position. *)
Definition byte_groups (pos last_byte b : Z) : Z * Z :=
  match pos mod 5 with
  | 0 => (Z.shiftr (b .& 248) 3, 255)
  | 1 => (shl 8 (last_byte .& 7) 2 .| Z.shiftr (b .& 192) 6, Z.shiftr (b .& 62) 1)
  | 2 => (shl 8 (last_byte .& 1) 4 .| Z.shiftr (b .& 240) 4, 255)
  | 3 => (shl 8 (last_byte .& 15) 1 .| Z.shiftr b 7, Z.shiftr (b .& 124) 2)
  | _ => (shl 8 (last_byte .& 3) 3 .| Z.shiftr (b .& 224) 5, b .& 31)
  end.

Definition push_byte (b : Z) (is_remainder : bool) (w : Base32Writer) : Base32Writer :=
  let '(ch1, ch2) := byte_groups (w_pos w) (w_last_byte w) b in
  let result := w_result w ++ [base32_char ch1] in
  if is_remainder then
    {| w_last_byte := w_last_byte w; w_pos := w_pos w; w_result := result |}
  else
    {| w_last_byte := b;
       w_pos := w_pos w + 1;
       w_result := if ch2 =? 255 then result else result ++ [base32_char ch2] |}.

(** [Write::write]: all bytes are taken, the count is the advance of [pos]. *)
Definition base32_write (l : bytes) (w : Base32Writer) : Base32Writer * Z :=
  let w' := foldl (λ w b, push_byte b false w) w l in
  (w', w_pos w' - w_pos w).

Definition base32_finalize (w : Base32Writer) : bytes :=
  if w_pos w mod 5 =? 0 then w_result w else w_result (push_byte 0 true w).

Definition base32_from_bytes (l : bytes) : Base32Writer :=
  (base32_write l with_raw_capacity).1.

(** ** The reader *)

(** The reader takes its letters from an iterator: a slice here, a JSON string
    in [JsonBase32Reader], whose [map_byte] and [next] are the same code. *)
Record Base32Reader (It : Type) := {
  r_bytes : It;
  r_last_byte : Z;
  r_pos : Z;
}.
Arguments Build_Base32Reader {It} _ _ _.
Arguments r_bytes {It} _.
Arguments r_last_byte {It} _.
Arguments r_pos {It} _.

Section Reader.
Context `{ByteIter It}.
Implicit Types r : Base32Reader It.

Definition reader_new (l : It) : Base32Reader It :=
  {| r_bytes := l; r_last_byte := 0; r_pos := 0 |}.

Definition map_byte r : option Z * Base32Reader It :=
  match iter_next (r_bytes r) with
  | (None, rest) =>
      (None, {| r_bytes := rest; r_last_byte := r_last_byte r; r_pos := r_pos r |})
  | (Some b, rest) =>
      if base32_rank b =? 255 then
        (None, {| r_bytes := rest; r_last_byte := r_last_byte r; r_pos := r_pos r |})
      else
        (Some (base32_rank b),
         {| r_bytes := rest; r_last_byte := base32_rank b; r_pos := r_pos r |})
  end.

Definition reader_next r : option Z * Base32Reader It :=
  let pos := r_pos r mod 5 in
  let last_byte := r_last_byte r in
  match map_byte r with
  | (None, r) => (None, r)
  | (Some b, r) =>
      let r := {| r_bytes := r_bytes r; r_last_byte := r_last_byte r; r_pos := r_pos r + 1 |} in
      let with_next k := let '(o, r') := map_byte r in (Some (k (default 0 o)), r') in
      match pos with
      | 0 => with_next (λ n, shl 8 b 3 .| Z.shiftr n 2)
      | 1 => with_next (λ n, shl 8 last_byte 6 .| shl 8 b 1 .| Z.shiftr n 4)
      | 2 => (Some (shl 8 last_byte 4 .| Z.shiftr b 1), r)
      | 3 => with_next (λ n, shl 8 last_byte 7 .| shl 8 b 2 .| Z.shiftr n 3)
      | 4 => (Some (shl 8 last_byte 5 .| b), r)
      | _ => (None, r)
      end
  end.

(** [impl Leb128Iterator<u8> for Base32Reader] *)
#[export] Instance base32_iter : ByteIter (Base32Reader It) := reader_next.

(** [for byte in reader]: every item consumes a letter, so the number of
    letters bounds the iterations. *)
Fixpoint reader_collect (fuel : nat) r : bytes :=
  match fuel with
  | O => []
  | S fuel =>
      match reader_next r with
      | (Some b, r) => b :: reader_collect fuel r
      | (None, _) => []
      end
  end.
End Reader.

Definition base32_decode (l : bytes) : bytes := reader_collect (S (length l)) (reader_new l).

Definition base32_encode (l : bytes) : bytes := base32_finalize (base32_from_bytes l).

(** ** Lemmas *)

(** The five-bit groups of a byte string, five bytes at a time: what the
    writer's state machine computes. *)
Fixpoint groups (l : bytes) : list Z :=
  match l with
  | [] => []
  | [b0] => [Z.shiftr (b0 .& 248) 3; shl 8 (b0 .& 7) 2 .| Z.shiftr (0 .& 192) 6]
  | [b0; b1] =>
      [Z.shiftr (b0 .& 248) 3; shl 8 (b0 .& 7) 2 .| Z.shiftr (b1 .& 192) 6;
       Z.shiftr (b1 .& 62) 1; shl 8 (b1 .& 1) 4 .| Z.shiftr (0 .& 240) 4]
  | [b0; b1; b2] =>
      [Z.shiftr (b0 .& 248) 3; shl 8 (b0 .& 7) 2 .| Z.shiftr (b1 .& 192) 6;
       Z.shiftr (b1 .& 62) 1; shl 8 (b1 .& 1) 4 .| Z.shiftr (b2 .& 240) 4;
       shl 8 (b2 .& 15) 1 .| Z.shiftr 0 7]
  | [b0; b1; b2; b3] =>
      [Z.shiftr (b0 .& 248) 3; shl 8 (b0 .& 7) 2 .| Z.shiftr (b1 .& 192) 6;
       Z.shiftr (b1 .& 62) 1; shl 8 (b1 .& 1) 4 .| Z.shiftr (b2 .& 240) 4;
       shl 8 (b2 .& 15) 1 .| Z.shiftr b3 7; Z.shiftr (b3 .& 124) 2;
       shl 8 (b3 .& 3) 3 .| Z.shiftr (0 .& 224) 5]
  | b0 :: b1 :: b2 :: b3 :: b4 :: rest =>
      [Z.shiftr (b0 .& 248) 3; shl 8 (b0 .& 7) 2 .| Z.shiftr (b1 .& 192) 6;
       Z.shiftr (b1 .& 62) 1; shl 8 (b1 .& 1) 4 .| Z.shiftr (b2 .& 240) 4;
       shl 8 (b2 .& 15) 1 .| Z.shiftr b3 7; Z.shiftr (b3 .& 124) 2;
       shl 8 (b3 .& 3) 3 .| Z.shiftr (b4 .& 224) 5; b4 .& 31] ++ groups rest
  end.

Lemma list_ind5 {A} (P : list A → Prop) :
  P [] → (∀ a, P [a]) → (∀ a b, P [a; b]) → (∀ a b c, P [a; b; c]) →
  (∀ a b c d, P [a; b; c; d]) →
  (∀ a b c d e l, P l → P (a :: b :: c :: d :: e :: l)) → ∀ l, P l.
Proof.
  intros H0 H1 H2 H3 H4 H5. fix IH 1. intros [|a [|b [|c [|d [|e l]]]]];
    [apply H0|apply H1|apply H2|apply H3|apply H4|apply H5, IH].
Qed.

Lemma base32_rank_char i : fits 5 i → base32_rank (base32_char i) = i ∧ i ≠ 255.
Proof.
  intros Hi. apply (byte_cases (λ i, fits 5 i → base32_rank (base32_char i) = i ∧ i ≠ 255));
    [by vm_compute|width|done].
Qed.

Lemma fits5 x : x = (x .& 31) → fits 5 x.
Proof.
  intros ->. change 31 with (2 ^ 5 - 1). rewrite land_ones_low by lia.
  by apply (wrap_fits 5).
Qed.

Ltac five := apply fits5; byte_bits.

Section Groups.
Context (a b : Z) (Ha : is_byte a) (Hb : is_byte b).

Lemma group0 : fits 5 (Z.shiftr (a .& 248) 3).
Proof using Ha. five. Qed.
Lemma group1 : fits 5 (shl 8 (a .& 7) 2 .| Z.shiftr (b .& 192) 6).
Proof using Ha Hb. five. Qed.
Lemma group2 : fits 5 (Z.shiftr (b .& 62) 1).
Proof using Hb. five. Qed.
Lemma group3 : fits 5 (shl 8 (a .& 1) 4 .| Z.shiftr (b .& 240) 4).
Proof using Ha Hb. five. Qed.
Lemma group4 : fits 5 (shl 8 (a .& 15) 1 .| Z.shiftr b 7).
Proof using Ha Hb. five. Qed.
Lemma group5 : fits 5 (Z.shiftr (b .& 124) 2).
Proof using Hb. five. Qed.
Lemma group6 : fits 5 (shl 8 (a .& 3) 3 .| Z.shiftr (b .& 224) 5).
Proof using Ha Hb. five. Qed.
Lemma group7 : fits 5 (b .& 31).
Proof using Hb. five. Qed.
End Groups.

Lemma five_ne i : fits 5 i → (i =? 255) = false.
Proof. intros Hi. apply Z.eqb_neq. width. Qed.

(** One step of the writer at each position of a five-byte block. *)
Section Push.
Context (b : Z) (w : Base32Writer) (Hb : is_byte b).

Lemma push0 : w_pos w mod 5 = 0 →
  push_byte b false w =
    Build_Base32Writer b (w_pos w + 1) (w_result w ++ [base32_char (Z.shiftr (b .& 248) 3)]).
Proof. intros H. by unfold push_byte, byte_groups; rewrite H. Qed.

Lemma push1 : w_pos w mod 5 = 1 →
  push_byte b false w =
    Build_Base32Writer b (w_pos w + 1)
      (w_result w ++ [base32_char (shl 8 (w_last_byte w .& 7) 2 .| Z.shiftr (b .& 192) 6);
                      base32_char (Z.shiftr (b .& 62) 1)]).
Proof using Hb.
  intros H. unfold push_byte, byte_groups. rewrite H.
  by rewrite (five_ne _ (group2 b Hb)), <- app_assoc.
Qed.

Lemma push2 : w_pos w mod 5 = 2 →
  push_byte b false w =
    Build_Base32Writer b (w_pos w + 1)
      (w_result w ++ [base32_char (shl 8 (w_last_byte w .& 1) 4 .| Z.shiftr (b .& 240) 4)]).
Proof. intros H. by unfold push_byte, byte_groups; rewrite H. Qed.

Lemma push3 : w_pos w mod 5 = 3 →
  push_byte b false w =
    Build_Base32Writer b (w_pos w + 1)
      (w_result w ++ [base32_char (shl 8 (w_last_byte w .& 15) 1 .| Z.shiftr b 7);
                      base32_char (Z.shiftr (b .& 124) 2)]).
Proof using Hb.
  intros H. unfold push_byte, byte_groups. rewrite H.
  by rewrite (five_ne _ (group5 b Hb)), <- app_assoc.
Qed.

Lemma push4 : w_pos w mod 5 = 4 →
  push_byte b false w =
    Build_Base32Writer b (w_pos w + 1)
      (w_result w ++ [base32_char (shl 8 (w_last_byte w .& 3) 3 .| Z.shiftr (b .& 224) 5);
                      base32_char (b .& 31)]).
Proof using Hb.
  intros H. unfold push_byte, byte_groups. rewrite H.
  by rewrite (five_ne _ (group7 b Hb)), <- app_assoc.
Qed.
End Push.

Lemma mod5_plus p k : p mod 5 = 0 → (p + k) mod 5 = k mod 5.
Proof. intros Hp. by rewrite Z.add_mod, Hp, Z.add_0_l, Z.mod_mod by lia. Qed.

(** The remainder that [finalize] flushes at a position. *)
Lemma finalize_flush w :
  w_pos w mod 5 ≠ 0 →
  base32_finalize w
  = w_result w ++ [base32_char (byte_groups (w_pos w) (w_last_byte w) 0).1].
Proof.
  intros Hp. unfold base32_finalize. apply Z.eqb_neq in Hp. rewrite Hp.
  unfold push_byte. by destruct (byte_groups _ _ _).
Qed.

Ltac at_pos H :=
  cbn [w_pos]; rewrite <- ?Z.add_assoc; (exact H || (rewrite (mod5_plus _ _ H); done)).
Ltac push_at lem H :=
  match goal with
  | |- context [push_byte ?b false (Build_Base32Writer ?x ?y ?z)] =>
      rewrite (lem b (Build_Base32Writer x y z)) by (done || at_pos H);
      cbn [w_last_byte w_pos w_result]
  end.
Ltac flush H :=
  rewrite finalize_flush by (cbn [w_pos]; rewrite <- ?Z.add_assoc, (mod5_plus _ _ H); done);
  unfold byte_groups; cbn [w_pos w_last_byte w_result];
  rewrite <- ?Z.add_assoc, (mod5_plus _ _ H); by rewrite <- ?app_assoc.

Lemma base32_finalize_groups l w :
  bytes_ok l → w_pos w mod 5 = 0 →
  base32_finalize (foldl (λ w b, push_byte b false w) w l)
  = w_result w ++ (base32_char <$> groups l).
Proof.
  intros Hl Hp. revert l w Hl Hp.
  refine (list_ind5 _ _ _ _ _ _ _); intros; decompose_Forall_hyps; cbn [foldl].
  - unfold base32_finalize. by rewrite Hp, app_nil_r.
  - rewrite (push0 _ w) by done. flush Hp.
  - rewrite (push0 _ w) by done. push_at push1 Hp. flush Hp.
  - rewrite (push0 _ w) by done. push_at push1 Hp. push_at push2 Hp. flush Hp.
  - rewrite (push0 _ w) by done. push_at push1 Hp. push_at push2 Hp. push_at push3 Hp. flush Hp.
  - rewrite (push0 _ w) by done.
    push_at push1 Hp. push_at push2 Hp. push_at push3 Hp. push_at push4 Hp.
    rewrite H by (done || at_pos Hp). cbn [w_result groups].
    by rewrite <- !app_assoc.
Qed.

(** One step of the reader at each position of an eight-letter block. *)
Section Next.
Context `{ByteIter It} (it it1 it2 : It) (last pos c d : Z) (Hc : fits 5 c) (Hd : fits 5 d).
Context (H1 : iter_next it = (Some (base32_char c), it1)).
Context (H2 : iter_next it1 = (Some (base32_char d), it2)).
#[local] Abbreviation r := (Build_Base32Reader it last pos).

Lemma map_byte_char i i' e lst p :
  fits 5 e → iter_next i = (Some (base32_char e), i') →
  map_byte (Build_Base32Reader i lst p) = (Some e, Build_Base32Reader i' e p).
Proof.
  intros He Hi. unfold map_byte; cbn [r_bytes]. rewrite Hi.
  destruct (base32_rank_char e He) as [-> Hne]. by rewrite (five_ne e He).
Qed.

Ltac next_tac Hp :=
  unfold reader_next; cbn [r_pos r_last_byte];
  rewrite Hp, (map_byte_char _ _ _ _ _ Hc H1); cbn [r_bytes r_last_byte r_pos];
  rewrite ?(map_byte_char _ _ _ _ _ Hd H2); done.

Lemma next0 : pos mod 5 = 0 →
  reader_next r = (Some (shl 8 c 3 .| Z.shiftr d 2), Build_Base32Reader it2 d (pos + 1)).
Proof using Hc Hd H1 H2. intros Hp. next_tac Hp. Qed.
Lemma next1 : pos mod 5 = 1 →
  reader_next r = (Some (shl 8 last 6 .| shl 8 c 1 .| Z.shiftr d 4),
                   Build_Base32Reader it2 d (pos + 1)).
Proof using Hc Hd H1 H2. intros Hp. next_tac Hp. Qed.
Lemma next2 : pos mod 5 = 2 →
  reader_next r = (Some (shl 8 last 4 .| Z.shiftr c 1), Build_Base32Reader it1 c (pos + 1)).
Proof using Hc H1. intros Hp. next_tac Hp. Qed.
Lemma next3 : pos mod 5 = 3 →
  reader_next r = (Some (shl 8 last 7 .| shl 8 c 2 .| Z.shiftr d 3),
                   Build_Base32Reader it2 d (pos + 1)).
Proof using Hc Hd H1 H2. intros Hp. next_tac Hp. Qed.
Lemma next4 : pos mod 5 = 4 →
  reader_next r = (Some (shl 8 last 5 .| c), Build_Base32Reader it1 c (pos + 1)).
Proof using Hc H1. intros Hp. next_tac Hp. Qed.
End Next.

(** Each byte is recovered from the groups around it. *)
Section Recover.
Context (a b c : Z) (Ha : is_byte a) (Hb : is_byte b) (Hc : is_byte c).

Lemma recover0 :
  (shl 8 (Z.shiftr (a .& 248) 3) 3 .| Z.shiftr (shl 8 (a .& 7) 2 .| Z.shiftr (b .& 192) 6) 2) = a.
Proof using Ha Hb. byte_bits. Qed.
Lemma recover1 :
  (shl 8 (shl 8 (a .& 7) 2 .| Z.shiftr (b .& 192) 6) 6 .| shl 8 (Z.shiftr (b .& 62) 1) 1
   .| Z.shiftr (shl 8 (b .& 1) 4 .| Z.shiftr (c .& 240) 4) 4) = b.
Proof using Ha Hb Hc. byte_bits. Qed.
Lemma recover2 :
  (shl 8 (shl 8 (a .& 1) 4 .| Z.shiftr (b .& 240) 4) 4
   .| Z.shiftr (shl 8 (b .& 15) 1 .| Z.shiftr c 7) 1) = b.
Proof using Ha Hb Hc. byte_bits. Qed.
Lemma recover3 :
  (shl 8 (shl 8 (a .& 15) 1 .| Z.shiftr b 7) 7 .| shl 8 (Z.shiftr (b .& 124) 2) 2
   .| Z.shiftr (shl 8 (b .& 3) 3 .| Z.shiftr (c .& 224) 5) 3) = b.
Proof using Ha Hb Hc. byte_bits. Qed.
Lemma recover4 :
  (shl 8 (shl 8 (a .& 3) 3 .| Z.shiftr (b .& 224) 5) 5 .| (b .& 31)) = b.
Proof using Ha Hb. byte_bits. Qed.
End Recover.

Lemma zero_byte : is_byte 0.
Proof. width. Qed.
#[local] Hint Resolve zero_byte group0 group1 group2 group3 group4 group5 group6 group7 : core.

Ltac deliver lem rec Hp :=
  eapply delivers_cons;
  [unfold iter_next, base32_iter; etransitivity;
   [eapply lem;
    lazymatch goal with |- iter_next _ = _ => eassumption | |- _ => idtac end;
    solve [done|auto|at_pos Hp]
   |by rewrite rec by auto]|].
Ltac inv_delivers :=
  repeat match goal with
  | H : delivers _ (_ :: _) _ |- _ => inversion H; clear H; subst
  | H : delivers _ [] _ |- _ => inversion H; clear H; subst
  end.

(** The reader delivers, byte by byte, what the writer took. *)
Lemma reader_delivers `{ByteIter It} l (it it' : It) last pos :
  bytes_ok l → pos mod 5 = 0 → delivers it (base32_char <$> groups l) it' →
  ∃ last' pos', delivers (Build_Base32Reader it last pos) l (Build_Base32Reader it' last' pos').
Proof.
  intros Hl Hp Hd. revert l it last pos Hl Hp Hd.
  refine (list_ind5 _ _ _ _ _ _ _).
  - intros it last pos _ _ Hd. cbn [groups fmap list_fmap] in Hd. inv_delivers.
    do 2 eexists. apply delivers_nil.
  - intros b0 it last pos Hl Hp Hd. decompose_Forall_hyps. cbn [groups fmap list_fmap] in Hd.
    inv_delivers. do 2 eexists. deliver next0 recover0 Hp. apply delivers_nil.
  - intros b0 b1 it last pos Hl Hp Hd. decompose_Forall_hyps.
    cbn [groups fmap list_fmap] in Hd. inv_delivers. do 2 eexists.
    deliver next0 recover0 Hp. deliver next1 recover1 Hp. apply delivers_nil.
  - intros b0 b1 b2 it last pos Hl Hp Hd. decompose_Forall_hyps.
    cbn [groups fmap list_fmap] in Hd. inv_delivers. do 2 eexists.
    deliver next0 recover0 Hp. deliver next1 recover1 Hp. deliver next2 recover2 Hp.
    apply delivers_nil.
  - intros b0 b1 b2 b3 it last pos Hl Hp Hd. decompose_Forall_hyps.
    cbn [groups fmap list_fmap] in Hd. inv_delivers. do 2 eexists.
    deliver next0 recover0 Hp. deliver next1 recover1 Hp. deliver next2 recover2 Hp.
    deliver next3 recover3 Hp. apply delivers_nil.
  - intros b0 b1 b2 b3 b4 l IH it last pos Hl Hp Hd. decompose_Forall_hyps.
    cbn [groups app fmap list_fmap] in Hd. inv_delivers.
    match goal with
    | H : delivers ?i (_ <$> _) _ |- _ =>
        destruct (IH i (b4 .& 31) (pos + 1 + 1 + 1 + 1 + 1)) as (last' & pos' & Hrest);
          [done|at_pos Hp|done|]
    end. exists last', pos'.
    deliver next0 recover0 Hp. deliver next1 recover1 Hp. deliver next2 recover2 Hp.
    deliver next3 recover3 Hp. deliver next4 recover4 Hp. exact Hrest.
Qed.

Lemma collect_delivers `{ByteIter It} (r r' : Base32Reader It) l fuel :
  delivers r l r' → (reader_next r').1 = None → (length l < fuel)%nat →
  reader_collect fuel r = l.
Proof.
  intros Hs Hend. revert fuel.
  induction Hs as [r|r r1 r' b l Hn Hs IH]; intros [|fuel] Hf; simpl in *; try lia.
  - destruct (reader_next r) as [[?|] ?]; done.
  - unfold iter_next, base32_iter in Hn. rewrite Hn. f_equal. apply IH; [done|lia].
Qed.

Lemma base32_encode_groups l : bytes_ok l → base32_encode l = base32_char <$> groups l.
Proof.
  intros Hl. unfold base32_encode, base32_from_bytes, base32_write. cbn [fst].
  by rewrite base32_finalize_groups.
Qed.

Lemma length_groups l : (length l ≤ length (groups l))%nat.
Proof.
  revert l. refine (list_ind5 _ _ _ _ _ _ _); intros; simpl; lia.
Qed.

Lemma groups_fits l : bytes_ok l → Forall (fits 5) (groups l).
Proof.
  revert l. refine (list_ind5 _ _ _ _ _ _ _); intros; decompose_Forall_hyps;
    cbn [groups app]; repeat (apply Forall_cons; split; [solve [auto]|]); auto.
Qed.

(** Every group picks a letter: the index never leaves the alphabet. *)
Lemma base32_char_elem i : fits 5 i → base32_char i ∈ BASE32_ALPHABET.
Proof.
  intros Hi. unfold base32_char.
  destruct (lookup_lt_is_Some_2 BASE32_ALPHABET (Z.to_nat i)) as [c Hc].
  { unfold fits in Hi. simpl. lia. }
  rewrite Hc. by eapply list_elem_of_lookup_2.
Qed.

(** ** Properties *)

(**  Decoding what the writer produced for a byte string gives that byte
    string back, for every length modulo five, and every letter of the
    encoding is a letter of the alphabet. *)
Theorem base32_roundtrip (l : bytes) (Hl : bytes_ok l) :
  base32_decode (base32_encode l) = l ∧
  Forall (λ c, c ∈ BASE32_ALPHABET) (base32_encode l).
Proof.
  rewrite base32_encode_groups by done. split.
  - pose proof (slice_delivers (base32_char <$> groups l) []) as Hd.
    rewrite app_nil_r in Hd. destruct (reader_delivers l _ _ 0 0 Hl eq_refl Hd) as (? & ? & Hr).
    eapply collect_delivers; [exact Hr|done|]. rewrite length_fmap.
    pose proof (length_groups l). lia.
  - apply Forall_fmap. eapply Forall_impl; [by apply groups_fits|]. apply base32_char_elem.
Qed.

Lemma base32_roundtrip_witness :
  bytes_ok [84; 4; 43; 77; 62; 55; 92] ∧
  base32_decode (base32_encode [84; 4; 43; 77; 62; 55; 92]) = [84; 4; 43; 77; 62; 55; 92].
Proof.
  assert (bytes_ok [84; 4; 43; 77; 62; 55; 92]) as H by (repeat constructor; width).
  split; [exact H|]. apply (base32_roundtrip _ H).
Defined.
