(* ===== verification/JmapId.v ===== *)
(** * JMAP object ids: crates/jmap-proto/src/types/id.rs

    A 64-bit id printed in the custom base32 alphabet by a shift register that
    carries a stop bit, and the ids that pack a thread and a document. *)

From S2P Require Import Prelude Base32.

Open Scope word_scope.

Record Id := { id : Z }.

Definition id_default : Id := {| id := u64_max |}.

(** [Id::from_bytes]: five more bits per letter, [None] outside the alphabet. *)
Fixpoint from_letters (acc : Z) (l : bytes) : option Z :=
  match l with
  | [] => Some acc
  | ch :: l =>
      let i := base32_rank ch in
      if i =? 255 then None else from_letters (shl 64 acc 5 .| i) l
  end.

Definition id_from_bytes (l : bytes) : option Id := Build_Id <$> from_letters 0 l.

Definition id_singleton : Id := {| id := 20080258862541 |}.

(** [u64::leading_zeros] *)
Definition leading_zeros (n : Z) : Z := if n =? 0 then 64 else 63 - Z.log2 n.

Definition STOP_BIT : Z := Z.shiftl 1 60.

(** The printing loop.  Thirteen rounds are enough: twelve groups of five bits
    and the test that stops ([register_digits]). *)
Fixpoint register_loop (fuel : nat) (n : Z) (buf : bytes) : bytes :=
  match fuel with
  | O => buf
  | S fuel =>
      if n =? STOP_BIT then buf
      else register_loop fuel (shl 64 n 5) (buf ++ [base32_char (Z.shiftr n 59)])
  end.

Definition id_as_string (i : Id) : bytes :=
  if id i =? 0 then [97]
  else
    let n := id i in
    let top := Z.shiftr n 60 in
    let n := shl 64 n 4 .| 1 in
    if top =? 0 then register_loop 13 (shl 64 n (leading_zeros n / 5 * 5)) []
    else register_loop 13 n [base32_char top].

Definition id_from_parts (prefix_id doc_id : Z) : Id :=
  {| id := shl 64 prefix_id 32 .| doc_id |}.

Definition id_document_id (i : Id) : Z := wrap 32 (id i .& 4294967295).
Definition id_prefix_id (i : Id) : Z := wrap 32 (Z.shiftr (id i) 32).
Definition id_is_singleton (i : Id) : bool := id i =? 20080258862541.
Definition id_is_valid (i : Id) : bool := negb (id i =? u64_max).

(** ** Lemmas *)

(** [k] letters for the base-32 digits of [x], most significant first. *)
Fixpoint digits (k : nat) (x : Z) : bytes :=
  match k with
  | O => []
  | S k => base32_char (x / 32 ^ Z.of_nat k) :: digits k (x mod 32 ^ Z.of_nat k)
  end.

Lemma from_letters_digits k x acc rest :
  0 ≤ x < 32 ^ Z.of_nat k → 0 ≤ acc → acc * 32 ^ Z.of_nat k + x < 2 ^ 64 →
  from_letters acc (digits k x ++ rest) = from_letters (acc * 32 ^ Z.of_nat k + x) rest.
Proof.
  revert x acc. induction k as [|k IH]; intros x acc Hx Hacc Hb.
  { simpl digits. rewrite app_nil_l. f_equal. simpl in *. lia. }
  rewrite Nat2Z.inj_succ, Z.pow_succ_r in * by lia.
  set (p := 32 ^ Z.of_nat k) in *. assert (0 < p) by (unfold p; lia).
  pose proof (Z.div_mod x p ltac:(lia)) as Hdm.
  pose proof (Z.mod_pos_bound x p ltac:(lia)) as Hm.
  assert (fits 5 (x / p)) as Hd.
  { split; [apply Z.div_pos; lia|]. apply Z.div_lt_upper_bound; simpl; lia. }
  cbn [digits app from_letters]. fold p.
  destruct (base32_rank_char _ Hd) as [-> _]. rewrite five_ne by done.
  assert ((shl 64 acc 5 .| x / p) = acc * 32 + x / p) as ->.
  { unfold shl. rewrite Z.shiftl_mul_pow2 by lia.
    rewrite wrap_id by (unfold fits in *; simpl in *; nia).
    rewrite Z.lor_comm, lor_add by (unfold fits in *; lia). simpl. lia. }
  rewrite IH by (try done; unfold fits in *; nia). f_equal. nia.
Qed.

(** The register when [k] digits of [x] are left: the digits, the stop bit,
    and the zeros shifted in. *)
Definition register (k : nat) (x : Z) : Z := (x * 16 + 1) * 2 ^ (60 - 5 * Z.of_nat k).

Lemma pow32 k : 32 ^ Z.of_nat k = 2 ^ (5 * Z.of_nat k).
Proof. rewrite Z.pow_mul_r by lia. done. Qed.

Lemma register_digits k x fuel buf :
  (k ≤ 12)%nat → (k < fuel)%nat → 0 ≤ x < 32 ^ Z.of_nat k →
  register_loop fuel (register k x) buf = buf ++ digits k x.
Proof.
  revert x fuel buf. induction k as [|k IH]; intros x [|fuel] buf Hk Hf Hx; try lia.
  { simpl digits. rewrite app_nil_r. simpl in Hx. replace x with 0 by lia. done. }
  rewrite Nat2Z.inj_succ, Z.pow_succ_r in Hx by lia.
  set (p := 32 ^ Z.of_nat k) in *. assert (0 < p) by (unfold p; lia).
  pose proof (Z.div_mod x p ltac:(lia)) as Hdm.
  pose proof (Z.mod_pos_bound x p ltac:(lia)) as Hm.
  assert (0 ≤ x / p < 32) as Hd.
  { split; [apply Z.div_pos; lia|]. apply Z.div_lt_upper_bound; lia. }
  set (q := 2 ^ (55 - 5 * Z.of_nat k)). assert (0 < q) by (unfold q; lia).
  assert (p * q = 2 ^ 55) as Hpq.
  { unfold p, q. rewrite pow32, <- Z.pow_add_r by lia. f_equal. lia. }
  assert (register (S k) x = (x * 16 + 1) * q) as Hreg.
  { unfold register, q. do 2 f_equal. lia. }
  cbn [register_loop digits]. fold p. rewrite Hreg.
  destruct (Z.eqb_spec ((x * 16 + 1) * q) STOP_BIT) as [E|_].
  { exfalso. change STOP_BIT with (32 * 2 ^ 55) in E. rewrite <- Hpq in E.
    assert (x * 16 + 1 = 32 * p) by nia. lia. }
  assert (Z.shiftr ((x * 16 + 1) * q) 59 = x / p) as ->.
  { rewrite Z.shiftr_div_pow2 by lia. change (2 ^ 59) with (16 * 2 ^ 55). rewrite <- Hpq.
    symmetry. apply Z.div_unique with ((x mod p * 16 + 1) * q); [left|]; nia. }
  assert (shl 64 ((x * 16 + 1) * q) 5 = register k (x mod p)) as ->.
  { unfold shl, wrap, register. rewrite Z.shiftl_mul_pow2 by lia.
    replace (60 - 5 * Z.of_nat k) with (5 + (55 - 5 * Z.of_nat k)) by lia.
    rewrite Z.pow_add_r by lia. fold q. change (2 ^ 64) with (2 ^ 9 * 2 ^ 55). rewrite <- Hpq.
    symmetry. apply Z.mod_unique with (x / p); [left; simpl; nia|]. simpl. nia. }
  rewrite IH by lia. rewrite <- app_assoc. done.
Qed.

(** Eating leading zeros five at a time leaves the register of a shorter
    number. *)
Lemma register_trim x :
  0 < x < 2 ^ 60 →
  let n := x * 16 + 1 in
  let z := leading_zeros n / 5 in
  ∃ k : nat, (k ≤ 12)%nat ∧ x < 32 ^ Z.of_nat k ∧ shl 64 n (z * 5) = register k x.
Proof.
  intros Hx n z. assert (0 < n < 2 ^ 64) as Hn by (unfold n; simpl in *; lia).
  assert (leading_zeros n = 63 - Z.log2 n) as Hlz.
  { unfold leading_zeros. destruct (Z.eqb_spec n 0); lia. }
  pose proof (Z.log2_nonneg n). pose proof (proj1 (Z.log2_lt_pow2 n 64 ltac:(lia)) ltac:(lia)).
  pose proof (Z.log2_spec n ltac:(lia)) as Hlog.
  assert (5 * z ≤ 63 - Z.log2 n) as Hz5.
  { unfold z. rewrite Hlz. apply Z.mul_div_le. lia. }
  assert (0 ≤ z ≤ 12) as Hz.
  { split; [apply Z.div_pos; lia|lia]. }
  assert (n * 2 ^ (5 * z) < 2 ^ 64) as Hfit.
  { apply Z.lt_le_trans with (2 ^ Z.succ (Z.log2 n) * 2 ^ (5 * z)).
    - apply Z.mul_lt_mono_pos_r; lia.
    - rewrite <- Z.pow_add_r by lia. apply Z.pow_le_mono_r; lia. }
  exists (Z.to_nat (12 - z)). split; [lia|]. rewrite Z2Nat.id by lia. split.
  - assert (32 ^ (12 - z) * 2 ^ (5 * z) = 2 ^ 60) as Hp.
    { replace (32 ^ (12 - z)) with (2 ^ (5 * (12 - z))) by (rewrite Z.pow_mul_r; [done|lia|lia]).
      rewrite <- Z.pow_add_r by lia. f_equal. lia. }
    unfold n in Hfit. change (2 ^ 64) with (16 * 2 ^ 60) in Hfit. rewrite <- Hp in Hfit.
    assert (0 < 2 ^ (5 * z)) by lia. nia.
  - unfold shl, register. rewrite Z.shiftl_mul_pow2, Z2Nat.id by lia.
    rewrite wrap_id; [|unfold fits; rewrite (Z.mul_comm z); lia].
    f_equal. f_equal. lia.
Qed.

Lemma id_register n :
  fits 64 n → (shl 64 n 4 .| 1) = n mod 2 ^ 60 * 16 + 1.
Proof.
  intros Hn. unfold shl, wrap. rewrite Z.shiftl_mul_pow2 by lia.
  change (2 ^ 64) with (2 ^ 60 * 2 ^ 4). rewrite Z.mul_mod_distr_r by lia.
  rewrite Z.lor_comm, lor_add by lia. simpl. lia.
Qed.

Lemma from_letters_id k x :
  (k ≤ 12)%nat → 0 ≤ x < 32 ^ Z.of_nat k → from_letters 0 (digits k x) = Some x.
Proof.
  intros Hk Hx. rewrite <- (app_nil_r (digits k x)).
  assert (32 ^ Z.of_nat k ≤ 32 ^ 12) by (apply Z.pow_le_mono_r; lia).
  rewrite from_letters_digits by lia. done.
Qed.

(** The letters [as_string] prints are read as the id; the printing loop ends
    by itself at the stop bit. *)
Lemma id_string_letters (i : Id) : fits 64 (id i) → from_letters 0 (id_as_string i) = Some (id i).
Proof.
  intros Hi. destruct i as [n]. simpl in Hi. unfold id_as_string. cbn [id].
  destruct (Z.eqb_spec n 0) as [->|Hne]; [done|].
  pose proof (Z.div_mod n (2 ^ 60) ltac:(lia)) as Hdm.
  pose proof (Z.mod_pos_bound n (2 ^ 60) ltac:(lia)) as Hm.
  rewrite id_register, Z.shiftr_div_pow2 by (done || lia).
  destruct (Z.eqb_spec (n / 2 ^ 60) 0) as [E|E].
  - destruct (register_trim (n mod 2 ^ 60)) as (k & Hk & Hx & ->).
    { unfold fits in Hi. lia. }
    rewrite register_digits by lia. rewrite app_nil_l, from_letters_id by lia.
    f_equal. lia.
  - assert (fits 5 (n / 2 ^ 60)) as Hf.
    { unfold fits in *. split; [apply Z.div_pos; lia|].
      apply Z.div_lt_upper_bound; [lia|]. simpl in *. lia. }
    replace (n mod 2 ^ 60 * 16 + 1) with (register 12 (n mod 2 ^ 60)) by
      (unfold register; simpl; lia).
    rewrite register_digits by (simpl in *; lia). cbn [app from_letters].
    destruct (base32_rank_char _ Hf) as [-> _]. rewrite five_ne by done.
    change (shl 64 0 5) with 0. rewrite Z.lor_0_l, <- (app_nil_r (digits _ _)).
    rewrite from_letters_digits by (unfold fits in *; simpl in *; lia).
    simpl from_letters. f_equal. simpl in *. lia.
Qed.

(** ** Properties *)

(**  An id made of a prefix and a document gives both back, so distinct
    pairs make distinct ids. *)
Theorem id_parts_roundtrip (p d : Z) (Hp : fits 32 p) (Hd : fits 32 d) :
  id_prefix_id (id_from_parts p d) = p ∧ id_document_id (id_from_parts p d) = d ∧
  fits 64 (id (id_from_parts p d)).
Proof.
  unfold id_prefix_id, id_document_id, id_from_parts, fits in *. cbn [id].
  assert ((shl 64 p 32 .| d) = d + p * 2 ^ 32) as ->.
  { unfold shl. rewrite Z.shiftl_mul_pow2 by lia. rewrite wrap_id by width.
    by rewrite Z.lor_comm, lor_add by lia. }
  repeat split.
  - rewrite Z.shiftr_div_pow2, Z.div_add, Z.div_small by lia. by apply wrap_id.
  - change 4294967295 with (2 ^ 32 - 1).
    rewrite land_ones_low, Z.mod_add, Z.mod_small by lia. by apply wrap_id.
  - lia.
  - lia.
Qed.

Lemma id_parts_roundtrip_witness :
  fits 32 7 ∧ fits 32 9 ∧ id_prefix_id (id_from_parts 7 9) = 7.
Proof.
  split; [width|]. split; [width|]. apply (id_parts_roundtrip 7 9); width.
Defined.
