(* ===== verification/Utf8.v ===== *)
(** * UTF-8 as the standard library checks and writes it

    [str::from_utf8], [char::from_u32], [char::encode_utf8] and [str::chars],
    which the JSON and IMAP parsers call.  A [char] is its scalar value. *)

From S2P Require Import Prelude.

Open Scope word_scope.

(** [char::from_u32]: surrogates and values past the last plane are refused. *)
Definition is_char (c : Z) : bool :=
  (0 <=? c) && (c <? 55296) || (57344 <=? c) && (c <? 1114112).

Definition char_from_u32 (c : Z) : option Z := if is_char c then Some c else None.

(** [char::encode_utf8] *)
Definition encode_utf8 (c : Z) : bytes :=
  if c <? 128 then [c]
  else if c <? 2048 then [192 + c / 64; 128 + c mod 64]
  else if c <? 65536 then [224 + c / 4096; 128 + c / 64 mod 64; 128 + c mod 64]
  else [240 + c / 262144; 128 + c / 4096 mod 64; 128 + c / 64 mod 64; 128 + c mod 64].

(** The bytes of a string. *)
Definition str_bytes (s : list Z) : bytes := s ≫= encode_utf8.

Definition is_cont (b : Z) : bool := (128 <=? b) && (b <? 192).

(** One sequence at the head of the input, with the ranges of the Unicode
    standard's table of well-formed sequences: no overlong forms, no
    surrogates, nothing past U+10FFFF. *)
Definition decode_char (l : bytes) : option (Z * bytes) :=
  match l with
  | [] => None
  | b0 :: l =>
      if b0 <? 128 then Some (b0, l)
      else if (194 <=? b0) && (b0 <? 224) then
        match l with
        | b1 :: l => if is_cont b1 then Some ((b0 - 192) * 64 + (b1 - 128), l) else None
        | _ => None
        end
      else if (224 <=? b0) && (b0 <? 240) then
        match l with
        | b1 :: b2 :: l =>
            if is_cont b1 && is_cont b2
               && implb (b0 =? 224) (160 <=? b1) && implb (b0 =? 237) (b1 <? 160)
            then Some ((b0 - 224) * 4096 + (b1 - 128) * 64 + (b2 - 128), l) else None
        | _ => None
        end
      else if (240 <=? b0) && (b0 <? 245) then
        match l with
        | b1 :: b2 :: b3 :: l =>
            if is_cont b1 && is_cont b2 && is_cont b3
               && implb (b0 =? 240) (144 <=? b1) && implb (b0 =? 244) (b1 <? 144)
            then Some ((b0 - 240) * 262144 + (b1 - 128) * 4096 + (b2 - 128) * 64 + (b3 - 128), l)
            else None
        | _ => None
        end
      else None
  end.

Fixpoint decode_loop (fuel : nat) (l : bytes) : option (list Z) :=
  match l, fuel with
  | [], _ => Some []
  | _ :: _, O => None
  | _ :: _, S fuel =>
      match decode_char l with
      | Some (c, l) => cons c <$> decode_loop fuel l
      | None => None
      end
  end.

(** [str::from_utf8(l)], with the characters of the string; a sequence takes
    at least a byte, so the length is fuel enough. *)
Definition from_utf8 (l : bytes) : option (list Z) := decode_loop (length l) l.

(** ** Lemmas *)

Abbreviation chars_ok := (Forall (λ c, is_char c = true)).

Lemma is_char_range c :
  is_char c = true ↔ 0 ≤ c < 55296 ∨ 57344 ≤ c < 1114112.
Proof. unfold is_char. rewrite orb_true_iff, !andb_true_iff. lia. Qed.

Ltac tests :=
  repeat match goal with
  | |- context [?a <? ?b] =>
      first [rewrite (proj2 (Z.ltb_lt a b)) by lia | rewrite (proj2 (Z.ltb_ge a b)) by lia]
  | |- context [?a <=? ?b] =>
      first [rewrite (proj2 (Z.leb_le a b)) by lia | rewrite (proj2 (Z.leb_gt a b)) by lia]
  end.

Lemma decode_encode_char c rest :
  is_char c = true → decode_char (encode_utf8 c ++ rest) = Some (c, rest).
Proof.
  rewrite is_char_range. intros Hc. unfold encode_utf8.
  pose proof (Z.div_mod c 64 ltac:(lia)). pose proof (Z.mod_pos_bound c 64 ltac:(lia)).
  pose proof (Z.div_mod (c / 64) 64 ltac:(lia)) as Hm1.
  pose proof (Z.mod_pos_bound (c / 64) 64 ltac:(lia)).
  rewrite Z.div_div in Hm1 by lia. change (64 * 64) with 4096 in Hm1.
  pose proof (Z.div_mod (c / 4096) 64 ltac:(lia)) as Hm2.
  pose proof (Z.mod_pos_bound (c / 4096) 64 ltac:(lia)).
  rewrite Z.div_div in Hm2 by lia. change (4096 * 64) with 262144 in Hm2.
  destruct (Z.ltb_spec c 128); [|destruct (Z.ltb_spec c 2048);
    [|destruct (Z.ltb_spec c 65536)]];
    unfold decode_char, is_cont; cbn [app]; tests; cbn [andb].
  - done.
  - do 2 f_equal. lia.
  - assert (c / 64 / 64 = c / 4096) by (rewrite Z.div_div; [done|lia..]).
    destruct (Z.eqb_spec (224 + c / 4096) 224), (Z.eqb_spec (224 + c / 4096) 237);
      cbn [implb andb]; tests; cbn [andb]; do 2 f_equal; lia.
  - destruct (Z.eqb_spec (240 + c / 262144) 240), (Z.eqb_spec (240 + c / 262144) 244);
      cbn [implb andb]; tests; cbn [andb]; do 2 f_equal; lia.
Qed.

Lemma encode_utf8_cons c : ∃ b l, encode_utf8 c = b :: l.
Proof. unfold encode_utf8. repeat case_match; eauto. Qed.

Lemma decode_loop_str s fuel :
  chars_ok s → (length (str_bytes s) ≤ fuel)%nat → decode_loop fuel (str_bytes s) = Some s.
Proof.
  revert fuel. induction s as [|c s IH]; intros fuel Hs Hf; [by destruct fuel|].
  inversion Hs as [|? ? Hc Hs']; subst. cbn [str_bytes mbind list_bind] in *.
  destruct (encode_utf8_cons c) as (b & l & He). pose proof (decode_encode_char c (str_bytes s) Hc) as Hd.
  unfold str_bytes in *. rewrite length_app in Hf.
  rewrite He in *. cbn [app length] in *. destruct fuel as [|fuel]; [lia|]. cbn [decode_loop].
  rewrite Hd. rewrite IH by (done || lia). done.
Qed.

(** A string's bytes are valid UTF-8 and decode to its characters. *)
Lemma from_utf8_str s : chars_ok s → from_utf8 (str_bytes s) = Some s.
Proof. intros Hs. by apply decode_loop_str. Qed.

Lemma decode_char_ascii b l : 0 ≤ b < 128 → decode_char (b :: l) = Some (b, l).
Proof. intros Hb. unfold decode_char. by tests. Qed.

Lemma str_bytes_ascii l : Forall (λ b, 0 ≤ b < 128) l → str_bytes l = l.
Proof.
  induction 1 as [|b l Hb Hl IH]; [done|]. unfold str_bytes in *. cbn [mbind list_bind].
  unfold encode_utf8 at 1. tests. cbn [app]. by rewrite IH.
Qed.

Lemma str_bytes_app s t : str_bytes (s ++ t) = str_bytes s ++ str_bytes t.
Proof. unfold str_bytes. by rewrite bind_app. Qed.
