(* ===== verification/Decimal.v ===== *)
(** * Decimal numbers in text

    [str::parse] and [to_string] of the unsigned integers, as the protocol
    parsers and printers use them. *)

From S2P Require Import Prelude.

#[local] Open Scope chr_scope.

(** ** Definitions *)

(** The digits of [u32::from_str] and the like: each step checks that the value
    still fits [w] bits. *)
Fixpoint dec_digits (w acc : Z) (l : bytes) : option Z :=
  match l with
  | [] => Some acc
  | b :: l =>
      if is_digit b then
        let acc := acc * 10 + (b - 48) in
        if acc <? 2 ^ w then dec_digits w acc l else None
      else None
  end.

(** An optional plus sign and at least one digit. *)
Definition parse_uint (w : Z) (l : bytes) : option Z :=
  match l with
  | [] => None
  | b :: rest =>
      if b =? "+" then match rest with [] => None | _ => dec_digits w 0 rest end
      else dec_digits w 0 l
  end.

(** [to_string]: the digits of [n], most significant first; the fuel is the
    number of digits. *)
Fixpoint dec_print (fuel : nat) (n : Z) : bytes :=
  match fuel with
  | O => []
  | S fuel => if n <? 10 then [48 + n] else dec_print fuel (n / 10) ++ [48 + n mod 10]
  end.

Definition uint_to_string (n : Z) : bytes := dec_print (S (Z.to_nat (Z.log2 n))) n.

(** ** Round trip *)

Lemma is_digit_range b : is_digit b = true ↔ 48 ≤ b ≤ 57.
Proof. unfold is_digit. rewrite andb_true_iff, !Z.leb_le. lia. Qed.

Lemma dec_digits_app w acc l k :
  dec_digits w acc (l ++ k) = acc ← dec_digits w acc l; dec_digits w acc k.
Proof.
  revert acc. induction l as [|b l IH]; intros acc; [done|]. cbn [dec_digits app].
  destruct (is_digit b); [|done]. destruct (_ <? _); [apply IH|done].
Qed.

Lemma dec_print_spec w fuel n :
  0 ≤ n < 2 ^ w → n < 10 ^ Z.of_nat fuel → (0 < fuel)%nat →
  dec_digits w 0 (dec_print fuel n) = Some n ∧ dec_print fuel n ≠ [] ∧
  Forall (λ b, is_digit b = true) (dec_print fuel n).
Proof.
  revert n. induction fuel as [|fuel IH]; intros n Hw Hn Hf; [lia|]. cbn [dec_print].
  assert (∀ d, 0 ≤ d < 10 → is_digit (48 + d) = true) as Hdigit.
  { intros d Hd. apply is_digit_range. lia. }
  destruct (Z.ltb_spec n 10) as [Hlt|Hge].
  - split_and!; [|done|constructor; [apply Hdigit; lia|constructor]].
    cbn [dec_digits]. rewrite Hdigit by lia. replace (0 * 10 + (48 + n - 48)) with n by lia.
    by rewrite (proj2 (Z.ltb_lt _ _)) by lia.
  - assert (0 ≤ n / 10 < 2 ^ w ∧ n / 10 < 10 ^ Z.of_nat fuel) as [Hw' Hn'].
    { rewrite Nat2Z.inj_succ, Z.pow_succ_r in Hn by lia.
      pose proof (Z.div_mod n 10 ltac:(lia)). pose proof (Z.mod_pos_bound n 10 ltac:(lia)). lia. }
    assert (0 < fuel)%nat as Hf' by (destruct fuel; [cbn in Hn'; lia|lia]).
    destruct (IH (n / 10) Hw' Hn' Hf') as (Hval & _ & Hall).
    pose proof (Z.mod_pos_bound n 10 ltac:(lia)). pose proof (Z.div_mod n 10 ltac:(lia)) as Hdm.
    split_and!; [|by intros [_ ?]%app_nil|apply Forall_app; split; [done|constructor; [apply Hdigit; lia|constructor]]].
    rewrite dec_digits_app, Hval. cbn [mbind option_bind dec_digits]. rewrite Hdigit by lia.
    replace (n / 10 * 10 + (48 + n mod 10 - 48)) with n by lia.
    by rewrite (proj2 (Z.ltb_lt _ _)) by lia.
Qed.

Lemma uint_fuel n : 0 ≤ n → n < 10 ^ Z.of_nat (S (Z.to_nat (Z.log2 n))).
Proof.
  intros Hn. destruct (Z.eq_dec n 0) as [->|Hne]; [done|].
  pose proof (Z.log2_spec n ltac:(lia)) as [_ Hlog]. pose proof (Z.log2_nonneg n).
  rewrite Nat2Z.inj_succ, Z2Nat.id by done.
  eapply Z.lt_le_trans; [exact Hlog|]. apply Z.pow_le_mono_l. lia.
Qed.

Lemma uint_to_string_digits n :
  0 ≤ n → uint_to_string n ≠ [] ∧ Forall (λ b, is_digit b = true) (uint_to_string n).
Proof.
  intros Hn. unfold uint_to_string.
  destruct (dec_print_spec (n + 1) (S (Z.to_nat (Z.log2 n))) n) as (_ & H1 & H2); [|by apply uint_fuel|lia|done].
  split; [done|]. pose proof (Z.pow_gt_lin_r 2 (n + 1)). lia.
Qed.

Lemma dec_digits_print w n : fits w n → dec_digits w 0 (uint_to_string n) = Some n.
Proof.
  intros Hn. unfold fits in Hn.
  apply (dec_print_spec w (S (Z.to_nat (Z.log2 n))) n); [done|apply uint_fuel; lia|lia].
Qed.

(** Printing and parsing again. *)
Lemma parse_uint_print w n : fits w n → parse_uint w (uint_to_string n) = Some n.
Proof.
  intros Hn. pose proof (dec_digits_print w n Hn) as Hd.
  destruct (uint_to_string_digits n) as [Hne Hall]; [unfold fits in Hn; lia|].
  unfold parse_uint. destruct (uint_to_string n) as [|b l]; [done|].
  apply Forall_cons in Hall as [Hb _]. apply is_digit_range in Hb.
  by rewrite (proj2 (Z.eqb_neq _ _)) by lia.
Qed.
