(* ===== verification/Json.v ===== *)
(** * The streaming JSON parser of the JMAP requests

    crates/jmap-proto/src/parser: [json.rs] (the lexer), [mod.rs] (tokens),
    [impls.rs] (the values the lexer reads inside strings and the containers)
    and [base32.rs] (base32 values read straight from a JSON string).

    A parser method takes [&mut self] and may fail, so it is a function
    [Parser → result JError A * Parser]; the parser is kept on failure, as the
    code keeps it.  The texts of the error messages are abstracted to a
    constructor; a slice out of range is the error [Panic]. *)

From S2P Require Import Prelude Leb128 Base32 Utf8.

Open Scope word_scope.
Open Scope chr_scope.

(** [f64] and [fast_float::parse] come from a crate that is not modelled. *)
Class Floats := {
  f64 : Type;
  f64_eqb : f64 → f64 → bool;
  fast_float : bytes → option f64;
}.

(** ** State, errors, tokens *)

Record Parser := {
  p_bytes : bytes;
  p_iter : bytes;
  next_ch : option Z;
  pos : Z;
  pos_marker : Z;
  depth_array : Z;
  depth_dict : Z;
  is_eof : bool;
}.

Inductive JMessage :=
| TooManyNested
| UnexpectedArrayEnd
| UnexpectedDictEnd
| UnexpectedChar (ch : Z)
| BadNumber (text : bytes)
| InvalidJsonToken
| UnexpectedEof
| UnterminatedString
| InvalidUtf8
| IncompleteUnicode
| InvalidUnicode (code : bytes)
| ExpectedProperty.

Inductive JError :=
| NotJson (m : JMessage) (pos : Z)
| InvalidValue (text : bytes) (pos : Z)
| InvalidArgument (expected : string)
| NotRequest
| Panic
| OutOfFuel.

Inductive Token `{Floats} (T : Type) :=
| Colon
| Comma
| DictStart
| DictEnd
| ArrayStart
| ArrayEnd
| Integer (v : Z)
| Float (v : f64)
| Boolean (v : bool)
| TString (v : T)
| Null.
Arguments Colon {_ T}.
Arguments Comma {_ T}.
Arguments DictStart {_ T}.
Arguments DictEnd {_ T}.
Arguments ArrayStart {_ T}.
Arguments ArrayEnd {_ T}.
Arguments Integer {_ T} v.
Arguments Float {_ T} v.
Arguments Boolean {_ T} v.
Arguments TString {_ T} v.
Arguments Null {_ T}.

Definition MAX_NESTED_LEVELS : Z := 16.

Definition parser_new (bytes : bytes) : Parser :=
  {| p_bytes := bytes; p_iter := bytes; next_ch := None; pos := 0; pos_marker := 0;
     depth_array := 0; depth_dict := 0; is_eof := false |}.

(** ** The parser monad *)

Definition J (A : Type) : Type := Parser → result JError A * Parser.

#[export] Instance J_ret : MRet J := λ A a p, (Ok a, p).
#[export] Instance J_bind : MBind J := λ A B k m p,
  match m p with (Ok a, p) => k a p | (Err e, p) => (Err e, p) end.

Definition throw {A} (e : JError) : J A := λ p, (Err e, p).
Definition get {A} (f : Parser → A) : J A := λ p, (Ok (f p), p).
Definition lift {A} (r : result JError A) : J A := λ p, (r, p).

Definition upd_iter (it : bytes) (n : Z) (p : Parser) : Parser :=
  {| p_bytes := p_bytes p; p_iter := it; next_ch := next_ch p; pos := n;
     pos_marker := pos_marker p; depth_array := depth_array p; depth_dict := depth_dict p;
     is_eof := is_eof p |}.
Definition upd_next_ch (c : option Z) (p : Parser) : Parser :=
  {| p_bytes := p_bytes p; p_iter := p_iter p; next_ch := c; pos := pos p;
     pos_marker := pos_marker p; depth_array := depth_array p; depth_dict := depth_dict p;
     is_eof := is_eof p |}.
Definition upd_depth (a d : Z) (p : Parser) : Parser :=
  {| p_bytes := p_bytes p; p_iter := p_iter p; next_ch := next_ch p; pos := pos p;
     pos_marker := pos_marker p; depth_array := a; depth_dict := d; is_eof := is_eof p |}.
Definition upd_marker (n : Z) (p : Parser) : Parser :=
  {| p_bytes := p_bytes p; p_iter := p_iter p; next_ch := next_ch p; pos := pos p;
     pos_marker := n; depth_array := depth_array p; depth_dict := depth_dict p;
     is_eof := is_eof p |}.
Definition upd_eof (b : bool) (p : Parser) : Parser :=
  {| p_bytes := p_bytes p; p_iter := p_iter p; next_ch := next_ch p; pos := pos p;
     pos_marker := pos_marker p; depth_array := depth_array p; depth_dict := depth_dict p;
     is_eof := b |}.
Definition modify (f : Parser → Parser) : J () := λ p, (Ok (), f p).

(** A loop runs with one round of fuel more than there are bytes left. *)
Definition fuelled {A} (m : nat → J A) : J A := λ p, m (S (length (p_iter p))) p.

(** [bytes[a..b]] panics where [bytes.get(a..b)] is [None]. *)
Definition slice_get (l : bytes) (a b : Z) : option bytes :=
  if (0 <=? a) && (a <=? b) && (b <=? Z.of_nat (length l)) then
    Some (take (Z.to_nat (b - a)) (drop (Z.to_nat a) l))
  else None.

(** [self.bytes[start..self.pos - 1]] *)
Definition slice_to_pos (start : Z) : J bytes := λ p,
  match slice_get (p_bytes p) start (pos p - 1) with
  | Some l => (Ok l, p)
  | None => (Err Panic, p)
  end.

(** ** json.rs *)

Definition error {A} (m : JMessage) : J A := λ p, (Err (NotJson m (pos p)), p).

Definition error_unterminated {A} : J A := error UnterminatedString.

Definition error_utf8 {A} : J A := error InvalidUtf8.

Definition peek_char : J (option Z) := get (λ p, head (p_iter p)).

Definition next_char : J (option Z) := λ p,
  match p_iter p with
  | [] => (Ok None, upd_iter [] (pos p + 1) p)
  | ch :: it => (Ok (Some ch), upd_iter it (pos p + 1) p)
  end.

(** [self.iter.next()], which leaves [pos] alone. *)
Definition raw_next : J (option Z) := λ p,
  match p_iter p with
  | [] => (Ok None, p)
  | ch :: it => (Ok (Some ch), upd_iter it (pos p) p)
  end.

Definition next_unescaped : J (option Z) :=
  c ← next_char;
  match c with
  | Some ch =>
      if ch =? DQUOTE then
        _ ← modify (upd_eof true); mret None
      else if ch =? BACKSLASH then
        c ← next_char;
        match c with Some ch => mret (Some ch) | None => error_unterminated end
      else mret (Some ch)
  | None =>
      eof ← get is_eof;
      if (eof : bool) then mret None else error_unterminated
  end.

Fixpoint skip_loop (fuel : nat) (last_ch : Z) : J bool :=
  match fuel with
  | O => throw OutOfFuel
  | S fuel =>
      c ← next_char;
      match c with
      | Some ch =>
          if (ch =? DQUOTE) && negb (last_ch =? BACKSLASH) then
            _ ← modify (upd_eof true); mret true
          else skip_loop fuel ch
      | None => mret false
      end
  end.

Definition skip_string : J bool := fuelled (λ fuel, skip_loop fuel 0).

Definition error_value {A} : J A :=
  eof ← get is_eof;
  ok ← (if (eof : bool) then mret true else skip_string);
  if (ok : bool) then
    start ← get pos_marker;
    text ← slice_to_pos start;
    n ← get pos;
    throw (InvalidValue text n)
  else error_unterminated.

(** The values that can stand inside a JSON string. *)
Class JsonObjectParser (T : Type) := json_parse : J T.

(** Saturating arithmetic of [i64]. *)
Definition i64_max : Z := 2 ^ 63 - 1.
Definition i64_min : Z := - 2 ^ 63.
Definition i64_sat (z : Z) : Z := Z.max i64_min (Z.min i64_max z).

Section Lexer.
Context `{FL : Floats}.

(** The loop over the characters of a number: its value, and whether a sign
    and a fraction or exponent were seen. *)
Fixpoint number_loop (fuel : nat) (ch num : Z) (is_float is_negative : bool)
    : J (Z * bool * bool) :=
  match fuel with
  | O => throw OutOfFuel
  | S fuel =>
      let go num is_float is_negative :=
        c ← next_char;
        match c with
        | Some ch => number_loop fuel ch num is_float is_negative
        | None => error_unterminated
        end in
      if ch =? "-" then go num is_float true
      else if is_digit ch then
        go (if is_float then num else i64_sat (i64_sat (num * 10) + (ch - "0")))
           is_float is_negative
      else if (ch =? ",") || (ch =? "]") || (ch =? "}") then
        _ ← modify (upd_next_ch (Some ch)); mret (num, is_float, is_negative)
      else if ch =? "+" then go num is_float is_negative
      else if (ch =? ".") || (ch =? "e") || (ch =? "E") then go num true is_negative
      else if (ch =? " ") || (ch =? 13) || (ch =? 9) || (ch =? 10) then
        mret (num, is_float, is_negative)
      else error (UnexpectedChar ch)
  end.

Definition number_token {T} (ch : Z) : J (Token T) :=
  num_start ← get (λ p, pos p - 1);
  r ← fuelled (λ fuel, number_loop fuel ch 0 false false);
  let '(num, is_float, is_negative) := r in
  if (is_float : bool) then
    text ← get (λ p, default [] (slice_get (p_bytes p) num_start (pos p - 1)));
    match fast_float text with
    | Some v => mret (Float v)
    | None => error (BadNumber text)
    end
  else mret (Integer (if (is_negative : bool) then - num else num)).

(** [true], [false] and [null] after their first letter. *)
Definition literal {T} (rest : bytes) (t : Token T) : J (Token T) := λ p,
  if bool_decide (take (length rest) (p_iter p) = rest) then
    (Ok t, upd_iter (drop (length rest) (p_iter p)) (pos p + Z.of_nat (length rest)) p)
  else
    error InvalidJsonToken (upd_iter (drop (length rest) (p_iter p)) (pos p) p).

Section Value.
Context `{JsonObjectParser T}.

(** The body of the loop for one character; [None] is white space. *)
Definition token_step (ch : Z) : J (option (Token T)) :=
  if ch =? DQUOTE then
    _ ← modify (λ p, upd_eof false (upd_marker (pos p) p));
    value ← json_parse;
    eof ← get is_eof;
    ok ← (if (eof : bool) then mret true else skip_string);
    if (ok : bool) then mret (Some (TString value)) else error_unterminated
  else if ch =? "," then mret (Some Comma)
  else if ch =? ":" then mret (Some Colon)
  else if ch =? "[" then λ p,
    if depth_array p + depth_dict p <? MAX_NESTED_LEVELS then
      (Ok (Some ArrayStart), upd_depth (depth_array p + 1) (depth_dict p) p)
    else error TooManyNested p
  else if ch =? "]" then λ p,
    if depth_array p =? 0 then error UnexpectedArrayEnd p
    else (Ok (Some ArrayEnd), upd_depth (depth_array p - 1) (depth_dict p) p)
  else if ch =? "{" then λ p,
    if depth_array p + depth_dict p <? MAX_NESTED_LEVELS then
      (Ok (Some DictStart), upd_depth (depth_array p) (depth_dict p + 1) p)
    else error TooManyNested p
  else if ch =? "}" then λ p,
    if depth_dict p =? 0 then error UnexpectedDictEnd p
    else (Ok (Some DictEnd), upd_depth (depth_array p) (depth_dict p - 1) p)
  else if is_digit ch || (ch =? "-") || (ch =? "+") then
    t ← number_token ch; mret (Some t)
  else if ch =? "t" then t ← literal (str "rue") (Boolean true); mret (Some t)
  else if ch =? "f" then t ← literal (str "alse") (Boolean false); mret (Some t)
  else if ch =? "n" then t ← literal (str "ull") Null; mret (Some t)
  else if (ch =? " ") || (ch =? 9) || (ch =? 13) || (ch =? 10) then mret None
  else error (UnexpectedChar ch).

Fixpoint token_loop (fuel : nat) (c : option Z) : J (Token T) :=
  match fuel with
  | O => throw OutOfFuel
  | S fuel =>
      match c with
      | Some ch =>
          t ← token_step ch;
          match t with
          | Some t => mret t
          | None => c ← next_char; token_loop fuel c
          end
      | None => error UnexpectedEof
      end
  end.

(** Two rounds more than there are bytes: one for [next_ch], one for the end. *)
Definition next_token : J (Token T) := λ p,
  (c ← (match next_ch p with
        | Some ch => _ ← modify (upd_next_ch None); mret (Some ch)
        | None => next_char
        end);
   token_loop (S (S (length (p_iter p)))) c) p.
End Value.
Arguments next_token T {_}.

(** *** mod.rs: what callers do with a token *)

Section Tokens.
Context {T : Type} (T_eqb : T → T → bool).

Definition token_eqb (t u : Token T) : bool :=
  match t, u with
  | Colon, Colon | Comma, Comma | DictStart, DictStart | DictEnd, DictEnd
  | ArrayStart, ArrayStart | ArrayEnd, ArrayEnd | Null, Null => true
  | Integer a, Integer b => a =? b
  | Float a, Float b => f64_eqb a b
  | Boolean a, Boolean b => eqb a b
  | TString a, TString b => T_eqb a b
  | _, _ => false
  end.

Definition token_error {A} (expected : string) : J A := throw (InvalidArgument expected).

Definition unwrap_string (t : Token T) : J T :=
  match t with TString s => mret s | _ => token_error "string"%string end.

Definition unwrap_string_or_null (t : Token T) : J (option T) :=
  match t with
  | TString s => mret (Some s)
  | Null => mret None
  | _ => token_error "string"%string
  end.

Definition unwrap_bool (t : Token T) : J bool :=
  match t with Boolean v => mret v | _ => token_error "boolean"%string end.

Definition unwrap_bool_or_null (t : Token T) : J (option bool) :=
  match t with
  | Boolean v => mret (Some v)
  | Null => mret None
  | _ => token_error "boolean"%string
  end.

Definition assert (t expected : Token T) : J () :=
  if token_eqb t expected then mret () else token_error "token"%string.

Definition assert_jmap (t expected : Token T) : J () :=
  if token_eqb t expected then mret () else throw NotRequest.
End Tokens.

(** *** json.rs, dictionaries *)

(** [#[derive(PartialEq)] struct Ignore {}] *)
Definition Ignore : Type := ().

(** [impl JsonObjectParser for Ignore] *)
#[export] Instance ignore_parser : JsonObjectParser Ignore :=
  ok ← skip_string; if (ok : bool) then mret () else error_unterminated.

Section Dict.
Context `{JsonObjectParser T} (T_eqb : T → T → bool).

Fixpoint dict_key_loop (fuel : nat) : J (option T) :=
  match fuel with
  | O => throw OutOfFuel
  | S fuel =>
      t ← next_token T;
      match t with
      | TString k => t ← next_token T; _ ← assert T_eqb t Colon; mret (Some k)
      | Comma => dict_key_loop fuel
      | DictEnd => mret None
      | _ => error ExpectedProperty
      end
  end.

(** Every token takes a byte or the pending character. *)
Definition next_dict_key : J (option T) := fuelled (λ fuel, dict_key_loop (S fuel)).
End Dict.

Fixpoint skip_token_loop (fuel : nat) (start_depth_array start_depth_dict : Z) : J () :=
  match fuel with
  | O => throw OutOfFuel
  | S fuel =>
      _ ← next_token Ignore;
      again ← get (λ p, negb (start_depth_array =? depth_array p)
                        || negb (start_depth_dict =? depth_dict p));
      if (again : bool) then skip_token_loop fuel start_depth_array start_depth_dict
      else mret ()
  end.

Definition skip_token (start_depth_array start_depth_dict : Z) : J () :=
  fuelled (λ fuel, skip_token_loop (S fuel) start_depth_array start_depth_dict).

(** ** impls.rs: values *)

(** The [u64] and [u128] instances pack the string's bytes from the low end and
    give 0 for a string that is longer than the integer. *)
Fixpoint hash_loop (w : Z) (fuel : nat) (hash shift : Z) : J Z :=
  match fuel with
  | O => throw OutOfFuel
  | S fuel =>
      c ← next_unescaped;
      match c with
      | Some ch =>
          if shift <? w then hash_loop w fuel (hash .| shl w ch shift) (shift + 8)
          else mret 0
      | None => mret hash
      end
  end.

Definition u64_parse : J Z := fuelled (λ fuel, hash_loop 64 fuel 0 0).
Definition u128_parse : J Z := fuelled (λ fuel, hash_loop 128 fuel 0 0).

(** [u32::from_str_radix(s, 16)] on the few digits of an escape: an optional
    plus sign, then hexadecimal digits. *)
Definition hex_digit (b : Z) : option Z :=
  if is_digit b then Some (b - 48)
  else if (65 <=? b) && (b <=? 70) then Some (b - 55)
  else if (97 <=? b) && (b <=? 102) then Some (b - 87)
  else None.

Fixpoint hex_digits (acc : Z) (l : bytes) : option Z :=
  match l with
  | [] => Some acc
  | b :: l => d ← hex_digit b; hex_digits (acc * 16 + d) l
  end.

Definition from_str_radix16 (l : bytes) : option Z :=
  match l with
  | [] => None
  | b :: rest =>
      if b =? "+" then match rest with [] => None | _ => hex_digits 0 rest end
      else hex_digits 0 l
  end.

(** The four bytes after [\u]. *)
Definition unicode_escape : J bytes :=
  let next := c ← raw_next;
    match c with Some b => mret b | None => error IncompleteUnicode end in
  a ← next; b ← next; c ← next; d ← next;
  _ ← modify (λ p, upd_iter (p_iter p) (pos p + 4) p);
  let code := [a; b; c; d] in
  match from_utf8 code with
  | None => error_utf8
  | Some _ =>
      match from_str_radix16 code with
      | None => error (InvalidUnicode code)
      | Some v =>
          match char_from_u32 v with
          | None => error (InvalidUnicode code)
          | Some ch => mret (encode_utf8 ch)
          end
      end
  end.

Definition escape (ch : Z) : J bytes :=
  if ch =? DQUOTE then mret [DQUOTE]
  else if ch =? BACKSLASH then mret [BACKSLASH]
  else if ch =? "n" then mret [10]
  else if ch =? "t" then mret [9]
  else if ch =? "r" then mret [13]
  else if ch =? "b" then mret [8]
  else if ch =? "f" then mret [12]
  else if ch =? "/" then mret [47]
  else if ch =? "u" then unicode_escape
  else mret [ch].

(** The loop after the first backslash; [None] is the end of the input. *)
Fixpoint escaped_loop (fuel : nat) (is_escaped : bool) (buf : bytes) : J (option bytes) :=
  match fuel with
  | O => throw OutOfFuel
  | S fuel =>
      c ← next_char;
      match c with
      | None => mret None
      | Some ch =>
          if (ch =? BACKSLASH) && negb is_escaped then escaped_loop fuel true buf
          else if (ch =? DQUOTE) && negb is_escaped then
            _ ← modify (upd_eof true); mret (Some buf)
          else if negb is_escaped then escaped_loop fuel false (buf ++ [ch])
          else
            s ← escape ch;
            escaped_loop fuel false (buf ++ s)
      end
  end.

Definition utf8_string (l : bytes) : J (list Z) :=
  match from_utf8 l with Some s => mret s | None => error_utf8 end.

Fixpoint string_loop (fuel : nat) (start_pos : Z) : J (list Z) :=
  match fuel with
  | O => throw OutOfFuel
  | S fuel =>
      c ← next_char;
      match c with
      | None => error_unterminated
      | Some ch =>
          if ch =? BACKSLASH then
            buf ← slice_to_pos start_pos;
            r ← fuelled (λ fuel, escaped_loop fuel true buf);
            match r with
            | Some buf => utf8_string buf
            | None => error_unterminated
            end
          else if ch =? DQUOTE then
            _ ← modify (upd_eof true);
            l ← get (λ p, default [] (slice_get (p_bytes p) start_pos (pos p - 1)));
            utf8_string l
          else string_loop fuel start_pos
      end
  end.

Definition string_parse : J (list Z) :=
  start_pos ← get pos;
  fuelled (λ fuel, string_loop fuel start_pos).

(** [impl JsonObjectParser for Vec<T>] and [Option<Vec<T>>]: the elements up to
    the closing bracket. *)
Section Containers.
Context `{JsonObjectParser T}.

Fixpoint elements_loop (expected : string) (fuel : nat) (vec : list T) : J (list T) :=
  match fuel with
  | O => throw OutOfFuel
  | S fuel =>
      t ← next_token T;
      match t with
      | TString item => elements_loop expected fuel (vec ++ [item])
      | Comma => elements_loop expected fuel vec
      | ArrayEnd => mret vec
      | _ => token_error expected
      end
  end.

Definition ignore_eqb (a b : Ignore) : bool := true.

Definition vec_parse : J (list T) :=
  t ← next_token Ignore;
  _ ← assert ignore_eqb t ArrayStart;
  fuelled (λ fuel, elements_loop "[ or string" (S fuel) []).

Definition vec_parse_or_null : J (option (list T)) :=
  t ← next_token Ignore;
  match t with
  | ArrayStart => l ← fuelled (λ fuel, elements_loop "string" (S fuel) []); mret (Some l)
  | Null => mret None
  | _ => token_error "array or null"%string
  end.
End Containers.

Definition bool_parse : J bool :=
  t ← next_token Ignore;
  match t with
  | Boolean value => mret value
  | Null => mret false
  | _ => token_error "token"%string
  end.
End Lexer.
Arguments next_token {_} T {_}.

(** ** Frames: what a step leaves alone *)

(** [frame n m]: on an input of at most [n] bytes, [m] neither touches the
    nesting depths nor the pending character, gives back no bytes, and does
    not run out of fuel. *)
Definition kept (p p' : Parser) : Prop :=
  depth_array p' = depth_array p ∧ depth_dict p' = depth_dict p ∧ next_ch p' = next_ch p ∧
  (length (p_iter p') ≤ length (p_iter p))%nat.

Definition frame {A} (n : nat) (m : J A) : Prop :=
  ∀ p r p', (length (p_iter p) ≤ n)%nat → m p = (r, p') → kept p p' ∧ r ≠ Err OutOfFuel.

(** What the lexer asks of the values it reads inside strings. *)
Class ParserLaw (T : Type) `{JsonObjectParser T} : Prop :=
  json_parse_frame : ∀ n, frame n json_parse.

Create HintDb frames.

Lemma kept_refl p : kept p p.
Proof. by repeat split. Qed.

Lemma kept_trans p q r : kept p q → kept q r → kept p r.
Proof. unfold kept. intuition (congruence || lia). Qed.

Lemma frame_bind {A B} n (m : J A) (k : A → J B) :
  frame n m → (∀ a, frame n (k a)) → frame n (m ≫= k).
Proof.
  intros Hm Hk p r p' Hn. unfold mbind, J_bind.
  destruct (m p) as [[a|e] q] eqn:Hq; destruct (Hm _ _ _ Hn Hq) as [Hkept He].
  - intros Hr. destruct (Hk a q r p') as [Hkept' He']; [unfold kept in Hkept; lia|done|].
    split; [by eapply kept_trans|done].
  - intros [= <- <-]. split; [done|congruence].
Qed.

Lemma frame_ret {A} n (a : A) : frame n (mret a : J A).
Proof. intros p r p' _ [= <- <-]. split; [apply kept_refl|done]. Qed.

Lemma frame_throw {A} n e : e ≠ OutOfFuel → frame n (throw e : J A).
Proof. intros He p r p' _ [= <- <-]. split; [apply kept_refl|congruence]. Qed.

Lemma frame_get {A} n (f : Parser → A) : frame n (get f).
Proof. intros p r p' _ [= <- <-]. split; [apply kept_refl|done]. Qed.

Lemma frame_error {A} n m : frame n (error m : J A).
Proof. intros p r p' _ [= <- <-]. split; [apply kept_refl|done]. Qed.

Lemma frame_eof n b : frame n (modify (upd_eof b)).
Proof. intros p r p' _ [= <- <-]. by repeat split. Qed.

Lemma frame_slice n start : frame n (slice_to_pos start).
Proof.
  intros p r p' _. unfold slice_to_pos. case_match; intros [= <- <-];
    (split; [apply kept_refl|done]).
Qed.

Lemma frame_pos n f : frame n (modify (λ p, upd_iter (p_iter p) (f p) p)).
Proof. intros p r p' _ [= <- <-]. by repeat split. Qed.

(** Reading a character leaves one byte less to read. *)
Lemma frame_next {A} n (k : option Z → J A) :
  (∀ ch m, n = S m → frame m (k (Some ch))) → frame n (k None) →
  frame n (next_char ≫= k).
Proof.
  intros Hs Hnone p r p' Hn. unfold mbind, J_bind, next_char.
  destruct (p_iter p) as [|ch it] eqn:Hit; intros Hr.
  - apply Hnone in Hr as [Hk ?]; [|simpl; lia]. split; [|done].
    eapply kept_trans; [|exact Hk]. unfold kept; simpl. by rewrite Hit.
  - destruct n as [|n]; simpl in Hn; [lia|].
    apply (Hs ch n eq_refl) in Hr as [Hk ?]; [|simpl; lia]. split; [|done].
    eapply kept_trans; [|exact Hk]. unfold kept; simpl. rewrite Hit; simpl.
    repeat split; lia.
Qed.

Lemma frame_next_char n : frame n next_char.
Proof.
  intros p r p' _. unfold next_char.
  destruct (p_iter p) eqn:Hit; intros [= <- <-]; (split; [|done]); unfold kept; simpl;
    rewrite Hit; simpl; repeat split; (done || lia).
Qed.

Lemma frame_raw_next n : frame n raw_next.
Proof.
  intros p r p' _. unfold raw_next.
  destruct (p_iter p) eqn:Hit; intros [= <- <-]; (split; [|done]); unfold kept; simpl;
    rewrite ?Hit; simpl; repeat split; (done || lia).
Qed.

Lemma frame_fuelled {A} n (m : nat → J A) :
  (∀ fuel n, (n < fuel)%nat → frame n (m fuel)) → frame n (fuelled m).
Proof.
  intros Hm p r p' Hn Hr.
  by apply (Hm (S (length (p_iter p))) (length (p_iter p)) ltac:(lia) p r p').
Qed.

#[export] Hint Resolve frame_ret frame_get frame_error frame_eof frame_slice frame_pos
  frame_next_char frame_raw_next frame_bind frame_fuelled : frames.
#[export] Hint Extern 1 (frame _ (throw _)) => apply frame_throw; discriminate : frames.

(** Takes a definition apart into binds, tests and reads. *)
Ltac frames :=
  repeat match goal with
  | |- frame _ (fuelled _) => apply frame_fuelled; intros
  | |- frame _ (next_char ≫= _) => apply frame_next; intros; subst
  | |- frame _ (_ ≫= _) => apply frame_bind; intros
  | |- frame _ (let _ := _ in _) => intro
  | |- frame _ (if ?b then _ else _) => destruct b
  | |- frame _ (match ?o with _ => _ end) => destruct o
  | |- _ => solve [eauto 2 with frames]
  end.

Lemma frame_next_unescaped n : frame n next_unescaped.
Proof. unfold next_unescaped. frames. Qed.
#[export] Hint Resolve frame_next_unescaped : frames.

Lemma skip_loop_frame fuel last n : (n < fuel)%nat → frame n (skip_loop fuel last).
Proof.
  revert last n. induction fuel as [|fuel IH]; intros last n Hn; [lia|]. cbn [skip_loop].
  frames. apply IH. lia.
Qed.

Lemma frame_skip_string n : frame n skip_string.
Proof. unfold skip_string. frames. by apply skip_loop_frame. Qed.
#[export] Hint Resolve frame_skip_string : frames.

Lemma frame_error_value {A} n : frame n (error_value : J A).
Proof. unfold error_value, error_unterminated. frames. Qed.
#[export] Hint Resolve frame_error_value : frames.

#[export] Instance ignore_law : ParserLaw Ignore.
Proof. intros n. unfold json_parse, ignore_parser, error_unterminated. frames. Qed.

(** An unescaped character leaves fewer bytes too. *)
Lemma frame_unescaped {A} n (k : option Z → J A) :
  (∀ ch m, (m < n)%nat → frame m (k (Some ch))) → frame n (k None) →
  frame n (next_unescaped ≫= k).
Proof.
  intros Hs Hnone p r p' Hn Hr.
  unfold mbind, J_bind in Hr. destruct (next_unescaped p) as [[[ch|]|e] q] eqn:Hq.
  - assert (kept p q ∧ (length (p_iter q) < length (p_iter p))%nat) as [Hkept Hlt].
    { pose proof (frame_next_unescaped n p _ _ Hn Hq) as [Hkept _]. split; [done|].
      revert Hq. unfold next_unescaped, mbind, J_bind, next_char, mret, J_ret.
      destruct (p_iter p) as [|c0 it] eqn:Hit; [simpl; by destruct (is_eof p)|].
      destruct (c0 =? DQUOTE); [done|]. destruct (c0 =? BACKSLASH); simpl.
      - destruct it as [|c1 it]; intros [= _ <-]; simpl; lia.
      - intros [= _ <-]. simpl. lia. }
    destruct n as [|n]; [lia|].
    apply (Hs ch n) in Hr as [Hk ?]; [|lia..]. split; [by eapply kept_trans|done].
  - pose proof (frame_next_unescaped n p _ _ Hn Hq) as [Hkept _].
    apply Hnone in Hr as [Hk ?]; [|unfold kept in Hkept; lia].
    split; [by eapply kept_trans|done].
  - pose proof (frame_next_unescaped n p _ _ Hn Hq) as [Hkept He].
    injection Hr as <- <-. split; [done|congruence].
Qed.

Lemma hash_loop_frame w fuel hash shift n :
  (n < fuel)%nat → frame n (hash_loop w fuel hash shift).
Proof.
  revert hash shift n. induction fuel as [|fuel IH]; intros hash shift n Hn; [lia|].
  cbn [hash_loop]. apply frame_unescaped; intros; frames. apply IH. lia.
Qed.

Lemma frame_unicode_escape n : frame n unicode_escape.
Proof. unfold unicode_escape, error_utf8. cbv zeta. frames. Qed.
#[export] Hint Resolve frame_unicode_escape : frames.

Lemma frame_escape n ch : frame n (escape ch).
Proof. unfold escape. frames. Qed.
#[export] Hint Resolve frame_escape : frames.

Lemma frame_utf8_string n l : frame n (utf8_string l).
Proof. unfold utf8_string, error_utf8. frames. Qed.
#[export] Hint Resolve frame_utf8_string : frames.

Lemma escaped_loop_frame fuel b buf n : (n < fuel)%nat → frame n (escaped_loop fuel b buf).
Proof.
  revert b buf n. induction fuel as [|fuel IH]; intros b buf n Hn; [lia|].
  cbn [escaped_loop]. frames; apply IH; lia.
Qed.

Lemma string_loop_frame fuel start n : (n < fuel)%nat → frame n (string_loop fuel start).
Proof.
  revert n. induction fuel as [|fuel IH]; intros n Hn; [lia|].
  cbn [string_loop]. unfold error_unterminated.
  frames; first [by apply escaped_loop_frame|apply IH; lia].
Qed.

(** [String] is a lawful value of the lexer. *)
Definition string_parser : JsonObjectParser (list Z) := string_parse.

#[export] Instance string_law : @ParserLaw (list Z) string_parser.
Proof.
  intros n. unfold json_parse, string_parser, string_parse. frames.
  by apply string_loop_frame.
Qed.

(** ** Tokens and depths *)

(** The input that is left, with the pending character. *)
Definition left_over (p : Parser) : nat :=
  length (p_iter p) + (if next_ch p is Some _ then 1 else 0).

Definition depth_ok (p : Parser) : Prop :=
  0 ≤ depth_array p ∧ 0 ≤ depth_dict p ∧ depth_array p + depth_dict p ≤ MAX_NESTED_LEVELS.

Section TokenFacts.
Context `{FL : Floats} `{PL : ParserLaw T}.

(** The depths after a token. *)
Definition depth_after (t : Token T) (a d : Z) : Z * Z :=
  match t with
  | ArrayStart => (a + 1, d)
  | ArrayEnd => (a - 1, d)
  | DictStart => (a, d + 1)
  | DictEnd => (a, d - 1)
  | _ => (a, d)
  end.

(** A token moves the depths as its kind says, within the bounds, takes input,
    and a failure leaves the depths alone. *)
Definition token_post (p p' : Parser) (n : nat) (t : Token T) : Prop :=
  (depth_array p', depth_dict p') = depth_after t (depth_array p) (depth_dict p) ∧
  (depth_ok p → depth_ok p') ∧ (left_over p' ≤ n)%nat.

Lemma token_post_kept p p' n t :
  kept p p' → depth_after t (depth_array p) (depth_dict p) = (depth_array p, depth_dict p) →
  (left_over p' ≤ n)%nat → token_post p p' n t.
Proof.
  intros (Ha & Hd & Hn & Hl) Ht Hlo. split; [by rewrite Ha, Hd|]. split; [|done].
  unfold depth_ok. by rewrite Ha, Hd.
Qed.

Definition number_start (ch : Z) : bool := is_digit ch || (ch =? "-") || (ch =? "+").

(** The number loop stops within its fuel; what it may push back is a
    character it has read. *)
Lemma number_loop_spec fuel ch num fl ng p r p' :
  (length (p_iter p) < fuel)%nat → next_ch p = None →
  number_loop fuel ch num fl ng p = (r, p') →
  depth_array p' = depth_array p ∧ depth_dict p' = depth_dict p ∧ r ≠ Err OutOfFuel ∧
  (left_over p' ≤ length (p_iter p) + (if number_start ch then 0 else 1))%nat.
Proof.
  revert ch num fl ng p. induction fuel as [|fuel IH]; intros ch num fl ng p Hf Hnc; [lia|].
  cbn [number_loop]. cbv zeta.
  assert (∀ num fl ng, (c ← next_char;
      match c with
      | Some ch => number_loop fuel ch num fl ng
      | None => error_unterminated
      end) p = (r, p') →
    depth_array p' = depth_array p ∧ depth_dict p' = depth_dict p ∧ r ≠ Err OutOfFuel ∧
    (left_over p' ≤ length (p_iter p))%nat) as Hgo.
  { clear ch num fl ng. intros num fl ng. unfold mbind, J_bind, next_char.
    destruct (p_iter p) as [|ch it] eqn:Hit.
    - intros [= <- <-]. unfold left_over. simpl. by rewrite Hnc.
    - intros Hr. apply IH in Hr as (? & ? & ? & Hl); simpl in *; [|lia|done].
      repeat split; [done..|]. destruct (number_start ch); lia. }
  unfold number_start.
  assert (left_over p = length (p_iter p)) as Hlo
    by (unfold left_over; rewrite Hnc; simpl; lia).
  repeat match goal with
  | |- (if ?b then _ else _) _ = _ → _ => destruct b eqn:?; cbn [orb]
  end; intros Hr;
    try (apply Hgo in Hr as (? & ? & ? & ?); repeat split; [done..|];
         repeat case_match; lia).
  all: injection Hr as <- <-; rewrite ?orb_false_r; repeat split; [done..|].
  all: try (rewrite Hlo; lia).
  destruct (Z.eqb_spec ch "+") as [->|]; [done|]. unfold left_over. simpl. lia.
Qed.

(** The outcome of reading a token from [p] with [n] bytes to spare. *)
Definition step_post (p : Parser) (n : nat) (r : result JError (option (Token T)))
    (p' : Parser) : Prop :=
  match r with
  | Ok (Some t) => token_post p p' n t
  | Ok None => p' = p
  | Err e => e ≠ OutOfFuel ∧ depth_array p' = depth_array p ∧ depth_dict p' = depth_dict p
  end.

Lemma number_token_spec ch p r p' :
  next_ch p = None → number_start ch = true →
  (t ← number_token ch; mret (Some t)) p = (r, p') → step_post p (length (p_iter p)) r p'.
Proof.
  intros Hnc Hch. unfold number_token, fuelled, mbind, J_bind, get.
  destruct (number_loop _ _ _ _ _ p) as [[[[num fl] ng]|e] q] eqn:Hl;
    apply number_loop_spec in Hl as (Ha & Hd & He & Hlo); try lia; try done;
    rewrite Hch, Nat.add_0_r in Hlo.
  - destruct fl.
    + destruct (fast_float _) as [v|]; intros [= <- <-]; simpl; [|done].
      unfold token_post, depth_ok; simpl. by rewrite Ha, Hd.
    + intros [= <- <-]. simpl. unfold token_post, depth_ok; simpl. by rewrite Ha, Hd.
  - intros [= <- <-]. simpl. split; [congruence|done].
Qed.

Lemma literal_spec l (t : Token T) p r p' :
  depth_after t (depth_array p) (depth_dict p) = (depth_array p, depth_dict p) →
  next_ch p = None → (t ← literal l t; mret (Some t)) p = (r, p') →
  step_post p (length (p_iter p)) r p'.
Proof.
  intros Ht Hnc. unfold mbind, J_bind, literal. case_bool_decide; intros [= <- <-]; [|done].
  apply token_post_kept; [|done|].
  - repeat split; simpl. rewrite length_drop. lia.
  - unfold left_over; simpl. rewrite Hnc, length_drop. lia.
Qed.

Lemma string_token_spec p r p' :
  next_ch p = None →
  (_ ← modify (λ p, upd_eof false (upd_marker (pos p) p));
   value ← json_parse;
   eof ← get is_eof;
   ok ← (if (eof : bool) then mret true else skip_string);
   if (ok : bool) then mret (Some (TString value)) else error_unterminated) p = (r, p') →
  step_post p (length (p_iter p)) r p'.
Proof.
  intros Hnc Hr.
  match type of Hr with ?m p = _ => assert (frame (length (p_iter p)) m) as Hf end.
  { apply frame_bind; [by intros ? ? ? _ [= <- <-]|]. intros _.
    apply frame_bind; [apply json_parse_frame|]. intros value.
    unfold error_unterminated. frames. }
  destruct (Hf p r p' ltac:(lia) Hr) as [Hkept He].
  assert (∀ t, r = Ok t → ∃ v, t = Some (TString v)) as Hstr.
  { intros t ->. revert Hr. unfold mbind, J_bind, modify.
    destruct (json_parse _) as [[v|] q]; [|done]. cbn [get].
    match goal with |- context [match ?x with _ => _ end] => destruct x as [[[]|] q'] end;
      intros [= <- <-]; eauto. }
  destruct r as [t|e]; [|unfold kept in Hkept; repeat split; intuition congruence].
  destruct (Hstr t eq_refl) as [v ->]. apply token_post_kept; [done|done|].
  unfold left_over. unfold kept in Hkept. destruct Hkept as (_ & _ & -> & ?).
  rewrite Hnc. lia.
Qed.

Lemma token_step_spec ch p r p' :
  next_ch p = None → token_step ch p = (r, p') → step_post p (length (p_iter p)) r p'.
Proof.
  intros Hnc. unfold token_step.
  assert (left_over p = length (p_iter p)) as Hlo by (unfold left_over; rewrite Hnc; lia).
  destruct (ch =? DQUOTE); [by apply string_token_spec|].
  assert (∀ t, depth_after t (depth_array p) (depth_dict p) = (depth_array p, depth_dict p) →
    (Ok (Some t), p) = (r, p') → step_post p (length (p_iter p)) r p') as Hret.
  { intros t Ht [= <- <-]. apply token_post_kept; [apply kept_refl|done|lia]. }
  destruct (ch =? ","); [by apply Hret|]. destruct (ch =? ":"); [by apply Hret|].
  assert (∀ a d, left_over (upd_depth a d p) = length (p_iter p)) as Hlo' by done.
  assert (∀ a d t, depth_after t (depth_array p) (depth_dict p) = (a, d) →
    (depth_ok p → 0 ≤ a ∧ 0 ≤ d ∧ a + d ≤ MAX_NESTED_LEVELS) →
    token_post p (upd_depth a d p) (length (p_iter p)) t) as Hdepth.
  { intros a d t Ht Hok. split; [by rewrite Ht|]. split; [exact Hok|]. by rewrite Hlo'. }
  unfold depth_ok in Hdepth.
  destruct (ch =? "[").
  { case_match eqn:Hlt; intros [= <- <-]; [|done]. apply Hdepth; [done|lia]. }
  destruct (ch =? "]").
  { case_match eqn:Hlt; intros [= <- <-]; [done|]. apply Hdepth; [done|lia]. }
  destruct (ch =? "{").
  { case_match eqn:Hlt; intros [= <- <-]; [|done]. apply Hdepth; [done|lia]. }
  destruct (ch =? "}").
  { case_match eqn:Hlt; intros [= <- <-]; [done|]. apply Hdepth; [done|lia]. }
  change (is_digit ch || (ch =? "-") || (ch =? "+")) with (number_start ch).
  destruct (number_start ch) eqn:Hns; [by apply number_token_spec|].
  destruct (ch =? "t"); [by apply literal_spec|]. destruct (ch =? "f"); [by apply literal_spec|].
  destruct (ch =? "n"); [by apply literal_spec|].
  case_match; intros [= <- <-]; [done|]. by repeat split.
Qed.

Definition loop_post (p : Parser) (n : nat) (r : result JError (Token T)) (p' : Parser) : Prop :=
  step_post p n (Some <$> r) p'.

Lemma token_loop_spec fuel c p r p' :
  next_ch p = None → (length (p_iter p) + 1 < fuel)%nat →
  token_loop fuel c p = (r, p') → loop_post p (length (p_iter p)) r p'.
Proof.
  revert c p. induction fuel as [|fuel IH]; intros c p Hnc Hf; [lia|]. cbn [token_loop].
  destruct c as [ch|]; [|by intros [= <- <-]].
  unfold mbind at 1, J_bind at 1.
  destruct (token_step ch p) as [[[t|]|e] q] eqn:Hs; pose proof (token_step_spec _ _ _ _ Hnc Hs) as Hp.
  - by intros [= <- <-].
  - simpl in Hp. subst q. unfold mbind, J_bind, next_char.
    destruct (p_iter p) as [|ch' it] eqn:Hit.
    + destruct fuel; [simpl in Hf; lia|]. by intros [= <- <-].
    + intros Hr. apply IH in Hr; [|done|simpl in *; lia].
      unfold loop_post, step_post in *. destruct r as [t|e]; simpl in *; [|done].
      unfold token_post in *. simpl in *. intuition lia.
  - by intros [= <- <-].
Qed.

Lemma next_token_spec p r p' :
  next_token T p = (r, p') →
  match r with
  | Ok t => (depth_array p', depth_dict p') = depth_after t (depth_array p) (depth_dict p) ∧
      (depth_ok p → depth_ok p') ∧ (left_over p' < left_over p)%nat
  | Err e => e ≠ OutOfFuel ∧ depth_array p' = depth_array p ∧ depth_dict p' = depth_dict p
  end.
Proof.
  unfold next_token. destruct (next_ch p) as [ch|] eqn:Hnc; unfold mbind at 1, J_bind at 1.
  - unfold modify, mbind at 1, J_bind at 1. intros Hr.
    apply token_loop_spec in Hr; [|done|simpl; lia].
    destruct r; simpl in *; [|done]. destruct Hr as (? & ? & Hl). simpl in Hl.
    split; [done|]. split; [done|]. unfold left_over at 2. rewrite Hnc. lia.
  - unfold next_char. destruct (p_iter p) as [|ch it] eqn:Hit.
    + intros Hr. injection Hr as <- <-. by repeat split.
    + intros Hr. apply token_loop_spec in Hr; [|done|simpl; lia].
      destruct r; simpl in *; [|done]. destruct Hr as (? & ? & Hl). simpl in Hl.
      split; [done|]. split; [done|]. unfold left_over at 2. rewrite Hnc, Hit. simpl. lia.
Qed.

(** Tokens read one after the other. *)
Inductive lexed : Parser → list (Token T) → Parser → Prop :=
| lexed_nil p : lexed p [] p
| lexed_cons p p' p'' t ts :
    next_token T p = (Ok t, p') → lexed p' ts p'' → lexed p (t :: ts) p''.

(** The level a token sequence opens and does not close. *)
Definition opens (t : Token T) : Z := match t with ArrayStart => 1 | ArrayEnd => -1 | _ => 0 end.
Definition opens_dict (t : Token T) : Z :=
  match t with DictStart => 1 | DictEnd => -1 | _ => 0 end.
Fixpoint balance (f : Token T → Z) (ts : list (Token T)) : Z :=
  match ts with [] => 0 | t :: ts => f t + balance f ts end.

Lemma lexed_depth p ts p' :
  lexed p ts p' →
  depth_array p' = depth_array p + balance opens ts ∧
  depth_dict p' = depth_dict p + balance opens_dict ts ∧
  (depth_ok p → depth_ok p') ∧ (length ts + left_over p' ≤ left_over p)%nat.
Proof.
  induction 1 as [p|p p' p'' t ts Ht _ (IHa & IHd & IHo & IHl)]; simpl; [split_and!; lia || done|].
  pose proof (next_token_spec _ _ _ Ht) as (Hd & Ho & Hl).
  assert (depth_array p' = depth_array p + opens t ∧ depth_dict p' = depth_dict p + opens_dict t)
    as [Ha Hd'] by (destruct t; simpl in *; simplify_eq; lia).
  split_and!; [lia|lia|auto|lia].
Qed.

Lemma elements_loop_fuel expected fuel vec p :
  (left_over p < fuel)%nat → (elements_loop expected fuel vec p).1 ≠ Err OutOfFuel.
Proof.
  revert vec p. induction fuel as [|fuel IH]; intros vec p Hf; [lia|]. cbn [elements_loop].
  unfold mbind, J_bind. destruct (next_token T p) as [[t|e] q] eqn:Hq;
    pose proof (next_token_spec _ _ _ Hq) as Hp; simpl; [|destruct Hp; congruence].
  destruct Hp as (_ & _ & Hl). destruct t; simpl; try done; apply IH; lia.
Qed.

Lemma dict_key_loop_fuel T_eqb fuel p :
  (left_over p < fuel)%nat → (dict_key_loop T_eqb fuel p).1 ≠ Err OutOfFuel.
Proof.
  revert p. induction fuel as [|fuel IH]; intros p Hf; [lia|]. cbn [dict_key_loop].
  unfold mbind, J_bind. destruct (next_token T p) as [[t|e] q] eqn:Hq;
    pose proof (next_token_spec _ _ _ Hq) as Hp; simpl; [|destruct Hp; congruence].
  destruct Hp as (_ & _ & Hl). destruct t; simpl; try done; [apply IH; lia|].
  destruct (next_token T q) as [[t|e] q'] eqn:Hq'; pose proof (next_token_spec _ _ _ Hq') as Hp';
    simpl; [|destruct Hp'; congruence].
  unfold assert. by destruct (token_eqb _ _ _).
Qed.

Lemma left_over_fuel p : (left_over p < S (S (length (p_iter p))))%nat.
Proof. unfold left_over. case_match; lia. Qed.
End TokenFacts.

Lemma skip_token_loop_fuel `{FL : Floats} fuel a d p :
  (left_over p < fuel)%nat → (skip_token_loop fuel a d p).1 ≠ Err OutOfFuel.
Proof.
  revert p. induction fuel as [|fuel IH]; intros p Hf; [lia|]. cbn [skip_token_loop].
  unfold mbind, J_bind. destruct (next_token Ignore p) as [[t|e] q] eqn:Hq;
    pose proof (next_token_spec _ _ _ Hq) as Hp; simpl; [|destruct Hp; congruence].
  destruct Hp as (_ & _ & Hl). destruct (_ || _); [apply IH; lia|done].
Qed.

(** ** Numbers *)

(** The value of decimal digits. *)
Definition decimal (l : bytes) : Z := foldl (λ acc b, acc * 10 + (b - "0")) 0 l.

Lemma decimal_acc_mono acc acc' l : acc ≤ acc' → Forall (λ b, is_digit b = true) l →
  foldl (λ acc b, acc * 10 + (b - "0")) acc l ≤ foldl (λ acc b, acc * 10 + (b - "0")) acc' l.
Proof.
  intros Ha Hl. revert acc acc' Ha. induction Hl as [|b l Hb Hl IH]; intros acc acc' Ha; [done|].
  cbn [foldl]. apply IH. lia.
Qed.

Lemma decimal_ge acc l : 0 ≤ acc → Forall (λ b, is_digit b = true) l →
  acc ≤ foldl (λ acc b, acc * 10 + (b - "0")) acc l.
Proof.
  intros Ha Hl. revert acc Ha. induction Hl as [|b l Hb Hl IH]; intros acc Ha; cbn [foldl]; [lia|].
  unfold is_digit in Hb. etransitivity; [|apply IH]; lia.
Qed.

(** The separators that end a number, and what they leave pending. *)
Definition number_end (c : Z) : bool :=
  (c =? ",") || (c =? "]") || (c =? "}") || (c =? " ") || (c =? 13) || (c =? 9) || (c =? 10).
Definition pushed_back (c : Z) : option Z :=
  if (c =? ",") || (c =? "]") || (c =? "}") then Some c else None.

Definition after_number (k : nat) (c : Z) (rest : bytes) (p : Parser) : Parser :=
  let p := upd_iter rest (pos p + Z.of_nat k) p in
  if pushed_back c is Some c then upd_next_ch (Some c) p else p.

Lemma after_number_step k c rest it p :
  after_number k c rest (upd_iter it (pos p + 1) p) = after_number (S k) c rest p.
Proof.
  unfold after_number. destruct (pushed_back c); unfold upd_iter, upd_next_ch; simpl; f_equal; lia.
Qed.

(** The end character ends the loop. *)
Lemma number_loop_end `{FL : Floats} fuel c num ng p :
  number_end c = true →
  number_loop (S fuel) c num false ng p
  = (Ok (num, false, ng), after_number 0 c (p_iter p) p).
Proof.
  intros Hc. cbn [number_loop]. cbv zeta. unfold number_end in Hc.
  assert (is_digit c = false ∧ (c =? "-") = false ∧ (c =? "+") = false
    ∧ (c =? ".") || (c =? "e") || (c =? "E") = false) as (-> & -> & -> & ->).
  { repeat (apply orb_prop in Hc as [Hc|Hc]); apply Z.eqb_eq in Hc as ->; done. }
  unfold after_number, pushed_back, upd_iter. rewrite Z.add_0_r.
  destruct ((c =? ",") || (c =? "]") || (c =? "}")) eqn:Hsep; [done|].
  cbn [orb] in Hc. rewrite Hc. by destruct p.
Qed.

Lemma i64_step v d :
  0 ≤ v → 0 ≤ d ≤ 9 → i64_sat (i64_sat (Z.min v i64_max * 10) + d) = Z.min (v * 10 + d) i64_max.
Proof. unfold i64_sat, i64_min, i64_max. lia. Qed.

Lemma number_loop_digits `{FL : Floats} ds fuel b c num ng rest p :
  Forall (λ b, is_digit b = true) (b :: ds) → number_end c = true → 0 ≤ num →
  p_iter p = ds ++ c :: rest → (length ds < fuel)%nat →
  number_loop (S fuel) b (Z.min num i64_max) false ng p
  = (Ok (Z.min (foldl (λ acc b, acc * 10 + (b - "0")) num (b :: ds)) i64_max, false, ng),
     after_number (S (length ds)) c rest p).
Proof.
  revert fuel b num p. induction ds as [|b' ds IH]; intros fuel b num p Hds Hc Hnum Hit Hf;
    inversion Hds as [|? ? Hb Hds']; subst; destruct fuel as [|fuel]; [lia| |simpl in Hf; lia|];
    set (f := S fuel); cbn [number_loop]; cbv zeta; subst f;
    (assert ((b =? "-") = false) as -> by (unfold is_digit in Hb; lia)); rewrite Hb;
    unfold mbind, J_bind, next_char; rewrite Hit; cbn [app];
    rewrite i64_step by (unfold is_digit in Hb; lia).
  - rewrite number_loop_end by done. cbn [foldl p_iter upd_iter].
    f_equal. apply (after_number_step 0).
  - rewrite IH; [|done|done|unfold is_digit in Hb; lia|done|simpl in Hf; lia].
    f_equal. apply (after_number_step (S (length ds))).
Qed.

Lemma token_step_number `{FL : Floats} `{JsonObjectParser T} b :
  number_start b = true →
  token_step (T := T) b = (t ← number_token b; mret (Some t)).
Proof.
  intros Hb. unfold token_step.
  assert (∀ k, number_start k = false → (b =? k) = false) as Hne.
  { intros k Hk. apply Z.eqb_neq. congruence. }
  rewrite !Hne by done.
  change (is_digit b || (b =? "-") || (b =? "+")) with (number_start b). by rewrite Hb.
Qed.

Lemma next_token_number `{FL : Floats} `{JsonObjectParser T} b l p v q :
  next_ch p = None → p_iter p = b :: l → number_start b = true →
  number_loop (S (length l)) b 0 false false (upd_iter l (pos p + 1) p) = (Ok (v, false, false), q) ∨
  number_loop (S (length l)) b 0 false false (upd_iter l (pos p + 1) p) = (Ok (- v, false, true), q) →
  next_token T p = (Ok (Integer v), q).
Proof.
  intros Hn Hit Hb Hl. unfold next_token. rewrite Hn.
  unfold mbind at 1, J_bind at 1, next_char. rewrite Hit. cbn [token_loop].
  rewrite token_step_number by done.
  unfold number_token, fuelled, mbind, J_bind, get, mret, J_ret. cbn [p_iter upd_iter].
  destruct Hl as [-> | ->]; cbn [fst snd]; [done|]. by rewrite Z.opp_involutive.
Qed.

(** ** Strings *)

(** The ways to write a string's characters between the quotes, as in RFC 8259:
    a character that needs no escape, a short escape, or four hexadecimal
    digits.  The pairs of surrogates that write the other planes are left out:
    the code refuses them ([surrogate_refused]). *)
Definition short_escape (c : Z) : option Z :=
  if c =? DQUOTE then Some DQUOTE else if c =? BACKSLASH then Some BACKSLASH
  else if c =? 10 then Some "n" else if c =? 9 then Some "t" else if c =? 13 then Some "r"
  else if c =? 8 then Some "b" else if c =? 12 then Some "f" else if c =? 47 then Some "/"
  else None.

Inductive json_char : Z → bytes → Prop :=
| json_raw c : is_char c = true → c ≠ DQUOTE → c ≠ BACKSLASH → json_char c (encode_utf8 c)
| json_short c e : short_escape c = Some e → json_char c [BACKSLASH; e]
| json_hex c h : length h = 4%nat → hex_digits 0 h = Some c → is_char c = true →
    json_char c (BACKSLASH :: "u" :: h).

Inductive json_chars : list Z → bytes → Prop :=
| json_chars_nil : json_chars [] []
| json_chars_cons c s l k : json_char c l → json_chars s k → json_chars (c :: s) (l ++ k).

(** The bytes of a plain character are neither quote nor backslash. *)
Definition plain (b : Z) : Prop := b ≠ DQUOTE ∧ b ≠ BACKSLASH.

Lemma encode_plain c :
  is_char c = true → c ≠ DQUOTE → c ≠ BACKSLASH → Forall plain (encode_utf8 c).
Proof.
  rewrite is_char_range. intros Hc H1 H2. unfold encode_utf8, plain.
  pose proof (Z.mod_pos_bound c 64 ltac:(lia)).
  pose proof (Z.mod_pos_bound (c / 64) 64 ltac:(lia)).
  pose proof (Z.mod_pos_bound (c / 4096) 64 ltac:(lia)).
  pose proof (Z.div_pos c 64 ltac:(lia) ltac:(lia)).
  pose proof (Z.div_pos c 4096 ltac:(lia) ltac:(lia)).
  pose proof (Z.div_pos c 262144 ltac:(lia) ltac:(lia)).
  repeat case_match; repeat (apply Forall_cons; split; [split; lia|]); by apply Forall_nil.
Qed.

Lemma escaped_loop_plain l fuel buf rest p :
  Forall plain l → p_iter p = l ++ rest → (length l < fuel)%nat →
  escaped_loop fuel false buf p
  = escaped_loop (fuel - length l) false (buf ++ l) (upd_iter rest (pos p + Z.of_nat (length l)) p).
Proof.
  intros Hl. revert fuel buf p. induction Hl as [|b l [Hq Hb] Hl IH]; intros fuel buf p Hit Hf.
  - rewrite Nat.sub_0_r, app_nil_r, Z.add_0_r. simpl in Hit. rewrite <- Hit. by destruct p.
  - destruct fuel as [|fuel]; [simpl in Hf; lia|]. cbn [escaped_loop length].
    unfold mbind, J_bind, next_char. rewrite Hit. cbn [app].
    rewrite (proj2 (Z.eqb_neq _ _) Hb), (proj2 (Z.eqb_neq _ _) Hq). cbn [andb negb].
    rewrite IH; [|done|simpl in Hf; lia]. rewrite Nat.sub_succ, <- app_assoc. cbn [app].
    f_equal. unfold upd_iter; simpl. f_equal. lia.
Qed.

Lemma hex_digits_ascii acc h c :
  hex_digits acc h = Some c → Forall (λ b, 0 ≤ b < 128 ∧ b ≠ "+") h.
Proof.
  revert acc. induction h as [|b h IH]; intros acc Hh; [by constructor|]. cbn [hex_digits] in Hh.
  destruct (hex_digit b) as [d|] eqn:Hd; [|done].
  apply Forall_cons. split; [|by eapply IH].
  unfold hex_digit, is_digit in Hd. repeat case_match; simplify_eq; lia.
Qed.

Lemma ascii_is_char h : Forall (λ b, 0 ≤ b < 128) h → chars_ok h.
Proof. intros Hh. eapply Forall_impl; [exact Hh|]. intros b Hb; cbv beta in *. apply is_char_range. lia. Qed.

Lemma from_utf8_ascii h : Forall (λ b, 0 ≤ b < 128) h → from_utf8 h = Some h.
Proof. intros Hh. rewrite <- (str_bytes_ascii h) at 1 by done. by apply from_utf8_str, ascii_is_char. Qed.

Lemma bind_ok {A B} (m : J A) (k : A → J B) p a q : m p = (Ok a, q) → (m ≫= k) p = k a q.
Proof. intros Hm. unfold mbind, J_bind. by rewrite Hm. Qed.

Lemma bind_err {A B} (m : J A) (k : A → J B) p e q : m p = (Err e, q) → (m ≫= k) p = (Err e, q).
Proof. intros Hm. unfold mbind, J_bind. by rewrite Hm. Qed.

Lemma next_char_some ch it p :
  p_iter p = ch :: it → next_char p = (Ok (Some ch), upd_iter it (pos p + 1) p).
Proof. intros Hit. unfold next_char. by rewrite Hit. Qed.

Lemma number_loop_minus `{FL : Floats} fuel num b it p :
  p_iter p = b :: it →
  number_loop (S fuel) "-" num false false p
  = number_loop fuel b num false true (upd_iter it (pos p + 1) p).
Proof.
  intros Hit. cbn [number_loop]. cbv zeta. change ("-" =? "-") with true. cbv iota.
  etransitivity; [eapply bind_ok; by apply next_char_some|]. done.
Qed.

Lemma raw_next_some b it p :
  p_iter p = b :: it →
  (c ← raw_next; match c with Some b => mret b | None => error IncompleteUnicode end) p
  = (Ok b, upd_iter it (pos p) p).
Proof. intros Hit. unfold mbind, J_bind, raw_next. by rewrite Hit. Qed.

Lemma unicode_escape_hex c h rest p :
  length h = 4%nat → hex_digits 0 h = Some c → is_char c = true → p_iter p = h ++ rest →
  unicode_escape p = (Ok (encode_utf8 c), upd_iter rest (pos p + 4) p).
Proof.
  intros Hlen Hh Hc Hit. pose proof (hex_digits_ascii _ _ _ Hh) as Hascii.
  destruct h as [|b0 [|b1 [|b2 [|b3 [|]]]]]; try discriminate Hlen.
  unfold unicode_escape. cbv zeta.
  do 4 (etransitivity; [eapply bind_ok, raw_next_some; by (exact Hit || reflexivity)|]).
  etransitivity; [by eapply bind_ok|]. cbv beta.
  rewrite from_utf8_ascii by (eapply Forall_impl; [exact Hascii|]; by intros ? [? _]).
  inversion Hascii as [|? ? [_ Hplus] _]; subst.
  unfold from_str_radix16. rewrite (proj2 (Z.eqb_neq _ _) Hplus), Hh.
  unfold char_from_u32. by rewrite Hc.
Qed.

Lemma unicode_escape_surrogate c h rest p :
  length h = 4%nat → hex_digits 0 h = Some c → is_char c = false → p_iter p = h ++ rest →
  unicode_escape p = (Err (NotJson (InvalidUnicode h) (pos p + 4)), upd_iter rest (pos p + 4) p).
Proof.
  intros Hlen Hh Hc Hit. pose proof (hex_digits_ascii _ _ _ Hh) as Hascii.
  destruct h as [|b0 [|b1 [|b2 [|b3 [|]]]]]; try discriminate Hlen.
  unfold unicode_escape. cbv zeta.
  do 4 (etransitivity; [eapply bind_ok, raw_next_some; by (exact Hit || reflexivity)|]).
  etransitivity; [by eapply bind_ok|]. cbv beta.
  rewrite from_utf8_ascii by (eapply Forall_impl; [exact Hascii|]; by intros ? [? _]).
  inversion Hascii as [|? ? [_ Hplus] _]; subst.
  unfold from_str_radix16. rewrite (proj2 (Z.eqb_neq _ _) Hplus), Hh.
  unfold char_from_u32. by rewrite Hc.
Qed.

(** Reads the character after a backslash in the escaped loop. *)
Lemma escaped_loop_escape fuel buf e it p s q :
  p_iter p = BACKSLASH :: e :: it →
  escape e (upd_iter it (pos p + 2) p) = (Ok s, q) →
  escaped_loop (S (S fuel)) false buf p = escaped_loop fuel false (buf ++ s) q.
Proof.
  intros Hit He. cbn [escaped_loop].
  etransitivity; [eapply bind_ok; by apply next_char_some|].
  cbv beta iota. rewrite Z.eqb_refl. cbn [negb andb].
  etransitivity; [eapply bind_ok; by apply next_char_some|].
  cbv beta iota. rewrite !andb_false_r. cbn [negb].
  rewrite (bind_ok (escape e) _ _ s q); [done|]. rewrite <- He. f_equal.
  unfold upd_iter; simpl. f_equal. lia.
Qed.

Lemma short_escape_escape c e p :
  short_escape c = Some e → escape e p = (Ok [c], p) ∧ 0 ≤ c < 128.
Proof.
  unfold short_escape.
  repeat match goal with
  | |- context [c =? ?k] =>
      destruct (Z.eqb_spec c k) as [->|]; [intros [= <-]; split; [done|lia]|]
  end. done.
Qed.

Lemma encode_ascii c : 0 ≤ c < 128 → encode_utf8 c = [c].
Proof. intros Hc. unfold encode_utf8. by tests. Qed.

Lemma escaped_loop_char c l buf rest fuel p :
  json_char c l → p_iter p = l ++ rest → (length (l ++ rest) < fuel)%nat →
  ∃ fuel', (length rest < fuel')%nat ∧
    escaped_loop fuel false buf p
    = escaped_loop fuel' false (buf ++ encode_utf8 c)
        (upd_iter rest (pos p + Z.of_nat (length l)) p).
Proof.
  intros Hc Hit Hf. rewrite length_app in Hf. destruct Hc as [c Hc Hq Hb|c e He|c h Hlen Hh Hc].
  - exists (fuel - length (encode_utf8 c))%nat. split; [lia|].
    apply escaped_loop_plain; [by apply encode_plain|done|lia].
  - destruct fuel as [|[|fuel]]; simpl in Hf; [lia..|]. exists fuel. split; [lia|].
    destruct (short_escape_escape c e (upd_iter rest (pos p + 2) p) He) as [Hesc Hascii].
    rewrite encode_ascii by done. by apply (escaped_loop_escape _ _ e rest).
  - destruct fuel as [|[|fuel]]; simpl in Hf; [lia..|]. exists fuel. split; [lia|].
    eapply escaped_loop_escape; [exact Hit|].
    change (unicode_escape (upd_iter (h ++ rest) (pos p + 2) p)
      = (Ok (encode_utf8 c), upd_iter rest (pos p + Z.of_nat (S (S (length h)))) p)).
    rewrite (unicode_escape_hex c h rest) by done. rewrite Hlen.
    unfold upd_iter; simpl. do 2 f_equal. lia.
Qed.

(** Where a string ends: the rest of the input after its quote. *)
Definition after_string (n : nat) (rest : bytes) (p : Parser) : Parser :=
  upd_eof true (upd_iter rest (pos p + Z.of_nat n + 1) p).

Lemma escaped_loop_chars s l buf rest fuel p :
  json_chars s l → p_iter p = l ++ DQUOTE :: rest → (length (p_iter p) < fuel)%nat →
  escaped_loop fuel false buf p = (Ok (Some (buf ++ str_bytes s)), after_string (length l) rest p).
Proof.
  intros Hs. revert buf fuel p. induction Hs as [|c s l k Hc Hs IH]; intros buf fuel p Hit Hf.
  - destruct fuel as [|fuel]; [lia|]. cbn [escaped_loop]. unfold mbind, J_bind, next_char.
    rewrite Hit. cbn [app]. simpl. unfold str_bytes. simpl. rewrite app_nil_r.
    unfold after_string. by rewrite Z.add_0_r.
  - rewrite <- app_assoc in Hit.
    destruct (escaped_loop_char c l buf (k ++ DQUOTE :: rest) fuel p Hc Hit) as (f & Hf' & ->);
      [by rewrite <- Hit|].
    rewrite IH by done. unfold str_bytes. cbn [mbind list_bind]. rewrite <- app_assoc.
    rewrite length_app. f_equal. unfold after_string, upd_eof, upd_iter; simpl. f_equal. lia.
Qed.

Lemma string_loop_plain l fuel start rest p :
  Forall plain l → p_iter p = l ++ rest → (length l < fuel)%nat →
  string_loop fuel start p
  = string_loop (fuel - length l) start (upd_iter rest (pos p + Z.of_nat (length l)) p).
Proof.
  intros Hl. revert fuel p. induction Hl as [|b l [Hq Hb] Hl IH]; intros fuel p Hit Hf.
  - rewrite Nat.sub_0_r, Z.add_0_r. simpl in Hit. rewrite <- Hit. by destruct p.
  - destruct fuel as [|fuel]; [simpl in Hf; lia|]. cbn [string_loop length].
    etransitivity; [eapply bind_ok; by apply next_char_some|]. cbv beta iota.
    rewrite (proj2 (Z.eqb_neq _ _) Hb), (proj2 (Z.eqb_neq _ _) Hq).
    rewrite IH; [|done|simpl in Hf; lia]. rewrite Nat.sub_succ.
    f_equal. unfold upd_iter; simpl. f_equal. lia.
Qed.

Lemma json_chars_ok s l : json_chars s l → chars_ok s.
Proof.
  induction 1 as [|c s l k Hc _ IH]; constructor; [|done].
  destruct Hc as [| c e He|]; [done| |done].
  destruct (short_escape_escape c e (parser_new []) He) as [_ ?]. apply is_char_range. lia.
Qed.

(** The parser stands after [done] bytes of a string that began at [pre]. *)
Definition inside (pre read l : bytes) (p : Parser) : Prop :=
  p_bytes p = pre ++ read ++ l ∧ p_iter p = l ∧
  pos p = Z.of_nat (length pre) + Z.of_nat (length read).

Lemma inside_slice pre read l ch it p :
  inside pre read l p → l = ch :: it →
  slice_get (p_bytes p) (Z.of_nat (length pre)) (pos p + 1 - 1) = Some read.
Proof.
  intros (Hb & _ & Hp) ->. unfold slice_get. rewrite Hb, Hp, !length_app.
  rewrite (proj2 (Z.leb_le _ _)), (proj2 (Z.leb_le _ _)), (proj2 (Z.leb_le _ _)) by
    (simpl; lia). cbn [andb].
  rewrite Nat2Z.id, drop_app_length. f_equal.
  replace (Z.to_nat _) with (length read) by lia. apply take_app_length.
Qed.

(** From the first backslash on, the escaped loop reads the string. *)
Lemma string_loop_escaped s l l' pre s0 rest fuel p :
  json_chars s l → l = BACKSLASH :: l' → chars_ok s0 →
  inside pre (str_bytes s0) (l ++ DQUOTE :: rest) p → (length (p_iter p) < fuel)%nat →
  string_loop fuel (Z.of_nat (length pre)) p = (Ok (s0 ++ s), after_string (length l) rest p).
Proof.
  intros Hs Hl Hs0 Hin Hf.
  pose proof (inside_slice _ _ _ BACKSLASH (l' ++ DQUOTE :: rest) p Hin) as Hsl.
  rewrite Hl in Hsl. specialize (Hsl eq_refl).
  destruct Hin as (_ & Hit & _). destruct fuel as [|fuel]; [lia|]. cbn [string_loop].
  etransitivity; [eapply bind_ok; apply next_char_some; by rewrite Hit, Hl|].
  cbv beta iota. rewrite Z.eqb_refl.
  etransitivity; [eapply bind_ok; unfold slice_to_pos; cbn [p_bytes upd_iter pos];
    by rewrite Hsl|]. cbv beta.
  pose proof (escaped_loop_chars _ _ (str_bytes s0) rest
    (S (S (length (l' ++ DQUOTE :: rest)))) p Hs Hit) as Hloop.
  rewrite Hit, Hl in Hloop. specialize (Hloop ltac:(simpl; lia)). cbn [escaped_loop] in Hloop.
  rewrite (bind_ok _ _ _ (Some BACKSLASH) (upd_iter (l' ++ DQUOTE :: rest) (pos p + 1) p))
    in Hloop by (apply next_char_some; by rewrite Hit, Hl).
  cbv beta iota in Hloop. rewrite Z.eqb_refl in Hloop. cbn [andb negb] in Hloop.
  etransitivity; [eapply bind_ok; exact Hloop|]. cbv beta iota.
  unfold utf8_string. rewrite <- str_bytes_app, from_utf8_str; [by rewrite Hl|].
  apply Forall_app. split; [done|]. by apply json_chars_ok in Hs.
Qed.

Lemma string_loop_chars s l pre s0 rest fuel p :
  json_chars s l → chars_ok s0 → inside pre (str_bytes s0) (l ++ DQUOTE :: rest) p →
  (length (p_iter p) < fuel)%nat →
  string_loop fuel (Z.of_nat (length pre)) p = (Ok (s0 ++ s), after_string (length l) rest p).
Proof.
  intros Hs. revert s0 fuel p. induction Hs as [|c s l k Hc Hs IH]; intros s0 fuel p Hs0 Hin Hf.
  - pose proof (inside_slice _ _ _ DQUOTE rest p Hin eq_refl) as Hsl.
    destruct Hin as (_ & Hit & _). destruct fuel as [|fuel]; [lia|]. cbn [string_loop].
    etransitivity; [eapply bind_ok; by apply next_char_some|]. cbv beta iota.
    change (DQUOTE =? BACKSLASH) with false. rewrite Z.eqb_refl. cbn [modify].
    etransitivity; [by eapply bind_ok|]. cbv beta.
    etransitivity; [by eapply bind_ok|]. cbv beta. cbn [p_bytes upd_eof upd_iter pos].
    rewrite Hsl. cbn [from_option id]. unfold utf8_string. rewrite from_utf8_str by done.
    rewrite app_nil_r. unfold after_string. by rewrite Z.add_0_r.
  - destruct (decide (head l = Some BACKSLASH)) as [Hesc|Hraw].
    { destruct l as [|b l']; simplify_eq/=.
      apply (string_loop_escaped (c :: s) (BACKSLASH :: l' ++ k) (l' ++ k)); try done.
      by apply (json_chars_cons c s (BACKSLASH :: l') k). }
    assert (l = encode_utf8 c ∧ Forall plain l ∧ is_char c = true) as (Hl & Hpl & Hch).
    { destruct Hc; [|done..]. split; [done|]. split; [by apply encode_plain|done]. }
    destruct Hin as (Hb & Hit & Hp). rewrite <- app_assoc in Hit.
    rewrite (string_loop_plain l _ _ (k ++ DQUOTE :: rest)) by
      (done || rewrite Hit, length_app in Hf; lia).
    assert (str_bytes (s0 ++ [c]) = str_bytes s0 ++ l) as Hsb.
    { rewrite str_bytes_app. unfold str_bytes at 2. simpl. by rewrite app_nil_r, Hl. }
    rewrite (IH (s0 ++ [c])).
    + rewrite <- app_assoc. f_equal. rewrite length_app.
      unfold after_string, upd_eof, upd_iter; simpl. f_equal. lia.
    + apply Forall_app. split; [done|]. by apply Forall_singleton.
    + rewrite Hsb. split_and!; [|done|].
      * simpl. rewrite Hb, <- !app_assoc. done.
      * simpl. rewrite Hp, length_app. lia.
    + simpl. rewrite Hit, length_app in Hf. lia.
Qed.

Lemma slice_get_empty l a : 0 ≤ a ≤ Z.of_nat (length l) → slice_get l a a = Some [].
Proof.
  intros Ha. unfold slice_get.
  rewrite (proj2 (Z.leb_le 0 a)), (proj2 (Z.leb_le a a)), (proj2 (Z.leb_le a _)) by lia.
  by rewrite Z.sub_diag.
Qed.

(** [pos] counts the bytes consumed. *)
Definition in_sync (p : Parser) : Prop :=
  ∃ pre, p_bytes p = pre ++ p_iter p ∧ pos p = Z.of_nat (length pre).

Lemma next_token_string `{FL : Floats} `{JsonObjectParser T} l v p q :
  next_ch p = None → p_iter p = DQUOTE :: l →
  json_parse (upd_eof false (upd_marker (pos p + 1) (upd_iter l (pos p + 1) p))) = (Ok v, q) →
  is_eof q = true → next_token T p = (Ok (TString v), q).
Proof.
  intros Hn Hit Hv Heof. unfold next_token. rewrite Hn.
  etransitivity; [eapply bind_ok; by apply next_char_some|]. cbn [token_loop].
  unfold token_step. change (DQUOTE =? DQUOTE) with true. cbv iota.
  etransitivity; [eapply bind_ok|].
  { etransitivity; [by eapply bind_ok|]. cbv beta.
    etransitivity; [eapply bind_ok; exact Hv|]. cbv beta.
    etransitivity; [by eapply bind_ok|]. cbv beta. rewrite Heof.
    etransitivity; [by eapply bind_ok|]. reflexivity. }
  done.
Qed.

(** ** Properties *)

(** An instance for the witnesses: no number is a float. *)
Definition no_floats : Floats :=
  {| f64 := (); f64_eqb _ _ := true; fast_float _ := None |}.

(** C35.  However a request is lexed, the nesting counters are the brackets
    opened and not closed so far, never negative, never more than sixteen
    together, and there are no more tokens than bytes of input. *)
Theorem json_nesting_bounded `{FL : Floats} `{PL : ParserLaw T} (input : bytes)
    (ts : list (Token T)) (p : Parser) (Hlex : lexed (parser_new input) ts p) :
  depth_array p = balance opens ts ∧ depth_dict p = balance opens_dict ts ∧
  0 ≤ depth_array p ∧ 0 ≤ depth_dict p ∧ depth_array p + depth_dict p ≤ 16 ∧
  (length ts ≤ length input)%nat.
Proof.
  pose proof (lexed_depth _ _ _ Hlex) as (Ha & Hd & Hok & Hl).
  assert (depth_ok p) as (? & ? & ?) by (apply Hok; done).
  unfold left_over in Hl. simpl in *. split_and!; [done..|lia].
Qed.

Lemma json_nesting_bounded_witness :
  ∃ p ts, lexed (FL := no_floats) (T := Ignore) (parser_new (str "[{")) ts p ∧
    depth_array p = 1 ∧ depth_dict p = 1 ∧ depth_array p + depth_dict p ≤ 16.
Proof.
  assert (∃ p, lexed (FL := no_floats) (T := Ignore) (parser_new (str "[{"))
    [ArrayStart; DictStart] p ∧ depth_array p = 1 ∧ depth_dict p = 1) as (p & Hp & Ha & Hd).
  { eexists. split; [do 2 (econstructor; [vm_compute; reflexivity|]); constructor|done]. }
  exists p, [ArrayStart; DictStart]. split; [exact Hp|]. split; [exact Ha|]. split; [exact Hd|].
  apply (json_nesting_bounded _ _ _ Hp).
Defined.

(**  The lexer loops end: on any parser state, [next_token], [next_dict_key],
    [skip_token] and the array parsers return within their fuel, which is the
    number of bytes left plus two. *)
Theorem json_loops_terminate `{FL : Floats} `{PL : ParserLaw T} (T_eqb : T → T → bool)
    (p : Parser) (a d : Z) :
  (next_token T p).1 ≠ Err OutOfFuel ∧ (next_dict_key T_eqb p).1 ≠ Err OutOfFuel ∧
  (skip_token a d p).1 ≠ Err OutOfFuel ∧ (vec_parse (T := T) p).1 ≠ Err OutOfFuel ∧
  (vec_parse_or_null (T := T) p).1 ≠ Err OutOfFuel.
Proof.
  pose proof (left_over_fuel p). split_and!.
  - destruct (next_token T p) as [r q] eqn:Hq. pose proof (next_token_spec _ _ _ Hq) as Hp.
    destruct r; simpl; [done|]. destruct Hp. congruence.
  - by apply dict_key_loop_fuel.
  - by apply skip_token_loop_fuel.
  - unfold vec_parse, mbind at 1, J_bind at 1.
    destruct (next_token Ignore p) as [[t|e] q] eqn:Hq; pose proof (next_token_spec _ _ _ Hq) as Hp;
      [|destruct Hp; simpl; congruence].
    unfold mbind, J_bind, assert. destruct (token_eqb _ _ _); [|done].
    apply (elements_loop_fuel (T := T) "[ or string" _ [] q), left_over_fuel.
  - unfold vec_parse_or_null, mbind at 1, J_bind at 1.
    destruct (next_token Ignore p) as [[t|e] q] eqn:Hq; pose proof (next_token_spec _ _ _ Hq) as Hp;
      [|destruct Hp; simpl; congruence].
    destruct t; try done. unfold mbind, J_bind, fuelled.
    pose proof (elements_loop_fuel (T := T) "string" _ [] q (left_over_fuel q)) as He.
    destruct (elements_loop _ _ _ q) as [[l|e] q']; simpl in *; congruence.
Qed.

Lemma json_loops_terminate_witness :
  (next_token (H := string_parser) (list Z) (FL := no_floats) (parser_new (str "[ "))).1
    ≠ Err OutOfFuel.
Proof.
  apply (json_loops_terminate (FL := no_floats) (H := string_parser)
           (λ a b, bool_decide (a = b)) (parser_new (str "[ ")) 0 0).
Defined.

(**  A decimal number, with or without a minus sign, is read as its value
    clipped to the range of [i64] (symmetric: the smallest value is -(2^63-1));
    the separator that ends it is pushed back unless it is white space. *)
Theorem json_number_value `{FL : Floats} `{JsonObjectParser T} (ds : bytes) (b c : Z)
    (rest : bytes) (p : Parser) (neg : bool)
    (Hds : Forall (λ b, is_digit b = true) (b :: ds)) (Hc : number_end c = true)
    (Hn : next_ch p = None)
    (Hit : p_iter p = (if neg then ["-"] else []) ++ (b :: ds) ++ c :: rest) :
  let v := Z.min (decimal (b :: ds)) i64_max in
  ∃ p', next_token T p = (Ok (Integer (if neg then - v else v)), p') ∧
    p_iter p' = rest ∧ next_ch p' = pushed_back c ∧
    depth_array p' = depth_array p ∧ depth_dict p' = depth_dict p.
Proof.
  intros v. assert (∀ k, p_iter (after_number k c rest p) = rest ∧
    next_ch (after_number k c rest p) = pushed_back c ∧
    depth_array (after_number k c rest p) = depth_array p ∧
    depth_dict (after_number k c rest p) = depth_dict p) as Hafter.
  { intros k. unfold after_number. destruct (pushed_back c); simpl; [done|].
    by rewrite Hn. }
  assert (number_start b = true) as Hb.
  { inversion Hds as [|? ? Hb _]; subst. unfold number_start. by rewrite Hb. }
  pose proof (number_loop_digits ds) as Hloop.
  destruct neg; cbn [app] in Hit.
  - exists (after_number (S (S (S (length ds)))) c rest p). split; [|apply Hafter].
    eapply next_token_number; [done|exact Hit|done|right].
    rewrite (number_loop_minus _ _ b (ds ++ c :: rest)) by done. cbn [length].
    change 0 with (Z.min 0 i64_max) at 1.
    rewrite (Hloop _ b c 0 true rest) by (done || (rewrite ?length_app; simpl; lia)).
    rewrite Z.opp_involutive. by rewrite !after_number_step.
  - exists (after_number (S (S (length ds))) c rest p). split; [|apply Hafter].
    eapply next_token_number; [done|exact Hit|done|left].
    change 0 with (Z.min 0 i64_max) at 1.
    rewrite (Hloop _ b c 0 false rest) by (done || (rewrite ?length_app; simpl; lia)).
    by rewrite after_number_step.
Qed.

Lemma json_number_value_witness :
  ∃ p', next_token (FL := no_floats) Ignore (parser_new (str "-42]")) = (Ok (Integer (-42)), p').
Proof.
  destruct (json_number_value (FL := no_floats) (T := Ignore) (str "2") "4" "]" []
    (parser_new (str "-42]")) true) as (p' & H & _);
    [repeat constructor|reflexivity|reflexivity|reflexivity|].
  exists p'. exact H.
Defined.

(** C34.  A string written in any of the ways RFC 8259 allows, surrogate pairs
    apart, is read as its characters: the lexer decodes UTF-8, the short
    escapes and the four-digit escapes, ends at the closing quote and leaves
    the position and the depths right for the next token. *)
Theorem json_string_value `{FL : Floats} (s : list Z) (l rest : bytes) (p : Parser)
    (Hs : json_chars s l) (Hn : next_ch p = None) (Hsync : in_sync p)
    (Hit : p_iter p = DQUOTE :: l ++ DQUOTE :: rest) :
  ∃ p', next_token (H := string_parser) (list Z) p = (Ok (TString s), p') ∧
    p_iter p' = rest ∧ in_sync p' ∧ next_ch p' = None ∧
    depth_array p' = depth_array p ∧ depth_dict p' = depth_dict p.
Proof.
  destruct Hsync as (pre & Hb & Hp).
  set (q := upd_eof false (upd_marker (pos p + 1) (upd_iter (l ++ DQUOTE :: rest) (pos p + 1) p))).
  exists (after_string (length l) rest q). split_and!; try done.
  - eapply next_token_string; [done|exact Hit| |done].
    assert (string_parse q = string_loop (S (length (p_iter q))) (pos q) q) as Hsp by done.
    unfold json_parse, string_parser. fold q. rewrite Hsp.
    replace (pos q) with (Z.of_nat (length (pre ++ [DQUOTE]))).
    2: { rewrite length_app. simpl. rewrite Hp. lia. }
    apply (string_loop_chars s l (pre ++ [DQUOTE]) [] rest); [done|constructor| |simpl; lia].
    split_and!; [|done|].
    + simpl. rewrite Hb, Hit. unfold str_bytes. simpl. by rewrite <- app_assoc.
    + simpl. rewrite Hp, length_app. simpl. lia.
  - exists (pre ++ [DQUOTE] ++ l ++ [DQUOTE]). split.
    + simpl. rewrite Hb, Hit. rewrite <- !app_assoc. simpl. by rewrite <- app_assoc.
    + simpl. rewrite Hp, !length_app. simpl. rewrite length_app. simpl. lia.
Qed.

Lemma json_string_value_witness :
  ∃ p', next_token (FL := no_floats) (H := string_parser) (list Z)
    (parser_new ([DQUOTE; "a"; BACKSLASH; "n"; BACKSLASH] ++ str "u263A" ++ [DQUOTE; ","]))
    = (Ok (TString [97; 10; 9786]), p') ∧ p_iter p' = [","].
Proof.
  assert (json_chars [97; 10; 9786]
    (encode_utf8 97 ++ [BACKSLASH; "n"] ++ (BACKSLASH :: "u" :: str "263A") ++ [])) as Hs.
  { apply json_chars_cons; [by apply json_raw|]. apply json_chars_cons; [by apply json_short|].
    apply json_chars_cons; [by apply json_hex|]. apply json_chars_nil. }
  destruct (json_string_value (FL := no_floats) _ _ [","]
    (parser_new ([DQUOTE; "a"; BACKSLASH; "n"; BACKSLASH] ++ str "u263A" ++ [DQUOTE; ","]))
    Hs eq_refl) as (p' & H & Hit & _); [by exists []|reflexivity|].
  exists p'. split; [exact H|exact Hit].
Defined.

(**  An escape that names a surrogate is an error, so no character
    outside the basic plane can be written with escapes, although RFC 8259
    writes it as a pair of such escapes. *)
Theorem surrogate_refused `{FL : Floats} (h rest : bytes) (c : Z) (p : Parser)
    (Hlen : length h = 4%nat) (Hh : hex_digits 0 h = Some c) (Hc : 55296 ≤ c < 57344)
    (Hn : next_ch p = None) (Hsync : in_sync p)
    (Hit : p_iter p = DQUOTE :: BACKSLASH :: "u" :: h ++ rest) :
  ∃ n, (next_token (H := string_parser) (list Z) p).1 = Err (NotJson (InvalidUnicode h) n).
Proof.
  exists (pos p + 7). unfold next_token. rewrite Hn.
  erewrite bind_ok by (by apply next_char_some). cbn [token_loop]. unfold token_step.
  change (DQUOTE =? DQUOTE) with true. cbv iota.
  erewrite bind_err; [done|]. erewrite bind_ok; [|done]. cbv beta.
  erewrite bind_err; [done|]. unfold json_parse, string_parser, string_parse.
  erewrite bind_ok; [|done]. unfold fuelled. cbn [p_iter upd_eof upd_marker upd_iter pos].
  cbn [string_loop]. erewrite bind_ok by (by apply next_char_some). cbv beta iota.
  rewrite Z.eqb_refl.
  assert (slice_get (p_bytes p) (pos p + 1) (pos p + 1 + 1 - 1) = Some []) as Hsl.
  { destruct Hsync as (pre & Hb & Hp). replace (pos p + 1 + 1 - 1) with (pos p + 1) by lia.
    apply slice_get_empty. rewrite Hb, Hit, length_app. simpl. lia. }
  erewrite bind_ok; [|unfold slice_to_pos; cbn [p_bytes upd_eof upd_marker upd_iter pos];
    by rewrite Hsl]. cbv beta.
  erewrite bind_err; [done|]. unfold fuelled. cbn [p_iter upd_eof upd_marker upd_iter pos length].
  cbn [escaped_loop]. erewrite bind_ok by (by apply next_char_some). cbv beta iota.
  rewrite !andb_false_r. cbn [negb].
  erewrite bind_err; [done|]. unfold escape. simpl (_ =? _). cbv iota.
  erewrite (unicode_escape_surrogate c h rest); [|done|done| |done].
  - cbn [pos upd_eof upd_marker upd_iter]. do 3 f_equal. lia.
  - apply not_true_iff_false. rewrite is_char_range. lia.
Qed.

Lemma surrogate_refused_witness :
  ∃ n, (next_token (FL := no_floats) (H := string_parser) (list Z)
    (parser_new ([DQUOTE; BACKSLASH] ++ str "ud83d" ++ [BACKSLASH] ++ str "ude00" ++ [DQUOTE]))).1
    = Err (NotJson (InvalidUnicode (str "d83d")) n).
Proof.
  apply (surrogate_refused (FL := no_floats) (str "d83d") ([BACKSLASH] ++ str "ude00" ++ [DQUOTE])
    55357); [reflexivity|reflexivity|lia|reflexivity|by exists []|reflexivity].
Defined.
