(* ===== verification/JmapValues.v ===== *)
(** * JMAP values read from and written to JSON strings

    crates/jmap-proto/src/types: [blob.rs] ([BlobId]), [state.rs] ([State],
    [StateChange]) and the JSON reader of [id.rs]; [parser/base32.rs]
    ([JsonBase32Reader]), the base32 reader whose letters come from the JSON
    parser. *)

From S2P Require Import Prelude Leb128 Base32 JmapId Utf8 Json.

Open Scope word_scope.
Open Scope chr_scope.

(** ** Reading from an iterator that may end: [?] on every item *)

Definition IterM (It A : Type) : Type := It → option A * It.

#[export] Instance iter_ret It : MRet (IterM It) := λ A a it, (Some a, it).
#[export] Instance iter_bind It : MBind (IterM It) := λ A B k m it,
  match m it with (Some a, it) => k a it | (None, it) => (None, it) end.

Definition take1 `{ByteIter It} : IterM It Z := iter_next.
Definition take_leb128 `{ByteIter It} (L : Leb128_) : IterM It Z := next_leb128 (L := L).

Fixpoint take_bytes `{ByteIter It} (n : nat) : IterM It bytes :=
  match n with
  | O => mret []
  | S n => b ← take1; l ← take_bytes n; mret (b :: l)
  end.

(** ** A writer that takes bytes: [Vec<u8>] or [Base32Writer] *)

Class ByteWriter (W : Type) := wr : bytes → W → W.

#[export] Instance vec_writer : ByteWriter bytes := λ l buf, buf ++ l.
#[export] Instance base32_writer : ByteWriter Base32Writer := λ l w, (base32_write l w).1.

(** [writer.write_leb128(v)] *)
Definition write_leb128 `{ByteWriter W} (v : Z) (w : W) : W := wr (write_loop 10 v) w.

(** ** BlobId *)

(** store::BlobClass; a [BlobHash] is its 32 bytes. *)
Inductive BlobClass :=
| Reserved (account_id expires : Z)
| Linked (account_id collection document_id : Z).

Definition blob_class_default : BlobClass := Reserved 0 0.

Record BlobSection := {
  offset_start : Z;
  size : Z;
  encoding : Z;
}.

Record BlobId := {
  hash : bytes;
  class : BlobClass;
  section : option BlobSection;
}.

Definition B_LINKED : Z := 16.
Definition B_RESERVED : Z := 32.
Definition BLOB_HASH_LEN : nat := 32.

Definition blob_new (h : bytes) (c : BlobClass) : BlobId :=
  {| hash := h; class := c; section := None |}.

(** [offset_end - offset_start] wraps in a release build. *)
Definition blob_new_section (h : bytes) (c : BlobClass) (start fin enc : Z) : BlobId :=
  {| hash := h; class := c;
     section := Some {| offset_start := start; size := wrap 64 (fin - start); encoding := enc |} |}.

Definition with_section_size (b : BlobId) (n : Z) : BlobId :=
  let s := default {| offset_start := 0; size := 0; encoding := 0 |} (section b) in
  {| hash := hash b; class := class b;
     section := Some {| offset_start := offset_start s; size := n; encoding := encoding s |} |}.

Definition blob_from_iter `{ByteIter It} : IterM It BlobId :=
  cls ← take1;
  let enc := (cls .& 15) in
  h ← take_bytes BLOB_HASH_LEN;
  account_id ← take_leb128 leb_u32;
  c ← (if negb ((cls .& B_LINKED) =? 0) then
         collection ← take1;
         document_id ← take_leb128 leb_u32;
         mret (Linked account_id collection document_id)
       else
         expires ← take_leb128 leb_u64;
         mret (Reserved account_id expires));
  s ← (if negb (enc =? 0) then
         start ← take_leb128 leb_usize;
         n ← take_leb128 leb_usize;
         mret (Some {| offset_start := start; size := n; encoding := enc - 1 |})
       else mret None);
  mret {| hash := h; class := c; section := s |}.

Definition blob_from_base32 (value : bytes) : option BlobId :=
  (blob_from_iter (reader_new value)).1.

(** [section.encoding + 1] is a [u8]. *)
Definition blob_marker (b : BlobId) : Z :=
  (match section b with Some s => wrap 8 (encoding s + 1) | None => 0 end)
  .| (match class b with Linked _ _ _ => B_LINKED | Reserved _ _ => B_RESERVED end).

Definition serialize_as `{ByteWriter W} (b : BlobId) (w : W) : W :=
  let w := wr [blob_marker b] w in
  let w := wr (hash b) w in
  let w :=
    match class b with
    | Reserved account_id expires => write_leb128 expires (write_leb128 account_id w)
    | Linked account_id collection document_id =>
        write_leb128 document_id (wr [collection] (write_leb128 account_id w))
    end in
  match section b with
  | Some s => write_leb128 (size s) (write_leb128 (offset_start s) w)
  | None => w
  end.

Definition start_offset (b : BlobId) : Z :=
  match section b with Some s => offset_start s | None => 0 end.

(** [Display for BlobId] *)
Definition blob_to_string (b : BlobId) : bytes :=
  base32_finalize (serialize_as b with_raw_capacity).

(** [SerializeInto] and [DeserializeFrom] *)
Definition blob_serialize_into (b : BlobId) (buf : bytes) : bytes := serialize_as b buf.
Definition blob_deserialize_from : IterM bytes BlobId := blob_from_iter.

(** ** JsonBase32Reader *)

(** Its [map_byte] takes its letters from [next_unescaped] and treats an error
    as the end; the rest is [Base32Reader]'s code. *)
#[export] Instance parser_letters : ByteIter Parser := λ p,
  match next_unescaped p with
  | (Ok (Some b), p) => (Some b, p)
  | (_, p) => (None, p)
  end.

Definition JsonBase32Reader : Type := Base32Reader Parser.
Definition json_reader_new (p : Parser) : JsonBase32Reader := reader_new p.
Definition json_map_byte : JsonBase32Reader → option Z * JsonBase32Reader := map_byte.
Definition json_reader_next : JsonBase32Reader → option Z * JsonBase32Reader := reader_next.
Definition json_reader_error {A} (it : JsonBase32Reader) : result JError A * Parser :=
  error_value (r_bytes it).

Definition blob_parse : J BlobId := λ p,
  match blob_from_iter (json_reader_new p) with
  | (Some b, it) => (Ok b, r_bytes it)
  | (None, it) => json_reader_error it
  end.

(** ** Id *)

Fixpoint id_parse_loop (fuel : nat) (id : Z) : J Id :=
  match fuel with
  | O => throw OutOfFuel
  | S fuel =>
      c ← next_unescaped;
      match c with
      | Some ch =>
          let i := base32_rank ch in
          if i =? 255 then error_value else id_parse_loop fuel (shl 64 id 5 .| i)
      | None => mret {| id := id |}
      end
  end.

Definition id_parse : J Id := fuelled (λ fuel, id_parse_loop fuel 0).

(** ** State *)

Record JMAPIntermediateState := {
  from_id : Z;
  to_id : Z;
  items_sent : Z;
}.

Inductive State :=
| Initial
| Exact (id : Z)
| Intermediate (s : JMAPIntermediateState).

Definition new_intermediate (f t n : Z) : State :=
  Intermediate {| from_id := f; to_id := t; items_sent := n |}.

Definition state_from_option (change_id : option Z) : State :=
  match change_id with Some id => Exact id | None => Initial end.

Definition get_change_id (s : State) : Z :=
  match s with Exact id => id | Intermediate i => to_id i | Initial => u64_max end.

Definition saturating_add64 (a b : Z) : Z := Z.min u64_max (a + b).

Definition state_parse_exact : J State := λ p,
  match next_leb128 (L := leb_u64) (json_reader_new p) with
  | (Some id, it) => (Ok (Exact id), r_bytes it)
  | (None, it) => error_value (r_bytes it)
  end.

(** The three integers of an intermediate state are all read, whatever the
    first ones gave. *)
Definition state_parse_intermediate : J State := λ p,
  let '(a, it) := next_leb128 (L := leb_u64) (json_reader_new p) in
  let '(b, it) := next_leb128 (L := leb_u64) it in
  let '(c, it) := next_leb128 (L := leb_usize) it in
  match a, b, c with
  | Some from, Some delta, Some n =>
      if 0 <? n then
        (Ok (Intermediate {| from_id := from; to_id := saturating_add64 from delta;
                             items_sent := n |}), r_bytes it)
      else error_value (r_bytes it)
  | _, _, _ => error_value (r_bytes it)
  end.

Definition state_parse : J State :=
  c ← next_unescaped;
  match c with
  | None => error_value
  | Some ch =>
      if ch =? "n" then mret Initial
      else if ch =? "s" then state_parse_exact
      else if ch =? "r" then state_parse_intermediate
      else error_value
  end.

(** [Display for State]; [to_id - from_id] wraps in a release build. *)
Definition state_to_string (s : State) : bytes :=
  let w := with_raw_capacity in
  base32_finalize
    (match s with
     | Initial => push_char "n" w
     | Exact id => write_leb128 id (push_char "s" w)
     | Intermediate i =>
         write_leb128 (items_sent i)
           (write_leb128 (wrap 64 (to_id i - from_id i))
              (write_leb128 (from_id i) (push_char "r" w)))
     end).

(** *** StateChange; [DataType] is any type with an equality. *)
Section StateChange.
Context {DataType : Type} `{EqDecision DataType}.

Record StateChange := {
  sc_account_id : Z;
  sc_types : list (DataType * Z);
}.

Definition state_change_new (account_id : Z) : StateChange :=
  {| sc_account_id := account_id; sc_types := [] |}.

Fixpoint update_first (t : DataType) (change_id : Z) (l : list (DataType * Z))
    : option (list (DataType * Z)) :=
  match l with
  | [] => None
  | (t', c) :: l =>
      if decide (t' = t) then Some ((t', change_id) :: l)
      else cons (t', c) <$> update_first t change_id l
  end.

Definition with_change (t : DataType) (change_id : Z) (s : StateChange) : StateChange :=
  {| sc_account_id := sc_account_id s;
     sc_types := default (sc_types s ++ [(t, change_id)])
                   (update_first t change_id (sc_types s)) |}.

Definition has_changes (s : StateChange) : bool :=
  match sc_types s with [] => false | _ => true end.
End StateChange.
Arguments StateChange : clear implicits.

#[export] Instance state_parser : JsonObjectParser State := state_parse.
#[export] Instance blob_parser : JsonObjectParser BlobId := blob_parse.
#[export] Instance id_parser : JsonObjectParser Id := id_parse.

#[local] Opaque write_loop.

(** ** Writers append *)

(** A writer takes a concatenation piece by piece. *)
Class ByteWriterLaw (W : Type) `{ByteWriter W} : Prop := {
  wr_nil : ∀ w, wr [] w = w;
  wr_app : ∀ l k w, wr (l ++ k) w = wr k (wr l w);
}.

#[export] Instance vec_writer_law : ByteWriterLaw bytes.
Proof.
  split; unfold wr, vec_writer; intros; [by rewrite app_nil_r|by rewrite app_assoc].
Qed.

#[export] Instance base32_writer_law : ByteWriterLaw Base32Writer.
Proof.
  split; unfold wr, base32_writer, base32_write; intros; cbn [fst]; [done|].
  by rewrite foldl_app.
Qed.

(** The bytes of a blob id. *)
Definition class_bytes (c : BlobClass) : bytes :=
  match c with
  | Reserved account_id expires => write_loop 10 account_id ++ write_loop 10 expires
  | Linked account_id collection document_id =>
      write_loop 10 account_id ++ [collection] ++ write_loop 10 document_id
  end.

Definition section_bytes (s : option BlobSection) : bytes :=
  match s with
  | Some s => write_loop 10 (offset_start s) ++ write_loop 10 (size s)
  | None => []
  end.

Definition blob_bytes (b : BlobId) : bytes :=
  [blob_marker b] ++ hash b ++ class_bytes (class b) ++ section_bytes (section b).

Lemma serialize_as_bytes `{ByteWriterLaw W} (b : BlobId) (w : W) :
  serialize_as b w = wr (blob_bytes b) w.
Proof.
  unfold serialize_as, blob_bytes, write_leb128. rewrite !wr_app.
  by destruct (class b), (section b); cbn [class_bytes section_bytes]; rewrite ?wr_app, ?wr_nil.
Qed.

(** What the integers of a blob id may be; the four low bits of the marker
    hold the encoding plus one, so there are fifteen encodings. *)
Definition class_ok (c : BlobClass) : Prop :=
  match c with
  | Reserved a e => fits 32 a ∧ fits 64 e
  | Linked a c d => fits 32 a ∧ is_byte c ∧ fits 32 d
  end.

Definition section_ok (s : BlobSection) : Prop :=
  fits 64 (offset_start s) ∧ fits 64 (size s) ∧ 0 ≤ encoding s < 15.

Definition blob_ok (b : BlobId) : Prop :=
  length (hash b) = BLOB_HASH_LEN ∧ bytes_ok (hash b) ∧ class_ok (class b) ∧
  match section b with Some s => section_ok s | None => True end.

Lemma marker_encoding e f :
  0 ≤ e < 16 → f = B_LINKED ∨ f = B_RESERVED →
  ((e .| f) .& 15) = e ∧ (((e .| f) .& B_LINKED) =? 0) = (f =? B_RESERVED) ∧ is_byte (e .| f).
Proof.
  intros He Hf. assert (is_byte e) as Hb by (unfold fits; lia).
  destruct Hf as [-> | ->].
  - apply (byte_cases (λ e, e < 16 → ((e .| B_LINKED) .& 15) = e ∧
      (((e .| B_LINKED) .& B_LINKED) =? 0) = (B_LINKED =? B_RESERVED) ∧
      is_byte (e .| B_LINKED))); [by vm_compute|done|lia].
  - apply (byte_cases (λ e, e < 16 → ((e .| B_RESERVED) .& 15) = e ∧
      (((e .| B_RESERVED) .& B_LINKED) =? 0) = (B_RESERVED =? B_RESERVED) ∧
      is_byte (e .| B_RESERVED))); [by vm_compute|done|lia].
Qed.

(** The section's part of the marker. *)
Definition marker_low (b : BlobId) : Z :=
  match section b with Some s => encoding s + 1 | None => 0 end.

Lemma blob_marker_spec b :
  blob_ok b →
  (blob_marker b .& 15) = marker_low b ∧
  ((blob_marker b .& B_LINKED) =? 0) = (match class b with Linked _ _ _ => false | _ => true end) ∧
  is_byte (blob_marker b).
Proof.
  intros (_ & _ & _ & Hs).
  assert (blob_marker b = (marker_low b .|
    match class b with Linked _ _ _ => B_LINKED | Reserved _ _ => B_RESERVED end)) as ->.
  { unfold blob_marker, marker_low. destruct (section b) as [s|]; [|done].
    rewrite wrap_id; [done|]. unfold section_ok in Hs. unfold fits. lia. }
  assert (0 ≤ marker_low b < 16).
  { unfold marker_low. destruct (section b); [unfold section_ok in Hs|]; lia. }
  destruct (class b).
  - apply (marker_encoding _ B_RESERVED); [done|by right].
  - apply (marker_encoding _ B_LINKED); [done|by left].
Qed.

(** ** Reading back through any iterator *)

Section Reading.
Context `{ByteIter It}.

(** [reads m l a]: [m] on an iterator that delivers [l] and more returns [a]
    and stops after [l]. *)
Definition reads {A} (m : IterM It A) (l : bytes) (a : A) : Prop :=
  ∀ it rest it', delivers it (l ++ rest) it' →
  ∃ im, m it = (Some a, im) ∧ delivers im rest it'.

Lemma reads_ret {A} (a : A) : reads (mret a) [] a.
Proof. intros it rest it' Hd. by exists it. Qed.

Lemma reads_bind {A B} (m : IterM It A) (k : A → IterM It B) l1 l2 a b :
  reads m l1 a → reads (k a) l2 b → reads (m ≫= k) (l1 ++ l2) b.
Proof.
  intros Hm Hk it rest it' Hd. rewrite <- app_assoc in Hd.
  destruct (Hm _ _ _ Hd) as (i1 & H1 & Hd1). destruct (Hk _ _ _ Hd1) as (i2 & H2 & Hd2).
  exists i2. split; [|done]. unfold mbind, iter_bind. by rewrite H1.
Qed.

Lemma reads_all {A} (m : IterM It A) l a it it' :
  reads m l a → delivers it l it' → m it = (Some a, it').
Proof.
  intros Hm Hd. destruct (Hm it [] it') as (im & -> & Hend); [by rewrite app_nil_r|].
  by inversion Hend.
Qed.

Lemma reads_take1 b : reads take1 [b] b.
Proof. intros it rest it' Hd. inversion Hd; subst. eauto. Qed.

Lemma reads_bytes l : reads (take_bytes (length l)) l l.
Proof.
  induction l as [|b l IH]; [apply reads_ret|].
  apply (reads_bind _ _ [b] l b); [apply reads_take1|].
  rewrite <- (app_nil_r l) at 2. eapply reads_bind; [exact IH|]. apply reads_ret.
Qed.

Lemma reads_leb128 (L : Leb128_) {HL : LebLawful L} v :
  fits leb_width v → reads (take_leb128 L) (write_loop 10 v) v.
Proof. intros Hv it rest it' Hd. by apply (next_leb128_delivers (L := L) it it' v rest). Qed.

Lemma reads_ret_app {A} (m : IterM It A) l a : reads m (l ++ []) a → reads m l a.
Proof. by rewrite app_nil_r. Qed.

Lemma reads_blob b : blob_ok b → reads blob_from_iter (blob_bytes b) b.
Proof.
  intros Hok. pose proof (blob_marker_spec b Hok) as (Henc & Hlink & _).
  destruct Hok as (Hlen & _ & Hc & Hs).
  apply reads_bind with (blob_marker b); [apply reads_take1|]. cbv zeta.
  apply reads_bind with (hash b); [rewrite <- Hlen; apply reads_bytes|].
  rewrite Henc, Hlink.
  assert (reads (s ← (if negb (marker_low b =? 0) then
         start ← take_leb128 leb_usize;
         n ← take_leb128 leb_usize;
         mret (Some {| offset_start := start; size := n; encoding := marker_low b - 1 |})
       else mret None);
     mret {| hash := hash b; class := class b; section := s |}) (section_bytes (section b)) b) as Hsec.
  { apply reads_ret_app. apply reads_bind with (section b); [|destruct b; apply reads_ret].
    unfold marker_low. destruct (section b) as [s|]; [|apply reads_ret].
    destruct Hs as (Hst & Hsz & He).
    replace (encoding s + 1 =? 0) with false by lia. cbn [negb].
    apply reads_bind with (offset_start s); [by apply reads_leb128|].
    apply reads_ret_app, reads_bind with (size s); [by apply reads_leb128|].
    replace (encoding s + 1 - 1) with (encoding s) by lia. destruct s; apply reads_ret. }
  destruct (class b) as [a e|a c d] eqn:Hcls; cbn [class_bytes negb]; rewrite <- !app_assoc.
  - destruct Hc as [Ha He]. apply reads_bind with a; [by apply reads_leb128|].
    apply reads_bind with (Reserved a e); [|done].
    apply reads_ret_app, reads_bind with e; [by apply reads_leb128|apply reads_ret].
  - destruct Hc as (Ha & Hcb & Hd). apply reads_bind with a; [by apply reads_leb128|].
    rewrite (app_assoc [c]). apply reads_bind with (Linked a c d); [|done].
    apply reads_bind with c; [apply reads_take1|].
    apply reads_ret_app, reads_bind with d; [by apply reads_leb128|apply reads_ret].
Qed.
End Reading.

(** ** Base32 text inside a JSON string *)

Lemma letter_plain i : fits 5 i → plain (base32_char i).
Proof.
  intros Hi. pose proof (base32_char_elem i Hi) as He.
  assert (Forall plain BASE32_ALPHABET) as Hall by (by repeat constructor).
  by apply (proj1 (Forall_forall _ _) Hall).
Qed.

Lemma letters_plain l : bytes_ok l → Forall plain (base32_char <$> groups l).
Proof.
  intros Hl. apply Forall_fmap. eapply Forall_impl; [by apply groups_fits|]. apply letter_plain.
Qed.

(** Plain characters come out of the parser one by one. *)
Lemma parser_delivers l rest p :
  Forall plain l → p_iter p = l ++ rest →
  delivers p l (upd_iter rest (pos p + Z.of_nat (length l)) p).
Proof.
  intros Hl. revert p. induction Hl as [|b l [Hq Hb] Hl IH]; intros p Hit.
  - simpl in Hit. rewrite Z.add_0_r, <- Hit. replace (upd_iter (p_iter p) (pos p) p) with p
      by (by destruct p). apply delivers_nil.
  - eapply delivers_cons.
    + unfold iter_next, parser_letters, next_unescaped.
      erewrite bind_ok by (by apply next_char_some). cbv beta iota.
      by rewrite (proj2 (Z.eqb_neq _ _) Hq), (proj2 (Z.eqb_neq _ _) Hb).
    + replace (upd_iter rest (pos p + Z.of_nat (length (b :: l))) p)
        with (upd_iter rest (pos (upd_iter (l ++ rest) (pos p + 1) p) + Z.of_nat (length l))
                (upd_iter (l ++ rest) (pos p + 1) p)) by (unfold upd_iter; simpl; f_equal; lia).
      by apply IH.
Qed.

Lemma json_reader_delivers l rest p :
  bytes_ok l → p_iter p = (base32_char <$> groups l) ++ rest →
  ∃ it', delivers (json_reader_new p) l it' ∧
    r_bytes it' = upd_iter rest (pos p + Z.of_nat (length (groups l))) p.
Proof.
  intros Hl Hit. pose proof (parser_delivers _ _ _ (letters_plain l Hl) Hit) as Hd.
  rewrite length_fmap in Hd. destruct (reader_delivers l _ _ 0 0 Hl eq_refl Hd) as (last & n & Hr).
  eauto.
Qed.

Lemma skip_string_quote rest q :
  p_iter q = DQUOTE :: rest →
  skip_string q = (Ok true, upd_eof true (upd_iter rest (pos q + 1) q)).
Proof.
  intros Hq. unfold skip_string, fuelled. rewrite Hq. cbn [skip_loop length].
  etransitivity; [eapply bind_ok; by apply next_char_some|]. reflexivity.
Qed.

(** A value that stops before the closing quote. *)
Lemma next_token_value `{FL : Floats} `{JsonObjectParser T} l rest v p q :
  next_ch p = None → p_iter p = DQUOTE :: l →
  json_parse (upd_eof false (upd_marker (pos p + 1) (upd_iter l (pos p + 1) p))) = (Ok v, q) →
  is_eof q = false → p_iter q = DQUOTE :: rest →
  next_token T p = (Ok (TString v), upd_eof true (upd_iter rest (pos q + 1) q)).
Proof.
  intros Hn Hit Hv Heof Hq. unfold next_token. rewrite Hn.
  erewrite bind_ok by (by apply next_char_some). cbn [token_loop].
  unfold token_step. change (DQUOTE =? DQUOTE) with true. cbv iota.
  etransitivity; [eapply bind_ok|].
  { etransitivity; [by eapply bind_ok|]. cbv beta.
    etransitivity; [eapply bind_ok; exact Hv|]. cbv beta.
    etransitivity; [by eapply bind_ok|]. cbv beta. rewrite Heof.
    etransitivity; [eapply bind_ok; by apply skip_string_quote|]. reflexivity. }
  done.
Qed.

Lemma length_base32 l : length (base32_char <$> groups l) = length (groups l).
Proof. by rewrite length_fmap. Qed.

(** The parser after a string value: the input behind the closing quote, the
    position that goes with it, and the depths as they were. *)
Definition value_read (p p' : Parser) (n : nat) (rest : bytes) : Prop :=
  p_iter p' = rest ∧ pos p' = pos p + Z.of_nat n + 2 ∧ next_ch p' = None ∧
  depth_array p' = depth_array p ∧ depth_dict p' = depth_dict p.

Lemma class_bytes_ok c : class_ok c → bytes_ok (class_bytes c).
Proof.
  destruct c; unfold class_ok, class_bytes; intros Hc; rewrite ?Forall_app, ?Forall_singleton;
    unfold fits in *; split_and?; try apply write_loop_bytes; lia.
Qed.

Lemma blob_bytes_ok b : blob_ok b → bytes_ok (blob_bytes b).
Proof.
  intros Hb. pose proof (blob_marker_spec b Hb) as (_ & _ & Hm).
  destruct Hb as (_ & Hh & Hc & Hs). unfold blob_bytes.
  rewrite !Forall_app, Forall_singleton. split_and!; [done|done|by apply class_bytes_ok|].
  destruct (section b) as [s|]; simpl; [|constructor]. destruct Hs as (Ho & Hz & _).
  rewrite Forall_app. unfold fits in *. split; apply write_loop_bytes; lia.
Qed.

Lemma blob_to_string_letters b :
  blob_ok b → blob_to_string b = base32_char <$> groups (blob_bytes b).
Proof.
  intros Hb. unfold blob_to_string. rewrite serialize_as_bytes.
  unfold wr, base32_writer, base32_write. cbn [fst].
  by rewrite base32_finalize_groups by (done || by apply blob_bytes_ok).
Qed.

Lemma blob_parse_text b rest p :
  blob_ok b → p_iter p = blob_to_string b ++ rest →
  blob_parse p = (Ok b, upd_iter rest (pos p + Z.of_nat (length (blob_to_string b))) p).
Proof.
  intros Hb Hit. rewrite blob_to_string_letters, length_base32 in * by done.
  destruct (json_reader_delivers _ _ _ (blob_bytes_ok b Hb) Hit) as (it' & Hd & Hr).
  unfold blob_parse. by rewrite (reads_all _ _ _ _ _ (reads_blob b Hb) Hd), Hr.
Qed.

(** *** The values are lawful values of the lexer *)

(** Reading through the base32 reader keeps what a lexer value must keep. *)
Definition iframe {A} (m : IterM JsonBase32Reader A) : Prop :=
  ∀ it r it', m it = (r, it') → kept (r_bytes it) (r_bytes it').

Lemma letters_kept p r p' : iter_next (p : Parser) = (r, p') → kept p p'.
Proof.
  unfold iter_next, parser_letters. destruct (next_unescaped p) as [[[b|]|e] q] eqn:Hq;
    intros [= <- <-]; by apply (frame_next_unescaped (length (p_iter p))) in Hq as [? _].
Qed.

Lemma iframe_map_byte : iframe (map_byte (It := Parser)).
Proof.
  intros it r it'. unfold map_byte.
  destruct (iter_next (r_bytes it)) as [[b|] rest] eqn:Hn; apply letters_kept in Hn;
    [destruct (_ =? _)|]; by intros [= <- <-].
Qed.

Lemma iframe_next : iframe (iter_next (It := JsonBase32Reader)).
Proof.
  intros it r it'. unfold iter_next, base32_iter, reader_next.
  destruct (map_byte it) as [[b|] it1] eqn:H1; apply iframe_map_byte in H1;
    [|by intros [= <- <-]]. cbv zeta.
  set (it2 := Build_Base32Reader _ _ _). change (r_bytes it1) with (r_bytes it2) in H1.
  destruct (map_byte it2) as [o it3] eqn:H3. apply iframe_map_byte in H3.
  repeat case_match; intros [= <- <-]; first [exact H1|by eapply kept_trans].
Qed.

Lemma iframe_leb128 L : iframe (take_leb128 (It := JsonBase32Reader) L).
Proof.
  unfold take_leb128, next_leb128. generalize (leb_shifts (Leb128_ := L)), 0.
  intros shifts. induction shifts as [|s shifts IH]; intros result it r it'; cbn [read_it].
  - intros [= <- <-]. apply kept_refl.
  - destruct (iter_next it) as [[b|] it1] eqn:H1; apply iframe_next in H1;
      [|by intros [= <- <-]].
    destruct (_ =? 0); [by intros [= <- <-]|]. intros Hr. eapply kept_trans; [exact H1|].
    by eapply IH.
Qed.

Lemma iframe_bind {A B} (m : IterM JsonBase32Reader A) (k : A → IterM JsonBase32Reader B) :
  iframe m → (∀ a, iframe (k a)) → iframe (m ≫= k).
Proof.
  intros Hm Hk it r it'. unfold mbind, iter_bind.
  destruct (m it) as [[a|] it1] eqn:H1; apply Hm in H1; [|by intros [= <- <-]].
  intros H2. apply Hk in H2. by eapply kept_trans.
Qed.

Lemma iframe_ret {A} (a : A) : iframe (mret a : IterM JsonBase32Reader A).
Proof. intros it r it' [= <- <-]. apply kept_refl. Qed.

Lemma iframe_bytes n : iframe (take_bytes (It := JsonBase32Reader) n).
Proof.
  induction n as [|n IH]; [apply iframe_ret|]. cbn [take_bytes].
  apply iframe_bind; [apply iframe_next|]. intros b.
  apply iframe_bind; [exact IH|]. intros l. apply iframe_ret.
Qed.

Lemma iframe_blob : iframe (blob_from_iter (It := JsonBase32Reader)).
Proof.
  unfold blob_from_iter. cbv zeta.
  repeat match goal with
  | |- iframe (_ ≫= _) => apply iframe_bind; intros
  | |- iframe (if ?b then _ else _) => destruct b
  | |- iframe take1 => apply iframe_next
  | |- _ => first [apply iframe_leb128|apply iframe_ret|apply iframe_bytes]
  end.
Qed.

(** After reading, a parser method goes on or fails. *)
Lemma frame_after {A} n (m : J A) p q r p' :
  kept p q → (length (p_iter p) ≤ n)%nat → frame n m → m q = (r, p') →
  kept p p' ∧ r ≠ Err OutOfFuel.
Proof.
  intros Hk Hn Hm Hr. apply Hm in Hr as [Hk' ?]; [|unfold kept in Hk; lia].
  split; [by eapply kept_trans|done].
Qed.

#[export] Instance blob_law : ParserLaw BlobId.
Proof.
  intros n p r p' Hn. unfold json_parse, blob_parser, blob_parse, json_reader_error.
  destruct (blob_from_iter _) as [[b|] it] eqn:Hb; apply iframe_blob in Hb.
  - by intros [= <- <-].
  - eapply frame_after; [exact Hb|exact Hn|apply frame_error_value].
Qed.

Lemma frame_state_exact n : frame n state_parse_exact.
Proof.
  intros p r p' Hn. unfold state_parse_exact.
  destruct (next_leb128 _) as [[b|] it] eqn:Hb; apply (iframe_leb128 leb_u64) in Hb.
  - by intros [= <- <-].
  - eapply frame_after; [exact Hb|exact Hn|apply frame_error_value].
Qed.

Lemma frame_state_intermediate n : frame n state_parse_intermediate.
Proof.
  intros p r p' Hn. unfold state_parse_intermediate.
  destruct (next_leb128 _) as [a i1] eqn:H1; apply (iframe_leb128 leb_u64) in H1.
  destruct (next_leb128 i1) as [b i2] eqn:H2; apply (iframe_leb128 leb_u64) in H2.
  destruct (next_leb128 i2) as [c i3] eqn:H3; apply (iframe_leb128 leb_usize) in H3.
  assert (kept p (r_bytes i3)) as Hk by (eapply kept_trans; [exact H1|by eapply kept_trans]).
  repeat case_match; try (eapply frame_after; [exact Hk|exact Hn|apply frame_error_value]).
  by intros [= <- <-].
Qed.

#[export] Instance state_law : ParserLaw State.
Proof.
  intros n. unfold json_parse, state_parser, state_parse.
  apply frame_bind; [apply frame_next_unescaped|]. intros [ch|]; [|apply frame_error_value].
  repeat case_match; auto using frame_ret, frame_state_exact, frame_state_intermediate,
    frame_error_value.
Qed.

Lemma id_parse_loop_frame fuel v n : (n < fuel)%nat → frame n (id_parse_loop fuel v).
Proof.
  revert v n. induction fuel as [|fuel IH]; intros v n Hn; [lia|].
  cbn [id_parse_loop]. apply frame_unescaped; intros; cbv zeta; frames. apply IH. lia.
Qed.

#[export] Instance id_law : ParserLaw Id.
Proof.
  intros n. unfold json_parse, id_parser, id_parse. frames. by apply id_parse_loop_frame.
Qed.
(** ** Properties *)

(**  A blob id survives each of its encodings: the base32 text is read
    back by [from_base32], the same text inside a JSON string by the request
    parser, and the binary form by [deserialize_from], which stops where the
    id ends. *)
Theorem blob_id_roundtrip `{FL : Floats} (b : BlobId) (rest : bytes) (p : Parser)
    (Hb : blob_ok b) (Hn : next_ch p = None)
    (Hit : p_iter p = DQUOTE :: blob_to_string b ++ DQUOTE :: rest) :
  blob_from_base32 (blob_to_string b) = Some b ∧
  blob_deserialize_from (blob_serialize_into b [] ++ rest) = (Some b, rest) ∧
  ∃ p', next_token BlobId p = (Ok (TString b), p') ∧
    value_read p p' (length (blob_to_string b)) rest.
Proof.
  split_and!.
  - unfold blob_from_base32. rewrite blob_to_string_letters by done.
    pose proof (slice_delivers (base32_char <$> groups (blob_bytes b)) []) as Hd.
    rewrite app_nil_r in Hd.
    destruct (reader_delivers _ _ _ 0 0 (blob_bytes_ok b Hb) eq_refl Hd) as (? & ? & Hr).
    unfold reader_new. by rewrite (reads_all _ _ _ _ _ (reads_blob b Hb) Hr).
  - unfold blob_serialize_into, blob_deserialize_from. rewrite serialize_as_bytes.
    unfold wr, vec_writer. cbn [app].
    pose proof (slice_delivers (blob_bytes b ++ rest) []) as Hd. rewrite app_nil_r in Hd.
    destruct (reads_blob b Hb _ _ _ Hd) as (im & -> & Hd').
    f_equal. by apply slice_delivers_inv.
  - eexists. split.
    + eapply next_token_value; [done|exact Hit|by apply blob_parse_text|done|done].
    + repeat split; simpl; try done. lia.
Qed.

(** A blob of a message part: the base64 section 1024..3072 of document 7. *)
Definition sample_blob : BlobId :=
  {| hash := replicate 32 171; class := Linked 3 0 7;
     section := Some {| offset_start := 1024; size := 2048; encoding := 2 |} |}.

Lemma blob_id_roundtrip_witness :
  blob_ok sample_blob ∧
  blob_from_base32 (blob_to_string sample_blob) = Some sample_blob.
Proof.
  assert (blob_ok sample_blob) as H.
  { split; [done|]. split; [|by repeat split].
    apply Forall_replicate. concrete. }
  split; [exact H|].
  apply (blob_id_roundtrip (FL := no_floats) sample_blob []
    (parser_new (DQUOTE :: blob_to_string sample_blob ++ [DQUOTE])) H eq_refl eq_refl).
Defined.

(** *** State *)

Definition state_ok (s : State) : Prop :=
  match s with
  | Initial => True
  | Exact id => fits 64 id
  | Intermediate i =>
      0 ≤ from_id i ∧ from_id i ≤ to_id i ∧ to_id i < 2 ^ 64 ∧ 0 < items_sent i < 2 ^ 64
  end.

(** The bytes after the first letter. *)
Definition state_bytes (s : State) : bytes :=
  match s with
  | Initial => []
  | Exact id => write_loop 10 id
  | Intermediate i =>
      write_loop 10 (from_id i) ++ write_loop 10 (to_id i - from_id i)
      ++ write_loop 10 (items_sent i)
  end.

Definition state_letter (s : State) : Z :=
  match s with Initial => "n" | Exact _ => "s" | Intermediate _ => "r" end.

Lemma state_bytes_ok s : state_ok s → bytes_ok (state_bytes s).
Proof.
  destruct s as [|id|i]; cbn [state_ok state_bytes]; intros Hs; [constructor| |].
  - apply write_loop_bytes. unfold fits in Hs. lia.
  - rewrite !Forall_app. split_and!; apply write_loop_bytes; lia.
Qed.

Lemma state_to_string_letters s :
  state_ok s → state_to_string s = state_letter s :: (base32_char <$> groups (state_bytes s)).
Proof.
  intros Hs. pose proof (state_bytes_ok s Hs) as Hb.
  assert (state_to_string s
    = base32_finalize (wr (state_bytes s) (push_char (state_letter s) with_raw_capacity))) as ->.
  { unfold state_to_string, write_leb128. destruct s as [|id|i]; cbn [state_bytes state_letter];
      [done|done|]. rewrite !wr_app, (wrap_id 64); [done|]. unfold state_ok in Hs. unfold fits. lia. }
  unfold wr, base32_writer, base32_write. cbn [fst]. by rewrite base32_finalize_groups.
Qed.

Lemma next_unescaped_plain b it p :
  plain b → p_iter p = b :: it → next_unescaped p = (Ok (Some b), upd_iter it (pos p + 1) p).
Proof.
  intros [Hq Hb] Hit. unfold next_unescaped.
  erewrite bind_ok by (by apply next_char_some). cbv beta iota.
  by rewrite (proj2 (Z.eqb_neq _ _) Hq), (proj2 (Z.eqb_neq _ _) Hb).
Qed.

Lemma state_parse_text s rest p :
  state_ok s → p_iter p = state_to_string s ++ rest →
  state_parse p = (Ok s, upd_iter rest (pos p + Z.of_nat (length (state_to_string s))) p).
Proof.
  intros Hs Hit. rewrite state_to_string_letters in * by done. cbn [length]. rewrite length_base32.
  unfold state_parse. erewrite bind_ok by (apply next_unescaped_plain; [|exact Hit]; by destruct s).
  cbv beta iota. set (q := upd_iter _ _ p).
  assert (p_iter q = (base32_char <$> groups (state_bytes s)) ++ rest) as Hq by done.
  destruct (json_reader_delivers _ _ _ (state_bytes_ok s Hs) Hq) as (it' & Hd & Hr).
  replace (upd_iter rest (pos p + Z.of_nat (S (length (groups (state_bytes s))))) p)
    with (r_bytes it') by (rewrite Hr; unfold upd_iter; simpl; f_equal; lia).
  destruct s as [|id|i]; cbn [state_letter state_bytes] in *.
  - inversion Hd; subst. done.
  - simpl (_ =? _). cbv iota. unfold state_parse_exact.
    pose proof (reads_all _ _ _ _ _ (reads_leb128 leb_u64 id Hs) Hd) as Hx.
    unfold take_leb128 in Hx. by rewrite Hx.
  - simpl (_ =? _). cbv iota. unfold state_parse_intermediate.
    assert (fits 64 (from_id i) ∧ fits 64 (to_id i - from_id i) ∧ fits 64 (items_sent i))
      as (Hf & Ht & Hi) by (unfold state_ok in Hs; unfold fits; lia).
    destruct (next_leb128_delivers (L := leb_u64) _ _ _ _ Hf Hd) as (i1 & -> & Hd1).
    destruct (next_leb128_delivers (L := leb_u64) _ _ _ _ Ht Hd1) as (i2 & -> & Hd2).
    pose proof (reads_all _ _ _ _ _ (reads_leb128 leb_usize _ Hi) Hd2) as Hx.
    unfold take_leb128 in Hx. rewrite Hx.
    unfold state_ok in Hs. clear Hd Hd1 Hd2.
    rewrite (proj2 (Z.ltb_lt 0 (items_sent i))) by lia. do 2 f_equal.
    destruct i as [f t n]; simpl in *. do 2 f_equal. unfold saturating_add64, umax. lia.
Qed.

(**  A JMAP state printed by the server and sent back inside a JSON
    string is the same state: no change id or count is lost, for the three
    kinds of state. *)
Theorem state_roundtrip `{FL : Floats} (s : State) (rest : bytes) (p : Parser)
    (Hs : state_ok s) (Hn : next_ch p = None)
    (Hit : p_iter p = DQUOTE :: state_to_string s ++ DQUOTE :: rest) :
  ∃ p', next_token State p = (Ok (TString s), p') ∧
    value_read p p' (length (state_to_string s)) rest.
Proof.
  eexists. split.
  - eapply next_token_value; [done|exact Hit|by apply state_parse_text|done|done].
  - repeat split; simpl; try done. lia.
Qed.

Lemma state_roundtrip_witness :
  ∃ p', next_token (FL := no_floats) State
    (parser_new (DQUOTE :: state_to_string (new_intermediate 1024 2048 100) ++ [DQUOTE]))
    = (Ok (TString (new_intermediate 1024 2048 100)), p').
Proof.
  destruct (state_roundtrip (FL := no_floats) (new_intermediate 1024 2048 100) []
    (parser_new (DQUOTE :: state_to_string (new_intermediate 1024 2048 100) ++ [DQUOTE])))
    as (p' & H & _); [by repeat split|reflexivity|reflexivity|].
  exists p'. exact H.
Defined.

(**  A request body that breaks off right after the state ["r"] makes the
    parser index its buffer out of range while it builds the error message:
    the three integers are read past the closing quote, each read at the end
    of the input moves the position, and the slice of the error ends behind
    the buffer. *)
Theorem truncated_state_panics `{FL : Floats} (p : Parser)
    (Hn : next_ch p = None) (Hsync : in_sync p)
    (Hit : p_iter p = [DQUOTE; "r"; DQUOTE]) :
  (next_token State p).1 = Err Panic.
Proof.
  destruct Hsync as (pre & Hb & Hp). destruct p as [b it nc n pm da dd eof].
  simpl in *. subst it nc.
  assert (state_parse (Build_Parser b ["r"; DQUOTE] None (n + 1) (n + 1) da dd false)
    = (text ← slice_to_pos (n + 1);
       m ← get pos;
       throw (InvalidValue text m))
        (Build_Parser b [] None (n + 1 + 1 + 1 + 1 + 1) (n + 1) da dd true)) as Hparse
    by reflexivity.
  erewrite bind_err in Hparse.
  2: { unfold slice_to_pos. cbn [p_bytes pos].
    replace (slice_get _ _ _) with (@None bytes); [done|].
    symmetry. unfold slice_get. rewrite Hb, length_app. simpl length.
    rewrite (proj2 (Z.leb_gt _ (Z.of_nat _))); [by rewrite andb_false_r|]. lia. }
  unfold next_token. cbn [next_ch].
  erewrite bind_ok by (by apply next_char_some). cbn [token_loop]. unfold token_step.
  change (DQUOTE =? DQUOTE) with true. cbv iota.
  erewrite bind_err; [done|]. erewrite bind_ok; [|done]. cbv beta.
  erewrite bind_err; [done|]. exact Hparse.
Qed.

Lemma truncated_state_panics_witness :
  (next_token (FL := no_floats) State (parser_new [DQUOTE; "r"; DQUOTE])).1 = Err Panic.
Proof.
  apply (truncated_state_panics (FL := no_floats) (parser_new [DQUOTE; "r"; DQUOTE]));
    [reflexivity|by exists []|reflexivity].
Defined.

(** *** Ids in JSON *)

Lemma id_parse_letters l v0 v fuel rest p :
  from_letters v0 l = Some v → p_iter p = l ++ DQUOTE :: rest →
  (length (p_iter p) < fuel)%nat →
  id_parse_loop fuel v0 p = (Ok {| id := v |}, after_string (length l) rest p).
Proof.
  revert v0 fuel p. induction l as [|b l IH]; intros v0 fuel p Hv Hit Hf;
    (destruct fuel as [|fuel]; [lia|]); cbn [id_parse_loop].
  - simplify_eq/=. unfold next_unescaped, mbind, J_bind, next_char. rewrite Hit. simpl.
    unfold after_string. by rewrite Z.add_0_r.
  - simpl in Hv. destruct (base32_rank b =? 255) eqn:Hrank; [done|].
    assert (plain b) by (split; intros ->; done).
    erewrite bind_ok by (by apply (next_unescaped_plain b (l ++ DQUOTE :: rest))).
    cbv beta iota zeta. rewrite Hrank.
    rewrite IH; [|done|done|cbn [p_iter upd_iter]; rewrite Hit in Hf; cbn [app length] in Hf; lia].
    f_equal. unfold after_string, upd_eof, upd_iter; simpl. f_equal. lia.
Qed.

(**  Every 64-bit id is recovered from the letters [as_string] prints for
    it, from the plain text and from a JSON string of a request. *)
Theorem id_string_roundtrip `{FL : Floats} (i : Id) (rest : bytes) (p : Parser)
    (Hi : fits 64 (id i)) (Hn : next_ch p = None)
    (Hit : p_iter p = DQUOTE :: id_as_string i ++ DQUOTE :: rest) :
  id_from_bytes (id_as_string i) = Some i ∧
  ∃ p', next_token Id p = (Ok (TString i), p') ∧ value_read p p' (length (id_as_string i)) rest.
Proof.
  pose proof (id_string_letters i Hi) as Hl. destruct i as [n]. split.
  - unfold id_from_bytes. by rewrite Hl.
  - eexists. split.
    + eapply next_token_string; [done|exact Hit| |].
      * unfold json_parse, id_parser, id_parse, fuelled.
        apply (id_parse_letters (id_as_string {| id := n |}) 0 n _ rest); [exact Hl|done|simpl; lia].
      * done.
    + repeat split; simpl; try done. lia.
Qed.

Lemma id_string_roundtrip_witness :
  fits 64 (id id_singleton) ∧ id_from_bytes (id_as_string id_singleton) = Some id_singleton.
Proof.
  assert (fits 64 (id id_singleton)) as H by concrete. split; [exact H|].
  apply (id_string_roundtrip (FL := no_floats) id_singleton []
    (parser_new (DQUOTE :: id_as_string id_singleton ++ [DQUOTE])) H eq_refl eq_refl).
Defined.
