(* ===== verification/StoreKeys.v ===== *)
(** * Keys of the store

    crates/store/src: the key types of [lib.rs], the value and bitmap classes of
    [write/mod.rs], and their serialization in [write/key.rs].  A key is written
    by chaining [KeySerializer::write]; the model lists the parts of the chain. *)

From S2P Require Import Prelude Leb128 Utf8.

Open Scope word_scope.
Open Scope chr_scope.

#[local] Opaque write_loop.

(** ** Ids known only when the batch is written *)

(** [document_ids] and [counter_ids] in the order they were assigned. *)
Record AssignedIds := {
  document_ids : list Z;
  counter_ids : list Z;
}.

Definition assigned_default : AssignedIds := {| document_ids := []; counter_ids := [] |}.

Inductive MaybeDynamicId :=
| Static (id : Z)
| Dynamic (idx : nat).

Class ResolveId (T : Type) := resolve_id : T → option AssignedIds → Z.

#[export] Instance resolve_u32 : ResolveId Z := λ id _, id.

#[export] Instance resolve_dynamic : ResolveId MaybeDynamicId | 10 := λ m ids,
  match m with
  | Static id => id
  | Dynamic idx => default u32_max (ids ≫= λ ids, document_ids ids !! idx)
  end.

(** ** Classes of values and bitmaps *)

(** [hash] has eight bytes. *)
Record BitmapHash := {
  bh_hash : bytes;
  bh_len : Z;
}.

Inductive TagValue (T : Type) :=
| TagId (id : T)
| TagText (text : bytes).
Arguments TagId {T} id.
Arguments TagText {T} text.

Inductive BitmapClass (T : Type) :=
| DocumentIds
| Tag (field : Z) (value : TagValue T)
| Text (field : Z) (token : BitmapHash).
Arguments DocumentIds {T}.
Arguments Tag {T} field value.
Arguments Text {T} field token.

Record FtsQueueClass := {
  fq_seq : Z;
  fq_hash : bytes;
}.

Record AnyClass := {
  any_subspace : Z;
  any_key : bytes;
}.

Inductive LookupClass :=
| LookupKey (key : bytes)
| LookupCounter (key : bytes).

Inductive DirectoryClass (T : Type) :=
| NameToId (name : bytes)
| EmailToId (email : bytes)
| MemberOf (principal_id member_of : T)
| Members (principal_id has_member : T)
| Principal (uid : T)
| UsedQuota (uid : Z).
Arguments NameToId {T} name.
Arguments EmailToId {T} email.
Arguments MemberOf {T} principal_id member_of.
Arguments Members {T} principal_id has_member.
Arguments Principal {T} uid.
Arguments UsedQuota {T} uid.

Record QueueEvent := {
  qe_due : Z;
  qe_queue_id : Z;
}.

Record ReportEvent := {
  re_due : Z;
  re_policy_hash : Z;
  re_seq_id : Z;
  re_domain : bytes;
}.

Inductive QueueClass :=
| QMessage (queue_id : Z)
| QMessageEvent (event : QueueEvent)
| DmarcReportHeader (event : ReportEvent)
| DmarcReportEvent (event : ReportEvent)
| TlsReportHeader (event : ReportEvent)
| TlsReportEvent (event : ReportEvent)
| QuotaCount (key : bytes)
| QuotaSize (key : bytes).

Inductive ReportClass :=
| ReportTls (id expires : Z)
| ReportDmarc (id expires : Z)
| ReportArf (id expires : Z).

Inductive TelemetryClass :=
| Span (span_id : Z)
| Metric (timestamp metric_id node_id : Z)
| TelemetryIndex (span_id : Z) (value : bytes).

Inductive BlobOp :=
| BlobReserve (hash : bytes) (until : Z)
| BlobCommit (hash : bytes)
| BlobLink (hash : bytes)
| BlobLinkId (hash : bytes) (id : Z).

Inductive ValueClass (T : Type) :=
| Property (field : Z)
| Acl (grant_account_id : Z)
| Lookup (lookup : LookupClass)
| FtsIndex (hash : BitmapHash)
| FtsQueue (queue : FtsQueueClass)
| Directory (directory : DirectoryClass T)
| Blob (op : BlobOp)
| Config (key : bytes)
| Queue (queue : QueueClass)
| Report (report : ReportClass)
| Telemetry (telemetry : TelemetryClass)
| Any (any : AnyClass).
Arguments Property {T} field.
Arguments Acl {T} grant_account_id.
Arguments Lookup {T} lookup.
Arguments FtsIndex {T} hash.
Arguments FtsQueue {T} queue.
Arguments Directory {T} directory.
Arguments Blob {T} op.
Arguments Config {T} key.
Arguments Queue {T} queue.
Arguments Report {T} report.
Arguments Telemetry {T} telemetry.
Arguments Any {T} any.

(** ** Subspaces *)

Definition SUBSPACE_ACL : Z := "a".
Definition SUBSPACE_BITMAP_ID : Z := "b".
Definition SUBSPACE_BITMAP_TAG : Z := "c".
Definition SUBSPACE_BITMAP_TEXT : Z := "v".
Definition SUBSPACE_DIRECTORY : Z := "d".
Definition SUBSPACE_FTS_QUEUE : Z := "f".
Definition SUBSPACE_INDEXES : Z := "i".
Definition SUBSPACE_BLOB_RESERVE : Z := "j".
Definition SUBSPACE_BLOB_LINK : Z := "k".
Definition SUBSPACE_LOGS : Z := "l".
Definition SUBSPACE_COUNTER : Z := "n".
Definition SUBSPACE_LOOKUP_VALUE : Z := "m".
Definition SUBSPACE_PROPERTY : Z := "p".
Definition SUBSPACE_SETTINGS : Z := "s".
Definition SUBSPACE_QUEUE_MESSAGE : Z := "e".
Definition SUBSPACE_QUEUE_EVENT : Z := "q".
Definition SUBSPACE_QUOTA : Z := "u".
Definition SUBSPACE_REPORT_OUT : Z := "h".
Definition SUBSPACE_REPORT_IN : Z := "r".
Definition SUBSPACE_FTS_INDEX : Z := "g".
Definition SUBSPACE_TELEMETRY_SPAN : Z := "o".
Definition SUBSPACE_TELEMETRY_INDEX : Z := "w".
Definition SUBSPACE_TELEMETRY_METRIC : Z := "x".

Definition WITH_SUBSPACE : Z := 1.
Definition U64_LEN : Z := 8.
Definition U32_LEN : Z := 4.

Definition value_subspace {T} (class : ValueClass T) (collection : Z) : Z :=
  match class with
  | Property field =>
      if (field =? 84) && (collection =? 1) then SUBSPACE_COUNTER else SUBSPACE_PROPERTY
  | Acl _ => SUBSPACE_ACL
  | FtsIndex _ => SUBSPACE_FTS_INDEX
  | FtsQueue _ => SUBSPACE_FTS_QUEUE
  | Blob op =>
      match op with BlobReserve _ _ => SUBSPACE_BLOB_RESERVE | _ => SUBSPACE_BLOB_LINK end
  | Config _ => SUBSPACE_SETTINGS
  | Lookup (LookupKey _) => SUBSPACE_LOOKUP_VALUE
  | Lookup (LookupCounter _) => SUBSPACE_COUNTER
  | Directory (UsedQuota _) => SUBSPACE_QUOTA
  | Directory _ => SUBSPACE_DIRECTORY
  | Queue queue =>
      match queue with
      | QMessage _ => SUBSPACE_QUEUE_MESSAGE
      | QMessageEvent _ => SUBSPACE_QUEUE_EVENT
      | QuotaCount _ | QuotaSize _ => SUBSPACE_QUOTA
      | _ => SUBSPACE_REPORT_OUT
      end
  | Report _ => SUBSPACE_REPORT_IN
  | Telemetry (Span _) => SUBSPACE_TELEMETRY_SPAN
  | Telemetry (TelemetryIndex _ _) => SUBSPACE_TELEMETRY_INDEX
  | Telemetry (Metric _ _ _) => SUBSPACE_TELEMETRY_METRIC
  | Any any => any_subspace any
  end.

Definition is_counter {T} (class : ValueClass T) (collection : Z) : bool :=
  match class with
  | Directory (UsedQuota _) | Lookup (LookupCounter _)
  | Queue (QuotaCount _) | Queue (QuotaSize _) => true
  | Property field => (field =? 84) && (collection =? 1)
  | _ => false
  end.

Definition bitmap_subspace {T} (class : BitmapClass T) : Z :=
  match class with
  | DocumentIds => SUBSPACE_BITMAP_ID
  | Tag _ _ => SUBSPACE_BITMAP_TAG
  | Text _ _ => SUBSPACE_BITMAP_TEXT
  end.

(** ** Serialization *)

(** The types that implement [KeySerialize], and the LEB128 writer. *)
Inductive KeyPart :=
| U8 (v : Z)
| U32 (v : Z)
| U64 (v : Z)
| Raw (l : bytes)
| Leb (v : Z).

Definition key_serialize (p : KeyPart) (buf : bytes) : bytes :=
  buf ++
  match p with
  | U8 v => [v]
  | U32 v => be_bytes 4 v
  | U64 v => be_bytes 8 v
  | Raw l => l
  | Leb v => write_loop 10 v
  end.

Record KeySerializer := { buf : bytes }.

Definition key_serializer_new : KeySerializer := {| buf := [] |}.
Definition ks_write (s : KeySerializer) (p : KeyPart) : KeySerializer :=
  {| buf := key_serialize p (buf s) |}.
Definition ks_finalize (s : KeySerializer) : bytes := buf s.

(** [serializer.write(p1).write(p2)...] *)
Definition ks_chain (parts : list KeyPart) (s : KeySerializer) : KeySerializer :=
  foldl ks_write s parts.

(** Whether [flags] asks for the subspace byte in front. *)
Definition subspace_prefix (flags subspace : Z) : list KeyPart :=
  if negb ((flags .& WITH_SUBSPACE) =? 0) then [U8 subspace] else [].

(** The first bytes of a token's hash, with the length where it is eight or
    more. *)
Definition hash_parts (h : BitmapHash) : list KeyPart :=
  Raw (take (Z.to_nat (Z.min (bh_len h) 8)) (bh_hash h))
  :: (if 8 <=? bh_len h then [U8 (bh_len h)] else []).

Section Serialize.
Context `{ResolveId T} (ids : option AssignedIds).
#[local] Abbreviation rid x := (resolve_id x ids).

Definition report_parts (e : ReportEvent) : list KeyPart :=
  [U64 (re_due e); Raw (re_domain e); U64 (re_policy_hash e); U64 (re_seq_id e)].

Definition value_parts (class : ValueClass T) (account_id collection document_id : Z)
    : list KeyPart :=
  match class with
  | Property field => [U32 account_id; U8 collection; U8 field; U32 document_id]
  | FtsIndex h => U32 account_id :: hash_parts h ++ [U8 collection; U32 document_id]
  | Acl grant => [U32 grant; U32 account_id; U8 collection; U32 document_id]
  | FtsQueue q =>
      [U64 (fq_seq q); U32 account_id; U8 collection; U32 document_id; Raw (fq_hash q)]
  | Blob (BlobReserve h until) => [U32 account_id; Raw h; U64 until]
  | Blob (BlobCommit h) => [Raw h; U32 u32_max; U8 0; U32 u32_max]
  | Blob (BlobLink h) => [Raw h; U32 account_id; U8 collection; U32 document_id]
  | Blob (BlobLinkId h id) =>
      [Raw h; U32 (wrap 32 (Z.shiftr id 32)); U8 u8_max; U32 (wrap 32 id)]
  | Config key | Lookup (LookupKey key) | Lookup (LookupCounter key) => [Raw key]
  | Directory (NameToId name) => [U8 0; Raw name]
  | Directory (EmailToId email) => [U8 1; Raw email]
  | Directory (Principal uid) => [U8 2; Leb (rid uid)]
  | Directory (UsedQuota uid) => [U8 4; Leb uid]
  | Directory (MemberOf p m) => [U8 5; U32 (rid p); U32 (rid m)]
  | Directory (Members p m) => [U8 6; U32 (rid p); U32 (rid m)]
  | Queue (QMessage id) => [U64 id]
  | Queue (QMessageEvent e) => [U64 (qe_due e); U64 (qe_queue_id e)]
  | Queue (DmarcReportHeader e) => U8 0 :: report_parts e ++ [U8 0]
  | Queue (TlsReportHeader e) => U8 0 :: report_parts e ++ [U8 1]
  | Queue (DmarcReportEvent e) => U8 1 :: report_parts e
  | Queue (TlsReportEvent e) => U8 2 :: report_parts e
  | Queue (QuotaCount key) => [U8 0; Raw key]
  | Queue (QuotaSize key) => [U8 1; Raw key]
  | Report (ReportTls id expires) => [U8 0; U64 expires; U64 id]
  | Report (ReportDmarc id expires) => [U8 1; U64 expires; U64 id]
  | Report (ReportArf id expires) => [U8 2; U64 expires; U64 id]
  | Telemetry (Span id) => [U64 id]
  | Telemetry (TelemetryIndex id value) => [Raw value; U64 id]
  | Telemetry (Metric ts m n) => [U64 ts; Leb m; Leb n]
  | Any any => [Raw (any_key any)]
  end.

Definition value_serialize (class : ValueClass T) (account_id collection document_id flags : Z)
    : bytes :=
  ks_finalize
    (ks_chain (value_parts class account_id collection document_id)
       (ks_chain (subspace_prefix flags (value_subspace class collection)) key_serializer_new)).

Definition BM_MARKER : Z := shl 8 1 7.

Definition bitmap_parts (class : BitmapClass T) (account_id collection : Z) : list KeyPart :=
  match class with
  | DocumentIds => [U32 account_id; U8 collection]
  | Tag field (TagId id) => [U32 account_id; U8 collection; U8 field; Leb (rid id)]
  | Tag field (TagText text) =>
      [U32 account_id; U8 collection; U8 (field .| BM_MARKER); Raw text]
  | Text field token => U32 account_id :: hash_parts token ++ [U8 collection; U8 field]
  end.

Definition bitmap_serialize (class : BitmapClass T) (account_id collection document_id flags : Z)
    : bytes :=
  ks_finalize
    (ks_chain [U32 document_id]
       (ks_chain (bitmap_parts class account_id collection)
          (ks_chain (subspace_prefix flags (bitmap_subspace class)) key_serializer_new))).
End Serialize.

Record LogKey := {
  lk_account_id : Z;
  lk_collection : Z;
  lk_change_id : Z;
}.

Definition log_key_serialize (k : LogKey) (flags : Z) : bytes :=
  ks_finalize
    (ks_chain [U32 (lk_account_id k); U8 (lk_collection k); U64 (lk_change_id k)]
       (ks_chain (subspace_prefix flags SUBSPACE_LOGS) key_serializer_new)).

Record IndexKey := {
  ik_account_id : Z;
  ik_collection : Z;
  ik_document_id : Z;
  ik_field : Z;
  ik_key : bytes;
}.

Definition index_key_serialize (k : IndexKey) (flags : Z) : bytes :=
  ks_finalize
    (ks_chain [U32 (ik_account_id k); U8 (ik_collection k); U8 (ik_field k); Raw (ik_key k);
               U32 (ik_document_id k)]
       (ks_chain (subspace_prefix flags SUBSPACE_INDEXES) key_serializer_new)).

Record IndexKeyPrefix := {
  ip_account_id : Z;
  ip_collection : Z;
  ip_field : Z;
}.

Definition index_prefix_serialize (k : IndexKeyPrefix) (flags : Z) : bytes :=
  ks_finalize
    (ks_chain [U32 (ip_account_id k); U8 (ip_collection k); U8 (ip_field k)]
       (ks_chain (subspace_prefix flags SUBSPACE_INDEXES) key_serializer_new)).

Definition index_prefix_len : Z := U32_LEN + 2.

Record AnyKey := {
  ak_subspace : Z;
  ak_key : bytes;
}.

Definition any_key_serialize (k : AnyKey) (flags : Z) : bytes :=
  ks_finalize
    (ks_chain [Raw (ak_key k)]
       (ks_chain (subspace_prefix flags (ak_subspace k)) key_serializer_new)).

(** ** Reading keys *)

Inductive StoreError :=
| DataCorruption
| AssertValueFailed
| NoDocumentIds
| StoreFault.

(** [bytes.get(index..index + n)], then [from_be_bytes]; an index that is
    negative in the source's [usize] arithmetic is out of range. *)
Definition deserialize_be (n : nat) (l : bytes) (index : Z) : result StoreError Z :=
  if (0 <=? index) && (index + Z.of_nat n <=? Z.of_nat (length l)) then
    Ok (from_be (take n (drop (Z.to_nat index) l)))
  else Err DataCorruption.

Definition deserialize_be_u32 : bytes → Z → result StoreError Z := deserialize_be 4.
Definition deserialize_be_u64 : bytes → Z → result StoreError Z := deserialize_be 8.

(** [ReportEvent::deserialize]: the header key of a report without its subspace. *)
Definition report_event_deserialize (key : bytes) : result StoreError ReportEvent :=
  let len := Z.of_nat (length key) in
  due ← deserialize_be_u64 key 1;
  policy_hash ← deserialize_be_u64 key (len - (U64_LEN * 2 + 1));
  seq_id ← deserialize_be_u64 key (len - (U64_LEN + 1));
  domain ←
    (if U64_LEN + 1 <=? len - (U64_LEN * 2 + 1) then
       let l := take (Z.to_nat (len - (U64_LEN * 2 + 1) - (U64_LEN + 1)))
                  (drop (Z.to_nat (U64_LEN + 1)) key) in
       if from_utf8 l is Some _ then Ok l else Err DataCorruption
     else Err DataCorruption);
  Ok {| re_due := due; re_policy_hash := policy_hash; re_seq_id := seq_id; re_domain := domain |}.

(** ** The bytes of a chain *)

Definition part_bytes (p : KeyPart) : bytes := key_serialize p [].
Definition parts_bytes (l : list KeyPart) : bytes := l ≫= part_bytes.

Lemma ks_chain_bytes parts s : buf (ks_chain parts s) = buf s ++ parts_bytes parts.
Proof.
  unfold ks_chain. revert s. induction parts as [|p parts IH]; intros s; cbn [foldl].
  - by rewrite app_nil_r.
  - rewrite IH. unfold parts_bytes. cbn [mbind list_bind ks_write buf].
    unfold part_bytes, key_serialize. by rewrite app_assoc.
Qed.

Lemma parts_bytes_app l k : parts_bytes (l ++ k) = parts_bytes l ++ parts_bytes k.
Proof. unfold parts_bytes. by rewrite bind_app. Qed.

Lemma value_serialize_bytes `{ResolveId T} ids (class : ValueClass T) a c d flags :
  value_serialize ids class a c d flags
  = parts_bytes (subspace_prefix flags (value_subspace class c) ++ value_parts ids class a c d).
Proof.
  unfold value_serialize, ks_finalize. rewrite !ks_chain_bytes, parts_bytes_app. done.
Qed.

Lemma bitmap_serialize_bytes `{ResolveId T} ids (class : BitmapClass T) a c d flags :
  bitmap_serialize ids class a c d flags
  = parts_bytes (subspace_prefix flags (bitmap_subspace class) ++ bitmap_parts ids class a c
                 ++ [U32 d]).
Proof.
  unfold bitmap_serialize, ks_finalize. rewrite !ks_chain_bytes, !parts_bytes_app.
  by rewrite <- app_assoc.
Qed.

(** ** A decoder for keys

    No code reads every key back; the decoder below is the left inverse that
    shows that the key determines the record. *)

Definition KeyP (A : Type) : Type := bytes → option (A * bytes).
#[export] Instance keyp_ret : MRet KeyP := λ A a l, Some (a, l).
#[export] Instance keyp_bind : MBind KeyP := λ A B k m l,
  match m l with Some (a, l) => k a l | None => None end.

Definition get_bytes (n : nat) : KeyP bytes := λ l,
  if decide (n ≤ length l)%nat then Some (take n l, drop n l) else None.
Definition get_be (n : nat) : KeyP Z := l ← get_bytes n; mret (from_be l).
Definition get_u8 : KeyP Z := get_be 1.
Definition get_u32 : KeyP Z := get_be 4.
Definition get_u64 : KeyP Z := get_be 8.
Definition get_leb (L : Leb128_) : KeyP Z := λ l,
  match next_leb128 (L := L) l with (Some v, l) => Some (v, l) | (None, _) => None end.

(** All but the last [n] bytes. *)
Definition get_init (n : nat) : KeyP bytes := λ l, get_bytes (length l - n) l.
Definition get_rest : KeyP bytes := get_init 0.

(** [yields m l v]: [m] reads [v] from [l] and leaves what follows. *)
Definition yields {A} (m : KeyP A) (l : bytes) (v : A) (rest : bytes) : Prop :=
  m (l ++ rest) = Some (v, rest).

Lemma keyp_bind_yields {A B} (m : KeyP A) (k : A → KeyP B) l rest v :
  yields m l v rest → (m ≫= k) (l ++ rest) = k v rest.
Proof. unfold yields, mbind, keyp_bind. by intros ->. Qed.

Lemma get_bytes_yields l rest : yields (get_bytes (length l)) l l rest.
Proof.
  unfold yields, get_bytes. rewrite decide_True by (rewrite length_app; lia).
  by rewrite take_app_length, drop_app_length.
Qed.

Lemma get_be_yields n v rest : fits (8 * Z.of_nat n) v → yields (get_be n) (be_bytes n v) v rest.
Proof.
  intros Hv. unfold yields, get_be. rewrite <- (length_be_bytes n v) at 1.
  erewrite keyp_bind_yields by apply get_bytes_yields. unfold mret, keyp_ret.
  by rewrite from_be_bytes_id.
Qed.

Lemma be_bytes_1 v : fits 8 v → be_bytes 1 v = [v].
Proof. intros Hv. cbn [be_bytes]. rewrite Z.shiftr_0_r, wrap_id by done. done. Qed.

Lemma get_u8_yields v rest : fits 8 v → yields get_u8 [v] v rest.
Proof. intros Hv. rewrite <- (be_bytes_1 v Hv). by apply (get_be_yields 1). Qed.

Lemma get_leb_yields (L : Leb128_) {HL : LebLawful L} v rest :
  fits leb_width v → yields (get_leb L) (write_loop 10 v) v rest.
Proof.
  intros Hv. unfold yields, get_leb. by rewrite (next_leb128_write (L := L) v rest Hv).
Qed.

Lemma get_init_yields n l rest : length rest = n → yields (get_init n) l l rest.
Proof.
  intros <-. unfold yields, get_init. rewrite length_app, Nat.add_sub. apply get_bytes_yields.
Qed.

(** What a value key stands for: the class, tokens cut to the bytes that are
    stored, and the coordinates the class uses. *)
Definition Ident : Type := ValueClass Z * (Z * Z * Z).

Definition stored_token (h : BitmapHash) : BitmapHash :=
  {| bh_hash := take (Z.to_nat (Z.min (bh_len h) 8)) (bh_hash h); bh_len := bh_len h |}.

Definition value_ident (class : ValueClass Z) (a c d : Z) : Ident :=
  match class with
  | FtsIndex h => (FtsIndex (stored_token h), (a, c, d))
  | Property _ | Acl _ | FtsQueue _ | Blob (BlobLink _) => (class, (a, c, d))
  | Blob (BlobReserve _ _) => (class, (a, 0, 0))
  | _ => (class, (0, 0, 0))
  end.

(** The reader of a token's hash with [n] bytes behind it. *)
Definition get_token (n : nat) : KeyP BitmapHash := λ l,
  if decide (length l = 9 + n)%nat then
    (h ← get_bytes 8; len ← get_u8; mret {| bh_hash := h; bh_len := len |}) l
  else
    (h ← get_init n; mret {| bh_hash := h; bh_len := Z.of_nat (length h) |}) l.

Definition get_coords : KeyP (Z * Z * Z) :=
  a ← get_u32; c ← get_u8; d ← get_u32; mret (a, c, d).

Definition get_property : KeyP Ident :=
  a ← get_u32; c ← get_u8; f ← get_u8; d ← get_u32; mret (Property f, (a, c, d)).

Definition get_report (tail : nat) : KeyP ReportEvent :=
  due ← get_u64; domain ← get_init (16 + tail); policy ← get_u64; seq ← get_u64;
  mret {| re_due := due; re_policy_hash := policy; re_seq_id := seq; re_domain := domain |}.

Definition get_blob_link : KeyP Ident :=
  h ← get_bytes 32; a ← get_u32; c ← get_u8; d ← get_u32;
  mret (if c =? 255 then (Blob (BlobLinkId h (a * 2 ^ 32 + d)), (0, 0, 0))
        else if (a =? u32_max) && (c =? 0) && (d =? u32_max) then (Blob (BlobCommit h), (0, 0, 0))
        else (Blob (BlobLink h), (a, c, d))).

Definition get_directory : KeyP (DirectoryClass Z) :=
  t ← get_u8;
  if t =? 0 then n ← get_rest; mret (NameToId n)
  else if t =? 1 then n ← get_rest; mret (EmailToId n)
  else if t =? 2 then u ← get_leb leb_u32; mret (Principal u)
  else if t =? 5 then p ← get_u32; m ← get_u32; mret (MemberOf p m)
  else p ← get_u32; m ← get_u32; mret (Members p m).

Definition get_quota : KeyP Ident :=
  t ← get_u8;
  if t =? 4 then u ← get_leb leb_u32; mret (Directory (UsedQuota u), (0, 0, 0))
  else if t =? 0 then k ← get_rest; mret (Queue (QuotaCount k), (0, 0, 0))
  else k ← get_rest; mret (Queue (QuotaSize k), (0, 0, 0)).

Definition get_report_out : KeyP QueueClass :=
  t ← get_u8;
  if t =? 0 then
    e ← get_report 1; k ← get_u8;
    mret (if k =? 0 then DmarcReportHeader e else TlsReportHeader e)
  else e ← get_report 0; mret (if t =? 1 then DmarcReportEvent e else TlsReportEvent e).

Definition get_report_in : KeyP ReportClass :=
  t ← get_u8; expires ← get_u64; id ← get_u64;
  mret (if t =? 0 then ReportTls id expires
        else if t =? 1 then ReportDmarc id expires else ReportArf id expires).

Definition plain_ident (class : ValueClass Z) : Ident := (class, (0, 0, 0)).

Definition decode_value : KeyP Ident :=
  s ← get_u8;
  if s =? SUBSPACE_PROPERTY then get_property
  else if s =? SUBSPACE_COUNTER then λ l,
    if decide (length l = 10)%nat then get_property l
    else (k ← get_rest; mret (plain_ident (Lookup (LookupCounter k)))) l
  else if s =? SUBSPACE_ACL then
    g ← get_u32; x ← get_coords; mret (Acl g, x)
  else if s =? SUBSPACE_FTS_INDEX then
    a ← get_u32; h ← get_token 5; c ← get_u8; d ← get_u32; mret (FtsIndex h, (a, c, d))
  else if s =? SUBSPACE_FTS_QUEUE then
    seq ← get_u64; x ← get_coords; h ← get_rest;
    mret (FtsQueue {| fq_seq := seq; fq_hash := h |}, x)
  else if s =? SUBSPACE_BLOB_RESERVE then
    a ← get_u32; h ← get_bytes 32; u ← get_u64; mret (Blob (BlobReserve h u), (a, 0, 0))
  else if s =? SUBSPACE_BLOB_LINK then get_blob_link
  else if s =? SUBSPACE_SETTINGS then k ← get_rest; mret (plain_ident (Config k))
  else if s =? SUBSPACE_LOOKUP_VALUE then
    k ← get_rest; mret (plain_ident (Lookup (LookupKey k)))
  else if s =? SUBSPACE_DIRECTORY then x ← get_directory; mret (plain_ident (Directory x))
  else if s =? SUBSPACE_QUOTA then get_quota
  else if s =? SUBSPACE_QUEUE_MESSAGE then i ← get_u64; mret (plain_ident (Queue (QMessage i)))
  else if s =? SUBSPACE_QUEUE_EVENT then
    due ← get_u64; i ← get_u64;
    mret (plain_ident (Queue (QMessageEvent {| qe_due := due; qe_queue_id := i |})))
  else if s =? SUBSPACE_REPORT_OUT then x ← get_report_out; mret (plain_ident (Queue x))
  else if s =? SUBSPACE_REPORT_IN then x ← get_report_in; mret (plain_ident (Report x))
  else if s =? SUBSPACE_TELEMETRY_SPAN then i ← get_u64; mret (plain_ident (Telemetry (Span i)))
  else if s =? SUBSPACE_TELEMETRY_INDEX then
    v ← get_init 8; i ← get_u64; mret (plain_ident (Telemetry (TelemetryIndex i v)))
  else
    t ← get_u64; m ← get_leb leb_u64; n ← get_leb leb_u64;
    mret (plain_ident (Telemetry (Metric t m n))).

(** The sizes of the parts, and the few values the encoding reserves: a blob
    link never has the marker collection 255, nor the coordinates of the commit
    record; the 10-byte keys of the counter subspace are those of the message
    counters ([Property 84] of collection 1). *)
Definition report_ok (e : ReportEvent) : Prop :=
  fits 64 (re_due e) ∧ fits 64 (re_policy_hash e) ∧ fits 64 (re_seq_id e).

Definition token_ok (h : BitmapHash) : Prop := length (bh_hash h) = 8%nat ∧ is_byte (bh_len h).

Definition class_wf (class : ValueClass Z) (a c d : Z) : Prop :=
  match class with
  | Property f => is_byte f
  | Acl g => fits 32 g
  | FtsIndex h => token_ok h
  | FtsQueue q => fits 64 (fq_seq q)
  | Blob (BlobReserve h u) => length h = 32%nat ∧ fits 64 u
  | Blob (BlobCommit h) => length h = 32%nat
  | Blob (BlobLink h) =>
      length h = 32%nat ∧ c ≠ 255 ∧ ¬ (a = u32_max ∧ c = 0 ∧ d = u32_max)
  | Blob (BlobLinkId h i) => length h = 32%nat ∧ fits 64 i
  | Lookup (LookupCounter k) => length k ≠ 10%nat
  | Lookup (LookupKey _) | Config _ => True
  | Directory (Principal u) | Directory (UsedQuota u) => fits 32 u
  | Directory (MemberOf p m) | Directory (Members p m) => fits 32 p ∧ fits 32 m
  | Directory _ => True
  | Queue (QMessage i) => fits 64 i
  | Queue (QMessageEvent e) => fits 64 (qe_due e) ∧ fits 64 (qe_queue_id e)
  | Queue (QuotaCount _) | Queue (QuotaSize _) => True
  | Queue (DmarcReportHeader e) | Queue (DmarcReportEvent e)
  | Queue (TlsReportHeader e) | Queue (TlsReportEvent e) => report_ok e
  | Report (ReportTls i e) | Report (ReportDmarc i e) | Report (ReportArf i e) =>
      fits 64 i ∧ fits 64 e
  | Telemetry (Span i) => fits 64 i
  | Telemetry (TelemetryIndex i _) => fits 64 i
  | Telemetry (Metric t m n) => fits 64 t ∧ fits 64 m ∧ fits 64 n
  | Any _ => False
  end.

Definition value_wf (class : ValueClass Z) (a c d : Z) : Prop :=
  fits 32 a ∧ is_byte c ∧ fits 32 d ∧ class_wf class a c d.

(** Reads the next part of a key in a decoder. *)
Lemma get_u8_step {A} (k : Z → KeyP A) v rest : fits 8 v → (get_u8 ≫= k) (v :: rest) = k v rest.
Proof. intros Hv. apply (keyp_bind_yields get_u8 k [v]), get_u8_yields, Hv. Qed.
Lemma get_u32_step {A} (k : Z → KeyP A) v rest :
  fits 32 v → (get_u32 ≫= k) (be_bytes 4 v ++ rest) = k v rest.
Proof. intros Hv. apply keyp_bind_yields, (get_be_yields 4), Hv. Qed.
Lemma get_u64_step {A} (k : Z → KeyP A) v rest :
  fits 64 v → (get_u64 ≫= k) (be_bytes 8 v ++ rest) = k v rest.
Proof. intros Hv. apply keyp_bind_yields, (get_be_yields 8), Hv. Qed.
Lemma get_bytes_step {A} n (k : bytes → KeyP A) l rest :
  length l = n → (get_bytes n ≫= k) (l ++ rest) = k l rest.
Proof. intros <-. apply keyp_bind_yields, get_bytes_yields. Qed.
Lemma get_init_step {A} n (k : bytes → KeyP A) l rest :
  length rest = n → (get_init n ≫= k) (l ++ rest) = k l rest.
Proof. intros Hl. by apply keyp_bind_yields, get_init_yields. Qed.
Lemma get_rest_step {A} (k : bytes → KeyP A) l : (get_rest ≫= k) (l ++ []) = k l [].
Proof. by apply keyp_bind_yields, get_init_yields. Qed.
Lemma get_leb_step {A} (L : Leb128_) {HL : LebLawful L} (k : Z → KeyP A) v rest :
  fits leb_width v → (get_leb L ≫= k) (write_loop 10 v ++ rest) = k v rest.
Proof. intros Hv. by apply keyp_bind_yields, get_leb_yields. Qed.

Lemma keyp_bind_some {A B} (m : KeyP A) (k : A → KeyP B) l v r :
  m l = Some (v, r) → (m ≫= k) l = k v r.
Proof. unfold mbind, keyp_bind. by intros ->. Qed.

(** Runs a decoder over the parts of a key. *)
Ltac key_bytes := unfold parts_bytes; cbn [mbind list_bind part_bytes key_serialize app].
Ltac key_steps :=
  repeat first
    [rewrite get_u8_step by (done || concrete)|rewrite get_u32_step by (done || concrete)
    |rewrite get_u64_step by done|rewrite get_leb_step by done
    |rewrite get_rest_step|rewrite get_bytes_step by done
    |rewrite get_init_step by (rewrite ?length_app, ?length_be_bytes; done)
    |progress (simpl (_ =? _); cbv iota beta)].

Lemma get_property_key f a c d :
  is_byte f → fits 32 a → is_byte c → fits 32 d →
  get_property (parts_bytes [U32 a; U8 c; U8 f; U32 d]) = Some ((Property f, (a, c, d)), []).
Proof. intros. key_bytes. unfold get_property. by key_steps. Qed.

Lemma get_token_key {A} n (k : BitmapHash → KeyP A) h rest :
  token_ok h → length rest = n →
  (get_token n ≫= k) (parts_bytes (hash_parts h) ++ rest) = k (stored_token h) rest.
Proof.
  intros [Hh Hl] <-. unfold hash_parts, stored_token. unfold fits in Hl.
  destruct (Z.leb_spec 8 (bh_len h)).
  - rewrite Z.min_r, take_ge by lia. key_bytes. rewrite <- app_assoc. cbn [app].
    apply keyp_bind_some. unfold get_token.
    rewrite decide_True by (rewrite length_app; simpl; lia). by key_steps.
  - rewrite Z.min_l by lia. key_bytes. rewrite app_nil_r.
    apply keyp_bind_some. unfold get_token.
    assert (length (take (Z.to_nat (bh_len h)) (bh_hash h)) = Z.to_nat (bh_len h)) as Hlen
      by (rewrite length_take; lia).
    rewrite decide_False by (rewrite length_app, Hlen; lia).
    rewrite get_init_step by done. unfold mret, keyp_ret. by rewrite Hlen, Z2Nat.id by lia.
Qed.

Lemma get_report_key {A} tail (k : ReportEvent → KeyP A) e rest :
  report_ok e → length rest = tail →
  (get_report tail ≫= k) (parts_bytes (report_parts e) ++ rest) = k e rest.
Proof.
  intros (Hd & Hp & Hs) <-. unfold report_parts. key_bytes. rewrite <- !app_assoc.
  apply keyp_bind_some. unfold get_report. rewrite get_u64_step by done.
  rewrite get_init_step by (rewrite !length_app, !length_be_bytes; simpl; lia).
  key_steps. by destruct e.
Qed.

Lemma link_id_split i : fits 64 i → wrap 32 (Z.shiftr i 32) * 2 ^ 32 + wrap 32 i = i.
Proof.
  unfold fits, wrap. intros Hi. rewrite Z.shiftr_div_pow2 by lia.
  rewrite (Z.mod_small (i / 2 ^ 32)) by (split; [apply Z.div_pos; lia|];
    apply Z.div_lt_upper_bound; lia).
  pose proof (Z.div_mod i (2 ^ 32) ltac:(lia)). lia.
Qed.

Lemma get_coords_step {A} (k : Z * Z * Z → KeyP A) a c d rest :
  fits 32 a → is_byte c → fits 32 d →
  (get_coords ≫= k) (be_bytes 4 a ++ c :: be_bytes 4 d ++ rest) = k (a, c, d) rest.
Proof. intros. apply keyp_bind_some. unfold get_coords. by key_steps. Qed.

(** The decoder on each group of classes. *)
Section Groups.
Context (a c d : Z) (Ha : fits 32 a) (Hc : is_byte c) (Hd : fits 32 d).

Lemma get_blob_link_key op :
  class_wf (Blob op) a c d → value_subspace (T := Z) (Blob op) c = SUBSPACE_BLOB_LINK →
  get_blob_link (parts_bytes (value_parts None (Blob op : ValueClass Z) a c d))
  = Some (value_ident (Blob op) a c d, []).
Proof using Ha Hc Hd.
  destruct op as [h u|h|h|h i]; intros Hw Hs; [done|..]; unfold get_blob_link;
    cbn [class_wf value_parts value_ident] in *; key_bytes.
  - by key_steps.
  - destruct Hw as (Hl & Hm & Hcm). key_steps.
    rewrite (proj2 (Z.eqb_neq c 255)) by done.
    replace ((a =? u32_max) && (c =? 0) && (d =? u32_max)) with false; [done|].
    symmetry. apply not_true_iff_false. rewrite !andb_true_iff, !Z.eqb_eq. tauto.
  - destruct Hw as [Hl Hi]. rewrite get_bytes_step by done.
    rewrite get_u32_step by (by apply wrap_fits). rewrite get_u8_step by concrete.
    rewrite get_u32_step by (by apply wrap_fits). rewrite Z.eqb_refl.
    by rewrite link_id_split.
Qed.

Lemma get_directory_key x :
  class_wf (Directory x) a c d → value_subspace (T := Z) (Directory x) c = SUBSPACE_DIRECTORY →
  get_directory (parts_bytes (value_parts None (Directory x : ValueClass Z) a c d)) = Some (x, []).
Proof using.
  destruct x as [n|n|p m|p m|u|u]; intros Hw Hs; unfold get_directory;
    cbn [class_wf value_parts] in *; key_bytes; try destruct Hw; try done; by key_steps.
Qed.

Lemma get_quota_key class :
  class_wf class a c d → value_subspace (T := Z) class c = SUBSPACE_QUOTA →
  get_quota (parts_bytes (value_parts None class a c d)) = Some (value_ident class a c d, []).
Proof using.
  destruct class as [f| |[]| | |[]|[]| |[]| |[]|]; intros Hw Hs; try discriminate Hs;
    unfold get_quota; cbn [class_wf value_parts] in *; key_bytes; try done; try by key_steps.
  simpl in Hs. by destruct (_ && _).
Qed.

Lemma get_report_out_key q :
  class_wf (Queue q) a c d → value_subspace (T := Z) (Queue q) c = SUBSPACE_REPORT_OUT →
  get_report_out (parts_bytes (value_parts None (Queue q : ValueClass Z) a c d)) = Some (q, []).
Proof using.
  destruct q as [i|e|e|e|e|e|k|k]; intros Hw Hs; try discriminate Hs; unfold get_report_out;
    cbn [class_wf value_parts] in *; change (parts_bytes (U8 ?s :: ?l)) with (s :: parts_bytes l);
    rewrite get_u8_step by concrete; simpl (_ =? _); cbv iota.
  1, 3: rewrite parts_bytes_app, get_report_key by done; key_bytes; by key_steps.
  all: rewrite <- (app_nil_r (parts_bytes _)), get_report_key by done; done.
Qed.

Lemma get_report_in_key r :
  class_wf (Report r) a c d →
  get_report_in (parts_bytes (value_parts None (Report r : ValueClass Z) a c d)) = Some (r, []).
Proof using.
  destruct r as [i e|i e|i e]; intros [Hi He]; unfold get_report_in; cbn [value_parts];
    key_bytes; by key_steps.
Qed.

(** Every well-formed key is read back as what it stands for. *)
Lemma decode_value_parts class :
  class_wf class a c d →
  decode_value (parts_bytes (U8 (value_subspace class c) :: value_parts None class a c d))
  = Some (value_ident class a c d, []).
Proof using Ha Hc Hd.
  intros Hw. unfold decode_value. change (parts_bytes (U8 ?s :: ?l)) with (s :: parts_bytes l).
  rewrite get_u8_step.
  2: { destruct class as [f| |[]| | |[]|[]| |[]| |[]|]; try concrete; simpl; [|done].
       destruct (_ && _); concrete. }
  destruct class as [f|g|[k|k]|h|q|x|op|k|q|r|[i|t m n|i v]|x]; cbn [value_subspace].
  - destruct (_ && _); [|by apply get_property_key]. simpl (_ =? _). cbv iota.
    cbn [value_parts]. rewrite decide_True; [by apply get_property_key|].
    key_bytes. rewrite length_app, length_be_bytes. cbn [length]. by rewrite length_app, length_be_bytes.
  - simpl (_ =? _); cbv iota. cbn [value_parts]. key_bytes. key_steps. by rewrite get_coords_step.
  - simpl (_ =? _); cbv iota. cbn [value_parts]. key_bytes. by key_steps.
  - simpl (_ =? _); cbv iota. cbn [value_parts class_wf] in *. key_bytes.
    rewrite decide_False by (by rewrite app_nil_r). by key_steps.
  - simpl (_ =? _); cbv iota. cbn [value_parts class_wf] in *.
    change (parts_bytes (U32 ?s :: ?l)) with (be_bytes 4 s ++ parts_bytes l).
    rewrite get_u32_step, parts_bytes_app, get_token_key by done. key_bytes. by key_steps.
  - simpl (_ =? _); cbv iota. cbn [value_parts class_wf] in *. key_bytes. key_steps.
    rewrite get_coords_step by done. key_steps. by destruct q.
  - destruct x; simpl (_ =? _); cbv iota; try (erewrite keyp_bind_some; [done|];
      by apply get_directory_key). by apply get_quota_key.
  - destruct op; simpl (_ =? _); cbv iota; try by apply get_blob_link_key.
    cbn [value_parts class_wf] in *. destruct Hw. key_bytes. by key_steps.
  - simpl (_ =? _); cbv iota. cbn [value_parts class_wf] in *. key_bytes. by key_steps.
  - destruct q; simpl (_ =? _); cbv iota; try (erewrite keyp_bind_some; [done|];
      by apply get_report_out_key); try by apply get_quota_key.
    + cbn [value_parts class_wf] in *. key_bytes. by key_steps.
    + cbn [value_parts class_wf] in *. destruct Hw. key_bytes. key_steps. by destruct event.
  - simpl (_ =? _); cbv iota. erewrite keyp_bind_some; [done|]. by apply get_report_in_key.
  - simpl (_ =? _); cbv iota. cbn [value_parts class_wf] in *. key_bytes. by key_steps.
  - simpl (_ =? _); cbv iota. cbn [value_parts class_wf] in *. destruct Hw as (?&?&?).
    key_bytes. by key_steps.
  - simpl (_ =? _); cbv iota. cbn [value_parts class_wf] in *. key_bytes. by key_steps.
  - done.
Qed.
End Groups.

(** *** Bitmap keys *)

Definition BitmapIdent : Type := BitmapClass Z * (Z * Z * Z).

Definition bitmap_ident (class : BitmapClass Z) (a c d : Z) : BitmapIdent :=
  match class with
  | Text f h => (Text f (stored_token h), (a, c, d))
  | _ => (class, (a, c, d))
  end.

(** The high bit of a tag's field marks a text tag. *)
Definition bitmap_wf (class : BitmapClass Z) : Prop :=
  match class with
  | DocumentIds => True
  | Tag f (TagId i) => 0 ≤ f < 128 ∧ fits 32 i
  | Tag f (TagText _) => 0 ≤ f < 128
  | Text f h => is_byte f ∧ token_ok h
  end.

Definition decode_bitmap : KeyP BitmapIdent :=
  s ← get_u8; a ← get_u32;
  if s =? SUBSPACE_BITMAP_ID then c ← get_u8; d ← get_u32; mret (DocumentIds, (a, c, d))
  else if s =? SUBSPACE_BITMAP_TAG then
    c ← get_u8; f ← get_u8;
    if f <? 128 then i ← get_leb leb_u32; d ← get_u32; mret (Tag f (TagId i), (a, c, d))
    else t ← get_init 4; d ← get_u32; mret (Tag (f - 128) (TagText t), (a, c, d))
  else
    h ← get_token 6; c ← get_u8; f ← get_u8; d ← get_u32; mret (Text f h, (a, c, d)).

Lemma marked_field f : 0 ≤ f < 128 → (f .| BM_MARKER) = f + 128.
Proof.
  intros Hf. apply (byte_cases (λ f, f < 128 → (f .| BM_MARKER) = f + 128));
    [by vm_compute|unfold fits; lia|lia].
Qed.

Lemma decode_bitmap_parts class a c d :
  fits 32 a → is_byte c → fits 32 d → bitmap_wf class →
  decode_bitmap (parts_bytes (U8 (bitmap_subspace class) :: bitmap_parts None class a c ++ [U32 d]))
  = Some (bitmap_ident class a c d, []).
Proof.
  intros Ha Hc Hd Hw. unfold decode_bitmap.
  change (parts_bytes (U8 ?s :: ?l)) with (s :: parts_bytes l).
  rewrite get_u8_step by (by destruct class).
  destruct class as [|f [i|t]|f h]; cbn [bitmap_wf bitmap_subspace bitmap_parts bitmap_ident app] in *.
  - key_bytes. by key_steps.
  - destruct Hw as [Hf Hi]. key_bytes. key_steps.
    rewrite get_u8_step by (unfold fits; lia). rewrite (proj2 (Z.ltb_lt f 128)) by lia.
    by key_steps.
  - key_bytes. key_steps. rewrite marked_field by done.
    rewrite get_u8_step by (unfold fits; lia). rewrite (proj2 (Z.ltb_ge (f + 128) 128)) by lia.
    key_steps. by replace (f + 128 - 128) with f by lia.
  - destruct Hw as [Hf Hh].
    change (parts_bytes (U32 ?s :: ?l)) with (be_bytes 4 s ++ parts_bytes l).
    rewrite get_u32_step by done. simpl (_ =? _). cbv iota.
    rewrite <- app_assoc. cbn [app]. rewrite parts_bytes_app, get_token_key by done.
    key_bytes. by key_steps.
Qed.

(** *** Order of log keys *)

Definition compare_then (c d : comparison) : comparison := match c with Eq => d | c => c end.

Definition log_key_compare (k1 k2 : LogKey) : comparison :=
  compare_then (lk_account_id k1 ?= lk_account_id k2)
    (compare_then (lk_collection k1 ?= lk_collection k2) (lk_change_id k1 ?= lk_change_id k2)).

Definition log_key_ok (k : LogKey) : Prop :=
  fits 32 (lk_account_id k) ∧ is_byte (lk_collection k) ∧ fits 64 (lk_change_id k).

Lemma log_key_bytes k flags :
  log_key_serialize k flags
  = parts_bytes (subspace_prefix flags SUBSPACE_LOGS) ++
    be_bytes 4 (lk_account_id k) ++ [lk_collection k] ++ be_bytes 8 (lk_change_id k).
Proof.
  unfold log_key_serialize, ks_finalize. rewrite !ks_chain_bytes. cbn [buf key_serializer_new app].
  done.
Qed.

Lemma log_key_compare_bytes k1 k2 :
  log_key_ok k1 → log_key_ok k2 →
  bytes_compare (log_key_serialize k1 0) (log_key_serialize k2 0) = log_key_compare k1 k2.
Proof.
  intros (Ha1 & Hc1 & Hi1) (Ha2 & Hc2 & Hi2). rewrite !log_key_bytes. cbn [parts_bytes].
  rewrite !app_nil_l.
  rewrite bytes_compare_app by (by rewrite !length_be_bytes). rewrite be_bytes_compare by done.
  unfold log_key_compare, compare_then. destruct (lk_account_id k1 ?= lk_account_id k2); [|done..].
  cbn [app bytes_compare]. rewrite be_bytes_compare by done. by destruct (_ ?= _).
Qed.

(** ** Properties *)



(**  The same for bitmaps: a key determines the bitmap class, the account,
    the collection and the document. *)
Theorem bitmap_key_injective (k1 k2 : BitmapClass Z) (a1 c1 d1 a2 c2 d2 : Z)
    (Ha1 : fits 32 a1) (Hc1 : is_byte c1) (Hd1 : fits 32 d1) (H1 : bitmap_wf k1)
    (Ha2 : fits 32 a2) (Hc2 : is_byte c2) (Hd2 : fits 32 d2) (H2 : bitmap_wf k2)
    (Heq : bitmap_serialize None k1 a1 c1 d1 WITH_SUBSPACE
           = bitmap_serialize None k2 a2 c2 d2 WITH_SUBSPACE) :
  bitmap_ident k1 a1 c1 d1 = bitmap_ident k2 a2 c2 d2.
Proof.
  rewrite !bitmap_serialize_bytes in Heq.
  pose proof (decode_bitmap_parts _ _ _ _ Ha1 Hc1 Hd1 H1) as Hx1.
  pose proof (decode_bitmap_parts _ _ _ _ Ha2 Hc2 Hd2 H2) as Hx2.
  change (subspace_prefix WITH_SUBSPACE ?s ++ ?l) with (U8 s :: l) in Heq.
  rewrite Heq, Hx2 in Hx1. by simplify_eq.
Qed.

Lemma bitmap_key_injective_witness :
  bitmap_ident (Tag 5 (TagId 300)) 3 1 7 = bitmap_ident (Tag 5 (TagId 300)) 3 1 7.
Proof.
  apply (bitmap_key_injective (Tag 5 (TagId 300)) (Tag 5 (TagId 300)) 3 1 7 3 1 7);
    try concrete; try (split; concrete); reflexivity.
Defined.

(**  Log keys sort by account, then collection, then change id, so a range
    scan of the store visits the changes of a collection in their order. *)
Theorem log_key_order (k1 k2 : LogKey) (H1 : log_key_ok k1) (H2 : log_key_ok k2) :
  bytes_compare (log_key_serialize k1 0) (log_key_serialize k2 0) = log_key_compare k1 k2.
Proof. by apply log_key_compare_bytes. Qed.

Lemma log_key_order_witness :
  bytes_compare (log_key_serialize (Build_LogKey 1 2 255) 0) (log_key_serialize (Build_LogKey 1 2 256) 0)
  = Lt.
Proof.
  apply (log_key_order (Build_LogKey 1 2 255) (Build_LogKey 1 2 256)); (repeat split; concrete).
Defined.

(** *** Report headers *)

Lemma deserialize_be_at n pre v rest index :
  index = Z.of_nat (length pre) → fits (8 * Z.of_nat n) v →
  deserialize_be n (pre ++ be_bytes n v ++ rest) index = Ok v.
Proof.
  intros -> Hv. unfold deserialize_be. rewrite !length_app, length_be_bytes.
  rewrite (proj2 (Z.leb_le 0 _)), (proj2 (Z.leb_le (_ + _) _)) by lia. cbn [andb].
  rewrite Nat2Z.id, drop_app_length, take_app_length' by (by rewrite length_be_bytes).
  by rewrite from_be_bytes_id.
Qed.

(**  The key under which a report header is queued is read back as the
    event it was made of, for DMARC and TLS reports. *)
Theorem report_header_roundtrip (e : ReportEvent) (a c d : Z) (tls : bool)
    (He : report_ok e) (Hdom : from_utf8 (re_domain e) ≠ None) :
  report_event_deserialize
    (value_serialize None
       (Queue (if tls then TlsReportHeader e else DmarcReportHeader e) : ValueClass Z) a c d 0) = Ok e.
Proof.
  destruct He as (Hd & Hp & Hs). set (k := if tls then 1 else 0).
  assert (value_serialize None
    (Queue (if tls then TlsReportHeader e else DmarcReportHeader e) : ValueClass Z) a c d 0
    = [0] ++ be_bytes 8 (re_due e) ++ re_domain e ++ be_bytes 8 (re_policy_hash e)
      ++ be_bytes 8 (re_seq_id e) ++ [k]) as ->.
  { rewrite value_serialize_bytes. cbn [subspace_prefix app]. subst k.
    destruct tls; cbn [value_parts report_parts]; key_bytes; by rewrite ?app_nil_r. }
  unfold report_event_deserialize, deserialize_be_u64, U64_LEN.
  set (key := [0] ++ _).
  assert (length key = (length (re_domain e) + 26)%nat) as Hlen
    by (subst key; rewrite !length_app, !length_be_bytes; simpl; lia).
  assert (deserialize_be 8 key 1 = Ok (re_due e)) as -> by (by apply deserialize_be_at).
  assert (deserialize_be 8 key (Z.of_nat (length key) - (8 * 2 + 1)) = Ok (re_policy_hash e)) as ->.
  { subst key. rewrite !(app_assoc [0]), !(app_assoc (_ ++ be_bytes 8 (re_due e))).
    apply deserialize_be_at; [|done]. rewrite !length_app, !length_be_bytes. simpl. lia. }
  assert (deserialize_be 8 key (Z.of_nat (length key) - (8 + 1)) = Ok (re_seq_id e)) as ->.
  { subst key. rewrite !(app_assoc [0]), !(app_assoc (_ ++ be_bytes 8 (re_due e))),
      !(app_assoc (_ ++ re_domain e)).
    apply deserialize_be_at; [|done]. rewrite !length_app, !length_be_bytes. simpl. lia. }
  cbn [mbind result_bind]. rewrite (proj2 (Z.leb_le _ _)) by lia.
  replace (take _ _) with (re_domain e).
  { destruct (from_utf8 (re_domain e)); [by destruct e|done]. }
  subst key. rewrite (app_assoc [0]), drop_app_length' by (by rewrite length_app, length_be_bytes).
  rewrite take_app_length'; [done|]. rewrite !length_app, !length_be_bytes. simpl length. lia.
Qed.

Lemma report_header_roundtrip_witness :
  report_event_deserialize
    (value_serialize None
       (Queue (DmarcReportHeader (Build_ReportEvent 1700000000 7 9 (str "example.org")))
        : ValueClass Z) 0 0 0 0)
  = Ok (Build_ReportEvent 1700000000 7 9 (str "example.org")).
Proof.
  apply (report_header_roundtrip (Build_ReportEvent 1700000000 7 9 (str "example.org")) 0 0 0 false);
    [repeat split; concrete|by vm_compute].
Defined.
