(* ===== verification/Maps.v ===== *)
(** * Small collections of crates/utils/src/map

    [VecMap] ([vec_map.rs]), a map kept as a vector of pairs in insertion order,
    and [Bitmap] ([bitmap.rs]), a set of small integers kept in a [u64].  A
    [&mut V] the code hands out is the update its caller applies. *)

From S2P Require Import Prelude.

Open Scope word_scope.

Module VecMap.
Section VecMap.
Context {K V : Type} `{EqDecision K}.

Definition VecMap : Type := list (K * V).
Implicit Types m : VecMap.

Definition new : VecMap := [].

(** [self.inner.iter().position(|kv| kv.key == key)] *)
Fixpoint position (key : K) m : option nat :=
  match m with
  | [] => None
  | (k, _) :: m => if decide (k = key) then Some O else S <$> position key m
  end.

(** The first entry of the key, updated. *)
Fixpoint update_first (key : K) (f : V → V) m : VecMap :=
  match m with
  | [] => []
  | (k, v) :: m => if decide (k = key) then (k, f v) :: m else (k, v) :: update_first key f m
  end.

Fixpoint get (key : K) m : option V :=
  match m with
  | [] => None
  | (k, v) :: m => if decide (k = key) then Some v else get key m
  end.

Definition contains_key (key : K) m : bool := existsb (λ kv, bool_decide (kv.1 = key)) m.

Definition append (key : K) (value : V) m : VecMap := m ++ [(key, value)].

Definition set (key : K) (value : V) m : bool * VecMap :=
  match get key m with
  | Some _ => (false, update_first key (λ _, value) m)
  | None => (true, append key value m)
  end.

(** [get_mut(key)] and a write through the reference. *)
Definition get_mut (key : K) (f : V → V) m : VecMap := update_first key f m.

(** [Vec::insert] panics behind the end. *)
Definition insert (idx : nat) (key : K) (value : V) m : option VecMap :=
  if decide (idx ≤ length m)%nat then Some (take idx m ++ (key, value) :: drop idx m) else None.

Definition remove (key : K) m : option V * VecMap :=
  match position key m with
  | Some pos => (snd <$> m !! pos, delete pos m)
  | None => (None, m)
  end.

Definition remove_entry (key : K) m : option (K * V) * VecMap :=
  match position key m with
  | Some pos => (m !! pos, delete pos m)
  | None => (None, m)
  end.

Definition remove_all (key : K) m : VecMap := filter (λ kv, kv.1 ≠ key) m.

Definition iter_by_key (key : K) m : list V := snd <$> filter (λ kv, kv.1 = key) m.
Definition keys m : list K := fst <$> m.
Definition values m : list V := snd <$> m.

(** [get_mut_or_insert_with(key, fnc)] and a write through the reference. *)
Definition get_mut_or_insert_with (key : K) (fnc : V) (f : V → V) m : VecMap :=
  match position key m with
  | Some _ => update_first key f m
  | None => m ++ [(key, f fnc)]
  end.

Definition get_mut_or_insert (dflt : V) (key : K) (f : V → V) m : VecMap :=
  get_mut_or_insert_with key dflt f m.

Definition from_iter (l : list (K * V)) : VecMap := foldl (λ m kv, append kv.1 kv.2 m) new l.
End VecMap.
Arguments VecMap : clear implicits.
End VecMap.

(** ** Bitmap *)

Module Bitmap.
(** [T::into::<u64>()] is the item itself; [max()] is a parameter. *)
Record Bitmap := { bitmap : Z }.

Definition leading_zeros (n : Z) : Z := if n =? 0 then 64 else 63 - Z.log2 n.

(** [1 << item]: a release build masks the amount. *)
Definition bit (item : Z) : Z := shl 64 1 (item .& 63).

Definition default : Bitmap := {| bitmap := 0 |}.
Definition all (max : Z) : Bitmap := {| bitmap := Z.shiftr u64_max ((64 - max) .& 63) |}.
Definition union (b items : Bitmap) : Bitmap := {| bitmap := (bitmap b .| bitmap items) |}.
Definition intersection (b items : Bitmap) : Bitmap := {| bitmap := (bitmap b .& bitmap items) |}.
Definition insert (b : Bitmap) (item : Z) : Bitmap := {| bitmap := (bitmap b .| bit item) |}.
Definition remove (b : Bitmap) (item : Z) : Bitmap := {| bitmap := (bitmap b .^ bit item) |}.
Definition contains (b : Bitmap) (item : Z) : bool := negb ((bitmap b .& bit item) =? 0).
Definition contains_any (b : Bitmap) (items : list Z) : bool := existsb (contains b) items.
Definition is_empty (b : Bitmap) : bool := bitmap b =? 0.
Definition clear (b : Bitmap) : Bitmap * Bitmap := ({| bitmap := bitmap b |}, default).

(** [pop] and [Iterator::next] *)
Definition pop (b : Bitmap) : option Z * Bitmap :=
  if bitmap b =? 0 then (None, b)
  else
    let item := 63 - leading_zeros (bitmap b) in
    (Some item, {| bitmap := (bitmap b .^ bit item) |}).

(** [From<Vec<T>>]: invalid items are skipped. *)
Definition from_vec (is_valid : Z → bool) (l : list Z) : Bitmap :=
  foldl (λ b item, if is_valid item then insert b item else b) default l.

(** [From<Bitmap<T>> for Vec<T>]; a set of 64 items is empty after 64 rounds. *)
Fixpoint drain (fuel : nat) (b : Bitmap) : list Z :=
  match fuel with
  | O => []
  | S fuel => match pop b with (Some i, b) => i :: drain fuel b | (None, _) => [] end
  end.
Definition into_vec (b : Bitmap) : list Z := drain 64 b.
End Bitmap.

(** ** Lemmas on VecMap *)

Section VecMapFacts.
Context {K V : Type} `{EqDecision K}.
Implicit Types m : VecMap.VecMap K V.

Lemma vm_position_get key m :
  match VecMap.position key m with
  | Some i => ∃ v, m !! i = Some (key, v) ∧ VecMap.get key m = Some v
  | None => VecMap.get key m = None
  end.
Proof.
  induction m as [|[k v] m IH]; simpl; [done|]. destruct (decide (k = key)) as [->|]; [by eexists|].
  by destruct (VecMap.position key m).
Qed.

Lemma vm_get_none key m : VecMap.get key m = None ↔ key ∉ VecMap.keys m.
Proof.
  unfold VecMap.keys. induction m as [|[k v] m IH]; simpl; [by split; [intros _; apply not_elem_of_nil|]|].
  rewrite not_elem_of_cons. destruct (decide (k = key)); [split; [done|intuition congruence]|].
  rewrite IH. intuition congruence.
Qed.

Lemma vm_get_update key key' f m :
  VecMap.get key' (VecMap.update_first key f m)
  = if decide (key = key') then f <$> VecMap.get key' m else VecMap.get key' m.
Proof.
  induction m as [|[k v] m IH]; simpl; [by case_decide|].
  destruct (decide (k = key)) as [->|]; simpl; [by destruct (decide (key = key'))|].
  rewrite IH. destruct (decide (k = key')), (decide (key = key')); congruence.
Qed.

Lemma vm_get_app key m1 m2 :
  VecMap.get key (m1 ++ m2)
  = match VecMap.get key m1 with Some v => Some v | None => VecMap.get key m2 end.
Proof. induction m1 as [|[k v] m IH]; simpl; [done|]. by destruct (decide (k = key)). Qed.

Lemma vm_keys_update key f m : VecMap.keys (VecMap.update_first key f m) = VecMap.keys m.
Proof.
  unfold VecMap.keys. induction m as [|[k v] m IH]; simpl; [done|].
  destruct (decide (k = key)); simpl; [done|]. f_equal. exact IH.
Qed.

Lemma vm_get_delete key m i v :
  NoDup (VecMap.keys m) → m !! i = Some (key, v) →
  ∀ key', VecMap.get key' (delete i m)
          = if decide (key = key') then None else VecMap.get key' m.
Proof.
  unfold VecMap.keys. revert i. induction m as [|[k w] m IH]; intros i Hnd Hi key'; [done|].
  simpl in Hnd. apply NoDup_cons in Hnd as [Hk Hnd]. destruct i as [|i]; simplify_eq/=.
  - destruct (decide (key = key')) as [->|]; [|done]. by apply vm_get_none.
  - rewrite (IH i) by done. assert (key ∈ (fst <$> m)) as Hin.
    { apply list_elem_of_fmap. exists (key, v). split; [done|]. by eapply list_elem_of_lookup_2. }
    destruct (decide (k = key')) as [->|]; [|done]. by destruct (decide (key = key')) as [->|].
Qed.

Lemma vm_keys_delete m i : NoDup (VecMap.keys m) → NoDup (VecMap.keys (delete i m)).
Proof.
  unfold VecMap.keys. revert i. induction m as [|[k v] m IH]; intros i Hnd; [done|].
  simpl in Hnd. apply NoDup_cons in Hnd as [Hk Hnd]. destruct i as [|i]; simpl; [done|].
  apply NoDup_cons. split; [|by apply IH]. intros Hin. apply Hk.
  apply list_elem_of_fmap in Hin as (kv & -> & Hkv). apply list_elem_of_fmap. exists kv.
  split; [done|]. apply list_elem_of_lookup_1 in Hkv as [j Hj].
  destruct (decide (j < i)%nat).
  - rewrite list_lookup_delete_lt in Hj by done. by eapply list_elem_of_lookup_2.
  - rewrite list_lookup_delete_ge in Hj by lia. by eapply list_elem_of_lookup_2.
Qed.
End VecMapFacts.

(** The finite map a [VecMap] stands for. *)
Definition vm_view {K V} `{Countable K} (m : VecMap.VecMap K V) : gmap K V := list_to_map m.

Lemma vm_view_get {K V} `{Countable K} (m : VecMap.VecMap K V) k :
  vm_view m !! k = VecMap.get k m.
Proof.
  unfold vm_view. induction m as [|[k' v] m IH]; simpl; [done|].
  destruct (decide (k' = k)) as [->|]; [by rewrite lookup_insert_eq|].
  by rewrite lookup_insert_ne.
Qed.

Section ViewFacts.
Context {K V : Type} `{Countable K}.
Implicit Types m : VecMap.VecMap K V.

Lemma vm_keys_append key v m :
  NoDup (VecMap.keys m) → VecMap.get key m = None → NoDup (VecMap.keys (m ++ [(key, v)])).
Proof.
  intros Hnd Hk%vm_get_none. unfold VecMap.keys in *. rewrite fmap_app. simpl.
  apply NoDup_app. split_and!; [done| |apply NoDup_singleton].
  intros k Hin ->%list_elem_of_singleton. done.
Qed.

Lemma vm_contains_get key m :
  VecMap.contains_key key m = if VecMap.get key m is Some _ then true else false.
Proof.
  unfold VecMap.contains_key. induction m as [|[k v] m IH]; simpl; [done|]. rewrite IH.
  case_bool_decide; destruct (decide (k = key)); done.
Qed.

Lemma vm_set_spec key value m :
  NoDup (VecMap.keys m) →
  (VecMap.set key value m).1 = negb (VecMap.contains_key key m) ∧
  vm_view (VecMap.set key value m).2 = <[key := value]> (vm_view m) ∧
  NoDup (VecMap.keys (VecMap.set key value m).2).
Proof.
  intros Hnd. unfold VecMap.set. rewrite vm_contains_get.
  destruct (VecMap.get key m) as [v|] eqn:Hg; cbn [fst snd negb]; split_and!; try done.
  - apply map_eq. intros k. rewrite vm_view_get, vm_get_update.
    destruct (decide (key = k)) as [->|]; [by rewrite Hg, lookup_insert_eq|].
    by rewrite lookup_insert_ne, vm_view_get.
  - by rewrite vm_keys_update.
  - apply map_eq. intros k. unfold VecMap.append. rewrite vm_view_get, vm_get_app.
    destruct (decide (key = k)) as [->|].
    + rewrite Hg, lookup_insert_eq. simpl. by destruct (decide (k = k)).
    + rewrite lookup_insert_ne, vm_view_get by done. simpl.
      destruct (decide (key = k)); [done|]. by destruct (VecMap.get k m).
  - by apply vm_keys_append.
Qed.

Lemma vm_remove_spec key m :
  NoDup (VecMap.keys m) →
  (VecMap.remove key m).1 = vm_view m !! key ∧
  vm_view (VecMap.remove key m).2 = delete key (vm_view m) ∧
  NoDup (VecMap.keys (VecMap.remove key m).2).
Proof.
  intros Hnd. unfold VecMap.remove. pose proof (vm_position_get key m) as Hp.
  rewrite vm_view_get. destruct (VecMap.position key m) as [i|]; cbn [fst snd].
  - destruct Hp as (v & Hi & Hg). rewrite Hi. split; [done|]. split; [|by apply vm_keys_delete].
    apply map_eq. intros k. rewrite vm_view_get, (vm_get_delete key m i v) by done.
    destruct (decide (key = k)) as [->|]; [by rewrite lookup_delete_eq|].
    by rewrite lookup_delete_ne, vm_view_get.
  - split; [done|]. split; [|done]. rewrite delete_id; [done|]. by rewrite vm_view_get.
Qed.

Lemma vm_get_mut_or_insert_spec dflt key f m :
  NoDup (VecMap.keys m) →
  vm_view (VecMap.get_mut_or_insert dflt key f m)
    = <[key := f (default dflt (vm_view m !! key))]> (vm_view m) ∧
  NoDup (VecMap.keys (VecMap.get_mut_or_insert dflt key f m)).
Proof.
  intros Hnd. unfold VecMap.get_mut_or_insert, VecMap.get_mut_or_insert_with.
  pose proof (vm_position_get key m) as Hp. rewrite vm_view_get.
  destruct (VecMap.position key m) as [i|].
  - destruct Hp as (v & _ & Hg). split; [|by rewrite vm_keys_update].
    apply map_eq. intros k. rewrite vm_view_get, vm_get_update, Hg.
    destruct (decide (key = k)) as [->|]; [by rewrite lookup_insert_eq, Hg|].
    by rewrite lookup_insert_ne, vm_view_get.
  - split; [|by apply vm_keys_append]. apply map_eq. intros k.
    rewrite vm_view_get, vm_get_app, Hp.
    destruct (decide (key = k)) as [->|].
    + rewrite Hp, lookup_insert_eq. simpl. by destruct (decide (k = k)).
    + rewrite lookup_insert_ne, vm_view_get by done. simpl.
      destruct (decide (key = k)); [done|]. by destruct (VecMap.get k m).
Qed.
End ViewFacts.

(** ** Lemmas on Bitmap *)

Lemma bit_pow i : 0 ≤ i < 64 → Bitmap.bit i = 2 ^ i.
Proof.
  intros Hi. unfold Bitmap.bit, shl. change 63 with (2 ^ 6 - 1).
  rewrite land_ones_low, Z.mod_small, Z.shiftl_1_l by (simpl; lia). apply wrap_id.
  unfold fits. split; [apply Z.pow_nonneg; lia|]. apply Z.pow_lt_mono_r; lia.
Qed.

Lemma bit_testbit i j : 0 ≤ i < 64 → Z.testbit (Bitmap.bit i) j = bool_decide (i = j).
Proof.
  intros Hi. rewrite bit_pow by done. destruct (decide (0 ≤ j)).
  - rewrite Z.pow2_bits_eqb by lia. case_bool_decide; lia.
  - rewrite Z.testbit_neg_r by lia. case_bool_decide; [lia|done].
Qed.

Lemma contains_testbit b i :
  0 ≤ i < 64 → Bitmap.contains b i = Z.testbit (Bitmap.bitmap b) i.
Proof.
  intros Hi. unfold Bitmap.contains.
  assert ((Bitmap.bitmap b .& Bitmap.bit i)
    = if Z.testbit (Bitmap.bitmap b) i then 2 ^ i else 0) as ->.
  { apply Z.bits_inj'. intros j Hj. rewrite Z.land_spec, bit_testbit by done.
    case_bool_decide as He; [subst j|].
    - destruct (Z.testbit (Bitmap.bitmap b) i); [by rewrite Z.pow2_bits_true by lia|by rewrite Z.bits_0].
    - rewrite andb_false_r. destruct (Z.testbit (Bitmap.bitmap b) i);
        [by rewrite Z.pow2_bits_false|by rewrite Z.bits_0]. }
  destruct (Z.testbit (Bitmap.bitmap b) i); [|done].
  destruct (Z.eqb_spec (2 ^ i) 0); [|done]. pose proof (Z.pow_pos_nonneg 2 i). lia.
Qed.

Lemma pop_spec b n :
  0 ≤ n < 64 → 2 ^ n ≤ Bitmap.bitmap b < 2 ^ (n + 1) →
  ∃ b', Bitmap.pop b = (Some n, b') ∧ 0 ≤ Bitmap.bitmap b' < 2 ^ n ∧
    ∀ i, 0 ≤ i < n → Z.testbit (Bitmap.bitmap b') i = Z.testbit (Bitmap.bitmap b) i.
Proof.
  intros Hn Hb. pose proof (Z.pow_pos_nonneg 2 n ltac:(lia) ltac:(lia)).
  assert (Z.log2 (Bitmap.bitmap b) = n) as Hlog by (apply Z.log2_unique; lia).
  unfold Bitmap.pop, Bitmap.leading_zeros.
  rewrite (proj2 (Z.eqb_neq (Bitmap.bitmap b) 0)) by lia. rewrite Hlog.
  replace (63 - (63 - n)) with n by lia. eexists. split; [done|]. cbn [Bitmap.bitmap].
  assert (Z.testbit (Bitmap.bitmap b) n = true) as Htop by (rewrite <- Hlog; apply Z.bit_log2; lia).
  rewrite bit_pow by done.
  assert (Z.lxor (Bitmap.bitmap b) (2 ^ n) = Bitmap.bitmap b mod 2 ^ n) as ->.
  { apply Z.bits_inj'. intros j Hj. rewrite Z.lxor_spec, Z.pow2_bits_eqb by lia.
    destruct (Z.eqb_spec n j) as [<-|].
    - by rewrite Htop, Z.mod_pow2_bits_high by lia.
    - rewrite xorb_false_r. destruct (decide (j < n)); [by rewrite Z.mod_pow2_bits_low by lia|].
      rewrite Z.mod_pow2_bits_high by lia. apply Z.bits_above_log2; lia. }
  split; [apply Z.mod_pos_bound; lia|]. intros i Hi. by rewrite Z.mod_pow2_bits_low by lia.
Qed.

(** The members below [n], the greatest first. *)
Fixpoint members (b : Z) (n : nat) : list Z :=
  match n with
  | O => []
  | S n => if Z.testbit b (Z.of_nat n) then Z.of_nat n :: members b n else members b n
  end.

Lemma members_ext b b' n :
  (∀ i, 0 ≤ i < Z.of_nat n → Z.testbit b i = Z.testbit b' i) → members b n = members b' n.
Proof.
  induction n as [|n IH]; intros Hb; [done|]. simpl. rewrite Hb by lia.
  rewrite IH; [done|]. intros i Hi. apply Hb. lia.
Qed.

Lemma drain_spec n fuel b :
  (n ≤ 64)%nat → (n ≤ fuel)%nat → 0 ≤ Bitmap.bitmap b < 2 ^ Z.of_nat n →
  Bitmap.drain fuel b = members (Bitmap.bitmap b) n.
Proof.
  revert fuel b. induction n as [|n IH]; intros fuel b Hn Hf Hb.
  { simpl in *. destruct fuel; [done|]. simpl. unfold Bitmap.pop.
    rewrite (proj2 (Z.eqb_eq (Bitmap.bitmap b) 0)) by lia. done. }
  simpl. destruct (decide (2 ^ Z.of_nat n ≤ Bitmap.bitmap b)) as [Hge|Hlt].
  - rewrite Nat2Z.inj_succ in Hb.
    destruct (pop_spec b (Z.of_nat n)) as (b' & Hpop & Hb' & Hbits); [lia|lia|].
    destruct fuel as [|fuel]; [lia|]. simpl. rewrite Hpop.
    assert (Z.testbit (Bitmap.bitmap b) (Z.of_nat n) = true) as ->.
    { replace (Z.of_nat n) with (Z.log2 (Bitmap.bitmap b)); [apply Z.bit_log2; lia|].
      apply Z.log2_unique; lia. }
    f_equal. rewrite IH by lia. by apply members_ext.
  - rewrite (fits_bit_high (Z.of_nat n)) by (unfold fits; lia). apply IH; lia.
Qed.

Lemma members_elem b n i : i ∈ members b n ↔ 0 ≤ i < Z.of_nat n ∧ Z.testbit b i = true.
Proof.
  induction n as [|n IH]; simpl.
  { split; [by intros ?%not_elem_of_nil|lia]. }
  destruct (Z.testbit b (Z.of_nat n)) eqn:Hb; rewrite ?elem_of_cons, IH; split.
  - intros [->|[? ?]]; split; (done || lia).
  - intros [? ?]. destruct (decide (i = Z.of_nat n)); [by left|right; split; [lia|done]].
  - intros [? ?]; split; (done || lia).
  - intros [? ?]. destruct (decide (i = Z.of_nat n)) as [->|]; [congruence|split; [lia|done]].
Qed.

(** ** Properties *)

(**  On a [VecMap] whose keys are distinct, [get], [set], [remove] and
    [get_mut_or_insert] are lookup, insertion, deletion and update of the finite
    map it stands for, and they keep the keys distinct. *)
Theorem vec_map_refines_map {K V} `{Countable K} (m : VecMap.VecMap K V) (key : K) (value dflt : V)
    (f : V → V) (Hnd : NoDup (VecMap.keys m)) :
  VecMap.get key m = vm_view m !! key ∧
  (VecMap.set key value m).1 = negb (VecMap.contains_key key m) ∧
  vm_view (VecMap.set key value m).2 = <[key := value]> (vm_view m) ∧
  NoDup (VecMap.keys (VecMap.set key value m).2) ∧
  (VecMap.remove key m).1 = vm_view m !! key ∧
  vm_view (VecMap.remove key m).2 = delete key (vm_view m) ∧
  NoDup (VecMap.keys (VecMap.remove key m).2) ∧
  vm_view (VecMap.get_mut_or_insert dflt key f m)
    = <[key := f (default dflt (vm_view m !! key))]> (vm_view m) ∧
  NoDup (VecMap.keys (VecMap.get_mut_or_insert dflt key f m)).
Proof.
  rewrite <- vm_view_get.
  pose proof (vm_set_spec key value m Hnd) as (? & ? & ?).
  pose proof (vm_remove_spec key m Hnd) as (? & ? & ?).
  pose proof (vm_get_mut_or_insert_spec dflt key f m Hnd) as (? & ?).
  by split_and!.
Qed.

Lemma vec_map_refines_map_witness :
  NoDup (VecMap.keys [(1, 10); (2, 20)]) ∧
  VecMap.remove 2 [(1, 10); (2, 20)] = (Some 20, [(1, 10)]) ∧
  (VecMap.remove 2 [(1, 10); (2, 20)]).1 = (vm_view [(1, 10); (2, 20)] !! 2).
Proof.
  assert (NoDup (VecMap.keys [(1, 10); (2, 20)])) as H
    by (unfold VecMap.keys; simpl; apply (bool_decide_unpack _); vm_compute; exact I).
  split; [exact H|]. split; [reflexivity|].
  apply (vec_map_refines_map [(1, 10); (2, 20)] 2 0 0 id H).
Defined.

(** C39.  [Bitmap] is a set of the integers below 64: membership follows
    insertion, union and intersection, and draining it yields its members from
    the greatest down and nothing else. *)
Theorem bitmap_refines_set (b c : Bitmap.Bitmap) (i j : Z)
    (Hb : fits 64 (Bitmap.bitmap b)) (Hi : 0 ≤ i < 64) (Hj : 0 ≤ j < 64) :
  Bitmap.contains Bitmap.default i = false ∧
  Bitmap.contains (Bitmap.insert b i) j = bool_decide (i = j) || Bitmap.contains b j ∧
  Bitmap.contains (Bitmap.union b c) i = Bitmap.contains b i || Bitmap.contains c i ∧
  Bitmap.contains (Bitmap.intersection b c) i = Bitmap.contains b i && Bitmap.contains c i ∧
  Bitmap.into_vec b = members (Bitmap.bitmap b) 64 ∧
  (j ∈ Bitmap.into_vec b ↔ Bitmap.contains b j = true).
Proof.
  rewrite !contains_testbit by done. cbn [Bitmap.insert Bitmap.union Bitmap.intersection Bitmap.bitmap].
  rewrite !Z.lor_spec, Z.land_spec, bit_testbit by done. unfold Bitmap.into_vec.
  rewrite (drain_spec 64) by (lia || exact Hb). split_and!; try done.
  - apply Z.bits_0.
  - apply orb_comm.
  - rewrite members_elem. split; [by intros [_ ?]|done].
Qed.

Lemma bitmap_refines_set_witness :
  fits 64 (Bitmap.bitmap (Bitmap.from_vec (λ _, true) [3; 40])) ∧
  Bitmap.into_vec (Bitmap.from_vec (λ _, true) [3; 40]) = [40; 3] ∧
  Bitmap.contains (Bitmap.insert (Bitmap.from_vec (λ _, true) [3; 40]) 5) 5 = true.
Proof.
  split; [concrete|]. split; [by vm_compute|].
  apply (bitmap_refines_set (Bitmap.from_vec (λ _, true) [3; 40]) Bitmap.default 5 5);
    [concrete|concrete|concrete].
Defined.

(**  [Bitmap::remove] is a toggle: it removes a member, and it inserts an
    item that is not there; the other items are left alone. *)
Theorem bitmap_remove_toggles (b : Bitmap.Bitmap) (i j : Z) (Hi : 0 ≤ i < 64) (Hj : 0 ≤ j < 64) :
  Bitmap.contains (Bitmap.remove b i) j
  = if bool_decide (i = j) then negb (Bitmap.contains b j) else Bitmap.contains b j.
Proof.
  rewrite !contains_testbit by done. cbn [Bitmap.remove Bitmap.bitmap].
  rewrite Z.lxor_spec, bit_testbit by done. case_bool_decide.
  - apply xorb_true_r.
  - apply xorb_false_r.
Qed.

Lemma bitmap_remove_toggles_witness :
  Bitmap.contains (Bitmap.remove Bitmap.default 4) 4 = true.
Proof. apply (bitmap_remove_toggles Bitmap.default 4 4); lia. Defined.
