(* ===== verification/StoreLog.v ===== *)
(** * The change log

    crates/store/src: [write/log.rs] builds and serializes the changes of a
    write, [query/log.rs] reads the logs of a range back and folds them into one
    list of net changes.  A hash set is iterated in an order the code does not
    choose: [iter] is a parameter, any permutation of the members. *)

From S2P Require Import Prelude Leb128 Maps StoreKeys.

#[local] Opaque write_loop.

(** ** write/log.rs *)

Record Changes := {
  inserts : gset Z;
  updates : gset Z;
  deletes : gset Z;
  child_updates : gset Z;
}.

Definition changes_default : Changes :=
  {| inserts := ∅; updates := ∅; deletes := ∅; child_updates := ∅ |}.

Record ChangeLogBuilder := {
  change_id : Z;
  changes : VecMap.VecMap Z Changes;
}.

Definition change_log_new : ChangeLogBuilder := {| change_id := u64_max; changes := [] |}.
Definition with_change_id (id : Z) : ChangeLogBuilder := {| change_id := id; changes := [] |}.

(** [self.changes.get_mut_or_insert(collection)] and an update of the entry. *)
Definition on_collection (collection : Z) (f : Changes → Changes) (b : ChangeLogBuilder)
    : ChangeLogBuilder :=
  {| change_id := change_id b;
     changes := VecMap.get_mut_or_insert changes_default collection f (changes b) |}.

Definition add_insert (id : Z) (c : Changes) : Changes :=
  {| inserts := {[id]} ∪ inserts c; updates := updates c; deletes := deletes c;
     child_updates := child_updates c |}.
Definition add_update (id : Z) (c : Changes) : Changes :=
  {| inserts := inserts c; updates := {[id]} ∪ updates c; deletes := deletes c;
     child_updates := child_updates c |}.
Definition add_child_update (id : Z) (c : Changes) : Changes :=
  {| inserts := inserts c; updates := updates c; deletes := deletes c;
     child_updates := {[id]} ∪ child_updates c |}.
Definition add_delete (id : Z) (c : Changes) : Changes :=
  {| inserts := inserts c; updates := updates c; deletes := {[id]} ∪ deletes c;
     child_updates := child_updates c |}.

Definition log_insert (collection id : Z) : ChangeLogBuilder → ChangeLogBuilder :=
  on_collection collection (add_insert id).
Definition log_update (collection id : Z) : ChangeLogBuilder → ChangeLogBuilder :=
  on_collection collection (add_update id).
Definition log_child_update (collection id : Z) : ChangeLogBuilder → ChangeLogBuilder :=
  on_collection collection (add_child_update id).
Definition log_delete (collection id : Z) : ChangeLogBuilder → ChangeLogBuilder :=
  on_collection collection (add_delete id).
Definition log_move (collection old_id new_id : Z) : ChangeLogBuilder → ChangeLogBuilder :=
  on_collection collection (λ c, add_insert new_id (add_delete old_id c)).

(** [merge]: the deletions of the other log first, one by one. *)
Definition merge_delete (this : Changes) (id : Z) : Changes :=
  let this :=
    if decide (id ∈ inserts this) then
      {| inserts := inserts this ∖ {[id]}; updates := updates this; deletes := deletes this;
         child_updates := child_updates this |}
    else add_delete id this in
  {| inserts := inserts this; updates := updates this ∖ {[id]}; deletes := deletes this;
     child_updates := child_updates this ∖ {[id]} |}.

Section Iteration.
Context (iter : gset Z → list Z).

Definition merge_changes (other this : Changes) : Changes :=
  let this := foldl merge_delete this (iter (deletes other)) in
  {| inserts := inserts this ∪ inserts other; updates := updates this ∪ updates other;
     deletes := deletes this; child_updates := child_updates this ∪ child_updates other |}.

Definition merge (b other : ChangeLogBuilder) : ChangeLogBuilder :=
  foldl (λ b co, on_collection co.1 (merge_changes co.2) b) b (changes other).

(** [Serialize for &Changes] *)
Definition leb_len (s : gset Z) : bytes := write_loop 10 (Z.of_nat (size s)).

Definition changes_serialize (c : Changes) : bytes :=
  leb_len (inserts c) ++ leb_len (updates c) ++ leb_len (child_updates c) ++ leb_len (deletes c) ++
  ([inserts c; updates c; child_updates c; deletes c] ≫= λ s, iter s ≫= write_loop 10).
End Iteration.

Definition changes_insert (l : list Z) : Changes :=
  {| inserts := list_to_set l; updates := ∅; deletes := ∅; child_updates := ∅ |}.
Definition changes_update (l : list Z) : Changes :=
  {| inserts := ∅; updates := list_to_set l; deletes := ∅; child_updates := ∅ |}.
Definition changes_child_update (l : list Z) : Changes :=
  {| inserts := ∅; updates := ∅; deletes := ∅; child_updates := list_to_set l |}.
Definition changes_delete (l : list Z) : Changes :=
  {| inserts := ∅; updates := ∅; deletes := list_to_set l; child_updates := ∅ |}.

(** ** query/log.rs *)

Inductive Change :=
| Insert (id : Z)
| Update (id : Z)
| ChildUpdate (id : Z)
| Delete (id : Z).

Definition change_item (c : Change) : Z :=
  match c with Insert id | Update id | ChildUpdate id | Delete id => id end.

#[export] Instance change_eq_dec : EqDecision Change.
Proof. solve_decision. Defined.

(** The first entry of the list that the inner loops stop at. *)
Inductive Scan :=
| FoundInsert (idx : nat)
| FoundUpdate (idx : nat)
| FoundChildUpdate (idx : nat)
| NotFound.

Fixpoint scan (id : Z) (idx : nat) (l : list Change) : Scan :=
  match l with
  | [] => NotFound
  | Insert i :: l => if i =? id then FoundInsert idx else scan id (S idx) l
  | Update i :: l => if i =? id then FoundUpdate idx else scan id (S idx) l
  | ChildUpdate i :: l => if i =? id then FoundChildUpdate idx else scan id (S idx) l
  | Delete _ :: l => scan id (S idx) l
  end.

Definition push_update (id : Z) (is_child_update : bool) (l : list Change) : list Change :=
  l ++ [if is_child_update then ChildUpdate id else Update id].

Definition apply_update (id : Z) (is_child_update : bool) (l : list Change) : list Change :=
  match scan id 0 l with
  | FoundInsert _ => l
  | FoundUpdate idx => push_update id false (delete idx l)
  | FoundChildUpdate idx => push_update id is_child_update (delete idx l)
  | NotFound => push_update id is_child_update l
  end.

Definition apply_delete (id : Z) (l : list Change) : list Change :=
  match scan id 0 l with
  | FoundInsert idx => delete idx l
  | FoundUpdate idx | FoundChildUpdate idx => delete idx l ++ [Delete id]
  | NotFound => l ++ [Delete id]
  end.

(** [n] integers read one by one, each handed to [f] with its position. *)
Fixpoint read_ids (f : nat → Z → list Change → list Change) (n pos : nat) (l : list Change)
    (it : bytes) : option (list Change * bytes) :=
  match n with
  | O => Some (l, it)
  | S n =>
      match next_leb128 (L := leb_u64) it with
      | (Some id, it) => read_ids f n (S pos) (f pos id l) it
      | (None, _) => None
      end
  end.

Definition changes_deserialize (l : list Change) (bytes : bytes) : option (list Change) :=
  let leb it := match next_leb128 (L := leb_usize) it with
                | (Some n, it) => Some (Z.to_nat n, it) | (None, _) => None end in
  '(total_inserts, it) ← leb bytes;
  '(total_updates, it) ← leb it;
  '(total_child_updates, it) ← leb it;
  '(total_deletes, it) ← leb it;
  '(l, it) ← read_ids (λ _ id l, l ++ [Insert id]) total_inserts 0 l it;
  '(l, it) ← read_ids (λ change_pos id l, apply_update id (total_updates <=? change_pos)%nat l)
               (total_updates + total_child_updates) 0 l it;
  '(l, _) ← read_ids (λ _ id l, apply_delete id l) total_deletes 0 l it;
  Some l.

(** ** Reading back what was written *)

Fixpoint fold_ids (f : nat → Z → list Change → list Change) (pos : nat) (ids : list Z)
    (l : list Change) : list Change :=
  match ids with [] => l | id :: ids => fold_ids f (S pos) ids (f pos id l) end.

Lemma read_ids_written f ids pos l rest :
  Forall (fits 64) ids →
  read_ids f (length ids) pos l ((ids ≫= write_loop 10) ++ rest) = Some (fold_ids f pos ids l, rest).
Proof.
  intros Hids. revert pos l. induction Hids as [|id ids Hid _ IH]; intros pos l; [done|].
  cbn [length read_ids mbind list_bind]. rewrite <- app_assoc.
  rewrite (next_leb128_write (L := leb_u64)) by done. apply IH.
Qed.

Lemma fold_ids_app f pos l1 l2 l :
  fold_ids f pos (l1 ++ l2) l = fold_ids f (pos + length l1) l2 (fold_ids f pos l1 l).
Proof.
  revert pos l. induction l1 as [|id l1 IH]; intros pos l; cbn [app fold_ids length].
  - by rewrite Nat.add_0_r.
  - rewrite IH. f_equal. lia.
Qed.

Lemma fold_ids_ext f g pos ids l :
  (∀ i id l, (pos ≤ i < pos + length ids)%nat → f i id l = g id l) →
  fold_ids f pos ids l = foldl (λ l id, g id l) l ids.
Proof.
  revert pos l. induction ids as [|id ids IH]; intros pos l Hfg; [done|]. cbn [fold_ids foldl].
  rewrite Hfg by (simpl; lia). apply IH. intros i id' l' Hi. apply Hfg. simpl. lia.
Qed.

Section Reading.
Context (iter : gset Z → list Z) (iter_perm : ∀ s, iter s ≡ₚ elements s).

Definition changes_ok (c : Changes) : Prop :=
  ∀ s, s ∈ [inserts c; updates c; child_updates c; deletes c] →
    set_Forall (fits 64) s ∧ Z.of_nat (size s) < 2 ^ 63.

(** What a log does to the list of changes. *)
Definition apply_log (c : Changes) (l : list Change) : list Change :=
  let l := l ++ (Insert <$> iter (inserts c)) in
  let l := foldl (λ l id, apply_update id false l) l (iter (updates c)) in
  let l := foldl (λ l id, apply_update id true l) l (iter (child_updates c)) in
  foldl (λ l id, apply_delete id l) l (iter (deletes c)).

Lemma iter_length s : length (iter s) = size s.
Proof using iter_perm. by rewrite (Permutation_length (iter_perm s)). Qed.

Lemma iter_forall (P : Z → Prop) s : set_Forall P s → Forall P (iter s).
Proof using iter_perm.
  intros Hs. rewrite (iter_perm s). by apply set_Forall_elements.
Qed.

Lemma foldl_insert ids l : fold_ids (λ _ id l, l ++ [Insert id]) 0 ids l = l ++ (Insert <$> ids).
Proof using.
  rewrite (fold_ids_ext _ (λ id l, l ++ [Insert id])) by done.
  revert l. induction ids as [|id ids IH]; intros l; cbn [foldl]; [by rewrite app_nil_r|].
  rewrite IH. by rewrite <- app_assoc.
Qed.

Lemma fold_updates nu us cs l :
  length us = nu →
  fold_ids (λ pos id l, apply_update id (nu <=? pos)%nat l) 0 (us ++ cs) l
  = foldl (λ l id, apply_update id true l) (foldl (λ l id, apply_update id false l) l us) cs.
Proof using.
  intros <-. rewrite fold_ids_app.
  rewrite (fold_ids_ext _ (λ id l, apply_update id false l) 0).
  2: { intros i id l' Hi. by rewrite (proj2 (Nat.leb_gt _ _)) by lia. }
  apply fold_ids_ext. intros i id l' Hi. by rewrite (proj2 (Nat.leb_le _ _)) by lia.
Qed.

Lemma leb_len_read s rest :
  Z.of_nat (size s) < 2 ^ 63 →
  next_leb128 (L := leb_usize) (leb_len s ++ rest) = (Some (Z.of_nat (size s)), rest).
Proof using.
  intros Hs. apply (next_leb128_write (L := leb_usize)). unfold fits. simpl. lia.
Qed.

Lemma changes_deserialize_serialize c l :
  changes_ok c → changes_deserialize l (changes_serialize iter c) = Some (apply_log c l).
Proof using iter_perm.
  intros Hok. unfold changes_ok in Hok.
  destruct (Hok (inserts c)) as [Hi Hin]; [by left|].
  destruct (Hok (updates c)) as [Hu Hun]; [by right; left|].
  destruct (Hok (child_updates c)) as [Hc Hcn]; [by do 2 right; left|].
  destruct (Hok (deletes c)) as [Hd Hdn]; [by do 3 right; left|].
  unfold changes_deserialize, changes_serialize.
  rewrite (leb_len_read _ _ Hin). cbn [mbind option_bind].
  rewrite (leb_len_read _ _ Hun). cbn [mbind option_bind].
  rewrite (leb_len_read _ _ Hcn). cbn [mbind option_bind].
  rewrite (leb_len_read _ _ Hdn). cbn [mbind option_bind list_bind].
  rewrite !Nat2Z.id, app_nil_r, <- !iter_length.
  rewrite read_ids_written by (by apply iter_forall). cbn [mbind option_bind].
  rewrite app_assoc, <- bind_app, <- length_app.
  rewrite read_ids_written by (apply Forall_app; split; by apply iter_forall).
  cbn [mbind option_bind]. rewrite <- (app_nil_r (iter (deletes c) ≫= write_loop 10)).
  rewrite read_ids_written by (by apply iter_forall). cbn [mbind option_bind].
  rewrite foldl_insert, fold_updates by done.
  unfold apply_log. by rewrite (fold_ids_ext _ apply_delete).
Qed.
End Reading.

(** ** The changes of one item *)

Definition proj (id : Z) (l : list Change) : list Change := filter (λ c, change_item c = id) l.

(** An entry the scans stop at. *)
Definition live (id : Z) (c : Change) : Prop :=
  match c with Delete _ => False | _ => change_item c = id end.

Lemma not_live_ne id c : change_item c ≠ id → ¬ live id c.
Proof. by destruct c; simpl; intros ? ?. Qed.

Lemma scan_shift id idx l :
  scan id idx l
  = match scan id 0 l with
    | FoundInsert i => FoundInsert (idx + i)
    | FoundUpdate i => FoundUpdate (idx + i)
    | FoundChildUpdate i => FoundChildUpdate (idx + i)
    | NotFound => NotFound
    end.
Proof.
  revert idx. induction l as [|c l IH]; intros idx; [done|].
  destruct c as [i|i|i|i]; simpl; rewrite ?(IH (S idx)), ?(IH 1%nat);
    destruct (i =? id); rewrite ?Nat.add_0_r; try done; destruct (scan id 0 l); f_equal; lia.
Qed.

(** Where a scan stops: the list around the entry. *)
Lemma scan_found id l :
  (Forall (λ c, ¬ live id c) l ∧ scan id 0 l = NotFound) ∨
  ∃ l1 c l2, l = l1 ++ c :: l2 ∧ Forall (λ c, ¬ live id c) l1 ∧ live id c ∧
    scan id 0 l = match c with
                  | Insert _ => FoundInsert (length l1)
                  | Update _ => FoundUpdate (length l1)
                  | _ => FoundChildUpdate (length l1)
                  end.
Proof.
  induction l as [|c l IH]; [by left|].
  destruct (decide (change_item c = id)) as [Hid|Hne].
  - destruct c as [i|i|i|i]; simpl in Hid; subst i;
      try (right; eexists [], _, l; simpl; by rewrite Z.eqb_refl).
    simpl. rewrite scan_shift. destruct IH as [[Hl ->]|(l1 & c & l2 & -> & Hl1 & Hc & ->)].
    + left. split; [|done]. constructor; [by intros []|done].
    + right. exists (Delete id :: l1), c, l2. split_and!; [done|constructor; [by intros []|done]|done|].
      by destruct c.
  - assert (scan id 0 (c :: l) = scan id 1 l) as ->.
    { destruct c as [i|i|i|i]; simpl in *; try done; by rewrite (proj2 (Z.eqb_neq _ _)). }
    rewrite scan_shift. destruct IH as [[Hl ->]|(l1 & c' & l2 & -> & Hl1 & Hc & ->)].
    + left. split; [|done]. constructor; [by apply not_live_ne|done].
    + right. exists (c :: l1), c', l2. split_and!; [done| |done|by destruct c'].
      constructor; [by apply not_live_ne|done].
Qed.

Lemma proj_app id l k : proj id (l ++ k) = proj id l ++ proj id k.
Proof. apply filter_app. Qed.

Lemma proj_live id c l : live id c → proj id (c :: l) = c :: proj id l.
Proof. intros Hc. apply filter_cons_True. by destruct c. Qed.

Lemma proj_not_live id l :
  Forall (λ c, ¬ live id c) l → Forall (λ c, ¬ live id c) (proj id l).
Proof.
  rewrite !Forall_forall. intros Hl c Hc. apply Hl. by apply list_elem_of_filter in Hc as [_ ?].
Qed.

Lemma scan_split id l1 c l2 :
  Forall (λ c, ¬ live id c) l1 → live id c →
  scan id 0 (l1 ++ c :: l2)
  = match c with
    | Insert _ => FoundInsert (length l1)
    | Update _ => FoundUpdate (length l1)
    | _ => FoundChildUpdate (length l1)
    end.
Proof.
  intros Hl1 Hc. induction Hl1 as [|c' l1 Hc' Hl1 IH].
  - simpl. destruct c as [i|i|i|i]; simpl in *; subst; by rewrite ?Z.eqb_refl.
  - assert (scan id 0 ((c' :: l1) ++ c :: l2) = scan id 1 (l1 ++ c :: l2)) as ->.
    { destruct c' as [i|i|i|i]; simpl in *; try done; by rewrite (proj2 (Z.eqb_neq _ _)). }
    rewrite scan_shift, IH. by destruct c.
Qed.

Lemma scan_none id l : Forall (λ c, ¬ live id c) l → scan id 0 l = NotFound.
Proof.
  induction 1 as [|c l Hc _ IH]; [done|].
  destruct c as [i|i|i|i]; simpl in *; rewrite ?(proj2 (Z.eqb_neq _ _)) by done;
    by rewrite scan_shift, IH.
Qed.

Lemma delete_middle {A} (l1 : list A) c l2 : delete (length l1) (l1 ++ c :: l2) = l1 ++ l2.
Proof. induction l1; simpl; [done|]. by f_equal. Qed.

Lemma proj_push_update j id b l :
  proj j (push_update id b l)
  = if decide (j = id) then push_update id b (proj id l) else proj j l.
Proof.
  unfold push_update. rewrite proj_app. destruct (decide (j = id)) as [->|].
  - f_equal. unfold proj. by destruct b; rewrite filter_cons_True.
  - rewrite <- (app_nil_r (proj j l)) at 2. f_equal. unfold proj.
    by destruct b; rewrite filter_cons_False.
Qed.

(** The operations act on the entries of their item alone. *)
Lemma proj_apply_update id ch l j :
  proj j (apply_update id ch l)
  = if decide (j = id) then apply_update id ch (proj id l) else proj j l.
Proof.
  destruct (scan_found id l) as [[Hl Hs]|(l1 & c & l2 & -> & Hl1 & Hc & Hs)].
  - unfold apply_update at 1. rewrite Hs, proj_push_update.
    destruct (decide (j = id)) as [->|]; [|done].
    unfold apply_update. by rewrite scan_none by (by apply proj_not_live).
  - unfold apply_update at 1. rewrite Hs.
    assert (j ≠ id → proj j (l1 ++ c :: l2) = proj j (l1 ++ l2)) as Hother.
    { intros Hj. rewrite !proj_app. f_equal. apply filter_cons_False. destruct c; simpl in *; congruence. }
    assert (apply_update id ch (proj id (l1 ++ c :: l2))
      = match c with
        | Insert _ => proj id (l1 ++ c :: l2)
        | Update _ => push_update id false (proj id (l1 ++ l2))
        | _ => push_update id ch (proj id (l1 ++ l2))
        end) as Hsame.
    { rewrite !proj_app, proj_live by done. unfold apply_update.
      rewrite scan_split by (done || by apply proj_not_live).
      by destruct c; rewrite ?delete_middle. }
    destruct (decide (j = id)) as [->|Hj].
    + rewrite Hsame. by destruct c; rewrite ?delete_middle, ?proj_push_update, ?decide_True.
    + destruct c; [done|..]; by rewrite delete_middle, Hother, proj_push_update, decide_False.
Qed.

Lemma proj_apply_delete id l j :
  proj j (apply_delete id l)
  = if decide (j = id) then apply_delete id (proj id l) else proj j l.
Proof.
  assert (proj j [Delete id] = if decide (j = id) then [Delete id] else []) as Hone.
  { unfold proj. destruct (decide (j = id)) as [->|];
      [by rewrite filter_cons_True|by rewrite filter_cons_False]. }
  destruct (scan_found id l) as [[Hl Hs]|(l1 & c & l2 & -> & Hl1 & Hc & Hs)].
  - unfold apply_delete at 1. rewrite Hs, proj_app, Hone.
    destruct (decide (j = id)) as [->|]; [|by rewrite app_nil_r].
    unfold apply_delete. by rewrite scan_none by (by apply proj_not_live).
  - unfold apply_delete at 1. rewrite Hs.
    assert (j ≠ id → proj j (l1 ++ c :: l2) = proj j (l1 ++ l2)) as Hother.
    { intros Hj. rewrite !proj_app. f_equal. apply filter_cons_False. destruct c; simpl in *; congruence. }
    assert (apply_delete id (proj id (l1 ++ c :: l2))
      = match c with
        | Insert _ => proj id l1 ++ proj id l2
        | _ => (proj id l1 ++ proj id l2) ++ [Delete id]
        end) as Hsame.
    { rewrite proj_app, proj_live by done. unfold apply_delete.
      rewrite scan_split by (done || by apply proj_not_live).
      by destruct c; rewrite ?delete_middle. }
    destruct (decide (j = id)) as [->|Hj].
    + rewrite Hsame. destruct c; rewrite ?delete_middle, ?proj_app, ?Hone; try done;
        by rewrite ?decide_True by done.
    + rewrite Hother by done. destruct c; rewrite delete_middle; try done;
        by rewrite (proj_app j (l1 ++ l2)), Hone, app_nil_r.
Qed.

(** ** Histories *)

(** What happened to an item, in the order a log is read. *)
Inductive Event := EInsert | EUpdate | EChildUpdate | EDelete.

#[export] Instance event_eq_dec : EqDecision Event.
Proof. solve_decision. Defined.

Definition history (id : Z) (c : Changes) : list Event :=
  (if decide (id ∈ inserts c) then [EInsert] else []) ++
  (if decide (id ∈ updates c) then [EUpdate] else []) ++
  (if decide (id ∈ child_updates c) then [EChildUpdate] else []) ++
  (if decide (id ∈ deletes c) then [EDelete] else []).

(** Whether the item exists after an event; an event that does not fit gives
    [None]: creating what exists, changing or deleting what does not. *)
Definition alive_step (alive : bool) (e : Event) : option bool :=
  match e with
  | EInsert => if alive then None else Some true
  | EUpdate | EChildUpdate => if alive then Some true else None
  | EDelete => if alive then Some false else None
  end.

Fixpoint alive_run (alive : bool) (evs : list Event) : option bool :=
  match evs with
  | [] => Some alive
  | e :: evs => alive_step alive e ≫= λ alive, alive_run alive evs
  end.

(** The net change of an item that existed before or not ([before]) and does
    after or not ([after]). *)
Definition summary (id : Z) (before after : bool) (evs : list Event) : list Change :=
  if before then
    if decide (EDelete ∈ evs) then Delete id :: (if after then [Insert id] else [])
    else if decide (EUpdate ∈ evs) then [Update id]
    else if decide (EChildUpdate ∈ evs) then [ChildUpdate id]
    else []
  else if after then [Insert id] else [].

Definition apply_event (id : Z) (p : list Change) (e : Event) : list Change :=
  match e with
  | EInsert => p ++ [Insert id]
  | EUpdate => apply_update id false p
  | EChildUpdate => apply_update id true p
  | EDelete => apply_delete id p
  end.

Lemma alive_run_snoc before evs e :
  alive_run before (evs ++ [e]) = alive_run before evs ≫= λ alive, alive_step alive e.
Proof.
  revert before. induction evs as [|e' evs IH]; intros before; simpl.
  - by destruct (alive_step before e).
  - destruct (alive_step before e'); simpl; [apply IH|done].
Qed.

Lemma alive_run_deleted evs : alive_run true evs = Some false → EDelete ∈ evs.
Proof.
  induction evs as [|e evs IH] using rev_ind; [done|].
  rewrite alive_run_snoc, elem_of_app, list_elem_of_singleton.
  destruct (alive_run true evs) as [[]|]; simpl; [|by left; apply IH|done].
  destruct e; simpl; try done. by right.
Qed.

Lemma summary_step id before evs alive e after :
  alive_run before evs = Some alive → alive_step alive e = Some after →
  apply_event id (summary id before alive evs) e = summary id before after (evs ++ [e]).
Proof.
  intros Hrun Hstep. unfold summary. destruct before.
  - assert (∀ x, x ∈ evs ++ [e] ↔ x ∈ evs ∨ x = e) as Hin
      by (intros x; by rewrite elem_of_app, list_elem_of_singleton).
    destruct (decide (EDelete ∈ evs)) as [Hdel|Hdel].
    + rewrite decide_True by (apply Hin; by left).
      by destruct alive, e; simplify_eq/=; unfold apply_update, apply_delete; simpl; rewrite ?Z.eqb_refl.
    + destruct alive; [|by apply alive_run_deleted in Hrun].
      destruct e; simplify_eq/=; [| |rewrite (decide_True (P := EDelete ∈ evs ++ _)) by (apply Hin; by right)].
      * rewrite (decide_False (P := EDelete ∈ _)) by (rewrite Hin; by intros [?|?]).
        rewrite (decide_True (P := EUpdate ∈ evs ++ _)) by (apply Hin; by right).
        repeat case_decide; unfold apply_update; simpl; by rewrite ?Z.eqb_refl.
      * rewrite (decide_False (P := EDelete ∈ _)) by (rewrite Hin; by intros [?|?]).
        destruct (decide (EUpdate ∈ evs)).
        -- rewrite decide_True by (apply Hin; by left). unfold apply_update; simpl.
           by rewrite ?Z.eqb_refl.
        -- rewrite (decide_False (P := EUpdate ∈ _)) by (rewrite Hin; by intros [?|?]).
           rewrite (decide_True (P := EChildUpdate ∈ evs ++ _)) by (apply Hin; by right).
           case_decide; unfold apply_update; simpl; by rewrite ?Z.eqb_refl.
      * repeat case_decide; unfold apply_delete; simpl; by rewrite ?Z.eqb_refl.
  - destruct alive, e; simplify_eq/=; unfold apply_update, apply_delete; simpl;
      by rewrite ?Z.eqb_refl.
Qed.

Lemma summary_run id before evs after :
  alive_run before evs = Some after →
  foldl (apply_event id) [] evs = summary id before after evs.
Proof.
  revert after. induction evs as [|e evs IH] using rev_ind; intros after Hrun.
  - simpl in *. simplify_eq. unfold summary. destruct after; [|done].
    by rewrite !decide_False by apply not_elem_of_nil.
  - rewrite alive_run_snoc in Hrun. destruct (alive_run before evs) as [alive|] eqn:Ha; [|done].
    rewrite foldl_app. simpl. rewrite (IH alive eq_refl). by apply summary_step.
Qed.

(** *** A log acts on each item by its events *)

Lemma proj_foldl (F : Z → list Change → list Change) id ids l :
  (∀ i l j, proj j (F i l) = if decide (j = i) then F i (proj i l) else proj j l) →
  NoDup ids →
  proj id (foldl (λ l i, F i l) l ids)
  = if decide (id ∈ ids) then F id (proj id l) else proj id l.
Proof.
  intros HF Hnd. revert l. induction Hnd as [|i ids Hi Hnd IH]; intros l; cbn [foldl].
  { by rewrite decide_False by apply not_elem_of_nil. }
  rewrite IH, HF. destruct (decide (id = i)) as [->|Hne].
  - rewrite decide_False by done. rewrite decide_True by (by left). done.
  - destruct (decide (id ∈ ids)).
    + by rewrite decide_True by (by right).
    + rewrite decide_False by (rewrite elem_of_cons; tauto). done.
Qed.

Section LogEvents.
Context (iter : gset Z → list Z) (iter_perm : ∀ s, iter s ≡ₚ elements s).

Lemma iter_elem s id : id ∈ iter s ↔ id ∈ s.
Proof using iter_perm. by rewrite (iter_perm s), elem_of_elements. Qed.

Lemma iter_nodup s : NoDup (iter s).
Proof using iter_perm. rewrite (iter_perm s). apply NoDup_elements. Qed.

Lemma proj_inserts id ids l :
  NoDup ids →
  proj id (l ++ (Insert <$> ids)) = proj id l ++ (if decide (id ∈ ids) then [Insert id] else []).
Proof using.
  intros Hnd. rewrite proj_app. f_equal. induction Hnd as [|i ids Hi Hnd IH]; [done|].
  rewrite fmap_cons. unfold proj in *. destruct (decide (i = id)) as [->|Hne].
  - rewrite filter_cons_True, decide_True by (done || by left).
    rewrite decide_False in IH by done. by rewrite IH.
  - rewrite filter_cons_False by done. rewrite IH.
    destruct (decide (id ∈ ids)); [by rewrite decide_True by (by right)|].
    by rewrite decide_False by (rewrite elem_of_cons; intros [?|?]; congruence).
Qed.

Lemma proj_apply_log id c l :
  proj id (apply_log iter c l) = foldl (apply_event id) (proj id l) (history id c).
Proof using iter_perm.
  unfold apply_log, history.
  rewrite (proj_foldl apply_delete), (proj_foldl (λ i, apply_update i true)),
    (proj_foldl (λ i, apply_update i false)), proj_inserts by
    (apply iter_nodup || (intros; apply proj_apply_delete || apply proj_apply_update)).
  rewrite !foldl_app.
  repeat match goal with
  | |- context [decide (id ∈ iter ?s)] =>
      rewrite (decide_ext (id ∈ iter s) (id ∈ s)) by apply iter_elem
  end.
  destruct (decide (id ∈ inserts c)), (decide (id ∈ updates c)),
    (decide (id ∈ child_updates c)), (decide (id ∈ deletes c)); simpl; by rewrite ?app_nil_r.
Qed.
End LogEvents.
