(* ===== verification/KvStore.v ===== *)
(** * Key-value store: the engine's interface and the backend's reads

    crates/store/src/backend/rocksdb/read.rs, the range operations of write.rs
    and the merge operator of main.rs.  The storage engine is a library: [KvStore]
    names the operations the code calls, [KvLaws] what their documentation
    promises, and [MapStore] is a concrete engine that keeps the promises. *)

From stdpp Require Import sorting.
From S2P Require Import Prelude Leb128 StoreKeys.

#[local] Opaque write_loop.

(** ** Counters *)

(** [i64]: the signed reading of a 64-bit word and its wrap-around. *)
Definition i64 (z : Z) : Z := (z + 2 ^ 63) mod 2 ^ 64 - 2 ^ 63.
Definition i64_ok (z : Z) : Prop := - 2 ^ 63 ≤ z < 2 ^ 63.

Definition i64_to_le_bytes (v : Z) : bytes := le_bytes 8 v.

(** [i64::from_le_bytes(bytes.try_into()?)]: exactly eight bytes. *)
Definition i64_from_le_bytes (l : bytes) : option Z :=
  if (length l =? 8)%nat then Some (i64 (from_le l)) else None.

(** [backend::deserialize_i64_le] *)
Definition deserialize_i64_le (l : bytes) : result StoreError Z :=
  ok_or DataCorruption (i64_from_le_bytes l).

(** [i64::deserialize]: big endian, exactly eight bytes. *)
Definition i64_deserialize (l : bytes) : result StoreError Z :=
  if (length l =? 8)%nat then Ok (i64 (from_be l)) else Err DataCorruption.

(** [u64::deserialize]: big endian, exactly eight bytes. *)
Definition u64_deserialize (l : bytes) : result StoreError Z :=
  if (length l =? 8)%nat then Ok (from_be l) else Err DataCorruption.

Fixpoint merge_operands (value : Z) (operands : list bytes) : option Z :=
  match operands with
  | [] => Some value
  | op :: operands => by_ ← i64_from_le_bytes op; merge_operands (i64 (value + by_)) operands
  end.

(** The merge operator the backend registers for its counters. *)
Definition numeric_value_merge (value : option bytes) (operands : list bytes) : option bytes :=
  value ← (if value is Some l then i64_from_le_bytes l else Some 0);
  i64_to_le_bytes <$> merge_operands value operands.

(** ** The engine *)

(** A row of a column family. *)
Abbreviation Row := (bytes * bytes)%type.

Definition row_lt (r1 r2 : Row) : Prop := bytes_lt r1.1 r2.1.
Definition row_le (r1 r2 : Row) : Prop := bytes_le r1.1 r2.1.

#[export] Instance row_le_dec r1 r2 : Decision (row_le r1 r2).
Proof. unfold row_le. apply _. Defined.

Class KvStore (DB : Type) := {
  kv_get : DB → Z → bytes → option bytes;
  kv_put : Z → bytes → bytes → DB → DB;
  kv_delete : Z → bytes → DB → DB;
  kv_merge : Z → bytes → bytes → DB → DB;
  kv_scan : DB → Z → list Row;
}.

Class KvLaws (DB : Type) `{KvStore DB} := {
  kv_get_put db cf k v cf' k' :
    kv_get (kv_put cf k v db) cf' k'
    = if decide (cf' = cf ∧ k' = k) then Some v else kv_get db cf' k';
  kv_get_delete db cf k cf' k' :
    kv_get (kv_delete cf k db) cf' k'
    = if decide (cf' = cf ∧ k' = k) then None else kv_get db cf' k';
  kv_get_merge db cf k op v :
    numeric_value_merge (kv_get db cf k) [op] = Some v →
    kv_get (kv_merge cf k op db) cf k = Some v;
  kv_get_merge_ne db cf k op cf' k' :
    ¬ (cf' = cf ∧ k' = k) → kv_get (kv_merge cf k op db) cf' k' = kv_get db cf' k';
  kv_scan_sorted db cf : StronglySorted row_lt (kv_scan db cf);
  kv_scan_get db cf k v : (k, v) ∈ kv_scan db cf ↔ kv_get db cf k = Some v;
}.

(** ** Iterators *)

(** [IteratorMode::From(begin, Forward)]: the rows from the first key that is
    not below [begin]. *)
Fixpoint seek (begin : bytes) (rows : list Row) : list Row :=
  match rows with
  | r :: rows' => if decide (bytes_lt r.1 begin) then seek begin rows' else rows
  | [] => []
  end.

(** [IteratorMode::From(end, Reverse)]: downwards from the last key that is not
    above [end]. *)
Fixpoint seek_down (end_ : bytes) (rows : list Row) : list Row :=
  match rows with
  | r :: rows' => if decide (bytes_lt end_ r.1) then seek_down end_ rows' else rows
  | [] => []
  end.

Record IterateParams := {
  ip_subspace : Z;
  ip_begin : bytes;
  ip_end : bytes;
  ip_first : bool;
  ip_ascending : bool;
}.

Section Reads.
Context `{KvStore DB}.

Fixpoint iterate_rows {S} (params : IterateParams) (cb : bytes → bytes → S → result StoreError (bool * S))
    (rows : list Row) (s : S) : result StoreError S :=
  match rows with
  | [] => Ok s
  | (key, value) :: rows =>
      if decide (bytes_lt key (ip_begin params) ∨ bytes_lt (ip_end params) key) then Ok s
      else
        r ← cb key value s;
        if negb r.1 || ip_first params then Ok r.2 else iterate_rows params cb rows r.2
  end.

Definition iterate {S} (db : DB) (params : IterateParams)
    (cb : bytes → bytes → S → result StoreError (bool * S)) (s : S) : result StoreError S :=
  let rows := kv_scan db (ip_subspace params) in
  iterate_rows params cb
    (if ip_ascending params then seek (ip_begin params) rows
     else seek_down (ip_end params) (reverse rows)) s.

Definition get_value {U} (deserialize : bytes → result StoreError U) (db : DB)
    (class : ValueClass Z) (account_id collection document_id : Z) : result StoreError (option U) :=
  match kv_get db (value_subspace class collection)
          (value_serialize None class account_id collection document_id 0) with
  | Some value => u ← deserialize value; Ok (Some u)
  | None => Ok None
  end.

(** The loop of [get_bitmap], which also runs inside [commit]. *)
Fixpoint bitmap_rows (begin end_ : bytes) (rows : list Row) (bm : gset Z)
    : result StoreError (gset Z) :=
  match rows with
  | [] => Ok bm
  | (key, _) :: rows =>
      if decide (length key = length begin ∧ bytes_le begin key ∧ bytes_le key end_) then
        id ← deserialize_be_u32 key (Z.of_nat (length key) - U32_LEN);
        bitmap_rows begin end_ rows ({[id]} ∪ bm)
      else Ok bm
  end.

Definition get_bitmap (db : DB) (class : BitmapClass Z) (account_id collection document_id : Z)
    : result StoreError (option (gset Z)) :=
  let begin := bitmap_serialize None class account_id collection document_id 0 in
  let end_ := bitmap_serialize None class account_id collection u32_max 0 in
  bm ← bitmap_rows begin end_ (seek begin (kv_scan db (bitmap_subspace class))) ∅;
  Ok (if decide (bm = ∅) then None else Some bm).

(** The counter under a key; a counter that is not there is zero. *)
Definition counter_at (db : DB) (cf : Z) (key : bytes) : result StoreError Z :=
  match kv_get db cf key with
  | Some l => deserialize_i64_le l
  | None => Ok 0
  end.

Definition get_counter (db : DB) (class : ValueClass Z) (account_id collection document_id : Z)
    : result StoreError Z :=
  counter_at db (value_subspace class collection)
    (value_serialize None class account_id collection document_id 0).

Fixpoint range_keys (from to : bytes) (rows : list Row) : list bytes :=
  match rows with
  | [] => []
  | (key, _) :: rows =>
      if decide (bytes_lt key from ∨ bytes_le to key) then [] else key :: range_keys from to rows
  end.

Definition delete_range (subspace : Z) (from to : bytes) (db : DB) : DB :=
  foldl (λ db k, kv_delete subspace k db) db
    (range_keys from to (seek from (kv_scan db subspace))).

(** The keys of the counters that are zero, and their removal: [purge_store] of
    the backend.  Each removal is a transaction that looks at the value again. *)
Fixpoint zero_keys (rows : list Row) : result StoreError (list bytes) :=
  match rows with
  | [] => Ok []
  | (key, value) :: rows =>
      v ← i64_deserialize value;
      keys ← zero_keys rows;
      Ok (if v =? 0 then key :: keys else keys)
  end.

Definition purge_key (subspace : Z) (db : DB) (key : bytes) : DB :=
  match kv_get db subspace key with
  | Some value =>
      match i64_deserialize value with
      | Ok v => if v =? 0 then kv_delete subspace key db else db
      | Err _ => db
      end
  | None => db
  end.

Definition purge_counters (subspace : Z) (db : DB) : result StoreError DB :=
  keys ← zero_keys (kv_scan db subspace);
  Ok (foldl (purge_key subspace) db keys).

Definition backend_purge_store (db : DB) : result StoreError () * DB :=
  match purge_counters SUBSPACE_QUOTA db with
  | Err e => (Err e, db)
  | Ok db =>
      match purge_counters SUBSPACE_COUNTER db with
      | Err e => (Err e, db)
      | Ok db => (Ok (), db)
      end
  end.
End Reads.

(** ** An engine *)

Module MapStore.

Definition DB : Type := gmap (Z * bytes) bytes.

Definition scan (db : DB) (cf : Z) : list Row :=
  merge_sort row_le
    ((λ kv, (kv.1.2, kv.2)) <$> filter (λ kv, kv.1.1 = cf) (map_to_list db)).

#[global] Instance map_store : KvStore DB := {|
  kv_get db cf k := db !! (cf, k);
  kv_put cf k v db := <[(cf, k) := v]> db;
  kv_delete cf k db := delete (cf, k) db;
  kv_merge cf k op db :=
    if numeric_value_merge (db !! (cf, k)) [op] is Some v then <[(cf, k) := v]> db else db;
  kv_scan := scan;
|}.

End MapStore.

(** ** Laws of the concrete engine *)

#[export] Instance row_le_trans : Transitive row_le.
Proof. intros r1 r2 r3 H12 H23. unfold row_le in *. by transitivity r2.1. Qed.

#[export] Instance row_le_total : Total row_le.
Proof. intros r1 r2. apply (bytes_le_total r1.1 r2.1). Qed.

Lemma sorted_keys_lt (rows : list Row) :
  StronglySorted row_le rows → NoDup rows.*1 →
  StronglySorted row_lt rows.
Proof.
  induction 1 as [|r rows Hrows IH Hr]; simpl; [constructor|].
  intros [Hnin Hnd]%NoDup_cons. constructor; [by apply IH|].
  rewrite Forall_forall in *. intros r' Hr'. unfold row_lt.
  destruct (proj1 (bytes_le_lt_eq _ _) (Hr r' Hr')) as [?|Heq]; [done|].
  destruct Hnin. rewrite Heq. by apply list_elem_of_fmap_2.
Qed.

Lemma map_scan_elem (db : MapStore.DB) cf k v :
  (k, v) ∈ MapStore.scan db cf ↔ db !! (cf, k) = Some v.
Proof.
  unfold MapStore.scan. rewrite merge_sort_Permutation, list_elem_of_fmap. split.
  - intros ([[cf' k'] v'] & [= -> ->] & [Hcf Hin]%list_elem_of_filter).
    simpl in Hcf. subst. by apply elem_of_map_to_list in Hin.
  - intros Hk. exists ((cf, k), v). split; [done|]. apply list_elem_of_filter. split; [done|].
    by apply elem_of_map_to_list.
Qed.

Lemma map_scan_nodup (db : MapStore.DB) cf : NoDup (MapStore.scan db cf).*1.
Proof.
  unfold MapStore.scan. rewrite merge_sort_Permutation, <- list_fmap_compose.
  apply NoDup_fmap_2_strong; [|apply NoDup_filter, NoDup_map_to_list].
  intros [[cf1 k1] v1] [[cf2 k2] v2] [H1 Hin1]%list_elem_of_filter [H2 Hin2]%list_elem_of_filter Heq.
  simpl in *. subst. apply elem_of_map_to_list in Hin1, Hin2. by simplify_eq.
Qed.

#[export] Instance map_store_laws : KvLaws MapStore.DB.
Proof.
  assert (∀ (cf cf' : Z) (k k' : bytes), (cf, k) ≠ (cf', k') ↔ ¬ (cf' = cf ∧ k' = k)) as Hne.
  { intros. split; [intros Hn [-> ->]; by destruct Hn|intros Hn [= -> ->]; by destruct Hn]. }
  split.
  - intros. simpl. case_decide as Hd.
    + destruct Hd as [-> ->]. apply lookup_insert_eq.
    + apply lookup_insert_ne. by apply Hne.
  - intros. simpl. case_decide as Hd.
    + destruct Hd as [-> ->]. apply lookup_delete_eq.
    + apply lookup_delete_ne. by apply Hne.
  - intros db cf k op v Hv. cbn [kv_get kv_merge MapStore.map_store] in *. rewrite Hv.
    apply lookup_insert_eq.
  - intros db cf k op cf' k' Hn. cbn [kv_get kv_merge MapStore.map_store].
    destruct (numeric_value_merge _ _); [|done]. apply lookup_insert_ne. by apply Hne.
  - intros. simpl. apply sorted_keys_lt; [|apply map_scan_nodup].
    apply (StronglySorted_merge_sort row_le).
  - intros. apply map_scan_elem.
Qed.

(** ** Range scans *)

(** [P] holds of a prefix of the sorted rows. *)
Lemma filter_sorted_split (rows : list Row) (P : Row → Prop) `{∀ r, Decision (P r)} :
  StronglySorted row_lt rows →
  (∀ r1 r2, r1 ∈ rows → r2 ∈ rows → row_lt r1 r2 → P r2 → P r1) →
  rows = filter P rows ++ filter (λ r, ¬ P r) rows.
Proof.
  induction 1 as [|r rows Hrows IH Hr]; intros Hdown; [done|].
  destruct (decide (P r)) as [Hp|Hp].
  - rewrite filter_cons_True, filter_cons_False by (done || tauto). simpl. f_equal.
    apply IH. intros r1 r2 H1 H2. apply Hdown; by right.
  - rewrite filter_cons_False, filter_cons_True by done.
    assert (∀ r', r' ∈ rows → ¬ P r') as Hnone.
    { intros r' Hr' Hp'. apply Hp, (Hdown r r'); [by left|by right| |done].
      rewrite Forall_forall in Hr. by apply Hr. }
    apply Forall_forall in Hnone. rewrite filter_none by done. simpl. f_equal.
    symmetry. by apply filter_all.
Qed.

Lemma seek_filter begin rows :
  StronglySorted row_lt rows → seek begin rows = filter (λ r, bytes_le begin r.1) rows.
Proof.
  induction 1 as [|r rows Hrows IH Hr]; [done|]. cbn [seek]. case_decide as Hd.
  - rewrite IH, filter_cons_False; [done|]. by apply bytes_not_le.
  - assert (bytes_le begin r.1) as Hle.
    { destruct (decide (bytes_le begin r.1)) as [?|Hn]; [done|]. by apply bytes_not_le in Hn. }
    symmetry. apply filter_all. constructor; [done|]. eapply Forall_impl; [exact Hr|].
    intros r' Hr'. apply bytes_le_lt_eq. left. by eapply bytes_le_lt_trans.
Qed.

Lemma filter_sorted (P : Row → Prop) `{∀ r, Decision (P r)} rows :
  StronglySorted row_lt rows → StronglySorted row_lt (filter P rows).
Proof.
  induction 1 as [|r rows Hrows IH Hr]; [constructor|].
  destruct (decide (P r)); [rewrite filter_cons_True|rewrite filter_cons_False]; [|done..].
  constructor; [done|]. rewrite Forall_forall in *. intros r' [_ Hr']%list_elem_of_filter. auto.
Qed.

(** A fold over rows that can fail. *)
Fixpoint fold_rows {S} (f : bytes → bytes → S → result StoreError S) (rows : list Row) (s : S)
    : result StoreError S :=
  match rows with
  | [] => Ok s
  | (key, value) :: rows => s ← f key value s; fold_rows f rows s
  end.

Definition in_range (begin end_ : bytes) (r : Row) : Prop :=
  bytes_le begin r.1 ∧ bytes_le r.1 end_.

#[export] Instance in_range_dec begin end_ r : Decision (in_range begin end_ r).
Proof. unfold in_range. apply _. Defined.

Lemma iterate_rows_fold {S} params (f : bytes → bytes → S → result StoreError S) rows s :
  ip_first params = false → StronglySorted row_lt rows →
  Forall (λ r, bytes_le (ip_begin params) r.1) rows →
  iterate_rows params (λ k v s, s ← f k v s; Ok (true, s)) rows s
  = fold_rows f (filter (in_range (ip_begin params) (ip_end params)) rows) s.
Proof.
  intros Hfirst Hrows Hbegin. revert s. induction Hrows as [|[k v] rows Hrows IH Hr]; intros s; [done|].
  inversion Hbegin as [|? ? Hk Hbegin']; subst. simpl in Hk. cbn [iterate_rows]. case_decide as Hd.
  - destruct Hd as [Hd|Hd]; [by apply bytes_not_le in Hd|].
    rewrite filter_none; [done|]. constructor.
    { intros [_ Hin]. by apply bytes_not_le in Hd. }
    eapply Forall_impl; [exact Hr|]. intros r' Hr' [_ Hin]. unfold row_lt in Hr'. simpl in Hr'.
    apply bytes_not_le in Hd. apply Hd. transitivity r'.1; [|done]. apply bytes_le_lt_eq. by left.
  - rewrite filter_cons_True.
    2: { split; simpl; [done|]. destruct (decide (bytes_le k (ip_end params))) as [?|Hn]; [done|].
         apply bytes_not_le in Hn. destruct Hd. by right. }
    cbn [fold_rows]. destruct (f k v s) as [s'|e]; [|done]. cbn. rewrite Hfirst. cbn.
    by apply IH.
Qed.

Section RangeLemmas.
Context `{KvLaws DB}.

Lemma iterate_ascending {S} db params (f : bytes → bytes → S → result StoreError S) s :
  ip_first params = false → ip_ascending params = true →
  iterate db params (λ k v s, s ← f k v s; Ok (true, s)) s
  = fold_rows f (filter (in_range (ip_begin params) (ip_end params))
                   (kv_scan db (ip_subspace params))) s.
Proof.
  intros Hfirst Hasc. unfold iterate. rewrite Hasc.
  pose proof (kv_scan_sorted db (ip_subspace params)) as Hs.
  rewrite seek_filter by done. rewrite iterate_rows_fold; [|done|by apply filter_sorted|].
  - f_equal. rewrite list_filter_filter. apply list_filter_iff. intros r. unfold in_range. tauto.
  - apply Forall_forall. by intros r [? _]%list_elem_of_filter.
Qed.

Lemma range_keys_filter from to rows :
  StronglySorted row_lt rows → Forall (λ r, bytes_le from r.1) rows →
  range_keys from to rows = (filter (λ r, bytes_lt r.1 to) rows).*1.
Proof.
  induction 1 as [|[k v] rows Hrows IH Hr]; intros Hfrom; [done|].
  inversion Hfrom as [|? ? Hk Hfrom']; subst. simpl in Hk. cbn [range_keys]. case_decide as Hd.
  - destruct Hd as [Hd|Hd]; [by apply bytes_not_le in Hd|].
    rewrite filter_none; [done|].
    assert (∀ k', bytes_le k k' → ¬ bytes_lt k' to) as Hno.
    { intros k' Hk' Hlt. eapply (irreflexivity bytes_lt to).
      eapply bytes_le_lt_trans; [|exact Hlt]. by transitivity k. }
    constructor; [by apply Hno|]. eapply Forall_impl; [exact Hr|].
    intros r' Hr'. apply Hno, bytes_le_lt_eq. by left.
  - rewrite filter_cons_True; [|by destruct (decide (bytes_le to k)) as [?|?%bytes_not_le]; [destruct Hd; right|]].
    simpl. f_equal. by apply IH.
Qed.

Lemma foldl_delete cf keys db cf' k :
  kv_get (foldl (λ db k, kv_delete cf k db) db keys) cf' k
  = if decide (cf' = cf ∧ k ∈ keys) then None else kv_get db cf' k.
Proof.
  revert db. induction keys as [|k' keys IH]; intros db; cbn [foldl].
  { rewrite decide_False; [done|]. intros [_ []%not_elem_of_nil]. }
  rewrite IH, kv_get_delete. destruct (decide (cf' = cf ∧ k ∈ keys)) as [[-> Hin]|Hn].
  - rewrite decide_True; [done|]. split; [done|by right].
  - destruct (decide (cf' = cf ∧ k = k')) as [[-> ->]|Hn'].
    + rewrite decide_True; [done|]. split; [done|by left].
    + rewrite decide_False; [done|]. rewrite elem_of_cons. tauto.
Qed.

(** A range deletion removes the keys of the range, its end excluded, and
    nothing else. *)
Lemma delete_range_get subspace from to db cf k :
  kv_get (delete_range subspace from to db) cf k
  = if decide (cf = subspace ∧ bytes_le from k ∧ bytes_lt k to) then None else kv_get db cf k.
Proof.
  unfold delete_range. rewrite foldl_delete.
  pose proof (kv_scan_sorted db subspace) as Hs.
  rewrite seek_filter, range_keys_filter; [|by apply filter_sorted| |done].
  2: { apply Forall_forall. by intros r [? _]%list_elem_of_filter. }
  destruct (decide (cf = subspace ∧ bytes_le from k ∧ bytes_lt k to)) as [(-> & Hf & Ht)|Hn].
  - destruct (kv_get db subspace k) as [v|] eqn:Hk; [|by case_decide].
    rewrite decide_True; [done|]. split; [done|]. apply list_elem_of_fmap. exists (k, v).
    split; [done|]. rewrite !list_elem_of_filter. by rewrite kv_scan_get.
  - rewrite decide_False; [done|]. intros [-> ([k' v] & -> & Hin)%list_elem_of_fmap]. apply Hn.
    rewrite !list_elem_of_filter in Hin. tauto.
Qed.
End RangeLemmas.

(** ** Bitmaps *)

Definition key_document (k : bytes) : Z := from_be (drop (length k - 4) k).

Lemma deserialize_document k :
  (4 ≤ length k)%nat →
  deserialize_be_u32 k (Z.of_nat (length k) - U32_LEN) = Ok (key_document k).
Proof.
  intros Hk. unfold deserialize_be_u32, deserialize_be, U32_LEN, key_document.
  rewrite (proj2 (Z.leb_le _ _)), (proj2 (Z.leb_le _ _)) by lia. cbn [andb].
  replace (Z.to_nat (Z.of_nat (length k) - 4)) with (length k - 4)%nat by lia.
  rewrite take_ge by (rewrite length_drop; lia). done.
Qed.

Lemma bitmap_rows_spec begin end_ rows bm :
  (4 ≤ length begin)%nat → StronglySorted row_lt rows →
  Forall (λ r, bytes_le begin r.1) rows →
  Forall (λ r, in_range begin end_ r → length r.1 = length begin) rows →
  bitmap_rows begin end_ rows bm
  = Ok (list_to_set ((λ r, key_document r.1) <$> filter (in_range begin end_) rows) ∪ bm).
Proof.
  intros H4 Hrows. revert bm. induction Hrows as [|[k v] rows Hrows IH Hr]; intros bm Hb Hlen.
  { cbn. by rewrite (left_id_L ∅ (∪)). }
  inversion Hb as [|? ? Hk Hb']; inversion Hlen as [|? ? Hl Hlen']; subst. cbn [fst] in *.
  cbn [bitmap_rows]. destruct (decide (bytes_le k end_)) as [He|He].
  - assert (in_range begin end_ (k, v)) as Hin by done. specialize (Hl Hin).
    rewrite decide_True by done. rewrite deserialize_document by lia. cbn [mbind].
    etransitivity; [apply IH; done|]. rewrite filter_cons_True by done.
    rewrite fmap_cons, list_to_set_cons. f_equal. cbn [fst].
    by rewrite (assoc_L (∪)), (comm_L (∪) (list_to_set _) {[_]}).
  - rewrite decide_False by tauto. rewrite filter_none.
    { cbn. by rewrite (left_id_L ∅ (∪)). }
    constructor; [by intros [_ ?]|]. eapply Forall_impl; [exact Hr|].
    intros r' Hr' [_ Hin]. apply He. transitivity r'.1; [|done]. apply bytes_le_lt_eq. by left.
Qed.

(** A key between [p ++ l] and [p ++ h] that is long enough starts with [p]. *)
Lemma range_prefix p l h k :
  (length p ≤ length k)%nat → bytes_le (p ++ l) k → bytes_le k (p ++ h) →
  ∃ q, k = p ++ q ∧ bytes_le l q ∧ bytes_le q h.
Proof.
  intros Hk Hl Hh. exists (drop (length p) k).
  pose proof (take_drop (length p) k) as Hsplit.
  assert (length p = length (take (length p) k)) as Hlen by (rewrite length_take; lia).
  unfold bytes_le in *. rewrite <- Hsplit in Hl, Hh.
  rewrite bytes_compare_app in Hl, Hh by done.
  rewrite (bytes_compare_opp p) in Hh.
  destruct (bytes_compare p (take _ _)) eqn:Hc; [|done..].
  apply bytes_compare_eq in Hc. split; [congruence|done].
Qed.

Lemma prefix_range p d :
  fits 32 d → in_range (p ++ be_bytes 4 0) (p ++ be_bytes 4 u32_max) (p ++ be_bytes 4 d, []).
Proof.
  intros Hd. unfold in_range, bytes_le. cbn [fst].
  rewrite !bytes_compare_app, !(proj2 (bytes_compare_eq p p) eq_refl) by done.
  rewrite !be_bytes_compare by (width). unfold fits in Hd. change u32_max with (2 ^ 32 - 1).
  split; intros Hgt%Z.compare_gt_iff; lia.
Qed.

Section BitmapReads.
Context `{KvLaws DB}.

(** What a key of [class] looks like: a prefix and the document. *)
Definition bitmap_prefix (class : BitmapClass Z) (a c : Z) : bytes :=
  parts_bytes (bitmap_parts None class a c).

Lemma bitmap_serialize_prefix class a c d :
  bitmap_serialize None class a c d 0 = bitmap_prefix class a c ++ be_bytes 4 d.
Proof using.
  rewrite bitmap_serialize_bytes. change (subspace_prefix 0 _) with (@nil KeyPart).
  rewrite app_nil_l, parts_bytes_app. done.
Qed.

(** The keys in the range of a bitmap are keys of that bitmap. *)
Definition bitmap_clean (db : DB) (class : BitmapClass Z) (a c : Z) : Prop :=
  ∀ k v, kv_get db (bitmap_subspace class) k = Some v →
    in_range (bitmap_serialize None class a c 0 0) (bitmap_serialize None class a c u32_max 0) (k, v) →
    ∃ d, fits 32 d ∧ k = bitmap_serialize None class a c d 0.

Definition bitmap_holds (db : DB) (class : BitmapClass Z) (a c d : Z) : Prop :=
  is_Some (kv_get db (bitmap_subspace class) (bitmap_serialize None class a c d 0)).

Lemma key_document_prefix p d : fits 32 d → key_document (p ++ be_bytes 4 d) = d.
Proof using.
  intros Hd. unfold key_document. rewrite length_app, length_be_bytes.
  rewrite drop_app_length' by lia. apply from_be_bytes_id. done.
Qed.

Lemma bitmap_rows_holds db class a c :
  bitmap_clean db class a c →
  let begin := bitmap_serialize None class a c 0 0 in
  let end_ := bitmap_serialize None class a c u32_max 0 in
  ∃ bm : gset Z,
    bitmap_rows begin end_ (seek begin (kv_scan db (bitmap_subspace class))) ∅ = Ok bm ∧
    ∀ d, d ∈ bm ↔ fits 32 d ∧ bitmap_holds db class a c d.
Proof.
  intros Hclean begin end_. unfold begin, end_. pose proof (kv_scan_sorted db (bitmap_subspace class)) as Hs.
  set (b := bitmap_serialize None class a c 0 0) in *.
  set (e := bitmap_serialize None class a c u32_max 0) in *.
  assert (4 ≤ length b)%nat as H4.
  { unfold b. rewrite bitmap_serialize_prefix, length_app, length_be_bytes. lia. }
  rewrite seek_filter by done.
  assert (∀ k v, (k, v) ∈ filter (λ r : Row, bytes_le b r.1) (kv_scan db (bitmap_subspace class)) →
    in_range b e (k, v) → ∃ d, fits 32 d ∧ k = bitmap_serialize None class a c d 0) as Hkey.
  { intros k v [_ Hin]%list_elem_of_filter Hr. apply kv_scan_get in Hin. by apply (Hclean k v). }
  rewrite (bitmap_rows_spec b e); [|done|by apply filter_sorted| |].
  2: { apply Forall_forall. by intros r [? _]%list_elem_of_filter. }
  2: { apply Forall_forall. intros [k v] Hin Hr. destruct (Hkey k v Hin Hr) as (d & _ & ->).
       unfold b. simpl. by rewrite !bitmap_serialize_prefix, !length_app, !length_be_bytes. }
  eexists. split; [reflexivity|]. intros d.
  rewrite (right_id_L ∅ (∪)), elem_of_list_to_set, list_elem_of_fmap. split.
  - intros ([k v] & -> & [Hr Hin]%list_elem_of_filter).
    destruct (Hkey k v Hin Hr) as (d & Hd & ->). cbn [fst].
    rewrite bitmap_serialize_prefix, key_document_prefix by done. split; [done|].
    apply list_elem_of_filter in Hin as [_ Hin%kv_scan_get]. by exists v.
  - intros [Hd [v Hv]]. unfold bitmap_holds in Hv. exists (bitmap_serialize None class a c d 0, v).
    cbn [fst]. rewrite bitmap_serialize_prefix, key_document_prefix by done. split; [done|].
    rewrite !list_elem_of_filter, kv_scan_get, <- bitmap_serialize_prefix.
    assert (in_range b e (bitmap_serialize None class a c d 0, [])) as Hr.
    { unfold b, e. rewrite !bitmap_serialize_prefix. by apply prefix_range. }
    split_and!; [done|by destruct Hr|done].
Qed.
Lemma get_bitmap_holds db class a c :
  bitmap_clean db class a c →
  ∃ bm : gset Z, get_bitmap db class a c 0 = Ok (if decide (bm = ∅) then None else Some bm) ∧
    ∀ d, d ∈ bm ↔ fits 32 d ∧ bitmap_holds db class a c d.
Proof.
  intros (bm & Hbm & Hin)%bitmap_rows_holds. exists bm. split; [|done].
  unfold get_bitmap. by rewrite Hbm.
Qed.
End BitmapReads.

(** ** Stores whose bitmap subspaces hold bitmap keys only *)

Definition bitmap_subspaces : list Z :=
  [SUBSPACE_BITMAP_ID; SUBSPACE_BITMAP_TAG; SUBSPACE_BITMAP_TEXT].

Definition bitmap_key_ok (class : BitmapClass Z) (a c d : Z) : Prop :=
  bitmap_wf class ∧ fits 32 a ∧ is_byte c ∧ fits 32 d.

Definition bitmap_tidy `{KvStore DB} (db : DB) : Prop :=
  ∀ cf k v, cf ∈ bitmap_subspaces → kv_get db cf k = Some v →
    ∃ class a c d, bitmap_key_ok class a c d ∧ bitmap_subspace class = cf ∧
      k = bitmap_serialize None class a c d 0.

(** The classes whose keys cannot fall into the range of another bitmap. *)
Definition fixed_class (class : BitmapClass Z) : Prop :=
  match class with DocumentIds | Tag _ (TagId _) => True | _ => False end.

Lemma app_split {A} (l1 l2 k1 k2 : list A) :
  length l1 = length k1 → l1 ++ l2 = k1 ++ k2 → l1 = k1 ∧ l2 = k2.
Proof. intros Hl Heq. by apply app_inj_1 in Heq. Qed.

Section Tidy.
Context `{KvLaws DB} (db : DB) (Htidy : bitmap_tidy db).

Lemma documents_clean a c :
  fits 32 a → is_byte c → bitmap_clean db DocumentIds a c.
Proof using Htidy.
  intros Ha Hc k v Hk [Hb He]. cbn [fst] in *. rewrite bitmap_serialize_prefix in Hb, He.
  destruct (Htidy _ _ _ ltac:(by left) Hk) as (class & a' & c' & d & (_ & Ha' & Hc' & Hd) & Hsub & ->).
  destruct class as [|f [i|t]|f h]; try done. rewrite bitmap_serialize_prefix in Hb, He |- *.
  edestruct range_prefix as (q & Hq & _); [|exact Hb|exact He|];
    [by rewrite !length_app, !length_be_bytes; simpl; lia|].
  apply app_split in Hq as [Hp <-]; [|done]. exists d. split; [done|].
  by rewrite bitmap_serialize_prefix, Hp.
Qed.

(** The six bytes all tag keys start with. *)
Definition tag_head (class : BitmapClass Z) (a c : Z) : bytes :=
  be_bytes 4 a ++ [c] ++
  match class with Tag f (TagId _) => [f] | Tag f (TagText _) => [f .| BM_MARKER] | _ => [] end.

Definition tag_tail (class : BitmapClass Z) : bytes :=
  match class with Tag _ (TagId i) => write_loop 10 i | Tag _ (TagText t) => t | _ => [] end.

Lemma tag_prefix f v a c :
  bitmap_prefix (Tag f v) a c = tag_head (Tag f v) a c ++ tag_tail (Tag f v).
Proof using.
  unfold bitmap_prefix, tag_head, tag_tail, parts_bytes. destruct v; simpl;
    by rewrite ?app_nil_r.
Qed.

Lemma tag_id_clean f i a c :
  bitmap_wf (Tag f (TagId i)) → fits 32 a → is_byte c → bitmap_clean db (Tag f (TagId i)) a c.
Proof using Htidy.
  intros [Hf Hi] Ha Hc k v Hk [Hb He]. cbn [fst] in *.
  rewrite bitmap_serialize_prefix, tag_prefix, <- app_assoc in Hb, He.
  destruct (Htidy _ _ _ ltac:(by right; left) Hk)
    as (class & a' & c' & d & (Hwf & Ha' & Hc' & Hd) & Hsub & ->).
  destruct class as [|f' v'|f' h]; try done.
  rewrite bitmap_serialize_prefix, tag_prefix, <- app_assoc in Hb, He.
  assert (length (tag_head (Tag f (TagId i)) a c) = length (tag_head (Tag f' v') a' c')) as Hlen
    by (by destruct v').
  edestruct range_prefix as (q & Hq & Hql & Hqh); [|exact Hb|exact He|];
    [rewrite !length_app; lia|].
  apply app_split in Hq as [Hhead <-]; [|done].
  destruct v' as [i'|t].
  2: { exfalso. unfold tag_head in Hhead. apply app_split in Hhead as [_ Hhead]; [|done].
       simpl in Hwf. rewrite marked_field in Hhead by done. simplify_eq/=. lia. }
  destruct Hwf as [Hf' Hi']. simpl (tag_tail _) in Hql, Hqh.
  pose proof (write_loop_nonempty 9 i') as Hne.
  assert (length (write_loop 10 i) ≤ 5)%nat as Hle by (apply write_loop_length; [lia|width]).
  edestruct range_prefix as (q & Hq & _); [|exact Hql|exact Hqh|];
    [rewrite length_app, length_be_bytes; lia|].
  pose proof (next_leb128_write (L := leb_u32) i' (be_bytes 4 d) Hi') as Hread.
  rewrite Hq, (next_leb128_write (L := leb_u32) i q Hi) in Hread.
  injection Hread as -> ->.
  exists d. split; [done|]. rewrite !bitmap_serialize_prefix, !tag_prefix. by rewrite Hhead.
Qed.

Lemma fixed_clean class a c :
  fixed_class class → bitmap_wf class → fits 32 a → is_byte c → bitmap_clean db class a c.
Proof using Htidy.
  destruct class as [|f [i|t]|f h]; try done; intros _.
  - intros _. apply documents_clean.
  - apply tag_id_clean.
Qed.
End Tidy.

(** ** Counters *)

Section Purge.
Context `{KvLaws DB}.

Definition counter_ok (l : bytes) : Prop := length l = 8%nat ∧ bytes_ok l.

Definition counters_ok (cf : Z) (db : DB) : Prop :=
  ∀ k v, kv_get db cf k = Some v → counter_ok v.

Lemma from_be_zero l : bytes_ok l → from_be l = 0 ↔ l = replicate (length l) 0.
Proof using.
  intros Hl. induction Hl as [|b l Hb Hl IH]; [done|]. rewrite from_be_cons.
  pose proof (from_be_bound l Hl). unfold is_byte, fits in Hb. simpl. split.
  - intros Hz. assert (0 < 256 ^ Z.of_nat (length l)) by lia.
    assert (b = 0) as -> by nia. f_equal. apply IH. lia.
  - intros [= -> Hr]. apply IH in Hr. lia.
Qed.

Lemma i64_zero z : fits 64 z → i64 z = 0 ↔ z = 0.
Proof using.
  intros Hz. unfold i64, fits in *. destruct (Z.lt_ge_cases z (2 ^ 63)).
  - rewrite Z.mod_small by lia. lia.
  - assert ((z + 2 ^ 63) mod 2 ^ 64 = z + 2 ^ 63 - 2 ^ 64) as ->; [|lia].
    symmetry. apply (Z.mod_unique _ _ 1); lia.
Qed.

(** A stored counter is zero in either byte order. *)
Lemma counter_zero l :
  counter_ok l → i64_deserialize l = Ok (i64 (from_be l)) ∧
  (i64 (from_be l) = 0 ↔ deserialize_i64_le l = Ok 0).
Proof using.
  intros [Hl Hb]. unfold i64_deserialize, deserialize_i64_le, i64_from_le_bytes. rewrite Hl.
  split; [done|]. cbn [ok_or Nat.eqb].
  assert (bytes_ok (reverse l)) as Hr by (by apply Forall_reverse).
  pose proof (from_be_bound l Hb) as B1. pose proof (from_be_bound _ Hr) as B2.
  rewrite length_reverse, Hl in B2. rewrite Hl in B1. unfold from_le.
  trans (from_be l = 0); [by apply i64_zero|]. rewrite from_be_zero by done.
  trans (from_be (reverse l) = 0).
  - rewrite from_be_zero, length_reverse by done. split; intros Heq.
    + rewrite Heq at 1. by rewrite reverse_replicate.
    + apply (f_equal reverse) in Heq. by rewrite reverse_involutive, reverse_replicate in Heq.
  - rewrite <- i64_zero by (unfold fits; lia). split; [by intros ->|by intros [= ->]].
Qed.

Lemma zero_keys_spec rows :
  Forall (λ r, counter_ok r.2) rows →
  zero_keys rows = Ok (filter (λ r : Row, i64 (from_be r.2) = 0) rows).*1.
Proof using.
  induction 1 as [|[k v] rows Hv Hrows IH]; [done|]. cbn [zero_keys fst snd] in *.
  destruct (counter_zero v Hv) as [-> _]. rewrite IH. destruct (decide (i64 (from_be v) = 0)) as [Hz|Hz].
  - rewrite filter_cons_True by done. cbn. by rewrite Hz.
  - rewrite filter_cons_False by done. cbn. by rewrite (proj2 (Z.eqb_neq _ _) Hz).
Qed.

(** [db'] is [db] less some of its zero counters. *)
Definition purged (cf : Z) (db db' : DB) : Prop :=
  ∀ cf' k, kv_get db' cf' k = kv_get db cf' k ∨
    (cf' = cf ∧ kv_get db' cf' k = None ∧
     ∃ v, kv_get db cf' k = Some v ∧ i64_deserialize v = Ok 0).

Lemma purge_key_purged cf db k :
  purged cf db (purge_key cf db k) ∧
  (∀ v, kv_get db cf k = Some v → i64_deserialize v = Ok 0 →
    kv_get (purge_key cf db k) cf k = None).
Proof.
  unfold purge_key, purged. destruct (kv_get db cf k) as [v|] eqn:Hk; [|split; [by left|done]].
  destruct (i64_deserialize v) as [z|e] eqn:Hv; [|split; [by left|intros v' [= <-]; congruence]].
  destruct (Z.eqb_spec z 0) as [->|Hz]; [|split; [by left|intros v' [= <-]; congruence]].
  split.
  - intros cf' k'. rewrite kv_get_delete. case_decide as Hd; [|by left].
    destruct Hd as [-> ->]. right. split_and!; [done..|by exists v].
  - intros _ _ _. by rewrite kv_get_delete, decide_True.
Qed.

Lemma purge_keys_purged cf keys db :
  purged cf db (foldl (purge_key cf) db keys) ∧
  (∀ k v, k ∈ keys → kv_get db cf k = Some v → i64_deserialize v = Ok 0 →
    kv_get (foldl (purge_key cf) db keys) cf k = None).
Proof.
  revert db. induction keys as [|k keys IH]; intros db; cbn [foldl].
  { split; [intros cf' k'; by left|by intros k' v' ?%not_elem_of_nil]. }
  destruct (purge_key_purged cf db k) as [H1 H1']. destruct (IH (purge_key cf db k)) as [H2 H2'].
  split.
  - intros cf' k'. destruct (H2 cf' k') as [->|(-> & -> & v & Hv & Hz)]; [apply H1|].
    right. split_and!; [done..|]. exists v. split; [|done].
    destruct (H1 cf k') as [<-|(_ & Hn & _)]; [done|congruence].
  - intros k' v [->|Hin]%elem_of_cons Hk Hz.
    + destruct (H2 cf k) as [->|(_ & -> & _)]; [|done]. by apply (H1' v).
    + destruct (H1 cf k') as [Heq|(_ & Hn & _)].
      * apply (H2' k' v); [done| |done]. by rewrite Heq.
      * destruct (H2 cf k') as [->|(_ & -> & _)]; done.
Qed.

Lemma purge_counters_spec cf db :
  counters_ok cf db →
  ∃ db', purge_counters cf db = Ok db' ∧ purged cf db db' ∧
    ∀ k v, kv_get db' cf k = Some v → deserialize_i64_le v ≠ Ok 0.
Proof.
  intros Hok. unfold purge_counters. rewrite zero_keys_spec.
  2: { apply Forall_forall. intros [k v] Hin%kv_scan_get. by apply (Hok k). }
  eexists. split; [reflexivity|].
  destruct (purge_keys_purged cf
    (filter (λ r : Row, i64 (from_be r.2) = 0) (kv_scan db cf)).*1 db) as [Hp Hall].
  split; [done|]. intros k v Hk Hz.
  destruct (Hp cf k) as [Heq|(_ & Hn & _)]; [|congruence]. rewrite Hk in Heq. symmetry in Heq.
  destruct (counter_zero v (Hok k v Heq)) as [Hd Hiff]. apply Hiff in Hz.
  rewrite (Hall k v) in Hk; [done| |done|congruence].
  apply list_elem_of_fmap. exists (k, v). split; [done|]. apply list_elem_of_filter.
  by rewrite kv_scan_get.
Qed.

(** Purged counters read as before. *)
Lemma purged_counter cf db db' class a c d :
  counters_ok cf db → purged cf db db' →
  get_counter db' class a c d = get_counter db class a c d.
Proof.
  intros Hok Hp. unfold get_counter, counter_at.
  destruct (Hp (value_subspace class c) (value_serialize None class a c d 0))
    as [->|(Hcf & -> & v & Hv & Hz)]; [done|].
  rewrite Hv. rewrite Hcf in Hv. destruct (counter_zero v (Hok _ _ Hv)) as [Hd Hiff].
  rewrite Hd in Hz. injection Hz as Hz. symmetry. by apply Hiff.
Qed.
End Purge.

(** ** Properties *)

(** C36.  Reading a bitmap of document ids or of a numbered tag returns exactly
    the documents whose keys the store holds; the keys of other bitmaps that lie
    near it neither cut the scan short nor slip into the result. *)
Theorem bitmap_read_exact `{KvLaws DB} (db : DB) (class : BitmapClass Z) (a c : Z)
    (Htidy : bitmap_tidy db) (Hclass : fixed_class class) (Hwf : bitmap_wf class)
    (Ha : fits 32 a) (Hc : is_byte c) :
  ∃ bm : gset Z, get_bitmap db class a c 0 = Ok (if decide (bm = ∅) then None else Some bm) ∧
    ∀ d, d ∈ bm ↔ fits 32 d ∧
      is_Some (kv_get db (bitmap_subspace class) (bitmap_serialize None class a c d 0)).
Proof. apply get_bitmap_holds. by apply fixed_clean. Qed.

Definition example_store (keys : list (BitmapClass Z * (Z * Z * Z))) : MapStore.DB :=
  foldr (λ k db, kv_put (bitmap_subspace k.1)
    (bitmap_serialize None k.1 k.2.1.1 k.2.1.2 k.2.2 0) [] db) ∅ keys.

Lemma example_store_tidy keys :
  Forall (λ k, bitmap_key_ok k.1 k.2.1.1 k.2.1.2 k.2.2) keys → bitmap_tidy (example_store keys).
Proof.
  induction 1 as [|[class [[a c] d]] keys Hk Hkeys IH]; intros cf k v Hcf Hv; [done|].
  cbn [example_store foldr fst snd] in *.
  rewrite (kv_get_put (DB := MapStore.DB)) in Hv. case_decide as Hd; [|by apply (IH cf k v)].
  destruct Hd as [-> ->]. by exists class, a, c, d.
Qed.

Definition two_tags : MapStore.DB :=
  example_store [(Tag 5 (TagId 1), (3, 1, 7)); (Tag 5 (TagId 300), (3, 1, 8))].

Lemma bitmap_read_exact_witness :
  ∃ bm : gset Z, get_bitmap two_tags (Tag 5 (TagId 1)) 3 1 0
                 = Ok (if decide (bm = ∅) then None else Some bm) ∧ 7 ∈ bm ∧ 8 ∉ bm.
Proof.
  destruct (bitmap_read_exact two_tags (Tag 5 (TagId 1)) 3 1) as (bm & Hbm & Hin);
    [|done|split; concrete|concrete|concrete|].
  - apply example_store_tidy. repeat constructor; concrete.
  - exists bm. split; [exact Hbm|]. split.
    + apply Hin. split; [concrete|]. exists []. vm_compute. reflexivity.
    + intros Hn%Hin. destruct Hn as [_ [v Hv]]. vm_compute in Hv. discriminate.
Defined.

(**  The scan of a text tag stops at the first key of another length: in a
    store that holds the tag "a" for a document with a large id and the tag "ab"
    for another document, the bitmap of "a" is read as empty. *)
Theorem text_tag_missed :
  ∃ (db : MapStore.DB) (a c f d : Z),
    bitmap_tidy db ∧
    is_Some (kv_get db SUBSPACE_BITMAP_TAG
               (bitmap_serialize None (Tag f (TagText (str "a"))) a c d 0)) ∧
    get_bitmap db (Tag f (TagText (str "a"))) a c 0 = Ok None.
Proof.
  exists (example_store [(Tag 5 (TagText (str "a")), (3, 1, 1879048192));
                         (Tag 5 (TagText (str "ab")), (3, 1, 0))]), 3, 1, 5, 1879048192.
  split; [|split].
  - apply example_store_tidy. repeat constructor; concrete.
  - exists []. vm_compute. reflexivity.
  - vm_compute. reflexivity.
Qed.

(** C37.  Deleting a range removes the rows from its first key up to, and
    without, its last one, and leaves every other row of the store alone. *)
Theorem delete_range_exact `{KvLaws DB} (subspace : Z) (from to : bytes) (db : DB) (cf : Z) (k : bytes) :
  kv_get (delete_range subspace from to db) cf k
  = if decide (cf = subspace ∧ bytes_le from k ∧ bytes_lt k to) then None else kv_get db cf k.
Proof. apply delete_range_get. Qed.

Lemma delete_range_exact_witness :
  kv_get (delete_range 1 [5] [6] (kv_put 1 [5; 7] [] (kv_put 1 [6] [] ∅) : MapStore.DB)) 1 [5; 7] = None ∧
  kv_get (delete_range 1 [5] [6] (kv_put 1 [5; 7] [] (kv_put 1 [6] [] ∅) : MapStore.DB)) 1 [6] = Some [].
Proof.
  split.
  - rewrite (delete_range_exact 1 [5] [6] (kv_put 1 [5; 7] [] (kv_put 1 [6] [] ∅) : MapStore.DB)).
    vm_compute. reflexivity.
  - rewrite (delete_range_exact 1 [5] [6] (kv_put 1 [5; 7] [] (kv_put 1 [6] [] ∅) : MapStore.DB)).
    vm_compute. reflexivity.
Defined.

(**  Purging the store succeeds when the counters are eight bytes long; no
    counter that is zero remains, and every counter reads as it did before. *)
Theorem purge_store_keeps_counters `{KvLaws DB} (db : DB)
    (Hquota : counters_ok SUBSPACE_QUOTA db) (Hcounter : counters_ok SUBSPACE_COUNTER db) :
  ∃ db', backend_purge_store db = (Ok (), db') ∧
    (∀ class a c d, get_counter db' class a c d = get_counter db class a c d) ∧
    (∀ cf k v, cf = SUBSPACE_QUOTA ∨ cf = SUBSPACE_COUNTER → kv_get db' cf k = Some v →
      deserialize_i64_le v ≠ Ok 0).
Proof.
  destruct (purge_counters_spec _ db Hquota) as (db1 & E1 & P1 & N1).
  assert (counters_ok SUBSPACE_COUNTER db1) as Hc1.
  { intros k v Hk. destruct (P1 SUBSPACE_COUNTER k) as [Heq|(? & _)]; [|done].
    apply (Hcounter k). by rewrite <- Heq. }
  destruct (purge_counters_spec _ db1 Hc1) as (db2 & E2 & P2 & N2).
  exists db2. unfold backend_purge_store. rewrite E1, E2. split; [done|]. split.
  - intros class a c d. rewrite (purged_counter _ _ _ _ _ _ _ Hc1 P2).
    by apply (purged_counter SUBSPACE_QUOTA).
  - intros cf k v [->| ->] Hk; [|by apply (N2 k)].
    destruct (P2 SUBSPACE_QUOTA k) as [Heq|(? & _)]; [|done]. apply (N1 k). by rewrite <- Heq.
Qed.

Lemma purge_store_keeps_counters_witness :
  ∃ db', backend_purge_store (<[(SUBSPACE_QUOTA, [1]) := replicate 8 0]> ∅ : MapStore.DB)
         = (Ok (), db') ∧
    ∀ v, kv_get db' SUBSPACE_QUOTA [1] = Some v → deserialize_i64_le v ≠ Ok 0.
Proof.
  destruct (purge_store_keeps_counters (<[(SUBSPACE_QUOTA, [1]) := replicate 8 0]> ∅ : MapStore.DB))
    as (db' & Hdb & _ & Hz).
  - intros k v Hk. cbn [kv_get MapStore.map_store] in Hk. apply lookup_insert_Some in Hk as [[_ <-]|[_ Hk]]; [|done].
    split; [done|repeat constructor; concrete].
  - intros k v Hk. cbn [kv_get MapStore.map_store] in Hk. apply lookup_insert_Some in Hk as [[? _]|[_ Hk]]; done.
  - exists db'. split; [exact Hdb|]. intros v. apply (Hz SUBSPACE_QUOTA [1]). by left.
Defined.
