(* ===== verification/StorePurge.v ===== *)
(** * Purging: expired reports and deleted accounts

    crates/store/src/dispatch/store.rs: [Store::purge_store] and
    [Store::purge_account], which delete ranges of keys. *)

From S2P Require Import Prelude Leb128 StoreKeys KvStore.

#[local] Opaque write_loop.

Section Purge.
Context `{KvStore DB}.

(** [self.delete_range] of two value keys; the subspace is that of the first. *)
Definition delete_values (from to : ValueClass Z) (account_from account_to collection doc_from doc_to : Z)
    : DB → DB :=
  delete_range (value_subspace from collection)
    (value_serialize None from account_from collection doc_from 0)
    (value_serialize None to account_to collection doc_to 0).

(** The rows of an account in a subspace whose keys start with the account. *)
Definition delete_account_rows (account_id : Z) (db : DB) (subspace : Z) : DB :=
  delete_range subspace
    (any_key_serialize {| ak_subspace := subspace;
       ak_key := ks_finalize (ks_write key_serializer_new (U32 account_id)) |} 0)
    (any_key_serialize {| ak_subspace := subspace;
       ak_key := ks_finalize (ks_write key_serializer_new (U32 (wrap 32 (account_id + 1)))) |} 0)
    db.

Definition FTS_FIRST : BitmapHash := {| bh_hash := replicate 8 0; bh_len := 0 |}.
Definition FTS_LAST : BitmapHash := {| bh_hash := replicate 8 u8_max; bh_len := u8_max |}.

Definition purge_account (account_id : Z) (db : DB) : DB :=
  let next := wrap 32 (account_id + 1) in
  let db := foldl (delete_account_rows account_id) db
    [SUBSPACE_BITMAP_ID; SUBSPACE_BITMAP_TAG; SUBSPACE_BITMAP_TEXT; SUBSPACE_LOGS; SUBSPACE_INDEXES] in
  let db := delete_values (Acl account_id) (Acl next) account_id next 0 0 0 db in
  let db := delete_values (Property 0) (Property 0) account_id next 0 0 0 db in
  let db := delete_values (FtsIndex FTS_FIRST) (FtsIndex FTS_LAST) account_id next 0 0 0 db in
  delete_values (Property 84) (Property 84) account_id account_id 1 0 u32_max db.

(** [ValueKey::from(ValueClass::Report(..))]: no account, collection or document. *)
Definition delete_reports (first last : ReportClass) : DB → DB :=
  delete_values (Report first) (Report last) 0 0 0 0 0.

Definition purge_store (now : Z) (db : DB) : result StoreError () * DB :=
  let db := delete_reports (ReportDmarc 0 0) (ReportDmarc u64_max now) db in
  let db := delete_reports (ReportTls 0 0) (ReportTls u64_max now) db in
  let db := delete_reports (ReportArf 0 0) (ReportArf u64_max now) db in
  backend_purge_store db.
End Purge.

(** ** Ranges of keys that start with a number *)

Lemma be_prefix_le n a x l k :
  fits (8 * Z.of_nat n) a → fits (8 * Z.of_nat n) x →
  bytes_le (be_bytes n a ++ l) (be_bytes n x ++ k) ↔ a < x ∨ a = x ∧ bytes_le l k.
Proof.
  intros Ha Hx. unfold bytes_le.
  rewrite bytes_compare_app, be_bytes_compare by (done || by rewrite !length_be_bytes).
  destruct (Z.compare_spec a x); intuition (lia || congruence).
Qed.

Lemma be_prefix_lt n a x l k :
  fits (8 * Z.of_nat n) a → fits (8 * Z.of_nat n) x →
  bytes_lt (be_bytes n x ++ k) (be_bytes n a ++ l) ↔ x < a ∨ x = a ∧ bytes_lt k l.
Proof.
  intros Ha Hx. unfold bytes_lt.
  rewrite bytes_compare_app, be_bytes_compare by (done || by rewrite !length_be_bytes).
  destruct (Z.compare_spec x a); intuition (lia || congruence).
Qed.

Lemma be_le n a x :
  fits (8 * Z.of_nat n) a → fits (8 * Z.of_nat n) x →
  bytes_le (be_bytes n a) (be_bytes n x) ↔ a ≤ x.
Proof. intros Ha Hx. unfold bytes_le. by rewrite be_bytes_compare. Qed.

Lemma be_lt n a x :
  fits (8 * Z.of_nat n) a → fits (8 * Z.of_nat n) x →
  bytes_lt (be_bytes n x) (be_bytes n a) ↔ x < a.
Proof. intros Ha Hx. unfold bytes_lt. by rewrite be_bytes_compare. Qed.

Lemma any_key_bytes k : any_key_serialize k 0 = ak_key k.
Proof.
  unfold any_key_serialize, ks_finalize. rewrite !ks_chain_bytes. cbn. apply app_nil_r.
Qed.

Lemma bytes_le_nil l : bytes_le [] l.
Proof. by destruct l. Qed.

Lemma bytes_lt_nil l : ¬ bytes_lt l [].
Proof. by destruct l. Qed.

Lemma byte_prefix_le a x l k : bytes_le (a :: l) (x :: k) ↔ a < x ∨ a = x ∧ bytes_le l k.
Proof.
  unfold bytes_le. cbn [bytes_compare]. destruct (Z.compare_spec a x); intuition (lia || congruence).
Qed.

Lemma byte_prefix_lt a x l k : bytes_lt (x :: k) (a :: l) ↔ x < a ∨ x = a ∧ bytes_lt k l.
Proof.
  unfold bytes_lt. cbn [bytes_compare]. destruct (Z.compare_spec x a); intuition (lia || congruence).
Qed.

(** Zeros come before any string of bytes that is not shorter. *)
Lemma zeros_le n l : (n ≤ length l)%nat → bytes_ok l → bytes_le (replicate n 0) l.
Proof.
  revert l. induction n as [|n IH]; intros [|b l] Hl Hb; simpl in *; try lia;
    [apply bytes_le_nil..|].
  inversion Hb as [|? ? Hb1 Hb2]; subst. apply byte_prefix_le. unfold is_byte, fits in Hb1.
  destruct (decide (b = 0)) as [->|]; [right|left; lia]. split; [done|]. apply IH; [lia|done].
Qed.

(** ** What a purge removes *)

Section PurgeAccount.
Context `{KvLaws DB} (a : Z) (Ha : 0 ≤ a < u32_max).

Lemma next_account : wrap 32 (a + 1) = a + 1.
Proof. apply wrap_id. unfold fits. change u32_max with (2 ^ 32 - 1) in Ha. lia. Qed.

Lemma account_fits : fits 32 a ∧ fits 32 (a + 1).
Proof. unfold fits. change u32_max with (2 ^ 32 - 1) in Ha. lia. Qed.

Lemma account_rows_get db subspace cf x rest :
  fits 32 x →
  kv_get (delete_account_rows a db subspace) cf (be_bytes 4 x ++ rest)
  = if decide (cf = subspace ∧ x = a) then None else kv_get db cf (be_bytes 4 x ++ rest).
Proof.
  intros Hx. unfold delete_account_rows. rewrite delete_range_get, next_account.
  destruct account_fits as [Hfa Hfb].
  rewrite !any_key_bytes. cbn [ak_key]. change (ks_finalize (ks_write _ (U32 ?x))) with (be_bytes 4 x).
  rewrite <- (app_nil_r (be_bytes 4 a)), <- (app_nil_r (be_bytes 4 (a + 1))).
  rewrite (decide_ext _ (cf = subspace ∧ x = a)); [done|].
  rewrite be_prefix_le, be_prefix_lt by done. split.
  - intros (-> & H1 & [H2|[_ []%bytes_lt_nil]]). lia.
  - intros [-> ->]. split_and!; [done| |by left; lia]. right. split; [done|apply bytes_le_nil].
Qed.

Lemma value_bytes (class : ValueClass Z) x c d :
  value_serialize None class x c d 0 = parts_bytes (value_parts None class x c d).
Proof. by rewrite value_serialize_bytes. Qed.

Lemma delete_values_get (from to : ValueClass Z) x1 x2 c d1 d2 db cf k :
  kv_get (delete_values from to x1 x2 c d1 d2 db) cf k
  = if decide (cf = value_subspace from c ∧
               bytes_le (parts_bytes (value_parts None from x1 c d1)) k ∧
               bytes_lt k (parts_bytes (value_parts None to x2 c d2)))
    then None else kv_get db cf k.
Proof. unfold delete_values. by rewrite delete_range_get, !value_bytes. Qed.

(** Rows of a subspace that the value ranges do not touch. *)
Lemma purge_account_fixed db cf x rest :
  fits 32 x →
  cf ∈ [SUBSPACE_BITMAP_ID; SUBSPACE_BITMAP_TAG; SUBSPACE_BITMAP_TEXT; SUBSPACE_LOGS; SUBSPACE_INDEXES] →
  kv_get (purge_account a db) cf (be_bytes 4 x ++ rest)
  = if decide (x = a) then None else kv_get db cf (be_bytes 4 x ++ rest).
Proof.
  intros Hx Hcf. unfold purge_account. cbn [foldl].
  rewrite !delete_values_get, !account_rows_get by done.
  destruct (decide (x = a)) as [->|Hne].
  - rewrite !elem_of_cons, elem_of_nil in Hcf.
    destruct Hcf as [->|[->|[->|[->|[->|[]]]]]];
      repeat (rewrite decide_False by (intros [? _]; done)); by rewrite decide_True.
  - repeat (rewrite (decide_False (P := _ ∧ x = a)) by (by intros [_ ?])).
    rewrite !elem_of_cons, elem_of_nil in Hcf.
    destruct Hcf as [->|[->|[->|[->|[->|[]]]]]];
      by repeat (rewrite decide_False by (intros [? _]; done)).
Qed.

(** Rows of the other subspaces: the value ranges decide. *)
Lemma purge_account_values db cf k :
  cf ∉ [SUBSPACE_BITMAP_ID; SUBSPACE_BITMAP_TAG; SUBSPACE_BITMAP_TEXT; SUBSPACE_LOGS; SUBSPACE_INDEXES] →
  kv_get (foldl (delete_account_rows a) db
    [SUBSPACE_BITMAP_ID; SUBSPACE_BITMAP_TAG; SUBSPACE_BITMAP_TEXT; SUBSPACE_LOGS; SUBSPACE_INDEXES]) cf k
  = kv_get db cf k.
Proof.
  intros Hcf. rewrite !elem_of_cons in Hcf. cbn [foldl]. unfold delete_account_rows.
  rewrite !delete_range_get. by repeat (rewrite decide_False by tauto).
Qed.

Lemma property_range x c f d :
  fits 32 x → is_byte c → is_byte f →
  bytes_le (parts_bytes (value_parts None (Property (T := Z) 0) a 0 0))
    (parts_bytes (value_parts None (Property (T := Z) f) x c d)) ∧
  bytes_lt (parts_bytes (value_parts None (Property (T := Z) f) x c d))
    (parts_bytes (value_parts None (Property (T := Z) 0) (a + 1) 0 0)) ↔ x = a.
Proof.
  intros Hx Hc Hf. destruct account_fits as [Hfa Hfb].
  assert (bytes_le (replicate 6 0) (c :: f :: be_bytes 4 d)) as Hz.
  { apply zeros_le; [done|]. do 2 (apply Forall_cons; split; [done|]). apply be_bytes_ok. }
  change (parts_bytes (value_parts None (Property (T := Z) ?f) ?x ?c ?d))
    with (be_bytes 4 x ++ c :: f :: be_bytes 4 d ++ []).
  rewrite app_nil_r, be_prefix_le, be_prefix_lt by done.
  change (0 :: 0 :: be_bytes 4 0 ++ []) with (replicate 6 0). split.
  - intros [H1 [H2|[_ H2]]]; [lia|]. apply bytes_not_le in H2. done.
  - intros ->. split; [by right|left; lia].
Qed.
End PurgeAccount.

Section PurgeRanges.
Context `{KvLaws DB} (a : Z) (Ha : 0 ≤ a < u32_max).

Ltac other_subspaces :=
  repeat (rewrite decide_False by (intros [? _]; done)).

Lemma purge_property db f x c d :
  fits 32 x → is_byte c → is_byte f → f ≠ 84 ∨ c ≠ 1 →
  kv_get (purge_account a db) SUBSPACE_PROPERTY (value_serialize (T := Z) None (Property f) x c d 0)
  = if decide (x = a) then None
    else kv_get db SUBSPACE_PROPERTY (value_serialize (T := Z) None (Property f) x c d 0).
Proof.
  intros Hx Hc Hf Hfc. unfold purge_account. rewrite !delete_values_get, next_account by done.
  rewrite (purge_account_values a Ha) by (apply (bool_decide_unpack _); by vm_compute).
  rewrite value_bytes. other_subspaces.
  rewrite (decide_ext _ (x = a)); [|by rewrite <- (property_range a Ha x c f d); intuition].
  by case_decide; other_subspaces.
Qed.

(** The suffix of an index row and the bounds of the range. *)
Definition fts_suffix (h : BitmapHash) (c d : Z) : bytes :=
  parts_bytes (hash_parts h ++ [U8 c; U32 d]).

Lemma fts_bytes h x c d :
  parts_bytes (value_parts None (FtsIndex (T := Z) h) x c d) = be_bytes 4 x ++ fts_suffix h c d.
Proof. done. Qed.

Lemma fts_suffix_ok h c d :
  bytes_ok (bh_hash h) → is_byte (bh_len h) → is_byte c → bytes_ok (fts_suffix h c d).
Proof.
  intros Hh Hl Hc. unfold fts_suffix, hash_parts. rewrite parts_bytes_app. apply Forall_app. split.
  - change (parts_bytes (Raw ?l :: ?r)) with (l ++ parts_bytes r). apply Forall_app. split.
    + by apply Forall_take.
    + destruct (8 <=? bh_len h); [|constructor]. by apply Forall_singleton.
  - apply Forall_cons. split; [done|]. apply Forall_app. split; [apply be_bytes_ok|constructor].
Qed.

Lemma fts_suffix_length h c d : (5 ≤ length (fts_suffix h c d))%nat.
Proof.
  unfold fts_suffix. rewrite parts_bytes_app, length_app.
  change (length (parts_bytes [U8 c; U32 d])) with 5%nat. lia.
Qed.

(** A token whose first byte is below 255, as that of any text. *)
Definition texty (h : BitmapHash) : Prop :=
  ∃ b t, bh_hash h = b :: t ∧ 0 ≤ b < u8_max ∧ 0 < bh_len h.

Lemma texty_below h c d : texty h → bytes_lt (fts_suffix h c d) (fts_suffix FTS_LAST 0 0).
Proof.
  intros (b & t & Hh & Hb & Hl). unfold fts_suffix, hash_parts. rewrite Hh.
  destruct (Z.to_nat (Z.min (bh_len h) 8)) as [|m] eqn:Hm; [lia|].
  change (parts_bytes ((Raw (take (S m) (b :: t)) :: ?l) ++ ?r))
    with ((b :: take m t) ++ parts_bytes (l ++ r)).
  cbn [app]. apply byte_prefix_lt. left. lia.
Qed.

Lemma purge_index db h x c d :
  fits 32 x → is_byte c → bytes_ok (bh_hash h) → is_byte (bh_len h) → texty h →
  kv_get (purge_account a db) SUBSPACE_FTS_INDEX (value_serialize (T := Z) None (FtsIndex h) x c d 0)
  = if decide (x = a ∨ x = a + 1) then None
    else kv_get db SUBSPACE_FTS_INDEX (value_serialize (T := Z) None (FtsIndex h) x c d 0).
Proof.
  intros Hx Hc Hh Hl Ht. unfold purge_account. rewrite !delete_values_get, next_account by done.
  rewrite (purge_account_values a Ha) by (apply (bool_decide_unpack _); by vm_compute).
  rewrite value_bytes, !fts_bytes. other_subspaces. destruct (account_fits a Ha) as [Hfa Hfb].
  rewrite (decide_ext _ (x = a ∨ x = a + 1)); [done|].
  rewrite be_prefix_le, be_prefix_lt by done.
  assert (bytes_le (fts_suffix FTS_FIRST 0 0) (fts_suffix h c d)) as Hz.
  { change (fts_suffix FTS_FIRST 0 0) with (replicate 5 0).
    apply zeros_le; [apply fts_suffix_length|by apply fts_suffix_ok]. }
  pose proof (texty_below h c d Ht) as Hlt. split.
  - intros (_ & H1 & H2). lia.
  - intros Hxa. split; [done|]. destruct Hxa as [->| ->].
    + split; [by right|left; lia].
    + split; [left; lia|by right].
Qed.

Lemma acl_bytes g x c d :
  parts_bytes (value_parts None (Acl (T := Z) g) x c d)
  = be_bytes 4 g ++ be_bytes 4 x ++ c :: be_bytes 4 d.
Proof. change (parts_bytes _) with (be_bytes 4 g ++ be_bytes 4 x ++ c :: be_bytes 4 d ++ []). by rewrite app_nil_r. Qed.

Lemma purge_acl db g x c d :
  fits 32 g → fits 32 x → is_byte c →
  kv_get (purge_account a db) SUBSPACE_ACL (value_serialize (T := Z) None (Acl g) x c d 0)
  = if decide (g = a ∧ a ≤ x ∨ g = a + 1 ∧ x ≤ a) then None
    else kv_get db SUBSPACE_ACL (value_serialize (T := Z) None (Acl g) x c d 0).
Proof.
  intros Hg Hx Hc. unfold purge_account. rewrite !delete_values_get, next_account by done.
  rewrite (purge_account_values a Ha) by (apply (bool_decide_unpack _); by vm_compute).
  rewrite value_bytes, !acl_bytes. other_subspaces. destruct (account_fits a Ha) as [Hfa Hfb].
  rewrite (decide_ext _ (g = a ∧ a ≤ x ∨ g = a + 1 ∧ x ≤ a)); [done|].
  rewrite !be_prefix_le, !be_prefix_lt by done.
  assert (bytes_le (0 :: be_bytes 4 0) (c :: be_bytes 4 d)) as Hz.
  { change (0 :: be_bytes 4 0) with (replicate 5 0). apply zeros_le; [done|].
    apply Forall_cons. split; [done|]. apply be_bytes_ok. }
  assert (¬ bytes_lt (c :: be_bytes 4 d) (0 :: be_bytes 4 0)) as Hnz
    by (by intros ?%bytes_not_le).
  split.
  - intros (_ & H1 & H2). destruct (decide (g = a)) as [->|Hne].
    + left. split; [done|]. destruct H1 as [?|[_ [?|[? _]]]]; lia.
    + destruct H2 as [H2|[-> H2]]; [destruct H1 as [?|[? _]]; lia|].
      right. split; [done|]. destruct H2 as [?|[_ ?]]; [lia|done].
  - intros [[-> Hle]|[-> Hle]].
    + split; [done|]. split; [|left; lia]. right. split; [done|].
      destruct (decide (a = x)) as [->|]; [by right|left; lia].
    + split; [done|]. split; [left; lia|]. right. split; [done|left; lia].
Qed.
End PurgeRanges.

Section PurgeReports.
Context `{KvLaws DB}.

Definition report_parts_of (r : ReportClass) : Z * Z * Z :=
  match r with
  | ReportTls id expires => (0, expires, id)
  | ReportDmarc id expires => (1, expires, id)
  | ReportArf id expires => (2, expires, id)
  end.

Definition report_expires (r : ReportClass) : Z := (report_parts_of r).1.2.
Definition report_id (r : ReportClass) : Z := (report_parts_of r).2.
Definition report_type (r : ReportClass) : Z := (report_parts_of r).1.1.

Lemma report_bytes r x c d :
  parts_bytes (value_parts None (Report (T := Z) r) x c d)
  = report_type r :: be_bytes 8 (report_expires r) ++ be_bytes 8 (report_id r).
Proof.
  destruct r; change (parts_bytes _) with
    (report_type r :: be_bytes 8 (report_expires r) ++ be_bytes 8 (report_id r) ++ []) ||
    cbn; by rewrite ?app_nil_r.
Qed.

Lemma report_range r now first last :
  fits 64 (report_expires r) → fits 64 (report_id r) → fits 64 now →
  report_type last = report_type first → report_expires last = now → report_id last = u64_max →
  report_expires first = 0 → report_id first = 0 →
  bytes_le (parts_bytes (value_parts None (Report (T := Z) first) 0 0 0))
    (parts_bytes (value_parts None (Report (T := Z) r) 0 0 0)) ∧
  bytes_lt (parts_bytes (value_parts None (Report (T := Z) r) 0 0 0))
    (parts_bytes (value_parts None (Report (T := Z) last) 0 0 0)) ↔
  report_type r = report_type first ∧
  (report_expires r < now ∨ report_expires r = now ∧ report_id r < u64_max).
Proof.
  intros He Hi Hn Hl1 Hl2 Hl3 Hf1 Hf2. rewrite !report_bytes, Hl1, Hl2, Hl3, Hf1, Hf2.
  rewrite byte_prefix_le, byte_prefix_lt.
  rewrite be_prefix_le, be_prefix_lt, be_le, be_lt by (done || width). unfold fits in *.
  change u64_max with (2 ^ 64 - 1) in *. intuition lia.
Qed.

Lemma delete_reports_get now first last db r :
  fits 64 (report_expires r) → fits 64 (report_id r) → fits 64 now →
  report_type last = report_type first → report_expires last = now → report_id last = u64_max →
  report_expires first = 0 → report_id first = 0 →
  kv_get (delete_reports first last db) SUBSPACE_REPORT_IN
    (value_serialize (T := Z) None (Report r) 0 0 0 0)
  = if decide (report_type r = report_type first ∧
               (report_expires r < now ∨ report_expires r = now ∧ report_id r < u64_max))
    then None
    else kv_get db SUBSPACE_REPORT_IN (value_serialize (T := Z) None (Report r) 0 0 0 0).
Proof.
  intros. unfold delete_reports. rewrite delete_values_get, value_bytes.
  erewrite decide_ext; [reflexivity|]. rewrite <- (report_range r now first last) by done.
  cbn [value_subspace]. tauto.
Qed.

Lemma backend_purge_other db cf k :
  cf ≠ SUBSPACE_QUOTA → cf ≠ SUBSPACE_COUNTER →
  kv_get (backend_purge_store db).2 cf k = kv_get db cf k.
Proof.
  intros Hq Hc. unfold backend_purge_store, purge_counters.
  destruct (zero_keys (kv_scan db SUBSPACE_QUOTA)) as [keys|e]; [|done]. cbn.
  set (db1 := foldl _ db keys).
  assert (kv_get db1 cf k = kv_get db cf k) as Heq.
  { destruct (purge_keys_purged SUBSPACE_QUOTA keys db) as [Hp _].
    by destruct (Hp cf k) as [?|[? _]]. }
  destruct (zero_keys (kv_scan db1 SUBSPACE_COUNTER)) as [keys'|e]; [|done]. cbn.
  destruct (purge_keys_purged SUBSPACE_COUNTER keys' db1) as [Hp _].
  destruct (Hp cf k) as [->|[? _]]; done.
Qed.
End PurgeReports.

(** ** Properties *)

(** C29.  Purging an account removes exactly its own rows from the bitmap, log,
    index and property subspaces; those of every other account stay. *)
Theorem purge_account_rows `{KvLaws DB} (db : DB) (a x c d : Z)
    (Ha : 0 ≤ a < u32_max) (Hx : fits 32 x) (Hc : is_byte c) :
  let kept cf k := kv_get (purge_account a db) cf k = if decide (x = a) then None else kv_get db cf k in
  (∀ class : BitmapClass Z, kept (bitmap_subspace class) (bitmap_serialize None class x c d 0)) ∧
  (∀ id, kept SUBSPACE_LOGS
     (log_key_serialize {| lk_account_id := x; lk_collection := c; lk_change_id := id |} 0)) ∧
  (∀ f key, kept SUBSPACE_INDEXES
     (index_key_serialize {| ik_account_id := x; ik_collection := c; ik_document_id := d;
                             ik_field := f; ik_key := key |} 0)) ∧
  (∀ f, is_byte f → f ≠ 84 ∨ c ≠ 1 →
     kept SUBSPACE_PROPERTY (value_serialize (T := Z) None (Property f) x c d 0)).
Proof.
  intros kept. split_and!.
  - intros class. unfold kept. rewrite bitmap_serialize_bytes. destruct class as [|f [i|t]|f h];
      apply purge_account_fixed; try done; apply (bool_decide_unpack _); by vm_compute.
  - intros id. apply purge_account_fixed; try done; apply (bool_decide_unpack _); by vm_compute.
  - intros f key. apply purge_account_fixed; try done; apply (bool_decide_unpack _); by vm_compute.
  - intros f Hf Hfc. by apply purge_property.
Qed.

Lemma purge_account_rows_witness :
  kv_get (purge_account 3 two_tags) SUBSPACE_BITMAP_TAG
    (bitmap_serialize None (Tag 5 (TagId 1)) 3 1 7 0) = None.
Proof.
  destruct (purge_account_rows two_tags 3 3 1 7) as [Hb _]; [concrete..|].
  apply (Hb (Tag 5 (TagId 1))).
Defined.

(**  The range purged from the full-text index ends inside the next
    account: the index rows of account [a] go, and with them the rows of account
    [a + 1] for every token that starts with a byte below 255. *)
Theorem purge_account_index_spill `{KvLaws DB} (db : DB) (h : BitmapHash) (a x c d : Z)
    (Ha : 0 ≤ a < u32_max) (Hx : fits 32 x) (Hc : is_byte c)
    (Hh : bytes_ok (bh_hash h)) (Hl : is_byte (bh_len h)) (Ht : texty h) :
  kv_get (purge_account a db) SUBSPACE_FTS_INDEX (value_serialize (T := Z) None (FtsIndex h) x c d 0)
  = if decide (x = a ∨ x = a + 1) then None
    else kv_get db SUBSPACE_FTS_INDEX (value_serialize (T := Z) None (FtsIndex h) x c d 0).
Proof. by apply purge_index. Qed.

Definition word_hash : BitmapHash := {| bh_hash := str "word" ++ [0; 0; 0; 0]; bh_len := 4 |}.

Definition neighbour_index : MapStore.DB :=
  kv_put SUBSPACE_FTS_INDEX (value_serialize (T := Z) None (FtsIndex word_hash) 8 0 1 0) [1] ∅.

Lemma purge_account_index_spill_witness :
  kv_get neighbour_index SUBSPACE_FTS_INDEX
    (value_serialize (T := Z) None (FtsIndex word_hash) 8 0 1 0) = Some [1] ∧
  kv_get (purge_account 7 neighbour_index) SUBSPACE_FTS_INDEX
    (value_serialize (T := Z) None (FtsIndex word_hash) 8 0 1 0) = None.
Proof.
  split; [by vm_compute|].
  apply (purge_account_index_spill neighbour_index word_hash 7 8 0 1); try concrete.
  - repeat constructor; concrete.
  - exists 119, (str "ord" ++ [0; 0; 0; 0]). split; [reflexivity|]. split; [concrete|concrete].
Defined.

(**  Of the access rights, stored under the account that was granted them
    and then the account that owns the item, purging [a] removes the rights that
    [a] holds in accounts from [a] on and the rights that [a + 1] holds in
    accounts up to [a]; the rights of [a] in lower-numbered accounts stay. *)
Theorem purge_account_acl `{KvLaws DB} (db : DB) (a grantee owner c d : Z)
    (Ha : 0 ≤ a < u32_max) (Hg : fits 32 grantee) (Ho : fits 32 owner) (Hc : is_byte c) :
  kv_get (purge_account a db) SUBSPACE_ACL (value_serialize (T := Z) None (Acl grantee) owner c d 0)
  = if decide (grantee = a ∧ a ≤ owner ∨ grantee = a + 1 ∧ owner ≤ a) then None
    else kv_get db SUBSPACE_ACL (value_serialize (T := Z) None (Acl grantee) owner c d 0).
Proof. by apply purge_acl. Qed.

Definition two_grants : MapStore.DB :=
  kv_put SUBSPACE_ACL (value_serialize (T := Z) None (Acl 7) 2 0 1 0) [1]
    (kv_put SUBSPACE_ACL (value_serialize (T := Z) None (Acl 8) 2 0 1 0) [1] ∅).

Lemma purge_account_acl_witness :
  kv_get (purge_account 7 two_grants) SUBSPACE_ACL (value_serialize (T := Z) None (Acl 7) 2 0 1 0)
  = Some [1] ∧
  kv_get (purge_account 7 two_grants) SUBSPACE_ACL (value_serialize (T := Z) None (Acl 8) 2 0 1 0)
  = None.
Proof.
  split.
  - rewrite (purge_account_acl two_grants 7 7 2 0 1) by concrete. by vm_compute.
  - rewrite (purge_account_acl two_grants 7 8 2 0 1) by concrete. by vm_compute.
Defined.

(**  Purging the store removes the incoming reports that have expired, of
    all three kinds, and keeps the others. *)
Theorem purge_store_reports `{KvLaws DB} (db : DB) (now : Z) (r : ReportClass)
    (Hn : fits 64 now) (He : fits 64 (report_expires r)) (Hi : fits 64 (report_id r)) :
  let key := value_serialize (T := Z) None (Report r) 0 0 0 0 in
  kv_get (purge_store now db).2 SUBSPACE_REPORT_IN key
  = if decide (report_expires r < now ∨ report_expires r = now ∧ report_id r < u64_max)
    then None else kv_get db SUBSPACE_REPORT_IN key.
Proof.
  intros key. unfold purge_store. rewrite backend_purge_other by done.
  unfold key. rewrite !(delete_reports_get now) by done.
  cbn [report_type report_parts_of fst].
  assert (report_type r = 0 ∨ report_type r = 1 ∨ report_type r = 2) as Ht by (destruct r; tauto).
  repeat case_decide; tauto || (exfalso; tauto).
Qed.

Definition one_report : MapStore.DB :=
  kv_put SUBSPACE_REPORT_IN (value_serialize (T := Z) None (Report (ReportTls 1 50)) 0 0 0 0) [1] ∅.

Lemma purge_store_reports_witness :
  kv_get (purge_store 60 one_report).2 SUBSPACE_REPORT_IN
    (value_serialize (T := Z) None (Report (ReportTls 1 50)) 0 0 0 0) = None.
Proof.
  rewrite (purge_store_reports one_report 60 (ReportTls 1 50)) by concrete. by vm_compute.
Defined.
