(* ===== verification/StoreTxn.v ===== *)
(** * Batches and transactions

    crates/store/src: the operations and builders of write/mod.rs, write/batch.rs
    and write/assert.rs, and the transaction of backend/rocksdb/write.rs.  The
    transaction works on a copy of the database that the engine installs when it
    commits; random numbers and the xxh3 hash are parameters. *)

From stdpp Require Import sorting.
From S2P Require Import Prelude Leb128 StoreKeys KvStore.

#[local] Opaque write_loop.

(** ** Operations *)

(** A value may depend on the document ids that the transaction assigns: the
    source boxes a [SerializeWithId]. *)
Inductive MaybeDynamicValue :=
| StaticValue (value : bytes)
| DynamicValue (serialize_with_id : AssignedIds → result StoreError bytes).

Inductive AssertValue :=
| AssertU32 (v : Z)
| AssertU64 (v : Z)
| AssertHash (v : Z)
| AssertSome
| AssertNone.

Inductive ValueOp :=
| SetValue (value : MaybeDynamicValue)
| AtomicAdd (by_ : Z)
| AddAndGet (by_ : Z)
| ClearValue.

Inductive Operation :=
| OpAccountId (account_id : Z)
| OpCollection (collection : Z)
| OpDocumentId (document_id : Z)
| OpChangeId (change_id : Z)
| OpAssertValue (class : ValueClass MaybeDynamicId) (assert_value : AssertValue)
| OpValue (class : ValueClass MaybeDynamicId) (op : ValueOp)
| OpIndex (field : Z) (key : bytes) (set : bool)
| OpBitmap (class : BitmapClass MaybeDynamicId) (set : bool)
| OpLog (set : MaybeDynamicValue).

(** ** write/mod.rs *)

Definition push_document_id (id : Z) (ids : AssignedIds) : AssignedIds :=
  {| document_ids := document_ids ids ++ [id]; counter_ids := counter_ids ids |}.
Definition push_counter_id (id : Z) (ids : AssignedIds) : AssignedIds :=
  {| document_ids := document_ids ids; counter_ids := counter_ids ids ++ [id] |}.
Definition get_document_id (ids : AssignedIds) (idx : nat) : result StoreError Z :=
  ok_or NoDocumentIds (document_ids ids !! idx).
Definition first_document_id (ids : AssignedIds) : result StoreError Z := get_document_id ids 0.
Definition last_document_id (ids : AssignedIds) : result StoreError Z :=
  ok_or NoDocumentIds (last (document_ids ids)).
Definition last_counter_id (ids : AssignedIds) : result StoreError Z :=
  ok_or NoDocumentIds (last (counter_ids ids)).

Definition value_resolve (value : MaybeDynamicValue) (ids : AssignedIds) : result StoreError bytes :=
  match value with
  | StaticValue value => Ok value
  | DynamicValue f => f ids
  end.

Definition id_resolve (id : MaybeDynamicId) (ids : AssignedIds) : result StoreError Z :=
  match id with
  | Static id => Ok id
  | Dynamic idx => get_document_id ids idx
  end.

Definition u32_serialize (v : Z) : bytes := be_bytes 4 v.
Definition u64_serialize (v : Z) : bytes := be_bytes 8 v.

(** [DynamicDocumentId] *)
Definition dynamic_document_id (idx : nat) (ids : AssignedIds) : result StoreError bytes :=
  id ← get_document_id ids idx; Ok (u32_serialize id).

Definition value_of_id (id : MaybeDynamicId) : MaybeDynamicValue :=
  match id with
  | Static id => StaticValue (u32_serialize id)
  | Dynamic idx => DynamicValue (dynamic_document_id idx)
  end.

Definition F_VALUE : Z := 1.
Definition F_INDEX : Z := 2.
Definition F_BITMAP : Z := 4.
Definition F_CLEAR : Z := 8.
Definition has_flag (options flag : Z) : bool := (options .& flag) =? flag.

(** The ids a roaring bitmap lists, in ascending order. *)
Definition bitmap_iter (bm : gset Z) : list Z := merge_sort Z.le (elements bm).

Fixpoint gaps (last_id : Z) (ids : list Z) : list Z * Z :=
  match ids with
  | [] => ([], last_id)
  | id :: ids =>
      let '(rest, last) := gaps (wrap 32 (id + 1)) ids in
      (seqZ last_id (id - last_id) ++ rest, last)
  end.

(** [while available_ids.len() < 100]: [n] more ids. *)
Fixpoint fill (n : nat) (last_id : Z) : list Z :=
  match n with
  | O => []
  | S n => last_id :: fill n (wrap 32 (last_id + 1))
  end.

Definition available_ids (bm : gset Z) : list Z :=
  let '(available, last_id) := gaps 0 (bitmap_iter bm) in
  available ++ fill (100 - length available) last_id.

(** ** write/batch.rs *)

Definition BatchBuilder : Type := list Operation.

Definition builder_new : BatchBuilder := [].
Definition with_change_id (change_id : Z) (b : BatchBuilder) : BatchBuilder := b ++ [OpChangeId change_id].
Definition with_account_id (account_id : Z) (b : BatchBuilder) : BatchBuilder := b ++ [OpAccountId account_id].
Definition with_collection (collection : Z) (b : BatchBuilder) : BatchBuilder := b ++ [OpCollection collection].
Definition create_document (b : BatchBuilder) : BatchBuilder :=
  b ++ [OpDocumentId u32_max; OpBitmap DocumentIds true].
Definition create_document_with_id (document_id : Z) (b : BatchBuilder) : BatchBuilder :=
  b ++ [OpDocumentId document_id; OpBitmap DocumentIds true].
Definition update_document (document_id : Z) (b : BatchBuilder) : BatchBuilder :=
  b ++ [OpDocumentId document_id].
Definition delete_document (document_id : Z) (b : BatchBuilder) : BatchBuilder :=
  b ++ [OpDocumentId document_id; OpBitmap DocumentIds false].
Definition assert_value (class : ValueClass MaybeDynamicId) (value : AssertValue) (b : BatchBuilder)
    : BatchBuilder := b ++ [OpAssertValue class value].

(** [value]: [to_bitmaps] is the trait function of the value's type, which
    lists bitmap operations, and [serialized] its [Serialize] form. *)
Definition value (field : Z) (to_bitmaps : Z → bool → list Operation) (serialized : bytes)
    (options : Z) (b : BatchBuilder) : BatchBuilder :=
  let is_set := negb (has_flag options F_CLEAR) in
  let b := b ++ (if has_flag options F_BITMAP then to_bitmaps field is_set else []) in
  let b := b ++ (if has_flag options F_INDEX then [OpIndex field serialized is_set] else []) in
  b ++ (if has_flag options F_VALUE then
          [OpValue (Property field) (if is_set then SetValue (StaticValue serialized) else ClearValue)]
        else []).

Definition tag (field : Z) (value : TagValue MaybeDynamicId) (options : Z) (b : BatchBuilder)
    : BatchBuilder := b ++ [OpBitmap (Tag field value) (negb (has_flag options F_CLEAR))].
Definition add (class : ValueClass MaybeDynamicId) (v : Z) (b : BatchBuilder) : BatchBuilder :=
  b ++ [OpValue class (AtomicAdd v)].
Definition add_and_get (class : ValueClass MaybeDynamicId) (v : Z) (b : BatchBuilder) : BatchBuilder :=
  b ++ [OpValue class (AddAndGet v)].
Definition set (class : ValueClass MaybeDynamicId) (v : MaybeDynamicValue) (b : BatchBuilder)
    : BatchBuilder := b ++ [OpValue class (SetValue v)].
Definition clear (class : ValueClass MaybeDynamicId) (b : BatchBuilder) : BatchBuilder :=
  b ++ [OpValue class ClearValue].
Definition log (v : MaybeDynamicValue) (b : BatchBuilder) : BatchBuilder := b ++ [OpLog v].

Definition op_account (op : Operation) : option Z :=
  match op with OpAccountId a => Some a | _ => None end.

Definition last_account_id (b : BatchBuilder) : option Z := head (omap op_account (reverse b)).
Definition first_account_id (b : BatchBuilder) : option Z := head (omap op_account b).

(** Only operations that position the batch, or assert, do not write. *)
Definition op_writes (op : Operation) : bool :=
  match op with
  | OpAccountId _ | OpCollection _ | OpDocumentId _ | OpAssertValue _ _ => false
  | _ => true
  end.

Definition is_empty (b : BatchBuilder) : bool := negb (existsb op_writes b).

Definition is_atomic (b : BatchBuilder) : bool :=
  negb (existsb (λ op, match op with
                       | OpAssertValue _ _ | OpValue _ (AddAndGet _) => true
                       | _ => false
                       end) b).

(** [ToBitmaps] of the integers and of vectors. *)
Definition u32_to_bitmaps (v : Z) (field : Z) (set : bool) : list Operation :=
  [OpBitmap (Tag field (TagId (Static v))) set].
Definition u64_to_bitmaps (v : Z) (field : Z) (set : bool) : list Operation :=
  [OpBitmap (Tag field (TagId (Static (wrap 32 v)))) set].
Definition vec_to_bitmaps {A} (to_bitmaps : A → Z → bool → list Operation) (l : list A)
    (field : Z) (set : bool) : list Operation := l ≫= λ item, to_bitmaps item field set.

(** ** Assertions *)

Section Commit.
Context `{KvStore DB} {R : Type} (gen_range : R → Z → Z * R) (xxh3_64 : bytes → Z).

Definition assert_matches (a : AssertValue) (l : bytes) : bool :=
  match a with
  | AssertU32 v => (length l =? 4)%nat && (from_be l =? v)
  | AssertU64 v => (length l =? 8)%nat && (from_be l =? v)
  | AssertHash v => xxh3_64 l =? v
  | AssertNone => false
  | AssertSome => true
  end.

Definition assert_is_none (a : AssertValue) : bool :=
  match a with AssertNone => true | _ => false end.

(** [random_available_id]: one of at least a hundred free ids. *)
Definition random_available_id (bm : gset Z) (rng : R) : Z * R :=
  let available := available_ids bm in
  let '(i, rng) := gen_range rng (Z.of_nat (length available)) in
  (default 0 (available !! Z.to_nat i), rng).

(** ** The transaction *)

Record Txn := {
  account_id : Z;
  collection : Z;
  document_id : Z;
  change_id : Z;
  assigned : AssignedIds;
  txn : DB;
  rng : R;
}.

Definition txn_new (db : DB) (r : R) : Txn :=
  {| account_id := u32_max; collection := u8_max; document_id := u32_max; change_id := u64_max;
     assigned := assigned_default; txn := db; rng := r |}.

Definition on_txn (f : DB → DB) (t : Txn) : Txn :=
  {| account_id := account_id t; collection := collection t; document_id := document_id t;
     change_id := change_id t; assigned := assigned t; txn := f (txn t); rng := rng t |}.
Definition set_assigned (ids : AssignedIds) (t : Txn) : Txn :=
  {| account_id := account_id t; collection := collection t; document_id := document_id t;
     change_id := change_id t; assigned := ids; txn := txn t; rng := rng t |}.

Definition value_key (t : Txn) (class : ValueClass MaybeDynamicId) : bytes :=
  value_serialize (Some (assigned t)) class (account_id t) (collection t) (document_id t) 0.

Definition commit_value (t : Txn) (class : ValueClass MaybeDynamicId) (op : ValueOp)
    : result StoreError Txn :=
  let key := value_key t class in
  let cf := value_subspace class (collection t) in
  match op with
  | SetValue value =>
      l ← value_resolve value (assigned t);
      Ok (on_txn (kv_put cf key l) t)
  | AtomicAdd by_ => Ok (on_txn (kv_merge cf key (i64_to_le_bytes by_)) t)
  | AddAndGet by_ =>
      num ← (match kv_get (txn t) cf key with
             | Some l => v ← deserialize_i64_le l; Ok (i64 (v + by_))
             | None => Ok by_
             end);
      Ok (set_assigned (push_counter_id num (assigned t))
            (on_txn (kv_put cf key (i64_to_le_bytes num)) t))
  | ClearValue => Ok (on_txn (kv_delete cf key) t)
  end.

(** The document ids in use, as the transaction sees them. *)
Definition found_ids (t : Txn) : result StoreError (gset Z) :=
  let begin := bitmap_serialize (T := Z) None DocumentIds (account_id t) (collection t) 0 0 in
  let end_ := bitmap_serialize (T := Z) None DocumentIds (account_id t) (collection t) u32_max 0 in
  bitmap_rows begin end_ (seek begin (kv_scan (txn t) (bitmap_subspace (T := Z) DocumentIds))) ∅.

Definition assign_document (t : Txn) : result StoreError Txn :=
  found ← found_ids t;
  let '(id, r) := random_available_id found (rng t) in
  Ok {| account_id := account_id t; collection := collection t; document_id := id;
        change_id := change_id t; assigned := push_document_id id (assigned t);
        txn := txn t; rng := r |}.

Definition is_document_ids (class : BitmapClass MaybeDynamicId) : bool :=
  match class with DocumentIds => true | _ => false end.

Definition commit_bitmap (t : Txn) (class : BitmapClass MaybeDynamicId) (set : bool)
    : result StoreError Txn :=
  let cf := bitmap_subspace class in
  t ← (if set && is_document_ids class && (document_id t =? u32_max) then assign_document t else Ok t);
  let key := bitmap_serialize (Some (assigned t)) class (account_id t) (collection t)
               (document_id t) 0 in
  Ok (on_txn (if set then kv_put cf key [] else kv_delete cf key) t).

Definition commit_op (t : Txn) (op : Operation) : result StoreError Txn :=
  match op with
  | OpAccountId a =>
      Ok {| account_id := a; collection := collection t; document_id := document_id t;
            change_id := change_id t; assigned := assigned t; txn := txn t; rng := rng t |}
  | OpCollection c =>
      Ok {| account_id := account_id t; collection := c; document_id := document_id t;
            change_id := change_id t; assigned := assigned t; txn := txn t; rng := rng t |}
  | OpDocumentId d =>
      Ok {| account_id := account_id t; collection := collection t; document_id := d;
            change_id := change_id t; assigned := assigned t; txn := txn t; rng := rng t |}
  | OpChangeId i =>
      Ok {| account_id := account_id t; collection := collection t; document_id := document_id t;
            change_id := i; assigned := assigned t; txn := txn t; rng := rng t |}
  | OpValue class op => commit_value t class op
  | OpIndex field key set =>
      let key := index_key_serialize
        {| ik_account_id := account_id t; ik_collection := collection t;
           ik_document_id := document_id t; ik_field := field; ik_key := key |} 0 in
      Ok (on_txn (if set then kv_put SUBSPACE_INDEXES key [] else kv_delete SUBSPACE_INDEXES key) t)
  | OpBitmap class set => commit_bitmap t class set
  | OpLog value =>
      let key := log_key_serialize
        {| lk_account_id := account_id t; lk_collection := collection t;
           lk_change_id := change_id t |} 0 in
      l ← value_resolve value (assigned t);
      Ok (on_txn (kv_put SUBSPACE_LOGS key l) t)
  | OpAssertValue class a =>
      let matches :=
        match kv_get (txn t) (value_subspace class (collection t)) (value_key t class) with
        | Some l => assert_matches a l
        | None => assert_is_none a
        end in
      if matches then Ok t else Err AssertValueFailed
  end.

Fixpoint commit_ops (t : Txn) (ops : list Operation) : result StoreError Txn :=
  match ops with
  | [] => Ok t
  | op :: ops => t ← commit_op t op; commit_ops t ops
  end.

(** ** Committing and retrying *)

(** The answer of the engine to the commit of a transaction. *)
Inductive EngineError := Busy | MergeInProgress | TryAgain | OtherKind.

Inductive CommitError :=
| Internal (e : StoreError)
| RocksDB (kind : EngineError).

Definition retriable (kind : EngineError) : bool :=
  match kind with Busy | MergeInProgress | TryAgain => true | OtherKind => false end.

Definition MAX_COMMIT_ATTEMPTS : nat := 10.

(** One attempt: the database it starts from, the random source, what the engine
    answers ([None]: committed) and whether the time limit has passed. *)
Record Attempt := {
  at_db : DB;
  at_rng : R;
  at_engine : option EngineError;
  at_in_time : bool;
}.

Definition commit (ops : list Operation) (a : Attempt) : result CommitError AssignedIds * DB :=
  match commit_ops (txn_new (at_db a) (at_rng a)) ops with
  | Err e => (Err (Internal e), at_db a)
  | Ok t =>
      match at_engine a with
      | None => (Ok (assigned t), txn t)
      | Some kind => (Err (RocksDB kind), at_db a)
      end
  end.

(** The loop of [write]: [attempts] lists what the successive attempts meet. *)
Fixpoint write_attempts (ops : list Operation) (retry_count : nat) (attempts : list Attempt)
    : option (result CommitError AssignedIds * DB) :=
  match attempts with
  | [] => None
  | a :: attempts =>
      match commit ops a with
      | (Ok ids, db) => Some (Ok ids, db)
      | (Err (Internal e), db) => Some (Err (Internal e), db)
      | (Err (RocksDB kind), db) =>
          if retriable kind && (retry_count <? MAX_COMMIT_ATTEMPTS)%nat && at_in_time a
          then write_attempts ops (S retry_count) attempts
          else Some (Err (RocksDB kind), db)
      end
  end.

Definition write (ops : list Operation) (attempts : list Attempt)
    : option (result CommitError AssignedIds * DB) := write_attempts ops 0 attempts.
End Commit.

(** ** Free document ids *)

Lemma bitmap_iter_elem bm d : d ∈ bitmap_iter bm ↔ d ∈ bm.
Proof. unfold bitmap_iter. by rewrite merge_sort_Permutation, elem_of_elements. Qed.

Lemma bitmap_iter_sorted bm : StronglySorted Z.lt (bitmap_iter bm).
Proof.
  assert (StronglySorted Z.le (bitmap_iter bm)) as Hs by apply (StronglySorted_merge_sort _).
  assert (NoDup (bitmap_iter bm)) as Hnd
    by (unfold bitmap_iter; rewrite merge_sort_Permutation; apply NoDup_elements).
  induction Hs as [|x l Hl IH Hx]; constructor; inversion Hnd as [|? ? Hn Hnd']; subst; [by apply IH|].
  rewrite Forall_forall in *. intros y Hy. specialize (Hx y Hy).
  assert (x ≠ y) by (by intros ->). lia.
Qed.

Lemma gaps_spec ids b last_id :
  StronglySorted Z.lt ids → Forall (λ i, last_id ≤ i < b) ids → 0 ≤ last_id ≤ b → b ≤ u32_max →
  let '(rest, last) := gaps last_id ids in
  Forall (λ x, last_id ≤ x < b ∧ x ∉ ids) rest ∧ last_id ≤ last ≤ b ∧ Forall (λ i, i < last) ids.
Proof.
  intros Hs. revert last_id. induction Hs as [|id ids Hs IH Hid]; intros last_id Hids Hl Hb.
  { cbn. split_and!; [constructor|lia|lia|constructor]. }
  inversion Hids as [|? ? Hidb Hids']; subst. cbn [gaps].
  rewrite wrap_id by (unfold fits; change u32_max with (2 ^ 32 - 1) in Hb; lia).
  assert (Forall (λ i, id + 1 ≤ i < b) ids) as Hgt.
  { rewrite Forall_forall in *. intros i Hi. specialize (Hid i Hi). specialize (Hids' i Hi). lia. }
  specialize (IH (id + 1) Hgt ltac:(lia) Hb). destruct (gaps (id + 1) ids) as [rest last].
  destruct IH as (Hrest & Hlast & Hall). split_and!; [|lia|lia|].
  - apply Forall_app. split; apply Forall_forall.
    + intros x Hx%elem_of_seqZ. split; [lia|]. rewrite elem_of_cons. intros [->|Hin]; [lia|].
      rewrite Forall_forall in Hgt. specialize (Hgt x Hin). lia.
    + intros x Hx. rewrite Forall_forall in Hrest. destruct (Hrest x Hx) as [Hb' Hn].
      split; [lia|]. rewrite elem_of_cons. intros [->|Hin]; [lia|done].
  - constructor; [lia|done].
Qed.

Lemma fill_spec n last_id :
  0 ≤ last_id → last_id + Z.of_nat n ≤ u32_max →
  length (fill n last_id) = n ∧ Forall (λ x, last_id ≤ x < last_id + Z.of_nat n) (fill n last_id).
Proof.
  revert last_id. induction n as [|n IH]; intros last_id Hl Hn; cbn [fill]; [done|].
  rewrite wrap_id by (unfold fits; change u32_max with (2 ^ 32 - 1) in Hn; lia).
  destruct (IH (last_id + 1)) as [Hlen Hall]; [lia|lia|]. split; [simpl; lia|].
  constructor; [lia|]. eapply Forall_impl; [exact Hall|]. cbv beta. intros x Hx. lia.
Qed.

Lemma available_ids_spec bm b :
  (∀ d, d ∈ bm → 0 ≤ d < b) → 0 ≤ b → b + 100 ≤ u32_max →
  (100 ≤ length (available_ids bm))%nat ∧
  Forall (λ x, 0 ≤ x < b + 100 ∧ x ∉ bm) (available_ids bm).
Proof.
  intros Hbm Hb0 Hb. unfold available_ids.
  pose proof (gaps_spec (bitmap_iter bm) b 0 (bitmap_iter_sorted bm)) as Hg.
  destruct (gaps 0 (bitmap_iter bm)) as [rest last]. destruct Hg as (Hrest & Hlast & Hall); [|lia|lia|].
  { apply Forall_forall. intros d Hd%bitmap_iter_elem. by apply Hbm. }
  destruct (fill_spec (100 - length rest) last) as [Hlen Hfill]; [lia|lia|].
  split; [rewrite length_app, Hlen; lia|]. apply Forall_app. split.
  - eapply Forall_impl; [exact Hrest|]. cbv beta. intros x [Hx Hn].
    split; [lia|]. by rewrite <- bitmap_iter_elem.
  - eapply Forall_impl; [exact Hfill|]. cbv beta. intros x Hx. split; [lia|].
    rewrite <- bitmap_iter_elem. intros Hin. rewrite Forall_forall in Hall.
    specialize (Hall x Hin). lia.
Qed.

(** ** What a batch means for the documents of the store *)

(** The specification: the set of documents that exist, by account and
    collection, where the batch stands, and the ids it was given. *)
Record Spec := {
  s_account : Z;
  s_collection : Z;
  s_document : Z;
  s_docs : gset (Z * Z * Z);
  s_assigned : list Z;
}.

Definition here (s : Spec) : Z * Z * Z := (s_account s, s_collection s, s_document s).

Definition with_docs (docs : gset (Z * Z * Z)) (s : Spec) : Spec :=
  {| s_account := s_account s; s_collection := s_collection s; s_document := s_document s;
     s_docs := docs; s_assigned := s_assigned s |}.

(** Operations that neither move the batch nor change the document set. *)
Definition op_neutral (op : Operation) : bool :=
  match op with
  | OpAccountId _ | OpCollection _ | OpDocumentId _ | OpBitmap DocumentIds _ => false
  | _ => true
  end.

Inductive spec_step : Spec → Operation → Spec → Prop :=
| SpecAccount s a :
    spec_step s (OpAccountId a)
      {| s_account := a; s_collection := s_collection s; s_document := s_document s;
         s_docs := s_docs s; s_assigned := s_assigned s |}
| SpecCollection s c :
    spec_step s (OpCollection c)
      {| s_account := s_account s; s_collection := c; s_document := s_document s;
         s_docs := s_docs s; s_assigned := s_assigned s |}
| SpecDocument s d :
    spec_step s (OpDocumentId d)
      {| s_account := s_account s; s_collection := s_collection s; s_document := d;
         s_docs := s_docs s; s_assigned := s_assigned s |}
| SpecCreate s d :
    s_document s = u32_max → 0 ≤ d < u32_max → (s_account s, s_collection s, d) ∉ s_docs s →
    spec_step s (OpBitmap DocumentIds true)
      {| s_account := s_account s; s_collection := s_collection s; s_document := d;
         s_docs := {[(s_account s, s_collection s, d)]} ∪ s_docs s;
         s_assigned := s_assigned s ++ [d] |}
| SpecInsert s :
    s_document s ≠ u32_max →
    spec_step s (OpBitmap DocumentIds true) (with_docs ({[here s]} ∪ s_docs s) s)
| SpecRemove s :
    spec_step s (OpBitmap DocumentIds false) (with_docs (s_docs s ∖ {[here s]}) s)
| SpecNeutral s op : op_neutral op = true → spec_step s op s.

Inductive spec_run : Spec → list Operation → Spec → Prop :=
| spec_done s : spec_run s [] s
| spec_next s op s' ops s'' :
    spec_step s op s' → spec_run s' ops s'' → spec_run s (op :: ops) s''.

(** *** Well-formed batches *)

Definition bitmap_op_wf (class : BitmapClass MaybeDynamicId) : Prop :=
  match class with
  | DocumentIds => True
  | Tag f (TagId (Static i)) => 0 ≤ f < 128 ∧ fits 32 i
  | Tag f _ => 0 ≤ f < 128
  | Text f h => is_byte f ∧ token_ok h
  end.

(** Parameters in range; document ids given explicitly are below [b]. *)
Definition op_wf (b : Z) (op : Operation) : Prop :=
  match op with
  | OpAccountId a => fits 32 a
  | OpCollection c => is_byte c
  | OpDocumentId d => 0 ≤ d < b ∨ d = u32_max
  | OpValue (Any any) _ => any_subspace any ∉ bitmap_subspaces
  | OpBitmap class _ => bitmap_op_wf class
  | _ => True
  end.

Definition resolve_class (ids : AssignedIds) (class : BitmapClass MaybeDynamicId) : BitmapClass Z :=
  match class with
  | DocumentIds => DocumentIds
  | Tag f (TagId i) => Tag f (TagId (resolve_id i (Some ids)))
  | Tag f (TagText t) => Tag f (TagText t)
  | Text f h => Text f h
  end.

Lemma bitmap_serialize_resolve ids class a c d :
  bitmap_serialize (Some ids) class a c d 0 = bitmap_serialize None (resolve_class ids class) a c d 0.
Proof. by destruct class as [|f [i|t]|f h]. Qed.

Lemma resolve_class_subspace ids class :
  bitmap_subspace (resolve_class ids class) = bitmap_subspace class.
Proof. by destruct class as [|f [i|t]|f h]. Qed.

Lemma resolve_class_wf ids class :
  Forall (fits 32) (document_ids ids) → bitmap_op_wf class → bitmap_wf (resolve_class ids class).
Proof.
  intros Hids. destruct class as [|f [[i|idx]|t]|f h]; simpl; try done.
  intros Hf. split; [done|]. unfold resolve_id, resolve_dynamic. simpl.
  destruct (document_ids ids !! idx) as [d|] eqn:Hd; simpl; [|width].
  rewrite Forall_forall in Hids. apply Hids. by eapply list_elem_of_lookup_2.
Qed.

Lemma bitmap_subspace_in {T} (class : BitmapClass T) : bitmap_subspace class ∈ bitmap_subspaces.
Proof. destruct class; [by left|by right; left|by right; right; left]. Qed.

Lemma value_subspace_out class c :
  (∀ any, class = Any any → any_subspace any ∉ bitmap_subspaces) →
  value_subspace (T := MaybeDynamicId) class c ∉ bitmap_subspaces.
Proof.
  intros Hany. assert (∀ z, bool_decide (z ∈ bitmap_subspaces) = false → z ∉ bitmap_subspaces)
    as Hdec by (intros z; apply bool_decide_eq_false_1).
  unfold value_subspace. repeat case_match; (by apply Hany) || (apply Hdec; by vm_compute).
Qed.

Lemma document_key_inj a c d a' c' d' :
  fits 32 a → fits 32 a' → fits 32 d → fits 32 d' →
  bitmap_serialize (T := Z) None DocumentIds a c d 0
  = bitmap_serialize (T := Z) None DocumentIds a' c' d' 0 →
  (a, c, d) = (a', c', d').
Proof.
  intros Ha Ha' Hd Hd'. rewrite !bitmap_serialize_prefix.
  change (bitmap_prefix DocumentIds ?a ?c) with (be_bytes 4 a ++ [c]). rewrite <- !app_assoc.
  intros [Hea Heq]%app_split; [|done]. apply app_split in Heq as [Hec Hed]; [|done].
  apply be_bytes_inj in Hea, Hed; [|done..]. congruence.
Qed.

(** *** The simulation *)

Section Refinement.
Context `{KvLaws DB} {R : Type} (gen_range : R → Z → Z * R) (xxh3_64 : bytes → Z).
Context (gen_range_ok : ∀ r n, 0 < n → 0 ≤ (gen_range r n).1 < n).

#[local] Abbreviation Txn := (Txn (DB := DB) (R := R)).
#[local] Abbreviation commit_op := (commit_op gen_range xxh3_64).
#[local] Abbreviation commit_ops := (commit_ops gen_range xxh3_64).

Definition docs_below (b : Z) (db : DB) : Prop :=
  ∀ a c d, fits 32 a → is_byte c → fits 32 d → bitmap_holds db DocumentIds a c d → d < b.

Definition docs_abs (docs : gset (Z * Z * Z)) (db : DB) : Prop :=
  ∀ a c d, fits 32 a → is_byte c → fits 32 d → (a, c, d) ∈ docs ↔ bitmap_holds db DocumentIds a c d.

Record txn_inv (b : Z) (t : Txn) : Prop := {
  inv_account : fits 32 (account_id t);
  inv_collection : is_byte (collection t);
  inv_document : 0 ≤ document_id t < b ∨ document_id t = u32_max;
  inv_assigned : Forall (fits 32) (document_ids (assigned t));
  inv_tidy : bitmap_tidy (txn t);
  inv_below : docs_below b (txn t);
}.

Record abs (t : Txn) (s : Spec) : Prop := {
  abs_account : s_account s = account_id t;
  abs_collection : s_collection s = collection t;
  abs_document : s_document s = document_id t;
  abs_assigned : s_assigned s = document_ids (assigned t);
  abs_docs : docs_abs (s_docs s) (txn t);
}.

(** [db'] has the bitmaps of [db]. *)
Definition same_bitmaps (db db' : DB) : Prop :=
  ∀ cf k, cf ∈ bitmap_subspaces → kv_get db' cf k = kv_get db cf k.

Lemma same_tidy db db' : same_bitmaps db db' → bitmap_tidy db → bitmap_tidy db'.
Proof using. intros Hs Ht cf k v Hcf Hk. apply (Ht cf k v Hcf). by rewrite <- Hs. Qed.

Lemma same_holds db db' class a c d :
  same_bitmaps db db' → bitmap_holds db' class a c d ↔ bitmap_holds db class a c d.
Proof using. intros Hs. unfold bitmap_holds. by rewrite Hs by apply bitmap_subspace_in. Qed.

Lemma same_bitmaps_put db cf k v : cf ∉ bitmap_subspaces → same_bitmaps db (kv_put cf k v db).
Proof. intros Hcf cf' k' Hcf'. rewrite kv_get_put, decide_False; [done|]. by intros [-> _]. Qed.

Lemma same_bitmaps_delete db cf k : cf ∉ bitmap_subspaces → same_bitmaps db (kv_delete cf k db).
Proof. intros Hcf cf' k' Hcf'. rewrite kv_get_delete, decide_False; [done|]. by intros [-> _]. Qed.

Lemma same_bitmaps_merge db cf k v : cf ∉ bitmap_subspaces → same_bitmaps db (kv_merge cf k v db).
Proof. intros Hcf cf' k' Hcf'. apply kv_get_merge_ne. by intros [-> _]. Qed.

(** *** Bitmap rows *)

Lemma holds_put db (class key_class : BitmapClass Z) a c d a' c' d' :
  bitmap_holds (kv_put (bitmap_subspace class) (bitmap_serialize None class a c d 0) [] db)
    key_class a' c' d'
  ↔ (bitmap_subspace key_class = bitmap_subspace class ∧
     bitmap_serialize None key_class a' c' d' 0 = bitmap_serialize None class a c d 0)
    ∨ bitmap_holds db key_class a' c' d'.
Proof.
  unfold bitmap_holds. rewrite kv_get_put. case_decide as Hd; [|tauto].
  split; [tauto|]. by intros _.
Qed.

Lemma holds_delete db (class key_class : BitmapClass Z) a c d a' c' d' :
  bitmap_holds (kv_delete (bitmap_subspace class) (bitmap_serialize None class a c d 0) db)
    key_class a' c' d'
  ↔ ¬ (bitmap_subspace key_class = bitmap_subspace class ∧
       bitmap_serialize None key_class a' c' d' 0 = bitmap_serialize None class a c d 0)
    ∧ bitmap_holds db key_class a' c' d'.
Proof.
  unfold bitmap_holds. rewrite kv_get_delete. case_decide as Hd; [|tauto].
  split; [by intros [? ?]|tauto].
Qed.

Lemma tidy_put db class a c d :
  bitmap_tidy db → bitmap_key_ok class a c d →
  bitmap_tidy (kv_put (bitmap_subspace class) (bitmap_serialize None class a c d 0) [] db).
Proof.
  intros Ht Hk cf k v Hcf. rewrite kv_get_put. case_decide as Hd; [|by apply Ht].
  destruct Hd as [-> ->]. intros _. by exists class, a, c, d.
Qed.

Lemma tidy_delete db cf k : bitmap_tidy db → bitmap_tidy (kv_delete cf k db).
Proof. intros Ht cf' k' v' Hcf. rewrite kv_get_delete. case_decide; [done|]. by apply Ht. Qed.

(** The document key of [class] is that of [(a, c, d)] only if it is the same. *)
Lemma document_key_iff class a c d a' c' d' :
  bitmap_key_ok class a c d → fits 32 a' → fits 32 d' →
  (bitmap_subspace (DocumentIds (T := Z)) = bitmap_subspace class ∧
   bitmap_serialize None DocumentIds a' c' d' 0 = bitmap_serialize None class a c d 0)
  ↔ class = DocumentIds ∧ (a', c', d') = (a, c, d).
Proof using.
  intros (_ & Ha & Hc & Hd) Ha' Hd'. split.
  - intros [Hs Hk]. destruct class as [|f [i|t]|f h]; try done. split; [done|].
    by apply document_key_inj.
  - by intros [-> [= -> -> ->]].
Qed.

(** *** Assigning a document *)

Lemma found_ids_spec b t :
  txn_inv b t →
  ∃ bm, found_ids t = Ok bm ∧
    ∀ d, d ∈ bm ↔ fits 32 d ∧ bitmap_holds (txn t) DocumentIds (account_id t) (collection t) d.
Proof.
  intros Hinv. apply bitmap_rows_holds. destruct Hinv. by apply documents_clean.
Qed.

Lemma random_available_spec bm b r :
  (∀ d, d ∈ bm → 0 ≤ d < b) → 0 ≤ b → b + 100 ≤ u32_max →
  let d := (random_available_id gen_range bm r).1 in 0 ≤ d < b + 100 ∧ d ∉ bm.
Proof using gen_range_ok.
  intros Hbm Hb0 Hb. destruct (available_ids_spec bm b Hbm Hb0 Hb) as [Hlen Hall].
  unfold random_available_id. set (n := Z.of_nat (length (available_ids bm))).
  pose proof (gen_range_ok r n ltac:(unfold n; lia)) as Hi.
  destruct (gen_range r n) as [i r'] eqn:Hg. cbn [fst] in *.
  destruct (lookup_lt_is_Some_2 (available_ids bm) (Z.to_nat i)) as [x Hx]; [unfold n in Hi; lia|].
  rewrite Hx. cbn. rewrite Forall_forall in Hall. apply Hall. by eapply list_elem_of_lookup_2.
Qed.

Lemma assign_document_spec b t :
  txn_inv b t → 0 ≤ b → b + 100 ≤ u32_max →
  ∃ d r, assign_document gen_range t = Ok
    {| account_id := account_id t; collection := collection t; document_id := d;
       change_id := change_id t; assigned := push_document_id d (assigned t);
       txn := txn t; rng := r |} ∧
    0 ≤ d < b + 100 ∧ ¬ bitmap_holds (txn t) DocumentIds (account_id t) (collection t) d.
Proof.
  intros Hinv Hb0 Hb. unfold assign_document.
  destruct (found_ids_spec b t Hinv) as (bm & -> & Hbm). cbn [mbind].
  pose proof (random_available_spec bm b (rng t)) as Hr. unfold mbind, result_bind.
  destruct (random_available_id gen_range bm (rng t)) as [d r]. cbn [fst] in Hr.
  destruct Hr as [Hd Hn]; [|done|done|].
  { intros d' [Hd' Hh]%Hbm. split; [apply Hd'|].
    by apply (inv_below _ _ Hinv _ _ _ (inv_account _ _ Hinv) (inv_collection _ _ Hinv)). }
  exists d, r. split_and!; [done|lia|lia|]. intros Hh. apply Hn, Hbm. split; [|done].
  unfold fits. change u32_max with (2 ^ 32 - 1) in Hb. lia.
Qed.

(** *** One operation *)

Definition same_place (t t' : Txn) : Prop :=
  account_id t' = account_id t ∧ collection t' = collection t ∧
  document_id t' = document_id t ∧ document_ids (assigned t') = document_ids (assigned t).

Lemma inv_weaken b t : 0 ≤ b → txn_inv b t → txn_inv (b + 100) t.
Proof using.
  intros Hb []. split; try done.
  - destruct inv_document0; [left; lia|by right].
  - intros a c d ? ? ? Hh. assert (d < b) by (by apply (inv_below0 a c d)). lia.
Qed.

Lemma neutral_abs b t t' s :
  0 ≤ b → same_place t t' → same_bitmaps (txn t) (txn t') → txn_inv b t → abs t s →
  txn_inv (b + 100) t' ∧ abs t' s.
Proof using.
  intros Hb (Ea & Ec & Ed & Ei) Hs Hinv%inv_weaken [] ; [|done]. destruct Hinv. split.
  - split; rewrite ?Ea, ?Ec, ?Ed, ?Ei; try done; [by eapply same_tidy|].
    intros a c d ? ? ?. rewrite same_holds by done. by apply inv_below0.
  - split; rewrite ?Ea, ?Ec, ?Ed, ?Ei; try done.
    intros a c d ? ? ?. rewrite same_holds by done. by apply abs_docs0.
Qed.

Lemma commit_value_same t class op t' :
  (∀ any, class = Any any → any_subspace any ∉ bitmap_subspaces) →
  commit_value t class op = Ok t' → same_place t t' ∧ same_bitmaps (txn t) (txn t').
Proof.
  intros Hany. pose proof (value_subspace_out class (collection t) Hany) as Hout.
  unfold commit_value. destruct op as [v|n|n|].
  - destruct (value_resolve v (assigned t)) as [l|e]; [|done]. intros [= <-].
    split; [done|by apply same_bitmaps_put].
  - intros [= <-]. split; [done|by apply same_bitmaps_merge].
  - destruct (match kv_get (txn t) _ _ with Some l => _ | None => _ end) as [num|e]; [|done].
    intros [= <-]. split; [done|by apply same_bitmaps_put].
  - intros [= <-]. split; [done|by apply same_bitmaps_delete].
Qed.

(** A bitmap row is written or deleted at the place of the transaction. *)
Definition bitmap_write (t : Txn) (class : BitmapClass MaybeDynamicId) (set : bool) : Txn :=
  let key := bitmap_serialize (Some (assigned t)) class (account_id t) (collection t)
               (document_id t) 0 in
  on_txn (if set then kv_put (bitmap_subspace class) key [] else kv_delete (bitmap_subspace class) key) t.

Lemma inv_document_fits b t : b ≤ u32_max → txn_inv b t → fits 32 (document_id t).
Proof using.
  intros Hb []. unfold fits. change u32_max with (2 ^ 32 - 1) in *. lia.
Qed.

Lemma bitmap_write_docs b t class set a c d :
  b ≤ u32_max → txn_inv b t → bitmap_op_wf class → fits 32 a → fits 32 d →
  bitmap_tidy (txn (bitmap_write t class set)) ∧
  (bitmap_holds (txn (bitmap_write t class set)) DocumentIds a c d ↔
   if decide (is_document_ids class = true ∧ (a, c, d) = (account_id t, collection t, document_id t))
   then set = true else bitmap_holds (txn t) DocumentIds a c d).
Proof.
  intros Hb Hinv Hwf Ha Hd. pose proof (inv_document_fits b t Hb Hinv) as Hdoc. destruct Hinv.
  assert (bitmap_key_ok (resolve_class (assigned t) class) (account_id t) (collection t) (document_id t))
    as Hok by (split_and!; try done; by apply resolve_class_wf).
  assert (resolve_class (assigned t) class = DocumentIds ↔ is_document_ids class = true) as Hres
    by (by destruct class as [|f [i|x]|f h]).
  unfold bitmap_write. cbn [txn on_txn].
  rewrite bitmap_serialize_resolve, <- (resolve_class_subspace (assigned t) class).
  destruct set.
  - split; [by apply tidy_put|]. rewrite holds_put, document_key_iff by done. rewrite Hres.
    case_decide; tauto.
  - split; [by apply tidy_delete|]. rewrite holds_delete, document_key_iff by done. rewrite Hres.
    case_decide; [split; [tauto|done]|tauto].
Qed.

Lemma bitmap_write_inv b t class set :
  0 ≤ b ≤ u32_max → txn_inv b t → bitmap_op_wf class →
  (is_document_ids class && set = true → document_id t ≠ u32_max) →
  txn_inv b (bitmap_write t class set).
Proof.
  intros Hb Hinv Hwf Hdoc. pose proof Hinv as []. split; try done.
  - destruct (bitmap_write_docs b t class set 0 0 0) as [Ht _]; try done; lia || width.
  - intros a c d Ha Hc Hd.
    destruct (bitmap_write_docs b t class set a c d) as [_ ->]; try done; [lia|].
    case_decide as Hcase; [|by apply inv_below0]. intros ->. destruct Hcase as [Hcl [= -> -> ->]].
    rewrite Hcl in Hdoc. destruct inv_document0 as [?|?]; [lia|]. by destruct Hdoc.
Qed.

Lemma bitmap_write_neutral b t class set s :
  0 ≤ b ≤ u32_max → txn_inv b t → bitmap_op_wf class → is_document_ids class = false → abs t s →
  txn_inv b (bitmap_write t class set) ∧ abs (bitmap_write t class set) s.
Proof.
  intros Hb Hinv Hwf Hcl []. split.
  - apply bitmap_write_inv; [done..|]. by rewrite Hcl.
  - split; try done. intros a c d Ha Hc Hd. rewrite (abs_docs0 a c d) by done.
    destruct (bitmap_write_docs b t class set a c d) as [_ ->]; try done; [lia|].
    rewrite Hcl. by rewrite decide_False by (by intros [? _]).
Qed.

(** Writing the document row changes the set by the place of the transaction. *)
Lemma bitmap_write_document b t set s :
  0 ≤ b ≤ u32_max → txn_inv b t → (set = true → document_id t ≠ u32_max) → abs t s →
  txn_inv b (bitmap_write t DocumentIds set) ∧
  abs (bitmap_write t DocumentIds set)
    (with_docs (if set then {[here s]} ∪ s_docs s else s_docs s ∖ {[here s]}) s).
Proof.
  intros Hb Hinv Hdoc []. split; [by apply bitmap_write_inv|].
  split; try done. cbn [s_docs with_docs]. intros a c d Ha Hc Hd.
  destruct (bitmap_write_docs b t DocumentIds set a c d) as [_ ->]; try done; [lia|].
  assert (here s = (account_id t, collection t, document_id t)) as Hhere
    by (unfold here; congruence).
  rewrite Hhere. destruct set.
  - rewrite elem_of_union, elem_of_singleton, (abs_docs0 a c d) by done. case_decide; tauto.
  - rewrite elem_of_difference, elem_of_singleton, (abs_docs0 a c d) by done.
    case_decide as Hcase; [|tauto]. split; [tauto|done].
Qed.

Lemma commit_bitmap_simulates b t class set s t' :
  0 ≤ b → b + 100 ≤ u32_max → txn_inv b t → bitmap_op_wf class → abs t s →
  commit_bitmap gen_range t class set = Ok t' →
  txn_inv (b + 100) t' ∧ ∃ s', spec_step s (OpBitmap class set) s' ∧ abs t' s'.
Proof.
  intros Hpos Hb Hinv Hwf Habs. unfold commit_bitmap.
  destruct (set && is_document_ids class && (document_id t =? u32_max)) eqn:Hassign.
  - apply andb_prop in Hassign as [[-> Hcl]%andb_prop Hmax%Z.eqb_eq].
    destruct class as [|f v|f h]; try done.
    destruct (assign_document_spec b t Hinv Hpos Hb) as (d & r & -> & Hd & Hnew). cbn [mbind].
    intros Heq. apply (f_equal (λ r, match r with Ok x => x | Err _ => t end)) in Heq.
    set (t1 := {| account_id := account_id t; document_id := d |}) in Heq.
    change (bitmap_write t1 DocumentIds true = t') in Heq. subst t'.
    set (s1 := {| s_account := s_account s; s_collection := s_collection s; s_document := d;
                  s_docs := s_docs s; s_assigned := s_assigned s ++ [d] |}).
    assert (fits 32 d) as Hfd by (unfold fits; change u32_max with (2 ^ 32 - 1) in Hb; lia).
    assert (txn_inv (b + 100) t1) as Hinv1.
    { destruct (inv_weaken b t Hpos Hinv). split; try done; [by left|].
      apply Forall_app. split; [done|by apply Forall_singleton]. }
    assert (abs t1 s1) as Habs1 by (destruct Habs; split; simpl; congruence || done).
    destruct (bitmap_write_document (b + 100) t1 true s1) as [Hi2 Ha2]; try done;
      [lia|simpl; lia|].
    split; [done|]. eexists. split; [|exact Ha2]. destruct Habs.
    apply (SpecCreate s d); [congruence|lia|].
    rewrite (abs_docs0 _ _ d); rewrite ?abs_account0, ?abs_collection0; [done| | |done];
      by destruct Hinv.
  - intros [= Heq]. change (bitmap_write t class set = t') in Heq. subst t'.
    destruct (is_document_ids class) eqn:Hcl.
    + destruct class as [|f v|f h]; try done. destruct Habs as [] eqn:Hab.
      destruct (bitmap_write_document b t set s) as [Hi2 Ha2]; try done; [lia| |].
      { intros ->. by apply Z.eqb_neq in Hassign. }
      split; [by apply inv_weaken|]. eexists. split; [|exact Ha2].
      destruct set; [|apply SpecRemove]. apply SpecInsert. apply Z.eqb_neq in Hassign. congruence.
    + destruct (bitmap_write_neutral b t class set s) as [Hi2 Ha2]; try done; [lia|].
      split; [by apply inv_weaken|]. exists s. split; [|done]. apply SpecNeutral.
      by destruct class.
Qed.

Lemma commit_op_simulates b0 b t op s t' :
  0 ≤ b0 ≤ b → b + 100 ≤ u32_max → txn_inv b t → op_wf b0 op → abs t s → commit_op t op = Ok t' →
  txn_inv (b + 100) t' ∧ ∃ s', spec_step s op s' ∧ abs t' s'.
Proof.
  intros Hb0 Hb Hinv Hwf Habs. assert (0 ≤ b) as Hpos by lia.
  assert (∀ t', op_neutral op = true → same_place t t' → same_bitmaps (txn t) (txn t') →
    txn_inv (b + 100) t' ∧ ∃ s', spec_step s op s' ∧ abs t' s') as Hneutral.
  { intros t1 Hn Hp Hs. destruct (neutral_abs b t t1 s Hpos Hp Hs Hinv Habs) as [Hi Ha].
    split; [done|]. exists s. split; [by constructor|done]. }
  pose proof (inv_weaken b t Hpos Hinv) as Hinv'.
  destruct op as [a|c|d|i|class av|class op|f k set|class set|v]; cbn [StoreTxn.commit_op].
  - intros [= <-]. destruct Hinv', Habs. split; [by split|]. eexists. split; [constructor|by split].
  - intros [= <-]. destruct Hinv', Habs. split; [by split|]. eexists. split; [constructor|by split].
  - intros [= <-]. destruct Hinv', Habs. split; [|eexists; split; [constructor|by split]].
    split; try done. destruct Hwf as [?|?]; [left; simpl; lia|by right].
  - intros [= <-]. by apply Hneutral.
  - case_match; [|done]. intros [= <-]. by apply Hneutral.
  - intros Hc. apply Hneutral; [done|..]; eapply commit_value_same; try done; by intros any ->.
  - intros [= <-]. apply Hneutral; [done..|]. cbn [txn on_txn].
    destruct set; [apply same_bitmaps_put|apply same_bitmaps_delete]; apply (bool_decide_unpack _);
      by vm_compute.
  - by apply commit_bitmap_simulates.
  - destruct (value_resolve v (assigned t)) as [l|e]; [|done]. intros [= <-].
    apply Hneutral; [done..|]. apply same_bitmaps_put, (bool_decide_unpack _). by vm_compute.
Qed.

Lemma commit_ops_simulates b0 b ops t s t' :
  0 ≤ b0 ≤ b → b + 100 * Z.of_nat (length ops) ≤ u32_max →
  txn_inv b t → Forall (op_wf b0) ops → abs t s → commit_ops t ops = Ok t' →
  ∃ s', spec_run s ops s' ∧ abs t' s' ∧ txn_inv (b + 100 * Z.of_nat (length ops)) t'.
Proof.
  revert b t s. induction ops as [|op ops IH]; intros b t s Hb0 Hb Hinv Hwf Habs.
  { intros [= <-]. exists s. split; [constructor|]. split; [done|]. by rewrite Z.add_0_r. }
  inversion Hwf as [|? ? Hop Hops]; subst. cbn [StoreTxn.commit_ops length] in *.
  destruct (commit_op t op) as [t1|e] eqn:H1; [|done]. cbn [mbind].
  destruct (commit_op_simulates b0 b t op s t1) as (Hinv1 & s1 & Hs1 & Ha1); try done; [lia|].
  intros H2. destruct (IH (b + 100) t1 s1) as (s2 & Hr & Ha2 & Hi2); try done; [lia|lia|].
  exists s2. split; [by econstructor|]. split; [done|].
  by replace (b + 100 * Z.of_nat (S (length ops))) with (b + 100 + 100 * Z.of_nat (length ops)) by lia.
Qed.
End Refinement.

(** ** Counters *)

Lemma i64_range z : i64_ok (i64 z).
Proof. unfold i64_ok, i64. pose proof (Z.mod_pos_bound (z + 2 ^ 63) (2 ^ 64)). lia. Qed.

Lemma i64_id z : i64_ok z → i64 z = z.
Proof. unfold i64_ok, i64. intros Hz. rewrite Z.mod_small by lia. lia. Qed.

Lemma i64_mod z : i64 (z mod 2 ^ 64) = i64 z.
Proof. unfold i64. by rewrite Zplus_mod_idemp_l. Qed.

Lemma i64_add_l x y : i64 (i64 x + y) = i64 (x + y).
Proof.
  unfold i64. replace ((x + 2 ^ 63) mod 2 ^ 64 - 2 ^ 63 + y + 2 ^ 63)
    with ((x + 2 ^ 63) mod 2 ^ 64 + y) by lia.
  rewrite Zplus_mod_idemp_l. by replace (x + 2 ^ 63 + y) with (x + y + 2 ^ 63) by lia.
Qed.

Lemma i64_le_bytes v : i64_from_le_bytes (i64_to_le_bytes v) = Some (i64 v).
Proof.
  unfold i64_from_le_bytes, i64_to_le_bytes, le_bytes, from_le.
  rewrite length_reverse, length_be_bytes, reverse_involutive, from_be_be_bytes. cbn [Nat.eqb].
  change (256 ^ Z.of_nat 8) with (2 ^ 64). by rewrite i64_mod.
Qed.

Definition add_ops (class : ValueClass MaybeDynamicId) (adds : list (bool * Z)) : list Operation :=
  (λ x : bool * Z, OpValue class (if x.1 then AddAndGet x.2 else AtomicAdd x.2)) <$> adds.

Definition sum_adds (adds : list (bool * Z)) : Z := foldr (λ x acc, x.2 + acc) 0 adds.

(** The values that the [AddAndGet]s among the additions report. *)
Fixpoint reported (v : Z) (adds : list (bool * Z)) : list Z :=
  match adds with
  | [] => []
  | (get, n) :: adds => (if get : bool then [i64 (v + n)] else []) ++ reported (i64 (v + n)) adds
  end.

Section Counters.
Context `{KvLaws DB} {R : Type} (gen_range : R → Z → Z * R) (xxh3_64 : bytes → Z).

#[local] Abbreviation Txn := (Txn (DB := DB) (R := R)).
#[local] Abbreviation commit_op := (commit_op gen_range xxh3_64).
#[local] Abbreviation commit_ops := (commit_ops gen_range xxh3_64).

(** One addition: the row of the counter holds the sum, the others are as before. *)
Lemma add_step (t : Txn) class get n v :
  i64_ok n → counter_at (txn t) (value_subspace class (collection t)) (value_key t class) = Ok v →
  ∃ t', commit_op t (OpValue class (if get : bool then AddAndGet n else AtomicAdd n)) = Ok t' ∧
    value_key t' class = value_key t class ∧ collection t' = collection t ∧
    counter_at (txn t') (value_subspace class (collection t)) (value_key t class) = Ok (i64 (v + n)) ∧
    counter_ids (assigned t') = counter_ids (assigned t) ++ (if get then [i64 (v + n)] else []) ∧
    ∀ cf k, ¬ (cf = value_subspace class (collection t) ∧ k = value_key t class) →
      kv_get (txn t') cf k = kv_get (txn t) cf k.
Proof.
  intros Hn Hv. set (cf := value_subspace class (collection t)) in *. set (key := value_key t class) in *.
  assert (∀ l, deserialize_i64_le l = Ok v → i64_from_le_bytes l = Some v) as Hde.
  { intros l. unfold deserialize_i64_le. destruct (i64_from_le_bytes l); [|done]. by intros [= ->]. }
  destruct get; cbn [StoreTxn.commit_op commit_value]; fold key cf.
  - assert ((match kv_get (txn t) cf key with
             | Some l => v ← deserialize_i64_le l; Ok (i64 (v + n))
             | None => Ok n end) = Ok (i64 (v + n))) as ->.
    { unfold counter_at in Hv. destruct (kv_get (txn t) cf key); [by rewrite Hv|].
      injection Hv as <-. by rewrite Z.add_0_l, i64_id. }
    eexists. split; [reflexivity|]. split_and!; try done.
    + unfold counter_at. cbn [txn set_assigned on_txn]. rewrite kv_get_put, decide_True by done.
      unfold deserialize_i64_le. rewrite i64_le_bytes, i64_id by apply i64_range. done.
    + intros cf' k' Hne. cbn [txn set_assigned on_txn]. by rewrite kv_get_put, decide_False.
  - eexists. split; [reflexivity|]. split_and!; try done.
    + unfold counter_at. cbn [txn on_txn].
      rewrite (kv_get_merge _ _ _ _ (i64_to_le_bytes (i64 (v + n)))).
      { unfold deserialize_i64_le. rewrite i64_le_bytes, i64_id by apply i64_range. done. }
      unfold numeric_value_merge, counter_at in *. destruct (kv_get (txn t) cf key) as [l|].
      * rewrite (Hde l Hv). cbn [mbind option_bind merge_operands]. rewrite i64_le_bytes.
        cbn [mbind option_bind merge_operands]. by rewrite (i64_id n).
      * injection Hv as <-. cbn [mbind option_bind merge_operands]. rewrite i64_le_bytes.
        cbn [mbind option_bind merge_operands]. by rewrite (i64_id n).
    + simpl. by rewrite app_nil_r.
    + intros cf' k' Hne. cbn [txn on_txn]. by apply kv_get_merge_ne.
Qed.

Lemma adds_run adds (t : Txn) class v :
  Forall (λ x, i64_ok x.2) adds → i64_ok v →
  counter_at (txn t) (value_subspace class (collection t)) (value_key t class) = Ok v →
  ∃ t', commit_ops t (add_ops class adds) = Ok t' ∧
    counter_at (txn t') (value_subspace class (collection t)) (value_key t class)
      = Ok (i64 (v + sum_adds adds)) ∧
    counter_ids (assigned t') = counter_ids (assigned t) ++ reported v adds ∧
    ∀ cf k, ¬ (cf = value_subspace class (collection t) ∧ k = value_key t class) →
      kv_get (txn t') cf k = kv_get (txn t) cf k.
Proof.
  intros Hadds. revert t v. induction Hadds as [|[get n] adds Hn Hadds IH]; intros t v Hok Hv.
  - exists t. split_and!; try done; [|by rewrite app_nil_r].
    simpl. by rewrite Z.add_0_r, i64_id.
  - destruct (add_step t class get n v Hn Hv) as (t1 & H1 & Hkey & Hcol & Hv1 & Hids1 & Hf1).
    cbn [add_ops fmap list_fmap StoreTxn.commit_ops fst snd]. rewrite H1. cbn [mbind].
    rewrite <- Hkey, <- Hcol in Hv1.
    destruct (IH t1 (i64 (v + n)) (i64_range _) Hv1) as (t2 & H2 & Hv2 & Hids2 & Hf2).
    rewrite Hkey, Hcol in Hv2, Hf2. exists t2. split_and!; [exact H2| | |].
    + rewrite Hv2, i64_add_l. simpl. do 2 f_equal. lia.
    + rewrite Hids2, Hids1. simpl. by rewrite <- app_assoc.
    + intros cf k Hne. by rewrite Hf2, Hf1.
Qed.
End Counters.

(** ** Batches that cannot fail *)

Definition value_static (v : MaybeDynamicValue) : bool :=
  match v with StaticValue _ => true | DynamicValue _ => false end.

Definition op_static (op : Operation) : bool :=
  match op with
  | OpValue _ (SetValue v) | OpLog v => value_static v
  | _ => true
  end.

Section Total.
Context `{KvLaws DB} {R : Type} (gen_range : R → Z → Z * R) (xxh3_64 : bytes → Z).
Context (gen_range_ok : ∀ r n, 0 < n → 0 ≤ (gen_range r n).1 < n).

Lemma commit_op_total b (t : Txn (DB := DB) (R := R)) op :
  0 ≤ b → b + 100 ≤ u32_max → txn_inv b t → op_static op = true → is_atomic [op] = true →
  ∃ t', commit_op gen_range xxh3_64 t op = Ok t'.
Proof.
  intros Hb0 Hb Hinv Hst Hat.
  destruct op as [a|c|d|i|class av|class op|f k set|class set|v]; try discriminate Hat;
    cbn [commit_op]; try by eexists.
  - destruct op as [[l|f]|n|n|]; (discriminate Hat || discriminate Hst || by eexists).
  - unfold commit_bitmap.
    destruct (set && is_document_ids class && (document_id t =? u32_max)); [|by eexists].
    destruct (assign_document_spec gen_range gen_range_ok b t Hinv Hb0 Hb) as (d & r & -> & _).
    eexists. reflexivity.
  - destruct v; [|discriminate Hst]. by eexists.
Qed.

Lemma is_atomic_cons op ops :
  is_atomic (op :: ops) = true ↔ is_atomic [op] = true ∧ is_atomic ops = true.
Proof.
  unfold is_atomic. simpl. rewrite orb_false_r, negb_orb. by rewrite andb_true_iff.
Qed.

Lemma commit_ops_total b0 b ops (t : Txn (DB := DB) (R := R)) s :
  0 ≤ b0 ≤ b → b + 100 * Z.of_nat (length ops) ≤ u32_max →
  txn_inv b t → Forall (op_wf b0) ops → abs t s →
  forallb op_static ops = true → is_atomic ops = true →
  ∃ t', commit_ops gen_range xxh3_64 t ops = Ok t'.
Proof.
  revert b t s. induction ops as [|op ops IH]; intros b t s Hb0 Hb Hinv Hwf Habs Hst Hat.
  { by eexists. }
  inversion Hwf as [|? ? Hop Hops]; subst. cbn [length forallb commit_ops] in *.
  apply andb_prop in Hst as [Hst1 Hst2]. apply is_atomic_cons in Hat as [Hat1 Hat2].
  destruct (commit_op_total b t op) as [t1 H1]; try done; [lia..|].
  destruct (commit_op_simulates gen_range xxh3_64 gen_range_ok b0 b t op s t1)
    as (Hinv1 & s1 & _ & Ha1); try done; [lia|].
  rewrite H1. apply (IH (b + 100) t1 s1); try done; lia.
Qed.
End Total.

(** ** Properties *)


Definition coin (r n : Z) : Z * Z := (r mod n, r + 1).
Definition no_hash (l : bytes) : Z := 0.

Definition create_two : list Operation :=
  create_document (create_document (with_collection 1 (with_account_id 3 builder_new))).


(**  Additions to a counter within a batch, atomic or with the new value
    returned, leave it at the sum of its old value and all of them, wrapped to 64
    bits; each [AddAndGet] reports the value after it, and no other row changes. *)
Theorem counter_adds `{KvLaws DB} {R} (gen_range : R → Z → Z * R) (xxh3_64 : bytes → Z)
    (t : Txn (DB := DB) (R := R)) (class : ValueClass MaybeDynamicId) (adds : list (bool * Z)) (v : Z)
    (Hadds : Forall (λ x, i64_ok x.2) adds) (Hok : i64_ok v)
    (Hv : counter_at (txn t) (value_subspace class (collection t)) (value_key t class) = Ok v) :
  ∃ t', commit_ops gen_range xxh3_64 t (add_ops class adds) = Ok t' ∧
    counter_at (txn t') (value_subspace class (collection t)) (value_key t class)
      = Ok (i64 (v + sum_adds adds)) ∧
    counter_ids (assigned t') = counter_ids (assigned t) ++ reported v adds ∧
    ∀ cf k, ¬ (cf = value_subspace class (collection t) ∧ k = value_key t class) →
      kv_get (txn t') cf k = kv_get (txn t) cf k.
Proof. by apply adds_run. Qed.

Lemma counter_adds_witness :
  ∃ t', commit_ops coin no_hash (txn_new (∅ : MapStore.DB) 0)
          (add_ops (Directory (UsedQuota 3)) [(true, 100); (false, -30); (true, 5)]) = Ok t' ∧
    counter_ids (assigned t') = [100; 75].
Proof.
  destruct (counter_adds coin no_hash (txn_new (∅ : MapStore.DB) 0) (Directory (UsedQuota 3))
    [(true, 100); (false, -30); (true, 5)] 0) as (t' & Ht & _ & Hids & _).
  - repeat constructor; vm_compute; discriminate || reflexivity.
  - split; vm_compute; discriminate || reflexivity.
  - reflexivity.
  - exists t'. split; [exact Ht|]. rewrite Hids. vm_compute. reflexivity.
Defined.

(** C28.  [write] decides after eleven attempts at most.  Its answer is that of
    the last attempt it makes; the attempts before it met a conflict in the engine
    and wrote nothing, so a batch takes effect at most once, and not at all when
    an error is returned. *)
Theorem write_once `{KvStore DB} {R} (gen_range : R → Z → Z * R) (xxh3_64 : bytes → Z)
    (ops : list Operation) (attempts : list (Attempt (DB := DB) (R := R)))
    (Hlen : (MAX_COMMIT_ATTEMPTS < length attempts)%nat) :
  ∃ i a, (i ≤ MAX_COMMIT_ATTEMPTS)%nat ∧ attempts !! i = Some a ∧
    write gen_range xxh3_64 ops attempts = Some (commit gen_range xxh3_64 ops a) ∧
    (∀ e db, commit gen_range xxh3_64 ops a = (Err e, db) → db = at_db a) ∧
    ∀ j a', (j < i)%nat → attempts !! j = Some a' →
      ∃ kind, retriable kind = true ∧ commit gen_range xxh3_64 ops a' = (Err (RocksDB kind), at_db a').
Proof.
  assert (∀ a e db, commit gen_range xxh3_64 ops a = (Err e, db) → db = at_db a) as Herr.
  { intros a e db. unfold commit.
    destruct (commit_ops _ _ _ _) as [t|e']; [destruct (at_engine a)|]; by intros [= _ <-]. }
  unfold write. set (m := MAX_COMMIT_ATTEMPTS) in *.
  assert (∀ n k l, (k + n = m)%nat → (n < length l)%nat →
    ∃ i a, (i ≤ n)%nat ∧ l !! i = Some a ∧
      write_attempts gen_range xxh3_64 ops k l = Some (commit gen_range xxh3_64 ops a) ∧
      ∀ j a', (j < i)%nat → l !! j = Some a' →
        ∃ kind, retriable kind = true ∧ commit gen_range xxh3_64 ops a' = (Err (RocksDB kind), at_db a'))
    as Hloop.
  { intros n. induction n as [|n IH]; intros k [|a l] Hk Hl; simpl in Hl; try lia; cbn [write_attempts].
    - exists 0%nat, a. split_and!; [lia|done| |intros; lia].
      destruct (commit gen_range xxh3_64 ops a) as [[ids|[e|kind]] db]; [done..|].
      rewrite (proj2 (Nat.ltb_ge _ _)) by lia. by rewrite andb_false_r.
    - destruct (commit gen_range xxh3_64 ops a) as [[ids|[e|kind]] db] eqn:Hc.
      + exists 0%nat, a. split_and!; [lia|done|by rewrite Hc|intros; lia].
      + exists 0%nat, a. split_and!; [lia|done|by rewrite Hc|intros; lia].
      + destruct (retriable kind && (k <? MAX_COMMIT_ATTEMPTS)%nat && at_in_time a) eqn:Hr.
        2: { exists 0%nat, a. split_and!; [lia|done|by rewrite Hc|intros; lia]. }
        destruct (IH (S k) l) as (i & a' & Hi & Ha' & Hw & Hbefore); [lia|lia|].
        exists (S i), a'. split_and!; [lia|done|done|]. intros [|j] a'' Hj Hj'; [|by apply (Hbefore j); [lia|]].
        simpl in Hj'. injection Hj' as <-. exists kind. rewrite Hc, (Herr a _ db Hc).
        apply andb_prop in Hr as [[Hr _]%andb_prop _]. done. }
  destruct (Hloop m 0%nat attempts) as (i & a & Hi & Ha & Hw & Hbefore); [lia|lia|].
  exists i, a. split_and!; try done. apply Herr.
Qed.

Definition busy_attempt : Attempt (DB := MapStore.DB) (R := Z) :=
  {| at_db := ∅; at_rng := 0; at_engine := Some Busy; at_in_time := true |}.

Lemma write_once_witness :
  ∃ i a, (i ≤ MAX_COMMIT_ATTEMPTS)%nat ∧ replicate 20 busy_attempt !! i = Some a ∧
    write coin no_hash create_two (replicate 20 busy_attempt) = Some (commit coin no_hash create_two a).
Proof.
  destruct (write_once coin no_hash create_two (replicate 20 busy_attempt)) as (i & a & Hi & Ha & Hw & _).
  - vm_compute. lia.
  - exists i, a. split_and!; [exact Hi|exact Ha|exact Hw].
Defined.

(** A batch that replaces a value it has read, guarded by the hash of what was read. *)
Definition guarded_update (a c d : Z) (class : ValueClass MaybeDynamicId) (hash : Z) (new : bytes)
    : list Operation :=
  set class (StaticValue new) (assert_value class (AssertHash hash)
    (update_document d (with_collection c (with_account_id a builder_new)))).

(** C9.  Two writers that read the same value and both try to replace it: the
    first commits, and the second, whose assertion names the hash of what it read,
    is refused and changes nothing, so no update is lost. *)
Theorem no_lost_update `{KvLaws DB} {R} (gen_range : R → Z → Z * R) (xxh3_64 : bytes → Z)
    (db : DB) (r1 r2 : R) (a c d : Z) (class : ValueClass MaybeDynamicId) (old new1 new2 : bytes) (b : bool)
    (Hold : kv_get db (value_subspace class c)
              (value_serialize (Some assigned_default) class a c d 0) = Some old)
    (Hnew : xxh3_64 new1 ≠ xxh3_64 old) :
  let first := commit gen_range xxh3_64 (guarded_update a c d class (xxh3_64 old) new1)
    {| at_db := db; at_rng := r1; at_engine := None; at_in_time := b |} in
  let second := commit gen_range xxh3_64 (guarded_update a c d class (xxh3_64 old) new2)
    {| at_db := first.2; at_rng := r2; at_engine := None; at_in_time := b |} in
  first.1 = Ok assigned_default ∧
  kv_get first.2 (value_subspace class c)
    (value_serialize (Some assigned_default) class a c d 0) = Some new1 ∧
  second = (Err (Internal AssertValueFailed), first.2).
Proof.
  intros first second. set (cf := value_subspace class c) in *.
  set (key := value_serialize (Some assigned_default) class a c d 0) in *.
  assert (first = (Ok assigned_default, kv_put cf key new1 db)) as Hfirst.
  { unfold first, commit. cbn [commit_ops commit_op guarded_update set assert_value update_document
      with_collection with_account_id builder_new app mbind result_bind txn txn_new collection
      account_id document_id assigned value_key at_db at_rng at_engine]. 
    unfold value_key. cbn [assigned account_id collection document_id]. fold cf key. rewrite Hold.
    cbn [assert_matches]. rewrite Z.eqb_refl. done. }
  assert (kv_get first.2 cf key = Some new1) as Hput.
  { rewrite Hfirst. cbn [snd]. by rewrite kv_get_put, decide_True. }
  split; [by rewrite Hfirst|]. split; [done|]. unfold second, commit.
  cbn [commit_ops commit_op guarded_update set assert_value update_document
      with_collection with_account_id builder_new app mbind result_bind txn txn_new collection
      account_id document_id assigned value_key at_db at_rng at_engine].
  unfold value_key. cbn [assigned account_id collection document_id]. fold cf key. rewrite Hput.
  cbn [assert_matches]. by rewrite (proj2 (Z.eqb_neq _ _) Hnew).
Qed.

Definition first_byte (l : bytes) : Z := match l with b :: _ => b | [] => 0 end.
Definition one_value : MapStore.DB :=
  kv_put (value_subspace (T := MaybeDynamicId) (Property 7) 0)
    (value_serialize (T := MaybeDynamicId) (Some assigned_default) (Property 7) 3 0 1 0) [1] ∅.

Lemma no_lost_update_witness :
  (commit coin first_byte (guarded_update 3 0 1 (Property 7) 1 [2])
     {| at_db := one_value; at_rng := 0; at_engine := None; at_in_time := true |}).1
  = Ok assigned_default.
Proof.
  apply (no_lost_update coin first_byte one_value 0 0 3 0 1 (Property 7) [1] [2] [3] true).
  - vm_compute. reflexivity.
  - vm_compute. discriminate.
Defined.
