(* ===== verification/StoreQuery.v ===== *)
(** * Queries: filters over the document ids of a collection

    crates/store/src/query/mod.rs and query/filter.rs, with
    [get_bitmaps_intersection] of dispatch/store.rs, the token hash of
    write/hash.rs and the word tokenizer of crates/nlp.  The character tables of
    the language, the two hash functions and the iteration order of a hash set
    are parameters. *)

From stdpp Require Import sorting.
From S2P Require Import Prelude Utf8 Leb128 StoreKeys KvStore.

#[local] Opaque write_loop.

(** ** Words *)

Definition MAX_TOKEN_LENGTH : Z := Z.shiftr u8_max 1.

(** The tables of [char] and the lower case of a string. *)
Class Chars := {
  is_alphanumeric : Z → bool;
  is_uppercase : Z → bool;
  to_lowercase : list Z → list Z;
}.

(** The hash functions that tokens longer than eight bytes go through, and the
    order in which a hash set of words is visited. *)
Class Hashes := {
  xxh3_64 : bytes → Z;
  farmhash64 : bytes → Z;
  set_order : list (list Z) → list (list Z);
}.

Section Words.
Context `{Chars}.

Definition word_token (word : list Z) (max_token_length : Z) : list (list Z) :=
  if (0 <? Z.of_nat (length (str_bytes word)))
     && (Z.of_nat (length (str_bytes word)) <=? max_token_length)
  then [if existsb is_uppercase word then to_lowercase word else word]
  else [].

(** The iterator of [WordTokenizer], run to its end; [word] holds the
    characters between [token_start] and the current position. *)
Fixpoint words_from (word text : list Z) (max_token_length : Z) : list (list Z) :=
  match text with
  | [] => word_token word max_token_length
  | ch :: text =>
      if is_alphanumeric ch then words_from (word ++ [ch]) text max_token_length
      else word_token word max_token_length ++ words_from [] text max_token_length
  end.

Definition word_tokenizer (text : list Z) (max_token_length : Z) : list (list Z) :=
  words_from [] text max_token_length.
End Words.

Section TokenHash.
Context `{Hashes}.

Definition hash (item : bytes) : bytes :=
  if (length item <=? 8)%nat then item ++ replicate (8 - length item) 0
  else take 4 (le_bytes 8 (xxh3_64 item)) ++ take 4 (le_bytes 8 (farmhash64 item)).

Definition bitmap_hash_new (item : bytes) : BitmapHash :=
  {| bh_len := Z.min (Z.of_nat (length item)) MAX_TOKEN_LENGTH; bh_hash := hash item |}.

Definition text_token (field : Z) (token : bytes) : BitmapClass Z :=
  Text field (bitmap_hash_new token).
End TokenHash.

(** ** Filters *)

Inductive Operator :=
| LowerThan
| LowerEqualThan
| GreaterThan
| GreaterEqualThan
| Equal.

Inductive Filter :=
| MatchValue (field : Z) (op : Operator) (value : bytes)
| HasText (field : Z) (text : list Z) (tokenize : bool)
| InBitmap (class : BitmapClass Z)
| DocumentSet (set : gset Z)
| And
| Or
| Not
| End_.

Record State := {
  st_op : Filter;
  st_bm : option (gset Z);
}.

Definition state_from (op : Filter) : State := {| st_op := op; st_bm := None |}.

Definition is_and (f : Filter) : bool := match f with And => true | _ => false end.
Definition is_not (f : Filter) : bool := match f with Not => true | _ => false end.
Definition is_end (f : Filter) : bool := match f with End_ => true | _ => false end.

(** [BitXorAssign] of the bitmaps *)
Definition bitxor (a b : gset Z) : gset Z := (a ∖ b) ∪ (b ∖ a).

Definition op_matches (op : Operator) (value match_value : bytes) : bool :=
  match op with
  | LowerThan => bool_decide (bytes_lt value match_value)
  | LowerEqualThan => bool_decide (bytes_le value match_value)
  | GreaterThan => bool_decide (bytes_lt match_value value)
  | GreaterEqualThan => bool_decide (bytes_le match_value value)
  | Equal => bool_decide (value = match_value)
  end.

(** [key.starts_with(&prefix)] *)
Definition starts_with (key prefix : bytes) : bool :=
  bool_decide (take (length prefix) key = prefix).

(** The ends of the range of index keys that [op] looks at; the sum [field + 1]
    of bytes wraps around. *)
Definition index_range (account_id collection field : Z) (match_value : bytes) (op : Operator)
    : IndexKey * IndexKey :=
  let key document_id field value :=
    {| ik_account_id := account_id; ik_collection := collection;
       ik_document_id := document_id; ik_field := field; ik_key := value |} in
  match op with
  | LowerThan => (key 0 field [], key 0 field match_value)
  | LowerEqualThan => (key 0 field [], key u32_max field match_value)
  | GreaterThan => (key u32_max field match_value, key u32_max (wrap 8 (field + 1)) [])
  | GreaterEqualThan => (key 0 field match_value, key u32_max (wrap 8 (field + 1)) [])
  | Equal => (key 0 field match_value, key u32_max field match_value)
  end.

(** The callback of [range_to_bitmap]. *)
Definition range_row (op : Operator) (prefix match_value key : bytes) (bm : gset Z)
    : result StoreError (bool * gset Z) :=
  if negb (starts_with key prefix) then Ok (false, bm)
  else
    let id_pos := Z.of_nat (length key) - U32_LEN in
    value ← (if index_prefix_len <=? id_pos
             then Ok (take (Z.to_nat (id_pos - index_prefix_len)) (drop (Z.to_nat index_prefix_len) key))
             else Err DataCorruption);
    if op_matches op value match_value then
      id ← deserialize_be_u32 key id_pos;
      Ok (true, {[id]} ∪ bm)
    else Ok (true, bm).

(** One operand joins the group: [dest] is the bitmap of the group so far. *)
Definition apply_operand (op : Filter) (dest result : option (gset Z)) (not_mask : gset Z) : gset Z :=
  match dest with
  | Some dest =>
      match op with
      | And => match result with Some result => dest ∩ result | None => ∅ end
      | Or => match result with Some result => dest ∪ result | None => dest end
      | _ => match result with Some result => dest ∩ bitxor result not_mask | None => dest end
      end
  | None =>
      match result with
      | Some result => if is_not op then bitxor result not_mask else result
      | None => if is_not op then not_mask else ∅
      end
  end.

(** What a filter does: open a group, close one or give an operand, or end the
    loop. *)
Inductive Next :=
| Push (state : State) (stack : list State)
| Operand (operand : option (gset Z)) (state : State) (stack : list State)
| Break.

Section Query.
Context `{KV : KvStore DB} `{CH : Chars} `{HA : Hashes}.

Definition range_to_bitmap (db : DB) (account_id collection field : Z) (match_value : bytes)
    (op : Operator) : result StoreError (option (gset Z)) :=
  let (begin, end_) := index_range account_id collection field match_value op in
  let prefix := index_prefix_serialize
    {| ip_account_id := account_id; ip_collection := collection; ip_field := field |} 0 in
  bm ← iterate db
    {| ip_subspace := SUBSPACE_INDEXES; ip_begin := index_key_serialize begin 0;
       ip_end := index_key_serialize end_ 0; ip_first := false; ip_ascending := true |}
    (λ key _ bm, range_row op prefix match_value key bm) ∅;
  Ok (if decide (bm = ∅) then None else Some bm).

Fixpoint bitmaps_intersection (db : DB) (account_id collection : Z)
    (keys : list (BitmapClass Z)) (acc : option (gset Z)) : result StoreError (option (gset Z)) :=
  match keys with
  | [] => Ok acc
  | class :: keys =>
      bitmap ← get_bitmap db class account_id collection 0;
      match bitmap, acc with
      | None, _ => Ok None
      | Some bitmap, None => bitmaps_intersection db account_id collection keys (Some bitmap)
      | Some bitmap, Some acc =>
          if decide (acc ∩ bitmap = ∅) then Ok (Some ∅)
          else bitmaps_intersection db account_id collection keys (Some (acc ∩ bitmap))
      end
  end.

Definition get_bitmaps_intersection (db : DB) (account_id collection : Z)
    (keys : list (BitmapClass Z)) : result StoreError (option (gset Z)) :=
  bitmaps_intersection db account_id collection keys None.

Definition operand (db : DB) (account_id collection : Z) (f : Filter)
    : result StoreError (option (gset Z)) :=
  match f with
  | MatchValue field op value => range_to_bitmap db account_id collection field value op
  | HasText field text tokenize =>
      if tokenize then
        get_bitmaps_intersection db account_id collection
          ((λ word, text_token field (str_bytes word))
             <$> set_order (word_tokenizer text MAX_TOKEN_LENGTH))
      else get_bitmap db (text_token field (str_bytes text)) account_id collection 0
  | InBitmap class => get_bitmap db class account_id collection 0
  | DocumentSet set => Ok (Some set)
  | And | Or | Not | End_ => Ok None
  end.

Definition next (db : DB) (account_id collection : Z) (f : Filter) (state : State)
    (stack : list State) : result StoreError Next :=
  match f with
  | And | Or | Not => Ok (Push (state_from f) (state :: stack))
  | End_ =>
      match stack with
      | prev_state :: stack => Ok (Operand (st_bm state) prev_state stack)
      | [] => Ok Break
      end
  | _ =>
      bm ← operand db account_id collection f;
      Ok (Operand bm state stack)
  end.

(** [not_mask], fetched the first time an operand joins a [Not] group. *)
Definition fetch_mask (db : DB) (account_id collection : Z) (state : State)
    (not_mask : option (gset Z)) : result StoreError (option (gset Z)) :=
  if is_not (st_op state) then
    match not_mask with
    | Some _ => Ok not_mask
    | None =>
        bm ← get_bitmap db DocumentIds account_id collection 0;
        Ok (Some (default ∅ bm))
    end
  else Ok not_mask.

(** The loop of [filter].  [skipping] is set while the inner loop drops filters
    up to the next [End_]; [not_mask] is [None] as long as [not_fetch] is false. *)
Fixpoint filter_loop (db : DB) (account_id collection : Z) (skipping : bool)
    (filters : list Filter) (state : State) (stack : list State) (not_mask : option (gset Z))
    : result StoreError (gset Z) :=
  match filters with
  | [] => Ok (default ∅ (st_bm state))
  | f :: filters =>
      if skipping && negb (is_end f) then
        filter_loop db account_id collection true filters state stack not_mask
      else
        n ← next db account_id collection f state stack;
        match n with
        | Push state stack =>
            filter_loop db account_id collection false filters state stack not_mask
        | Operand bm state stack =>
            not_mask ← fetch_mask db account_id collection state not_mask;
            let dest := apply_operand (st_op state) (st_bm state) bm (default ∅ not_mask) in
            filter_loop db account_id collection (is_and (st_op state) && bool_decide (dest = ∅))
              filters {| st_op := st_op state; st_bm := Some dest |} stack not_mask
        | Break => Ok (default ∅ (st_bm state))
        end
  end.

Definition filter_documents (db : DB) (account_id collection : Z) (filters : list Filter)
    : result StoreError (gset Z) :=
  match filters with
  | [] =>
      bm ← get_bitmap db DocumentIds account_id collection 0;
      Ok (default ∅ bm)
  | _ => filter_loop db account_id collection false filters (state_from And) [] None
  end.
End Query.

(** ** Queries as trees *)

Inductive Logical := LAnd | LOr | LNot.

#[export] Instance logical_eq_dec : EqDecision Logical.
Proof. solve_decision. Defined.

Definition logical_filter (op : Logical) : Filter :=
  match op with LAnd => And | LOr => Or | LNot => Not end.

Inductive Query :=
| QLeaf (f : Filter)
| QGroup (op : Logical) (qs : list Query).

Definition is_leaf_filter (f : Filter) : bool :=
  match f with And | Or | Not | End_ => false | _ => true end.

Definition is_leaf (q : Query) : bool := match q with QLeaf _ => true | _ => false end.

(** The list of filters that a tree is sent as. *)
Fixpoint flatten (q : Query) : list Filter :=
  match q with
  | QLeaf f => [f]
  | QGroup op qs => logical_filter op :: (qs ≫= flatten) ++ [End_]
  end.

Fixpoint query_forall (P : Query → Prop) (q : Query) : Prop :=
  P q ∧ match q with
        | QLeaf _ => True
        | QGroup _ qs => foldr (λ q acc, query_forall P q ∧ acc) True qs
        end.

Lemma query_forall_group P op qs :
  query_forall P (QGroup op qs) ↔ P (QGroup op qs) ∧ Forall (query_forall P) qs.
Proof.
  cbn [query_forall]. apply and_iff_compat_l. induction qs as [|q qs IH]; [by rewrite Forall_nil|].
  cbn [foldr]. rewrite Forall_cons. tauto.
Qed.

Lemma query_ind' (P : Query → Prop) :
  (∀ f, P (QLeaf f)) → (∀ op qs, Forall P qs → P (QGroup op qs)) → ∀ q, P q.
Proof.
  intros Hleaf Hgroup. fix IH 1. intros [f|op qs]; [apply Hleaf|]. apply Hgroup.
  induction qs as [|q qs IHqs]; constructor; [apply IH|apply IHqs].
Qed.

Section Meaning.
Context `{KV : KvStore DB} `{CH : Chars} `{HA : Hashes} (db : DB) (account_id collection : Z).

Definition leaf_set (f : Filter) : gset Z :=
  match operand db account_id collection f with Ok bm => default ∅ bm | Err _ => ∅ end.

(** All documents of the collection. *)
Definition documents : gset Z :=
  match get_bitmap db DocumentIds account_id collection 0 with Ok bm => default ∅ bm | Err _ => ∅ end.

Definition meet_all (sets : list (gset Z)) : gset Z :=
  match sets with
  | [] => ∅
  | s :: sets => foldl (∩) s sets
  end.

(** The documents a tree denotes: the operators of RFC 8620, a [Not] group being
    the documents that none of its members matches. *)
Fixpoint meaning (q : Query) : gset Z :=
  match q with
  | QLeaf f => leaf_set f
  | QGroup LAnd qs => meet_all (meaning <$> qs)
  | QGroup LOr qs => ⋃ (meaning <$> qs)
  | QGroup LNot qs => documents ∖ ⋃ (meaning <$> qs)
  end.

(** The members of an [And] group behind the point where the group has become
    empty are plain conditions. *)
Fixpoint leaves_after_empty (acc : option (gset Z)) (qs : list Query) : Prop :=
  match qs with
  | [] => True
  | q :: qs =>
      let acc := match acc with Some acc => acc ∩ meaning q | None => meaning q end in
      (acc = ∅ → Forall (λ q, is_leaf q) qs) ∧ leaves_after_empty (Some acc) qs
  end.

(** A node of a tree that the store evaluates as its meaning: a condition that
    can be read and holds only documents of the collection, or a group with
    members. *)
Definition node_ok (q : Query) : Prop :=
  match q with
  | QLeaf f =>
      is_leaf_filter f = true ∧ (∃ bm, operand db account_id collection f = Ok bm) ∧
      leaf_set f ⊆ documents
  | QGroup op qs => qs ≠ [] ∧ (op = LAnd → leaves_after_empty None qs)
  end.
End Meaning.

(** ** The loop computes the meaning *)

Section FilterProof.
Context `{KV : KvStore DB} `{CH : Chars} `{HA : Hashes} (db : DB) (account_id collection : Z).

#[local] Abbreviation loop := (filter_loop db account_id collection).
#[local] Abbreviation docs := (documents db account_id collection).
#[local] Abbreviation sem := (meaning db account_id collection).
#[local] Abbreviation ok := (query_forall (node_ok db account_id collection)).

(** What the loop does with an operand of the group [state]. *)
Definition absorb (filters : list Filter) (bm : option (gset Z)) (state : State)
    (stack : list State) (not_mask : option (gset Z)) : result StoreError (gset Z) :=
  not_mask ← fetch_mask db account_id collection state not_mask;
  let dest := apply_operand (st_op state) (st_bm state) bm (default ∅ not_mask) in
  loop (is_and (st_op state) && bool_decide (dest = ∅))
    filters {| st_op := st_op state; st_bm := Some dest |} stack not_mask.

Lemma loop_leaf f bm rest state stack nm :
  is_leaf_filter f = true → operand db account_id collection f = Ok bm →
  loop false (f :: rest) state stack nm = absorb rest bm state stack nm.
Proof. intros Hf Hbm. by destruct f; cbn [filter_loop next andb]; rewrite ?Hbm. Qed.

Lemma loop_end skipping rest state prev stack nm :
  loop skipping (End_ :: rest) state (prev :: stack) nm = absorb rest (st_bm state) prev stack nm.
Proof. cbn [filter_loop is_end negb]. by rewrite andb_false_r. Qed.

Lemma loop_open op rest state stack nm :
  loop false (logical_filter op :: rest) state stack nm
  = loop false rest (state_from (logical_filter op)) (state :: stack) nm.
Proof. by destruct op. Qed.

(** A group with one more member. *)
Definition join (op : Logical) (acc : option (gset Z)) (s : gset Z) : gset Z :=
  match op, acc with
  | LAnd, Some acc => acc ∩ s
  | LOr, Some acc => acc ∪ s
  | LNot, Some acc => acc ∖ s
  | LNot, None => docs ∖ s
  | _, None => s
  end.

Definition joined (op : Logical) (acc : option (gset Z)) (qs : list Query) : option (gset Z) :=
  foldl (λ acc q, Some (join op acc (sem q))) acc qs.

Definition mask_ok (nm : option (gset Z)) : Prop := ∀ m, nm = Some m → m = docs.

Definition within_docs (acc : option (gset Z)) : Prop := ∀ s, acc = Some s → s ⊆ docs.

Lemma bitxor_within s : s ⊆ docs → bitxor s docs = docs ∖ s.
Proof. unfold bitxor. set_solver. Qed.

Lemma join_within op acc s : within_docs acc → s ⊆ docs → join op acc s ⊆ docs.
Proof.
  intros Hacc Hs. destruct op, acc as [a|]; simpl; try done; try specialize (Hacc a eq_refl); set_solver.
Qed.

Lemma apply_operand_join op acc bm :
  within_docs acc → default ∅ bm ⊆ docs →
  apply_operand (logical_filter op) acc bm docs = join op acc (default ∅ bm).
Proof.
  intros Hacc Hs. destruct op, acc as [a|], bm as [s|]; simpl in *;
    try specialize (Hacc a eq_refl); rewrite ?bitxor_within by done; set_solver.
Qed.

Lemma apply_operand_mask op acc bm m1 m2 :
  op ≠ LNot → apply_operand (logical_filter op) acc bm m1 = apply_operand (logical_filter op) acc bm m2.
Proof. by destruct op, acc, bm. Qed.

Hypothesis Hmask : ∃ bm, get_bitmap db DocumentIds account_id collection 0 = Ok bm.

Lemma fetch_mask_ok state nm :
  mask_ok nm →
  ∃ nm', fetch_mask db account_id collection state nm = Ok nm' ∧ mask_ok nm' ∧
    (st_op state = Not → nm' = Some docs).
Proof using Hmask.
  intros Hnm. destruct Hmask as [bm Hbm]. unfold fetch_mask.
  destruct (is_not (st_op state)) eqn:Hnot.
  - destruct nm as [m|].
    + exists (Some m). pose proof (Hnm m eq_refl) as ->. done.
    + assert (docs = default ∅ bm) as Hdocs by (unfold documents; by rewrite Hbm).
      exists (Some docs). rewrite Hbm. split_and!; [by rewrite Hdocs|by intros m [= <-]|done].
  - exists nm. split_and!; [done..|]. intros Hop. by rewrite Hop in Hnot.
Qed.

Lemma absorb_join rest op acc bm stack nm :
  mask_ok nm → within_docs acc → default ∅ bm ⊆ docs →
  ∃ nm', mask_ok nm' ∧
    absorb rest bm {| st_op := logical_filter op; st_bm := acc |} stack nm
    = loop (is_and (logical_filter op) && bool_decide (join op acc (default ∅ bm) = ∅)) rest
        {| st_op := logical_filter op; st_bm := Some (join op acc (default ∅ bm)) |} stack nm'.
Proof using Hmask.
  intros Hnm Hacc Hs. set (st := {| st_op := _ |}).
  destruct (fetch_mask_ok st nm Hnm) as (nm' & Hf & Hnm' & Hnot). exists nm'. split; [done|].
  unfold absorb. rewrite Hf. cbn [mbind result_bind]. cbn [st_op st_bm st].
  rewrite <- apply_operand_join by done.
  assert (apply_operand (logical_filter op) acc bm (default ∅ nm')
          = apply_operand (logical_filter op) acc bm docs) as ->; [|done].
  destruct (decide (op = LNot)) as [->|Hop]; [by rewrite (Hnot eq_refl)|by apply apply_operand_mask].
Qed.

Lemma meet_all_foldl (sets : list (gset Z)) (s : gset Z) : foldl (∩) s sets ⊆ s.
Proof.
  revert s. induction sets as [|t sets IH]; intros s; [done|]. cbn [foldl]. transitivity (s ∩ t); [apply IH|].
  set_solver.
Qed.

Lemma joined_some op s qs :
  ∃ t, joined op (Some s) qs = Some t.
Proof. revert s. induction qs as [|q qs IH]; intros s; [by eexists|]. apply IH. Qed.

Lemma joined_and s qs : joined LAnd (Some s) qs = Some (foldl (∩) s (sem <$> qs)).
Proof. revert s. induction qs as [|q qs IH]; intros s; [done|]. apply IH. Qed.

Lemma joined_or s qs : joined LOr (Some s) qs = Some (s ∪ ⋃ (sem <$> qs)).
Proof.
  revert s. induction qs as [|q qs IH]; intros s; simpl; [by rewrite (right_id_L ∅ (∪))|].
  etransitivity; [apply IH|]. by rewrite <- (assoc_L (∪)).
Qed.

Lemma joined_not s qs : joined LNot (Some s) qs = Some (s ∖ ⋃ (sem <$> qs)).
Proof.
  revert s. induction qs as [|q qs IH]; intros s; simpl; [by rewrite difference_empty_L|].
  etransitivity; [apply IH|]. f_equal. set_solver.
Qed.

Lemma joined_meaning op qs : qs ≠ [] → joined op None qs = Some (sem (QGroup op qs)).
Proof.
  destruct qs as [|q qs]; [done|]. intros _. unfold joined. cbn [foldl].
  destruct op; cbn [join meaning fmap list_fmap meet_all union_list].
  - apply joined_and.
  - apply joined_or.
  - etransitivity; [apply joined_not|]. f_equal. set_solver.
Qed.

Lemma meaning_within q : ok q → sem q ⊆ docs.
Proof.
  induction q as [f|op qs IH] using query_ind'; intros Hok.
  - destruct Hok as [(_ & _ & Hs) _]. done.
  - apply query_forall_group in Hok as [[Hne _] Hall].
    assert (Forall (λ q, sem q ⊆ docs) qs) as Hqs.
    { apply Forall_forall. intros q Hq. rewrite Forall_forall in IH, Hall. auto. }
    destruct op; cbn [meaning].
    + destruct qs as [|q qs]; [done|]. cbn. etransitivity; [apply meet_all_foldl|]. by inversion Hqs.
    + clear -Hqs. induction Hqs as [|q qs Hq Hqs IH]; cbn; set_solver.
    + set_solver.
Qed.

(** The filters of a run of leaves are dropped up to the end of their group. *)
Lemma loop_skip_leaves qs rest state prev stack nm :
  Forall (λ q, is_leaf q) qs → Forall ok qs →
  loop true ((qs ≫= flatten) ++ End_ :: rest) state (prev :: stack) nm
  = absorb rest (st_bm state) prev stack nm.
Proof.
  induction 1 as [|q qs Hq Hqs IH]; intros Hok; [apply loop_end|].
  inversion Hok as [|? ? Hq' Hok']; subst. destruct q as [f|]; [|done].
  destruct Hq' as [(Hf & _) _]. rewrite bind_cons. cbn [flatten app].
  assert (is_end f = false) as He by by destruct f.
  cbn [filter_loop]. rewrite He. cbn [negb andb]. by apply IH.
Qed.

(** [loop] reads a tree as an operand of the group around it. *)
Definition reads_as_operand (q : Query) : Prop :=
  ∀ rest state stack nm, mask_ok nm →
    ∃ bm nm', mask_ok nm' ∧ default ∅ bm = sem q ∧
      loop false (flatten q ++ rest) state stack nm = absorb rest bm state stack nm'.

Lemma loop_members op qs acc rest prev stack nm :
  Forall ok qs → Forall reads_as_operand qs →
  mask_ok nm → within_docs acc → (op = LAnd → leaves_after_empty db account_id collection acc qs) →
  ∃ nm', mask_ok nm' ∧
    loop false ((qs ≫= flatten) ++ End_ :: rest)
      {| st_op := logical_filter op; st_bm := acc |} (prev :: stack) nm
    = absorb rest (joined op acc qs) prev stack nm'.
Proof using Hmask.
  intros Hok Hqs. revert acc nm. induction Hqs as [|q qs Hq Hqs IH]; intros acc nm Hnm Hacc Hand.
  { exists nm. split; [done|]. apply loop_end. }
  inversion Hok as [|? ? Hok1 Hok2]; subst. rewrite bind_cons, <- (assoc_L (++)).
  pose proof (meaning_within q Hok1) as Hin.
  destruct (Hq ((qs ≫= flatten) ++ End_ :: rest) {| st_op := logical_filter op; st_bm := acc |}
              (prev :: stack) nm Hnm) as (bm & nm1 & Hnm1 & Hbm & ->).
  destruct (absorb_join ((qs ≫= flatten) ++ End_ :: rest) op acc bm (prev :: stack) nm1) as (nm2 & Hnm2 & ->);
    [done..|by rewrite Hbm|].
  rewrite Hbm. assert (within_docs (Some (join op acc (sem q)))) as Hacc'.
  { intros s [= <-]. by apply join_within. }
  change (joined op acc (q :: qs)) with (joined op (Some (join op acc (sem q))) qs).
  destruct (is_and (logical_filter op) && bool_decide (join op acc (sem q) = ∅)) eqn:Hskip.
  - apply andb_true_iff in Hskip as [Hop Hempty%bool_decide_eq_true]. destruct op; [|done..].
    destruct (Hand eq_refl) as [Hleaves _]. exists nm2. split; [done|].
    rewrite loop_skip_leaves; [|by apply Hleaves; destruct acc|done]. cbn [st_bm].
    rewrite Hempty, joined_and. f_equal. f_equal. apply set_eq_subseteq. split; [set_solver|].
    apply meet_all_foldl.
  - apply IH; [done..|]. intros ->. destruct (Hand eq_refl) as [_ Htail]. by destruct acc.
Qed.

Lemma tree_operand q : ok q → reads_as_operand q.
Proof using Hmask.
  induction q as [f|op qs IH] using query_ind'; intros Hok rest state stack nm Hnm.
  - destruct Hok as [(Hf & [bm Hbm] & _) _]. exists bm, nm. split_and!; [done| |by apply loop_leaf].
    cbn [meaning]. unfold leaf_set. by rewrite Hbm.
  - pose proof (meaning_within _ Hok) as Hin.
    apply query_forall_group in Hok as [[Hne Hand] Hall].
    assert (Forall reads_as_operand qs) as Hqs.
    { apply Forall_forall. intros q Hq. rewrite Forall_forall in IH, Hall. auto. }
    cbn [flatten app]. rewrite loop_open, <- (assoc_L (++)).
    destruct (loop_members op qs None rest state stack nm) as (nm' & Hnm' & Heq); [done..|].
    exists (joined op None qs), nm'. split_and!; [done| |apply Heq]. by rewrite joined_meaning.
Qed.

(** Once the outermost group is empty nothing can change it. *)
Lemma loop_top_empty filters nm :
  loop true filters {| st_op := And; st_bm := Some ∅ |} [] nm = Ok ∅.
Proof using.
  induction filters as [|f filters IH]; [done|]. cbn [filter_loop].
  destruct (is_end f) eqn:He; [|done]. by destruct f.
Qed.

Lemma loop_top qs acc nm :
  Forall ok qs → mask_ok nm → within_docs acc →
  loop false (qs ≫= flatten) {| st_op := And; st_bm := acc |} [] nm
  = Ok (default ∅ (joined LAnd acc qs)).
Proof using Hmask.
  intros Hok. revert acc nm. induction Hok as [|q qs Hq Hok IH]; intros acc nm Hnm Hacc; [done|].
  pose proof (meaning_within q Hq) as Hin. rewrite bind_cons.
  destruct (tree_operand q Hq (qs ≫= flatten) {| st_op := And; st_bm := acc |} [] nm Hnm)
    as (bm & nm1 & Hnm1 & Hbm & ->).
  destruct (absorb_join (qs ≫= flatten) LAnd acc bm [] nm1) as (nm2 & Hnm2 & Heq);
    [done..|by rewrite Hbm|]. etransitivity; [exact Heq|]. rewrite Hbm.
  change (joined LAnd acc (q :: qs)) with (joined LAnd (Some (join LAnd acc (sem q))) qs).
  destruct (decide (join LAnd acc (sem q) = ∅)) as [He|He].
  - rewrite He, bool_decide_eq_true_2 by done. etransitivity; [apply loop_top_empty|].
    rewrite joined_and. cbn [default]. f_equal. symmetry. apply set_eq_subseteq.
    split; [apply meet_all_foldl|set_solver].
  - rewrite bool_decide_eq_false_2 by done. apply IH; [done|].
    intros s [= <-]. by apply (join_within LAnd acc).
Qed.
End FilterProof.

(** ** Index ranges *)

Definition index_prefix (account_id collection field : Z) : bytes :=
  index_prefix_serialize
    {| ip_account_id := account_id; ip_collection := collection; ip_field := field |} 0.

Lemma index_prefix_bytes a c f : index_prefix a c f = be_bytes 4 a ++ [c; f].
Proof.
  unfold index_prefix, index_prefix_serialize, ks_finalize. rewrite !ks_chain_bytes.
  by change (subspace_prefix 0 _) with (@nil KeyPart).
Qed.

Lemma length_index_prefix a c f : length (index_prefix a c f) = 6%nat.
Proof. by rewrite index_prefix_bytes. Qed.

Definition index_row (a c f : Z) (value : bytes) (d : Z) : bytes :=
  index_key_serialize
    {| ik_account_id := a; ik_collection := c; ik_document_id := d; ik_field := f;
       ik_key := value |} 0.

Lemma index_row_bytes a c f value d :
  index_row a c f value d = index_prefix a c f ++ value ++ be_bytes 4 d.
Proof.
  rewrite index_prefix_bytes. unfold index_row, index_key_serialize, ks_finalize.
  rewrite !ks_chain_bytes. change (subspace_prefix 0 _) with (@nil KeyPart).
  cbn -[be_bytes]. by rewrite app_nil_r, <- !app_assoc.
Qed.

#[local] Opaque index_key_serialize index_prefix_serialize.

Lemma starts_with_app p l : starts_with (p ++ l) p = true.
Proof. unfold starts_with. apply bool_decide_eq_true. by rewrite take_app_length. Qed.

Lemma starts_with_inv k p : starts_with k p = true → ∃ l, k = p ++ l.
Proof.
  unfold starts_with. intros Ht%bool_decide_eq_true. exists (drop (length p) k).
  by rewrite <- Ht at 1; rewrite take_drop.
Qed.

(** Keys that start with [p] are a run of the keys from [p ++ l] on. *)
Lemma prefix_run p l q k : bytes_le (p ++ l) k → bytes_lt k (p ++ q) → starts_with k p = true.
Proof.
  revert k. induction p as [|x p IH]; intros k Hl Hq.
  { unfold starts_with. by apply bool_decide_eq_true. }
  destruct k as [|y k]; [done|]. unfold bytes_le, bytes_lt in *. cbn [bytes_compare app] in *.
  rewrite Z.compare_antisym in Hq. destruct (x ?= y) eqn:Hc; cbn in *; [|done..].
  apply Z.compare_eq in Hc as ->. specialize (IH k Hl Hq). unfold starts_with in *.
  apply bool_decide_eq_true in IH. apply bool_decide_eq_true. cbn. by rewrite IH.
Qed.

Lemma range_row_value op p m v d bm :
  length p = 6%nat → fits 32 d →
  range_row op p m (p ++ v ++ be_bytes 4 d) bm
  = Ok (true, if op_matches op v m then {[d]} ∪ bm else bm).
Proof.
  intros Hp Hd. unfold range_row. rewrite starts_with_app. cbn [negb].
  assert (Z.of_nat (length (p ++ v ++ be_bytes 4 d)) - U32_LEN = 6 + Z.of_nat (length v)) as Hlen.
  { rewrite !length_app, length_be_bytes, Hp. unfold U32_LEN. lia. }
  rewrite Hlen. change index_prefix_len with 6. rewrite (proj2 (Z.leb_le _ _)) by lia.
  change (Z.to_nat 6) with 6%nat. replace (Z.to_nat (6 + _ - 6)) with (length v) by lia.
  rewrite drop_app_length', take_app_length by done. cbn [mbind result_bind].
  destruct (op_matches op v m); [|done].
  rewrite <- Hlen, deserialize_document by (rewrite !length_app, length_be_bytes; lia).
  by rewrite app_assoc, key_document_prefix.
Qed.

Section IndexRange.
Context (op : Operator) (p m : bytes) (params : IterateParams).

(** A row under the prefix is a value and a document. *)
Definition index_entry (r : Row) : Prop :=
  starts_with r.1 p = true → ∃ v d, fits 32 d ∧ r.1 = p ++ v ++ be_bytes 4 d.

Definition row_matches (r : Row) (d : Z) : Prop :=
  ∃ v, fits 32 d ∧ r.1 = p ++ v ++ be_bytes 4 d ∧ op_matches op v m = true.

Lemma row_matches_key v d x d' :
  fits 32 d →
  row_matches (p ++ v ++ be_bytes 4 d, x) d' ↔ op_matches op v m = true ∧ d' = d.
Proof.
  intros Hfit. unfold row_matches. cbn [fst]. split.
  - intros (v' & Hfit' & Hk' & Hmatch). apply app_inv_head in Hk'.
    apply app_inj_2 in Hk' as [-> Hdd]; [|by rewrite !length_be_bytes].
    apply be_bytes_inj in Hdd; [done|done..].
  - intros [Hmatch ->]. by exists v.
Qed.

Lemma range_rows rows bm l :
  length p = 6%nat → ip_first params = false → ip_begin params = p ++ l →
  StronglySorted row_lt rows → Forall (λ r, bytes_le (ip_begin params) r.1) rows →
  Forall index_entry rows →
  ∃ bm' : gset Z,
    iterate_rows params (λ key _ bm, range_row op p m key bm) rows bm = Ok bm' ∧
    ∀ d, d ∈ bm' ↔ d ∈ bm ∨ ∃ r, r ∈ rows ∧ bytes_le r.1 (ip_end params) ∧ row_matches r d.
Proof.
  intros Hp Hfirst Hbegin Hrows. revert bm.
  induction Hrows as [|[k x] rows Hrows IH Hr]; intros bm Hb Hentry.
  { exists bm. split; [done|]. intros d. split; [by left|]. intros [?|(r & []%not_elem_of_nil & _)]; done. }
  apply Forall_cons in Hb as [Hk Hb], Hentry as [He Hentry]. cbn [fst] in Hk.
  assert (∀ r, r ∈ rows → bytes_lt k r.1) as Hlt by by apply Forall_forall.
  cbn [iterate_rows]. case_decide as Hd.
  { destruct Hd as [Hd|Hd]; [by apply bytes_not_le in Hd|]. exists bm. split; [done|].
    intros d. split; [by left|]. intros [?|(r & Hin & Hle & _)]; [done|]. apply bytes_not_le in Hd.
    destruct Hd. apply elem_of_cons in Hin as [->|Hin]; [done|]. transitivity r.1; [|done].
    apply bytes_le_lt_eq. left. by apply Hlt. }
  destruct (starts_with k p) eqn:Hs.
  - destruct (He Hs) as (v & d & Hfit & Hkey). cbn [fst] in Hkey.
    subst k. rewrite range_row_value by done. cbn [mbind result_bind fst snd negb orb]. rewrite Hfirst.
    destruct (IH (if op_matches op v m then {[d]} ∪ bm else bm) Hb Hentry) as (bm' & Hbm' & Hin).
    exists bm'. split; [done|]. intros d'. rewrite Hin.
    pose proof (row_matches_key v d x d' Hfit) as Hm.
    assert (bytes_le (p ++ v ++ be_bytes 4 d) (ip_end params)) as Hle.
    { destruct (decide (bytes_le (p ++ v ++ be_bytes 4 d) (ip_end params))) as [?|Hn%bytes_not_le]; [done|]. destruct Hd. by right. }
    setoid_rewrite elem_of_cons. destruct (op_matches op v m) eqn:Hmv.
    + rewrite elem_of_union, elem_of_singleton. split.
      * intros [[->|?]|(r & ? & ?)]; [right; exists (p ++ v ++ be_bytes 4 d, x)|by left|right; exists r]; naive_solver.
      * intros [?|(r & [->|?] & Hle' & Hr')]; [naive_solver|apply Hm in Hr'; naive_solver|naive_solver].
    + split.
      * intros [?|(r & ? & ?)]; [by left|right; exists r]; naive_solver.
      * intros [?|(r & [->|?] & Hle' & Hr')]; [naive_solver|apply Hm in Hr'; naive_solver|naive_solver].
  - unfold range_row. rewrite Hs. cbn. exists bm. split; [done|]. intros d. split; [by left|].
    intros [?|(r & Hin & _ & (v & _ & Hkey & _))]; [done|].
    apply elem_of_cons in Hin as [->|Hin].
    { cbn [fst] in Hkey. subst. by rewrite starts_with_app in Hs. }
    specialize (Hlt r Hin). rewrite Hkey in Hlt. rewrite Hbegin in Hk.
    by rewrite (prefix_run _ _ _ _ Hk Hlt) in Hs.
Qed.
End IndexRange.

Lemma bytes_le_same p l k : bytes_le (p ++ l) (p ++ k) ↔ bytes_le l k.
Proof.
  unfold bytes_le. rewrite bytes_compare_app by done. by rewrite (proj2 (bytes_compare_eq p p) eq_refl).
Qed.

Lemma bytes_le_app l k x y :
  length l = length k → bytes_le l k → bytes_le x y → bytes_le (l ++ x) (k ++ y).
Proof.
  unfold bytes_le. intros Hlen Hle Hxy. rewrite bytes_compare_app by done.
  by destruct (bytes_compare l k).
Qed.

Lemma bytes_le_app_lt l k x y : length l = length k → bytes_lt l k → bytes_le (l ++ x) (k ++ y).
Proof. unfold bytes_le, bytes_lt. intros Hlen Hlt. rewrite bytes_compare_app by done. by rewrite Hlt. Qed.

Lemma zeros_least n l : bytes_ok l → (n ≤ length l)%nat → bytes_le (replicate n 0) l.
Proof.
  revert l. unfold bytes_le. induction n as [|n IH]; intros [|x l] Hl Hn;
    cbn [replicate bytes_compare length] in *; [done..|lia|].
  inversion Hl as [|? ? Hx Hl']; subst. destruct (0 ?= x) eqn:Hc; [|done|].
  - apply IH; [done|lia].
  - apply Z.compare_gt_iff in Hc. unfold fits in Hx. lia.
Qed.

Lemma be_bytes_range d :
  fits 32 d → bytes_le (be_bytes 4 0) (be_bytes 4 d) ∧ bytes_le (be_bytes 4 d) (be_bytes 4 u32_max).
Proof. intros Hd. by destruct (prefix_range [] d Hd). Qed.

Lemma index_row_le a c f v d v' d' :
  bytes_le (index_row a c f v d) (index_row a c f v' d')
  ↔ bytes_le (v ++ be_bytes 4 d) (v' ++ be_bytes 4 d').
Proof. by rewrite !index_row_bytes, bytes_le_same. Qed.

Lemma index_row_first a c f v d : bytes_ok v → bytes_le (index_row a c f [] 0) (index_row a c f v d).
Proof.
  intros Hv. apply index_row_le. change ([] ++ be_bytes 4 0) with (replicate 4 0). apply zeros_least.
  - apply Forall_app. split; [done|apply be_bytes_ok].
  - rewrite length_app, length_be_bytes. lia.
Qed.

Lemma index_row_last a c f v d :
  0 ≤ f < 255 → bytes_le (index_row a c f v d) (index_row a c (wrap 8 (f + 1)) [] u32_max).
Proof.
  intros Hf. rewrite wrap_id by width.
  rewrite !index_row_bytes, !index_prefix_bytes, <- !app_assoc, bytes_le_same.
  unfold bytes_le. cbn [app bytes_compare]. rewrite Z.compare_refl.
  by rewrite (proj2 (Z.compare_lt_iff f (f + 1))) by lia.
Qed.

(** Every row that matches lies between the ends of the range. *)
Lemma index_range_complete a c f m op v d :
  0 ≤ f < 255 → fits 32 d → bytes_ok v → (op = Equal ∨ length v = length m) →
  op_matches op v m = true →
  bytes_le (index_key_serialize (index_range a c f m op).1 0) (index_row a c f v d) ∧
  bytes_le (index_row a c f v d) (index_key_serialize (index_range a c f m op).2 0).
Proof.
  intros Hf Hd Hv Hw Hm. destruct (be_bytes_range d Hd) as [Hlo Hhi].
  pose proof (index_row_first a c f v d Hv) as Hfirst.
  pose proof (index_row_last a c f v d Hf) as Hlast.
  destruct op; cbn [op_matches] in Hm; apply bool_decide_eq_true in Hm; cbn [index_range fst snd].
  - destruct Hw as [|Hw]; [done|]. split; [exact Hfirst|]. apply index_row_le. by apply bytes_le_app_lt.
  - destruct Hw as [|Hw]; [done|]. split; [exact Hfirst|]. apply index_row_le. by apply bytes_le_app.
  - destruct Hw as [|Hw]; [done|]. split; [|exact Hlast]. apply index_row_le. by apply bytes_le_app_lt.
  - destruct Hw as [|Hw]; [done|]. split; [|exact Hlast]. apply index_row_le. by apply bytes_le_app.
  - subst v. split; apply index_row_le, bytes_le_same; done.
Qed.

Section RangeExact.
Context `{KvLaws DB} (db : DB) (a c f : Z).

(** The index of a field holds rows of values and documents, the values all of
    the width [w] when one is given. *)
Definition index_clean (w : option nat) : Prop :=
  ∀ k x, kv_get db SUBSPACE_INDEXES k = Some x → starts_with k (index_prefix a c f) = true →
    ∃ v d, fits 32 d ∧ bytes_ok v ∧ k = index_row a c f v d ∧ ∀ n, w = Some n → length v = n.

Lemma range_to_bitmap_spec m op :
  0 ≤ f < 255 → index_clean (if op is Equal then None else Some (length m)) →
  ∃ bm : gset Z,
    range_to_bitmap db a c f m op = Ok (if decide (bm = ∅) then None else Some bm) ∧
    ∀ d, d ∈ bm ↔
      fits 32 d ∧ ∃ v, op_matches op v m = true ∧
        is_Some (kv_get db SUBSPACE_INDEXES (index_row a c f v d)).
Proof.
  intros Hf Hclean. unfold range_to_bitmap.
  destruct (index_range a c f m op) as [begin end_] eqn:Hrange.
  fold (index_prefix a c f). set (params := {| ip_subspace := _ |}).
  pose proof (kv_scan_sorted db SUBSPACE_INDEXES) as Hs.
  assert (∃ l, ip_begin params = index_prefix a c f ++ l) as [l Hl].
  { exists (ik_key begin ++ be_bytes 4 (ik_document_id begin)). cbn [ip_begin params].
    rewrite <- index_row_bytes. by destruct op; injection Hrange as <- <-. }
  destruct (range_rows op (index_prefix a c f) m params
              (seek (ip_begin params) (kv_scan db SUBSPACE_INDEXES)) ∅ l) as (bm & Hbm & Hin).
  1-3: by try apply length_index_prefix.
  { rewrite seek_filter by done. by apply filter_sorted. }
  { rewrite seek_filter by done. apply Forall_forall. by intros r [? _]%list_elem_of_filter. }
  { rewrite seek_filter by done. apply Forall_forall. intros [k x] [_ Hk%kv_scan_get]%list_elem_of_filter Hst.
    destruct (Hclean k x Hk Hst) as (v & d & Hd & _ & -> & _). exists v, d. by rewrite index_row_bytes. }
  exists bm. split; [unfold iterate; cbn [ip_ascending ip_subspace params]; by rewrite Hbm|].
  intros d. rewrite Hin. split.
  - intros [[]%not_elem_of_empty|([k x] & Hr & _ & (v & Hd & Hk & Hm))]. split; [done|]. exists v. split; [done|].
    rewrite seek_filter in Hr by done. apply list_elem_of_filter in Hr as [_ Hr%kv_scan_get].
    cbn [fst] in Hk. rewrite index_row_bytes, <- Hk. by exists x.
  - intros (Hd & v & Hm & [x Hx]). right. exists (index_row a c f v d, x). cbn [fst].
    destruct (Hclean _ _ Hx) as (v' & d' & Hd' & Hv' & Heq & Hw); [by rewrite index_row_bytes, starts_with_app|].
    rewrite !index_row_bytes in Heq. apply app_inv_head in Heq.
    apply app_inj_2 in Heq as [<- _]; [|by rewrite !length_be_bytes].
    destruct (index_range_complete a c f m op v d) as [Hlo Hhi]; [done..| |done|].
    { destruct op; [right; by apply Hw..|by left]. }
    rewrite Hrange in Hlo, Hhi. split_and!; [|done|exists v; by rewrite index_row_bytes].
    rewrite seek_filter by done. apply list_elem_of_filter. split; [done|by apply kv_scan_get].
Qed.
End RangeExact.

(** ** Theorems *)


(** The shortcut of an empty [And] group drops filters up to the next [End_],
    which is the end of a group inside it when one follows.  The levels then get
    out of step: the alternative [C] of [Or (And (A, Or B), C)] is lost when [A]
    matches nothing. *)
Theorem filter_short_circuit `{KvStore DB} `{Chars} `{Hashes} (db : DB) (a c : Z) (B C : gset Z) :
  let q := QGroup LOr [QGroup LAnd [QLeaf (DocumentSet ∅); QGroup LOr [QLeaf (DocumentSet B)]];
                       QLeaf (DocumentSet C)] in
  meaning db a c q = C ∧ filter_documents db a c (flatten q) = Ok ∅.
Proof.
  split.
  - cbn [meaning fmap list_fmap meet_all foldl union_list foldr]. unfold leaf_set. cbn [operand default].
    set_solver.
  - cbn. rewrite !bool_decide_eq_true_2 by done. done.
Qed.

(** A comparison on an indexed field returns the documents whose index row
    satisfies it, and nothing when there are none: equality for values of any
    length, the inequalities for fields whose values have the width of the
    operand. *)
Theorem range_exact `{KvLaws DB} (db : DB) (a c f : Z) (m : bytes) (op : Operator) :
  0 ≤ f < 255 → index_clean db a c f (if op is Equal then None else Some (length m)) →
  ∃ bm : gset Z,
    range_to_bitmap db a c f m op = Ok (if decide (bm = ∅) then None else Some bm) ∧
    ∀ d, d ∈ bm ↔
      fits 32 d ∧ ∃ v, op_matches op v m = true ∧
        is_Some (kv_get db SUBSPACE_INDEXES (index_row a c f v d)).
Proof. apply range_to_bitmap_spec. Qed.

(** ** Witnesses *)

#[local] Instance ascii_chars : Chars := {|
  is_alphanumeric := is_alnum;
  is_uppercase := is_upper;
  to_lowercase := λ s, to_lower <$> s;
|}.

#[local] Instance plain_hashes : Hashes := {|
  xxh3_64 := from_be;
  farmhash64 := from_le;
  set_order := remove_dups;
|}.

(** Three documents, the sizes of two of them and the word that one contains. *)
Definition sample : MapStore.DB :=
  foldr (λ k db, kv_put k.1 k.2 [] db) ∅
    (((λ d, (SUBSPACE_BITMAP_ID, bitmap_serialize (T := Z) None DocumentIds 1 0 d 0)) <$> [1; 2; 3])
     ++ [(SUBSPACE_INDEXES, index_row 1 0 7 [0; 5] 1); (SUBSPACE_INDEXES, index_row 1 0 7 [0; 9] 2);
         (SUBSPACE_BITMAP_TEXT, bitmap_serialize (T := Z) None (text_token 3 (str "word")) 1 0 3 0)]).

Definition sample_query : list Query :=
  [QGroup LNot [QGroup LAnd [QLeaf (MatchValue 7 GreaterThan [0; 5]); QLeaf (DocumentSet {[2]})]];
   QGroup LOr [QLeaf (HasText 3 (str "Word") true); QLeaf (DocumentSet ∅)]].

Lemma sample_documents : ∃ bm, get_bitmap sample DocumentIds 1 0 0 = Ok bm.
Proof. eexists. vm_compute. reflexivity. Qed.

Lemma sample_leaf f :
  is_leaf_filter f = true → (∃ bm, operand sample 1 0 f = Ok bm) →
  bool_decide (leaf_set sample 1 0 f ⊆ documents sample 1 0) = true →
  query_forall (node_ok sample 1 0) (QLeaf f).
Proof. intros Hf Hop Hs%bool_decide_eq_true. split; done. Qed.

Lemma sample_leaves :
  Forall (query_forall (node_ok sample 1 0))
    (QLeaf <$> [MatchValue 7 GreaterThan [0; 5]; DocumentSet {[2]};
                HasText 3 (str "Word") true; DocumentSet ∅]).
Proof.
  apply Forall_fmap, Forall_forall. intros f Hf. unfold compose.
  apply elem_of_cons in Hf as [->|Hf];
    [apply sample_leaf; [done|eexists; vm_compute; reflexivity|by vm_compute]|].
  apply elem_of_cons in Hf as [->|Hf];
    [apply sample_leaf; [done|eexists; vm_compute; reflexivity|by vm_compute]|].
  apply elem_of_cons in Hf as [->|Hf];
    [apply sample_leaf; [done|eexists; vm_compute; reflexivity|by vm_compute]|].
  apply list_elem_of_singleton in Hf as ->.
  apply sample_leaf; [done|eexists; vm_compute; reflexivity|by vm_compute].
Qed.

Lemma sample_query_ok : Forall (query_forall (node_ok sample 1 0)) sample_query.
Proof.
  pose proof sample_leaves as Hl. cbn [fmap list_fmap] in Hl.
  apply Forall_cons in Hl as [H1 Hl]. apply Forall_cons in Hl as [H2 Hl].
  apply Forall_cons in Hl as [H3 Hl]. apply Forall_cons in Hl as [H4 _].
  apply Forall_cons. split; [|apply Forall_singleton].
  - apply query_forall_group. split; [split; [discriminate|intros Hop; discriminate Hop]|].
    apply Forall_singleton, query_forall_group. split.
    { split; [discriminate|]. intros _. split; [intros _; by apply Forall_singleton|].
      split; [intros _; apply Forall_nil_2|exact I]. }
    apply Forall_cons. split; [exact H1|]. apply Forall_singleton. exact H2.
  - apply query_forall_group. split; [split; [discriminate|intros Hop; discriminate Hop]|].
    apply Forall_cons. split; [exact H3|]. apply Forall_singleton. exact H4.
Qed.

Lemma sample_index_clean : index_clean sample 1 0 7 (Some 2%nat).
Proof.
  intros k x Hk _. apply (kv_scan_get (DB := MapStore.DB)) in Hk.
  assert (kv_scan sample SUBSPACE_INDEXES
          = [(index_row 1 0 7 [0; 5] 1, []); (index_row 1 0 7 [0; 9] 2, [])]) as Hscan by by vm_compute.
  rewrite Hscan in Hk. repeat (apply elem_of_cons in Hk as [Hk|Hk]); [injection Hk as -> ->..|].
  - exists [0; 5], 1. split; [width|]. split; [apply (bool_decide_unpack _); by vm_compute|].
    split; [reflexivity|]. intros n [= <-]. reflexivity.
  - exists [0; 9], 2. split; [width|]. split; [apply (bool_decide_unpack _); by vm_compute|].
    split; [reflexivity|]. intros n [= <-]. reflexivity.
  - destruct (not_elem_of_nil _ Hk).
Qed.


Lemma range_exact_witness :
  index_clean sample 1 0 7 (Some 2%nat) ∧
  ∃ bm : gset Z,
    range_to_bitmap sample 1 0 7 [0; 5] GreaterThan = Ok (if decide (bm = ∅) then None else Some bm) ∧
    ∀ d, d ∈ bm ↔
      fits 32 d ∧ ∃ v, op_matches GreaterThan v [0; 5] = true ∧
        is_Some (kv_get sample SUBSPACE_INDEXES (index_row 1 0 7 v d)).
Proof.
  split; [exact sample_index_clean|].
  apply (range_exact sample 1 0 7 [0; 5] GreaterThan); [lia|exact sample_index_clean].
Defined.
