(* ===== verification/StoreSort.v ===== *)
(** * Sorted results and pages

    crates/store/src/query/sort.rs: the order in which the documents of a result
    set are listed and the window of the list that a request asks for. *)

From stdpp Require Import sorting.
From S2P Require Import Prelude Leb128 StoreKeys KvStore.

#[local] Opaque write_loop.

(** ** Pages *)

(** [ValueKey] of the value that is put in front of a document id; its document
    is filled in later. *)
Record PrefixKey := {
  pk_class : ValueClass Z;
  pk_account_id : Z;
  pk_collection : Z;
}.

Record Pagination := {
  requested_position : Z;
  position : Z;
  limit : Z;
  anchor : Z;
  anchor_offset : Z;
  has_anchor : bool;
  anchor_found : bool;
  ids : list Z;
  prefix_key : option PrefixKey;
  prefix_unique : bool;
}.

Record SortedResultSet := {
  sr_position : Z;
  sr_ids : list Z;
  sr_found_anchor : bool;
}.

Definition pagination_new (limit position : Z) (anchor : option Z) (anchor_offset : Z) : Pagination := {|
  requested_position := position;
  position := position;
  limit := limit;
  anchor := default 0 anchor;
  anchor_offset := anchor_offset;
  has_anchor := bool_decide (is_Some anchor);
  anchor_found := false;
  ids := [];
  prefix_key := None;
  prefix_unique := false;
|}.

Definition with_prefix_key (prefix_key : PrefixKey) (p : Pagination) : Pagination := {|
  requested_position := requested_position p; position := position p; limit := limit p;
  anchor := anchor p; anchor_offset := anchor_offset p; has_anchor := has_anchor p;
  anchor_found := anchor_found p; ids := ids p; prefix_key := Some prefix_key;
  prefix_unique := prefix_unique p;
|}.

Definition with_prefix_unique (prefix_unique : bool) (p : Pagination) : Pagination := {|
  requested_position := requested_position p; position := position p; limit := limit p;
  anchor := anchor p; anchor_offset := anchor_offset p; has_anchor := has_anchor p;
  anchor_found := anchor_found p; ids := ids p; prefix_key := prefix_key p;
  prefix_unique := prefix_unique;
|}.

(** Assignment of the fields that change while documents are added. *)
Definition set_limit (limit : Z) (p : Pagination) : Pagination := {|
  requested_position := requested_position p; position := position p; limit := limit;
  anchor := anchor p; anchor_offset := anchor_offset p; has_anchor := has_anchor p;
  anchor_found := anchor_found p; ids := ids p; prefix_key := prefix_key p;
  prefix_unique := prefix_unique p;
|}.

Definition set_progress (position anchor_offset : Z) (anchor_found : bool) (ids : list Z)
    (p : Pagination) : Pagination := {|
  requested_position := requested_position p; position := position; limit := limit p;
  anchor := anchor p; anchor_offset := anchor_offset; has_anchor := has_anchor p;
  anchor_found := anchor_found; ids := ids; prefix_key := prefix_key p;
  prefix_unique := prefix_unique p;
|}.

Definition push_id (id : Z) (p : Pagination) : Pagination :=
  set_progress (position p) (anchor_offset p) (anchor_found p) (ids p ++ [id]) p.

Definition is_full (p : Pagination) : bool := Z.of_nat (length (ids p)) =? limit p.

(** Whether more documents are wanted, and the page so far. *)
Definition add (p : Pagination) (prefix_id document_id : Z) : bool * Pagination :=
  let id := (Z.shiftl prefix_id 32) .| document_id in
  if negb (has_anchor p) then
    if 0 <=? position p then
      if 0 <? position p then
        (true, set_progress (position p - 1) (anchor_offset p) (anchor_found p) (ids p) p)
      else
        let p := push_id id p in (negb (is_full p), p)
    else (true, push_id id p)
  else if 0 <=? anchor_offset p then
    if negb (anchor_found p) && negb (document_id =? anchor p) then (true, p)
    else
      let p := set_progress (position p) (anchor_offset p) true (ids p) p in
      if 0 <? anchor_offset p then
        (true, set_progress (position p) (anchor_offset p - 1) (anchor_found p) (ids p) p)
      else
        let p := push_id id p in (negb (is_full p), p)
  else
    let found := document_id =? anchor p in
    let p := push_id id (set_progress (position p) (anchor_offset p) found (ids p) p) in
    if found then
      (false, set_progress (anchor_offset p) (anchor_offset p) (anchor_found p) (ids p) p)
    else (true, p).

Definition build (p : Pagination) : SortedResultSet :=
  let found := negb (has_anchor p) || anchor_found p in
  if found then
    if negb (has_anchor p) && (0 <=? requested_position p) then
      {| sr_ids := ids p; sr_found_anchor := found;
         sr_position := if position p =? 0 then requested_position p else 0 |}
    else if 0 <=? position p then
      {| sr_ids := ids p; sr_found_anchor := found; sr_position := position p |}
    else
      let len := Z.of_nat (length (ids p)) in
      let start_offset := if Z.abs (position p) <? len then len - Z.abs (position p) else 0 in
      let end_offset := if 0 <? limit p then Z.min (start_offset + limit p) len else len in
      {| sr_ids := take (Z.to_nat (end_offset - start_offset)) (drop (Z.to_nat start_offset) (ids p));
         sr_found_anchor := found; sr_position := start_offset |}
  else {| sr_ids := ids p; sr_found_anchor := found; sr_position := 0 |}.

(** ** Sorting *)

Inductive Comparator :=
| CField (field : Z) (ascending : bool)
| CDocumentSet (set : gset Z) (ascending : bool).

Record ResultSet := {
  rs_account_id : Z;
  rs_collection : Z;
  rs_results : gset Z;
}.

(** The iterator of a bitmap: ascending. *)
Definition bitmap_iter (bm : gset Z) : list Z := merge_sort Z.le (elements bm).

(** [for document_id in documents { if !paginate.add(0, document_id) { break } }],
    with what [add] answered last. *)
Fixpoint add_all (documents : list Z) (p : Pagination) : bool * Pagination :=
  match documents with
  | [] => (true, p)
  | d :: documents =>
      let r := add p 0 d in
      if r.1 then add_all documents r.2 else r
  end.

(** [u32::deserialize]: big endian, exactly four bytes. *)
Definition u32_deserialize (l : bytes) : result StoreError Z :=
  if (length l =? 4)%nat then Ok (from_be l) else Err DataCorruption.

(** The order of [sort_by]: the ranks, then the document. *)
Fixpoint ranks_compare (l k : list Z) : comparison :=
  match l, k with
  | [], [] => Eq
  | [], _ :: _ => Lt
  | _ :: _, [] => Gt
  | x :: l, y :: k => match x ?= y with Eq => ranks_compare l k | c => c end
  end.

Definition entry_le (a b : Z * list Z) : Prop :=
  match ranks_compare a.2 b.2 with Eq => a.1 ≤ b.1 | Lt => True | Gt => False end.

#[export] Instance entry_le_dec a b : Decision (entry_le a b).
Proof. unfold entry_le. destruct (ranks_compare _ _); apply _. Defined.

(** [sorted_ids.entry(document_id).or_insert([0u32; 4])[pos] = idx] *)
Definition set_rank (pos : nat) (document_id idx : Z) (sorted_ids : gmap Z (list Z))
    : gmap Z (list Z) :=
  <[document_id := <[pos := idx]> (default (replicate 4 0) (sorted_ids !! document_id))]> sorted_ids.

(** The variables of the scan that ranks documents by one field. *)
Record RankState := {
  rk_results : gset Z;
  rk_prev_data : bytes;
  rk_has_grouped_ids : bool;
  rk_idx : Z;
  rk_sorted_ids : gmap Z (list Z);
}.

Definition rank_row (pos : nat) (key : bytes) (s : RankState) : result StoreError (bool * RankState) :=
  let id_pos := Z.of_nat (length key) - U32_LEN in
  document_id ← deserialize_be_u32 key id_pos;
  if decide (document_id ∈ rk_results s) then
    let results := rk_results s ∖ {[document_id]} in
    data ← (if index_prefix_len <=? id_pos
            then Ok (take (Z.to_nat (id_pos - index_prefix_len)) (drop (Z.to_nat index_prefix_len) key))
            else Err DataCorruption);
    let grouped := bool_decide (data = rk_prev_data s) in
    let idx := if grouped then rk_idx s else rk_idx s + 1 in
    Ok (negb (bool_decide (results = ∅)),
        {| rk_results := results;
           rk_prev_data := data;
           rk_has_grouped_ids := rk_has_grouped_ids s || grouped;
           rk_idx := idx;
           rk_sorted_ids := set_rank pos document_id idx (rk_sorted_ids s) |})
  else Ok (true, s).

(** The callback of the sort by a single field. *)
Definition field_row (key : bytes) (s : gset Z * Pagination)
    : result StoreError (bool * (gset Z * Pagination)) :=
  document_id ← deserialize_be_u32 key (Z.of_nat (length key) - U32_LEN);
  if decide (document_id ∈ s.1) then
    let r := add s.2 0 document_id in
    Ok (r.1, (s.1 ∖ {[document_id]}, r.2))
  else Ok (true, s).

Section Sort.
Context `{KvStore DB}.

Definition field_params (account_id collection field : Z) (ascending : bool) : IterateParams := {|
  ip_subspace := SUBSPACE_INDEXES;
  ip_begin := index_prefix_serialize
    {| ip_account_id := account_id; ip_collection := collection; ip_field := field |} 0;
  ip_end := index_prefix_serialize
    {| ip_account_id := account_id; ip_collection := collection; ip_field := wrap 8 (field + 1) |} 0;
  ip_first := false;
  ip_ascending := ascending;
|}.

Definition prefix_value (db : DB) (key : PrefixKey) (document_id : Z) : result StoreError (option Z) :=
  get_value u32_deserialize db (pk_class key) (pk_account_id key) (pk_collection key) document_id.

(** The loop that lists documents with their prefixes. *)
Fixpoint add_documents (db : DB) (documents : list Z) (seen_prefixes : gset Z) (p : Pagination)
    : result StoreError Pagination :=
  match documents with
  | [] => Ok p
  | d :: documents =>
      match prefix_key p with
      | Some key =>
          prefix ← prefix_value db key d;
          match prefix with
          | Some prefix_id =>
              if prefix_unique p && bool_decide (prefix_id ∈ seen_prefixes)
              then add_documents db documents seen_prefixes p
              else
                let r := add p prefix_id d in
                if r.1 then
                  add_documents db documents
                    (if prefix_unique p then {[prefix_id]} ∪ seen_prefixes else seen_prefixes) r.2
                else Ok r.2
          | None => add_documents db documents seen_prefixes p
          end
      | None =>
          let r := add p 0 d in
          if r.1 then add_documents db documents seen_prefixes r.2 else Ok r.2
      end
  end.

(** [*id |= (prefix_id as u64) << 32] for every id of the page; the document is
    the low half of the id. *)
Fixpoint add_prefixes (db : DB) (key : PrefixKey) (l : list Z) : result StoreError (list Z) :=
  match l with
  | [] => Ok []
  | id :: l =>
      prefix ← prefix_value db key (wrap 32 id);
      rest ← add_prefixes db key l;
      Ok (match prefix with Some prefix_id => id .| (Z.shiftl prefix_id 32) | None => id end :: rest)
  end.

(** One comparator. *)
Definition sort_one (db : DB) (rs : ResultSet) (c : Comparator) (p : Pagination)
    : result StoreError Pagination :=
  match c with
  | CField field ascending =>
      s ← iterate db (field_params (rs_account_id rs) (rs_collection rs) field ascending)
            (λ key _ s, field_row key s) (rs_results rs, p);
      Ok (if negb (bool_decide (s.1 = ∅)) && negb (is_full s.2)
          then (add_all (bitmap_iter s.1) s.2).2 else s.2)
  | CDocumentSet set ascending =>
      let in_set := rs_results rs ∩ set in
      let not_in_set := (rs_results rs ∖ in_set) ∪ (in_set ∖ rs_results rs) in
      let r := add_all (bitmap_iter (if ascending then in_set else not_in_set)) p in
      Ok (if r.1 then (add_all (bitmap_iter (if ascending then not_in_set else in_set)) r.2).2 else r.2)
  end.

Definition set_ranks (pos : nat) (documents : gset Z) (idx : Z) (sorted_ids : gmap Z (list Z))
    : gmap Z (list Z) :=
  foldl (λ m d, set_rank pos d idx m) sorted_ids (bitmap_iter documents).

(** Several comparators: the ranks of every document, until a field tells all of
    them apart. *)
Fixpoint rank_all (db : DB) (rs : ResultSet) (pos : nat) (comparators : list Comparator)
    (sorted_ids : gmap Z (list Z)) : result StoreError (gmap Z (list Z)) :=
  match comparators with
  | [] => Ok sorted_ids
  | CField field ascending :: comparators =>
      s ← iterate db (field_params (rs_account_id rs) (rs_collection rs) field ascending)
            (λ key _ s, rank_row pos key s)
            {| rk_results := rs_results rs; rk_prev_data := []; rk_has_grouped_ids := false;
               rk_idx := 0; rk_sorted_ids := sorted_ids |};
      if negb (bool_decide (rk_results s = ∅)) then
        rank_all db rs (S pos) comparators
          (set_ranks pos (rk_results s) (rk_idx s + 1) (rk_sorted_ids s))
      else if negb (rk_has_grouped_ids s) then Ok (rk_sorted_ids s)
      else rank_all db rs (S pos) comparators (rk_sorted_ids s)
  | CDocumentSet set ascending :: comparators =>
      let in_set := rs_results rs ∩ set in
      let not_in_set := (rs_results rs ∖ in_set) ∪ (in_set ∖ rs_results rs) in
      rank_all db rs (S pos) comparators
        (set_ranks pos (if ascending then not_in_set else in_set) 1
           (set_ranks pos (if ascending then in_set else not_in_set) 0 sorted_ids))
  end.

Definition sort (db : DB) (rs : ResultSet) (comparators : list Comparator) (p : Pagination)
    : result StoreError SortedResultSet :=
  let len := Z.of_nat (base.size (rs_results rs)) in
  if len =? 0 then Ok {| sr_position := position p; sr_ids := []; sr_found_anchor := true |}
  else
    let p := set_limit (if limit p =? 0 then len else Z.min len (limit p)) p in
    match comparators with
    | [c] =>
        if negb (prefix_unique p) then
          p ← sort_one db rs c p;
          let r := build p in
          match prefix_key p with
          | Some key =>
              l ← add_prefixes db key (sr_ids r);
              Ok {| sr_position := sr_position r; sr_ids := l; sr_found_anchor := sr_found_anchor r |}
          | None => Ok r
          end
        else p ← add_documents db (bitmap_iter (rs_results rs)) ∅ p; Ok (build p)
    | [] => p ← add_documents db (bitmap_iter (rs_results rs)) ∅ p; Ok (build p)
    | _ =>
        ranks ← rank_all db rs 0 (take 4 comparators) ∅;
        p ← add_documents db (merge_sort entry_le (map_to_list ranks)).*1 ∅ p;
        Ok (build p)
    end.
End Sort.

(** ** The window of a page *)

(** The first index of [a] in [docs]. *)
Definition index_of (a : Z) (docs : list Z) : option nat := fst <$> list_find (λ d, d = a) docs.

(** The part of the list of all documents that a request for [limit] documents
    from [position], or from [offset] past the anchor, is answered with.  A page
    in front of the anchor ends with the anchor. *)
Definition window (limit position : Z) (anchor : option Z) (offset : Z) (docs : list Z)
    : SortedResultSet :=
  let len := Z.of_nat (length docs) in
  let page start docs := take (Z.to_nat limit) (drop (Z.to_nat start) docs) in
  match anchor with
  | None =>
      let start := if 0 <=? position then position else Z.max 0 (len + position) in
      {| sr_ids := page start docs; sr_found_anchor := true;
         sr_position := if start <=? len then start else 0 |}
  | Some a =>
      match index_of a docs with
      | None => {| sr_ids := if 0 <=? offset then [] else docs; sr_found_anchor := false; sr_position := 0 |}
      | Some i =>
          let i := Z.of_nat i in
          if 0 <=? offset then
            {| sr_ids := page (i + offset) docs; sr_found_anchor := true; sr_position := position |}
          else
            let start := Z.max 0 (i + 1 + offset) in
            {| sr_ids := page start (take (Z.to_nat (i + 1)) docs); sr_found_anchor := true;
               sr_position := start |}
      end
  end.

Lemma add_all_app l k p :
  add_all (l ++ k) p = let r := add_all l p in if r.1 then add_all k r.2 else r.
Proof.
  revert p. induction l as [|d l IH]; intros p; [done|]. cbn [add_all app].
  destruct (add p 0 d) as [b p'] eqn:Hadd. cbn [fst snd]. destruct b; [apply IH|done].
Qed.

Lemma set_progress_twice po ao af l po' ao' af' l' p :
  set_progress po ao af l (set_progress po' ao' af' l' p) = set_progress po ao af l p.
Proof. done. Qed.

Lemma set_progress_id p : set_progress (position p) (anchor_offset p) (anchor_found p) (ids p) p = p.
Proof. by destruct p. Qed.

Lemma take_to_nat_S (n : Z) (x : Z) l : 0 < n → take (Z.to_nat n) (x :: l) = x :: take (Z.to_nat (n - 1)) l.
Proof. intros Hn. by replace (Z.to_nat n) with (S (Z.to_nat (n - 1))) by lia. Qed.

Lemma drop_to_nat_S (n : Z) (x : Z) l : 0 < n → drop (Z.to_nat n) (x :: l) = drop (Z.to_nat (n - 1)) l.
Proof. intros Hn. by replace (Z.to_nat n) with (S (Z.to_nat (n - 1))) by lia. Qed.

(** Pages counted from the start. *)
Lemma add_all_position docs p :
  has_anchor p = false → 0 ≤ position p → Z.of_nat (length (ids p)) < limit p →
  let ids' := ids p ++ take (Z.to_nat (limit p - Z.of_nat (length (ids p))))
                         (drop (Z.to_nat (position p)) docs) in
  add_all docs p
  = (Z.of_nat (length ids') <? limit p,
     set_progress (Z.max 0 (position p - Z.of_nat (length docs))) (anchor_offset p) (anchor_found p) ids' p).
Proof.
  revert p. induction docs as [|d docs IH]; intros p Ha Hp Hl ids'; unfold ids'; cbn [add_all].
  { rewrite drop_nil, take_nil, app_nil_r, (proj2 (Z.ltb_lt _ _)) by done. cbn [length].
    rewrite Z.sub_0_r, Z.max_r by done. by rewrite set_progress_id. }
  unfold add. rewrite Ha, (proj2 (Z.leb_le _ _)) by done. cbn [negb length].
  destruct (Z.ltb_spec 0 (position p)) as [Hpos|Hpos]; cbn [fst snd].
  - rewrite IH by (cbn; lia || done). cbn [ids limit position anchor_offset anchor_found set_progress].
    rewrite set_progress_twice, drop_to_nat_S by done. f_equal. f_equal; lia.
  - replace (position p) with 0 by lia. rewrite Z.shiftl_0_l, Z.lor_0_l.
    change (drop (Z.to_nat 0) (d :: docs)) with (d :: docs). rewrite take_to_nat_S by lia.
    rewrite cons_middle, (assoc_L (++)). unfold is_full, push_id. cbn [ids limit set_progress].
    rewrite length_app. cbn [length]. destruct (Z.eqb_spec (Z.of_nat (length (ids p) + 1)) (limit p)) as [Hf|Hf].
    + replace (Z.to_nat (limit p - _ - 1)) with 0%nat by lia. cbn [negb take fst snd].
      rewrite app_nil_r, length_app, (proj2 (Z.ltb_ge _ _)) by (cbn; lia).
      replace (position p) with 0 by lia. by rewrite Z.max_l by lia.
    + cbn [negb fst snd]. rewrite IH by (cbn; rewrite ?length_app; cbn; lia || done).
      cbn [ids limit position anchor_offset anchor_found set_progress].
      replace (position p) with 0 by lia. change (drop (Z.to_nat 0) docs) with docs.
      rewrite set_progress_twice.
      replace (Z.to_nat (limit p - Z.of_nat (length (ids p ++ [d]))))
        with (Z.to_nat (limit p - Z.of_nat (length (ids p)) - 1)) by (rewrite length_app; cbn; lia).
      by rewrite !Z.max_l by lia.
Qed.

(** Pages counted from the end list everything. *)
Lemma add_all_negative docs p :
  has_anchor p = false → position p < 0 →
  add_all docs p = (true, set_progress (position p) (anchor_offset p) (anchor_found p) (ids p ++ docs) p).
Proof.
  revert p. induction docs as [|d docs IH]; intros p Ha Hp; cbn [add_all].
  { by rewrite app_nil_r, set_progress_id. }
  unfold add. rewrite Ha, (proj2 (Z.leb_gt _ _)) by done. cbn [negb fst snd].
  rewrite Z.shiftl_0_l, Z.lor_0_l, IH by done. unfold push_id.
  cbn [ids limit position anchor_offset anchor_found set_progress].
  by rewrite set_progress_twice, <- (assoc_L (++)).
Qed.

(** Pages from the anchor on, once it has been found. *)
Lemma add_all_found docs p :
  has_anchor p = true → 0 ≤ anchor_offset p → anchor_found p = true →
  Z.of_nat (length (ids p)) < limit p →
  ∃ b ao, add_all docs p
    = (b, set_progress (position p) ao true
            (ids p ++ take (Z.to_nat (limit p - Z.of_nat (length (ids p))))
                        (drop (Z.to_nat (anchor_offset p)) docs)) p).
Proof.
  revert p. induction docs as [|d docs IH]; intros p Ha Ho Hf Hl; cbn [add_all].
  { rewrite drop_nil, take_nil, app_nil_r. exists true, (anchor_offset p).
    assert (set_progress (position p) (anchor_offset p) true (ids p) p = p) as -> by
      (rewrite <- Hf; apply set_progress_id). done. }
  unfold add. rewrite Ha, Hf, (proj2 (Z.leb_le _ _) Ho). cbn [negb andb].
  cbn [ids limit position anchor_offset anchor_found set_progress].
  destruct (Z.ltb_spec 0 (anchor_offset p)) as [Hpos|Hpos]; cbn [fst snd].
  - edestruct (IH (set_progress (position p) (anchor_offset p - 1) true (ids p) p)) as (b & ao & Heq);
      [done|cbn; lia|done|done|]. exists b, ao.
    cbn [position anchor_offset anchor_found ids limit set_progress] in Heq |- *.
    rewrite set_progress_twice, Heq, set_progress_twice. by rewrite drop_to_nat_S.
  - replace (anchor_offset p) with 0 by lia. rewrite Z.shiftl_0_l, Z.lor_0_l.
    change (drop (Z.to_nat 0) (d :: docs)) with (d :: docs). rewrite take_to_nat_S by lia.
    rewrite cons_middle, (assoc_L (++)). unfold is_full, push_id. cbn [ids limit set_progress].
    rewrite length_app. cbn [length].
    destruct (Z.eqb_spec (Z.of_nat (length (ids p) + 1)) (limit p)) as [Hfull|Hfull]; cbn [negb fst snd].
    + exists false, 0. replace (Z.to_nat (limit p - _ - 1)) with 0%nat by lia.
      cbn [take]. by rewrite app_nil_r.
    + edestruct (IH (set_progress (position p) 0 true (ids p ++ [d]) p)) as (b & ao & Heq);
        [done|done|done|cbn; rewrite length_app; cbn; lia|]. exists b, ao.
      cbn [position anchor_offset anchor_found ids limit set_progress] in Heq |- *.
      rewrite set_progress_twice, Heq. rewrite set_progress_twice.
      change (drop (Z.to_nat 0) docs) with docs.
      replace (Z.to_nat (limit p - Z.of_nat (length (ids p ++ [d]))))
        with (Z.to_nat (limit p - Z.of_nat (length (ids p)) - 1)) by (rewrite length_app; cbn; lia).
      done.
Qed.

Lemma index_of_cons a d docs :
  index_of a (d :: docs) = if d =? a then Some 0%nat else S <$> index_of a docs.
Proof.
  unfold index_of. cbn [list_find]. destruct (Z.eqb_spec d a) as [->|Hne].
  - by rewrite decide_True.
  - rewrite decide_False by done. by destruct (list_find _ docs) as [[i x]|].
Qed.

(** Pages from the anchor on. *)
Lemma add_all_anchor docs p :
  has_anchor p = true → 0 ≤ anchor_offset p → anchor_found p = false → ids p = [] → 0 < limit p →
  match index_of (anchor p) docs with
  | None => add_all docs p = (true, p)
  | Some i =>
      ∃ b ao, add_all docs p
        = (b, set_progress (position p) ao true
                (take (Z.to_nat (limit p)) (drop (i + Z.to_nat (anchor_offset p)) docs)) p)
  end.
Proof.
  intros Ha Ho Hf Hi Hl. induction docs as [|d docs IH]; [done|]. rewrite index_of_cons. cbn [add_all].
  destruct (Z.eqb_spec d (anchor p)) as [->|Hd].
  - destruct (add_all_found (anchor p :: docs) (set_progress (position p) (anchor_offset p) true (ids p) p))
      as (b & ao & Heq); [done..|cbn; rewrite Hi; cbn; lia|].
    exists b, ao. cbn [add_all] in Heq.
    assert (add (set_progress (position p) (anchor_offset p) true (ids p) p) 0 (anchor p)
            = add p 0 (anchor p)) as Hadd.
    { unfold add. cbn [has_anchor anchor_offset anchor_found anchor set_progress position ids].
      by rewrite Ha, Hf, Z.eqb_refl, (proj2 (Z.leb_le _ _) Ho). }
    rewrite Hadd in Heq. rewrite Heq.
    cbn [ids limit position anchor_offset set_progress]. rewrite Hi, set_progress_twice. cbn [length app].
    by rewrite Z.sub_0_r.
  - assert (add p 0 d = (true, p)) as ->.
    { unfold add. by rewrite Ha, Hf, (proj2 (Z.eqb_neq _ _) Hd), (proj2 (Z.leb_le _ _) Ho). }
    cbn [fst snd]. by destruct (index_of (anchor p) docs).
Qed.

(** Pages that end at the anchor. *)
Lemma add_all_before docs p :
  has_anchor p = true → anchor_offset p < 0 → anchor_found p = false →
  match index_of (anchor p) docs with
  | None =>
      add_all docs p
      = (true, set_progress (position p) (anchor_offset p) false (ids p ++ docs) p)
  | Some i =>
      add_all docs p
      = (false, set_progress (anchor_offset p) (anchor_offset p) true (ids p ++ take (S i) docs) p)
  end.
Proof.
  intros Ha Ho. revert p Ha Ho. induction docs as [|d docs IH]; intros p Ha Ho Hf.
  { cbn. rewrite app_nil_r. rewrite <- Hf. by rewrite set_progress_id. }
  rewrite index_of_cons. cbn [add_all]. unfold add.
  rewrite Ha, (proj2 (Z.leb_gt _ _) Ho), Z.shiftl_0_l, Z.lor_0_l. cbn [negb].
  destruct (Z.eqb_spec d (anchor p)) as [->|Hd]; [done|]. cbn [fst snd]. unfold push_id.
  rewrite set_progress_twice. cbn [position anchor_offset anchor_found ids set_progress].
  specialize (IH (set_progress (position p) (anchor_offset p) false (ids p ++ [d]) p) Ha Ho eq_refl).
  cbn [anchor position anchor_offset ids set_progress] in IH.
  destruct (index_of (anchor p) docs) as [i|]; cbn [fmap option_fmap option_map]; rewrite IH;
    by rewrite set_progress_twice, <- (assoc_L (++)).
Qed.

Lemma index_of_lt a docs i : index_of a docs = Some i → (i < length docs)%nat.
Proof.
  unfold index_of. destruct (list_find _ docs) as [[j x]|] eqn:Hf; [|done]. intros [= ->].
  apply list_find_Some in Hf as (Hx & _). by eapply lookup_lt_Some.
Qed.

(** The cut of [build] in a list that ends where the page may end. *)
Lemma cut_window (limit off : Z) (docs : list Z) :
  0 < limit → off < 0 →
  let len := Z.of_nat (length docs) in
  let start := if Z.abs off <? len then len - Z.abs off else 0 in
  start = Z.max 0 (len + off) ∧
  take (Z.to_nat ((if 0 <? limit then Z.min (start + limit) len else len) - start))
    (drop (Z.to_nat start) docs)
  = take (Z.to_nat limit) (drop (Z.to_nat (Z.max 0 (len + off))) docs).
Proof.
  intros Hl Ho len start. assert (start = Z.max 0 (len + off)) as Hs.
  { unfold start. destruct (Z.ltb_spec (Z.abs off) len); lia. }
  split; [done|]. rewrite <- Hs, (proj2 (Z.ltb_lt _ _) Hl).
  destruct (Z.le_ge_cases (start + limit) len) as [Hle|Hge].
  - rewrite Z.min_l by done. f_equal. lia.
  - rewrite Z.min_r by done. rewrite !take_ge; [done|..]; rewrite length_drop; lia.
Qed.

Lemma build_window lim pos anch off docs :
  0 < lim → (anch ≠ None → 0 ≤ off → 0 ≤ pos) →
  build (add_all docs (pagination_new lim pos anch off)).2
  = window lim pos anch off docs.
Proof.
  intros Hl Hpos. unfold window. destruct anch as [a|].
  - destruct (Z.leb_spec 0 off) as [Ho|Ho].
    + specialize (Hpos ltac:(done) Ho).
      pose proof (add_all_anchor docs (pagination_new lim pos (Some a) off)
                    eq_refl Ho eq_refl eq_refl Hl) as H.
      change (anchor _) with a in H. destruct (index_of a docs) as [i|].
      * destruct H as (b & ao & ->). unfold build. cbn. rewrite (proj2 (Z.leb_le _ _) Hpos).
        f_equal. f_equal. f_equal. lia.
      * by rewrite H.
    + pose proof (add_all_before docs (pagination_new lim pos (Some a) off)
                    eq_refl Ho eq_refl) as H.
      change (anchor _) with a in H. destruct (index_of a docs) as [i|] eqn:Hi; rewrite H; [|done].
      apply index_of_lt in Hi. unfold build. cbn [has_anchor anchor_found ids position limit
        anchor_offset set_progress pagination_new bool_decide negb orb andb snd app].
      rewrite bool_decide_eq_true_2 by done. cbn [negb andb orb].
      rewrite (proj2 (Z.leb_gt _ _) Ho).
      destruct (cut_window lim off (take (S i) docs) Hl Ho) as [Hs Hc].
      replace (Z.to_nat (Z.of_nat i + 1)) with (S i) by lia.
      replace (Z.of_nat i + 1 + off) with (Z.of_nat (length (take (S i) docs)) + off)
        by (rewrite length_take; lia).
      by rewrite Hc, Hs.
  - destruct (Z.leb_spec 0 pos) as [Hp|Hp].
    + rewrite add_all_position by done. unfold build. cbn -[Z.max].
      rewrite (proj2 (Z.leb_le _ _) Hp), Z.sub_0_r. f_equal.
      destruct (Z.eqb_spec (Z.max 0 (pos - Z.of_nat (length docs))) 0);
        destruct (Z.leb_spec pos (Z.of_nat (length docs))); lia.
    + rewrite add_all_negative by done. unfold build. cbn [has_anchor anchor_found ids position limit
        anchor_offset set_progress pagination_new negb orb andb snd app requested_position].
      rewrite bool_decide_eq_false_2 by (by intros []). cbn [negb andb orb].
      rewrite !(proj2 (Z.leb_gt _ _) Hp).
      destruct (cut_window lim pos docs Hl Hp) as [Hs Hc]. rewrite Hc, Hs.
      by rewrite (proj2 (Z.leb_le (Z.max 0 _) _)) by lia.
Qed.

(** ** The order of the documents *)

(** A scan that its callback can stop. *)
Fixpoint stop_rows {S} (cb : bytes → bytes → S → result StoreError (bool * S)) (rows : list Row) (s : S)
    : result StoreError S :=
  match rows with
  | [] => Ok s
  | (key, value) :: rows =>
      r ← cb key value s;
      if negb r.1 then Ok r.2 else stop_rows cb rows r.2
  end.

(** The rows of a field in the order of the scan. *)
Definition scan_rows `{KvStore DB} (db : DB) (params : IterateParams) : list Row :=
  let rows := filter (in_range (ip_begin params) (ip_end params)) (kv_scan db (ip_subspace params)) in
  if ip_ascending params then rows else reverse rows.

Lemma iterate_rows_stop {S} params (cb : bytes → bytes → S → result StoreError (bool * S)) rows s :
  ip_first params = false →
  StronglySorted (λ r1 r2, ¬ in_range (ip_begin params) (ip_end params) r1 →
                           ¬ in_range (ip_begin params) (ip_end params) r2) rows →
  iterate_rows params cb rows s
  = stop_rows cb (filter (in_range (ip_begin params) (ip_end params)) rows) s.
Proof.
  intros Hfirst Hrows. revert s. induction Hrows as [|[k v] rows Hrows IH Hr]; intros s; [done|].
  cbn [iterate_rows]. destruct (decide (in_range (ip_begin params) (ip_end params) (k, v))) as [Hin|Hin].
  - rewrite decide_False, filter_cons_True; [|done|].
    2: { destruct Hin as [H1 H2]. cbn [fst] in *. intros [Hlt|Hlt]; by apply bytes_not_le in Hlt. }
    cbn [stop_rows]. destruct (cb k v s) as [[b s']|e]; [|done]. cbn. rewrite Hfirst, orb_false_r.
    destruct b; cbn; [apply IH|done].
  - rewrite decide_True, filter_cons_False; [|done|].
    2: { destruct (decide (bytes_le (ip_begin params) k)) as [H1|H1%bytes_not_le]; [|by left].
         destruct (decide (bytes_le k (ip_end params))) as [H2|H2%bytes_not_le]; [|by right].
         by destruct Hin. }
    rewrite filter_none; [done|]. eapply Forall_impl; [exact Hr|]. cbv beta. auto.
Qed.

Lemma StronglySorted_snoc {A} (R : A → A → Prop) l x :
  StronglySorted R l → Forall (λ y, R y x) l → StronglySorted R (l ++ [x]).
Proof.
  induction 1 as [|y l Hl IH Hy]; intros Hx; [by repeat constructor|].
  apply Forall_cons in Hx as [Hyx Hx]. constructor; [by apply IH|]. apply Forall_app. by repeat constructor.
Qed.

Lemma StronglySorted_reverse {A} (R : A → A → Prop) l :
  StronglySorted R l → StronglySorted (flip R) (reverse l).
Proof.
  induction 1 as [|x l Hl IH Hx]; [constructor|]. rewrite reverse_cons. apply StronglySorted_snoc; [done|].
  apply Forall_reverse. done.
Qed.

Lemma StronglySorted_weaken {A} (R1 R2 : A → A → Prop) l :
  (∀ x y, x ∈ l → y ∈ l → R1 x y → R2 x y) → StronglySorted R1 l → StronglySorted R2 l.
Proof.
  intros Himp. induction 1 as [|x l Hl IH Hx]; [constructor|]. constructor.
  - apply IH. intros y z Hy Hz. apply Himp; by right.
  - rewrite Forall_forall in *. intros y Hy. apply Himp; [by left|by right|by apply Hx].
Qed.

Lemma seek_down_filter end_ rows :
  StronglySorted (flip row_lt) rows → seek_down end_ rows = filter (λ r, bytes_le r.1 end_) rows.
Proof.
  induction 1 as [|r rows Hrows IH Hr]; [done|]. cbn [seek_down]. case_decide as Hd.
  - rewrite IH, filter_cons_False; [done|]. by apply bytes_not_le.
  - assert (bytes_le r.1 end_) as Hle.
    { destruct (decide (bytes_le r.1 end_)) as [?|Hn]; [done|]. by apply bytes_not_le in Hn. }
    symmetry. apply filter_all. constructor; [done|]. eapply Forall_impl; [exact Hr|].
    intros r' Hr'. apply bytes_le_lt_eq. left. by eapply bytes_lt_le_trans.
Qed.

Section Scans.
Context `{KvLaws DB}.

Lemma iterate_scan {S} (db : DB) params (cb : bytes → bytes → S → result StoreError (bool * S)) s :
  ip_first params = false → iterate db params cb s = stop_rows cb (scan_rows db params) s.
Proof.
  intros Hfirst. unfold iterate, scan_rows. pose proof (kv_scan_sorted db (ip_subspace params)) as Hs.
  destruct (ip_ascending params).
  - rewrite seek_filter by done. rewrite iterate_rows_stop; [|done|].
    + f_equal. rewrite list_filter_filter. apply list_filter_iff. intros r. unfold in_range. tauto.
    + eapply StronglySorted_weaken; [|by apply filter_sorted].
      intros r1 r2 [H1 _]%list_elem_of_filter [H2 _]%list_elem_of_filter Hlt Hn [_ Hle]. apply Hn.
      split; [done|]. transitivity r2.1; [|done]. apply bytes_le_lt_eq. by left.
  - apply StronglySorted_reverse in Hs. rewrite seek_down_filter by done.
    rewrite iterate_rows_stop; [|done|].
    + f_equal. rewrite list_filter_filter, <- filter_reverse. apply list_filter_iff.
      intros r. unfold in_range. tauto.
    + eapply (StronglySorted_weaken (flip row_lt)).
      * intros r1 r2 [H1 _]%list_elem_of_filter [H2 _]%list_elem_of_filter Hlt Hn [Hle _]. apply Hn.
        split; [|done]. transitivity r2.1; [done|]. apply bytes_le_lt_eq. by left.
      * clear -Hs. induction Hs as [|r rows Hrows IH Hr]; [constructor|].
        destruct (decide (bytes_le r.1 (ip_end params))); [rewrite filter_cons_True|rewrite filter_cons_False];
          [|done..]. constructor; [done|]. rewrite Forall_forall in *.
        intros r' [_ Hr']%list_elem_of_filter. auto.
Qed.
End Scans.

(** The documents of [results] in the order of their first row. *)
Fixpoint visit (results : gset Z) (rows : list Row) : list Z :=
  match rows with
  | [] => []
  | (key, _) :: rows =>
      if decide (key_document key ∈ results)
      then key_document key :: visit (results ∖ {[key_document key]}) rows
      else visit results rows
  end.

(** Every document of the result set in the order of the comparators: those that
    a field does not index come last, by document id. *)
Definition sort_order `{KvStore DB} (db : DB) (rs : ResultSet) (comparators : list Comparator)
    : list Z :=
  let results := rs_results rs in
  match comparators with
  | [] => bitmap_iter results
  | [CField field ascending] =>
      let l := visit results
        (scan_rows db (field_params (rs_account_id rs) (rs_collection rs) field ascending)) in
      l ++ bitmap_iter (results ∖ list_to_set l)
  | [CDocumentSet set true] => bitmap_iter (results ∩ set) ++ bitmap_iter (results ∖ set)
  | [CDocumentSet set false] => bitmap_iter (results ∖ set) ++ bitmap_iter (results ∩ set)
  | _ =>
      match rank_all db rs 0 (take 4 comparators) ∅ with
      | Ok ranks => (merge_sort entry_le (map_to_list ranks)).*1
      | Err _ => []
      end
  end.

(** The keys of the index are long enough to hold a prefix and a document. *)
Definition index_keys_long `{KvStore DB} (db : DB) : Prop :=
  ∀ k v, kv_get db SUBSPACE_INDEXES k = Some v → (10 ≤ length k)%nat.

Lemma bitmap_iter_perm bm : bitmap_iter bm ≡ₚ elements bm.
Proof. apply merge_sort_Permutation. Qed.

Lemma visit_spec results rows :
  NoDup (visit results rows) ∧ (list_to_set (visit results rows) : gset Z) ⊆ results.
Proof.
  revert results. induction rows as [|[k v] rows IH]; intros results; cbn [visit].
  { split; [constructor|set_solver]. }
  destruct (decide (key_document k ∈ results)) as [Hin|Hin]; [|apply IH].
  destruct (IH (results ∖ {[key_document k]})) as [Hnd Hsub]. split.
  - constructor; [|done]. intros Hin'. set_solver.
  - set_solver.
Qed.

Lemma perm_split (results : gset Z) (l : list Z) :
  NoDup l → (list_to_set l : gset Z) ⊆ results →
  l ++ bitmap_iter (results ∖ list_to_set l) ≡ₚ elements results.
Proof.
  intros Hnd Hsub. rewrite bitmap_iter_perm, <- (elements_list_to_set (C := gset Z) l) at 1 by done.
  rewrite <- elements_disj_union by set_solver. f_equiv. apply union_difference_L in Hsub as Heq.
  by rewrite Heq at 2.
Qed.

Lemma iter_split (results set : gset Z) :
  bitmap_iter (results ∩ set) ++ bitmap_iter (results ∖ set) ≡ₚ elements results.
Proof.
  rewrite !bitmap_iter_perm, <- elements_disj_union by set_solver.
  f_equiv. intros d. rewrite elem_of_union, elem_of_intersection, elem_of_difference.
  destruct (decide (d ∈ set)); tauto.
Qed.

Lemma add_keeps p x d :
  prefix_key (add p x d).2 = prefix_key p ∧ limit (add p x d).2 = limit p ∧
  has_anchor (add p x d).2 = has_anchor p.
Proof. unfold add. by repeat case_match. Qed.

Lemma add_all_keeps docs p : prefix_key (add_all docs p).2 = prefix_key p.
Proof.
  revert p. induction docs as [|d docs IH]; intros p; [done|]. cbn [add_all].
  destruct (add_keeps p 0 d) as (Hk & _). destruct (add p 0 d) as [b p']. cbn [fst snd] in *.
  destruct b; [|done]. by rewrite IH.
Qed.

Lemma add_documents_plain `{KvStore DB} (db : DB) docs seen p :
  prefix_key p = None → add_documents db docs seen p = Ok (add_all docs p).2.
Proof.
  revert p. induction docs as [|d docs IH]; intros p Hp; [done|]. cbn [add_documents add_all].
  rewrite Hp. destruct (add_keeps p 0 d) as (Hk & _). destruct (add p 0 d) as [b p']. cbn [fst snd] in *.
  destruct b; [|done]. apply IH. by rewrite Hk.
Qed.

Lemma field_row_eq k s :
  (10 ≤ length k)%nat →
  field_row k s
  = if decide (key_document k ∈ s.1)
    then Ok ((add s.2 0 (key_document k)).1, (s.1 ∖ {[key_document k]}, (add s.2 0 (key_document k)).2))
    else Ok (true, s).
Proof. intros Hk. unfold field_row. by rewrite deserialize_document by lia. Qed.

(** The scan of a single field adds the documents that it meets. *)
Lemma field_scan rows results p :
  Forall (λ r, 10 ≤ length r.1)%nat rows →
  let r := add_all (visit results rows) p in
  ∃ results', stop_rows (λ key _ s, field_row key s) rows (results, p) = Ok (results', r.2) ∧
    (r.1 = true → results' = results ∖ list_to_set (visit results rows)).
Proof.
  intros Hlong. revert results p. induction Hlong as [|[k v] rows Hk Hlong IH]; intros results p; cbv zeta.
  { exists results. split; [done|]. intros _. set_solver. }
  cbn [stop_rows visit]. cbn [fst] in Hk. rewrite field_row_eq by done. cbn [fst snd].
  destruct (decide (key_document k ∈ results)) as [Hin|Hin].
  - cbn [mbind result_bind fst snd add_all]. destruct (add p 0 (key_document k)) as [b p']. cbn [fst snd].
    destruct b; cbn [negb]; [|eexists; split; [done|done]].
    destruct (IH (results ∖ {[key_document k]}) p') as (results' & Heq & Hres).
    exists results'. split; [exact Heq|]. intros Hb. rewrite (Hres Hb). cbn [list_to_set]. set_solver.
  - cbn [negb]. apply IH.
Qed.

Lemma stop_rows_inv {S} (I : S → Prop) (cb : bytes → bytes → S → result StoreError (bool * S)) rows s :
  Forall (λ r, 10 ≤ length r.1)%nat rows →
  (∀ k v s, (10 ≤ length k)%nat → I s → ∃ b s', cb k v s = Ok (b, s') ∧ I s') →
  I s → ∃ s', stop_rows cb rows s = Ok s' ∧ I s'.
Proof.
  intros Hrows Hcb. revert s. induction Hrows as [|[k v] rows Hk Hrows IH]; intros s Hs; [by exists s|].
  destruct (Hcb k v s Hk Hs) as (b & s' & Heq & Hs'). cbn [stop_rows]. rewrite Heq. cbn.
  destruct b; cbn; [by apply IH|by exists s'].
Qed.

(** Every document that has left the set to rank has a rank. *)
Definition ranked (results known : gset Z) (s : RankState) : Prop :=
  rk_results s ⊆ results ∧ dom (rk_sorted_ids s) = known ∪ (results ∖ rk_results s).

Lemma dom_set_rank pos d idx m : dom (set_rank pos d idx m) = {[d]} ∪ dom m.
Proof. unfold set_rank. apply dom_insert_L. Qed.

Lemma dom_set_ranks pos docs idx m : dom (set_ranks pos docs idx m) = docs ∪ dom m.
Proof.
  unfold set_ranks. assert (∀ l, dom (foldl (λ m d, set_rank pos d idx m) m l) = list_to_set l ∪ dom m) as Hl.
  { intros l. revert m. induction l as [|d l IH]; intros m; cbn [foldl]; [set_solver|].
    rewrite IH, dom_set_rank. set_solver. }
  rewrite Hl. f_equal. apply set_eq. intros d. by rewrite elem_of_list_to_set, bitmap_iter_perm, elem_of_elements.
Qed.

Lemma rank_row_ranked results known pos k s :
  (10 ≤ length k)%nat → ranked results known s →
  ∃ b s', rank_row pos k s = Ok (b, s') ∧ ranked results known s'.
Proof.
  intros Hk [Hsub Hdom]. unfold rank_row. rewrite deserialize_document by lia. cbn [mbind result_bind].
  destruct (decide (key_document k ∈ rk_results s)) as [Hin|Hin]; [|by exists true, s].
  rewrite (proj2 (Z.leb_le _ _)) by (unfold U32_LEN, index_prefix_len, StoreKeys.U32_LEN; lia).
  cbn [mbind result_bind]. do 2 eexists. split; [reflexivity|]. split; cbn [rk_results rk_sorted_ids].
  - set_solver.
  - rewrite dom_set_rank, Hdom. apply set_eq. intros d.
    destruct (decide (d = key_document k)) as [->|Hne]; set_solver.
Qed.


Section Order.
Context `{KvLaws DB} (db : DB).
Hypothesis Hlong : index_keys_long db.

Lemma scan_long a c f asc : Forall (λ r, 10 ≤ length r.1)%nat (scan_rows db (field_params a c f asc)).
Proof using All.
  apply Forall_forall. intros [k v] Hin.
  assert ((k, v) ∈ kv_scan db SUBSPACE_INDEXES) as Hk%kv_scan_get; [|by eapply Hlong].
  unfold scan_rows in Hin. cbn [ip_ascending field_params ip_subspace] in Hin.
  destruct asc; [|rewrite elem_of_reverse in Hin]; by apply list_elem_of_filter in Hin as [_ ?].
Qed.

(** A page counted from the start is a window of the order. *)
Lemma sort_one_order rs c p :
  has_anchor p = false → 0 ≤ position p → ids p = [] → 0 < limit p →
  sort_one db rs c p = Ok (add_all (sort_order db rs [c]) p).2.
Proof using All.
  intros Ha Hp Hi Hl. destruct c as [f asc|set asc]; cbn [sort_one].
  - cbn [sort_order]. set (params := field_params _ _ f asc). set (l := visit _ _).
    rewrite iterate_scan by done.
    destruct (field_scan (scan_rows db params) (rs_results rs) p) as (results' & -> & Hres); [apply scan_long|].
    fold l in Hres |- *. cbn [mbind result_bind fst snd]. rewrite add_all_app.
    destruct (add_all l p) as [b p'] eqn:Hadd. cbn [fst snd] in *.
    rewrite add_all_position in Hadd by (rewrite ?Hi; done). injection Hadd as Hb Hp'.
    assert (is_full p' = negb b) as ->.
    { rewrite <- Hb, <- Hp', Hi. unfold is_full. cbn [ids limit set_progress app length].
      rewrite length_take. set (n := Z.of_nat (_ `min` _)). assert (n ≤ limit p) by lia.
      destruct (Z.eqb_spec n (limit p)), (Z.ltb_spec n (limit p)); done || lia. }
    destruct b; [|by rewrite andb_false_r]. rewrite (Hres eq_refl). cbn [negb]. rewrite andb_true_r.
    case_bool_decide as He; [|done]. rewrite He. done.
  - cbn [sort_order]. assert ((rs_results rs ∖ (rs_results rs ∩ set)) ∪ ((rs_results rs ∩ set) ∖ rs_results rs)
      = rs_results rs ∖ set) as -> by (apply set_eq; intros x; destruct (decide (x ∈ set)); set_solver).
    destruct asc; rewrite add_all_app; cbv zeta; destruct (add_all _ p) as [[] p']; done.
Qed.

Lemma rank_all_dom rs pos comparators m :
  ∃ ranks, rank_all db rs pos comparators m = Ok ranks ∧
    dom m ⊆ dom ranks ∧ dom ranks ⊆ rs_results rs ∪ dom m ∧
    (comparators ≠ [] → rs_results rs ⊆ dom ranks).
Proof using All.
  revert pos m. induction comparators as [|c comparators IH]; intros pos m.
  { exists m. split; [done|]. split_and!; [done|set_solver|done]. }
  assert (∀ m', dom m' = rs_results rs ∪ dom m → ∃ ranks, rank_all db rs (S pos) comparators m' = Ok ranks ∧
    dom m ⊆ dom ranks ∧ dom ranks ⊆ rs_results rs ∪ dom m ∧ rs_results rs ⊆ dom ranks) as Hnext.
  { intros m' Hm'. destruct (IH (S pos) m') as (ranks & Heq & H1 & H2 & _). exists ranks.
    rewrite Hm' in H1, H2. split; [done|]. split_and!; set_solver. }
  destruct c as [f asc|set asc]; cbn [rank_all].
  - rewrite iterate_scan by done.
    destruct (stop_rows_inv (ranked (rs_results rs) (dom m)) (λ key _ s, rank_row pos key s)
      (scan_rows db (field_params (rs_account_id rs) (rs_collection rs) f asc))
      {| rk_results := rs_results rs; rk_prev_data := []; rk_has_grouped_ids := false;
         rk_idx := 0; rk_sorted_ids := m |}) as (s & -> & Hsub & Hdom); [apply scan_long| | |].
    { intros k v s Hk Hs. by apply rank_row_ranked. }
    { split; cbn [rk_results rk_sorted_ids]; [done|set_solver]. }
    cbn [mbind result_bind]. case_bool_decide as He; cbn [negb].
    + assert (dom (rk_sorted_ids s) = rs_results rs ∪ dom m) as Hdom' by (rewrite Hdom, He; set_solver).
      destruct (rk_has_grouped_ids s); cbn [negb].
      * destruct (Hnext _ Hdom') as (ranks & Heq & ?). exists ranks. split; [done|]. tauto.
      * exists (rk_sorted_ids s). split; [done|]. split_and!; set_solver.
    + destruct (Hnext (set_ranks pos (rk_results s) (rk_idx s + 1) (rk_sorted_ids s))) as (ranks & Heq & ?).
      { rewrite dom_set_ranks, Hdom. apply set_eq. intros d. destruct (decide (d ∈ rk_results s)); set_solver. }
      exists ranks. split; [done|]. tauto.
  - edestruct Hnext as (ranks & Heq & ?); [|exists ranks; split; [exact Heq|tauto]].
    rewrite !dom_set_ranks. apply set_eq. intros d. destruct asc, (decide (d ∈ set)); set_solver.
Qed.

Lemma fst_perm_dom (ranks : gmap Z (list Z)) :
  (merge_sort entry_le (map_to_list ranks)).*1 ≡ₚ elements (dom ranks).
Proof using.
  rewrite merge_sort_Permutation.
  apply NoDup_Permutation; [apply NoDup_fst_map_to_list|apply NoDup_elements|]. intros d.
  rewrite elem_of_elements, elem_of_dom, list_elem_of_fmap. split.
  - intros ([d' l] & -> & Hin%elem_of_map_to_list). by exists l.
  - intros [l Hl]. exists (d, l). split; [done|]. by apply elem_of_map_to_list.
Qed.

Lemma sort_order_perm rs comparators : sort_order db rs comparators ≡ₚ elements (rs_results rs).
Proof using All.
  assert (∀ l, l ≠ [] → match rank_all db rs 0 l ∅ with
      | Ok ranks => (merge_sort entry_le (map_to_list ranks)).*1 | Err _ => [] end
      ≡ₚ elements (rs_results rs)) as Hranks.
  { intros l Hl. destruct (rank_all_dom rs 0 l ∅) as (ranks & -> & _ & H1 & H2). rewrite fst_perm_dom.
    specialize (H2 Hl). rewrite dom_empty_L in H1. f_equiv. set_solver. }
  destruct comparators as [|c [|c' comparators]]; cbn [sort_order].
  - apply bitmap_iter_perm.
  - destruct c as [f asc|set [|]].
    + apply perm_split; apply visit_spec.
    + apply iter_split.
    + rewrite (comm (++)). apply iter_split.
  - destruct c as [f asc|set [|]]; by apply Hranks.
Qed.
End Order.

(** ** Theorems *)

(** Adding documents until [add] wants no more and building the page gives
    the window of the full list that the request describes: from a position
    counted from either end, from an anchor on, or up to an anchor. *)
Theorem pagination_window (lim pos : Z) (anch : option Z) (off : Z) (docs : list Z) :
  0 < lim → (anch ≠ None → 0 ≤ off → 0 ≤ pos) →
  build (add_all docs (pagination_new lim pos anch off)).2 = window lim pos anch off docs.
Proof. apply build_window. Qed.

Lemma window_limit lim pos docs :
  0 ≤ pos → 0 ≤ lim →
  window (if lim =? 0 then Z.of_nat (length docs) else Z.min (Z.of_nat (length docs)) lim) pos None 0 docs
  = window (if lim =? 0 then Z.of_nat (length docs) else lim) pos None 0 docs.
Proof.
  intros Hp Hl. destruct (Z.eqb_spec lim 0) as [|Hne]; [done|]. unfold window.
  rewrite (proj2 (Z.leb_le _ _) Hp). f_equal.
  destruct (Z.le_ge_cases (Z.of_nat (length docs)) lim) as [Hle|Hge]; [|by rewrite Z.min_r].
  rewrite Z.min_l by done. rewrite !take_ge; [done|..]; rewrite length_drop; lia.
Qed.


(** When only one message of each thread is listed, a single comparator is not
    looked at. *)
Lemma collapse_ignores_sort `{KvStore DB} (db : DB) rs c p :
  prefix_unique p = true → sort db rs [c] p = sort db rs [] p.
Proof. intros Hp. unfold sort. cbn [prefix_unique set_limit]. by rewrite Hp. Qed.

(** ** Witnesses *)

(** Three documents and a field that orders them 3, 1, 2. *)
Definition sample_row (value d : Z) : bytes :=
  index_key_serialize
    {| ik_account_id := 1; ik_collection := 0; ik_document_id := d; ik_field := 7; ik_key := [value] |} 0.

Definition sample : MapStore.DB :=
  foldr (λ k db, kv_put SUBSPACE_INDEXES k [] db) ∅ [sample_row 20 1; sample_row 30 2; sample_row 10 3].

Definition sample_results : ResultSet :=
  {| rs_account_id := 1; rs_collection := 0; rs_results := {[1; 2; 3]} |}.

Lemma sample_keys_long : index_keys_long sample.
Proof.
  intros k v Hk. apply (kv_scan_get (DB := MapStore.DB)) in Hk.
  assert (Forall (λ r, 10 ≤ length r.1)%nat (kv_scan sample SUBSPACE_INDEXES)) as Hall.
  { apply (bool_decide_unpack _). by vm_compute. }
  rewrite Forall_forall in Hall. apply (Hall (k, v) Hk).
Qed.

(** A page that ends at an anchor is lost when a single field orders the
    results: the scan stops at the anchor, but the documents behind it are then
    added as if they were not indexed, and the last of them is not the anchor. *)
Lemma anchor_before_lost :
  sort sample sample_results [CField 7 true] (pagination_new 3 0 (Some 1) (-1))
  = Ok {| sr_position := 0; sr_ids := [3; 1; 2]; sr_found_anchor := false |} ∧
  sort sample sample_results [CField 7 true; CField 7 true] (pagination_new 3 0 (Some 1) (-1))
  = Ok {| sr_position := 1; sr_ids := [1]; sr_found_anchor := true |}.
Proof. split; by vm_compute. Qed.

Lemma pagination_window_witness :
  build (add_all [5; 6; 7; 8; 9] (pagination_new 2 0 (Some 8) (-2))).2
  = {| sr_position := 2; sr_ids := [7; 8]; sr_found_anchor := true |}.
Proof. rewrite (pagination_window 2 0 (Some 8) (-2) [5; 6; 7; 8; 9]); [by vm_compute|lia|lia]. Defined.

