(* ===== verification/Access.v ===== *)
(** * Access tokens and access control lists

    Who may do what: the permission bitset (crates/trc/src/ipc/bitset.rs), the
    access token (crates/common/src/auth/access_token.rs), collections and access
    rights (crates/jmap-proto/src/types), the rights of the IMAP ACL extension
    (crates/imap-proto/src), the IMAP handlers that read and change them
    (crates/imap/src/op/acl.rs), their JMAP counterpart
    (crates/jmap/src/auth/acl.rs) and the stored grants
    (crates/store/src/query/acl.rs). *)

From S2P Require Import Prelude Leb128 JmapId Maps StoreKeys KvStore.

#[local] Opaque write_loop.

(** ** Bitsets *)

Module Bitset.

(** The words of the set; an index outside of them panics. *)
Definition Bitset : Type := list Z.

Definition mask (index : Z) : Z := shl 64 1 (index .& 63).

Definition set (index : Z) (b : Bitset) : option Bitset :=
  w ← b !! Z.to_nat (index / 64);
  Some (<[Z.to_nat (index / 64) := (w .| mask index)]> b).
Definition clear (index : Z) (b : Bitset) : option Bitset :=
  w ← b !! Z.to_nat (index / 64);
  Some (<[Z.to_nat (index / 64) := (w .& Z.lnot (mask index))]> b).
Definition get (index : Z) (b : Bitset) : option bool :=
  w ← b !! Z.to_nat (index / 64);
  Some (negb ((w .& mask index) =? 0)).
Definition union (b c : Bitset) : Bitset := zip_with Z.lor b c.
Definition intersection (b c : Bitset) : Bitset := zip_with Z.land b c.
Definition difference (b c : Bitset) : Bitset := zip_with (λ x y, (x .& Z.lnot y)) b c.
Definition is_empty (b : Bitset) : bool := forallb (λ w, w =? 0) b.

End Bitset.

(** ** Collections *)

Inductive Collection :=
| ColEmail | ColMailbox | ColThread | ColIdentity | ColEmailSubmission
| ColSieveScript | ColPushSubscription | ColPrincipal | ColNone.

#[export] Instance collection_eq_dec : EqDecision Collection.
Proof. solve_decision. Defined.

Definition collection_to_u8 (c : Collection) : Z :=
  match c with
  | ColEmail => 0 | ColMailbox => 1 | ColThread => 2 | ColIdentity => 3 | ColEmailSubmission => 4
  | ColSieveScript => 5 | ColPushSubscription => 6 | ColPrincipal => 7 | ColNone => 8
  end.

Definition collection_from (v : Z) : Collection :=
  match v with
  | 0 => ColEmail | 1 => ColMailbox | 2 => ColThread | 3 => ColIdentity | 4 => ColEmailSubmission
  | 5 => ColSieveScript | 6 => ColPushSubscription | 7 => ColPrincipal | _ => ColNone
  end.

(** ** Access tokens *)

(** The position of the permissions the handlers below ask for. *)
Definition Impersonate : Z := 0.
Definition ImapAuthenticate : Z := 123.
Definition ImapAclSet : Z := 125.
Definition ImapMyRights : Z := 126.

(** The words of [Permissions]: 180 permissions, rounded up by the size of a
    word in bytes. *)
Definition PERMISSION_WORDS : nat := 23.

Record AccessToken := {
  primary_id : Z;
  member_of : list Z;
  access_to : VecMap.VecMap Z Bitmap.Bitmap;
  permissions : Bitset.Bitset;
}.

(** Permission ids are below 180, so the lookup is in range for a token with
    [PERMISSION_WORDS] words. *)
Definition has_permission (permission : Z) (t : AccessToken) : bool :=
  default false (Bitset.get permission (permissions t)).

Definition is_member (account_id : Z) (t : AccessToken) : bool :=
  (primary_id t =? account_id)
  || bool_decide (account_id ∈ member_of t)
  || has_permission Impersonate t.

Definition is_shared (account_id : Z) (t : AccessToken) : bool :=
  negb (is_member account_id t) && existsb (λ kv, kv.1 =? account_id) (access_to t).

Definition has_access (to_account_id : Z) (to_collection : Collection) (t : AccessToken) : bool :=
  is_member to_account_id t
  || existsb (λ kv, (kv.1 =? to_account_id) && Bitmap.contains kv.2 (collection_to_u8 to_collection))
       (access_to t).

(** ** Access rights *)

Inductive AclRight :=
| AclRead | AclModify | AclDelete | AclReadItems | AclAddItems | AclModifyItems | AclRemoveItems
| AclCreateChild | AclAdminister | AclSubmit | AclNone.

Definition acl_to_u64 (a : AclRight) : Z :=
  match a with
  | AclRead => 0 | AclModify => 1 | AclDelete => 2 | AclReadItems => 3 | AclAddItems => 4
  | AclModifyItems => 5 | AclRemoveItems => 6 | AclCreateChild => 7 | AclAdminister => 8
  | AclSubmit => 9 | AclNone => 10
  end.

Definition acl_from_u64 (v : Z) : AclRight :=
  match v with
  | 0 => AclRead | 1 => AclModify | 2 => AclDelete | 3 => AclReadItems | 4 => AclAddItems
  | 5 => AclModifyItems | 6 => AclRemoveItems | 7 => AclCreateChild | 8 => AclAdminister
  | 9 => AclSubmit | _ => AclNone
  end.

Definition acl_is_valid (a : AclRight) : bool := match a with AclNone => false | _ => true end.

Record AclGrant := {
  ag_account_id : Z;
  ag_grants : Bitmap.Bitmap;
}.

(** [Object::effective_acl] on the list under the Acl property. *)
Definition effective_acl (permissions : list AclGrant) (t : AccessToken) : Bitmap.Bitmap :=
  foldl (λ acl item, if is_member (ag_account_id item) t then Bitmap.union acl (ag_grants item) else acl)
    Bitmap.default permissions.

(** *** The IMAP extension *)

Inductive Rights :=
| Lookup | Read | Seen | Write | Insert | Post | CreateMailbox | DeleteMailbox
| DeleteMessages | Expunge | Administer.

#[export] Instance rights_eq_dec : EqDecision Rights.
Proof. solve_decision. Defined.

Inductive ModRightsOp := ModAdd | ModRemove | ModReplace.

Record ModRights := {
  mr_op : ModRightsOp;
  mr_rights : list Rights;
}.

Definition rights_to_char (r : Rights) : Z :=
  match r with
  | Lookup => "l" | Read => "r" | Seen => "s" | Write => "w" | Insert => "i" | Post => "p"
  | CreateMailbox => "k" | DeleteMailbox => "x" | DeleteMessages => "t" | Expunge => "e"
  | Administer => "a"
  end%chr.

Definition acl_of_rights (r : Rights) : AclRight :=
  match r with
  | Lookup => AclRead
  | Read => AclReadItems
  | Seen => AclModifyItems
  | Write => AclModifyItems
  | Insert => AclAddItems
  | Post => AclSubmit
  | CreateMailbox => AclCreateChild
  | DeleteMailbox => AclDelete
  | DeleteMessages => AclRemoveItems
  | Expunge => AclRemoveItems
  | Administer => AclAdminister
  end.

Definition push_unique (l : list Rights) (r : Rights) : list Rights :=
  if bool_decide (r ∈ l) then l else l ++ [r].

Definition right_of_char (ch : Z) : option Rights :=
  match ch with
  | "l" => Some Lookup | "r" => Some Read | "s" => Some Seen | "w" => Some Write
  | "i" => Some Insert | "p" => Some Post | "k" => Some CreateMailbox | "x" => Some DeleteMailbox
  | "t" => Some DeleteMessages | "e" => Some Expunge | "a" => Some Administer
  | "d" => Some DeleteMessages | "c" => Some CreateMailbox
  | _ => None
  end%chr.

Fixpoint parse_rights (pos : nat) (value : bytes) (op : ModRightsOp) (rights : list Rights)
    : option (ModRightsOp * list Rights) :=
  match value with
  | [] => Some (op, rights)
  | ch :: value =>
      match right_of_char ch with
      | Some r => parse_rights (S pos) value op (push_unique rights r)
      | None =>
          if (ch =? "+"%chr) && (pos =? 0)%nat then parse_rights (S pos) value ModAdd rights
          else if (ch =? "-"%chr) && (pos =? 0)%nat then parse_rights (S pos) value ModRemove rights
          else None
      end
  end.

Definition mod_rights_parse (value : bytes) : option ModRights :=
  r ← parse_rights 0 value ModReplace [];
  if (length r.2 =? 0)%nat then None else Some {| mr_op := r.1; mr_rights := r.2 |}.

(** *** imap/src/op/acl.rs *)

Inductive ImapError :=
| Unauthorized
| NoPerm
| NoMailbox
| NoAccount
| InvalidAcl.

(** What a mailbox object holds under its Acl property. *)
Inductive AclProperty :=
| PropAcl (acl : list AclGrant)
| PropOther.

Definition values_acl (values : option AclProperty) : list AclGrant :=
  match values with Some (PropAcl acl) => acl | _ => [] end.

Section ImapHandlers.
(** The session's token and a fresh one; the account that owns the mailbox named
    in the command, if there is such a mailbox, and its stored object, if any. *)
Context (session_token token : AccessToken).
Context (mailbox : option Z) (values : option (option AclProperty)).

Definition assert_has_permission (permission : Z) : result ImapError () :=
  if has_permission permission session_token then Ok () else Err Unauthorized.

Definition get_acl_mailbox (validate : bool) : result ImapError (Z * option AclProperty) :=
  match mailbox with
  | Some account_id =>
      match values with
      | Some values =>
          if negb validate || is_member account_id token
             || Bitmap.contains (effective_acl (values_acl values) token) (acl_to_u64 AclAdminister)
          then Ok (account_id, values)
          else Err NoPerm
      | None => Err NoMailbox
      end
  | None => Err NoMailbox
  end.

Definition rights_of_acl (a : AclRight) : list Rights :=
  match a with
  | AclRead => [Lookup]
  | AclModify => [CreateMailbox]
  | AclDelete => [DeleteMailbox]
  | AclReadItems => [Read]
  | AclAddItems => [Insert]
  | AclModifyItems => [Write; Seen]
  | AclRemoveItems => [DeleteMessages; Expunge]
  | AclCreateChild => [CreateMailbox]
  | AclAdminister => [Administer]
  | AclSubmit => [Post]
  | AclNone => []
  end.

(** [name_of]: the directory's name of an account. *)
Definition handle_get_acl (name_of : Z → option bytes)
    : result ImapError (list (bytes * list Rights)) :=
  _ ← assert_has_permission ImapAuthenticate;
  r ← get_acl_mailbox true;
  Ok (omap (λ item, name ← name_of (ag_account_id item);
                    Some (name, Bitmap.into_vec (ag_grants item) ≫= λ v, rights_of_acl (acl_from_u64 v)))
        (values_acl r.2)).

Definition when (b : bool) (l : list Rights) : list Rights := if b then l else [].

Definition handle_my_rights : result ImapError (list Rights) :=
  _ ← assert_has_permission ImapMyRights;
  r ← get_acl_mailbox false;
  Ok (if is_shared r.1 token then
        let acl := effective_acl (values_acl r.2) token in
        let has a := Bitmap.contains acl (acl_to_u64 a) in
        when (has AclReadItems) [Read; Lookup] ++ when (has AclAddItems) [Insert] ++
        when (has AclRemoveItems) [DeleteMessages; Expunge] ++
        when (has AclModifyItems) [Seen; Write] ++ when (has AclCreateChild) [CreateMailbox] ++
        when (has AclDelete) [DeleteMailbox] ++ when (has AclSubmit) [Post]
      else [Read; Lookup; Insert; DeleteMessages; Expunge; Seen; Write; CreateMailbox;
            DeleteMailbox; Post]).

(** [acl.iter_mut().find(..)] and an update of the item found. *)
Fixpoint update_grant (account_id : Z) (f : Bitmap.Bitmap → Bitmap.Bitmap) (acl : list AclGrant)
    : list AclGrant :=
  match acl with
  | [] => []
  | item :: acl =>
      if ag_account_id item =? account_id then
        {| ag_account_id := ag_account_id item; ag_grants := f (ag_grants item) |} :: acl
      else item :: update_grant account_id f acl
  end.

Fixpoint find_grant (account_id : Z) (acl : list AclGrant) : option Bitmap.Bitmap :=
  match acl with
  | [] => None
  | item :: acl =>
      if ag_account_id item =? account_id then Some (ag_grants item) else find_grant account_id acl
  end.

(** [acl.retain(|item| item.account_id != account_id)] *)
Definition retain_others (account_id : Z) (acl : list AclGrant) : list AclGrant :=
  filter (λ item, ag_account_id item ≠ account_id) acl.

(** [for right in rights { item.grants.remove(right) }] *)
Definition remove_rights (grants rights : Bitmap.Bitmap) : Bitmap.Bitmap :=
  foldl (λ g v, Bitmap.remove g (acl_to_u64 (acl_from_u64 v))) grants (Bitmap.into_vec rights).

Definition set_acl (acl : list AclGrant) (account_id : Z) (op : ModRightsOp) (rights : Bitmap.Bitmap)
    : list AclGrant :=
  match find_grant account_id acl with
  | Some grants =>
      match op with
      | ModReplace =>
          if negb (Bitmap.is_empty rights) then update_grant account_id (λ _, rights) acl
          else retain_others account_id acl
      | ModAdd => update_grant account_id (λ g, Bitmap.union g rights) acl
      | ModRemove =>
          let acl := update_grant account_id (λ g, remove_rights g rights) acl in
          if Bitmap.is_empty (remove_rights grants rights) then retain_others account_id acl else acl
      end
  | None =>
      if negb (Bitmap.is_empty rights) then
        match op with
        | ModAdd | ModReplace => acl ++ [{| ag_account_id := account_id; ag_grants := rights |}]
        | ModRemove => acl
        end
      else acl
  end.

Definition rights_bitmap (rights : list Rights) : Bitmap.Bitmap :=
  Bitmap.from_vec (λ v, acl_is_valid (acl_from_u64 v)) ((λ r, acl_to_u64 (acl_of_rights r)) <$> rights).

(** SETACL and DELETEACL: the list that is written back to the mailbox.
    [principal] is the account the directory knows under the identifier. *)
Definition handle_set_acl (principal : option Z) (mod_rights : option ModRights)
    : result ImapError (list AclGrant) :=
  _ ← assert_has_permission ImapAclSet;
  r ← get_acl_mailbox false;
  acl_account_id ← ok_or NoAccount principal;
  let '(op, rights) :=
    match mod_rights with
    | Some mr => (mr_op mr, rights_bitmap (mr_rights mr))
    | None => (ModReplace, Bitmap.default)
    end in
  acl ← (match r.2 with
         | Some (PropAcl acl) => Ok acl
         | Some PropOther => Err InvalidAcl
         | None => Ok []
         end);
  Ok (set_acl acl acl_account_id op rights).
End ImapHandlers.

(** *** jmap/src/auth/acl.rs *)

(** [acl_set] with a patch: [is_update] tells whether one right is set or
    cleared, its absence that the grants are replaced. *)
Definition acl_patch (acl : list AclGrant) (patch : AclGrant) (is_update : option bool) : list AclGrant :=
  let account_id := ag_account_id patch in
  match is_update with
  | Some is_set =>
      if negb (Bitmap.is_empty (ag_grants patch)) then
        match find_grant account_id acl, Bitmap.pop (ag_grants patch) with
        | Some grants, (Some item, _) =>
            let item := acl_to_u64 (acl_from_u64 item) in
            if is_set : bool then update_grant account_id (λ g, Bitmap.insert g item) acl
            else
              let acl := update_grant account_id (λ g, Bitmap.remove g item) acl in
              if Bitmap.is_empty (Bitmap.remove grants item) then retain_others account_id acl else acl
        | Some _, (None, _) => acl
        | None, _ => if is_set then acl ++ [patch] else acl
        end
      else acl
  | None =>
      if negb (Bitmap.is_empty (ag_grants patch)) then
        match find_grant account_id acl with
        | Some _ => update_grant account_id (λ _, ag_grants patch) acl
        | None => acl ++ [patch]
        end
      else retain_others account_id acl
  end.

(** *** store/src/query/acl.rs: the stored grants *)

Record AclItem := {
  to_account_id : Z;
  to_collection : Z;
  to_document_id : Z;
  item_permissions : Z;
}.

Definition acl_item_deserialize (key : bytes) : result StoreError AclItem :=
  a ← deserialize_be_u32 key U32_LEN;
  c ← ok_or DataCorruption (key !! Z.to_nat (U32_LEN * 2));
  d ← deserialize_be_u32 key (U32_LEN * 2 + 1);
  Ok {| to_account_id := a; to_collection := c; to_document_id := d; item_permissions := 0 |}.

Definition with_permissions (p : Z) (i : AclItem) : AclItem :=
  {| to_account_id := to_account_id i; to_collection := to_collection i;
     to_document_id := to_document_id i; item_permissions := p |}.

Inductive AclQuery :=
| SharedWith (grant_account_id to_account_id to_collection : Z)
| HasAccess (grant_account_id : Z).

Definition acl_key (grant account_id collection document_id : Z) : bytes :=
  value_serialize (T := Z) None (Acl grant) account_id collection document_id 0.

Definition acl_query_range (query : AclQuery) : bytes * bytes :=
  match query with
  | SharedWith g a c => (acl_key g a c 0, acl_key g a c u32_max)
  | HasAccess g => (acl_key g 0 0 0, acl_key g u32_max u8_max u32_max)
  end.

Section StoredGrants.
Context `{KvStore DB}.

Definition push_item (key value : bytes) (results : list AclItem) : result StoreError (list AclItem) :=
  item ← acl_item_deserialize key;
  p ← u64_deserialize value;
  Ok (results ++ [with_permissions p item]).

Definition acl_query (db : DB) (query : AclQuery) : result StoreError (list AclItem) :=
  let '(from, to) := acl_query_range query in
  iterate db
    {| ip_subspace := SUBSPACE_ACL; ip_begin := from; ip_end := to; ip_first := false;
       ip_ascending := true |}
    (λ key value results, results ← push_item key value results; Ok (true, results)) [].

(** Whether a stored grant has one of the rights asked for. *)
Definition grants_any (permissions : Z) (check_acls : Bitmap.Bitmap) : bool :=
  negb (Bitmap.is_empty (Bitmap.intersection {| Bitmap.bitmap := permissions |} check_acls)).

Fixpoint shared_with (db : DB) (accounts : list Z) (account_id collection : Z)
    (check_acls : Bitmap.Bitmap) (document_ids : gset Z) : result StoreError (gset Z) :=
  match accounts with
  | [] => Ok document_ids
  | grant :: accounts =>
      items ← acl_query db (SharedWith grant account_id collection);
      shared_with db accounts account_id collection check_acls
        (foldl (λ ids item, if grants_any (item_permissions item) check_acls
                            then {[to_document_id item]} ∪ ids else ids) document_ids items)
  end.

(** The documents of a collection of another account that the token may use. *)
Definition shared_documents (db : DB) (t : AccessToken) (account_id collection : Z)
    (check_acls : Bitmap.Bitmap) : result StoreError (gset Z) :=
  shared_with db (primary_id t :: member_of t) account_id collection check_acls ∅.

Fixpoint access_of (db : DB) (accounts : list Z) (account_id collection document_id : Z)
    (check_acls : Bitmap.Bitmap) : result StoreError bool :=
  match accounts with
  | [] => Ok false
  | grant :: accounts =>
      v ← get_value u64_deserialize db (Acl grant) account_id collection document_id;
      if (match v with Some acls => grants_any acls check_acls | None => false end) then Ok true
      else access_of db accounts account_id collection document_id check_acls
  end.

Definition has_access_to_document (db : DB) (t : AccessToken) (account_id collection document_id : Z)
    (check_acls : Bitmap.Bitmap) : result StoreError bool :=
  access_of db (primary_id t :: member_of t) account_id collection document_id check_acls.
End StoredGrants.

(** ** Changing a list of grants *)

(** Whether [account_id] has the right numbered [j]. *)
Definition granted (acl : list AclGrant) (account_id j : Z) : bool :=
  match find_grant account_id acl with Some g => Bitmap.contains g j | None => false end.

Lemma find_update_grant id f acl x :
  find_grant x (update_grant id f acl) = if x =? id then f <$> find_grant id acl else find_grant x acl.
Proof.
  induction acl as [|item acl IH]; simpl; [by destruct (x =? id)|].
  destruct (Z.eqb_spec (ag_account_id item) id) as [Hid|Hid]; simpl.
  - destruct (Z.eqb_spec (ag_account_id item) x) as [Hx|Hx], (Z.eqb_spec x id); done || congruence.
  - rewrite IH. destruct (Z.eqb_spec (ag_account_id item) x) as [Hx|Hx], (Z.eqb_spec x id);
      done || congruence.
Qed.

Lemma find_retain_others id acl x :
  find_grant x (retain_others id acl) = if x =? id then None else find_grant x acl.
Proof.
  unfold retain_others. induction acl as [|item acl IH]; simpl; [by destruct (x =? id)|].
  destruct (decide (ag_account_id item ≠ id)) as [Hid|Hid].
  - rewrite filter_cons_True by done. simpl. rewrite IH.
    destruct (Z.eqb_spec (ag_account_id item) x), (Z.eqb_spec x id); done || congruence.
  - rewrite filter_cons_False by done. rewrite IH. apply dec_stable in Hid.
    destruct (Z.eqb_spec (ag_account_id item) x), (Z.eqb_spec x id); done || congruence.
Qed.

Lemma find_grant_app x acl item :
  find_grant x (acl ++ [item])
  = match find_grant x acl with
    | Some g => Some g
    | None => if ag_account_id item =? x then Some (ag_grants item) else None
    end.
Proof.
  induction acl as [|item' acl IH]; simpl; [done|]. by destruct (ag_account_id item' =? x).
Qed.

Lemma contains_empty b j : Bitmap.is_empty b = true → Bitmap.contains b j = false.
Proof.
  unfold Bitmap.is_empty, Bitmap.contains. intros Hb%Z.eqb_eq. by rewrite Hb, Z.land_0_l.
Qed.

Lemma members_nodup b n : NoDup (members b n).
Proof.
  induction n as [|n IH]; simpl; [constructor|]. destruct (Z.testbit b (Z.of_nat n)); [|done].
  constructor; [|done]. rewrite members_elem. lia.
Qed.

Lemma acl_roundtrip v : 0 ≤ v < 10 → acl_to_u64 (acl_from_u64 v) = v.
Proof.
  intros Hv. assert (v = 0 ∨ v = 1 ∨ v = 2 ∨ v = 3 ∨ v = 4 ∨ v = 5 ∨ v = 6 ∨ v = 7 ∨ v = 8 ∨ v = 9)
    as Hc by lia.
  by repeat destruct Hc as [->|Hc]; [..|subst].
Qed.

(** Removing distinct items flips each of them once. *)
Lemma foldl_remove l g j :
  0 ≤ j < 64 → NoDup l → Forall (λ v, 0 ≤ v < 10) l →
  Bitmap.contains (foldl (λ g v, Bitmap.remove g (acl_to_u64 (acl_from_u64 v))) g l) j
  = xorb (Bitmap.contains g j) (bool_decide (j ∈ l)).
Proof.
  intros Hj Hnd. revert g. induction Hnd as [|v l Hv Hnd IH]; intros g Hl; simpl.
  { by rewrite xorb_false_r. }
  inversion Hl as [|? ? Hv10 Hl']; subst. rewrite IH, acl_roundtrip by done.
  rewrite !contains_testbit by done. cbn [Bitmap.remove Bitmap.bitmap].
  rewrite Z.lxor_spec, bit_testbit, xorb_assoc by lia. f_equal.
  destruct (decide (v = j)) as [->|Hne].
  - rewrite (bool_decide_eq_true_2 (j = j)), (bool_decide_eq_false_2 (j ∈ l)) by done.
    by rewrite bool_decide_eq_true_2 by (by left).
  - rewrite (bool_decide_eq_false_2 (v = j)) by done. rewrite xorb_false_l.
    apply bool_decide_ext. rewrite elem_of_cons. intuition congruence.
Qed.

Lemma remove_rights_contains g rights j :
  0 ≤ j < 64 → fits 10 (Bitmap.bitmap rights) →
  Bitmap.contains (remove_rights g rights) j = xorb (Bitmap.contains g j) (Bitmap.contains rights j).
Proof.
  intros Hj Hr. unfold remove_rights, Bitmap.into_vec.
  rewrite (drain_spec 10) by (unfold fits in Hr; simpl; lia).
  rewrite foldl_remove; [|done|apply members_nodup|].
  - f_equal. rewrite contains_testbit by done. case_bool_decide as Hin.
    + apply members_elem in Hin. symmetry. apply Hin.
    + rewrite members_elem in Hin. destruct (Z.testbit (Bitmap.bitmap rights) j) eqn:Hb; [|done].
      destruct Hin. split; [|done]. destruct (decide (j < 10)); [simpl; lia|].
      rewrite (fits_bit_high 10) in Hb by (done || lia). done.
  - apply Forall_forall. intros v Hv%members_elem. simpl in Hv. lia.
Qed.

(** ** Stored grants *)

Section StoredGrantFacts.
Context `{KvLaws DB}.

(** The rows of the grant subspace are grants. *)
Definition acl_tidy (db : DB) : Prop :=
  ∀ k v, kv_get db SUBSPACE_ACL k = Some v →
    length v = 8%nat ∧
    ∃ g a c d, fits 32 g ∧ fits 32 a ∧ is_byte c ∧ fits 32 d ∧ k = acl_key g a c d.

Lemma acl_key_bytes g a c d :
  acl_key g a c d = (be_bytes 4 g ++ be_bytes 4 a ++ [c]) ++ be_bytes 4 d.
Proof using.
  unfold acl_key. rewrite value_serialize_bytes.
  change (parts_bytes _) with (be_bytes 4 g ++ be_bytes 4 a ++ [c] ++ be_bytes 4 d ++ []).
  by rewrite app_nil_r, <- !app_assoc.
Qed.

Lemma acl_item_of_key g a c d :
  fits 32 a → fits 32 d →
  acl_item_deserialize (acl_key g a c d)
  = Ok {| to_account_id := a; to_collection := c; to_document_id := d; item_permissions := 0 |}.
Proof using.
  intros Ha Hd. unfold acl_item_deserialize, deserialize_be_u32. rewrite acl_key_bytes.
  replace ((be_bytes 4 g ++ be_bytes 4 a ++ [c]) ++ be_bytes 4 d)
    with (be_bytes 4 g ++ be_bytes 4 a ++ ([c] ++ be_bytes 4 d)) by (by rewrite <- !app_assoc).
  rewrite (deserialize_be_at 4 (be_bytes 4 g) a _ U32_LEN) by done. cbn [mbind result_bind].
  assert ((be_bytes 4 g ++ be_bytes 4 a ++ [c] ++ be_bytes 4 d) !! Z.to_nat (U32_LEN * 2) = Some c) as ->.
  { rewrite lookup_app_r by (rewrite length_be_bytes; vm_compute; lia).
    rewrite lookup_app_r by (rewrite !length_be_bytes; vm_compute; lia).
    by rewrite !length_be_bytes. }
  cbn [ok_or mbind result_bind].
  replace (be_bytes 4 g ++ be_bytes 4 a ++ [c] ++ be_bytes 4 d)
    with ((be_bytes 4 g ++ be_bytes 4 a ++ [c]) ++ be_bytes 4 d ++ [])
    by (by rewrite app_nil_r, <- !app_assoc).
  rewrite (deserialize_be_at 4 (be_bytes 4 g ++ be_bytes 4 a ++ [c])); [done| |done].
  by rewrite !length_app, !length_be_bytes.
Qed.

Definition row_item (a c : Z) (r : Row) : AclItem :=
  {| to_account_id := a; to_collection := c; to_document_id := key_document r.1;
     item_permissions := from_be r.2 |}.

Lemma push_item_key g a c d v acc :
  fits 32 a → fits 32 d → length v = 8%nat →
  push_item (acl_key g a c d) v acc = Ok (acc ++ [row_item a c (acl_key g a c d, v)]).
Proof using.
  intros Ha Hd Hv. unfold push_item, u64_deserialize, row_item. rewrite acl_item_of_key, Hv by done.
  cbn [mbind result_bind Nat.eqb with_permissions fst snd to_account_id to_collection to_document_id].
  by rewrite acl_key_bytes, key_document_prefix.
Qed.

Lemma fold_push_item g a c rows acc :
  fits 32 a → Forall (λ r : Row, length r.2 = 8%nat ∧ ∃ d, fits 32 d ∧ r.1 = acl_key g a c d) rows →
  fold_rows push_item rows acc = Ok (acc ++ (row_item a c <$> rows)).
Proof using.
  intros Ha Hrows. revert acc.
  induction Hrows as [|[k v] rows (Hv & d & Hd & Hk) Hrows IH]; intros acc; cbn [fold_rows].
  { by rewrite app_nil_r. }
  cbn [fst snd] in *. subst k. rewrite push_item_key by done. cbn [mbind result_bind].
  rewrite IH, fmap_cons, <- app_assoc. done.
Qed.

Lemma acl_range g a c k v :
  fits 32 g → fits 32 a → is_byte c →
  (∃ g' a' c' d, fits 32 g' ∧ fits 32 a' ∧ is_byte c' ∧ fits 32 d ∧ k = acl_key g' a' c' d) →
  in_range (acl_key g a c 0) (acl_key g a c u32_max) (k, v) ↔ ∃ d, fits 32 d ∧ k = acl_key g a c d.
Proof using.
  intros Hg Ha Hc (g' & a' & c' & d' & _ & _ & _ & Hd' & ->). rewrite !acl_key_bytes. split.
  - intros [Hb He]. cbn [fst] in *.
    edestruct range_prefix as (q & Hq & _); [|exact Hb|exact He|].
    { rewrite !length_app, !length_be_bytes. simpl. lia. }
    apply app_split in Hq as [Hp <-]; [|done]. exists d'. split; [done|]. by rewrite acl_key_bytes, Hp.
  - intros (d & Hd & Heq). rewrite acl_key_bytes in Heq. rewrite Heq. by apply prefix_range.
Qed.

(** A query lists the stored grants of a grantee in a collection. *)
Lemma acl_query_shared db g a c :
  acl_tidy db → fits 32 g → fits 32 a → is_byte c →
  ∃ rows, acl_query db (SharedWith g a c) = Ok (row_item a c <$> rows) ∧
    ∀ k v, (k, v) ∈ rows ↔
      kv_get db SUBSPACE_ACL k = Some v ∧ ∃ d, fits 32 d ∧ k = acl_key g a c d.
Proof.
  intros Ht Hg Ha Hc. unfold acl_query, acl_query_range. rewrite iterate_ascending by done.
  cbn [ip_begin ip_end ip_subspace].
  exists (filter (in_range (acl_key g a c 0) (acl_key g a c u32_max)) (kv_scan db SUBSPACE_ACL)).
  assert (∀ k v, (k, v) ∈ filter (in_range (acl_key g a c 0) (acl_key g a c u32_max))
                   (kv_scan db SUBSPACE_ACL) ↔
    kv_get db SUBSPACE_ACL k = Some v ∧ ∃ d, fits 32 d ∧ k = acl_key g a c d) as Hin.
  { intros k v. rewrite list_elem_of_filter, kv_scan_get. split.
    - intros [Hr Hk]. split; [done|]. destruct (Ht k v Hk) as [_ Hkey]. by eapply acl_range.
    - intros [Hk Hd]. split; [|done]. destruct (Ht k v Hk) as [_ Hkey]. by apply acl_range. }
  split; [|done]. rewrite (fold_push_item g a c); [done|done|].
  apply Forall_forall. intros [k v] [Hk Hd]%Hin. split; [by apply (Ht k)|done].
Qed.

Lemma shared_items check rows a c (ids : gset Z) d :
  d ∈ foldl (λ ids item, if grants_any (item_permissions item) check
                         then {[to_document_id item]} ∪ ids else ids) ids (row_item a c <$> rows)
  ↔ d ∈ ids ∨ ∃ k v, (k, v) ∈ rows ∧ key_document k = d ∧ grants_any (from_be v) check = true.
Proof using.
  revert ids. induction rows as [|[k v] rows IH]; intros ids; cbn [fmap list_fmap foldl].
  { split; [by left|]. intros [?|(? & ? & ?%not_elem_of_nil & _)]; done. }
  rewrite IH. unfold row_item at 1 2. cbn [item_permissions to_document_id fst snd].
  setoid_rewrite elem_of_cons. destruct (grants_any (from_be v) check) eqn:Hg.
  - rewrite elem_of_union, elem_of_singleton. split.
    + intros [[->|?]|(k' & v' & ? & ? & ?)]; [right; exists k, v; by split_and!; [left|..]|by left|].
      right. exists k', v'. split_and!; [by right|done..].
    + intros [?|(k' & v' & [[= -> ->]|?] & <- & ?)]; [by left; right|by left; left|].
      right. by exists k', v'.
  - split.
    + intros [?|(k' & v' & ? & ? & ?)]; [by left|]. right. exists k', v'. split_and!; [by right|done..].
    + intros [?|(k' & v' & [[= -> ->]|?] & ? & ?)]; [by left|congruence|]. right. by exists k', v'.
Qed.

Definition holds_grant (db : DB) (accounts : list Z) (a c d : Z) (check : Bitmap.Bitmap) : Prop :=
  ∃ g v, g ∈ accounts ∧ kv_get db SUBSPACE_ACL (acl_key g a c d) = Some v ∧
    grants_any (from_be v) check = true.

Lemma shared_with_spec db accounts a c check ids :
  acl_tidy db → Forall (fits 32) accounts → fits 32 a → is_byte c →
  ∃ ids', shared_with db accounts a c check ids = Ok ids' ∧
    ∀ d, fits 32 d → d ∈ ids' ↔ d ∈ ids ∨ holds_grant db accounts a c d check.
Proof.
  intros Ht Hacc Ha Hc. revert ids. induction Hacc as [|g accounts Hg Hacc IH]; intros ids; cbn [shared_with].
  { exists ids. split; [done|]. intros d Hd. split; [by left|].
    intros [?|(g & v & ?%not_elem_of_nil & _)]; done. }
  destruct (acl_query_shared db g a c) as (rows & -> & Hrows); [done..|]. cbn [mbind result_bind].
  edestruct IH as (ids' & Hids & Hin). exists ids'. split; [exact Hids|]. intros d Hd.
  rewrite Hin, shared_items by done. unfold holds_grant. setoid_rewrite elem_of_cons. split.
  - intros [[?|(k & v & Hkv & Hkd & Hgr)]|(g' & v & ? & ? & ?)]; [by left| |].
    + apply Hrows in Hkv as (Hk & d' & Hd' & ->).
      rewrite acl_key_bytes, key_document_prefix in Hkd by done. subst d'.
      right. exists g, v. split_and!; [by left|done..].
    + right. exists g', v. split_and!; [by right|done..].
  - intros [?|(g' & v & [->|?] & Hk & Hgr)]; [by left; left| |].
    + left. right. exists (acl_key g a c d), v. split_and!; [|by rewrite acl_key_bytes, key_document_prefix|done].
      apply Hrows. split; [done|]. by exists d.
    + right. by exists g', v.
Qed.

Lemma access_of_spec db accounts a c d check :
  acl_tidy db → ∃ b, access_of db accounts a c d check = Ok b ∧
    (b = true ↔ holds_grant db accounts a c d check).
Proof using.
  intros Ht. induction accounts as [|g accounts (b & Hb & Hiff)]; cbn [access_of].
  { exists false. split; [done|]. split; [done|]. intros (? & ? & ?%not_elem_of_nil & _). done. }
  unfold get_value. cbn [value_subspace]. fold (acl_key g a c d).
  unfold holds_grant. setoid_rewrite elem_of_cons.
  destruct (kv_get db SUBSPACE_ACL (acl_key g a c d)) as [v|] eqn:Hk.
  - destruct (Ht _ v Hk) as [Hv _]. unfold u64_deserialize. rewrite Hv. cbn [mbind result_bind Nat.eqb].
    destruct (grants_any (from_be v) check) eqn:Hg.
    + exists true. split; [done|]. split; [|done]. intros _. exists g, v. split_and!; [by left|done..].
    + exists b. split; [done|]. rewrite Hiff. split.
      * intros (g' & v' & ? & ? & ?). exists g', v'. split_and!; [by right|done..].
      * intros (g' & v' & [->|?] & ? & ?); [congruence|by exists g', v'].
  - cbn [mbind result_bind]. exists b. split; [done|]. rewrite Hiff. split.
    + intros (g' & v' & ? & ? & ?). exists g', v'. split_and!; [by right|done..].
    + intros (g' & v' & [->|?] & ? & ?); [congruence|by exists g', v'].
Qed.
End StoredGrantFacts.

(** ** Properties *)

(** C31.  What SETACL and DELETEACL do to a list of grants, for every account and
    every right: replacing gives the account the rights named, adding joins them
    to its own, and other accounts keep what they have.  Removing flips each right
    named, if the account has an entry: a right that it did not have is granted. *)
Theorem set_acl_effect (acl : list AclGrant) (account x j : Z) (op : ModRightsOp) (rights : Bitmap.Bitmap)
    (Hj : 0 ≤ j < 64) (Hrights : fits 10 (Bitmap.bitmap rights)) :
  granted (set_acl acl account op rights) x j
  = if x =? account then
      match op with
      | ModReplace => Bitmap.contains rights j
      | ModAdd => granted acl account j || Bitmap.contains rights j
      | ModRemove =>
          match find_grant account acl with
          | Some g => xorb (Bitmap.contains g j) (Bitmap.contains rights j)
          | None => false
          end
      end
    else granted acl x j.
Proof.
  assert (∀ g, Bitmap.contains (Bitmap.union g rights) j = Bitmap.contains g j || Bitmap.contains rights j)
    as Hunion by (intros g; rewrite !contains_testbit by done; apply Z.lor_spec).
  assert (∀ g, Bitmap.contains (remove_rights g rights) j
               = xorb (Bitmap.contains g j) (Bitmap.contains rights j))
    as Hremove by (intros g; by apply remove_rights_contains).
  assert (Bitmap.is_empty rights = true → Bitmap.contains rights j = false)
    as Hempty by apply contains_empty.
  unfold set_acl, granted. destruct (find_grant account acl) as [g|] eqn:Hfind.
  - destruct op.
    + rewrite find_update_grant, Hfind. destruct (x =? account); [apply Hunion|done].
    + destruct (Bitmap.is_empty (remove_rights g rights)) eqn:He;
        rewrite ?find_retain_others, find_update_grant, Hfind; destruct (x =? account); try done.
      * rewrite <- Hremove. by rewrite contains_empty.
      * apply Hremove.
    + destruct (Bitmap.is_empty rights) eqn:He; simpl;
        rewrite ?find_retain_others, ?find_update_grant, ?Hfind; destruct (x =? account); try done.
      by rewrite Hempty.
  - destruct (Bitmap.is_empty rights) eqn:He; simpl.
    + destruct (Z.eqb_spec x account) as [->|]; [|done]. rewrite Hfind, Hempty by done. by destruct op.
    + destruct op; rewrite ?find_grant_app; cbn [ag_account_id ag_grants];
        rewrite ?(Z.eqb_sym account x); destruct (Z.eqb_spec x account) as [->|]; rewrite ?Hfind; try done;
        by destruct (find_grant x acl).
Qed.

Definition bob_reads : list AclGrant :=
  [{| ag_account_id := 7; ag_grants := rights_bitmap [Lookup; Read] |}].

Lemma set_acl_effect_witness :
  granted bob_reads 7 (acl_to_u64 AclAdminister) = false ∧
  granted (set_acl bob_reads 7 ModRemove (rights_bitmap [Administer])) 7 (acl_to_u64 AclAdminister) = true.
Proof.
  split; [by vm_compute|].
  rewrite (set_acl_effect bob_reads 7 7 (acl_to_u64 AclAdminister) ModRemove (rights_bitmap [Administer]));
    [by vm_compute|vm_compute; split; discriminate || reflexivity|concrete].
Defined.

(**  SETACL checks the permission of the session but not the rights in the
    mailbox: whoever may use the command at all changes the grants of any mailbox
    the session can name, owner or not.  GETACL on the same mailbox is refused to
    an account that is neither the owner nor an administrator of it. *)
Theorem set_acl_unguarded (session_token token : AccessToken) (owner principal : Z)
    (acl : list AclGrant) (mr : ModRights) (name_of : Z → option bytes)
    (Hset : has_permission ImapAclSet session_token = true)
    (Hget : has_permission ImapAuthenticate session_token = true)
    (Hother : is_member owner token = false)
    (Hrights : Bitmap.contains (effective_acl acl token) (acl_to_u64 AclAdminister) = false) :
  handle_set_acl session_token token (Some owner) (Some (Some (PropAcl acl))) (Some principal) (Some mr)
  = Ok (set_acl acl principal (mr_op mr) (rights_bitmap (mr_rights mr))) ∧
  handle_get_acl session_token token (Some owner) (Some (Some (PropAcl acl))) name_of = Err NoPerm.
Proof.
  unfold handle_set_acl, handle_get_acl, assert_has_permission, get_acl_mailbox.
  rewrite Hset, Hget. split; [done|]. cbn [values_acl mbind result_bind negb orb].
  by rewrite Hother, Hrights.
Qed.

(** A token of account 7 with the two IMAP permissions. *)
Definition bob : AccessToken :=
  {| primary_id := 7; member_of := []; access_to := [];
     permissions := [0; 2 ^ 59 + 2 ^ 61] ++ replicate 21 0 |}.

Lemma set_acl_unguarded_witness :
  handle_set_acl bob bob (Some 3) (Some (Some (PropAcl bob_reads))) (Some 7)
    (Some {| mr_op := ModAdd; mr_rights := [Administer] |})
  = Ok (set_acl bob_reads 7 ModAdd (rights_bitmap [Administer])).
Proof.
  apply (set_acl_unguarded bob bob 3 7 bob_reads {| mr_op := ModAdd; mr_rights := [Administer] |}
    (λ _, None)); vm_compute; reflexivity.
Defined.

(** C30.  The two ways to check stored grants agree: [has_access_to_document]
    answers yes for exactly the documents that [shared_documents] lists. *)
Theorem shared_documents_agree `{KvLaws DB} (db : DB) (t : AccessToken) (a c : Z)
    (check_acls : Bitmap.Bitmap) (Htidy : acl_tidy db)
    (Hids : Forall (fits 32) (primary_id t :: member_of t)) (Ha : fits 32 a) (Hc : is_byte c) :
  ∃ ids, shared_documents db t a c check_acls = Ok ids ∧
    ∀ d, fits 32 d → has_access_to_document db t a c d check_acls = Ok (bool_decide (d ∈ ids)).
Proof.
  unfold shared_documents, has_access_to_document.
  destruct (shared_with_spec db (primary_id t :: member_of t) a c check_acls ∅)
    as (ids & -> & Hin); [done..|].
  exists ids. split; [done|]. intros d Hd.
  destruct (access_of_spec db (primary_id t :: member_of t) a c d check_acls Htidy) as (b & -> & Hb).
  f_equal. apply eq_bool_prop_intro. rewrite !Is_true_true, Hb, bool_decide_eq_true, Hin by done.
  split; [by right|]. by intros [?%elem_of_empty|?].
Qed.

Definition one_grant : MapStore.DB := kv_put SUBSPACE_ACL (acl_key 7 3 1 5) (be_bytes 8 9) ∅.

Lemma shared_documents_agree_witness :
  ∃ ids, shared_documents one_grant bob 3 1 {| Bitmap.bitmap := 1 |} = Ok ids ∧
    has_access_to_document one_grant bob 3 1 5 {| Bitmap.bitmap := 1 |} = Ok (bool_decide (5 ∈ ids)).
Proof.
  destruct (shared_documents_agree one_grant bob 3 1 {| Bitmap.bitmap := 1 |}) as (ids & Hids & Hin).
  - intros k v Hk. cbn [kv_get MapStore.map_store one_grant kv_put] in Hk.
    apply lookup_insert_Some in Hk as [[Hk <-]|[_ Hk]]; [|done]. split; [reflexivity|].
    exists 7, 3, 1, 5. split_and!; [concrete..|]. by injection Hk.
  - repeat constructor; concrete.
  - concrete.
  - concrete.
  - exists ids. split; [exact Hids|]. apply Hin. concrete.
Defined.
