(* ===== verification/ChangesQuery.v ===== *)
(** * Queries over the change log

    crates/store/src/query/log.rs ([Store::changes], [get_last_change_id]) and
    the JMAP method that pages through their result,
    crates/jmap/src/changes/get.rs. *)

From stdpp Require Import sorting.
From S2P Require Import Prelude Leb128 JmapId JmapValues Maps StoreKeys KvStore Access StoreLog.

#[local] Opaque write_loop.

(** ** query/log.rs *)

(** The [Changes] of the query module. *)
Record ChangeSet := {
  cs_changes : list Change;
  cs_from_change_id : Z;
  cs_to_change_id : Z;
}.

Definition change_set_default : ChangeSet :=
  {| cs_changes := []; cs_from_change_id := 0; cs_to_change_id := 0 |}.

Inductive Query :=
| QueryAll
| QuerySince (change_id : Z)
| QuerySinceInclusive (change_id : Z)
| QueryRangeInclusive (from_change_id to_change_id : Z).

(** Whether the first id belongs to the range, and its ends. *)
Definition query_range (query : Query) : bool * Z * Z :=
  match query with
  | QueryAll => (true, 0, u64_max)
  | QuerySince id => (false, id, u64_max)
  | QuerySinceInclusive id => (true, id, u64_max)
  | QueryRangeInclusive from to => (true, from, to)
  end.

Definition log_key (account_id collection change_id : Z) : bytes :=
  log_key_serialize {| lk_account_id := account_id; lk_collection := collection;
                       lk_change_id := change_id |} 0.

(** The callback of [changes]. *)
Definition read_log (is_inclusive : bool) (from_change_id : Z) (key value : bytes) (cs : ChangeSet)
    : result StoreError ChangeSet :=
  change_id ← deserialize_be_u64 key (Z.of_nat (length key) - U64_LEN);
  if is_inclusive || negb (change_id =? from_change_id) then
    let from := match cs_changes cs with [] => change_id | _ => cs_from_change_id cs end in
    l ← ok_or DataCorruption (changes_deserialize (cs_changes cs) value);
    Ok {| cs_changes := l; cs_from_change_id := from; cs_to_change_id := change_id |}
  else Ok cs.

Section Queries.
Context `{KvStore DB}.

Definition changes (db : DB) (account_id collection : Z) (query : Query) : result StoreError ChangeSet :=
  let '(is_inclusive, from, to) := query_range query in
  cs ← iterate db
    {| ip_subspace := SUBSPACE_LOGS; ip_begin := log_key account_id collection from;
       ip_end := log_key account_id collection to; ip_first := false; ip_ascending := true |}
    (λ key value cs, cs ← read_log is_inclusive from key value cs; Ok (true, cs))
    change_set_default;
  Ok (match cs_changes cs with
      | [] => {| cs_changes := []; cs_from_change_id := from;
                 cs_to_change_id := if to =? u64_max then from else to |}
      | _ => cs
      end).

Definition get_last_change_id (db : DB) (account_id collection : Z) : result StoreError (option Z) :=
  iterate db
    {| ip_subspace := SUBSPACE_LOGS; ip_begin := log_key account_id collection 0;
       ip_end := log_key account_id collection u64_max; ip_first := true; ip_ascending := false |}
    (λ key _ _, id ← deserialize_be_u64 key (Z.of_nat (length key) - U64_LEN); Ok (false, Some id))
    None.
End Queries.

(** ** jmap/src/changes/get.rs *)

Inductive RequestArguments := ArgEmail | ArgMailbox | ArgThread | ArgIdentity | ArgEmailSubmission | ArgQuota.

Record ChangesRequest := {
  rq_account_id : Id;
  rq_since_state : State;
  rq_max_changes : option Z;
  rq_arguments : RequestArguments;
}.

(** The mailbox counters a response can name. *)
Inductive CountProperty := TotalEmails | UnreadEmails | TotalThreads | UnreadThreads.

Record ChangesResponse := {
  rs_old_state : State;
  rs_new_state : State;
  rs_has_more_changes : bool;
  rs_created : list Id;
  rs_updated : list Id;
  rs_destroyed : list Id;
  rs_updated_properties : option (list CountProperty);
}.

Inductive MethodError :=
| Forbidden
| CannotCalculateChanges
| StoreFailure (e : StoreError).

Definition lift {A} (r : result StoreError A) : result MethodError A :=
  match r with Ok a => Ok a | Err e => Err (StoreFailure e) end.

Definition require (b : bool) : result MethodError () := if b then Ok () else Err Forbidden.

(** The collection of a request, after the check of the caller's access. *)
Definition changes_collection (t : AccessToken) (account : Id) (args : RequestArguments)
    : result MethodError Collection :=
  let account_id := id_document_id account in
  match args with
  | ArgEmail => _ ← require (has_access account_id ColEmail t); Ok ColEmail
  | ArgMailbox => _ ← require (has_access account_id ColMailbox t); Ok ColMailbox
  | ArgThread => _ ← require (has_access account_id ColEmail t); Ok ColThread
  | ArgIdentity => _ ← require (is_member account_id t); Ok ColIdentity
  | ArgEmailSubmission => _ ← require (is_member account_id t); Ok ColEmailSubmission
  | ArgQuota => _ ← require (is_member account_id t); Err CannotCalculateChanges
  end.

(** The limit of the request, capped by the server's where there is one. *)
Definition effective_max (changes_max_results : Z) (max_changes : option Z) : Z :=
  let asked := default 0 max_changes in
  if (0 <? changes_max_results) && (changes_max_results <? asked) then changes_max_results else asked.

(** [drain(len - n .. len)] and [drain(0 .. len - n)]. *)
Definition drop_last (n : Z) (l : list Change) : list Change := take (length l - Z.to_nat n) l.
Definition keep_last (n : Z) (l : list Change) : list Change := drop (length l - Z.to_nat n) l.

Definition id_of (v : Z) : Id := {| id := v |}.

(** The ids of a page by the kind of their change. *)
Definition created_ids (l : list Change) : list Id :=
  omap (λ c, match c with Insert i => Some (id_of i) | _ => None end) l.
Definition updated_ids (l : list Change) : list Id :=
  omap (λ c, match c with Update i | ChildUpdate i => Some (id_of i) | _ => None end) l.
Definition destroyed_ids (l : list Change) : list Id :=
  omap (λ c, match c with Delete i => Some (id_of i) | _ => None end) l.
Definition items_changed (l : list Change) : bool :=
  existsb (λ c, match c with Update _ => true | _ => false end) l.

Section Method.
Context `{KvStore DB} (changes_max_results : Z).

(** How many items of the range were sent before, and the changes to send from:
    [None] for an account without any change. *)
Definition since (db : DB) (account_id collection : Z) (state : State)
    : result StoreError (option (Z * ChangeSet)) :=
  match state with
  | Initial =>
      cs ← changes db account_id collection QueryAll;
      Ok (if bool_decide (cs_changes cs = []) && (cs_from_change_id cs =? 0) then None else Some (0, cs))
  | Exact change_id =>
      cs ← changes db account_id collection (QuerySince change_id);
      Ok (Some (0, cs))
  | Intermediate st =>
      cs ← changes db account_id collection (QueryRangeInclusive (from_id st) (to_id st));
      if Z.of_nat (length (cs_changes cs)) <=? items_sent st then
        cs ← changes db account_id collection (QuerySince (to_id st));
        Ok (Some (0, cs))
      else
        Ok (Some (items_sent st,
          {| cs_changes := drop_last (items_sent st) (cs_changes cs);
             cs_from_change_id := cs_from_change_id cs; cs_to_change_id := cs_to_change_id cs |}))
  end.

Definition respond (old : State) (collection : Collection) (max_changes sent : Z) (cs : ChangeSet)
    : ChangesResponse :=
  let more := (0 <? max_changes) && (max_changes <? Z.of_nat (length (cs_changes cs))) in
  let page := if more then keep_last max_changes (cs_changes cs) else cs_changes cs in
  {| rs_old_state := old;
     rs_new_state :=
       if more then new_intermediate (cs_from_change_id cs) (cs_to_change_id cs) (sent + max_changes)
       else Exact (cs_to_change_id cs);
     rs_has_more_changes := more;
     rs_created := created_ids page;
     rs_updated := updated_ids page;
     rs_destroyed := destroyed_ids page;
     rs_updated_properties :=
       if negb (bool_decide (updated_ids page = [])) && negb (items_changed page)
          && bool_decide (collection = ColMailbox)
       then Some [TotalEmails; UnreadEmails; TotalThreads; UnreadThreads] else None |}.

Definition empty_response (old : State) : ChangesResponse :=
  {| rs_old_state := old; rs_new_state := Initial; rs_has_more_changes := false;
     rs_created := []; rs_updated := []; rs_destroyed := []; rs_updated_properties := None |}.

Definition changes_method (db : DB) (t : AccessToken) (rq : ChangesRequest)
    : result MethodError ChangesResponse :=
  collection ← changes_collection t (rq_account_id rq) (rq_arguments rq);
  let max_changes := effective_max changes_max_results (rq_max_changes rq) in
  r ← lift (since db (id_document_id (rq_account_id rq)) (collection_to_u8 collection)
              (rq_since_state rq));
  Ok (match r with
      | None => empty_response (rq_since_state rq)
      | Some (sent, cs) => respond (rq_since_state rq) collection max_changes sent cs
      end).
End Method.

(** ** The log of a collection *)

Section Log.
Context `{KvLaws DB} (iter : gset Z → list Z) (iter_perm : ∀ s, iter s ≡ₚ elements s).
Context (account collection : Z) (Ha : fits 32 account) (Hc : is_byte collection).

#[local] Abbreviation key := (log_key account collection).
#[local] Abbreviation Entry := (Z * Changes)%type.

Definition entry_row (x : Entry) : Row := (key x.1, changes_serialize iter x.2).

(** [logs] lists the entries of the collection, in the order of their ids. *)
Record logged (db : DB) (logs : list Entry) : Prop := {
  logged_sorted : StronglySorted (λ x y : Entry, x.1 < y.1) logs;
  logged_ok : Forall (λ x : Entry, fits 64 x.1 ∧ changes_ok x.2) logs;
  logged_stored x : x ∈ logs → kv_get db SUBSPACE_LOGS (key x.1) = Some (changes_serialize iter x.2);
  logged_all k v : kv_get db SUBSPACE_LOGS k = Some v → in_range (key 0) (key u64_max) (k, v) →
    ∃ x, x ∈ logs ∧ (k, v) = entry_row x;
}.

Lemma key_compare x y : fits 64 x → fits 64 y → bytes_compare (key x) (key y) = (x ?= y).
Proof using Ha Hc.
  intros Hx Hy. unfold log_key. rewrite log_key_compare_bytes by done.
  unfold log_key_compare, compare_then. cbn. by rewrite !Z.compare_refl.
Qed.

Lemma key_le x y : fits 64 x → fits 64 y → bytes_le (key x) (key y) ↔ x ≤ y.
Proof using Ha Hc. intros Hx Hy. unfold bytes_le. by rewrite key_compare. Qed.

Lemma key_lt x y : fits 64 x → fits 64 y → bytes_lt (key x) (key y) ↔ x < y.
Proof using Ha Hc. intros Hx Hy. unfold bytes_lt. by rewrite key_compare. Qed.

Lemma sorted_nodup (rows : list Row) : StronglySorted row_lt rows → NoDup rows.
Proof using.
  induction 1 as [|r rows Hs IH Hr]; constructor; [|done].
  intros Hin. rewrite Forall_forall in Hr. specialize (Hr r Hin).
  by apply (irreflexivity bytes_lt r.1).
Qed.

Lemma sorted_rows_unique (l1 l2 : list Row) :
  StronglySorted row_lt l1 → StronglySorted row_lt l2 → (∀ r, r ∈ l1 ↔ r ∈ l2) → l1 = l2.
Proof using.
  intros H1 H2 Hin. apply (StronglySorted_unique_strong row_lt).
  - intros x y _ _ Hxy Hyx. exfalso. apply (irreflexivity bytes_lt x.1). by transitivity y.1.
  - done.
  - done.
  - by apply NoDup_Permutation; [apply sorted_nodup..|].
Qed.

Lemma entries_sorted logs :
  StronglySorted (λ x y : Entry, x.1 < y.1) logs → Forall (λ x : Entry, fits 64 x.1 ∧ changes_ok x.2) logs →
  StronglySorted row_lt (entry_row <$> logs).
Proof using Ha Hc.
  induction 1 as [|x logs Hs IH Hx]; intros Hok; [constructor|].
  inversion Hok as [|? ? [Hf _] Hok']; subst. constructor; [by apply IH|].
  apply Forall_fmap, Forall_forall. intros y Hy. rewrite Forall_forall in *.
  apply key_lt; [done|by apply Hok'|]. by apply Hx.
Qed.

Lemma filter_entries_sorted (P : Entry → Prop) `{∀ x, Decision (P x)} logs :
  StronglySorted (λ x y : Entry, x.1 < y.1) logs →
  StronglySorted (λ x y : Entry, x.1 < y.1) (filter P logs).
Proof using.
  induction 1 as [|x logs Hs IH Hx]; [constructor|].
  destruct (decide (P x)); [rewrite filter_cons_True|rewrite filter_cons_False]; [|done..].
  constructor; [done|]. rewrite Forall_forall in *. intros y [_ Hy]%list_elem_of_filter. auto.
Qed.

(** The rows a scan between two ids visits. *)
Lemma rows_between db logs from to :
  logged db logs → fits 64 from → fits 64 to →
  filter (in_range (key from) (key to)) (kv_scan db SUBSPACE_LOGS)
  = entry_row <$> filter (λ x : Entry, from ≤ x.1 ≤ to) logs.
Proof using Ha Hc H0.
  intros [] Hf Ht. apply sorted_rows_unique.
  - apply filter_sorted, kv_scan_sorted.
  - apply entries_sorted; [by apply filter_entries_sorted|].
    rewrite Forall_forall in *. intros x [_ Hx]%list_elem_of_filter. auto.
  - assert (∀ x, x ∈ logs → fits 64 x.1) as Hfits.
    { intros x Hx. rewrite Forall_forall in logged_ok0. by apply logged_ok0. }
    intros [k v]. rewrite list_elem_of_filter, kv_scan_get, list_elem_of_fmap. split.
    + intros [[Hb He] Hk]. cbn [fst] in *.
      destruct (logged_all0 k v Hk) as (x & Hx & [= -> ->]).
      { split; cbn [fst].
        - etransitivity; [|exact Hb]. apply key_le; [by width|done|]. apply Hf.
        - etransitivity; [exact He|]. apply key_le; [done|by width|].
          unfold fits in Ht. change u64_max with (2 ^ 64 - 1). lia. }
      apply key_le in Hb, He; [|by auto..]. exists x. split; [done|]. by apply list_elem_of_filter.
    + intros (x & [= -> ->] & [Hr Hx]%list_elem_of_filter). split; [|by apply logged_stored0].
      split; apply key_le; auto; lia.
Qed.

(** *** A query is a fold over the entries it selects *)

Definition selected (query : Query) (logs : list Entry) : list Entry :=
  let '(inclusive, from, to) := query_range query in
  filter (λ x : Entry, from ≤ x.1 ≤ to ∧ (inclusive = true ∨ x.1 ≠ from)) logs.

Definition cs_step (cs : ChangeSet) (x : Entry) : ChangeSet :=
  {| cs_changes := apply_log iter x.2 (cs_changes cs);
     cs_from_change_id := match cs_changes cs with [] => x.1 | _ => cs_from_change_id cs end;
     cs_to_change_id := x.1 |}.

Definition query_ok (query : Query) : Prop :=
  fits 64 (query_range query).1.2 ∧ fits 64 (query_range query).2.

Lemma log_key_parts id : key id = (be_bytes 4 account ++ [collection]) ++ be_bytes 8 id ++ [].
Proof using.
  unfold log_key. rewrite log_key_bytes. change (subspace_prefix 0 _) with (@nil KeyPart).
  cbn [parts_bytes]. rewrite app_nil_r. cbn. done.
Qed.

Lemma read_log_entry inclusive from x cs :
  fits 64 x.1 → changes_ok x.2 →
  read_log inclusive from (key x.1) (changes_serialize iter x.2) cs
  = Ok (if inclusive || negb (x.1 =? from) then cs_step cs x else cs).
Proof using iter_perm.
  intros Hx Hok. unfold read_log, deserialize_be_u64. rewrite log_key_parts.
  rewrite deserialize_be_at; [|by rewrite !length_app, !length_be_bytes|done].
  cbn [mbind result_bind]. destruct (inclusive || negb (x.1 =? from)); [|done].
  rewrite (changes_deserialize_serialize iter iter_perm) by done. done.
Qed.

Lemma fold_read_log inclusive from logs cs :
  Forall (λ x : Entry, fits 64 x.1 ∧ changes_ok x.2) logs →
  fold_rows (read_log inclusive from) (entry_row <$> logs) cs
  = Ok (foldl cs_step cs (filter (λ x : Entry, inclusive = true ∨ x.1 ≠ from) logs)).
Proof using iter_perm.
  intros Hlogs. revert cs. induction Hlogs as [|x logs [Hx Hok] Hlogs IH]; intros cs; [done|].
  cbn [fmap list_fmap entry_row fold_rows]. rewrite read_log_entry by done. cbn [mbind result_bind].
  etransitivity; [apply IH|]. f_equal.
  destruct (decide (inclusive = true ∨ x.1 ≠ from)) as [Hd|Hd].
  - rewrite filter_cons_True by done. cbn [foldl]. f_equal.
    destruct Hd as [->|Hne]; [done|]. rewrite (proj2 (Z.eqb_neq _ _) Hne). by rewrite orb_true_r.
  - rewrite filter_cons_False by done. f_equal. destruct inclusive; [tauto|].
    destruct (Z.eqb_spec x.1 from); [done|tauto].
Qed.

Lemma selected_split query logs :
  selected query logs
  = filter (λ x : Entry, (query_range query).1.1 = true ∨ x.1 ≠ (query_range query).1.2)
      (filter (λ x : Entry, (query_range query).1.2 ≤ x.1 ≤ (query_range query).2) logs).
Proof using.
  unfold selected. destruct (query_range query) as [[inc from] to]. cbn [fst snd].
  rewrite list_filter_filter. apply list_filter_iff. intros x. tauto.
Qed.

(** What is returned when no change remains. *)
Definition finish (query : Query) (cs : ChangeSet) : ChangeSet :=
  match cs_changes cs with
  | [] => {| cs_changes := []; cs_from_change_id := (query_range query).1.2;
             cs_to_change_id := if (query_range query).2 =? u64_max then (query_range query).1.2
                                else (query_range query).2 |}
  | _ => cs
  end.

Lemma changes_fold db logs query :
  logged db logs → query_ok query →
  changes db account collection query
  = Ok (finish query (foldl cs_step change_set_default (selected query logs))).
Proof using Ha Hc H0 iter_perm.
  intros Hlog [Hf Ht]. rewrite selected_split. unfold changes, finish.
  destruct (query_range query) as [[inc from] to]. cbn [fst snd] in *.
  rewrite iterate_ascending by done. cbn [ip_begin ip_end ip_subspace].
  rewrite (rows_between db logs) by done.
  rewrite fold_read_log; [done|].
  destruct Hlog. rewrite Forall_forall in *. intros x [_ Hx]%list_elem_of_filter. auto.
Qed.

(** *** Net effect *)

Definition history_of (id : Z) (logs : list Entry) : list Event := logs ≫= λ x, history id x.2.

Lemma fold_changes logs cs :
  cs_changes (foldl cs_step cs logs) = foldl (λ l x, apply_log iter x.2 l) (cs_changes cs) logs.
Proof using. revert cs. induction logs as [|x logs IH]; intros cs; [done|]. cbn [foldl]. by rewrite IH. Qed.

Lemma fold_projection id logs l :
  proj id (foldl (λ l x, apply_log iter x.2 l) l logs)
  = foldl (apply_event id) (proj id l) (history_of id logs).
Proof using iter_perm.
  revert l. induction logs as [|x logs IH]; intros l; [done|]. cbn [foldl].
  rewrite IH, (proj_apply_log iter iter_perm).
  change (history_of id (x :: logs)) with (history id x.2 ++ history_of id logs).
  by rewrite foldl_app.
Qed.

Lemma fold_to logs x cs : cs_to_change_id (foldl cs_step cs (logs ++ [x])) = x.1.
Proof using. by rewrite foldl_app. Qed.

(** *** Asking again for the range that a query reports *)

Lemma rerun logs :
  StronglySorted (λ x y : Entry, x.1 < y.1) logs →
  let cs := foldl cs_step change_set_default logs in
  cs_changes cs ≠ [] →
  foldl cs_step change_set_default (filter (λ x : Entry, cs_from_change_id cs ≤ x.1) logs) = cs ∧
  (∃ x, x ∈ logs ∧ x.1 = cs_from_change_id cs) ∧
  (∃ x, last logs = Some x ∧ x.1 = cs_to_change_id cs).
Proof using.
  induction logs as [|x logs IH] using rev_ind; intros Hs cs Hne; [done|].
  apply StronglySorted_app in Hs as (Hbefore & Hs & _).
  unfold cs in *. clear cs. rewrite foldl_app in *. cbn [foldl] in *.
  set (cs0 := foldl cs_step change_set_default logs) in *.
  assert (∀ y, y ∈ logs → y.1 < x.1) as Hlt by (intros y Hy; apply Hbefore; [done|by left]).
  split_and!; [| |exists x; split; [by rewrite last_snoc|done]].
  - cbn [cs_from_change_id cs_step]. rewrite filter_app.
    destruct (cs_changes cs0) as [|ch l] eqn:Hcs0.
    + rewrite filter_none by (apply Forall_forall; intros y Hy; specialize (Hlt y Hy); lia).
      rewrite filter_cons_True by lia. rewrite filter_nil. cbn [app foldl]. unfold cs_step.
      cbn [cs_changes change_set_default]. by rewrite Hcs0.
    + destruct IH as (Hrun & (y & Hy & Hfrom) & _); [done|done|].
      rewrite (filter_cons_True _ x) by (specialize (Hlt y Hy); lia).
      rewrite filter_nil, foldl_app, Hrun. done.
  - cbn [cs_from_change_id cs_step]. destruct (cs_changes cs0) as [|ch l] eqn:Hcs0.
    + exists x. split; [apply elem_of_app; right; by left|done].
    + destruct IH as (_ & (y & Hy & Hfrom) & _); [done|done|].
      exists y. split; [apply elem_of_app; by left|done].
Qed.

Lemma filter_iff_in {A} (P Q : A → Prop) `{∀ x, Decision (P x)} `{∀ x, Decision (Q x)} (l : list A) :
  (∀ x, x ∈ l → P x ↔ Q x) → filter P l = filter Q l.
Proof using.
  induction l as [|x l IH]; intros Hpq; [done|].
  destruct (decide (P x)) as [Hp|Hp].
  - rewrite !filter_cons_True by (done || by apply Hpq; [left|]).
    f_equal. apply IH. intros y Hy. apply Hpq. by right.
  - rewrite !filter_cons_False by (done || by rewrite <- Hpq; [|left]).
    apply IH. intros y Hy. apply Hpq. by right.
Qed.

Lemma selected_elem query logs x :
  x ∈ selected query logs ↔
  ((query_range query).1.2 ≤ x.1 ≤ (query_range query).2 ∧
   ((query_range query).1.1 = true ∨ x.1 ≠ (query_range query).1.2)) ∧ x ∈ logs.
Proof using.
  unfold selected. destruct (query_range query) as [[inc from] to]. cbn [fst snd].
  by rewrite list_elem_of_filter.
Qed.

Lemma sorted_last_max logs x y :
  StronglySorted (λ x y : Entry, x.1 < y.1) logs → last logs = Some x → y ∈ logs → y.1 ≤ x.1.
Proof using.
  intros Hs [l ->]%last_Some. apply StronglySorted_app in Hs as (Hlt & _ & _).
  intros [Hy|Hy]%elem_of_app.
  - specialize (Hlt y x Hy ltac:(by left)). lia.
  - apply list_elem_of_singleton in Hy as ->. lia.
Qed.

(** The range reported by a query that found changes gives the same changes. *)
Lemma requery db logs query cs :
  logged db logs → query_ok query →
  changes db account collection query = Ok cs → cs_changes cs ≠ [] →
  changes db account collection (QueryRangeInclusive (cs_from_change_id cs) (cs_to_change_id cs)) = Ok cs.
Proof using Ha Hc H0 iter_perm.
  intros Hlog Hq Hcs Hne. rewrite (changes_fold db logs) in Hcs by done. injection Hcs as Hcs.
  set (sel := selected query logs) in *. set (st := foldl cs_step change_set_default sel) in *.
  assert (cs = st) as ->.
  { rewrite <- Hcs in Hne |- *. unfold finish in *. by destruct (cs_changes st). }
  assert (StronglySorted (λ x y : Entry, x.1 < y.1) sel) as Hs.
  { unfold sel. rewrite selected_split. by apply filter_entries_sorted, filter_entries_sorted, Hlog. }
  destruct (rerun sel Hs Hne) as (Hrun & (x & Hx & Hfrom) & (y & Hy & Hto)).
  assert (∀ z, z ∈ sel → fits 64 z.1) as Hfits.
  { intros z [_ Hz]%selected_elem. destruct Hlog as [_ Hok _ _]. rewrite Forall_forall in Hok.
    by apply Hok. }
  assert (y ∈ sel) as Hy' by (by apply last_Some_elem_of).
  fold st in Hrun, Hfrom, Hto. rewrite (changes_fold db logs); [|done|].
  2: { split; cbn [query_range fst snd]; [rewrite <- Hfrom|rewrite <- Hto]; by apply Hfits. }
  f_equal. assert (selected (QueryRangeInclusive (cs_from_change_id st) (cs_to_change_id st)) logs
    = filter (λ x : Entry, cs_from_change_id st ≤ x.1) sel) as ->.
  { unfold sel. rewrite !selected_split, !list_filter_filter. cbn [query_range fst snd].
    apply filter_iff_in. intros z Hz. rewrite <- Hfrom, <- Hto.
    pose proof (proj1 (proj1 (selected_elem query logs x) Hx)) as Hxs.
    pose proof (proj1 (proj1 (selected_elem query logs y) Hy')) as Hys. split.
    - intros (_ & Hr). destruct Hxs as [Hxr Hxi].
      assert ((query_range query).1.1 = true ∨ z.1 ≠ (query_range query).1.2)
        by (destruct Hxi; [by left|right; lia]).
      intuition lia.
    - intros Hsel. assert (z.1 ≤ y.1); [|intuition lia].
      apply (sorted_last_max sel); [done..|]. apply selected_elem. tauto. }
  rewrite Hrun. unfold finish. by destruct (cs_changes st).
Qed.
End Log.

(** ** Paging *)

Section Paging.
Context `{KvLaws DB} (changes_max_results : Z) (db : DB) (t : AccessToken).
Context (account : Id) (args : RequestArguments) (max_changes : option Z).

Definition request (state : State) : ChangesRequest :=
  {| rq_account_id := account; rq_since_state := state; rq_max_changes := max_changes;
     rq_arguments := args |}.

(** A client that calls the method until the server has no more changes. *)
Fixpoint walk (fuel : nat) (state : State) : option (list ChangesResponse) :=
  match fuel with
  | O => None
  | S fuel =>
      match changes_method changes_max_results db t (request state) with
      | Ok r =>
          if rs_has_more_changes r then cons r <$> walk fuel (rs_new_state r) else Some [r]
      | Err _ => None
      end
  end.

Context (collection : Collection) (cs : ChangeSet).
Context (Hcol : changes_collection t account args = Ok collection).
Context (Hmax : 0 < effective_max changes_max_results max_changes).

#[local] Abbreviation m := (effective_max changes_max_results max_changes).
#[local] Abbreviation a := (id_document_id account).
#[local] Abbreviation c := (collection_to_u8 collection).

Context (Hrequery : cs_changes cs ≠ [] →
  changes db a c (QueryRangeInclusive (cs_from_change_id cs) (cs_to_change_id cs)) = Ok cs).

(** The changes that remain when [k] were sent. *)
Definition remaining (k : Z) : ChangeSet :=
  {| cs_changes := drop_last k (cs_changes cs); cs_from_change_id := cs_from_change_id cs;
     cs_to_change_id := cs_to_change_id cs |}.

(** The pages give all the changes, the last ones first. *)
Definition delivers_all (pages : list ChangesResponse) (l : list Change) : Prop :=
  concat (reverse (rs_created <$> pages)) = created_ids l ∧
  concat (reverse (rs_updated <$> pages)) = updated_ids l ∧
  concat (reverse (rs_destroyed <$> pages)) = destroyed_ids l.

Lemma since_intermediate k :
  0 ≤ k < Z.of_nat (length (cs_changes cs)) →
  since db a c (new_intermediate (cs_from_change_id cs) (cs_to_change_id cs) k)
  = Ok (Some (k, remaining k)).
Proof using Hrequery.
  intros Hk. cbn [since new_intermediate from_id to_id items_sent]. rewrite Hrequery.
  2: { intros Hnil. rewrite Hnil in Hk. simpl in Hk. lia. }
  cbn [mbind result_bind]. by rewrite (proj2 (Z.leb_gt _ _)) by lia.
Qed.

Lemma concat_snoc {A} (l : list (list A)) x : concat (l ++ [x]) = concat l ++ x.
Proof using. rewrite concat_app. simpl. by rewrite app_nil_r. Qed.

Lemma page_split k n l :
  0 ≤ k → 0 ≤ n → k + n ≤ Z.of_nat (length l) →
  drop_last (k + n) l ++ keep_last n (drop_last k l) = drop_last k l.
Proof using.
  intros Hk Hn Hl. unfold drop_last, keep_last. rewrite length_take.
  replace (length l - Z.to_nat (k + n))%nat
    with ((length l - Z.to_nat k) `min` length l - Z.to_nat n)%nat by lia.
  set (r := take (length l - Z.to_nat k) l).
  rewrite <- (take_drop ((length l - Z.to_nat k) `min` length l - Z.to_nat n) r) at 2. f_equal.
  unfold r. rewrite take_take. f_equal. lia.
Qed.

Lemma walk_pages fuel k state :
  since db a c state = Ok (Some (k, remaining k)) →
  0 ≤ k ≤ Z.of_nat (length (cs_changes cs)) → (length (cs_changes cs) - Z.to_nat k < fuel)%nat →
  ∃ pages, walk fuel state = Some pages ∧ delivers_all pages (cs_changes (remaining k)) ∧
    ∃ r, last pages = Some r ∧ rs_new_state r = Exact (cs_to_change_id cs).
Proof using Hcol Hmax Hrequery.
  revert k state. induction fuel as [|fuel IH]; intros k state Hsince Hk Hfuel; [lia|].
  cbn [walk]. unfold changes_method.
  cbn [request rq_account_id rq_arguments rq_max_changes rq_since_state].
  rewrite Hcol. cbn [mbind result_bind]. rewrite Hsince. cbn [lift mbind result_bind].
  set (l := cs_changes cs) in *. set (rem := drop_last k l).
  assert (length rem = (length l - Z.to_nat k)%nat) as Hlen.
  { unfold rem, drop_last. rewrite length_take. lia. }
  unfold respond. cbn [cs_changes remaining cs_from_change_id cs_to_change_id]. fold l rem.
  rewrite (proj2 (Z.ltb_lt 0 m) Hmax). cbn [andb].
  destruct (Z.ltb_spec m (Z.of_nat (length rem))) as [Hmore|Hlast]; cbn [rs_has_more_changes rs_new_state].
  - destruct (IH (k + m) (new_intermediate (cs_from_change_id cs) (cs_to_change_id cs) (k + m)))
      as (pages & -> & (Hc1 & Hu1 & Hd1) & r & Hr & Hnew); [|lia|lia|].
    { apply since_intermediate. fold l. lia. }
    eexists. split; [reflexivity|]. split.
    + assert (cs_changes (remaining (k + m)) ++ keep_last m rem = rem) as Hsplit.
      { apply page_split; [lia|lia|]. fold l. lia. }
      unfold delivers_all. rewrite !fmap_cons, !reverse_cons, !concat_snoc, Hc1, Hu1, Hd1.
      cbn [rs_created rs_updated rs_destroyed]. unfold created_ids, updated_ids, destroyed_ids.
      rewrite <- !omap_app, Hsplit. done.
    + exists r. split; [|done]. destruct pages; [done|]. exact Hr.
  - eexists. split; [reflexivity|]. split; [|eexists; split; reflexivity].
    unfold delivers_all. cbn. rewrite !app_nil_r. done.
Qed.
End Paging.

(** ** Properties *)


(** A store that holds the given logs. *)
Definition store_logs (account collection : Z) (logs : list (Z * Changes)) : MapStore.DB :=
  foldr (λ x db, kv_put SUBSPACE_LOGS (log_key account collection x.1) (changes_serialize elements x.2) db)
    ∅ logs.

Lemma store_logs_logged account collection logs :
  fits 32 account → is_byte collection →
  StronglySorted (λ x y : Z * Changes, x.1 < y.1) logs →
  Forall (λ x : Z * Changes, fits 64 x.1 ∧ changes_ok x.2) logs →
  logged elements account collection (store_logs account collection logs) logs.
Proof.
  intros Ha Hc Hs Hok. split; [done|done|..].
  - induction Hs as [|y logs Hs IH Hy]; intros x Hx; [by apply not_elem_of_nil in Hx|].
    inversion Hok as [|? ? [Hfy _] Hok']; subst. cbn [store_logs foldr].
    rewrite (kv_get_put (DB := MapStore.DB)). apply elem_of_cons in Hx as [->|Hx].
    + by rewrite decide_True.
    + rewrite decide_False; [by apply IH|]. intros [_ Hk].
      rewrite Forall_forall in *. specialize (Hy x Hx). destruct (Hok' x Hx) as [Hfx _].
      assert (bytes_compare (log_key account collection x.1) (log_key account collection y.1) = Eq)
        as He by (by apply bytes_compare_eq).
      rewrite key_compare in He by done. apply Z.compare_eq in He. lia.
  - clear Hs Hok. induction logs as [|y logs IH]; intros k v Hk Hr; [done|].
    cbn [store_logs foldr] in Hk. rewrite (kv_get_put (DB := MapStore.DB)) in Hk.
    case_decide as Hd.
    + destruct Hd as [_ ->]. injection Hk as <-. exists y. split; [by left|done].
    + destruct (IH k v Hk Hr) as (x & Hx & Heq). exists x. split; [by right|done].
Qed.

Definition only_inserts (ids : gset Z) : Changes :=
  {| inserts := ids; updates := ∅; deletes := ∅; child_updates := ∅ |}.
Definition only_deletes (ids : gset Z) : Changes :=
  {| inserts := ∅; updates := ∅; deletes := ids; child_updates := ∅ |}.

Lemma small_set_ok (x : Z) : fits 64 x → set_Forall (fits 64) ({[x]} : gset Z) ∧ Z.of_nat (base.size ({[x]} : gset Z)) < 2 ^ 63.
Proof. intros Hx. split; [by apply set_Forall_singleton|]. rewrite size_singleton. lia. Qed.

Lemma empty_set_ok : set_Forall (fits 64) (∅ : gset Z) ∧ Z.of_nat (base.size (∅ : gset Z)) < 2 ^ 63.
Proof. split; [apply set_Forall_empty|]. rewrite size_empty. lia. Qed.

Lemma only_inserts_ok x : fits 64 x → changes_ok (only_inserts {[x]}).
Proof.
  intros Hx s. cbn [only_inserts inserts updates deletes child_updates]. rewrite !elem_of_cons, elem_of_nil.
  intros [->|[->|[->|[->|[]]]]]; (by apply small_set_ok) || apply empty_set_ok.
Qed.

Lemma only_deletes_ok x : fits 64 x → changes_ok (only_deletes {[x]}).
Proof.
  intros Hx s. cbn [only_deletes inserts updates deletes child_updates]. rewrite !elem_of_cons, elem_of_nil.
  intros [->|[->|[->|[->|[]]]]]; (by apply small_set_ok) || apply empty_set_ok.
Qed.

(** Item 1 is created, and item 2, which existed, is deleted. *)
Definition two_logs : list (Z * Changes) := [(5, only_inserts {[1]}); (9, only_deletes {[2]})].

Lemma two_logs_logged : logged elements 3 0 (store_logs 3 0 two_logs) two_logs.
Proof.
  apply store_logs_logged; [concrete|concrete| |].
  - repeat constructor.
  - apply Forall_cons. split; [split; [concrete|apply only_inserts_ok; concrete]|].
    apply Forall_singleton. split; [concrete|apply only_deletes_ok; concrete].
Qed.


(** C21.  A client that follows the intermediate states page by page receives
    every change exactly once: the pages, last page first, are the changes since
    the state it started from, and the state it ends with is the one reached. *)
Theorem paging_complete `{KvLaws DB} (iter : gset Z → list Z) (changes_max_results : Z)
    (db : DB) (t : AccessToken) (account : Id) (args : RequestArguments) (max_changes : option Z)
    (collection : Collection) (logs : list (Z * Changes)) (start : Z) (cs : ChangeSet)
    (iter_perm : ∀ s, iter s ≡ₚ elements s)
    (Hlog : logged iter (id_document_id account) (collection_to_u8 collection) db logs)
    (Hcol : changes_collection t account args = Ok collection)
    (Hmax : 0 < effective_max changes_max_results max_changes) (Hstart : fits 64 start)
    (Hcs : changes db (id_document_id account) (collection_to_u8 collection) (QuerySince start) = Ok cs) :
  ∃ pages, walk changes_max_results db t account args max_changes
             (S (length (cs_changes cs))) (Exact start) = Some pages ∧
    delivers_all pages (cs_changes cs) ∧
    ∃ r, last pages = Some r ∧ rs_new_state r = Exact (cs_to_change_id cs).
Proof.
  assert (fits 32 (id_document_id account)) as Ha by (apply wrap_fits; lia).
  assert (is_byte (collection_to_u8 collection)) as Hc by (destruct collection; concrete).
  assert (remaining cs 0 = cs) as Hrem.
  { destruct cs as [l f to]. unfold remaining, drop_last. cbn.
    by rewrite Nat.sub_0_r, firstn_all. }
  destruct (walk_pages changes_max_results db t account args max_changes collection cs Hcol Hmax)
    with (fuel := S (length (cs_changes cs))) (k := 0) (state := Exact start) as (pages & Hw & Hall & Hr).
  - intros Hne. eapply (requery iter iter_perm _ _ Ha Hc db logs (QuerySince start)); done.
  - cbn [since]. rewrite Hcs. cbn [mbind result_bind]. by rewrite Hrem.
  - lia.
  - lia.
  - exists pages. rewrite Hrem in Hall. by split_and!.
Qed.

(** The owner of account 3. *)
Definition owner : AccessToken :=
  {| primary_id := 3; member_of := []; access_to := []; permissions := replicate PERMISSION_WORDS 0 |}.

Lemma paging_complete_witness :
  ∃ pages, walk 0 (store_logs 3 0 two_logs) owner {| id := 3 |} ArgEmail (Some 1) 3 (Exact 0) = Some pages ∧
    delivers_all pages [Insert 1; Delete 2].
Proof.
  destruct (paging_complete elements 0 (store_logs 3 0 two_logs) owner {| id := 3 |} ArgEmail (Some 1)
    ColEmail two_logs 0
    {| cs_changes := [Insert 1; Delete 2]; cs_from_change_id := 5; cs_to_change_id := 9 |})
    as (pages & Hw & Hall & _).
  - reflexivity.
  - apply two_logs_logged.
  - vm_compute. reflexivity.
  - vm_compute. reflexivity.
  - concrete.
  - vm_compute. reflexivity.
  - exists pages. split; [exact Hw|exact Hall].
Defined.
