(* ===== verification/ImapReceiver.v ===== *)
(** * The IMAP request receiver

    crates/imap-proto/src/receiver.rs: the byte-driven state machine that cuts the
    client's stream into requests, shared by the IMAP and the ManageSieve
    servers, with their command tables (crates/imap-proto/src/parser/mod.rs,
    crates/imap-proto/src/lib.rs and crates/managesieve/src/core/mod.rs). *)

From S2P Require Import Prelude Utf8 Decimal.

#[local] Open Scope chr_scope.

(** ** Data *)

(** The text of an error response. *)
Inductive Message :=
| RequestTooLarge (max_request_size : Z)
| TagNotUtf8
| MissingCommand (tag : list Z)
| TagTooLong
| CommandTooLong
| UnrecognizedCommand (command : bytes)
| InvalidCommandChar (ch : Z)
| QuotedTooLong
| UnterminatedQuoted
| LiteralSizeInvalid
| LiteralTooLarge (max_request_size : Z)
| EmptyLiteral
| InvalidNonSync
| InvalidLiteral
| InvalidLiteralChar (ch : Z)
| ExpectedCrlf.

Inductive Error :=
| NeedsMoreData
| NeedsLiteral (size : Z)
| ParseError (tag : option (list Z)) (message : Message).

Inductive Token :=
| TArgument (value : bytes)
| ParenthesisOpen
| ParenthesisClose
| BracketOpen
| BracketClose
| Lt_
| Gt_
| Dot
| Nil_.

Class CommandParser (T : Type) := {
  command_parse : bytes → bool → option T;
  tokenize_brackets : T → bool;
  command_default : T;
}.

Record Request (T : Type) := {
  tag : list Z;
  command : T;
  tokens : list Token;
}.
Arguments tag {T} _.
Arguments command {T} _.
Arguments tokens {T} _.

Inductive State :=
| Start
| Tag
| Command (is_uid : bool)
| Argument (last_ch : Z)
| ArgumentQuoted (escaped : bool)
| Literal (non_sync : bool)
| LiteralSeek (size : Z) (non_sync : bool)
| LiteralData (remaining : Z).

Record Receiver (T : Type) := {
  buf : bytes;
  request : Request T;
  state : State;
  max_request_size : Z;
  current_request_size : Z;
  start_state : State;
}.
Arguments buf {T} _.
Arguments request {T} _.
Arguments state {T} _.
Arguments max_request_size {T} _.
Arguments current_request_size {T} _.
Arguments start_state {T} _.

(** ** The monad of the receiver: errors leave the state behind *)

Definition RM (T A : Type) : Type := Receiver T → result Error A * Receiver T.
#[export] Instance rm_ret T : MRet (RM T) := λ A a r, (Ok a, r).
#[export] Instance rm_bind T : MBind (RM T) := λ A B k m r,
  match m r with (Ok a, r) => k a r | (Err e, r) => (Err e, r) end.

Section Receiver.
Context `{CP : CommandParser T}.

Definition request_default : Request T := {| tag := []; command := command_default; tokens := [] |}.

Definition receiver_default : Receiver T := {|
  buf := [];
  request := request_default;
  state := Start;
  start_state := Start;
  max_request_size := 25 * 1024 * 1024;
  current_request_size := 0;
|}.

Definition receiver_new : Receiver T := receiver_default.

Definition with_start_state (s : State) (r : Receiver T) : Receiver T := {|
  buf := buf r; request := request r; state := s; start_state := s;
  max_request_size := max_request_size r; current_request_size := current_request_size r |}.

Definition with_max_request_size (max : Z) : Receiver T := {|
  buf := []; request := request_default; state := Start; start_state := Start;
  max_request_size := max; current_request_size := 0 |}.

(** Assignments to the fields. *)
Definition set_buf (l : bytes) : RM T () := λ r,
  (Ok (), {| buf := l; request := request r; state := state r; start_state := start_state r;
             max_request_size := max_request_size r; current_request_size := current_request_size r |}).
Definition set_request (q : Request T) : RM T () := λ r,
  (Ok (), {| buf := buf r; request := q; state := state r; start_state := start_state r;
             max_request_size := max_request_size r; current_request_size := current_request_size r |}).
Definition set_state (s : State) : RM T () := λ r,
  (Ok (), {| buf := buf r; request := request r; state := s; start_state := start_state r;
             max_request_size := max_request_size r; current_request_size := current_request_size r |}).
Definition set_size (n : Z) : RM T () := λ r,
  (Ok (), {| buf := buf r; request := request r; state := state r; start_state := start_state r;
             max_request_size := max_request_size r; current_request_size := n |}).
Definition get : RM T (Receiver T) := λ r, (Ok r, r).
Definition fail {A} (e : Error) : RM T A := λ r, (Err e, r).

Definition push (ch : Z) : RM T () := r ← get; set_buf (buf r ++ [ch]).
Definition set_tag (t : list Z) : RM T () :=
  r ← get; set_request {| tag := t; command := command (request r); tokens := tokens (request r) |}.
Definition set_command (c : T) : RM T () :=
  r ← get; set_request {| tag := tag (request r); command := c; tokens := tokens (request r) |}.
Definition add_token (t : Token) : RM T () :=
  r ← get; set_request {| tag := tag (request r); command := command (request r);
                          tokens := tokens (request r) ++ [t] |}.

(** [Err(self.error_reset(message))] *)
Definition error_reset {A} (message : Message) : RM T A :=
  r ← get;
  _ ← set_request request_default;
  _ ← set_buf [];
  _ ← set_state (start_state r);
  _ ← set_size 0;
  fail (ParseError (if bool_decide (tag (request r) = []) then None else Some (tag (request r))) message).

Definition push_argument (in_quote : bool) : RM T () :=
  r ← get;
  if negb (bool_decide (buf r = [])) then
    _ ← set_size (current_request_size r + Z.of_nat (length (buf r)));
    if max_request_size r <? current_request_size r + Z.of_nat (length (buf r))
    then error_reset (RequestTooLarge (max_request_size r))
    else _ ← add_token (TArgument (buf r)); set_buf []
  else if in_quote then add_token Nil_
  else mret ().

Definition push_token (token : Token) : RM T () :=
  r ← get;
  _ ← set_size (current_request_size r + 1);
  if max_request_size r <? current_request_size r + 1
  then error_reset (RequestTooLarge (max_request_size r))
  else add_token token.

(** The end of a request: [Ok(std::mem::take(&mut self.request))]. *)
Definition finish : RM T (option (Request T)) :=
  r ← get;
  _ ← set_state (start_state r);
  _ ← set_size 0;
  _ ← set_request request_default;
  mret (Some (request r)).

(** One turn of the loop, by the state before it. *)

Definition step_tag (ch : Z) : RM T (option (Request T)) :=
  r ← get;
  if ch =? " " then
    if negb (bool_decide (buf r = [])) then
      _ ← set_buf [];
      match from_utf8 (buf r) with
      | Some t => _ ← set_tag t; _ ← set_state (Command false); mret None
      | None => error_reset TagNotUtf8
      end
    else mret None
  else if (ch =? 9) || (ch =? 13) then mret None
  else if ch =? 10 then error_reset (MissingCommand (default [] (from_utf8 (buf r))))
  else if (length (buf r) <? 128)%nat then _ ← push ch; mret None
  else error_reset TagTooLong.

Definition step_command (is_uid : bool) (ch : Z) : RM T (option (Request T)) :=
  r ← get;
  if is_alnum ch then
    if (length (buf r) <? 15)%nat then _ ← push (to_upper ch); mret None
    else error_reset CommandTooLong
  else if is_whitespace ch then
    if negb (bool_decide (buf r = [])) then
      if negb (bool_decide ((to_upper <$> buf r) = str "UID")) then
        match command_parse (buf r) is_uid with
        | Some c =>
            _ ← set_command c;
            _ ← set_buf [];
            if negb (ch =? 10) then _ ← set_state (Argument " "); mret None
            else finish
        | None => error_reset (UnrecognizedCommand (buf r))
        end
      else _ ← set_buf []; _ ← set_state (Command true); mret None
    else mret None
  else error_reset (InvalidCommandChar ch).

(** The token of a punctuation character, when it is one. *)
Definition punctuation (brackets : bool) (ch : Z) : option Token :=
  if ch =? "(" then Some ParenthesisOpen
  else if ch =? ")" then Some ParenthesisClose
  else if brackets then
    if ch =? "[" then Some BracketOpen
    else if ch =? "]" then Some BracketClose
    else if ch =? "<" then Some Lt_
    else if ch =? ">" then Some Gt_
    else if ch =? "." then Some Dot
    else None
  else None.

Definition step_argument (last_ch ch : Z) : RM T (option (Request T)) :=
  r ← get;
  if (ch =? DQUOTE) && is_whitespace last_ch then
    _ ← push_argument false; _ ← set_state (ArgumentQuoted false); mret None
  else if (ch =? "{") && (is_whitespace last_ch || ((last_ch =? "~") && (length (buf r) =? 1)%nat)) then
    _ ← (if negb (last_ch =? "~") then push_argument false else set_buf []);
    _ ← set_state (Literal false); mret None
  else
    match punctuation (tokenize_brackets (command (request r))) ch with
    | Some token => _ ← push_argument false; _ ← push_token token; mret None
    | None =>
        if ch =? 10 then _ ← push_argument false; finish
        else if is_whitespace ch then
          _ ← push_argument false; _ ← set_state (Argument ch); mret None
        else _ ← push ch; _ ← set_state (Argument ch); mret None
    end.

Definition step_quoted (escaped : bool) (ch : Z) : RM T (option (Request T)) :=
  r ← get;
  if ch =? DQUOTE then
    if negb escaped then
      _ ← push_argument true; _ ← set_state (Argument " "); mret None
    else if (length (buf r) <? 1024)%nat then
      _ ← push ch; _ ← set_state (ArgumentQuoted false); mret None
    else error_reset QuotedTooLong
  else if ch =? BACKSLASH then
    _ ← (if escaped then push ch else mret ());
    _ ← set_state (ArgumentQuoted (negb escaped)); mret None
  else if ch =? 10 then error_reset UnterminatedQuoted
  else if (length (buf r) <? 1024)%nat then
    _ ← (if escaped then push BACKSLASH else mret ());
    _ ← push ch; _ ← set_state (ArgumentQuoted false); mret None
  else error_reset QuotedTooLong.

Definition step_literal (non_sync : bool) (ch : Z) : RM T (option (Request T)) :=
  r ← get;
  if ch =? "}" then
    if negb (bool_decide (buf r = [])) then
      match parse_uint 32 (buf r) with
      | Some size =>
          if max_request_size r <? current_request_size r + size
          then error_reset (LiteralTooLarge (max_request_size r))
          else _ ← set_state (LiteralSeek size non_sync); _ ← set_buf []; mret None
      | None => error_reset LiteralSizeInvalid
      end
    else error_reset EmptyLiteral
  else if ch =? "+" then
    if negb (bool_decide (buf r = [])) then _ ← set_state (Literal true); mret None
    else error_reset InvalidNonSync
  else if is_digit ch then
    if negb non_sync then _ ← push ch; mret None else error_reset InvalidLiteral
  else error_reset (InvalidLiteralChar ch).

Definition step_literal_seek (size : Z) (non_sync : bool) (ch : Z) : RM T (option (Request T)) :=
  if ch =? 10 then
    _ ← (if 0 <? size then set_state (LiteralData size)
         else _ ← set_state (Argument " "); push_token Nil_);
    if negb non_sync then fail (NeedsLiteral size) else mret None
  else if negb (is_whitespace ch) then error_reset ExpectedCrlf
  else mret None.

Definition step_literal_data (remaining ch : Z) : RM T (option (Request T)) :=
  _ ← push ch;
  if 1 <? remaining then _ ← set_state (LiteralData (remaining - 1)); mret None
  else _ ← push_argument false; _ ← set_state (Argument " "); mret None.

Definition step (ch : Z) : RM T (option (Request T)) :=
  r ← get;
  match state r with
  | Start =>
      if negb (is_whitespace ch) then _ ← push ch; _ ← set_state Tag; mret None else mret None
  | Tag => step_tag ch
  | Command is_uid => step_command is_uid ch
  | Argument last_ch => step_argument last_ch ch
  | ArgumentQuoted escaped => step_quoted escaped ch
  | Literal non_sync => step_literal non_sync ch
  | LiteralSeek size non_sync => step_literal_seek size non_sync ch
  | LiteralData remaining => step_literal_data remaining ch
  end.

(** [parse]: the outcome, the receiver and the bytes that are left. *)
Fixpoint parse (input : bytes) (r : Receiver T) : result Error (Request T) * Receiver T * bytes :=
  match input with
  | [] => (Err NeedsMoreData, r, [])
  | ch :: input =>
      match step ch r with
      | (Ok None, r) => parse input r
      | (Ok (Some q), r) => (Ok q, r, input)
      | (Err e, r) => (Err e, r, input)
      end
  end.
End Receiver.

(** ** Command tables *)

(** [match value { b"A" => Some(a), ..., _ => None }] *)
Definition match_bytes {A} (value : bytes) (table : list (string * A)) : option A :=
  (λ e, e.2.2) <$> list_find (λ e, str e.1 = value) table.

Module ImapCommand.

Inductive Command :=
| Capability | Noop | Logout
| StartTls | Authenticate | Login
| Enable | Select | Examine | Create | Delete | Rename | Subscribe | Unsubscribe
| List_ | Namespace | Status | Append | Idle
| Close | Unselect
| Expunge (uid : bool) | Search (uid : bool) | Fetch (uid : bool) | Store (uid : bool)
| Copy (uid : bool) | Move (uid : bool)
| Lsub | Check_
| Sort (uid : bool) | Thread (uid : bool)
| SetAcl | DeleteAcl | GetAcl | ListRights | MyRights
| Unauthenticate
| Id.

Definition table (uid : bool) : list (string * Command) :=
  [("CAPABILITY", Capability); ("NOOP", Noop); ("LOGOUT", Logout); ("STARTTLS", StartTls);
   ("AUTHENTICATE", Authenticate); ("LOGIN", Login); ("ENABLE", Enable); ("SELECT", Select);
   ("EXAMINE", Examine); ("CREATE", Create); ("DELETE", Delete); ("RENAME", Rename);
   ("SUBSCRIBE", Subscribe); ("UNSUBSCRIBE", Unsubscribe); ("LIST", List_); ("NAMESPACE", Namespace);
   ("STATUS", Status); ("APPEND", Append); ("IDLE", Idle); ("CLOSE", Close); ("UNSELECT", Unselect);
   ("EXPUNGE", Expunge uid); ("SEARCH", Search uid); ("FETCH", Fetch uid); ("STORE", Store uid);
   ("COPY", Copy uid); ("MOVE", Move uid); ("SORT", Sort uid); ("THREAD", Thread uid);
   ("LSUB", Lsub); ("CHECK", Check_); ("SETACL", SetAcl); ("DELETEACL", DeleteAcl);
   ("GETACL", GetAcl); ("LISTRIGHTS", ListRights); ("MYRIGHTS", MyRights);
   ("UNAUTHENTICATE", Unauthenticate); ("ID", Id)]%string.

#[global] Instance command_parser : CommandParser Command := {|
  command_parse value uid := match_bytes value (table uid);
  tokenize_brackets c := match c with Fetch _ => true | _ => false end;
  command_default := Noop;
|}.

End ImapCommand.

Module SieveCommand.

Inductive Command :=
| Authenticate | StartTls | Logout | Capability | HaveSpace | PutScript | ListScripts
| SetActive | GetScript | DeleteScript | RenameScript | CheckScript | Noop | Unauthenticate.

Definition table : list (string * Command) :=
  [("AUTHENTICATE", Authenticate); ("STARTTLS", StartTls); ("LOGOUT", Logout);
   ("CAPABILITY", Capability); ("HAVESPACE", HaveSpace); ("PUTSCRIPT", PutScript);
   ("LISTSCRIPTS", ListScripts); ("SETACTIVE", SetActive); ("GETSCRIPT", GetScript);
   ("DELETESCRIPT", DeleteScript); ("RENAMESCRIPT", RenameScript); ("CHECKSCRIPT", CheckScript);
   ("NOOP", Noop); ("UNAUTHENTICATE", Unauthenticate)]%string.

#[global] Instance command_parser : CommandParser Command := {|
  command_parse value _ := match_bytes value table;
  tokenize_brackets _ := false;
  command_default := Noop;
|}.

End SieveCommand.

(** ** Printers of the protocol: [quoted_string] and [literal_string] *)

Definition quoted_string (text : bytes) : bytes :=
  [DQUOTE]
  ++ (text ≫= λ c, if (c =? BACKSLASH) || (c =? DQUOTE) then [BACKSLASH; c] else [c])
  ++ [DQUOTE].

Definition literal_string (text : bytes) : bytes :=
  str "{" ++ uint_to_string (Z.of_nat (length text)) ++ str "}" ++ [13; 10] ++ text.

(** ** Chunks *)

(** The stream arrives in pieces; each goes through [parse] until something
    other than the end of the data stops it. *)
Fixpoint parse_chunks `{CommandParser T} (chunks : list bytes) (r : Receiver T)
    : result Error (Request T) * Receiver T * bytes * list bytes :=
  match chunks with
  | [] => (Err NeedsMoreData, r, [], [])
  | c :: chunks =>
      match parse c r with
      | (Err NeedsMoreData, r, _) => parse_chunks chunks r
      | out => (out, chunks)
      end
  end.

(** Runs the receiver's code through all its cases. *)
Ltac receiver_step :=
  unfold step_tag, step_command, step_argument, step_quoted, step_literal, step_literal_seek,
    step_literal_data, finish, push_argument, push_token, error_reset, set_tag, set_command,
    add_token, push, set_buf, set_request, set_state, set_size, get, fail, mbind, rm_bind, mret, rm_ret in *;
  cbn [buf request state max_request_size current_request_size start_state tag command tokens] in *.
Ltac receiver := receiver_step; repeat (case_match; simplify_eq/=); try done.

Section Feeding.
Context `{CP : CommandParser T}.

(** All bytes are consumed without an outcome. *)
Fixpoint feed (input : bytes) (r : Receiver T) : option (Receiver T) :=
  match input with
  | [] => Some r
  | ch :: input =>
      match step ch r with
      | (Ok None, r) => feed input r
      | _ => None
      end
  end.

Lemma feed_app l k r r' : feed l r = Some r' → feed (l ++ k) r = feed k r'.
Proof.
  revert r. induction l as [|ch l IH]; intros r; cbn [feed app]; [by intros [= ->]|].
  destruct (step ch r) as [[[|]|] r1]; [done| |done]. apply IH.
Qed.

Lemma parse_feed l k r r' : feed l r = Some r' → parse (l ++ k) r = parse k r'.
Proof.
  revert r. induction l as [|ch l IH]; intros r; cbn [feed parse app]; [by intros [= ->]|].
  destruct (step ch r) as [[[|]|] r1]; [done| |done]. apply IH.
Qed.

Lemma step_never_more ch (r r' : Receiver T) : step ch r ≠ (Err NeedsMoreData, r').
Proof.
  unfold step. destruct r as [b q s m c st]. cbn. destruct s; cbn; receiver.
Qed.

(** Where the stream is cut does not matter. *)
Lemma parse_chunks_concat chunks (r : Receiver T) res r' rest :
  parse (concat chunks) r = (res, r', rest) → res ≠ Err NeedsMoreData →
  ∃ rest' chunks', parse_chunks chunks r = (res, r', rest', chunks') ∧ rest' ++ concat chunks' = rest.
Proof.
  revert r. induction chunks as [|c chunks IH]; intros r; cbn [concat]; [by intros [= <- <- <-]|].
  cbn [parse_chunks]. intros Hp Hres. destruct (parse c r) as [[res1 r1] rest1] eqn:Hc.
  assert (parse (c ++ concat chunks) r
    = match res1 with Err NeedsMoreData => parse (concat chunks) r1 | _ => (res1, r1, rest1 ++ concat chunks) end) as Hsplit.
  { clear -Hc. revert r Hc. induction c as [|ch c IH]; intros r; cbn [parse app]; [by intros [= <- <- <-]|].
    pose proof (step_never_more ch r) as Hnm. destruct (step ch r) as [[[q|]|e] r2].
    - by intros [= <- <- <-].
    - apply IH.
    - intros [= <- <- <-]. destruct e; [|done..]. by destruct (Hnm r2). }
  rewrite Hsplit in Hp. destruct res1 as [q|[|n|t m]].
  - injection Hp as <- <- <-. by exists rest1, chunks.
  - by apply IH.
  - injection Hp as <- <- <-. by exists rest1, chunks.
  - injection Hp as <- <- <-. by exists rest1, chunks.
Qed.
End Feeding.

(** ** Arguments and how clients write them *)

Inductive Item :=
| Atom (text : bytes)
| Quoted (text : bytes)
| LiteralPlus (text : bytes)
| Open_
| Close_.

Definition print_item (i : Item) : bytes :=
  match i with
  | Atom text => text
  | Quoted text => quoted_string text
  | LiteralPlus text =>
      str "{" ++ uint_to_string (Z.of_nat (length text)) ++ str "+}" ++ [13; 10] ++ text
  | Open_ => str "("
  | Close_ => str ")"
  end.

Definition text_token (text : bytes) : Token := if decide (text = []) then Nil_ else TArgument text.

Definition item_token (i : Item) : Token :=
  match i with
  | Atom text => TArgument text
  | Quoted text | LiteralPlus text => text_token text
  | Open_ => ParenthesisOpen
  | Close_ => ParenthesisClose
  end.

(** What an item adds to [current_request_size]. *)
Definition item_size (i : Item) : Z :=
  match i with
  | Atom text | Quoted text => Z.of_nat (length text)
  | LiteralPlus text => Z.max 1 (Z.of_nat (length text))
  | Open_ | Close_ => 1
  end.

Definition atom_char (brackets : bool) (ch : Z) : bool :=
  negb (is_whitespace ch) && negb (ch =? DQUOTE) && negb (ch =? "{")
  && match punctuation brackets ch with Some _ => false | None => true end.

Definition item_ok (brackets : bool) (i : Item) : Prop :=
  match i with
  | Atom text => text ≠ [] ∧ Forall (λ ch, atom_char brackets ch = true) text
  | Quoted text => (length text ≤ 1024)%nat ∧ Forall (λ ch, ch ≠ 10) text
  | LiteralPlus text => fits 32 (Z.of_nat (length text))
  | Open_ | Close_ => True
  end.

Section Items.
Context `{CP : CommandParser T} (r0 : Receiver T).

(** The receiver [r0] with the fields that change. *)
Definition at_ (b : bytes) (q : Request T) (s : State) (n : Z) : Receiver T := {|
  buf := b; request := q; state := s; max_request_size := max_request_size r0;
  current_request_size := n; start_state := start_state r0 |}.

Definition more (q : Request T) (l : list Token) : Request T :=
  {| tag := tag q; command := command q; tokens := tokens q ++ l |}.

#[local] Abbreviation brackets q := (tokenize_brackets (command q)).
#[local] Abbreviation max := (max_request_size r0).

Lemma feed_step ch l r r' : step ch r = (Ok None, r') → feed (ch :: l) r = feed l r'.
Proof. intros Hs. cbn [feed]. by rewrite Hs. Qed.

Lemma step_atom ch b q c n :
  atom_char (brackets q) ch = true →
  step ch (at_ b q (Argument c) n) = (Ok None, at_ (b ++ [ch]) q (Argument ch) n).
Proof.
  unfold atom_char. rewrite !andb_true_iff, !negb_true_iff. intros [[[Hw Hq] Hb] Hp].
  unfold step, step_argument. receiver_step. unfold at_. cbn. rewrite Hq, Hb, Hw. cbn.
  destruct (punctuation _ ch); [done|]. destruct (Z.eqb_spec ch 10) as [->|]; done.
Qed.

Lemma feed_atom l b q c n :
  Forall (λ ch, atom_char (brackets q) ch = true) l →
  feed l (at_ b q (Argument c) n) = Some (at_ (b ++ l) q (Argument (default c (last l))) n).
Proof.
  intros Hl. revert b c. induction Hl as [|ch l Hch Hl IH]; intros b c.
  { cbn. by rewrite app_nil_r. }
  erewrite feed_step by by apply step_atom. rewrite IH, <- (assoc_L (++)). cbn [app]. rewrite last_cons.
  by destruct (last l).
Qed.

Lemma step_space ch b q c n :
  is_whitespace ch = true → ch ≠ 10 → n + Z.of_nat (length b) ≤ max →
  step ch (at_ b q (Argument c) n)
  = (Ok None, at_ [] (if decide (b = []) then q else more q [TArgument b]) (Argument ch)
                (n + Z.of_nat (length b))).
Proof.
  intros Hw Hn Hmax. unfold step, step_argument. receiver_step. unfold at_. cbn.
  assert ((ch =? DQUOTE) = false ∧ (ch =? "{") = false ∧ punctuation (brackets q) ch = None) as (-> & -> & ->).
  { unfold is_whitespace in Hw. rewrite !orb_true_iff, !Z.eqb_eq in Hw.
    destruct (brackets q); destruct Hw as [[[[->| ->]| ->]| ->]| ->]; done. }
  rewrite (proj2 (Z.eqb_neq _ _) Hn), Hw. cbn. case_bool_decide as Hb.
  - subst b. cbn. by rewrite Z.add_0_r.
  - rewrite decide_False by done. cbn. by rewrite (proj2 (Z.ltb_ge _ _)) by lia.
Qed.

Lemma step_quote_open q c n :
  is_whitespace c = true →
  step DQUOTE (at_ [] q (Argument c) n) = (Ok None, at_ [] q (ArgumentQuoted false) n).
Proof. intros Hc. unfold step, step_argument. receiver_step. unfold at_. cbn. by rewrite Hc. Qed.

Lemma feed_quoted l b q n :
  (length (b ++ l) ≤ 1024)%nat → Forall (λ ch, ch ≠ 10) l →
  feed (l ≫= λ c, if (c =? BACKSLASH) || (c =? DQUOTE) then [BACKSLASH; c] else [c])
    (at_ b q (ArgumentQuoted false) n)
  = Some (at_ (b ++ l) q (ArgumentQuoted false) n).
Proof.
  intros Hlen Hl. revert b Hlen. induction Hl as [|ch l Hch Hl IH]; intros b Hlen.
  { cbn. by rewrite app_nil_r. }
  rewrite bind_cons. rewrite length_app in Hlen. cbn [length] in Hlen.
  assert ((length b <? 1024)%nat = true) as Hb by (apply Nat.ltb_lt; lia).
  erewrite feed_app; [rewrite (IH (b ++ [ch]))|].
  - by rewrite <- (assoc_L (++)).
  - rewrite !length_app. cbn. lia.
  - destruct (Z.eqb_spec ch BACKSLASH) as [->|H1]; [done|].
    destruct (Z.eqb_spec ch DQUOTE) as [->|H2]; cbn [orb].
    + erewrite feed_step by done. erewrite feed_step; [done|].
      unfold step, step_quoted. receiver_step. unfold at_. cbn -[Nat.ltb]. by rewrite Hb.
    + erewrite feed_step; [done|]. unfold step, step_quoted. receiver_step. unfold at_. cbn -[Nat.ltb].
      by rewrite (proj2 (Z.eqb_neq _ _) H2), (proj2 (Z.eqb_neq _ _) H1), (proj2 (Z.eqb_neq _ _) Hch), Hb.
Qed.

Lemma step_quote_close b q n :
  n + Z.of_nat (length b) ≤ max →
  step DQUOTE (at_ b q (ArgumentQuoted false) n)
  = (Ok None, at_ [] (more q [text_token b]) (Argument " ") (n + Z.of_nat (length b))).
Proof.
  intros Hmax. unfold step, step_quoted, text_token. receiver_step. unfold at_. cbn. case_bool_decide as Hb.
  - subst b. rewrite decide_True by done. cbn. by rewrite Z.add_0_r.
  - rewrite decide_False by done. cbn. by rewrite (proj2 (Z.ltb_ge _ _)) by lia.
Qed.

Lemma step_literal_open q c n :
  is_whitespace c = true →
  step "{" (at_ [] q (Argument c) n) = (Ok None, at_ [] q (Literal false) n).
Proof.
  intros Hc. unfold step, step_argument. receiver_step. unfold at_. cbn. rewrite Hc. cbn.
  destruct (Z.eqb_spec c 126) as [->|]; done.
Qed.

Lemma feed_digits l b q n :
  Forall (λ ch, is_digit ch = true) l →
  feed l (at_ b q (Literal false) n) = Some (at_ (b ++ l) q (Literal false) n).
Proof.
  intros Hl. revert b. induction Hl as [|ch l Hch Hl IH]; intros b; [cbn; by rewrite app_nil_r|].
  erewrite feed_step; [by rewrite (IH (b ++ [ch])), <- (assoc_L (++))|].
  pose proof (proj1 (is_digit_range ch) Hch). unfold step, step_literal. receiver_step. unfold at_. cbn.
  by rewrite !(proj2 (Z.eqb_neq _ _)), Hch by lia.
Qed.

Lemma feed_literal_header q n size :
  fits 32 size → n + size ≤ max →
  feed (uint_to_string size ++ str "+}" ++ [13]) (at_ [] q (Literal false) n)
  = Some (at_ [] q (LiteralSeek size true) n).
Proof.
  intros Hf Hmax. destruct (uint_to_string_digits size) as [Hne Hd]; [unfold fits in Hf; lia|].
  erewrite feed_app by by apply feed_digits. rewrite app_nil_l.
  change (str "+}" ++ [13]) with ["+"; "}"; 13]%chr.
  erewrite feed_step.
  2: { unfold step, step_literal. receiver_step. unfold at_. cbn -[uint_to_string].
       by rewrite bool_decide_eq_false_2. }
  erewrite feed_step.
  2: { unfold step, step_literal. receiver_step. unfold at_. cbn -[parse_uint uint_to_string].
       rewrite bool_decide_eq_false_2, parse_uint_print by done. cbn.
       by rewrite (proj2 (Z.ltb_ge _ _)) by lia. }
  done.
Qed.

Lemma feed_data l b q n :
  l ≠ [] → n + Z.of_nat (length (b ++ l)) ≤ max →
  feed l (at_ b q (LiteralData (Z.of_nat (length l))) n)
  = Some (at_ [] (more q [TArgument (b ++ l)]) (Argument " ") (n + Z.of_nat (length (b ++ l)))).
Proof.
  revert b. induction l as [|ch l IH]; intros b Hne Hmax; [done|].
  assert ((b ++ [ch]) ++ l = b ++ ch :: l) as Happ by by rewrite <- (assoc_L (++)).
  destruct l as [|ch' l].
  - erewrite feed_step; [done|]. change (Z.of_nat (length [ch])) with 1.
    unfold step, step_literal_data. receiver_step. unfold at_. cbn -[Z.of_nat].
    rewrite bool_decide_eq_false_2 by by destruct b. cbn -[Z.of_nat].
    by rewrite (proj2 (Z.ltb_ge _ _)) by lia.
  - erewrite (feed_step _ _ _ (at_ (b ++ [ch]) q (LiteralData (Z.of_nat (length (ch' :: l)))) n)).
    + rewrite (IH (b ++ [ch])), Happ by (rewrite ?Happ; done). done.
    + unfold step, step_literal_data. receiver_step. unfold at_. cbn -[Z.of_nat].
      rewrite (proj2 (Z.ltb_lt _ _)) by lia. by replace (Z.of_nat (S (S (length l))) - 1)
        with (Z.of_nat (S (length l))) by lia.
Qed.

Lemma feed_literal l q c n :
  is_whitespace c = true → fits 32 (Z.of_nat (length l)) → n + Z.max 1 (Z.of_nat (length l)) ≤ max →
  feed (print_item (LiteralPlus l)) (at_ [] q (Argument c) n)
  = Some (at_ [] (more q [text_token l]) (Argument " ") (n + Z.max 1 (Z.of_nat (length l)))).
Proof.
  intros Hc Hf Hmax. cbn [print_item]. change (str "{") with ["{"%chr]. cbn [app].
  erewrite feed_step by by apply step_literal_open.
  set (size := Z.of_nat (length l)) in *.
  assert (uint_to_string size ++ str "+}" ++ 13 :: 10 :: l
          = (uint_to_string size ++ str "+}" ++ [13]) ++ 10 :: l) as -> by by rewrite <- !(assoc_L (++)).
  erewrite feed_app by (apply feed_literal_header; [done|lia]). unfold size in *.
  unfold text_token. destruct (decide (l = [])) as [->|Hne].
  - clear size. change (Z.of_nat (length (@nil Z))) with 0 in *. change (1 `max` 0) with 1 in *.
    unfold feed, step, step_literal_seek. receiver_step. unfold at_. cbn.
    by rewrite (proj2 (Z.ltb_ge _ _)) by lia.
  - erewrite feed_step.
    2: { unfold step, step_literal_seek. receiver_step. unfold at_. cbn -[Z.of_nat].
         rewrite (proj2 (Z.ltb_lt _ _)); [done|]. destruct l; [done|cbn; lia]. }
    rewrite Z.max_r in Hmax |- * by (destruct l; [done|cbn; lia]).
    by apply (feed_data l []).
Qed.

Lemma step_punctuation ch t q c n :
  ch ≠ DQUOTE → ch ≠ 123 → punctuation (brackets q) ch = Some t → n + 1 ≤ max →
  step ch (at_ [] q (Argument c) n) = (Ok None, at_ [] (more q [t]) (Argument c) (n + 1)).
Proof.
  intros H1 H2 Ht Hmax. unfold step, step_argument. receiver_step. unfold at_. cbn -[punctuation].
  rewrite (proj2 (Z.eqb_neq _ _) H1), (proj2 (Z.eqb_neq _ _) H2), Ht. cbn.
  by rewrite (proj2 (Z.ltb_ge _ _)) by lia.
Qed.

(** One item and the white space behind it. *)
Lemma feed_item i q c ch n :
  is_whitespace c = true → is_whitespace ch = true → ch ≠ 10 →
  item_ok (brackets q) i → n + item_size i ≤ max →
  feed (print_item i ++ [ch]) (at_ [] q (Argument c) n)
  = Some (at_ [] (more q [item_token i]) (Argument ch) (n + item_size i)).
Proof.
  intros Hc Hch Hnl Hok Hmax.
  assert (∀ q' c' n', n' ≤ max → feed [ch] (at_ [] q' (Argument c') n') = Some (at_ [] q' (Argument ch) n')) as Hsp.
  { intros q' c' n' Hn'. cbn [feed]. rewrite step_space by (cbn; done || lia). cbn. by rewrite Z.add_0_r. }
  destruct i as [l|l|l| |]; cbn [item_ok item_size item_token] in *.
  - destruct Hok as [Hne Hl]. erewrite feed_app by by apply feed_atom. cbn [feed app].
    rewrite step_space by done. by rewrite decide_False.
  - destruct Hok as [Hlen Hl]. erewrite feed_app; [apply Hsp; done|]. cbn [print_item].
    unfold quoted_string. cbn [app]. erewrite feed_step by by apply step_quote_open.
    erewrite feed_app by by apply feed_quoted. cbn [feed app]. by rewrite step_quote_close.
  - erewrite feed_app by by apply feed_literal. by apply Hsp.
  - change (print_item Open_ ++ [ch]) with ("("%chr :: [ch]).
    by erewrite feed_step; [apply Hsp|apply step_punctuation].
  - change (print_item Close_ ++ [ch]) with (")"%chr :: [ch]).
    by erewrite feed_step; [apply Hsp|apply step_punctuation].
Qed.
End Items.

(** ** Requests *)

Definition separator (items : list Item) : Z := match items with [] => 13 | _ => 32 end.

Fixpoint print_items (items : list Item) : bytes :=
  match items with
  | [] => [10]
  | i :: items => print_item i ++ [separator items] ++ print_items items
  end.

Definition print_request (t : list Z) (uid : bool) (name : bytes) (items : list Item) : bytes :=
  str_bytes t ++ [32] ++ (if uid then str "UID " else []) ++ name ++ [separator items] ++ print_items items.

Definition items_size (items : list Item) : Z := foldr (λ i n, item_size i + n) 0 items.

(** A tag that fits the receiver's buffer. *)
Definition tag_ok (t : list Z) : Prop :=
  chars_ok t ∧ t ≠ [] ∧ (length (str_bytes t) ≤ 128)%nat ∧
  Forall (λ ch, is_whitespace ch = false) (str_bytes t).

Definition name_ok (name : bytes) : Prop :=
  name ≠ [] ∧ (length name ≤ 15)%nat ∧ Forall (λ ch, is_alnum ch = true) name ∧
  (to_upper <$> name) ≠ str "UID".

Section Requests.
Context `{CP : CommandParser T} (r0 : Receiver T).
#[local] Abbreviation at_ := (at_ r0).
#[local] Abbreviation max := (max_request_size r0).

Lemma feed_tag l b q n :
  (length (b ++ l) ≤ 128)%nat → Forall (λ ch, is_whitespace ch = false) l →
  feed l (at_ b q Tag n) = Some (at_ (b ++ l) q Tag n).
Proof.
  intros Hlen Hl. revert b Hlen. induction Hl as [|ch l Hch Hl IH]; intros b Hlen.
  { cbn. by rewrite app_nil_r. }
  rewrite length_app in Hlen. cbn [length] in Hlen.
  erewrite (feed_step _ _ _ (at_ (b ++ [ch]) q Tag n)).
  - rewrite IH, <- (assoc_L (++)); [done|]. rewrite !length_app. cbn. lia.
  - unfold is_whitespace in Hch. rewrite !orb_false_iff in Hch. destruct Hch as [[[[H1 H2] H3] H4] H5].
    unfold step, step_tag. receiver_step. unfold ImapReceiver.at_. cbn -[Nat.ltb].
    rewrite H1, H2, H3, H5, (proj2 (Nat.ltb_lt _ _)) by lia. done.
Qed.

Lemma feed_tag_start t q n :
  tag_ok t →
  feed (str_bytes t ++ [32]) (at_ [] q Start n)
  = Some (at_ [] {| tag := t; command := command q; tokens := tokens q |} (Command false) n).
Proof.
  intros (Hc & Hne & Hlen & Hw). pose proof (from_utf8_str t Hc) as Hu.
  destruct (str_bytes t) as [|ch l] eqn:Ht.
  { destruct t as [|c t]; [done|]. destruct (encode_utf8_cons c) as (b & l & He).
    unfold str_bytes in Ht. rewrite bind_cons, He in Ht. done. }
  apply Forall_cons in Hw as [Hch Hw]. cbn [app].
  erewrite (feed_step _ _ _ (at_ [ch] q Tag n)).
  2: { unfold step. receiver_step. unfold ImapReceiver.at_. cbn. by rewrite Hch. }
  erewrite feed_app by by apply (feed_tag l [ch]). cbn [app].
  erewrite feed_step; [done|]. unfold step, step_tag. receiver_step. unfold ImapReceiver.at_.
  cbn -[from_utf8]. by rewrite Hu.
Qed.

Lemma feed_name l b q uid n :
  (length (b ++ l) ≤ 15)%nat → Forall (λ ch, is_alnum ch = true) l →
  feed l (at_ b q (Command uid) n) = Some (at_ (b ++ (to_upper <$> l)) q (Command uid) n).
Proof.
  intros Hlen Hl. revert b Hlen. induction Hl as [|ch l Hch Hl IH]; intros b Hlen.
  { cbn. by rewrite app_nil_r. }
  rewrite length_app in Hlen. cbn [length] in Hlen.
  erewrite (feed_step _ _ _ (at_ (b ++ [to_upper ch]) q (Command uid) n)).
  - rewrite IH, <- (assoc_L (++)); [done|]. rewrite !length_app. cbn. lia.
  - unfold step, step_command. receiver_step. unfold ImapReceiver.at_. cbn -[Nat.ltb].
    rewrite Hch, (proj2 (Nat.ltb_lt _ _)) by lia. done.
Qed.

Lemma to_upper_idem ch : to_upper (to_upper ch) = to_upper ch.
Proof. unfold to_upper, is_lower. repeat case_match; rewrite ?andb_true_iff, ?Z.leb_le in *; lia. Qed.

Lemma feed_command name uid c q n sep :
  name_ok name → command_parse (to_upper <$> name) uid = Some c → is_whitespace sep = true → sep ≠ 10 →
  feed (name ++ [sep]) (at_ [] q (Command uid) n)
  = Some (at_ [] {| tag := tag q; command := c; tokens := tokens q |} (Argument 32) n).
Proof.
  intros (Hne & Hlen & Hal & Huid) Hc Hsep Hnl. erewrite feed_app by by apply feed_name.
  rewrite app_nil_l. erewrite feed_step; [done|].
  assert (is_alnum sep = false) as Hal'.
  { unfold is_whitespace in Hsep. rewrite !orb_true_iff, !Z.eqb_eq in Hsep.
    destruct Hsep as [[[[->| ->]| ->]| ->]| ->]; done. }
  unfold step, step_command. receiver_step. unfold ImapReceiver.at_. cbn.
  rewrite Hal', Hsep, bool_decide_eq_false_2 by by destruct name.
  assert ((to_upper <$> (to_upper <$> name)) = to_upper <$> name) as ->.
  { rewrite <- list_fmap_compose. apply list_fmap_ext. intros ? ? _. apply to_upper_idem. }
  rewrite bool_decide_eq_false_2, Hc by done. cbn. by rewrite (proj2 (Z.eqb_neq _ _) Hnl).
Qed.

Lemma feed_uid q n :
  feed (str "UID ") (at_ [] q (Command false) n) = Some (at_ [] q (Command true) n).
Proof. done. Qed.

Lemma parse_items items q c n rest :
  is_whitespace c = true → Forall (item_ok (tokenize_brackets (command q))) items →
  n + items_size items ≤ max →
  parse (print_items items ++ rest) (at_ [] q (Argument c) n)
  = (Ok (more q (item_token <$> items)), at_ [] request_default (start_state r0) 0, rest).
Proof.
  intros Hc Hitems. revert q c n Hc Hitems. induction items as [|i items IH]; intros q c n Hc Hitems Hn.
  - cbn [print_items app parse]. unfold step, step_argument. receiver_step. unfold ImapReceiver.at_. cbn.
    unfold more. rewrite app_nil_r. destruct (tokenize_brackets _); by destruct q.
  - apply Forall_cons in Hitems as [Hi Hitems].
    change (items_size (i :: items)) with (item_size i + items_size items) in Hn.
    assert (0 ≤ items_size items) as Hpos.
    { clear. induction items as [|j items IH]; [done|].
      change (items_size (j :: items)) with (item_size j + items_size items). destruct j; cbn [item_size]; lia. }
    cbn [print_items]. rewrite (assoc_L (++)), <- (assoc_L (++) (_ ++ _)).
    assert (is_whitespace (separator items) = true ∧ separator items ≠ 10) as [Hs Hnl] by by destruct items.
    erewrite parse_feed.
    2: { apply feed_item; [done..|lia]. }
    rewrite IH; [|done|done|lia].
    unfold more. cbn [tag command tokens]. by rewrite <- (assoc_L (++)).
Qed.
End Requests.

(** ** The invariant *)

Definition token_size (t : Token) : Z :=
  match t with TArgument l => Z.of_nat (length l) | Nil_ => 0 | _ => 1 end.

Definition tokens_size (l : list Token) : Z := foldr (λ t n, token_size t + n) 0 l.

Lemma tokens_size_snoc l t : tokens_size (l ++ [t]) = tokens_size l + token_size t.
Proof. induction l as [|t' l IH]; cbn -[token_size]; [lia|]. unfold tokens_size in IH. rewrite IH. lia. Qed.

Definition filled (t : Token) : Prop := t ≠ TArgument [].

Section Invariant.
Context `{CP : CommandParser T}.

(** What the buffer may hold in a state. *)
Definition state_inv (r : Receiver T) : Prop :=
  match state r with
  | Start => buf r = []
  | Tag => (length (buf r) ≤ 128)%nat
  | Command _ => (length (buf r) ≤ 15)%nat
  | Argument c => is_whitespace c = true → buf r = []
  | ArgumentQuoted _ => True
  | Literal _ => Forall (λ ch, is_digit ch = true) (buf r)
  | LiteralSeek size _ => 0 ≤ size ∧ current_request_size r + size ≤ max_request_size r ∧ buf r = []
  | LiteralData remaining =>
      0 < remaining ∧
      current_request_size r + Z.of_nat (length (buf r)) + remaining ≤ max_request_size r
  end.

Definition receiver_inv (r : Receiver T) : Prop :=
  (start_state r = Start ∨ start_state r = Command false) ∧
  Forall filled (tokens (request r)) ∧
  0 ≤ tokens_size (tokens (request r)) ≤ current_request_size r ∧
  current_request_size r ≤ max_request_size r ∧
  state_inv r.

(** The receiver before the first byte of a request. *)
Definition fresh (r : Receiver T) : Receiver T := at_ r [] request_default (start_state r) 0.

Definition outcome_ok (r : Receiver T) (res : result Error (option (Request T))) (r' : Receiver T) : Prop :=
  match res with
  | Ok None => True
  | Ok (Some q) =>
      r' = fresh r ∧ Forall filled (tokens q) ∧ 0 ≤ tokens_size (tokens q) ≤ max_request_size r
  | Err (ParseError _ _) => r' = fresh r
  | Err (NeedsLiteral n) => state r' = if 0 <? n then LiteralData n else Argument 32
  | Err NeedsMoreData => False
  end.

Definition step_ok (r : Receiver T) (out : result Error (option (Request T)) * Receiver T) : Prop :=
  receiver_inv out.2 ∧ max_request_size out.2 = max_request_size r ∧ start_state out.2 = start_state r ∧
  outcome_ok r out.1 out.2.

Lemma fresh_inv r : receiver_inv r → receiver_inv (fresh r).
Proof.
  intros (Hs & _ & Hsz & Hm & _). split_and!; cbn; [done|constructor|lia|lia|lia|].
  unfold state_inv. cbn. destruct Hs as [-> | ->]; cbn; [done|lia].
Qed.

Lemma punctuation_token brackets ch t :
  punctuation brackets ch = Some t → token_size t = 1 ∧ filled t.
Proof using. unfold punctuation, filled. intros Ht. repeat case_match; by simplify_eq/=. Qed.

Lemma parse_uint_nonneg w l n : parse_uint w l = Some n → 0 ≤ n.
Proof using.
  assert (∀ l acc, 0 ≤ acc → ∀ n, dec_digits w acc l = Some n → 0 ≤ n) as Hd.
  { clear. induction l as [|b l IH]; intros acc Hacc n; cbn [dec_digits]; [by intros [= <-]|].
    destruct (is_digit b) eqn:Hb; [|done]. apply is_digit_range in Hb.
    destruct (_ <? _); [|done]. apply IH. lia. }
  unfold parse_uint. destruct l as [|b l]; [done|]. destruct (b =? "+"); [destruct l; [done|]|]; by apply Hd.
Qed.

Lemma filled_snoc l t : Forall filled l → filled t → Forall filled (l ++ [t]).
Proof using. intros Hl Ht. apply Forall_app. by repeat constructor. Qed.

Lemma filled_argument l : l ≠ [] → filled (TArgument l).
Proof using. intros Hl [= ->]. done. Qed.

Lemma filled_nil : filled Nil_.
Proof using. done. Qed.

(** What the tests of the code say. *)
Ltac facts :=
  repeat match goal with
  | H : negb _ = true |- _ => apply negb_true_iff in H
  | H : negb _ = false |- _ => apply negb_false_iff in H
  | H : bool_decide _ = true |- _ => apply bool_decide_eq_true in H
  | H : bool_decide _ = false |- _ => apply bool_decide_eq_false in H
  | H : (_ <? _)%nat = true |- _ => apply Nat.ltb_lt in H
  | H : (_ <? _) = true |- _ => apply Z.ltb_lt in H
  | H : (_ <? _) = false |- _ => apply Z.ltb_ge in H
  | H : _ && _ = true |- _ => apply andb_true_iff in H as [? ?]
  | H : punctuation _ _ = Some _ |- _ => apply punctuation_token in H as [? ?]
  | H : parse_uint _ _ = Some _ |- _ => apply parse_uint_nonneg in H
  | H : _ ∧ _ |- _ => destruct H
  end; subst.

(** Leaves of the case analysis: the receiver has been reset, or its fields are
    written out. *)
Ltac leaf :=
  lazymatch goal with
  | Hfresh : receiver_inv (fresh _) |- _ => first [split; [exact Hfresh|done] | clear Hfresh]
  end;
  facts; unfold step_ok, receiver_inv, state_inv;
  cbn [buf request state max_request_size current_request_size start_state tag command
       tokens fst snd outcome_ok] in *;
  rewrite ?tokens_size_snoc, ?length_app in *; cbn [token_size length] in *;
  split_and!; try done; try lia; try (by left); try (by right);
  repeat first [apply filled_snoc | apply filled_argument | apply filled_nil]; try done;
  try (by intros ?%app_nil); try (rewrite ?length_app; cbn [length]; lia);
  try (by rewrite (proj2 (Z.ltb_lt _ _))); try (by rewrite (proj2 (Z.ltb_ge _ _)));
  try (apply Forall_app; by repeat constructor); try congruence.

Lemma step_inv_ok ch r : receiver_inv r → step_ok r (step ch r).
Proof.
  intros Hinv. pose proof (fresh_inv r Hinv) as Hfresh. destruct r as [b q s m c st].
  unfold receiver_inv in Hinv. cbn in Hinv. destruct Hinv as (Hst & Hf & Hsz & Hm & Hs).
  unfold step. cbn [get mbind rm_bind state].
  destruct Hst as [-> | ->], s; cbn in Hs; receiver; leaf.
Qed.
End Invariant.

(** ** Theorems *)

(** C16. A request written in IMAP syntax is received as its tag, its command and
    its arguments, with empty strings as [Nil_], however the stream is cut into
    pieces; the receiver is then ready for the next request and has not touched
    the bytes behind this one. *)
Theorem request_roundtrip `{CommandParser T} (r : Receiver T) (t : list Z) (uid : bool) (name : bytes)
    (c : T) (items : list Item) (extra : bytes) (chunks : list bytes) :
  r = fresh r → start_state r = Start →
  tag_ok t → name_ok name → command_parse (to_upper <$> name) uid = Some c →
  Forall (item_ok (tokenize_brackets c)) items → items_size items ≤ max_request_size r →
  concat chunks = print_request t uid name items ++ extra →
  ∃ rest chunks',
    parse_chunks chunks r
    = (Ok {| tag := t; command := c; tokens := item_token <$> items |}, r, rest, chunks') ∧
    rest ++ concat chunks' = extra.
Proof.
  intros Hr Hst Ht Hname Hc Hitems Hsize Hchunks.
  apply parse_chunks_concat; [|done]. rewrite Hchunks, Hr. unfold print_request, fresh. rewrite Hst.
  rewrite <- !(assoc_L (++)), (assoc_L (++)). erewrite parse_feed by by apply feed_tag_start.
  set (q := {| tag := t |}).
  assert (parse ((if uid then str "UID " else []) ++ name ++ [separator items] ++ print_items items ++ extra)
            (at_ r [] q (Command false) 0)
          = parse (name ++ [separator items] ++ print_items items ++ extra) (at_ r [] q (Command uid) 0)) as ->.
  { destruct uid; [|done]. by erewrite parse_feed by apply feed_uid. }
  assert (is_whitespace (separator items) = true ∧ separator items ≠ 10) as [Hs Hnl] by by destruct items.
  rewrite (assoc_L (++)). erewrite parse_feed by by apply feed_command.
  rewrite parse_items by done. by rewrite Hst.
Qed.

(** C20. Whatever bytes arrive, the receiver keeps its invariant: the arguments
    collected so far stay within the maximal request size, literals are announced
    only when they fit, tags and command names are bounded, and the digits of a
    literal are digits.  A request that is handed out respects the maximal size;
    after it, and after every syntax error, the receiver is as new. *)
Theorem receiver_invariant `{CommandParser T} (input : bytes) (r : Receiver T) :
  receiver_inv r →
  let '(res, r', rest) := parse input r in
  receiver_inv r' ∧ max_request_size r' = max_request_size r ∧
  match res with
  | Ok q => r' = fresh r ∧ Forall filled (tokens q) ∧ 0 ≤ tokens_size (tokens q) ≤ max_request_size r
  | Err (ParseError _ _) => r' = fresh r
  | Err (NeedsLiteral n) => state r' = if 0 <? n then LiteralData n else Argument 32
  | Err NeedsMoreData => rest = []
  end.
Proof.
  revert r. induction input as [|ch input IH]; intros r Hinv; cbn [parse]; [done|].
  destruct (step_inv_ok ch r Hinv) as (Hinv' & Hmax & Hst & Hout).
  destruct (step ch r) as [[[q|]|e] r1]; cbn [fst snd outcome_ok] in *.
  - done.
  - specialize (IH r1 Hinv'). destruct (parse input r1) as [[res r'] rest].
    assert (fresh r1 = fresh r) as Hf by (unfold fresh, at_; by rewrite Hmax, Hst).
    rewrite Hf, Hmax in IH. done.
  - by destruct e.
Qed.

(** The limit is not applied to a word that has not ended, to a run of escaped
    backslashes or to the digits of a literal: the buffer grows with the input. *)
Lemma atom_unbounded (n : nat) (max : Z) :
  let r := with_max_request_size (T := ImapCommand.Command) max in
  ∃ r', parse (str "a NOOP " ++ replicate n "x"%chr) r = (Err NeedsMoreData, r', []) ∧
        length (buf r') = n.
Proof.
  intros r. set (q := {| tag := str "a"; command := ImapCommand.Noop; tokens := [] |}).
  rewrite (parse_feed (str "a NOOP ") _ r (at_ r [] q (Argument 32) 0)) by done.
  rewrite <- (app_nil_r (replicate n _)).
  erewrite parse_feed by (apply feed_atom, Forall_replicate; done).
  eexists. split; [done|]. cbn. apply length_replicate.
Qed.

(** ** Witnesses *)

Definition sample_items : list Item :=
  [Atom (str "1:*"); Open_; Atom (str "FLAGS"); Quoted (str "a b"); LiteralPlus [0; 10; 255]; Quoted []; Close_].

Definition sample_chunks : list bytes :=
  [str "a1 UI"; str "D fetch 1:* ( FLAGS "; quoted_string (str "a b");
   [32] ++ str "{3+}" ++ [13; 10; 0; 10; 255; 32] ++ quoted_string []; str " )" ++ [13; 10] ++ str "b2"].

Lemma request_roundtrip_witness :
  ∃ rest chunks',
    parse_chunks sample_chunks (receiver_new (T := ImapCommand.Command))
    = (Ok {| tag := str "a1"; command := ImapCommand.Fetch true; tokens := item_token <$> sample_items |},
       receiver_new, rest, chunks') ∧
    rest ++ concat chunks' = str "b2".
Proof.
  apply (request_roundtrip receiver_new (str "a1") true (str "fetch") (ImapCommand.Fetch true) sample_items
           (str "b2") sample_chunks).
  - reflexivity.
  - reflexivity.
  - split; [apply (bool_decide_unpack _); vm_compute; exact I|]. split; [discriminate|].
    split; [vm_compute; lia|]. apply (bool_decide_unpack _). vm_compute. exact I.
  - split; [discriminate|]. split; [vm_compute; lia|].
    split; [apply (bool_decide_unpack _); vm_compute; exact I|discriminate].
  - reflexivity.
  - repeat (apply Forall_cons; split); [..|apply Forall_nil_2]; try exact I;
      try (split; [discriminate || (vm_compute; lia)|apply (bool_decide_unpack _); vm_compute; exact I]).
  - vm_compute. discriminate.
  - reflexivity.
Defined.

Lemma receiver_invariant_witness :
  let r := with_max_request_size (T := ImapCommand.Command) 100 in
  receiver_inv r ∧ receiver_inv (parse (str "a LOGIN {3}" ++ [13; 10]) r).1.2 ∧
  (parse (str "a LOGIN {3}" ++ [13; 10]) r).1.1 = Err (NeedsLiteral 3).
Proof.
  intros r. assert (receiver_inv r) as Hr.
  { split; [by left|]. split; [apply Forall_nil_2|]. vm_compute. repeat split; discriminate. }
  split; [exact Hr|]. pose proof (receiver_invariant (str "a LOGIN {3}" ++ [13; 10]) r Hr) as Hinv.
  split; [|reflexivity]. destruct (parse (str "a LOGIN {3}" ++ [13; 10]) r) as [[res r'] rest].
  destruct Hinv as [Hinv _]. exact Hinv.
Defined.
