(* ===== verification/ImapSession.v ===== *)
(** * The IMAP session

    crates/imap/src/core (client.rs, mod.rs, session.rs) and the entry points of
    the handlers in crates/imap/src/op: which commands a session admits, which
    state each handler relies on, and how the state moves.  What the handlers ask
    of the rest of the server (the directory, the store, the socket, the parsers
    of the arguments) is an answer the model is given; the theorems hold for
    every answer.  [unreachable!()] is the outcome [None]. *)

From S2P Require Import Prelude Utf8 ImapReceiver.
Import ImapCommand.

#[local] Open Scope chr_scope.

(** ** Errors: the events of [trc] that a session tells apart *)

Inductive Failure :=
| NetworkEvent
| SecurityEvent
| TooManyAttempts
| ConcurrentRequest
| TooManyRequests
| OtherEvent.

Definition must_disconnect (e : Failure) : bool :=
  match e with OtherEvent => false | _ => true end.

Definition should_write_err (e : Failure) : bool :=
  match e with NetworkEvent | SecurityEvent => false | _ => true end.

(** ** Data *)

Inductive Permission :=
| ImapAuthenticate | ImapAclGet | ImapAclSet | ImapMyRights | ImapListRights | ImapAppend
| ImapCapability | ImapId | ImapCopy | ImapMove | ImapCreate | ImapDelete | ImapEnable
| ImapExpunge | ImapFetch | ImapIdle | ImapList | ImapLsub | ImapNamespace | ImapRename
| ImapSearch | ImapSort | ImapSelect | ImapExamine | ImapStatus | ImapStore | ImapSubscribe
| ImapThread.

(** The account a session acts for, with the permissions of its access token. *)
Record SessionData := {
  account_id : Z;
  has_permission : Permission → bool;
}.

Record SelectedMailbox := {
  mailbox_id : Z;
  is_select : bool;
  mailbox_condstore : bool;
}.

Inductive State :=
| NotAuthenticated (auth_failures : Z)
| Authenticated (data : SessionData)
| Selected (data : SessionData) (mailbox : SelectedMailbox).

Inductive ProtocolVersion := Rev1 | Rev2.

Record Session := {
  receiver : Receiver Command;
  version : ProtocolVersion;
  state : State;
  is_tls : bool;
  is_condstore : bool;
  is_qresync : bool;
}.

Inductive SessionResult := Continue | CloseSession | UpgradeTls.

(** The settings of the server that a session reads. *)
Record Config := {
  acceptor_is_tls : bool;
  allow_plain_auth : bool;
  max_auth_failures : Z;
  imap_max_request_size : Z;
}.

Inductive Capability := CapRev2 | CapRev1 | CapCondStore | CapQResync | CapUtf8Accept | CapOther.

Inductive Mechanism :=
| Plain | CramMd5 | DigestMd5 | ScramSha1 | ScramSha256 | Apop | Ntlm | Gssapi
| Anonymous | External | OAuthBearer | XOauth2.

(** What a handler reads of its parsed arguments. *)
Record Arguments := {
  separator_query : bool;          (* LIST: [is_separator_query] *)
  arg_condstore : bool;            (* SELECT: [condstore] *)
  arg_qresync : option bool;       (* SELECT: [qresync], and whether its validity is current *)
  changed_since : bool;            (* FETCH: [changed_since.is_some()] *)
  wants_modseq : bool;             (* FETCH: the attributes contain [ModSeq] *)
  capabilities : list Capability;  (* ENABLE *)
}.

Inductive AuthAnswer :=
| AuthToken (data : SessionData)
| AuthFailed
| AuthError (e : Failure).

(** What the rest of the server answers while one request is served. *)
Record Answers := {
  rate : result Failure bool;              (* [is_rate_allowed(..)?.is_some()] *)
  arguments : result Failure Arguments;    (* the parser of the arguments *)
  synchronize : result Failure ();         (* [synchronize_mailboxes], [subscribe_state_manager] *)
  mailbox_by_name : option Z;              (* [get_mailbox_by_name] *)
  load : result Failure ();                (* [get_modseq], [fetch_messages], [fetch] *)
  acl : result Failure bool;               (* [check_mailbox_acl] *)
  ids : result Failure ();                 (* the sequence set of EXPUNGE and its ids *)
  expunged : result Failure ();            (* [expunge] *)
  changes : result Failure ();             (* [write_changes], [write_mailbox_changes] *)
  idle : result Failure ();                (* the registration and the loop of IDLE *)
  sasl : bool;                             (* the challenge decodes *)
  auth_soft : result Failure ();           (* [is_auth_allowed_soft] *)
  auth : AuthAnswer;                       (* [authenticate] of the server *)
  limited : bool;                          (* the concurrency limiter refuses *)
  new_session : result Failure ();         (* [SessionData::new] *)
  scanner : bool;                          (* [is_scanner_fail2banned] is [Ok(true)] *)
  write : result Failure ();               (* [write_bytes] *)
}.

(** An operation started on the data of an account, with the mailbox it works on. *)
Record Effect := {
  operation : Command;
  account : SessionData;
  target : option SelectedMailbox;
}.

#[export] Instance command_eq_dec : EqDecision Command.
Proof. solve_decision. Defined.

(** ** The monad of the handlers: panics, errors, the session, the operations started *)

Definition H (A : Type) : Type := Session → option (result Failure A * Session * list Effect).

#[export] Instance h_ret : MRet H := λ A a s, Some (Ok a, s, []).
#[export] Instance h_bind : MBind H := λ A B k m s,
  match m s with
  | Some (Ok a, s, l) =>
      match k a s with
      | Some (r, s, l') => Some (r, s, l ++ l')
      | None => None
      end
  | Some (Err e, s, l) => Some (Err e, s, l)
  | None => None
  end.

Definition lift {A} (r : result Failure A) : H A := λ s, Some (r, s, []).
Definition throw {A} (e : Failure) : H A := lift (Err e).
Definition get_session : H Session := λ s, Some (Ok s, s, []).
Definition reached {A} (o : option A) : H A := λ s, a ← o; Some (Ok a, s, []).
Definition spawn (c : Command) (d : SessionData) (m : option SelectedMailbox) : H () := λ s,
  Some (Ok (), s, [{| operation := c; account := d; target := m |}]).

Definition put_state (st : State) : H () := λ s,
  Some (Ok (), {| receiver := receiver s; version := version s; state := st; is_tls := is_tls s;
                  is_condstore := is_condstore s; is_qresync := is_qresync s |}, []).
Definition put_receiver (r : Receiver Command) : H () := λ s,
  Some (Ok (), {| receiver := r; version := version s; state := state s; is_tls := is_tls s;
                  is_condstore := is_condstore s; is_qresync := is_qresync s |}, []).
Definition put_enabled (v : ProtocolVersion) (condstore qresync : bool) : H () := λ s,
  Some (Ok (), {| receiver := receiver s; version := v; state := state s; is_tls := is_tls s;
                  is_condstore := condstore; is_qresync := qresync |}, []).

(** ** The states the handlers rely on *)

Definition get_auth_failures (st : State) : option Z :=
  match st with NotAuthenticated n => Some n | _ => None end.

Definition session_data (st : State) : option SessionData :=
  match st with
  | Authenticated data => Some data
  | Selected data _ => Some data
  | NotAuthenticated _ => None
  end.

Definition mailbox_state (st : State) : option (SessionData * SelectedMailbox) :=
  match st with Selected data mailbox => Some (data, mailbox) | _ => None end.

Definition session_mailbox_state (st : State) : option (SessionData * option SelectedMailbox) :=
  match st with
  | Authenticated data => Some (data, None)
  | Selected data mailbox => Some (data, Some mailbox)
  | NotAuthenticated _ => None
  end.

Definition select_data (st : State) : option (SessionData * SelectedMailbox) :=
  match st with Selected data mailbox => Some (data, mailbox) | _ => None end.

Definition is_authenticated (st : State) : bool :=
  match st with Authenticated _ | Selected _ _ => true | NotAuthenticated _ => false end.

Definition assert_has_permission (p : Permission) : H () :=
  s ← get_session;
  match session_data (state s) with
  | Some data => if has_permission data p then mret () else throw SecurityEvent
  | None => mret ()
  end.

(** ** Arguments of the authentication commands *)

Definition token_string (t : Token) : bytes :=
  match t with
  | TArgument value => value
  | ParenthesisOpen => str "("
  | ParenthesisClose => str ")"
  | BracketOpen => str "["
  | BracketClose => str "]"
  | Gt_ => str ">"
  | Lt_ => str "<"
  | Dot => str "."
  | Nil_ => []
  end.

Definition unwrap_string (t : Token) : option (list Z) := from_utf8 (token_string t).
Definition unwrap_bytes (t : Token) : bytes := token_string t.

Definition mechanisms : list (string * Mechanism) :=
  [("PLAIN", Plain); ("CRAM-MD5", CramMd5); ("DIGEST-MD5", DigestMd5); ("SCRAM-SHA-1", ScramSha1);
   ("SCRAM-SHA-256", ScramSha256); ("APOP", Apop); ("NTLM", Ntlm); ("GSSAPI", Gssapi);
   ("ANONYMOUS", Anonymous); ("EXTERNAL", External); ("OAUTHBEARER", OAuthBearer);
   ("XOAUTH2", XOauth2)]%string.

Definition mechanism_parse (value : bytes) : option Mechanism :=
  match_bytes (to_upper <$> value) mechanisms.

Definition parse_authenticate (q : Request Command) : result Failure (Mechanism * list (list Z)) :=
  match tokens q with
  | t :: ts =>
      match mechanism_parse (unwrap_bytes t) with
      | Some m => Ok (m, omap unwrap_string ts)
      | None => Err OtherEvent
      end
  | [] => Err OtherEvent
  end.

Definition parse_login (q : Request Command) : result Failure (list Z * list Z) :=
  match tokens q with
  | [u; p] =>
      match unwrap_string u, unwrap_string p with
      | Some username, Some password => Ok (username, password)
      | _, _ => Err OtherEvent
      end
  | _ => Err OtherEvent
  end.

(** The name a mechanism is printed with. *)
Definition mechanism_bytes (m : Mechanism) : bytes :=
  str match m with
      | Plain => "PLAIN" | CramMd5 => "CRAM-MD5" | DigestMd5 => "DIGEST-MD5"
      | ScramSha1 => "SCRAM-SHA-1" | ScramSha256 => "SCRAM-SHA-256" | Apop => "APOP"
      | Ntlm => "NTLM" | Gssapi => "GSSAPI" | Anonymous => "ANONYMOUS" | External => "EXTERNAL"
      | OAuthBearer => "OAUTHBEARER" | XOauth2 => "XOAUTH2"
      end%string.

Section Session.
Context (config : Config).

(** ** The handlers, from their entry to the task they start *)

(** The socket, and the end of a handler that answers. *)
Definition write_bytes (a : Answers) : H () := lift (write a).

Definition handle_capability (a : Answers) : H () :=
  _ ← assert_has_permission ImapCapability; write_bytes a.

Definition handle_id (a : Answers) : H () :=
  _ ← assert_has_permission ImapId; write_bytes a.

Definition handle_noop (a : Answers) : H () :=
  s ← get_session;
  _ ← match state s with Selected _ _ => lift (changes a) | _ => mret () end;
  write_bytes a.

Definition handle_logout (a : Answers) : H () := write_bytes a.

Definition authenticate (a : Answers) : H () :=
  _ ← lift (auth_soft a);
  data ← match auth a with
         | AuthToken data =>
             if has_permission data ImapAuthenticate then mret data else throw SecurityEvent
         | AuthFailed =>
             s ← get_session;
             n ← reached (get_auth_failures (state s));
             if n <? max_auth_failures config
             then _ ← put_state (NotAuthenticated (n + 1)); throw OtherEvent
             else throw TooManyAttempts
         | AuthError e => throw e
         end;
  if limited a then throw ConcurrentRequest
  else
    _ ← lift (new_session a);
    _ ← put_state (Authenticated data);
    write_bytes a.

Definition handle_authenticate (a : Answers) (q : Request Command) : H () :=
  args ← lift (parse_authenticate q);
  match args.1 with
  | Plain | OAuthBearer =>
      if negb (bool_decide (args.2 = [])) then
        if sasl a then authenticate a else throw OtherEvent
      else
        s ← get_session;
        _ ← put_receiver {|
              buf := buf (receiver s);
              request := {| tag := tag q; command := Authenticate;
                            tokens := [TArgument (mechanism_bytes args.1)] |};
              ImapReceiver.state := Argument " ";
              max_request_size := max_request_size (receiver s);
              current_request_size := current_request_size (receiver s);
              start_state := start_state (receiver s) |};
        write_bytes a
  | _ => throw OtherEvent
  end.

Definition handle_login (a : Answers) (q : Request Command) : H () :=
  _ ← lift (parse_login q); authenticate a.

Definition handle_unauthenticate (a : Answers) : H () :=
  _ ← put_state (NotAuthenticated 0); write_bytes a.

Definition enable (s : ProtocolVersion * bool * bool) (c : Capability) : ProtocolVersion * bool * bool :=
  let '(v, condstore, qresync) := s in
  match c with
  | CapRev2 => (Rev2, condstore, qresync)
  | CapRev1 => (Rev1, condstore, qresync)
  | CapCondStore => (v, true, qresync)
  | CapQResync => (v, true, true)
  | CapUtf8Accept | CapOther => (v, condstore, qresync)
  end.

Definition handle_enable (a : Answers) : H () :=
  _ ← assert_has_permission ImapEnable;
  args ← lift (arguments a);
  s ← get_session;
  let '(v, condstore, qresync) :=
    foldl enable (version s, is_condstore s, is_qresync s) (capabilities args) in
  _ ← put_enabled v condstore qresync;
  write_bytes a.

Definition handle_select (a : Answers) (c : Command) : H () :=
  let select := match c with Select => true | _ => false end in
  _ ← assert_has_permission (if select then ImapSelect else ImapExamine);
  args ← lift (arguments a);
  s ← get_session;
  data ← reached (session_data (state s));
  _ ← lift (synchronize a);
  match mailbox_by_name a with
  | Some id =>
      _ ← lift (load a);
      let mailbox := {| mailbox_id := id; is_select := select;
                        mailbox_condstore := is_condstore s || arg_condstore args |} in
      _ ← match arg_qresync args with
          | Some current =>
              if negb (is_qresync s) then throw OtherEvent
              else if current then lift (load a) else mret ()
          | None => mret ()
          end;
      _ ← put_state (Selected data mailbox);
      write_bytes a
  | None => throw OtherEvent
  end.

Definition handle_unselect (a : Answers) : H () :=
  s ← get_session;
  data ← reached (session_data (state s));
  _ ← put_state (Authenticated data);
  write_bytes a.

Definition handle_close (a : Answers) : H () :=
  s ← get_session;
  dm ← reached (select_data (state s));
  _ ← (if is_select dm.2
       then _ ← spawn Close dm.1 (Some dm.2); lift (expunged a)
       else mret ());
  _ ← put_state (Authenticated dm.1);
  write_bytes a.

Definition handle_expunge (a : Answers) (uid : bool) : H () :=
  _ ← assert_has_permission ImapExpunge;
  s ← get_session;
  dm ← reached (select_data (state s));
  granted ← lift (acl a);
  if negb granted then throw OtherEvent
  else
    _ ← lift (ids a);
    _ ← spawn (Expunge uid) dm.1 (Some dm.2);
    _ ← lift (expunged a);
    _ ← lift (changes a);
    write_bytes a.

Definition handle_fetch (a : Answers) (uid : bool) : H () :=
  _ ← assert_has_permission ImapFetch;
  args ← lift (arguments a);
  s ← get_session;
  dm ← reached (select_data (state s));
  _ ← (if negb (is_condstore s) && changed_since args || wants_modseq args
       then put_enabled (version s) true (is_qresync s) else mret ());
  spawn (Fetch uid) dm.1 (Some dm.2).

(** Handlers that check a permission, parse their arguments and start a task on
    the selected mailbox ([select_data] and [mailbox_state]). *)
Definition on_mailbox (a : Answers) (p : Permission) (c : Command)
    (access : State → option (SessionData * SelectedMailbox)) : H () :=
  _ ← assert_has_permission p;
  _ ← lift (arguments a);
  s ← get_session;
  dm ← reached (access (state s));
  spawn c dm.1 (Some dm.2).

Definition handle_store (a : Answers) (uid : bool) : H () :=
  on_mailbox a ImapStore (Store uid) select_data.
Definition handle_copy_move (a : Answers) (is_move uid : bool) : H () :=
  on_mailbox a (if is_move then ImapMove else ImapCopy)
    (if is_move then Move uid else Copy uid) mailbox_state.
Definition handle_search (a : Answers) (is_sort uid : bool) : H () :=
  on_mailbox a (if is_sort then ImapSort else ImapSearch)
    (if is_sort then Sort uid else Search uid) mailbox_state.
Definition handle_thread (a : Answers) (uid : bool) : H () :=
  on_mailbox a ImapThread (Thread uid) mailbox_state.

(** Handlers that start a task on the account ([session_data]). *)
Definition on_account (a : Answers) (p : Permission) (c : Command) (parses : bool) : H () :=
  _ ← assert_has_permission p;
  _ ← (if parses then _ ← lift (arguments a); mret () else mret ());
  s ← get_session;
  data ← reached (session_data (state s));
  spawn c data None.

Definition handle_create (a : Answers) : H () := on_account a ImapCreate Create false.
Definition handle_delete (a : Answers) : H () := on_account a ImapDelete Delete false.
Definition handle_rename (a : Answers) : H () := on_account a ImapRename Rename true.
Definition handle_status (a : Answers) : H () := on_account a ImapStatus Status true.
Definition handle_subscribe (a : Answers) (subscribe : bool) : H () :=
  on_account a ImapSubscribe (if subscribe then Subscribe else Unsubscribe) true.
Definition handle_get_acl (a : Answers) : H () := on_account a ImapAuthenticate GetAcl true.
Definition handle_my_rights (a : Answers) : H () := on_account a ImapMyRights MyRights true.
Definition handle_set_acl (a : Answers) (c : Command) : H () := on_account a ImapAclSet c true.

Definition handle_list_rights (a : Answers) : H () :=
  _ ← assert_has_permission ImapListRights; _ ← lift (arguments a); write_bytes a.

Definition handle_list (a : Answers) (c : Command) : H () :=
  _ ← assert_has_permission (match c with Lsub => ImapLsub | _ => ImapList end);
  args ← lift (arguments a);
  if negb (separator_query args) then
    s ← get_session;
    data ← reached (session_data (state s));
    spawn c data None
  else write_bytes a.

Definition handle_namespace (a : Answers) : H () :=
  _ ← assert_has_permission ImapNamespace;
  s ← get_session;
  _ ← reached (session_data (state s));
  write_bytes a.

Definition handle_append (a : Answers) : H () :=
  _ ← assert_has_permission ImapAppend;
  _ ← lift (arguments a);
  s ← get_session;
  dm ← reached (session_mailbox_state (state s));
  _ ← lift (synchronize a);
  match mailbox_by_name a with
  | Some _ => spawn Append dm.1 dm.2
  | None => throw OtherEvent
  end.

Definition handle_idle (a : Answers) : H () :=
  _ ← assert_has_permission ImapIdle;
  s ← get_session;
  dm ← reached (session_mailbox_state (state s));
  _ ← lift (synchronize a);
  _ ← write_bytes a;
  _ ← spawn Idle dm.1 dm.2;
  lift (idle a).

(** ** The client loop *)

(** The handler of a command. *)
Definition handle (q : Request Command) (a : Answers) : H SessionResult :=
  _ ← match command q with
      | List_ | Lsub => handle_list a (command q)
      | Select | Examine => handle_select a (command q)
      | Create => handle_create a
      | Delete => handle_delete a
      | Rename => handle_rename a
      | Status => handle_status a
      | Append => handle_append a
      | Close => handle_close a
      | Unselect => handle_unselect a
      | Expunge uid => handle_expunge a uid
      | Search uid => handle_search a false uid
      | Fetch uid => handle_fetch a uid
      | Store uid => handle_store a uid
      | Copy uid => handle_copy_move a false uid
      | Move uid => handle_copy_move a true uid
      | Sort uid => handle_search a true uid
      | Thread uid => handle_thread a uid
      | Idle => handle_idle a
      | Subscribe => handle_subscribe a true
      | Unsubscribe => handle_subscribe a false
      | Namespace => handle_namespace a
      | Authenticate => handle_authenticate a q
      | Login => handle_login a q
      | ImapCommand.Capability => handle_capability a
      | Enable => handle_enable a
      | StartTls => write_bytes a
      | Noop | Check_ => handle_noop a
      | Logout => handle_logout a
      | SetAcl | DeleteAcl => handle_set_acl a (command q)
      | GetAcl => handle_get_acl a
      | ListRights => handle_list_rights a
      | MyRights => handle_my_rights a
      | Unauthenticate => handle_unauthenticate a
      | Id => handle_id a
      end;
  mret match command q with
       | StartTls => UpgradeTls
       | Logout => CloseSession
       | _ => Continue
       end.

Definition is_allowed (s : Session) (a : Answers) (c : Command) : result Failure () :=
  limit ← (if is_authenticated (state s) then rate a else Ok false);
  if (limit : bool) then Err TooManyRequests
  else
    match c with
    | ImapCommand.Capability | Noop | Logout | Id => Ok ()
    | StartTls =>
        if negb (is_tls s) then
          if acceptor_is_tls config then Ok () else Err OtherEvent
        else Err OtherEvent
    | Authenticate =>
        match state s with NotAuthenticated _ => Ok () | _ => Err OtherEvent end
    | Login =>
        match state s with
        | NotAuthenticated _ =>
            if is_tls s || allow_plain_auth config then Ok () else Err OtherEvent
        | _ => Err OtherEvent
        end
    | Enable | Select | Examine | Create | Delete | Rename | Subscribe | Unsubscribe | List_ | Lsub
    | Namespace | Status | Append | Idle | SetAcl | DeleteAcl | GetAcl | ListRights | MyRights
    | Unauthenticate =>
        if is_authenticated (state s) then Ok () else Err OtherEvent
    | Close | Unselect | Expunge _ | Search _ | Fetch _ | Store _ | Copy _ | Move _ | Check_
    | Sort _ | Thread _ =>
        match state s with
        | Selected _ mailbox =>
            if is_select mailbox
               || negb match c with Store _ | Expunge _ | Move _ => true | _ => false end
            then Ok () else Err OtherEvent
        | _ => Err OtherEvent
        end
    end.

(** Whether the session goes on after the error was reported. *)
Definition write_error (a : Answers) (e : Failure) : bool :=
  if should_write_err e then
    match write a with
    | Ok _ => negb (must_disconnect e)
    | Err _ => false
    end
  else false.

(** The first loop of [ingest]: the requests of the chunk that are admitted, and
    whether a literal is asked for; [None] when the session closes.  [ans i] are
    the answers to the [i]th request of the chunk. *)
Fixpoint collect (fuel : nat) (ans : nat → Answers) (i : nat) (input : bytes) (s : Session)
    : option (list (Request Command * Answers) * bool) * Session :=
  let '(outcome, r, rest) := parse input (receiver s) in
  let s := {| receiver := r; version := version s; state := state s; is_tls := is_tls s;
              is_condstore := is_condstore s; is_qresync := is_qresync s |} in
  match outcome with
  | Ok q =>
      match is_allowed s (ans i) (command q), fuel with
      | Ok _, S fuel =>
          match collect fuel ans (S i) rest s with
          | (Some (qs, literal), s) => (Some ((q, ans i) :: qs, literal), s)
          | r => r
          end
      | Err e, S fuel =>
          if write_error (ans i) e then collect fuel ans (S i) rest s else (None, s)
      | _, O => (None, s)
      end
  | Err NeedsMoreData => (Some ([], false), s)
  | Err (NeedsLiteral _) => (Some ([], true), s)
  | Err (ParseError _ _) =>
      if negb (is_authenticated (state s)) && scanner (ans i) then (None, s)
      else if write_error (ans i) OtherEvent then (Some ([], false), s) else (None, s)
  end.

(** The requests that follow with the same command, taken with the first. *)
Fixpoint group_requests (c : Command) (qs : list (Request Command * Answers))
    : list (Request Command * Answers) * list (Request Command * Answers) :=
  match qs with
  | q :: rest =>
      if bool_decide (command q.1 = c)
      then let '(grouped, rest) := group_requests c rest in (q :: grouped, rest)
      else ([], qs)
  | [] => ([], [])
  end.

Definition grouped (c : Command) : bool := match c with Create | Delete => true | _ => false end.

(** The second loop of [ingest]. *)
Fixpoint execute (fuel : nat) (qs : list (Request Command * Answers)) (s : Session)
    : option (SessionResult * Session * list Effect) :=
  match qs, fuel with
  | (q, a) :: qs, S fuel =>
      let qs := if grouped (command q) then (group_requests (command q) qs).2 else qs in
      match handle q a s with
      | None => None
      | Some (outcome, s, l) =>
          match (match outcome with
                 | Ok Continue => None
                 | Ok r => Some r
                 | Err e => if write_error a e then None else Some CloseSession
                 end) with
          | Some r => Some (r, s, l)
          | None =>
              match execute fuel qs s with
              | Some (r, s, l') => Some (r, s, l ++ l')
              | None => None
              end
          end
      end
  | _, _ => Some (Continue, s, [])
  end.

Definition ingest (ans : nat → Answers) (literal_write : result Failure ()) (input : bytes)
    (s : Session) : option (SessionResult * Session * list Effect) :=
  match collect (S (length input)) ans 0 input s with
  | (None, s) => Some (CloseSession, s, [])
  | (Some (qs, literal), s) =>
      match execute (length qs) qs s with
      | Some (Continue, s, l) =>
          match literal, literal_write with
          | true, Err _ => Some (CloseSession, s, l)
          | _, _ => Some (Continue, s, l)
          end
      | r => r
      end
  end.

(** ** Connections *)

Definition session_new (tls : bool) : Session := {|
  receiver := with_max_request_size (imap_max_request_size config);
  version := Rev1;
  state := NotAuthenticated 0;
  is_tls := tls;
  is_condstore := false;
  is_qresync := false;
|}.

Definition into_tls (s : Session) : Session := {|
  receiver := receiver s; version := version s; state := state s; is_tls := true;
  is_condstore := is_condstore s; is_qresync := is_qresync s |}.

(** [handle_conn] over the chunks the client sends, with the answers each meets;
    [true] asks for the upgrade to TLS. *)
Record Chunk := {
  chunk_bytes : bytes;
  chunk_answers : nat → Answers;
  chunk_literal : result Failure ();
}.

Fixpoint handle_conn (chunks : list Chunk) (s : Session) : option (bool * Session * list Effect) :=
  match chunks with
  | [] => Some (false, s, [])
  | c :: chunks =>
      match ingest (chunk_answers c) (chunk_literal c) (chunk_bytes c) s with
      | None => None
      | Some (Continue, s, l) =>
          match handle_conn chunks s with
          | Some (r, s, l') => Some (r, s, l ++ l')
          | None => None
          end
      | Some (UpgradeTls, s, l) => Some (true, s, l)
      | Some (CloseSession, s, l) => Some (false, s, l)
      end
  end.
End Session.

(** ** What a session promises *)

(** The commands that move the session to another state. *)
Definition changes_state (c : Command) : bool :=
  match c with
  | Select | Examine | Close | Unselect | Authenticate | Login | Unauthenticate => true
  | _ => false
  end.

(** The operations that alter the messages of the selected mailbox; that of CLOSE
    is its expunge. *)
Definition alters_mailbox (c : Command) : bool :=
  match c with Store _ | Expunge _ | Move _ | Close => true | _ => false end.

(** Messages are altered in mailboxes that were opened for writing only. *)
Definition writes_selected (e : Effect) : Prop :=
  alters_mailbox (operation e) = true → is_select <$> target e = Some true.

(** The permission an operation asks for. *)
Definition permission_of (c : Command) : option Permission :=
  match c with
  | List_ => Some ImapList
  | Lsub => Some ImapLsub
  | Create => Some ImapCreate
  | Delete => Some ImapDelete
  | Rename => Some ImapRename
  | Status => Some ImapStatus
  | Append => Some ImapAppend
  | Expunge _ => Some ImapExpunge
  | Search _ => Some ImapSearch
  | Fetch _ => Some ImapFetch
  | Store _ => Some ImapStore
  | Copy _ => Some ImapCopy
  | Move _ => Some ImapMove
  | Sort _ => Some ImapSort
  | Thread _ => Some ImapThread
  | Idle => Some ImapIdle
  | Subscribe | Unsubscribe => Some ImapSubscribe
  | SetAcl | DeleteAcl => Some ImapAclSet
  | GetAcl => Some ImapAuthenticate
  | MyRights => Some ImapMyRights
  | _ => None
  end.

(** The operation acts for an account that [G] holds, within its permissions. *)
Definition permitted (G : SessionData → Prop) (e : Effect) : Prop :=
  G (account e) ∧
  match permission_of (operation e) with
  | Some p => has_permission (account e) p = true
  | None => True
  end.

Definition state_ok (config : Config) (G : SessionData → Prop) (st : State) : Prop :=
  match st with
  | NotAuthenticated n => 0 ≤ n ≤ max_auth_failures config
  | Authenticated data | Selected data _ => G data
  end.

(** No request but the last of the chunk may move the session. *)
Definition chunk_steady (config : Config) (c : Chunk) (s : Session) : bool :=
  match collect config (S (length (chunk_bytes c))) (chunk_answers c) 0 (chunk_bytes c) s with
  | (Some (qs, _), _) => forallb (λ q, negb (changes_state (command q.1))) (removelast qs)
  | (None, _) => true
  end.

Fixpoint conn_steady (config : Config) (chunks : list Chunk) (s : Session) : bool :=
  match chunks with
  | [] => true
  | c :: chunks =>
      chunk_steady config c s
      && match ingest config (chunk_answers c) (chunk_literal c) (chunk_bytes c) s with
         | Some (Continue, s, _) => conn_steady config chunks s
         | _ => true
         end
  end.

(** The accounts the directory let in during the connection. *)
Definition let_in (chunks : list Chunk) (data : SessionData) : Prop :=
  ∃ c i, c ∈ chunks ∧ auth (chunk_answers c i) = AuthToken data
         ∧ has_permission data ImapAuthenticate = true.

(** ** A program logic for the handlers *)

(** [wp p E m Q s]: a panic needs [p], the operations started satisfy [E], the
    outcome and the session after it [Q]. *)
Definition wp {A} (p : Prop) (E : Effect → Prop) (m : H A)
    (Q : result Failure A → Session → Prop) (s : Session) : Prop :=
  match m s with
  | Some (r, s, l) => Q r s ∧ Forall E l
  | None => p
  end.

Section Wp.
Context (p : Prop) (E : Effect → Prop).

Lemma wp_bind {A B} (m : H A) (k : A → H B) Q s :
  wp p E m (λ r s, match r with Ok a => wp p E (k a) Q s | Err e => Q (Err e) s end) s →
  wp p E (m ≫= k) Q s.
Proof.
  unfold wp, mbind, h_bind. destruct (m s) as [[[[a|e] s'] l]|]; [|done..].
  destruct (k a s') as [[[r s''] l']|]; [|tauto]. rewrite Forall_app. tauto.
Qed.

Lemma wp_mono {A} (m : H A) (Q Q' : result Failure A → Session → Prop) s :
  (∀ r s, Q r s → Q' r s) → wp p E m Q s → wp p E m Q' s.
Proof. unfold wp. intros HQ. destruct (m s) as [[[r s'] l]|]; [|done]. intros []. auto. Qed.

Lemma wp_ret {A} (a : A) Q s : Q (Ok a) s → wp p E (mret a) Q s.
Proof. by intros. Qed.

Lemma wp_lift {A} (r : result Failure A) Q s : Q r s → wp p E (lift r) Q s.
Proof. by intros. Qed.

Lemma wp_throw {A} e (Q : result Failure A → Session → Prop) s : Q (Err e) s → wp p E (throw e) Q s.
Proof. by intros. Qed.

Lemma wp_get Q s : Q (Ok s) s → wp p E get_session Q s.
Proof. by intros. Qed.

Lemma wp_reached {A} (o : option A) Q s :
  match o with Some a => Q (Ok a) s | None => p end → wp p E (reached o) Q s.
Proof. unfold wp, reached. by destruct o. Qed.

Lemma wp_spawn c d m Q s :
  E {| operation := c; account := d; target := m |} → Q (Ok ()) s → wp p E (spawn c d m) Q s.
Proof. unfold wp. simpl. auto. Qed.

Lemma wp_put_state st Q s :
  Q (Ok ()) {| receiver := receiver s; version := version s; state := st; is_tls := is_tls s;
               is_condstore := is_condstore s; is_qresync := is_qresync s |} →
  wp p E (put_state st) Q s.
Proof. by intros. Qed.

Lemma wp_put_receiver r Q s :
  Q (Ok ()) {| receiver := r; version := version s; state := state s; is_tls := is_tls s;
               is_condstore := is_condstore s; is_qresync := is_qresync s |} →
  wp p E (put_receiver r) Q s.
Proof. by intros. Qed.

Lemma wp_put_enabled v c r Q s :
  Q (Ok ()) {| receiver := receiver s; version := v; state := state s; is_tls := is_tls s;
               is_condstore := c; is_qresync := r |} →
  wp p E (put_enabled v c r) Q s.
Proof. by intros. Qed.

Lemma wp_permission perm (Q : result Failure () → Session → Prop) s :
  ((∀ data, session_data (state s) = Some data → has_permission data perm = true) → Q (Ok ()) s) →
  Q (Err SecurityEvent) s →
  wp p E (assert_has_permission perm) Q s.
Proof.
  intros Hok Herr. unfold wp, assert_has_permission, mbind, h_bind, get_session.
  destruct (session_data (state s)) as [data|] eqn:Hd.
  - destruct (has_permission data perm) eqn:Hp; (split; [|constructor]); [|done].
    apply Hok. congruence.
  - split; [|constructor]. apply Hok. congruence.
Qed.
End Wp.

(** One step of a handler: the sequencing, then the primitive at its head. *)
Ltac wp_step :=
  match goal with
  | |- wp _ _ (_ ≫= _) _ _ => apply wp_bind
  | |- wp _ _ (mret _) _ _ => apply wp_ret
  | |- wp _ _ (lift ?r) _ _ => apply wp_lift; try destruct r
  | |- wp _ _ (write_bytes ?a) _ _ => apply wp_lift; try destruct (write a)
  | |- wp _ _ (throw _) _ _ => apply wp_throw
  | |- wp _ _ get_session _ _ => apply wp_get
  | |- wp _ _ (reached _) _ _ => apply wp_reached
  | |- wp _ _ (spawn _ _ _) _ _ => apply wp_spawn
  | |- wp _ _ (put_state _) _ _ => apply wp_put_state
  | |- wp _ _ (put_receiver _) _ _ => apply wp_put_receiver
  | |- wp _ _ (put_enabled _ _ _) _ _ => apply wp_put_enabled
  | |- wp _ _ (assert_has_permission _) _ _ => apply wp_permission
  | |- wp _ _ (match ?x with _ => _ end) _ _ => destruct x eqn:?
  end.

Ltac unfold_handlers :=
  unfold handle_list, handle_select, handle_create, handle_delete, handle_rename, handle_status,
    handle_append, handle_close, handle_unselect, handle_expunge, handle_search, handle_fetch,
    handle_store, handle_copy_move, handle_thread, handle_idle, handle_subscribe, handle_namespace,
    handle_authenticate, handle_login, authenticate, handle_capability, handle_enable, handle_noop,
    handle_logout, handle_set_acl, handle_get_acl, handle_list_rights, handle_my_rights,
    handle_unauthenticate, handle_id, on_account, on_mailbox.

(** Runs a handler in a state known by [Hst]. *)
Ltac wp_run Hst :=
  repeat (first [progress intros
                | progress (rewrite Hst; cbn [session_data select_data mailbox_state
                    session_mailbox_state get_auth_failures fst snd])
                | progress (cbn beta iota; cbn [state is_tls]) | wp_step]).

Section Safety.
Context (config : Config).

(** *** Admitted commands find the state they rely on *)

(** What [is_allowed] guarantees of the state, by the command. *)
Definition admitted (c : Command) (st : State) : Prop :=
  match c with
  | ImapCommand.Capability | Noop | Logout | Id | StartTls => True
  | Authenticate | Login => is_authenticated st = false
  | Enable | Select | Examine | Create | Delete | Rename | Subscribe | Unsubscribe | List_ | Lsub
  | Namespace | Status | Append | Idle | SetAcl | DeleteAcl | GetAcl | ListRights | MyRights
  | Unauthenticate => is_authenticated st = true
  | Store _ | Expunge _ | Move _ => ∃ data mailbox, st = Selected data mailbox ∧ is_select mailbox = true
  | _ => ∃ data mailbox, st = Selected data mailbox
  end.

Lemma is_allowed_admitted s a c :
  is_allowed config s a c = Ok () → admitted c (state s).
Proof.
  unfold is_allowed, mbind, result_bind.
  destruct (if is_authenticated (state s) then _ else _) as [[]|e]; [done| |done].
  destruct (state s) as [n|data|data mailbox], c; cbn; try done; eauto;
    destruct (is_select mailbox) eqn:?; cbn; try done; eauto.
Qed.

(** *** A handler that was admitted *)

(** It does not panic, alters messages in writable mailboxes only, and keeps the
    state unless it is one of the commands that move it. *)
Lemma handle_safe q a s :
  admitted (command q) (state s) →
  wp False writes_selected (handle config q a)
    (λ _ s', is_tls s' = is_tls s ∧ (changes_state (command q) = false → state s' = state s)) s.
Proof.
  intros Hadm. unfold handle. apply wp_bind. apply wp_mono with
    (λ _ s', is_tls s' = is_tls s ∧ (changes_state (command q) = false → state s' = state s)).
  { intros [[]|e] s' Hs'; [apply wp_ret|]; done. }
  destruct (command q) eqn:Hc; cbn in Hadm;
    try (destruct Hadm as (data & mailbox & Hst & Hsel)); try (destruct Hadm as (data & mailbox & Hst));
    try (destruct (state s) as [n|data|data mailbox] eqn:Hst; try discriminate Hadm).
  all: unfold_handlers.
  all: wp_run Hst.
  all: try (split; [done|intros; simplify_eq/=; congruence]).
  all: intros Halt; simplify_eq/=; congruence.
Qed.

(** Whatever state it runs in, it acts for an account that was let in and within
    its permissions. *)
Lemma handle_permitted (G : SessionData → Prop) q a s :
  0 ≤ max_auth_failures config →
  (∀ data, auth a = AuthToken data → has_permission data ImapAuthenticate = true → G data) →
  state_ok config G (state s) →
  wp True (permitted G) (handle config q a) (λ _ s', state_ok config G (state s')) s.
Proof.
  intros Hmax HG Hok. unfold handle. apply wp_bind.
  apply wp_mono with (λ _ s', state_ok config G (state s')).
  { intros [[]|e] s' Hs'; [apply wp_ret|]; done. }
  destruct (state s) as [n|data|data mailbox] eqn:Hst; cbn in Hok; destruct (command q) eqn:Hc.
  all: unfold_handlers.
  all: wp_run Hst.
  all: try (rewrite ?Hst; cbn; first [done | lia | by auto | case_bool_decide; lia]).
  all: try (split; [done|cbn]; match goal with Hp : ∀ data, _ → has_permission data _ = true |- _ =>
    rewrite Hst in Hp; by eapply Hp end).
Qed.
(** *** The loops of [ingest] *)

Lemma parse_consumes input (r : Receiver Command) q r' rest :
  parse input r = (Ok q, r', rest) → (length rest < length input)%nat.
Proof using.
  revert r. induction input as [|ch input IH]; intros r; cbn; [done|].
  destruct (step ch r) as [[[q'|]|e] r'']; intros Hp; simplify_eq; [lia|].
  apply IH in Hp. lia.
Qed.

(** The fuel of [collect] is enough: every turn reads a byte. *)
Lemma collect_fuel f1 f2 ans i input s :
  (length input < f1)%nat → (length input < f2)%nat →
  collect config f1 ans i input s = collect config f2 ans i input s.
Proof.
  revert f2 i input s. induction f1 as [|f1 IH]; intros [|f2] i input s H1 H2; [lia..|].
  cbn [collect]. destruct (parse input (receiver s)) as [[[q|e] r] rest] eqn:Hp; [|done].
  apply parse_consumes in Hp. by rewrite (IH f2) by lia.
Qed.

Lemma collect_spec fuel ans i input s o s' :
  collect config fuel ans i input s = (o, s') →
  state s' = state s ∧ is_tls s' = is_tls s ∧
  match o with
  | Some (qs, _) =>
      Forall (λ x, is_allowed config s x.2 (command x.1) = Ok () ∧ ∃ j, x.2 = ans j) qs
  | None => True
  end.
Proof.
  revert i input s o s'. induction fuel as [|fuel IH]; intros i input s o s'; cbn [collect];
    destruct (parse input (receiver s)) as [[[q|[]] r] rest];
    try (repeat case_match; intros; simplify_eq/=; done).
  set (s1 := Build_Session _ _ _ _ _ _).
  change (is_allowed config s1) with (is_allowed config s). destruct (is_allowed config s (ans i) (command q)) as [[]|e] eqn:Ha.
  - destruct (collect config fuel ans (S i) rest s1) as [[[qs lit]|] s2] eqn:Hrec;
      intros [= <- <-]; destruct (IH _ _ _ _ _ Hrec) as (Hst & Htls & Hqs);
      split_and!; try done. constructor; [by eauto|done].
  - destruct (write_error (ans i) e); [|by intros [= <- <-]].
    intros Hrec. by destruct (IH _ _ _ _ _ Hrec) as (Hst & Htls & Hqs).
Qed.

Lemma group_requests_suffix c qs : ∃ pre, qs = pre ++ (group_requests c qs).2.
Proof using.
  induction qs as [|q qs [pre IH]]; [by exists []|]. cbn. case_bool_decide; [|by exists []].
  destruct (group_requests c qs) as [g rest]. exists (q :: pre). cbn in *. congruence.
Qed.

Lemma group_requests_length c qs : (length (group_requests c qs).2 ≤ length qs)%nat.
Proof using.
  destruct (group_requests_suffix c qs) as [pre Heq].
  apply (f_equal length) in Heq. rewrite length_app in Heq. lia.
Qed.

(** The fuel of [execute] is enough: every turn serves a request. *)
Lemma execute_fuel f qs s :
  (length qs ≤ f)%nat → execute config f qs s = execute config (length qs) qs s.
Proof.
  enough (Hgen : ∀ f1 f2 qs s, (length qs ≤ f1)%nat → (length qs ≤ f2)%nat →
    execute config f1 qs s = execute config f2 qs s) by (intros; by apply Hgen).
  clear f qs s. induction f1 as [|f1 IH]; intros [|f2] [|[q a] qs] s H1 H2; cbn in H1, H2;
    try lia; try done.
  cbn [execute]. destruct (handle config q a s) as [[[r s1] l]|]; [|done].
  destruct (match r with Ok Continue => None | Ok _ => _ | Err _ => _ end); [done|].
  rewrite (IH f2); [done|..]; destruct (grouped _);
    pose proof (group_requests_length (command q) qs); lia.
Qed.

(** The requests left after one of them, with what is known of them. *)
Definition rest_of (q : Request Command) (qs : list (Request Command * Answers)) :=
  if grouped (command q) then (group_requests (command q) qs).2 else qs.

Lemma rest_of_suffix q qs : ∃ pre, qs = pre ++ rest_of q qs.
Proof using.
  unfold rest_of. destruct (grouped _); [apply group_requests_suffix|by exists []].
Qed.

Lemma removelast_suffix {A} (P : A → Prop) pre qs :
  Forall P (removelast (pre ++ qs)) → Forall P (removelast qs).
Proof using.
  destruct (decide (qs = [])) as [->|Hne]; [done|].
  rewrite removelast_app, Forall_app by done. tauto.
Qed.

Lemma execute_safe fuel qs s :
  Forall (λ x, admitted (command x.1) (state s)) qs →
  Forall (λ x, changes_state (command x.1) = false) (removelast qs) →
  ∃ r s' l, execute config fuel qs s = Some (r, s', l) ∧ Forall writes_selected l.
Proof.
  revert qs s. induction fuel as [|fuel IH]; intros [|[q a] qs] s Hadm Hsteady; [by do 3 eexists..|].
  apply Forall_cons in Hadm as [Hq Hadm]. cbn [execute]. fold (rest_of q qs).
  pose proof (handle_safe q a s Hq) as Hsafe. unfold wp in Hsafe.
  destruct (handle config q a s) as [[[r s1] l]|]; [|done].
  destruct Hsafe as [[_ Hkeep] Hl].
  destruct (match r with Ok Continue => None | Ok _ => _ | Err _ => _ end); [by eauto|].
  destruct (rest_of_suffix q qs) as [pre Hpre].
  destruct (IH (rest_of q qs) s1) as (r' & s' & l' & -> & Hl').
  - destruct (decide (qs = [])) as [->|Hne]; [by destruct pre, (rest_of q [])|].
    destruct qs as [|x qs]; [done|]. apply Forall_cons in Hsteady as [Hsteady _].
    rewrite (Hkeep Hsteady). rewrite Hpre in Hadm. by apply Forall_app in Hadm as [_ ?].
  - apply (removelast_suffix _ ((q, a) :: pre)). by rewrite <- app_comm_cons, <- Hpre.
  - do 3 eexists. split; [done|]. by apply Forall_app.
Qed.

Lemma ingest_safe c s :
  chunk_steady config c s = true →
  ∃ r s' l, ingest config (chunk_answers c) (chunk_literal c) (chunk_bytes c) s = Some (r, s', l)
            ∧ Forall writes_selected l.
Proof.
  unfold chunk_steady, ingest.
  destruct (collect _ _ _ _ _ _) as [[[qs literal]|] s1] eqn:Hc; [|by eauto].
  intros Hsteady. apply collect_spec in Hc as (Hst & _ & Hqs).
  destruct (execute_safe (length qs) qs s1) as (r & s' & l & -> & Hl).
  - eapply Forall_impl; [exact Hqs|]. intros x [Hx _]. rewrite Hst. by eapply is_allowed_admitted.
  - apply Is_true_true, forallb_True in Hsteady. eapply Forall_impl; [exact Hsteady|].
    intros x. cbn. by destruct (changes_state _).
  - destruct r; [destruct literal, (chunk_literal c)|..]; by eauto.
Qed.

Lemma execute_permitted (G : SessionData → Prop) fuel qs s r s' l :
  0 ≤ max_auth_failures config →
  Forall (λ x, ∀ data, auth x.2 = AuthToken data → has_permission data ImapAuthenticate = true →
               G data) qs →
  state_ok config G (state s) →
  execute config fuel qs s = Some (r, s', l) →
  state_ok config G (state s') ∧ Forall (permitted G) l.
Proof.
  intros Hmax. revert qs s r s' l.
  induction fuel as [|fuel IH]; intros [|[q a] qs] s r s' l HG Hok He; cbn [execute] in He;
    simplify_eq; try done. fold (rest_of q qs) in He.
  apply Forall_cons in HG as [Hq HG].
  pose proof (handle_permitted G q a s Hmax Hq Hok) as Hp. unfold wp in Hp.
  destruct (handle config q a s) as [[[r1 s1] l1]|]; [|done]. destruct Hp as [Hok1 Hl1].
  destruct (match r1 with Ok Continue => None | Ok _ => _ | Err _ => _ end); [by simplify_eq|].
  destruct (execute config fuel (rest_of q qs) s1) as [[[r2 s2] l2]|] eqn:He2; [|done].
  simplify_eq. destruct (rest_of_suffix q qs) as [pre Hpre]. rewrite Hpre in HG.
  apply Forall_app in HG as [_ HG]. apply IH in He2 as [Hok2 Hl2]; [|done..].
  split; [done|]. by apply Forall_app.
Qed.

Lemma ingest_permitted (G : SessionData → Prop) c s r s' l :
  0 ≤ max_auth_failures config →
  (∀ data, let_in [c] data → G data) →
  state_ok config G (state s) →
  ingest config (chunk_answers c) (chunk_literal c) (chunk_bytes c) s = Some (r, s', l) →
  state_ok config G (state s') ∧ Forall (permitted G) l.
Proof.
  intros Hmax HG Hok. unfold ingest.
  destruct (collect _ _ _ _ _ _) as [[[qs literal]|] s1] eqn:Hc;
    apply collect_spec in Hc as (Hst & _ & Hqs); rewrite <- Hst in Hok; [|by intros [= <- <- <-]].
  destruct (execute config (length qs) qs s1) as [[[r2 s2] l2]|] eqn:He; [|done].
  apply (execute_permitted G) in He; [|done| |done].
  - destruct r2; [destruct literal, (chunk_literal c)|..]; by intros [= <- <- <-].
  - eapply Forall_impl; [exact Hqs|]. intros x (_ & j & Hj) data Ha Hp. apply HG.
    exists c, j. rewrite <- Hj. split_and!; [set_solver|done|done].
Qed.

(** ** Properties *)

(** C6. As long as no request but the last of a chunk moves the session to another
    state (in particular when the client waits for each answer), no handler reaches
    an [unreachable!()], and STORE, EXPUNGE, MOVE and the expunge of CLOSE run in
    mailboxes that were opened with SELECT only. *)
Theorem session_safe chunks s :
  conn_steady config chunks s = true →
  ∃ upgrade s' l, handle_conn config chunks s = Some (upgrade, s', l) ∧ Forall writes_selected l.
Proof.
  revert s. induction chunks as [|c chunks IH]; intros s; cbn [conn_steady handle_conn]; [by eauto|].
  rewrite andb_true_iff. intros [Hc Hrest].
  destruct (ingest_safe c s Hc) as (r & s1 & l & Hi & Hl). rewrite Hi in Hrest |- *.
  destruct r; [|by eauto..]. destruct (IH s1 Hrest) as (u & s2 & l2 & -> & Hl2).
  do 3 eexists. split; [done|]. by apply Forall_app.
Qed.

End Safety.

(** ** Concrete sessions *)

Module SessionExample.
Definition config : Config := {|
  acceptor_is_tls := true; allow_plain_auth := false; max_auth_failures := 3;
  imap_max_request_size := 8192 |}.
Definition alice : SessionData := {| account_id := 1; has_permission _ := true |}.
Definition answers : Answers := {|
  rate := Ok false;
  arguments := Ok {| separator_query := false; arg_condstore := false; arg_qresync := None;
                     changed_since := false; wants_modseq := false; capabilities := [] |};
  synchronize := Ok (); mailbox_by_name := Some 7; load := Ok (); acl := Ok true; ids := Ok ();
  expunged := Ok (); changes := Ok (); idle := Ok (); sasl := true; auth_soft := Ok ();
  auth := AuthToken alice; limited := false; new_session := Ok (); scanner := false; write := Ok () |}.
Definition chunk (lines : list string) : Chunk := {|
  chunk_bytes := lines ≫= (λ l, str l ++ [13; 10]);
  chunk_answers _ := answers;
  chunk_literal := Ok () |}.
Definition inbox (rw : bool) : SelectedMailbox := {|
  mailbox_id := 7; is_select := rw; mailbox_condstore := false |}.
Definition in_state (st : State) : Session := {|
  receiver := with_max_request_size 8192; version := Rev1; state := st; is_tls := true;
  is_condstore := false; is_qresync := false |}.
Definition conversation : list Chunk :=
  [chunk ["a LOGIN alice secret"]%string; chunk ["b SELECT inbox"]%string;
   chunk ["c STORE 1 +FLAGS (\Deleted)"; "d EXPUNGE"; "e CLOSE"]%string; chunk ["f NOOP"]%string].

Lemma session_safe_witness :
  ∃ upgrade s' l, handle_conn config conversation (session_new config true) = Some (upgrade, s', l)
                  ∧ Forall writes_selected l.
Proof. apply (session_safe config conversation (session_new config true)). vm_compute. reflexivity. Defined.


(** Requests are admitted in the state before the chunk and run one after the
    other: a CLOSE and a FETCH sent together reach an [unreachable!()], a second
    LOGIN that fails does as well, and a STORE sent with an EXAMINE alters the
    mailbox that was opened read-only. *)
Theorem pipelining_unsafe :
  (let c := chunk ["a CLOSE"; "b FETCH 1 FLAGS"]%string in
   ingest config (chunk_answers c) (Ok ()) (chunk_bytes c) (in_state (Selected alice (inbox true))) = None)
  ∧ (let c := chunk ["a LOGIN alice secret"; "b LOGIN bob guess"]%string in
     ingest config (λ i, if (i =? 0)%nat then answers else
       {| rate := rate answers; arguments := arguments answers; synchronize := synchronize answers;
          mailbox_by_name := mailbox_by_name answers; load := load answers; acl := acl answers;
          ids := ids answers; expunged := expunged answers; changes := changes answers;
          idle := idle answers; sasl := true; auth_soft := Ok (); auth := AuthFailed;
          limited := false; new_session := Ok (); scanner := false; write := Ok () |})
       (Ok ()) (chunk_bytes c) (session_new config true) = None)
  ∧ (let c := chunk ["a EXAMINE inbox"; "b STORE 1 +FLAGS (\Deleted)"]%string in
     ingest config (chunk_answers c) (Ok ()) (chunk_bytes c) (in_state (Selected alice (inbox true)))
     = Some (Continue, in_state (Selected alice (inbox false)),
             [{| operation := Store false; account := alice; target := Some (inbox false) |}])).
Proof. vm_compute. repeat split; reflexivity. Qed.

(** A session that may not expunge (neither by its permissions nor by the rights on
    the mailbox) expunges with CLOSE. *)
Lemma close_expunges_unchecked :
  let guest := {| account_id := 2;
                  has_permission p := match p with ImapExpunge => false | _ => true end |} in
  let a := {| rate := Ok false; arguments := arguments answers; synchronize := Ok ();
              mailbox_by_name := Some 7; load := Ok (); acl := Ok false; ids := Ok ();
              expunged := Ok (); changes := Ok (); idle := Ok (); sasl := true; auth_soft := Ok ();
              auth := AuthFailed; limited := false; new_session := Ok (); scanner := false;
              write := Ok () |} in
  let s := in_state (Selected guest (inbox true)) in
  handle_expunge a false s = Some (Err SecurityEvent, s, [])
  ∧ handle_close a s
    = Some (Ok (), in_state (Authenticated guest),
            [{| operation := Close; account := guest; target := Some (inbox true) |}]).
Proof. vm_compute. by split. Qed.

(** With plain-text logins disabled, LOGIN is refused on a connection without TLS and
    AUTHENTICATE PLAIN is served. *)
Lemma authenticate_in_clear :
  is_allowed config (session_new config false) answers Login = Err OtherEvent
  ∧ (let c := chunk ["a AUTHENTICATE PLAIN AGFsaWNlAHNlY3JldA=="]%string in
     ∃ s, ingest config (chunk_answers c) (Ok ()) (chunk_bytes c) (session_new config false)
          = Some (Continue, s, []) ∧ is_tls s = false ∧ state s = Authenticated alice).
Proof. vm_compute. split; [done|]. by eexists. Qed.

(** What was sent in clear behind a STARTTLS line and is not a complete line is the
    beginning of the first command read through TLS. *)
Lemma starttls_keeps_partial :
  let clear := str "a STARTTLS" ++ [13; 10] ++ str "x LOGIN mallory " in
  let tls := str "secret" ++ [13; 10] in
  ∃ s, ingest config (λ _, answers) (Ok ()) clear (session_new config false) = Some (UpgradeTls, s, [])
    ∧ (parse tls (receiver (into_tls s))).1.1
      = Ok {| tag := str "x"; command := Login;
              tokens := [TArgument (str "mallory"); TArgument (str "secret")] |}.
Proof. vm_compute. eexists. split; reflexivity. Qed.
End SessionExample.
