(* ===== verification/ImapSequence.v ===== *)
(** * IMAP sequence sets

    [parse_number] and [parse_sequence_set] of crates/imap-proto/src/parser/mod.rs,
    [Sequence] and [serialize_sequence] of crates/imap-proto/src/protocol/mod.rs. *)

From S2P Require Import Prelude Utf8 Decimal.

#[local] Open Scope chr_scope.

(** ** Data *)

Inductive Sequence :=
| Number (value : Z)
| Range (start end_ : option Z)
| SavedSearch
| List_ (items : list Sequence).

Inductive SequenceError :=
| NotANumber
| NumberBeforeColon
| ColonTwice
| InvalidStar
| StarTwice
| AfterDollar
| InvalidCharacter (ch : Z) (pos : nat)
| ExpectedNumber
| SliceError
| EmptySet.

(** ** The set a sequence stands for *)

Fixpoint contains (s : Sequence) (value max_value : Z) : bool :=
  match s with
  | Number number => number =? value
  | Range start end_ =>
      match start, end_ with
      | Some start, Some end_ =>
          (start <=? value) && (value <=? end_) || (end_ <=? value) && (value <=? start)
      | Some range, None | None, Some range =>
          (range <=? value) && (value <=? max_value) || (max_value <=? value) && (value <=? range)
      | None, None => value =? max_value
      end
  | List_ items => existsb (λ item, contains item value max_value) items
  | SavedSearch => false
  end.

Fixpoint is_saved_search (s : Sequence) : bool :=
  match s with
  | SavedSearch => true
  | List_ items => existsb is_saved_search items
  | _ => false
  end.

(** [start..=end] *)
Definition inclusive (start end_ : Z) : gset Z := list_to_set (seqZ start (end_ - start + 1)).

Definition expand_range (start end_ : option Z) (max_value : Z) : gset Z :=
  let start := default max_value start in
  let end_ := default max_value end_ in
  match start ?= end_ with
  | Eq => {[start]}
  | Lt => inclusive start end_
  | Gt => inclusive end_ start
  end.

Definition expand (s : Sequence) (max_value : Z) : gset Z :=
  match s with
  | Number value => {[value]}
  | List_ items =>
      foldl (λ result item,
        match item with
        | Number value => {[value]} ∪ result
        | Range start end_ => result ∪ expand_range start end_ max_value
        | _ => result
        end) ∅ items
  | Range start end_ => expand_range start end_ max_value
  | SavedSearch => ∅
  end.

(** ** The parser *)

Definition parse_number (w : Z) (value : bytes) : result SequenceError Z :=
  match from_utf8 value with
  | Some _ => ok_or NotANumber (parse_uint w value)
  | None => Err NotANumber
  end.

(** [value.get(from..to)] *)
Definition slice (value : bytes) (from to : nat) : option bytes :=
  if (from <=? to)%nat && (to <=? length value)%nat
  then Some (take (to - from) (drop from value)) else None.

Record SequenceState := {
  sequence_set : list Sequence;
  range_start : option Z;
  token_start : option nat;
  is_wildcard : bool;
  is_range : bool;
  saved_search : bool;
}.

Definition sequence_start : SequenceState := {|
  sequence_set := []; range_start := None; token_start := None;
  is_wildcard := false; is_range := false; saved_search := false |}.

(** The number between [token_start] and [pos]. *)
Definition token_number (value : bytes) (st : SequenceState) (pos : nat) : result SequenceError Z :=
  from ← ok_or ExpectedNumber (token_start st);
  text ← ok_or SliceError (slice value from pos);
  parse_number 32 text.

(** The [match ch]: the state and [add_token], or the result of an early return. *)
Definition scan (value : bytes) (pos : nat) (ch : Z) (st : SequenceState)
    : result SequenceError (SequenceState * bool + Sequence) :=
  if ch =? "," then Ok (inl (st, true))
  else if ch =? ":" then
    if negb (is_range st) then
      st ← match token_start st with
           | Some from =>
               text ← ok_or SliceError (slice value from pos);
               n ← parse_number 32 text;
               Ok {| sequence_set := sequence_set st; range_start := Some n; token_start := None;
                     is_wildcard := is_wildcard st; is_range := is_range st;
                     saved_search := saved_search st |}
           | None =>
               if is_wildcard st then
                 Ok {| sequence_set := sequence_set st; range_start := range_start st;
                       token_start := None; is_wildcard := false; is_range := is_range st;
                       saved_search := saved_search st |}
               else Err NumberBeforeColon
           end;
      Ok (inl ({| sequence_set := sequence_set st; range_start := range_start st;
                  token_start := token_start st; is_wildcard := is_wildcard st; is_range := true;
                  saved_search := saved_search st |}, false))
    else Err ColonTwice
  else if ch =? "*" then
    if negb (is_wildcard st) then
      if (length value =? 1)%nat then Ok (inr (Range None None))
      else if bool_decide (token_start st = None) then
        Ok (inl ({| sequence_set := sequence_set st; range_start := range_start st;
                    token_start := token_start st; is_wildcard := true; is_range := is_range st;
                    saved_search := saved_search st |}, false))
      else Err InvalidStar
    else Err StarTwice
  else if ch =? "$" then
    if match value !! S pos with None => true | Some c => c =? "," end then
      Ok (inl ({| sequence_set := sequence_set st; range_start := range_start st;
                  token_start := token_start st; is_wildcard := is_wildcard st;
                  is_range := is_range st; saved_search := true |}, false))
    else Err AfterDollar
  else if is_digit ch then
    if is_wildcard st then Err InvalidStar
    else
      Ok (inl ({| sequence_set := sequence_set st; range_start := range_start st;
                  token_start := Some (default pos (token_start st));
                  is_wildcard := is_wildcard st; is_range := is_range st;
                  saved_search := saved_search st |}, false))
  else Err (InvalidCharacter ch pos).

(** The end of a token, which is before [pos]. *)
Definition push_token (value : bytes) (pos : nat) (st : SequenceState)
    : result SequenceError SequenceState :=
  if is_range st then
    e ← (if negb (is_wildcard st) then Some <$> token_number value st pos else Ok None);
    Ok {| sequence_set := sequence_set st ++ [Range (range_start st) e]; range_start := None;
          token_start := None; is_wildcard := false; is_range := false;
          saved_search := saved_search st |}
  else if is_wildcard st then
    Ok {| sequence_set := sequence_set st ++ [Range None None]; range_start := range_start st;
          token_start := None; is_wildcard := false; is_range := false;
          saved_search := saved_search st |}
  else if saved_search st then
    Ok {| sequence_set := sequence_set st ++ [SavedSearch]; range_start := range_start st;
          token_start := None; is_wildcard := false; is_range := false; saved_search := false |}
  else
    n ← token_number value st pos;
    Ok {| sequence_set := sequence_set st ++ [Number n]; range_start := range_start st;
          token_start := None; is_wildcard := false; is_range := false;
          saved_search := saved_search st |}.

Fixpoint sequence_loop (value : bytes) (pos : nat) (rest : bytes) (st : SequenceState)
    : result SequenceError (list Sequence + Sequence) :=
  match rest with
  | [] => Ok (inl (sequence_set st))
  | ch :: rest =>
      r ← scan value pos ch st;
      match r with
      | inr s => Ok (inr s)
      | inl (st, add_token) =>
          st ← (if add_token || (pos =? length value - 1)%nat
                then push_token value (if negb add_token then S pos else pos) st
                else Ok st);
          sequence_loop value (S pos) rest st
      end
  end.

Definition parse_sequence_set (value : bytes) : result SequenceError Sequence :=
  r ← sequence_loop value 0 value sequence_start;
  match r with
  | inr s => Ok s
  | inl [s] => Ok s
  | inl [] => Err EmptySet
  | inl items => Ok (List_ items)
  end.

(** ** The printer *)

(** From the run [id..=range_id] that is open. *)
Fixpoint serialize_run (id range_id : Z) (ids : list Z) : bytes :=
  match ids with
  | next :: rest =>
      if next =? wrap 32 (range_id + 1)
      then serialize_run id (wrap 32 (range_id + 1)) rest
      else
        uint_to_string id
        ++ (if negb (range_id =? id) then str ":" ++ uint_to_string range_id else [])
        ++ str "," ++ serialize_run next next rest
  | [] =>
      uint_to_string id ++ (if negb (range_id =? id) then str ":" ++ uint_to_string range_id else [])
  end.

Definition serialize_sequence (ids : list Z) : bytes :=
  match ids with [] => [] | id :: ids => serialize_run id id ids end.

(** ** The grammar of sequence sets *)

Inductive Item :=
| INumber (n : Z)
| IStar
| IRange (a b : option Z)
| ISaved.

#[export] Instance item_eq_dec : EqDecision Item.
Proof. solve_decision. Defined.

Definition end_text (o : option Z) : bytes :=
  match o with Some n => uint_to_string n | None => str "*" end.

Definition item_text (i : Item) : bytes :=
  match i with
  | INumber n => uint_to_string n
  | IStar => str "*"
  | IRange a b => end_text a ++ str ":" ++ end_text b
  | ISaved => str "$"
  end.

Definition item_value (i : Item) : Sequence :=
  match i with
  | INumber n => Number n
  | IStar => Range None None
  | IRange a b => Range a b
  | ISaved => SavedSearch
  end.

Definition item_ok (i : Item) : Prop :=
  match i with
  | INumber n => fits 32 n
  | IStar | ISaved => True
  | IRange a b => from_option (fits 32) True a ∧ from_option (fits 32) True b
  end.

#[export] Instance item_ok_dec i : Decision (item_ok i).
Proof. destruct i as [n| |[a|] [b|]|]; cbn; apply _. Defined.

(** Items separated by commas. *)
Fixpoint set_text (items : list Item) : bytes :=
  match items with
  | [] => []
  | [i] => item_text i
  | i :: items => item_text i ++ str "," ++ set_text items
  end.

Definition set_value (items : list Item) : Sequence :=
  match item_value <$> items with [s] => s | l => List_ l end.

(** The maximal runs of consecutive ids. *)
Fixpoint runs (id range_id : Z) (ids : list Z) : list Item :=
  match ids with
  | next :: rest =>
      if next =? wrap 32 (range_id + 1) then runs id (wrap 32 (range_id + 1)) rest
      else (if range_id =? id then INumber id else IRange (Some id) (Some range_id)) :: runs next next rest
  | [] => [if range_id =? id then INumber id else IRange (Some id) (Some range_id)]
  end.

(** A sequence as the parser returns it: lists are not nested. *)
Definition is_list (s : Sequence) : bool := match s with List_ _ => true | _ => false end.
Definition flat (s : Sequence) : bool :=
  match s with List_ items => forallb (λ s, negb (is_list s)) items | _ => true end.

(** ** Scanning *)

Definition fresh (set : list Sequence) : SequenceState := {|
  sequence_set := set; range_start := None; token_start := None;
  is_wildcard := false; is_range := false; saved_search := false |}.

Definition with_token (from : nat) (st : SequenceState) : SequenceState := {|
  sequence_set := sequence_set st; range_start := range_start st; token_start := Some from;
  is_wildcard := is_wildcard st; is_range := is_range st; saved_search := saved_search st |}.

Definition with_wildcard (st : SequenceState) : SequenceState := {|
  sequence_set := sequence_set st; range_start := range_start st; token_start := token_start st;
  is_wildcard := true; is_range := is_range st; saved_search := saved_search st |}.

Definition in_range (set : list Sequence) (start : option Z) : SequenceState := {|
  sequence_set := set; range_start := start; token_start := None;
  is_wildcard := false; is_range := true; saved_search := false |}.

(** The end of an item: the end of the text or a comma. *)
Definition close (value : bytes) (pos : nat) (rest : bytes) (st : SequenceState) :=
  st ← push_token value pos st;
  match rest with
  | [] => Ok (inl (sequence_set st))
  | _ :: rest => sequence_loop value (S pos) rest st
  end.

Definition ends (rest : bytes) : Prop := match rest with [] => True | c :: _ => c = "," end.

Section Scan.
Context (value : bytes).

Lemma scan_digit pos ch st :
  is_digit ch = true → is_wildcard st = false →
  scan value pos ch st = Ok (inl (with_token (default pos (token_start st)) st, false)).
Proof using.
  intros Hd Hw. pose proof Hd as Hr. apply is_digit_range in Hr. unfold scan.
  rewrite !(proj2 (Z.eqb_neq _ _)) by lia. rewrite Hd. unfold with_token. by rewrite Hw.
Qed.

Lemma loop_cons pos ch rest st :
  sequence_loop value pos (ch :: rest) st
  = r ← scan value pos ch st;
    match r with
    | inr s => Ok (inr s)
    | inl (st, add_token) =>
        st ← (if add_token || (pos =? length value - 1)%nat
              then push_token value (if negb add_token then S pos else pos) st
              else Ok st);
        sequence_loop value (S pos) rest st
    end.
Proof using. done. Qed.

Lemma loop_comma pos rest st :
  sequence_loop value pos ("," :: rest) st
  = st ← push_token value pos st; sequence_loop value (S pos) rest st.
Proof using. done. Qed.

Lemma loop_digits pre ds rest st :
  value = pre ++ ds ++ rest → Forall (λ b, is_digit b = true) ds → ds ≠ [] → is_wildcard st = false →
  sequence_loop value (length pre) (ds ++ rest) st
  = (if bool_decide (rest = [])
     then close value (length value) [] (with_token (default (length pre) (token_start st)) st)
     else sequence_loop value (length pre + length ds) rest
            (with_token (default (length pre) (token_start st)) st)).
Proof using.
  intros Hv Hds Hne Hw. revert pre st Hv Hw Hne.
  induction Hds as [|d ds Hd Hds IH]; intros pre st Hv Hw Hne; [done|].
  cbn [app sequence_loop]. rewrite scan_digit by done. cbn [mbind result_bind orb negb].
  set (st1 := with_token _ st).
  assert (Hlen : length value = (length pre + S (length ds + length rest))%nat)
    by (rewrite Hv, !length_app; cbn; lia).
  destruct (decide (ds = [])) as [->|Hds'].
  - cbn [app length] in *. case_bool_decide as Hrest.
    + subst rest. cbn [length] in Hlen. rewrite (proj2 (Nat.eqb_eq _ _)) by lia.
      unfold close. replace (S (length pre)) with (length value) by lia. done.
    + destruct rest as [|c rest]; [done|]. cbn [length] in Hlen.
      rewrite (proj2 (Nat.eqb_neq _ _)) by lia. cbn [mbind result_bind].
      by replace (length pre + 1)%nat with (S (length pre)) by lia.
  - rewrite (proj2 (Nat.eqb_neq _ _)) by (destruct ds; [done|cbn in Hlen; lia]).
    cbn [mbind result_bind]. replace (S (length pre)) with (length (pre ++ [d]))
      by (rewrite length_app; cbn; lia).
    rewrite (IH (pre ++ [d]) st1); [|by rewrite Hv, <- app_assoc|done|done].
    cbn [st1 with_token token_start default]. rewrite length_app. cbn [length].
    replace (length pre + 1 + length ds)%nat with (length pre + S (length ds))%nat by lia. done.
Qed.

Lemma loop_digits_close pre ds rest st :
  value = pre ++ ds ++ rest → Forall (λ b, is_digit b = true) ds → ds ≠ [] → is_wildcard st = false →
  ends rest →
  sequence_loop value (length pre) (ds ++ rest) st
  = close value (length pre + length ds) rest (with_token (default (length pre) (token_start st)) st).
Proof using.
  intros Hv Hds Hne Hw Hends. rewrite (loop_digits pre ds rest st) by done. case_bool_decide as Hrest.
  - subst rest. rewrite app_nil_r in Hv. by rewrite Hv, length_app.
  - destruct rest as [|c rest]; [done|]. cbn in Hends. subst c. apply loop_comma.
Qed.

Lemma loop_star_close pre rest st :
  value = pre ++ str "*" ++ rest → length value ≠ 1%nat → is_wildcard st = false →
  token_start st = None → ends rest →
  sequence_loop value (length pre) (str "*" ++ rest) st
  = close value (length pre + 1) rest (with_wildcard st).
Proof using.
  intros Hv Hlen Hw Ht Hends. change (str "*" ++ rest) with ("*" :: rest).
  cbn [sequence_loop]. unfold scan at 1. cbn [Z.eqb Pos.eqb]. rewrite Hw. cbn [negb].
  rewrite (proj2 (Nat.eqb_neq (length value) 1) Hlen). rewrite bool_decide_eq_true_2 by done.
  cbn [mbind result_bind orb negb]. fold (with_wildcard st).
  assert (Hlv : length value = (length pre + S (length rest))%nat) by (rewrite Hv, !length_app; done).
  destruct rest as [|c rest]; cbn [length] in Hlv.
  - rewrite (proj2 (Nat.eqb_eq _ _)) by lia. by replace (length pre + 1)%nat with (S (length pre)) by lia.
  - rewrite (proj2 (Nat.eqb_neq _ _)) by lia. cbn in Hends. subst c. cbn [mbind result_bind].
    replace (length pre + 1)%nat with (S (length pre)) by lia. apply loop_comma.
Qed.

(** The end of a range. *)
Definition end_state (from : nat) (o : option Z) (st : SequenceState) : SequenceState :=
  match o with Some _ => with_token from st | None => with_wildcard st end.

Lemma end_text_cons o : from_option (fits 32) True o → end_text o ≠ [].
Proof using.
  destruct o as [n|]; [|done]. intros Hn. cbn in Hn. unfold fits in Hn.
  destruct (uint_to_string_digits n); [lia|done].
Qed.

Lemma loop_end_close pre o rest st :
  value = pre ++ end_text o ++ rest → from_option (fits 32) True o → length value ≠ 1%nat →
  is_wildcard st = false → token_start st = None → ends rest →
  sequence_loop value (length pre) (end_text o ++ rest) st
  = close value (length pre + length (end_text o)) rest (end_state (length pre) o st).
Proof using.
  intros Hv Ho Hlen Hw Ht Hends. destruct o as [n|]; cbn [end_text end_state from_option] in *.
  - destruct (uint_to_string_digits n) as [Hne Hds]; [unfold fits in Ho; lia|].
    rewrite loop_digits_close by done. by rewrite Ht.
  - by apply loop_star_close.
Qed.

Lemma slice_token pre text rest :
  value = pre ++ text ++ rest → slice value (length pre) (length pre + length text) = Some text.
Proof using.
  intros ->. unfold slice. rewrite !length_app.
  rewrite (proj2 (Nat.leb_le _ _)), (proj2 (Nat.leb_le (length pre + length text) _)) by lia. cbn [andb].
  rewrite drop_app_length. replace (length pre + length text - length pre)%nat with (length text) by lia.
  by rewrite take_app_length.
Qed.

Lemma parse_number_print n : fits 32 n → parse_number 32 (uint_to_string n) = Ok n.
Proof using.
  intros Hn. destruct (uint_to_string_digits n) as [_ Hds]; [unfold fits in Hn; lia|].
  unfold parse_number. rewrite (parse_uint_print 32 n Hn).
  assert (Hascii : Forall (λ b, 0 ≤ b < 128) (uint_to_string n)).
  { eapply Forall_impl; [exact Hds|]. intros b Hb%is_digit_range. lia. }
  rewrite <- (str_bytes_ascii (uint_to_string n)) at 1 by done. rewrite from_utf8_str; [done|].
  eapply Forall_impl; [exact Hascii|]. cbn. intros b Hb. apply is_char_range. lia.
Qed.

(** The start of a range, up to its colon. *)
Lemma loop_range_start pre a rest set :
  value = pre ++ end_text a ++ str ":" ++ rest → from_option (fits 32) True a → rest ≠ [] →
  sequence_loop value (length pre) (end_text a ++ str ":" ++ rest) (fresh set)
  = sequence_loop value (length pre + length (end_text a) + 1) rest (in_range set a).
Proof using.
  intros Hv Ha Hrest. assert (Hlv : length value =
    (length pre + length (end_text a) + S (length rest))%nat) by (rewrite Hv, !length_app; change (length (str ":")) with 1%nat; lia).
  assert (0 < length rest)%nat by (destruct rest; [done|cbn; lia]).
  destruct a as [n|]; cbn [end_text from_option] in *.
  - destruct (uint_to_string_digits n) as [Hne Hds]; [unfold fits in Ha; lia|].
    rewrite (loop_digits pre _ (str ":" ++ rest)), bool_decide_eq_false_2 by done.
    change (str ":" ++ rest) with (":" :: rest). rewrite loop_cons. unfold scan at 1.
    cbn [Z.eqb Pos.eqb fresh with_token is_range negb token_start default].
    rewrite (slice_token pre _ (str ":" ++ rest)) by done. cbn [ok_or mbind result_bind].
    rewrite parse_number_print by done. cbn [mbind result_bind orb].
    rewrite (proj2 (Nat.eqb_neq _ _)) by lia. by rewrite Nat.add_1_r.
  - change (str "*" ++ str ":" ++ rest) with ("*" :: ":" :: rest). change (length (str "*")) with 1%nat in Hlv.
    rewrite loop_cons. unfold scan at 1. cbn [Z.eqb Pos.eqb fresh is_wildcard negb token_start].
    rewrite (proj2 (Nat.eqb_neq (length value) 1)) by lia. cbn [bool_decide mbind result_bind].
    rewrite bool_decide_eq_true_2 by done. cbn [mbind result_bind orb].
    rewrite (proj2 (Nat.eqb_neq _ _)) by lia. cbn [mbind result_bind]. rewrite loop_cons. unfold scan at 1.
    cbn [Z.eqb Pos.eqb is_wildcard is_range negb token_start mbind result_bind orb].
    rewrite (proj2 (Nat.eqb_neq _ _)) by lia. cbn [mbind result_bind].
    change (length (str "*")) with 1%nat. by rewrite !Nat.add_1_r.
Qed.

(** One item. *)
Lemma loop_item pre i rest set :
  value = pre ++ item_text i ++ rest → item_ok i → length value ≠ 1%nat ∨ i ≠ IStar → ends rest →
  sequence_loop value (length pre) (item_text i ++ rest) (fresh set)
  = match rest with
    | [] => Ok (inl (set ++ [item_value i]))
    | _ :: rest =>
        sequence_loop value (S (length pre + length (item_text i))) rest (fresh (set ++ [item_value i]))
    end.
Proof using.
  intros Hv Hi Hlen Hends. destruct i as [n| |a b|]; cbn [item_text item_value item_ok] in *.
  - destruct (uint_to_string_digits n) as [Hne Hds]; [unfold fits in Hi; lia|].
    rewrite loop_digits_close by done. unfold close, push_token, token_number.
    cbn [fresh with_token is_range is_wildcard saved_search token_start default ok_or mbind result_bind].
    rewrite (slice_token pre _ rest) by done. cbn [ok_or mbind result_bind].
    rewrite parse_number_print by done. done.
  - destruct Hlen as [Hlen|?]; [|done]. rewrite loop_star_close by done. done.
  - destruct Hi as [Ha Hb]. pose proof (end_text_cons b Hb) as Hne.
    rewrite <- !app_assoc in Hv |- *.
    rewrite loop_range_start by (done || by intros [? _]%app_nil).
    replace (length pre + length (end_text a) + 1)%nat with (length (pre ++ end_text a ++ str ":"))
      by (rewrite !length_app; change (length (str ":")) with 1%nat; lia).
    assert (Hv' : value = (pre ++ end_text a ++ str ":") ++ end_text b ++ rest)
      by (by rewrite Hv, <- !app_assoc).
    assert (Hlv : length value ≠ 1%nat).
    { pose proof (end_text_cons a Ha). rewrite Hv, !length_app. change (length (str ":")) with 1%nat.
      destruct (end_text a), (end_text b); cbn; done || lia. }
    rewrite (loop_end_close _ b rest) by done. unfold close, push_token, token_number.
    destruct b as [n|]; cbn [end_state in_range with_token with_wildcard is_range is_wildcard negb
      token_start ok_or mbind result_bind].
    + rewrite slice_token with (rest := rest) by done. cbn [ok_or mbind result_bind].
      cbn [end_text from_option] in *. rewrite parse_number_print by done.
      cbn [fmap result_fmap mbind result_bind sequence_set range_start saved_search].
      rewrite !length_app. by rewrite !Nat.add_assoc.
    + cbn [mbind result_bind sequence_set range_start saved_search].
      rewrite !length_app. by rewrite !Nat.add_assoc.
  - change (str "$" ++ rest) with ("$" :: rest). cbn [sequence_loop]. unfold scan at 1.
    cbn [Z.eqb Pos.eqb]. assert (Hlv : length value = (length pre + S (length rest))%nat)
      by (rewrite Hv, !length_app; done).
    assert (Hnext : value !! S (length pre) = rest !! 0%nat).
    { rewrite Hv, lookup_app_r by lia. replace (S (length pre) - length pre)%nat with 1%nat by lia. done. }
    rewrite Hnext. destruct rest as [|c rest]; cbn [lookup list_lookup length] in *.
    + cbn [mbind result_bind orb]. rewrite (proj2 (Nat.eqb_eq _ _)) by lia. done.
    + cbn in Hends. subst c. cbn [Z.eqb Pos.eqb mbind result_bind orb].
      rewrite (proj2 (Nat.eqb_neq _ _)) by lia. cbn [mbind result_bind].
      rewrite loop_comma. change (length (str "$")) with 1%nat. by rewrite Nat.add_1_r.
Qed.

(** All items. *)
Lemma loop_items items : ∀ pre set,
  value = pre ++ set_text items → Forall item_ok items → items ≠ [] →
  length value ≠ 1%nat ∨ IStar ∉ items →
  sequence_loop value (length pre) (set_text items) (fresh set)
  = Ok (inl (set ++ (item_value <$> items))).
Proof using.
  induction items as [|i items IH]; intros pre set Hv Hok Hne Hstar; [done|].
  apply Forall_cons in Hok as [Hi Hok]. rewrite elem_of_cons in Hstar.
  assert (Hi' : length value ≠ 1%nat ∨ i ≠ IStar) by (destruct Hstar as [?|Hs]; [by left|right; intros ->; tauto]).
  destruct items as [|j items]; cbn [set_text] in *.
  - rewrite <- (app_nil_r (item_text i)) in Hv |- *. by rewrite (loop_item pre i []) by done.
  - rewrite (loop_item pre i (str "," ++ set_text (j :: items))) by done.
    change (str "," ++ set_text (j :: items)) with ("," :: set_text (j :: items)). cbv iota.
    replace (S (length pre + length (item_text i))) with (length (pre ++ item_text i ++ str ","))
      by (rewrite !length_app; change (length (str ",")) with 1%nat; lia).
    rewrite IH; [by rewrite <- app_assoc| |done|done|].
    + by rewrite Hv, <- !app_assoc.
    + destruct Hstar as [?|Hs]; [by left|right; tauto].
Qed.
End Scan.

(** The text of items parses to what they mean. *)
Lemma parse_set_text items :
  items ≠ [] → Forall item_ok items → parse_sequence_set (set_text items) = Ok (set_value items).
Proof.
  intros Hne Hok. destruct (decide (items = [IStar])) as [->|Hstar]; [done|].
  unfold parse_sequence_set. rewrite (loop_items _ items [] []); [|done..|].
  - unfold set_value. cbn [mbind result_bind app]. by destruct items as [|i [|j items]].
  - destruct items as [|i [|j items]]; [done| |].
    + right. intros <-%list_elem_of_singleton. done.
    + left. cbn [set_text]. rewrite !length_app. change (length (str ",")) with 1%nat.
      assert (Htext : ∀ i, item_ok i → item_text i ≠ []).
      { intros [n| |a b|] Hx; cbn; [by apply (end_text_cons (Some n))|done| |done].
        intros [_ ?]%app_nil. done. }
      apply Forall_cons in Hok as [Hi _]. specialize (Htext i Hi).
      destruct (item_text i); [done|]. cbn. lia.
Qed.

(** The printed ids are the text of their runs. *)
Lemma serialize_runs id range_id ids :
  serialize_run id range_id ids = set_text (runs id range_id ids) ∧ runs id range_id ids ≠ [].
Proof.
  revert id range_id. induction ids as [|next ids IH]; intros id range_id; cbn [serialize_run runs].
  - split; [|done]. cbn [set_text]. destruct (range_id =? id) eqn:He; cbn [negb item_text end_text];
      by rewrite ?app_nil_r.
  - destruct (next =? _); [apply IH|]. split; [|done].
    destruct (IH next next) as [-> Hne]. cbn [set_text].
    destruct (runs next next ids) as [|r rs]; [done|].
    destruct (range_id =? id) eqn:He; cbn [negb item_text end_text]; [done|].
    by rewrite <- !app_assoc.
Qed.

Lemma inclusive_spec a b x : x ∈ inclusive a b ↔ a ≤ x ≤ b.
Proof. unfold inclusive. rewrite elem_of_list_to_set, elem_of_seqZ. lia. Qed.

Lemma expand_range_spec a b max x :
  x ∈ expand_range a b max ↔
  Z.min (default max a) (default max b) ≤ x ≤ Z.max (default max a) (default max b).
Proof.
  unfold expand_range. destruct (Z.compare_spec (default max a) (default max b)) as [He|He|He].
  - rewrite elem_of_singleton. lia.
  - rewrite inclusive_spec. lia.
  - rewrite inclusive_spec. lia.
Qed.

Lemma contains_range a b max x :
  contains (Range a b) x max = true ↔
  Z.min (default max a) (default max b) ≤ x ≤ Z.max (default max a) (default max b).
Proof.
  destruct a, b; cbn;
    rewrite ?orb_true_iff, ?andb_true_iff, ?Z.leb_le, ?Z.eqb_eq; lia.
Qed.

(** [expand] of a list is the union over its items. *)
Lemma expand_list items max x :
  x ∈ expand (List_ items) max ↔ ∃ i, i ∈ items ∧ is_list i = false ∧ x ∈ expand i max.
Proof.
  rewrite <- (Exists_exists (λ i, is_list i = false ∧ x ∈ expand i max)). cbn [expand].
  enough (Hgen : ∀ acc : gset Z,
    x ∈ foldl (λ result item, match item with
                              | Number value => {[value]} ∪ result
                              | Range s e => result ∪ expand_range s e max
                              | _ => result end) acc items
    ↔ x ∈ acc ∨ Exists (λ i, is_list i = false ∧ x ∈ expand i max) items).
  { rewrite Hgen, elem_of_empty. tauto. }
  induction items as [|i items IH]; intros acc; cbn [foldl]; [rewrite Exists_nil; tauto|].
  rewrite IH, Exists_cons. destruct i as [n|s e| |l]; cbn [is_list expand];
    rewrite ?elem_of_union, ?elem_of_singleton, ?elem_of_empty; intuition congruence.
Qed.

Lemma contains_expand_item s max x :
  is_list s = false → contains s x max = true ↔ x ∈ expand s max.
Proof.
  destruct s as [n|a b| |]; intros Hl; [..|done].
  - cbn. rewrite Z.eqb_eq, elem_of_singleton. naive_solver.
  - rewrite contains_range. cbn [expand]. by rewrite expand_range_spec.
  - cbn. set_solver.
Qed.

(** The ids in the runs. *)
Lemma run_spec id range_id x max :
  fits 32 id → id ≤ range_id < u32_max →
  let i := if range_id =? id then INumber id else IRange (Some id) (Some range_id) in
  item_ok i ∧ (x ∈ expand (item_value i) max ↔ id ≤ x ≤ range_id).
Proof.
  intros Hid Hr. destruct (Z.eqb_spec range_id id) as [->|Hne]; cbn [item_ok item_value expand].
  - split; [done|]. rewrite elem_of_singleton. lia.
  - rewrite expand_range_spec. cbn. width.
Qed.

Lemma runs_spec ids x max : ∀ id range_id,
  fits 32 id → id ≤ range_id → Forall (λ i, 0 ≤ i < u32_max) (range_id :: ids) →
  Forall item_ok (runs id range_id ids)
  ∧ ((∃ i, i ∈ runs id range_id ids ∧ x ∈ expand (item_value i) max)
     ↔ id ≤ x ≤ range_id ∨ x ∈ ids).
Proof.
  induction ids as [|next ids IH]; intros id range_id Hid Hle Hall;
    apply Forall_cons in Hall as [Hr Hall]; cbn [runs];
    destruct (run_spec id range_id x max) as [Hok Hx]; [done|lia| |done|lia|].
  - split; [by constructor|]. rewrite <- Hx, elem_of_nil. split.
    + intros (i & ->%list_elem_of_singleton & Hi). by left.
    + intros [Hi|[]]. eexists. by split; [apply list_elem_of_singleton|].
  - pose proof Hall as Hall'. apply Forall_cons in Hall as [Hn Hall].
    rewrite (wrap_id 32) by width. destruct (Z.eqb_spec next (range_id + 1)) as [->|Hne].
    + destruct (IH id (range_id + 1)) as [H1 H2]; [done|lia|done|].
      split; [done|]. rewrite H2, elem_of_cons.
      assert (id ≤ x ≤ range_id + 1 ↔ id ≤ x ≤ range_id ∨ x = range_id + 1) by lia. tauto.
    + destruct (IH next next) as [H1 H2]; [width|lia|done|].
      split; [by constructor|]. rewrite elem_of_cons.
      rewrite <- (Exists_exists (λ i, x ∈ expand (item_value i) max)) in H2 |- *.
      assert (next ≤ x ≤ next ↔ x = next) by lia.
      rewrite Exists_cons, Hx, H2. tauto.
Qed.

Lemma expand_set_value items max x :
  x ∈ expand (set_value items) max ↔ ∃ i, i ∈ items ∧ x ∈ expand (item_value i) max.
Proof.
  assert (Hlist : x ∈ expand (List_ (item_value <$> items)) max
                  ↔ ∃ i, i ∈ items ∧ x ∈ expand (item_value i) max).
  { rewrite expand_list. setoid_rewrite list_elem_of_fmap. split.
    - intros (? & (i & -> & Hi) & _ & Hx). eauto.
    - intros (i & Hi & Hx). exists (item_value i). split_and!; [by eauto|by destruct i|done]. }
  unfold set_value. destruct items as [|i [|j items]]; [done| |done]. cbn [fmap list_fmap].
  split; [intros Hx; exists i; by split; [apply list_elem_of_singleton|]|].
  by intros (? & ->%list_elem_of_singleton & ?).
Qed.

(** Testing a number against a sequence and expanding the sequence agree, for every
    sequence without nested lists, which are the ones the parser returns. *)
Lemma contains_expand s max x :
  flat s = true → contains s x max = true ↔ x ∈ expand s max.
Proof.
  intros Hflat. destruct (is_list s) eqn:Hl; [|by apply contains_expand_item].
  destruct s as [| | |items]; try done. cbn [contains flat] in *.
  rewrite existsb_exists, expand_list. rewrite forallb_forall in Hflat.
  setoid_rewrite <- list_elem_of_In in Hflat. setoid_rewrite <- list_elem_of_In.
  split; [intros (i & Hi & Hx)|intros (i & Hi & Hil & Hx)]; exists i.
  - specialize (Hflat i Hi). apply negb_true_iff in Hflat. split_and!; [done..|].
    by apply contains_expand_item.
  - split; [done|]. by apply contains_expand_item.
Qed.

(** Reading back what was printed. *)
Lemma serialize_parse ids max :
  ids ≠ [] → Forall (λ i, 0 ≤ i < u32_max) ids →
  ∃ s, parse_sequence_set (serialize_sequence ids) = Ok s ∧ expand s max = list_to_set ids.
Proof.
  intros Hne Hids. destruct ids as [|id ids]; [done|].
  pose proof Hids as [Hid _]%Forall_cons.
  exists (set_value (runs id id ids)). cbn [serialize_sequence].
  destruct (serialize_runs id id ids) as [-> Hruns].
  assert (Hspec := λ x, runs_spec ids x max id id ltac:(width) ltac:(lia) Hids).
  split; [apply parse_set_text; [done|apply (Hspec 0)]|].
  apply set_eq. intros x. rewrite expand_set_value, (proj2 (Hspec x)), elem_of_list_to_set, elem_of_cons.
  assert (id ≤ x ≤ id ↔ x = id) by lia. tauto.
Qed.

(** ** Properties *)

(** A set of sequence numbers in the grammar of IMAP (numbers, ["*"], ranges with
    either end, ["$"], separated by commas) parses to the sequence it stands for. *)
Theorem sequence_set_parse items :
  items ≠ [] → Forall item_ok items → parse_sequence_set (set_text items) = Ok (set_value items).
Proof. apply parse_set_text. Qed.

Lemma sequence_set_parse_witness :
  let items := [INumber 2; IRange (Some 9) None; IStar; ISaved; IRange None (Some 12)] in
  parse_sequence_set (str "2,9:*,*,$,*:12") = Ok (set_value items).
Proof. apply (sequence_set_parse [INumber 2; IRange (Some 9) None; IStar; ISaved; IRange None (Some 12)]); [done|]. apply (bool_decide_unpack _). by vm_compute. Defined.

(** C33. The ids the server prints in a response (APPENDUID, COPYUID, ESEARCH, VANISHED)
    are read back as the same set of ids. *)
Theorem sequence_roundtrip ids max :
  ids ≠ [] → Forall (λ i, 0 ≤ i < u32_max) ids →
  ∃ s, parse_sequence_set (serialize_sequence ids) = Ok s ∧ expand s max = list_to_set ids.
Proof. apply serialize_parse. Qed.

Lemma sequence_roundtrip_witness :
  ∃ s, parse_sequence_set (str "3:5,7,9:10") = Ok s
       ∧ expand s 20 = list_to_set [3; 4; 5; 7; 9; 10].
Proof. apply (sequence_roundtrip [3; 4; 5; 7; 9; 10] 20); [done|]. apply (bool_decide_unpack _). by vm_compute. Defined.

(** A digit before ["$"] is dropped, and a run that ends at the largest id wraps. *)
Lemma sequence_oddities :
  parse_sequence_set (str "12$") = Ok SavedSearch
  ∧ serialize_sequence [u32_max; 0] = str "4294967295:0".
Proof. by vm_compute. Qed.
