(* ===== verification/ImapMailbox.v ===== *)
(** * The selected mailbox of an IMAP session

    crates/imap/src/core/message.rs with the state of crates/common/src/lib.rs and the
    EXPUNGE and VANISHED responses of crates/imap-proto/src/protocol/expunge.rs: the
    numbering of the messages, how it is refreshed from the store, what the client is
    told, and the translation of sequence sets. *)

From stdpp Require Import sorting.
From S2P Require Import Prelude Decimal ImapSequence.

(** ** Data *)

Record ImapId := { uid : Z; seqnum : Z }.

#[export] Instance imap_id_eq_dec : EqDecision ImapId.
Proof. solve_decision. Defined.

Record NextMailboxState (S : Type) := { next : S; deletions : list ImapId }.
Arguments next {S} _.
Arguments deletions {S} _.

Inductive MailboxState := {
  uid_next : Z;
  uid_validity : Z;
  uid_max : Z;
  id_to_imap : gmap Z ImapId;
  uid_to_id : gmap Z Z;
  total_messages : Z;
  modseq : option Z;
  next_state : option (NextMailboxState MailboxState);
}.

(** [ids.sort_unstable()] *)
Definition sort_unstable (ids : list Z) : list Z := merge_sort Z.le ids.

(** The order of a [BTreeMap] keyed by uid. *)
Definition row_le (a b : Z * Z) : Prop := a.1 ≤ b.1.

#[export] Instance row_le_dec a b : Decision (row_le a b).
Proof. unfold row_le. apply _. Defined.

#[export] Instance row_le_total : Total row_le.
Proof. intros a b. unfold row_le. lia. Qed.
#[export] Instance row_le_trans : Transitive row_le.
Proof. intros a b c. unfold row_le. lia. Qed.

(** ** Reading the mailbox *)

(** The numbering of the messages, from their uids in ascending order. *)
Definition number_messages (rows : list (Z * Z)) : Z * gmap Z ImapId * gmap Z Z * Z :=
  foldl (λ '(max, to_imap, to_id, n) row,
    (if max <? row.1 then row.1 else max,
     <[row.2 := {| uid := row.1; seqnum := wrap 32 n + 1 |}]> to_imap,
     <[row.1 := row.2]> to_id,
     n + 1)) (0, ∅, ∅, 0) rows.

(** [fetch_messages]: [properties] are the messages tagged with the mailbox, each with
    the mailboxes it is in and its uids there. *)
Definition fetch_messages (mailbox_id validity : Z) (current : option Z)
    (properties : list (Z * list (Z * Z))) : MailboxState :=
  let uid_map : gmap Z Z := foldl (λ m p,
    match list_find (λ item, item.1 = mailbox_id) p.2 with
    | Some (_, item) => <[item.2 := p.1]> m
    | None => m
    end) ∅ properties in
  let '(max, to_imap, to_id, _) :=
    number_messages (merge_sort row_le (map_to_list uid_map)) in
  {| uid_next := wrap 32 (max + 1); uid_validity := validity; uid_max := max;
     id_to_imap := to_imap; uid_to_id := to_id; total_messages := Z.of_nat (base.size to_imap);
     modseq := current; next_state := None |}.

(** ** Refreshing it *)

(** The entries whose uid is gone are moved to the deletions. *)
Definition invalidate (new : gmap Z Z) (entries : list (Z * ImapId))
    (acc : gmap Z ImapId * gmap Z Z * list ImapId) : gmap Z ImapId * gmap Z Z * list ImapId :=
  foldl (λ '(to_imap, to_id, deletions) e,
    if bool_decide (new !! uid e.2 = None)
    then (to_imap, delete (uid e.2) to_id, deletions ++ [e.2])
    else (<[e.1 := e.2]> to_imap, to_id, deletions)) acc entries.

(** [synchronize_messages], with the current change id and what [fetch_messages]
    returns. *)
Definition synchronize_messages (current : option Z) (new_state st : MailboxState) : MailboxState :=
  if bool_decide (modseq st = current) then st
  else
    let pending := from_option deletions [] (next_state st) in
    let '(to_imap, to_id, dels) :=
      invalidate (uid_to_id new_state) (map_to_list (id_to_imap st)) (∅, uid_to_id st, pending) in
    {| uid_next := uid_next st; uid_validity := uid_validity st; uid_max := uid_max st;
       id_to_imap := to_imap; uid_to_id := to_id; total_messages := total_messages st;
       modseq := modseq new_state;
       next_state := Some {| next := new_state; deletions := dels |} |}.

(** ** Telling the client *)

Inductive Untagged :=
| UExpunge (n : Z)
| UVanished (text : bytes)
| UExists (total : Z).

Definition saturating_sub (a b : Z) : Z := Z.max 0 (a - b).

(** [expunge::Response::serialize_to] *)
Fixpoint expunge_lines (num_deletions : Z) (ids : list Z) : list Untagged :=
  match ids with
  | [] => []
  | id :: ids => UExpunge (saturating_sub id num_deletions) :: expunge_lines (num_deletions + 1) ids
  end.

Definition expunge_response (is_qresync : bool) (ids : list Z) : list Untagged :=
  if negb is_qresync then expunge_lines 0 ids else [UVanished (serialize_sequence ids)].

Definition write_mailbox_changes (is_qresync : bool) (current : option Z)
    (new_state st : MailboxState) : list Untagged * MailboxState :=
  let st := synchronize_messages current new_state st in
  match next_state st with
  | None => ([], st)
  | Some n =>
      let ids := (λ i, if is_qresync then uid i else seqnum i) <$> deletions n in
      let buf := if bool_decide (deletions n = []) then []
                 else expunge_response is_qresync (sort_unstable ids) in
      (buf ++ (if negb (bool_decide (buf = [])) || (0 <? saturating_sub (uid_max (next n)) (uid_max st))
               then [UExists (total_messages (next n))] else []),
       next n)
  end.

(** ** Appending to it *)

Record ImapUidToId := { up_uid : Z; up_id : Z }.

Definition append_one (acc : MailboxState * Z) (i : ImapUidToId) : MailboxState * Z :=
  let '(st, _) := acc in
  let total := total_messages st + 1 in
  ({| uid_next := uid_next st; uid_validity := uid_validity st; uid_max := uid_max st;
      id_to_imap := <[up_id i := {| uid := up_uid i; seqnum := wrap 32 total |}]> (id_to_imap st);
      uid_to_id := <[up_uid i := up_uid i]> (uid_to_id st);
      total_messages := total; modseq := modseq st; next_state := next_state st |}, up_uid i).

Definition append_messages (ids : list ImapUidToId) (change : option Z) (st : MailboxState)
    : Z * MailboxState :=
  if default 0 (modseq st) <? default 0 change then
    let '(st, max) := foldl append_one (st, 0) ids in
    (uid_validity st,
     {| uid_next := wrap 32 (max + 1); uid_validity := uid_validity st; uid_max := max;
        id_to_imap := id_to_imap st; uid_to_id := uid_to_id st;
        total_messages := total_messages st; modseq := modseq st; next_state := next_state st |})
  else (uid_validity st, st).

(** ** Sequence sets of the client *)

(** [saved] is what [get_saved_search] returns. *)
Definition sequence_to_ids (sequence : Sequence) (is_uid : bool) (saved : option (list ImapId))
    (st : MailboxState) : option (gmap Z ImapId) :=
  if negb (is_saved_search sequence) then
    if bool_decide (id_to_imap st = ∅) then Some ∅
    else
      Some (filter (λ e, contains sequence (if is_uid then uid e.2 else seqnum e.2)
                           (if is_uid then uid_max st else wrap 32 (total_messages st)) = true)
              (id_to_imap st))
  else
    saved_ids ← saved;
    Some (foldl (λ ids i,
      match uid_to_id st !! uid i with
      | Some id => <[id := i]> ids
      | None => ids
      end) ∅ saved_ids).

Definition sequence_expand_missing (sequence : Sequence) (is_uid : bool)
    (saved : option (list ImapId)) (st : MailboxState) : list Z :=
  sort_unstable
    (if negb (is_saved_search sequence) then
       if is_uid then
         filter (λ u, uid_to_id st !! u = None) (elements (expand sequence (uid_max st)))
       else
         filter (λ n, wrap 32 (total_messages st) < n)
           (elements (expand sequence (wrap 32 (total_messages st))))
     else
       match saved with
       | Some saved_ids =>
           (λ i, if is_uid then uid i else seqnum i)
             <$> filter (λ i, uid_to_id st !! uid i = None) saved_ids
       | None => []
       end).

(** ** What the client sees *)

(** A mailbox as the store lists it: uids in ascending order with their documents. *)
Definition listing_ok (rows : list (Z * Z)) : Prop :=
  StronglySorted Z.lt rows.*1 ∧ NoDup rows.*2 ∧ Forall (λ u, 0 < u < u32_max) rows.*1
  ∧ Z.of_nat (length rows) ≤ u32_max.

(** The state read from a listing. *)
Definition state_of (validity : Z) (current : option Z) (rows : list (Z * Z)) : MailboxState :=
  let '(max, to_imap, to_id, _) := number_messages rows in
  {| uid_next := wrap 32 (max + 1); uid_validity := validity; uid_max := max;
     id_to_imap := to_imap; uid_to_id := to_id; total_messages := Z.of_nat (base.size to_imap);
     modseq := current; next_state := None |}.

(** The uids a client holds, by position, after a response. *)
Definition client_read (view : list Z) (u : Untagged) : list Z :=
  match u with
  | UExpunge n => if 1 <=? n then delete (Z.to_nat (n - 1)) view else view
  | UVanished text =>
      match parse_sequence_set text with
      | Ok s => filter (λ u, u ∉ expand s 0) view
      | Err _ => view
      end
  | UExists _ => view
  end.

Definition max0 (l : list Z) : Z := foldl (λ m u, if m <? u then u else m) 0 l.

(** Successive listings of a mailbox: a uid is listed again only if it was listed the
    last time, new uids are above all uids assigned before, and the listing changes
    with the change id only. *)
Fixpoint history_ok (top : Z) (prev : option Z * list (Z * Z))
    (hist : list (option Z * list (Z * Z))) : Prop :=
  match hist with
  | [] => True
  | h :: hist =>
      listing_ok h.2 ∧ (prev.1 = h.1 → prev.2 = h.2)
      ∧ Forall (λ u, u ∈ prev.2.*1 ∨ top < u) h.2.*1
      ∧ history_ok (Z.max top (max0 h.2.*1)) h hist
  end.

#[export] Instance ascending_dec (l : list Z) : Decision (StronglySorted Z.lt l).
Proof.
  induction l as [|x l IH]; [left; constructor|].
  destruct (decide (Forall (Z.lt x) l)) as [Hx|Hx].
  - destruct IH as [Hl|Hl]; [left; by constructor|right; by inversion 1].
  - right. by inversion 1.
Defined.

#[export] Instance listing_ok_dec rows : Decision (listing_ok rows).
Proof. unfold listing_ok. apply _. Defined.

#[export] Instance history_ok_dec top prev hist : Decision (history_ok top prev hist).
Proof. revert top prev. induction hist; intros top prev; cbn [history_ok]; apply _. Defined.

Definition refresh (validity : Z) (st : MailboxState) (h : option Z * list (Z * Z)) : MailboxState :=
  synchronize_messages h.1 (state_of validity h.1 h.2) st.

(** The members of a mailbox, with their uids, as [fetch_messages] finds them. *)
Definition members (mailbox_id : Z) (properties : list (Z * list (Z * Z))) : list (Z * Z) :=
  omap (λ p, (λ x, (x.2.2, p.1)) <$> list_find (λ item, item.1 = mailbox_id) p.2) properties.

(** The entries of a view, numbered from one. *)
Definition entries (view : list Z) : list ImapId :=
  imap (λ k u, {| uid := u; seqnum := Z.of_nat k + 1 |}) view.

(** The state of a mailbox whose client holds [view] and whose latest listing is
    [rows], read at the change id [m]. *)
Record in_step (validity : Z) (view : list Z) (top : Z) (m : option Z) (rows : list (Z * Z))
    (st : MailboxState) : Prop := {
  step_sorted : StronglySorted Z.lt view;
  step_pos : Forall (λ u, 0 < u < u32_max) view;
  step_listing : listing_ok rows;
  step_top_pos : 0 ≤ top;
  step_top : Forall (λ u, u ≤ top) (view ++ rows.*1);
  step_new : Forall (λ u, u ∈ view ∨ max0 view < u) rows.*1;
  step_live : (map_to_list (id_to_imap st)).*2 ≡ₚ filter (λ i, uid i ∈ rows.*1) (entries view);
  step_deleted : from_option deletions [] (next_state st)
                 ≡ₚ filter (λ i, uid i ∉ rows.*1) (entries view);
  step_uid_max : uid_max st = max0 view;
  step_modseq : modseq st = m;
  step_next : match next_state st with
              | Some n => next n = state_of validity m rows
              | None => st = state_of validity m rows ∧ rows.*1 = view
              end;
}.

(** ** Lists in ascending order *)

Lemma foldl_max_ge l m : m ≤ foldl (λ m u, if m <? u then u else m) m l.
Proof.
  revert m. induction l as [|x l IH]; intros m; cbn; [lia|].
  specialize (IH (if m <? x then x else m)). destruct (Z.ltb_spec m x); lia.
Qed.

Lemma max0_ge l u : u ∈ l → u ≤ max0 l.
Proof.
  unfold max0. generalize 0. induction l as [|x l IH]; intros m Hu; [by apply not_elem_of_nil in Hu|].
  cbn [foldl]. apply elem_of_cons in Hu as [->|Hu]; [|by apply IH].
  pose proof (foldl_max_ge l (if m <? x then x else m)). destruct (Z.ltb_spec m x); lia.
Qed.

Lemma max0_le l t : 0 ≤ t → Forall (λ u, u ≤ t) l → max0 l ≤ t.
Proof.
  unfold max0. intros Ht Hl. revert Ht. generalize 0. induction Hl as [|x l Hx Hl IH]; intros m Hm; [done|].
  cbn [foldl]. apply IH. destruct (m <? x); lia.
Qed.

Lemma max0_nonneg l : 0 ≤ max0 l.
Proof. apply foldl_max_ge. Qed.

Lemma sorted_lt_nodup (l : list Z) : StronglySorted Z.lt l → NoDup l.
Proof.
  induction 1 as [|x l Hl IH Hx]; constructor; [|done]. intros Hin.
  rewrite Forall_forall in Hx. specialize (Hx x Hin). lia.
Qed.

Lemma sorted_lt_le (l : list Z) : StronglySorted Z.lt l → StronglySorted Z.le l.
Proof.
  induction 1 as [|x l Hl IH Hx]; constructor; [done|]. eapply Forall_impl; [exact Hx|]. cbn. lia.
Qed.

Lemma sorted_lt_eq (l k : list Z) :
  StronglySorted Z.lt l → StronglySorted Z.lt k → (∀ u, u ∈ l ↔ u ∈ k) → l = k.
Proof.
  intros Hl Hk Heq. apply (StronglySorted_unique Z.le); [by apply sorted_lt_le..|].
  apply NoDup_Permutation; auto using sorted_lt_nodup.
Qed.

Lemma sorted_lt_filter (P : Z → Prop) `{∀ u, Decision (P u)} l :
  StronglySorted Z.lt l → StronglySorted Z.lt (filter P l).
Proof.
  induction 1 as [|x l Hl IH Hx]; [constructor|]. rewrite filter_cons. destruct (decide (P x)); [|done].
  constructor; [done|]. apply Forall_forall. intros u [_ Hu]%list_elem_of_filter.
  by eapply Forall_forall in Hx.
Qed.

(** A sorted list is cut in two by a bound. *)
Lemma sorted_lt_split t l :
  StronglySorted Z.lt l → l = filter (λ u, u ≤ t) l ++ filter (λ u, t < u) l.
Proof.
  induction 1 as [|x l Hl IH Hx]; [done|]. rewrite !filter_cons. destruct (decide (x ≤ t)).
  - rewrite decide_False by lia. cbn. by rewrite <- IH.
  - rewrite decide_True by lia. rewrite filter_none; cbn.
    + f_equal. symmetry. apply filter_all. eapply Forall_impl; [exact Hx|]. cbn. lia.
    + eapply Forall_impl; [exact Hx|]. cbn. lia.
Qed.

Lemma sort_unstable_lt l : NoDup l → StronglySorted Z.lt (sort_unstable l).
Proof.
  intros Hnd. unfold sort_unstable.
  assert (Hs : StronglySorted Z.le (merge_sort Z.le l)) by (apply StronglySorted_merge_sort; apply _).
  assert (Hnd' : NoDup (merge_sort Z.le l)) by (by rewrite merge_sort_Permutation).
  induction Hs as [|x k Hk IH Hx]; [constructor|]. apply NoDup_cons in Hnd' as [Hin Hnd'].
  constructor; [by apply IH|]. apply Forall_forall. intros u Hu.
  eapply Forall_forall in Hx; [|done]. assert (x ≠ u) by (by intros ->). lia.
Qed.

(** ** The numbering *)

Section Insert.
Context {V : Type}.

Definition insert_all (m : gmap Z V) (l : list (Z * V)) : gmap Z V :=
  foldl (λ m e, <[e.1 := e.2]> m) m l.

Lemma map_to_list_insert_all (l : list (Z * V)) : ∀ m,
  NoDup l.*1 → Forall (λ k, m !! k = None) l.*1 →
  map_to_list (insert_all m l) ≡ₚ map_to_list m ++ l.
Proof.
  induction l as [|[k v] l IH]; intros m Hnd Hm; [by rewrite app_nil_r|].
  cbn in Hnd, Hm. apply NoDup_cons in Hnd as [Hk Hnd]. apply Forall_cons in Hm as [Hmk Hm].
  cbn [insert_all foldl fst snd]. fold (insert_all (<[k:=v]> m) l). rewrite IH; [|done|].
  - rewrite map_to_list_insert by done. by rewrite <- Permutation_middle.
  - apply Forall_forall. intros j Hj. rewrite lookup_insert_ne by (by intros ->).
    by eapply Forall_forall in Hm.
Qed.

Lemma insert_all_empty (l : list (Z * V)) :
  NoDup l.*1 → map_to_list (insert_all ∅ l) ≡ₚ l.
Proof.
  intros Hnd. rewrite map_to_list_insert_all by (done || by apply Forall_true).
  by rewrite map_to_list_empty.
Qed.
End Insert.

(** The entries with their documents. *)
Fixpoint numbered (n : Z) (rows : list (Z * Z)) : list (Z * ImapId) :=
  match rows with
  | [] => []
  | row :: rows => (row.2, {| uid := row.1; seqnum := wrap 32 n + 1 |}) :: numbered (n + 1) rows
  end.

Lemma number_messages_spec rows :
  number_messages rows
  = (max0 rows.*1, insert_all ∅ (numbered 0 rows), insert_all ∅ rows, Z.of_nat (length rows)).
Proof.
  unfold number_messages, max0.
  enough (Hgen : ∀ rows max A B n,
    foldl (λ '(max, to_imap, to_id, n) row,
      (if max <? row.1 then row.1 else max,
       <[row.2 := {| uid := row.1; seqnum := wrap 32 n + 1 |}]> to_imap,
       <[row.1 := row.2]> to_id, n + 1)) (max, A, B, n) rows
    = (foldl (λ m u, if m <? u then u else m) max rows.*1, insert_all A (numbered n rows),
       insert_all B rows, n + Z.of_nat (length rows))) by apply Hgen.
  clear rows. induction rows as [|[u id] rows IH]; intros max A B n; cbn [foldl fmap list_fmap];
    [by rewrite Z.add_0_r|].
  rewrite IH. cbn [fst snd numbered insert_all foldl]. f_equal. cbn [length]. lia.
Qed.

Lemma numbered_keys n rows : (numbered n rows).*1 = rows.*2.
Proof. revert n. induction rows as [|row rows IH]; intros n; cbn; [done|]. by rewrite IH. Qed.

Lemma numbered_entries rows :
  Z.of_nat (length rows) ≤ u32_max → (numbered 0 rows).*2 = entries rows.*1.
Proof.
  intros Hlen. unfold entries.
  enough (Hgen : ∀ rows n, Z.of_nat n + Z.of_nat (length rows) ≤ u32_max →
    (numbered (Z.of_nat n) rows).*2
    = imap (λ k u, {| uid := u; seqnum := Z.of_nat (n + k) + 1 |}) rows.*1) by (apply (Hgen rows 0%nat); lia).
  clear. induction rows as [|[u id] rows IH]; intros n Hlen; [done|]. cbn [length] in Hlen.
  cbn [numbered]. rewrite !fmap_cons. cbn [imap fst snd]. f_equal.
  - f_equal. rewrite wrap_id by width. lia.
  - replace (Z.of_nat n + 1) with (Z.of_nat (S n)) by lia. rewrite IH by lia.
    apply imap_ext. intros k u' _. unfold compose. do 2 f_equal. lia.
Qed.

(** The fields of a state read from a listing. *)
Lemma state_of_live v m rows :
  listing_ok rows → (map_to_list (id_to_imap (state_of v m rows))).*2 ≡ₚ entries rows.*1.
Proof.
  intros (_ & Hnd & _ & Hlen). unfold state_of. rewrite number_messages_spec. cbn [id_to_imap].
  rewrite insert_all_empty by (by rewrite numbered_keys). by rewrite numbered_entries.
Qed.

Lemma state_of_uid v m rows u :
  listing_ok rows → uid_to_id (state_of v m rows) !! u = None ↔ u ∉ rows.*1.
Proof.
  intros (Hs & _). apply sorted_lt_nodup in Hs. unfold state_of. rewrite number_messages_spec.
  cbn [uid_to_id]. rewrite list_elem_of_fmap. split.
  - intros Hnone ([u' id] & -> & Hin). cbn in Hnone.
    rewrite <- (insert_all_empty rows Hs) in Hin. apply elem_of_map_to_list in Hin. congruence.
  - intros Hno. destruct (insert_all ∅ rows !! u) as [id|] eqn:Hl; [|done]. exfalso. apply Hno.
    apply elem_of_map_to_list in Hl. rewrite insert_all_empty in Hl by done. by exists (u, id).
Qed.

Lemma state_of_total v m rows :
  listing_ok rows → total_messages (state_of v m rows) = Z.of_nat (length rows).
Proof.
  intros Hok. pose proof (state_of_live v m rows Hok) as Hp. apply Permutation_length in Hp.
  unfold entries in Hp. rewrite length_imap, !length_fmap in Hp.
  unfold state_of in *. rewrite number_messages_spec in *. cbn [id_to_imap total_messages] in *.
  rewrite length_map_to_list in Hp. lia.
Qed.

Lemma state_of_uid_max v m rows : uid_max (state_of v m rows) = max0 rows.*1.
Proof. unfold state_of. by rewrite number_messages_spec. Qed.

Lemma state_of_modseq v m rows : modseq (state_of v m rows) = m.
Proof. unfold state_of. by rewrite number_messages_spec. Qed.

Lemma state_of_next v m rows : next_state (state_of v m rows) = None.
Proof. unfold state_of. by rewrite number_messages_spec. Qed.

Lemma elem_of_entries view i :
  i ∈ entries view ↔ ∃ k, view !! k = Some (uid i) ∧ seqnum i = Z.of_nat k + 1.
Proof.
  unfold entries. rewrite list_elem_of_lookup. setoid_rewrite list_lookup_imap_Some. split.
  - intros (k & u & Hu & ->). by exists k.
  - intros (k & Hu & Hs). exists k, (uid i). split; [done|]. destruct i. cbn in *. congruence.
Qed.

Lemma entries_nodup view : NoDup (seqnum <$> entries view).
Proof.
  apply NoDup_alt. intros i j n Hi Hj. rewrite list_lookup_fmap in Hi, Hj.
  unfold entries in *. rewrite list_lookup_imap in Hi, Hj.
  destruct (view !! i), (view !! j); simplify_eq/=. lia.
Qed.

(** ** Refreshing *)

Lemma invalidate_spec new es : ∀ A B D,
  (invalidate new es (A, B, D)).1.1
  = insert_all A (filter (λ e, new !! uid e.2 ≠ None) es)
  ∧ (invalidate new es (A, B, D)).2 = D ++ (filter (λ e, new !! uid e.2 = None) es).*2.
Proof.
  induction es as [|e es IH]; intros A B D; [by rewrite app_nil_r|].
  unfold invalidate. cbn [foldl]. case_bool_decide as He.
  - rewrite filter_cons_False, filter_cons_True by (try done; by intros []).
    destruct (IH A (delete (uid e.2) B) (D ++ [e.2])) as [H1 H2]. split; [done|].
    unfold invalidate in H2. rewrite H2, <- app_assoc. done.
  - rewrite filter_cons_True, filter_cons_False by done.
    apply (IH (<[e.1 := e.2]> A) B D).
Qed.

Lemma nodup_fmap_filter {A} (f : A → Z) (P : A → Prop) `{∀ x, Decision (P x)} (l : list A) :
  NoDup (f <$> l) → NoDup (f <$> filter P l).
Proof.
  induction l as [|e l IH]; [done|]. rewrite fmap_cons, NoDup_cons, filter_cons. intros [He Hnd].
  destruct (decide (P e)); [|by apply IH]. rewrite fmap_cons. constructor; [|by apply IH].
  rewrite list_elem_of_fmap in He |- *. intros (x & Hxe & [_ Hx]%list_elem_of_filter). apply He. by exists x.
Qed.

Lemma filter_fmap_snd {V} (P : V → Prop) (Q : Z * V → Prop) `{∀ x, Decision (P x)}
    `{∀ x, Decision (Q x)} (l : list (Z * V)) :
  (∀ e, Q e ↔ P e.2) → (filter Q l).*2 = filter P l.*2.
Proof.
  intros HPQ. induction l as [|e l IH]; [done|]. rewrite fmap_cons, !filter_cons.
  destruct (decide (Q e)), (decide (P e.2)); cbn; rewrite <- ?IH; try done; by rewrite HPQ in *.
Qed.

Lemma filter_ext {A} (P Q : A → Prop) `{∀ x, Decision (P x)} `{∀ x, Decision (Q x)} l :
  Forall (λ x, P x ↔ Q x) l → filter P l = filter Q l.
Proof.
  induction 1 as [|x l Hx Hl IH]; [done|]. rewrite !filter_cons.
  destruct (decide (P x)), (decide (Q x)); rewrite ?IH; tauto || done.
Qed.

(** What a filter keeps and what it drops. *)
Lemma filter_split {A} (P Q R : A → Prop) `{∀ x, Decision (P x)} `{∀ x, Decision (Q x)}
    `{∀ x, Decision (R x)} l :
  Forall (λ x, (R x ↔ P x ∨ Q x) ∧ ¬ (P x ∧ Q x)) l → filter R l ≡ₚ filter P l ++ filter Q l.
Proof.
  induction 1 as [|x l [Hx Hd] Hl IH]; [done|]. rewrite !filter_cons.
  destruct (decide (R x)), (decide (P x)), (decide (Q x)); try tauto; rewrite IH; try done.
  apply Permutation_middle.
Qed.

Lemma in_step_start v m rows top :
  listing_ok rows → 0 ≤ top → Forall (λ u, u ≤ top) rows.*1 →
  in_step v rows.*1 top m rows (state_of v m rows).
Proof.
  intros Hok Hpos0 Htop. pose proof Hok as (Hs & _ & Hpos & _). split; try done.
  - by apply Forall_app.
  - apply Forall_forall. auto.
  - rewrite state_of_live by done. rewrite filter_all; [done|].
    apply Forall_forall. intros i (k & Hk & _)%elem_of_entries. by eapply list_elem_of_lookup_2.
  - rewrite state_of_next, filter_none; [done|].
    apply Forall_forall. intros i (k & Hk & _)%elem_of_entries Hno. apply Hno.
    by eapply list_elem_of_lookup_2.
  - apply state_of_uid_max.
  - apply state_of_modseq.
  - by rewrite state_of_next.
Qed.

(** A refresh keeps the client's positions: what is gone waits to be told. *)
Lemma in_step_refresh v view top m rows st h :
  in_step v view top m rows st →
  history_ok top (m, rows) [h] →
  in_step v view (Z.max top (max0 h.2.*1)) h.1 h.2 (refresh v st h).
Proof.
  intros Hst (Hok & Hsame & Hnew & _). destruct h as [m' rows']. cbn [fst snd] in *.
  destruct Hst as [Hsorted Hpos Hlist Htop0 Htop Hnew0 Hlive Hdel Hmax Hmod Hnext].
  unfold refresh, synchronize_messages. cbn [fst snd].
  rewrite Hmod. case_bool_decide as Hm.
  { subst m'. rewrite <- (Hsame eq_refl) in *. clear rows' Hsame. split; try done; [lia|].
    eapply Forall_impl; [exact Htop|]. cbn. lia. }
  apply Forall_app in Htop as [Htop _].
  assert (Hgone : Forall (λ i, uid i ∈ rows'.*1 → uid i ∈ rows.*1) (entries view)).
  { apply Forall_forall. intros i (k & Hk%list_elem_of_lookup_2 & _)%elem_of_entries Hi.
    rewrite Forall_forall in Hnew, Htop. destruct (Hnew _ Hi) as [?|Hlt]; [done|].
    specialize (Htop _ Hk). lia. }
  pose proof (invalidate_spec (uid_to_id (state_of v m' rows')) (map_to_list (id_to_imap st)) ∅
    (uid_to_id st) (from_option deletions [] (next_state st))) as [H1 H2].
  destruct (invalidate _ _ _) as [[to_imap to_id] dels]. cbn [fst snd] in H1, H2. subst to_imap dels.
  split; cbn [id_to_imap next_state uid_max modseq from_option deletions]; try done.
  - lia.
  - apply Forall_app. split; [eapply Forall_impl; [exact Htop|]; cbn; lia|].
    apply Forall_forall. intros u Hu%max0_ge. lia.
  - pose proof (max0_le view top) as Hle. rewrite Forall_forall in Hnew, Hnew0 |- *.
    intros u Hu. destruct (Hnew u Hu) as [Hin|Hlt]; [by apply Hnew0|right].
    specialize (Hle Htop0 Htop). lia.
  - rewrite insert_all_empty by apply nodup_fmap_filter, NoDup_fst_map_to_list.
    etrans; [apply reflexive_eq, (filter_fmap_snd (λ i, uid i ∈ rows'.*1))|].
    + intros e. rewrite state_of_uid by done. destruct (decide (uid e.2 ∈ rows'.*1)); tauto.
    + rewrite Hlive, list_filter_filter. apply reflexive_eq, filter_ext.
      eapply Forall_impl; [exact Hgone|]. cbn. tauto.
  - etrans; [apply Permutation_app; [exact Hdel|apply reflexive_eq,
      (filter_fmap_snd (λ i, uid i ∉ rows'.*1)); intros e; by rewrite state_of_uid]|].
    rewrite Hlive, list_filter_filter. symmetry. apply filter_split.
    eapply Forall_impl; [exact Hgone|]. cbn. intros i Hi.
    destruct (decide (uid i ∈ rows.*1)), (decide (uid i ∈ rows'.*1)); tauto.
  - apply state_of_modseq.
Qed.

(** ** The responses *)

(** The elements at positions, counted from [b + 1], that are not in [D]. *)
Fixpoint omit (b : Z) (D : list Z) (l : list Z) : list Z :=
  match l with
  | [] => []
  | x :: l => if bool_decide (b + 1 ∈ D) then omit (b + 1) D l else x :: omit (b + 1) D l
  end.

Lemma omit_filter (P : Z → Prop) `{∀ u, Decision (P u)} D l : ∀ b,
  (∀ j u, l !! j = Some u → b + 1 + Z.of_nat j ∈ D ↔ ¬ P u) → omit b D l = filter P l.
Proof.
  induction l as [|x l IH]; intros b HD; [done|]. cbn [omit]. rewrite filter_cons.
  assert (Hx : b + 1 ∈ D ↔ ¬ P x).
  { rewrite <- (HD 0%nat x) by done. by rewrite Z.add_0_r. }
  rewrite (IH (b + 1)).
  - case_bool_decide; destruct (decide (P x)); tauto || done.
  - intros j u Hu. rewrite <- (HD (S j) u Hu).
    by replace (b + 1 + Z.of_nat (S j)) with (b + 1 + 1 + Z.of_nat j) by lia.
Qed.

(** The EXPUNGE lines of ascending positions, read one after the other, take exactly
    these positions away: each is lowered by the lines before it. *)
Lemma expunge_lines_client D suffix : ∀ ids p b k,
  StronglySorted Z.lt ids → (∀ j, b < j → j ∈ ids ↔ j ∈ D) →
  Forall (λ i, b < i ≤ b + Z.of_nat (length suffix)) ids →
  Z.of_nat (length p) = b - k → 0 ≤ k →
  foldl client_read (p ++ suffix) (expunge_lines k ids) = p ++ omit b D suffix.
Proof.
  induction suffix as [|x suffix IH]; intros ids p b k Hs HD Hr Hp Hk.
  { destruct ids as [|i ids]; [done|]. apply Forall_cons in Hr as [Hi _]. cbn in Hi. lia. }
  cbn [omit]. destruct ids as [|i ids]; [|destruct (decide (i = b + 1)) as [->|Hi]].
  - rewrite bool_decide_eq_false_2 by (rewrite <- HD by lia; apply not_elem_of_nil).
    change (x :: omit (b + 1) D suffix) with ([x] ++ omit (b + 1) D suffix).
    rewrite app_assoc, <- (IH [] (p ++ [x]) (b + 1) k); [by rewrite <- app_assoc|done| |done| |done].
    + intros j Hj. apply HD. lia.
    + rewrite length_app. cbn. lia.
  - rewrite bool_decide_eq_true_2 by (rewrite <- HD by lia; by left).
    inversion Hs as [|? ? Hs' Hlt]; subst. cbn [expunge_lines foldl client_read].
    unfold saturating_sub. rewrite Z.max_r, (proj2 (Z.leb_le _ _)) by lia.
    replace (Z.to_nat (b + 1 - k - 1)) with (length p) by lia.
    rewrite delete_middle. apply IH; [done| | |lia|lia].
    + intros j Hj. rewrite <- HD by lia. rewrite elem_of_cons. split; [by right|]. intros [->|?]; [lia|done].
    + apply Forall_cons in Hr as [_ Hr]. rewrite Forall_forall in Hlt, Hr |- *.
      intros j Hj. specialize (Hlt j Hj). specialize (Hr j Hj). cbn [length] in Hr. lia.
  - pose proof Hs as Hs0. inversion Hs as [|? ? Hs' Hlt]; subst.
    pose proof Hr as [Hri _]%Forall_cons. rewrite bool_decide_eq_false_2.
    2:{ rewrite <- HD by lia. rewrite elem_of_cons. intros [?|Hin]; [lia|].
        rewrite Forall_forall in Hlt. specialize (Hlt _ Hin). lia. }
    change (x :: omit (b + 1) D suffix) with ([x] ++ omit (b + 1) D suffix).
    rewrite app_assoc, <- (IH (i :: ids) (p ++ [x]) (b + 1) k); [by rewrite <- app_assoc|done| | | |done].
    + intros j Hj. apply HD. lia.
    + rewrite Forall_forall in Hr |- *. intros j Hj. pose proof (Hr j Hj) as Hrj. cbn [length] in Hrj.
      apply elem_of_cons in Hj as [->|Hj]; [lia|].
      rewrite Forall_forall in Hlt. specialize (Hlt _ Hj). lia.
    + rewrite length_app. cbn. lia.
Qed.

Section Responses.
Context (view live : list Z) (dels : list ImapId).
Context (Hsorted : StronglySorted Z.lt view) (Hpos : Forall (λ u, 0 < u < u32_max) view)
        (Hdels : dels ≡ₚ filter (λ i, uid i ∉ live) (entries view)).

Lemma elem_of_dels i :
  i ∈ dels ↔ (uid i ∉ live) ∧ ∃ k, view !! k = Some (uid i) ∧ seqnum i = Z.of_nat k + 1.
Proof using Hdels. by rewrite Hdels, list_elem_of_filter, elem_of_entries. Qed.

Lemma vanished_client :
  dels ≠ [] →
  client_read view (UVanished (serialize_sequence (sort_unstable (uid <$> dels))))
  = filter (λ u, u ∈ live) view.
Proof using Hdels Hpos.
  intros Hne. assert (Hids : sort_unstable (uid <$> dels) ≡ₚ uid <$> dels) by apply merge_sort_Permutation.
  destruct (serialize_parse (sort_unstable (uid <$> dels)) 0) as (s & Hparse & Hexp).
  - intros Hnil. rewrite Hnil in Hids. apply Permutation_nil_l in Hids.
    symmetry in Hids. by apply fmap_nil_inv in Hids.
  - rewrite Hids. apply Forall_fmap, Forall_forall. intros i (_ & k & Hk & _)%elem_of_dels.
    apply list_elem_of_lookup_2 in Hk. rewrite Forall_forall in Hpos. specialize (Hpos _ Hk). cbn. lia.
  - cbn [client_read]. rewrite Hparse. apply filter_ext, Forall_forall. intros u Hu.
    rewrite Hexp, elem_of_list_to_set, Hids, list_elem_of_fmap. split.
    + intros Hno. destruct (decide (u ∈ live)) as [|Hlive]; [done|]. exfalso. apply Hno.
      apply list_elem_of_lookup in Hu as [k Hk].
      exists {| uid := u; seqnum := Z.of_nat k + 1 |}. split; [done|]. apply elem_of_dels. by eauto.
    + by intros Hlive (i & -> & [Hi _]%elem_of_dels).
Qed.

Lemma expunged_client :
  foldl client_read view (expunge_lines 0 (sort_unstable (seqnum <$> dels)))
  = filter (λ u, u ∈ live) view.
Proof using Hdels Hsorted.
  set (ids := sort_unstable (seqnum <$> dels)).
  assert (HD : ∀ n, n ∈ ids ↔ ∃ k u, n = Z.of_nat k + 1 ∧ view !! k = Some u ∧ u ∉ live).
  { intros n. unfold ids, sort_unstable. rewrite merge_sort_Permutation, list_elem_of_fmap. split.
    - intros (i & -> & (Hi & k & Hk & Hsq)%elem_of_dels). eauto.
    - intros (k & u & -> & Hk & Hu). exists {| uid := u; seqnum := Z.of_nat k + 1 |}.
      split; [done|]. apply elem_of_dels. by eauto. }
  pose proof (expunge_lines_client ids view ids [] 0 0) as Hlines.
  cbn [app] in Hlines. rewrite Hlines; [|..|done|lia].
  - apply omit_filter. intros j u Hu. rewrite HD. split.
    + intros (k & u' & Hj & Hk & Hu'). assert (k = j) as -> by lia. congruence.
    + intros Hno. exists j, u. split_and!; [lia|done|done].
  - apply sort_unstable_lt. rewrite Hdels. apply nodup_fmap_filter, entries_nodup.
  - done.
  - apply Forall_forall. intros n (k & u & -> & Hk%lookup_lt_Some & _)%HD. lia.
Qed.

(** Both forms of the response leave the client with the messages that are listed. *)
Lemma expunge_response_client qresync :
  dels ≠ [] →
  foldl client_read view
    (expunge_response qresync (sort_unstable ((λ i, if qresync then uid i else seqnum i) <$> dels)))
  = filter (λ u, u ∈ live) view.
Proof using Hdels Hpos Hsorted.
  intros Hne. destruct qresync; [by apply vanished_client|apply expunged_client].
Qed.
End Responses.

(** ** Announcing *)

(** What remains of the view is the beginning of the listing; the rest is new. *)
Lemma listing_split v view top m rows st :
  in_step v view top m rows st →
  rows.*1 = filter (λ u, u ∈ rows.*1) view ++ filter (λ u, max0 view < u) rows.*1.
Proof.
  intros [Hs _ (Hl & _) _ _ Hnew _ _ _ _ _]. rewrite (sorted_lt_split (max0 view)) at 1 by done. f_equal.
  apply sorted_lt_eq; [by apply sorted_lt_filter..|]. intros u. rewrite !list_elem_of_filter.
  rewrite Forall_forall in Hnew. split.
  - intros [Hle Hu]. destruct (Hnew u Hu); [done|lia].
  - intros [Hu Hv]. split; [by apply max0_ge|done].
Qed.

Lemma announce v view top m rows st qresync :
  in_step v view top m rows st →
  let '(out, st') := write_mailbox_changes qresync m (state_of v m rows) st in
  st' = state_of v m rows
  ∧ ∃ new, rows.*1 = foldl client_read view out ++ new
           ∧ (new = [] ∨ UExists (Z.of_nat (length rows)) ∈ out).
Proof.
  intros Hst. pose proof (listing_split _ _ _ _ _ _ Hst) as Hsplit.
  destruct Hst as [Hs Hpos Hok _ _ Hnew Hlive Hdel Hmax Hmod Hnext].
  unfold write_mailbox_changes, synchronize_messages. rewrite bool_decide_eq_true_2 by done.
  destruct (next_state st) as [[nxt dels]|]; cbn [next deletions from_option] in *.
  2:{ destruct Hnext as [-> Hview]. split; [done|]. exists []. rewrite app_nil_r, Hview. auto. }
  subst nxt. split; [done|]. exists (filter (λ u, max0 view < u) rows.*1).
  rewrite state_of_total, state_of_uid_max, Hmax by done. rewrite foldl_app.
  assert (Hkeep : foldl client_read view
    (if bool_decide (dels = []) then [] else expunge_response qresync
       (sort_unstable ((λ i, if qresync then uid i else seqnum i) <$> dels)))
    = filter (λ u, u ∈ rows.*1) view).
  { case_bool_decide as Hd; [|by apply expunge_response_client].
    subst dels. cbn [foldl]. symmetry. apply filter_all, Forall_forall. intros u Hu.
    destruct (decide (u ∈ rows.*1)) as [|Hno]; [done|]. exfalso.
    apply list_elem_of_lookup in Hu as [k Hk].
    apply (not_elem_of_nil {| uid := u; seqnum := Z.of_nat k + 1 |}). rewrite Hdel.
    apply list_elem_of_filter. split; [done|]. apply elem_of_entries. eauto. }
  rewrite Hkeep. set (buf := if bool_decide (dels = []) then _ else _). split.
  - rewrite Hsplit at 1. f_equal. by destruct (_ || _).
  - destruct (negb (bool_decide (buf = [])) || _) eqn:He.
    + right. rewrite elem_of_app. right. by left.
    + left. apply orb_false_iff in He as [_ He]. apply filter_none, Forall_forall.
      intros u Hu%max0_ge Hlt. unfold saturating_sub in He. apply Z.ltb_ge in He. lia.
Qed.

Lemma in_step_history v view h hist : ∀ top m rows st,
  in_step v view top m rows st → history_ok top (m, rows) (hist ++ [h]) →
  ∃ top', in_step v view top' h.1 h.2 (foldl (refresh v) st (hist ++ [h])).
Proof.
  induction hist as [|h' hist IH]; intros top m rows st Hst Hh.
  - eexists. by apply (in_step_refresh v view top m rows).
  - destruct Hh as (H1 & H2 & H3 & Hh). cbn [app foldl]. destruct h' as [m' rows'].
    eapply IH; [|exact Hh]. by apply (in_step_refresh v view top m rows st (m', rows')).
Qed.

(** ** Properties *)



Lemma members_ids mailbox_id properties :
  NoDup properties.*1 →
  NoDup (members mailbox_id properties).*2
  ∧ (∀ id, id ∈ (members mailbox_id properties).*2 → id ∈ properties.*1)
  ∧ (length (members mailbox_id properties) ≤ length properties)%nat.
Proof.
  induction properties as [|p ps IH]; [intros; split_and!; [constructor|by intros ?|done]|].
  rewrite fmap_cons. intros [Hp Hps]%NoDup_cons. destruct (IH Hps) as (H1 & H2 & H3).
  cbn [members omap list_omap length].
  fold (members mailbox_id ps). destruct (list_find _ p.2) as [[k item]|]; cbn [fmap option_fmap option_map].
  - rewrite fmap_cons. cbn [snd]. split_and!; [constructor; [by intros Hin%H2|done]| |cbn; lia].
    intros id [->|Hin]%elem_of_cons; [by left|right; by apply H2].
  - split_and!; [done| |lia]. intros id Hin. right. by apply H2.
Qed.

Lemma rows_ascending rows :
  NoDup rows.*1 → StronglySorted row_le rows → StronglySorted Z.lt rows.*1.
Proof.
  intros Hnd Hs. induction Hs as [|r rows Hs IH Hr]; [constructor|].
  rewrite fmap_cons in Hnd |- *. apply NoDup_cons in Hnd as [Hin Hnd]. constructor; [by apply IH|].
  apply Forall_forall. intros u Hu. assert (u ≠ r.1) by (by intros ->).
  apply list_elem_of_fmap in Hu as (r' & -> & Hr'). eapply Forall_forall in Hr; [|done].
  unfold row_le in Hr. lia.
Qed.

(** Reading a mailbox lists its messages in the order of their uids, one row for
    each message that is still in it, and numbers them from one. *)
Theorem fetch_messages_listing mailbox_id v m properties :
  NoDup properties.*1 → NoDup (members mailbox_id properties).*1 →
  Forall (λ u, 0 < u < u32_max) (members mailbox_id properties).*1 →
  Z.of_nat (length properties) ≤ u32_max →
  ∃ rows, fetch_messages mailbox_id v m properties = state_of v m rows
          ∧ listing_ok rows ∧ rows ≡ₚ members mailbox_id properties.
Proof.
  intros Hids Huids Hpos Hlen.
  set (uid_map := foldl (λ m p, match list_find (λ item, item.1 = mailbox_id) p.2 with
                               | Some (_, item) => <[item.2 := p.1]> m
                               | None => m end) (∅ : gmap Z Z) properties).
  assert (Hmap : uid_map = insert_all ∅ (members mailbox_id properties)).
  { unfold uid_map. generalize (∅ : gmap Z Z). clear. induction properties as [|p ps IH]; intros M; [done|].
    cbn [foldl members omap list_omap]. rewrite IH.
    by destruct (list_find (λ item, item.1 = mailbox_id) p.2) as [[k item]|]. }
  exists (merge_sort row_le (map_to_list uid_map)).
  assert (Hperm : merge_sort row_le (map_to_list uid_map) ≡ₚ members mailbox_id properties).
  { rewrite merge_sort_Permutation, Hmap. by apply insert_all_empty. }
  split; [done|]. split; [|done].
  destruct (members_ids mailbox_id properties Hids) as (Hnd & _ & Hle).
  unfold listing_ok. split_and!.
  - apply rows_ascending; [by rewrite Hperm|]. apply (StronglySorted_merge_sort row_le).
  - by rewrite Hperm.
  - by rewrite Hperm.
  - rewrite Hperm. lia.
Qed.

Lemma fetch_messages_listing_witness :
  ∃ rows, fetch_messages 3 5 (Some 1) [(10, [(3, 4); (8, 1)]); (11, [(8, 2)]); (12, [(3, 2)])]
          = state_of 5 (Some 1) rows
          ∧ listing_ok rows ∧ rows ≡ₚ [(4, 10); (2, 12)].
Proof.
  apply (fetch_messages_listing 3 5 (Some 1) [(10, [(3, 4); (8, 1)]); (11, [(8, 2)]); (12, [(3, 2)])]).
  all: apply (bool_decide_unpack _); by vm_compute.
Defined.

Lemma state_of_uids v m rows x :
  listing_ok rows →
  x ∈ rows.*1 ↔ ∃ id i, id_to_imap (state_of v m rows) !! id = Some i ∧ uid i = x.
Proof.
  intros Hok. pose proof (state_of_live v m rows Hok) as Hl. split.
  - intros [k Hk]%list_elem_of_lookup.
    assert (Hi : {| uid := x; seqnum := Z.of_nat k + 1 |} ∈ (map_to_list (id_to_imap (state_of v m rows))).*2).
    { rewrite Hl. apply elem_of_entries. eauto. }
    apply list_elem_of_fmap in Hi as ([id i] & Heq & Hi%elem_of_map_to_list). cbn in Heq. subst i. eauto.
  - intros (id & i & Hi & <-). apply elem_of_map_to_list in Hi.
    assert (He : i ∈ entries rows.*1).
    { rewrite <- Hl. apply list_elem_of_fmap. by exists (id, i). }
    apply elem_of_entries in He as (k & Hk & _). by eapply list_elem_of_lookup_2.
Qed.

(** The uids of a sequence set are split between the messages it selects and the
    uids that are reported missing. *)
Theorem sequence_partition v m rows sequence x :
  listing_ok rows → flat sequence = true → is_saved_search sequence = false → rows ≠ [] →
  let st := state_of v m rows in
  x ∈ expand sequence (uid_max st) ↔
  (∃ ids id i, sequence_to_ids sequence true None st = Some ids ∧ ids !! id = Some i ∧ uid i = x)
  ∨ x ∈ sequence_expand_missing sequence true None st.
Proof.
  intros Hok Hflat Hsaved Hne. cbv zeta. unfold sequence_to_ids, sequence_expand_missing. rewrite Hsaved. cbn [negb].
  unfold sort_unstable at 1. rewrite merge_sort_Permutation, list_elem_of_filter, elem_of_elements.
  rewrite (state_of_uid v m rows) by done. rewrite bool_decide_eq_false_2.
  2:{ intros Hnil. pose proof (state_of_total v m rows Hok) as Ht.
      unfold state_of in Hnil, Ht. destruct (number_messages rows) as [[[? ?] ?] ?].
      cbn in Hnil, Ht. subst. rewrite map_size_empty in Ht. destruct rows; [done|cbn in Ht; lia]. }
  rewrite <- (contains_expand sequence) by done. split.
  - intros Hx. destruct (decide (x ∈ rows.*1)) as [Hin|]; [left|by right].
    apply (state_of_uids v m) in Hin as (id & i & Hi & <-); [|done].
    eexists _, id, i. split; [done|]. split; [|done]. by apply map_lookup_filter_Some.
  - intros [(ids & id & i & [= <-] & Hi & <-)|[_ Hx]]; [|done].
    by apply map_lookup_filter_Some in Hi as [_ ?].
Qed.

Lemma sequence_partition_witness :
  let st := state_of 5 (Some 1) [(2, 12); (4, 10)] in
  3 ∈ expand (Range (Some 2) None) (uid_max st) ↔
  (∃ ids id i, sequence_to_ids (Range (Some 2) None) true None st = Some ids
               ∧ ids !! id = Some i ∧ uid i = 3)
  ∨ 3 ∈ sequence_expand_missing (Range (Some 2) None) true None st.
Proof.
  apply (sequence_partition 5 (Some 1) [(2, 12); (4, 10)] (Range (Some 2) None) 3).
  all: by apply (bool_decide_unpack _); vm_compute.
Defined.

(** An APPEND to the selected mailbox enters the new message with its uid in place of
    its document, and raises [uid_max] before the client was told: the next NOOP finds
    the new message and announces nothing. *)
Lemma append_unannounced :
  let rows := [(1, 10); (2, 11)] in
  let st := (append_messages [{| up_uid := 3; up_id := 20 |}] (Some 2) (state_of 5 (Some 1) rows)).2 in
  uid_to_id st !! 3 = Some 3
  ∧ id_to_imap st !! 20 = Some {| uid := 3; seqnum := 3 |}
  ∧ (write_mailbox_changes false (Some 2) (state_of 5 (Some 2) (rows ++ [(3, 20)])) st).1 = [].
Proof. by vm_compute. Qed.
