(* ===== verification/Utf7.v ===== *)
(** * Modified UTF-7 of mailbox names

    crates/imap-proto/src/utf7.rs, with [String::from_utf16] of the standard library. *)

From S2P Require Import Prelude Utf8.

#[local] Open Scope chr_scope.

(** ** Definitions *)

Definition UTF_7_RANK : list Z :=
  [255; 255; 255; 255; 255; 255; 255; 255; 255; 255; 255; 255; 255; 255; 255; 255; 255; 255; 255;
   255; 255; 255; 255; 255; 255; 255; 255; 255; 255; 255; 255; 255; 255; 255; 255; 255; 255; 255;
   255; 255; 255; 255; 255; 62; 63; 255; 255; 255; 52; 53; 54; 55; 56; 57; 58; 59; 60; 61; 255;
   255; 255; 255; 255; 255; 255; 0; 1; 2; 3; 4; 5; 6; 7; 8; 9; 10; 11; 12; 13; 14; 15; 16; 17; 18;
   19; 20; 21; 22; 23; 24; 25; 255; 255; 255; 255; 255; 255; 26; 27; 28; 29; 30; 31; 32; 33; 34;
   35; 36; 37; 38; 39; 40; 41; 42; 43; 44; 45; 46; 47; 48; 49; 50; 51; 255; 255; 255; 255; 255].

Definition UTF_7_MAP : list Z :=
  str "ABCDEFGHIJKLMNOPQRSTUVWXYZabcdefghijklmnopqrstuvwxyz0123456789+,".

(** [UTF_7_MAP[i]]; the index is masked to six bits. *)
Definition utf7_digit (i : Z) : Z := default 0 (UTF_7_MAP !! Z.to_nat i).

(** [String::from_utf16] *)
Fixpoint from_utf16 (l : list Z) : option (list Z) :=
  match l with
  | [] => Some []
  | u :: l =>
      if (55296 <=? u) && (u <? 56320) then
        match l with
        | u2 :: l =>
            if (56320 <=? u2) && (u2 <? 57344)
            then cons (65536 + (u - 55296) * 1024 + (u2 - 56320)) <$> from_utf16 l
            else None
        | [] => None
        end
      else if (56320 <=? u) && (u <? 57344) then None
      else cons u <$> from_utf16 l
  end.

(** One base64 digit of a shifted run: the units pushed, the bits and the value. *)
Definition decode_digit (bits v rank : Z) : list Z * Z * Z :=
  let v := wrap 32 (Z.lor (shl 32 v 6) rank) in
  let bits := bits + 6 in
  if 16 <=? bits
  then ([Z.land (Z.shiftr v (bits - 16)) 65535], bits - 16, v)
  else ([], bits, v).

Fixpoint decode_units (text : list Z) (shifted : bool) (bits v : Z) : option (list Z) :=
  match text with
  | [] => Some []
  | ch :: text =>
      if shifted then
        if ch =? "-" then decode_units text false 0 0
        else if 127 <? ch then None
        else
          rank ← UTF_7_RANK !! Z.to_nat ch;
          if rank =? 255 then None
          else
            let '(units, bits, v) := decode_digit bits v rank in
            app units <$> decode_units text true bits v
      else if ch =? "&" then
        match text with
        | next :: rest =>
            if next =? "-" then cons ("&" : Z) <$> decode_units rest false bits v
            else decode_units text true bits v
        | [] => Some [wrap 16 ch]
        end
      else cons (wrap 16 ch) <$> decode_units text false bits v
  end.

Definition utf7_decode (text : list Z) : option (list Z) :=
  units ← decode_units text false 0 0; from_utf16 units.

(** [while bits >= 6]; there are at most 20 bits. *)
Fixpoint emit_digits (fuel : nat) (u bits : Z) : list Z * Z :=
  match fuel with
  | S fuel =>
      if 6 <=? bits then
        let '(out, rest) := emit_digits fuel u (bits - 6) in
        (utf7_digit (Z.land (Z.shiftr u (bits - 6)) 63) :: out, rest)
      else ([], bits)
  | O => ([], bits)
  end.

(** The end of a shifted run. *)
Definition unshift (shifted : bool) (u bits : Z) : list Z :=
  if shifted then
    (if 0 <? bits then [utf7_digit (Z.land (shl 32 u (6 - bits)) 63)] else []) ++ str "-"
  else [].

Fixpoint utf7_encode_from (text : list Z) (shifted : bool) (bits u : Z) : list Z :=
  match text with
  | [] => unshift shifted u bits
  | ch_ :: text =>
      let ch := wrap 16 ch_ in
      if (32 <=? ch) && (ch <? 127) then
        unshift shifted u bits
        ++ (if ch =? 38 then str "&-" else [ch_])
        ++ utf7_encode_from text false (if shifted then 0 else bits) u
      else
        let u := Z.lor (shl 32 u 16) ch in
        let '(out, bits) := emit_digits 4 u (bits + 16) in
        (if negb shifted then str "&" else []) ++ out ++ utf7_encode_from text true bits u
  end.

Definition utf7_encode (text : list Z) : list Z := utf7_encode_from text false 0 0.

Definition utf7_maybe_decode (text : list Z) (is_rev2 : bool) : list Z :=
  if is_rev2 then text else default text (utf7_decode text).

(** ** Lemmas *)

(** The characters of one UTF-16 unit. *)
Definition is_unit (c : Z) : bool := is_char c && (c <? 65536).

Lemma is_unit_range c : is_unit c = true ↔ 0 ≤ c < 55296 ∨ 57344 ≤ c < 65536.
Proof. unfold is_unit. rewrite andb_true_iff, is_char_range. lia. Qed.

Lemma from_utf16_units l : Forall (λ c, is_unit c = true) l → from_utf16 l = Some l.
Proof.
  induction 1 as [|c l Hc Hl IH]; [done|]. apply is_unit_range in Hc. cbn [from_utf16].
  assert (Hf : (55296 <=? c) && (c <? 56320) = false)
    by (destruct (Z.leb_spec 55296 c), (Z.ltb_spec c 56320); cbn; lia || done).
  assert (Hf2 : (56320 <=? c) && (c <? 57344) = false)
    by (destruct (Z.leb_spec 56320 c), (Z.ltb_spec c 57344); cbn; lia || done).
  by rewrite Hf, Hf2, IH.
Qed.

(** A digit reads back as its rank and ends no run. *)
Lemma utf7_digit_rank d :
  0 ≤ d < 64 →
  UTF_7_RANK !! Z.to_nat (utf7_digit d) = Some d ∧ (utf7_digit d =? "-") = false
  ∧ (127 <? utf7_digit d) = false ∧ (d =? 255) = false.
Proof.
  intros Hd. assert (Hb : is_byte d) by width.
  revert Hd. revert d Hb. apply (byte_cases (λ d, 0 ≤ d < 64 → _)). by vm_compute.
Qed.

Lemma decode_units_digit d text bits v :
  0 ≤ d < 64 →
  decode_units (utf7_digit d :: text) true bits v
  = let '(units, bits, v) := decode_digit bits v d in app units <$> decode_units text true bits v.
Proof.
  intros Hd. destruct (utf7_digit_rank d Hd) as (H1 & H2 & H3 & H4).
  cbn [decode_units]. rewrite H2, H3, H1. cbn [mbind option_bind]. by rewrite H4.
Qed.

(** *** Low bits *)

Lemma div_mod_low a i j : 0 ≤ i → 0 ≤ j → (a / 2 ^ i) mod 2 ^ j = (a mod 2 ^ (i + j)) / 2 ^ i.
Proof.
  intros Hi Hj. assert (0 < 2 ^ i) by (apply Z.pow_pos_nonneg; lia).
  assert (0 < 2 ^ j) by (apply Z.pow_pos_nonneg; lia).
  rewrite Z.pow_add_r, Z.rem_mul_r by lia. pose proof (Z.mod_pos_bound a (2 ^ i)).
  rewrite Z.add_comm, (Z.mul_comm (2 ^ i)), Z.div_add_l, (Z.div_small (a mod 2 ^ i)) by lia. lia.
Qed.

Lemma wrap_low w k a : 0 ≤ k ≤ w → wrap w a mod 2 ^ k = a mod 2 ^ k.
Proof.
  intros Hk. unfold wrap. apply Z.mod_mod_divide. exists (2 ^ (w - k)).
  rewrite <- Z.pow_add_r by lia. f_equal. lia.
Qed.

Lemma land_low a k : 0 ≤ k → Z.land a (2 ^ k - 1) = a mod 2 ^ k.
Proof. apply land_ones_low. Qed.

(** Pushing [n] bits below the value. *)
Lemma push_low v d b n :
  0 ≤ b → 0 ≤ n → b + n ≤ 32 → 0 ≤ d < 2 ^ n →
  wrap 32 (Z.lor (shl 32 v n) d) mod 2 ^ (b + n) = v mod 2 ^ b * 2 ^ n + d.
Proof.
  intros Hb Hn Hw Hd. assert (0 < 2 ^ n) by (apply Z.pow_pos_nonneg; lia).
  assert (0 < 2 ^ b) by (apply Z.pow_pos_nonneg; lia).
  assert (0 < 2 ^ (32 - n)) by (apply Z.pow_pos_nonneg; lia). rewrite wrap_low by lia. unfold shl, wrap.
  rewrite Z.shiftl_mul_pow2 by lia. rewrite Z.lor_comm.
  assert (Hfac : (v * 2 ^ n) mod 2 ^ 32 = v mod 2 ^ (32 - n) * 2 ^ n).
  { replace (2 ^ 32) with (2 ^ (32 - n) * 2 ^ n) by (rewrite <- Z.pow_add_r by lia; f_equal; lia).
    apply Z.mul_mod_distr_r; lia. }
  rewrite Hfac, lor_add by lia. rewrite Z.pow_add_r by lia.
  rewrite (Z.add_comm d), (Z.mul_comm (2 ^ b)), Z.rem_mul_r by lia.
  rewrite (Z.add_comm (_ * _) d) at 1. rewrite Z.mod_add, (Z.mod_small d) by lia.
  rewrite (Z.add_comm (_ * _) d), Z.div_add, (Z.div_small d) by lia. rewrite Z.add_0_l.
  rewrite Z.mod_mod_divide; [lia|]. exists (2 ^ (32 - n - b)). rewrite <- Z.pow_add_r by lia. f_equal. lia.
Qed.

(** The value of the decoder after a digit. *)
Definition pushed (v d : Z) : Z := wrap 32 (Z.lor (shl 32 v 6) d).

Lemma pushed_low b v d :
  0 ≤ b < 16 → 0 ≤ d < 64 → pushed v d mod 2 ^ (b + 6) = v mod 2 ^ b * 64 + d.
Proof. intros Hb Hd. apply (push_low v d b 6); lia. Qed.

Lemma decode_digit_spec b v d :
  0 ≤ b < 16 → 0 ≤ d < 64 →
  decode_digit b v d
  = if 10 <=? b then ([(v mod 2 ^ b * 64 + d) / 2 ^ (b - 10)], b - 10, pushed v d)
    else ([], b + 6, pushed v d).
Proof.
  intros Hb Hd. unfold decode_digit. fold (pushed v d). destruct (Z.leb_spec 10 b).
  - rewrite (proj2 (Z.leb_le 16 (b + 6))) by lia. replace (b + 6 - 16) with (b - 10) by lia.
    do 3 f_equal. change 65535 with (2 ^ 16 - 1). rewrite land_low, Z.shiftr_div_pow2 by lia.
    rewrite div_mod_low by lia. replace (b - 10 + 16) with (b + 6) by lia. by rewrite pushed_low.
  - by rewrite (proj2 (Z.leb_gt 16 (b + 6))) by lia.
Qed.

(** A digit of the encoder. *)
Lemma emit_digit u i k :
  0 ≤ i → i + 6 ≤ k → Z.land (Z.shiftr u i) 63 = (u mod 2 ^ k) / 2 ^ i mod 64.
Proof.
  intros Hi Hk. change 63 with (2 ^ 6 - 1). rewrite land_low, Z.shiftr_div_pow2 by lia.
  change 64 with (2 ^ 6). rewrite !div_mod_low by lia. f_equal. symmetry. apply Z.mod_mod_divide.
  exists (2 ^ (k - (i + 6))). rewrite <- Z.pow_add_r by lia. f_equal. lia.
Qed.

(** *** The two sides of a shifted run *)

(** The encoder holds [eb] bits back, the decoder has read [db] bits of a character
    that is still to come out. *)
Definition in_run (eb u db v : Z) (pend : list Z) : Prop :=
  (eb = 0 ∧ db = 0 ∧ pend = [])
  ∨ ∃ c, 0 ≤ c < 65536 ∧ pend = [c]
      ∧ (eb = 4 ∧ db = 12 ∧ v mod 2 ^ 12 = c / 16 ∧ u mod 2 ^ 4 = c mod 16
         ∨ eb = 2 ∧ db = 14 ∧ v mod 2 ^ 14 = c / 4 ∧ u mod 2 ^ 2 = c mod 4).

(** A digit that is read completes a unit, or does not. *)
Lemma read_more b v d text :
  0 ≤ b < 10 → 0 ≤ d < 64 →
  decode_units (utf7_digit d :: text) true b v = decode_units text true (b + 6) (pushed v d).
Proof.
  intros Hb Hd. rewrite decode_units_digit, decode_digit_spec, (proj2 (Z.leb_gt 10 b)) by lia.
  by destruct (decode_units text true (b + 6) (pushed v d)).
Qed.

Lemma read_unit b v d text :
  10 ≤ b < 16 → 0 ≤ d < 64 →
  decode_units (utf7_digit d :: text) true b v
  = cons ((v mod 2 ^ b * 64 + d) / 2 ^ (b - 10)) <$> decode_units text true (b - 10) (pushed v d).
Proof.
  intros Hb Hd. rewrite decode_units_digit, decode_digit_spec, (proj2 (Z.leb_le 10 b)) by lia.
  by destruct (decode_units text true (b - 10) (pushed v d)).
Qed.

Lemma low_of_low a i j x : 0 ≤ i ≤ j → a mod 2 ^ j = x → a mod 2 ^ i = x mod 2 ^ i.
Proof.
  intros Hij <-. symmetry. apply Z.mod_mod_divide. exists (2 ^ (j - i)).
  rewrite <- Z.pow_add_r by lia. f_equal. lia.
Qed.

(** The padding and the end of a run. *)
Lemma unshift_decode eb u db v pend text :
  in_run eb u db v pend →
  decode_units (unshift true u eb ++ text) true db v = app pend <$> decode_units text false 0 0.
Proof.
  intros Hrun. unfold unshift.
  assert (Hdash : ∀ b v, decode_units (str "-" ++ text) true b v = decode_units text false 0 0) by done.
  destruct Hrun as [(-> & -> & ->)|(c & Hc & -> & Hcase)].
  { cbn [Z.ltb Z.compare app]. rewrite Hdash. by destruct (decode_units text false 0 0). }
  assert (Hpad : ∀ k, k = 2 ∨ k = 4 → u mod 2 ^ k = c mod 2 ^ k →
    Z.land (shl 32 u (6 - k)) 63 = c mod 2 ^ k * 2 ^ (6 - k)).
  { intros k Hk Hu. change 63 with (2 ^ 6 - 1). rewrite land_low by lia. unfold shl.
    rewrite wrap_low, Z.shiftl_mul_pow2 by lia.
    replace (2 ^ 6) with (2 ^ k * 2 ^ (6 - k)) by (by destruct Hk as [->| ->]).
    rewrite Z.mul_mod_distr_r by (destruct Hk as [->| ->]; lia). by rewrite Hu. }
  destruct Hcase as [(-> & -> & Hv & Hu)|(-> & -> & Hv & Hu)].
  - rewrite (Hpad 4) by (try done; by right). cbn [Z.ltb Z.compare]. rewrite <- app_assoc. cbn [app].
    rewrite read_unit by (lia || (change (2 ^ 4) with 16; change (2 ^ (6 - 4)) with 4; Z.div_mod_to_equations; lia)).
    rewrite Hdash, Hv. change (2 ^ 4) with 16. change (2 ^ (6 - 4)) with 4. change (2 ^ (12 - 10)) with 4.
    assert ((c / 16 * 64 + c mod 16 * 4) / 4 = c) as -> by (Z.div_mod_to_equations; lia). done.
  - rewrite (Hpad 2) by (try done; by left). cbn [Z.ltb Z.compare]. rewrite <- app_assoc. cbn [app].
    rewrite read_unit by (lia || (change (2 ^ 2) with 4; change (2 ^ (6 - 2)) with 16; Z.div_mod_to_equations; lia)).
    rewrite Hdash, Hv. change (2 ^ 2) with 4. change (2 ^ (6 - 2)) with 16. change (2 ^ (14 - 10)) with 16.
    assert ((c / 4 * 64 + c mod 4 * 16) / 16 = c) as -> by (Z.div_mod_to_equations; lia). done.
Qed.

(** The digits of the encoder for the next character, by the bits held back. *)
Lemma emit_spec u ch eb :
  eb = 0 ∨ eb = 2 ∨ eb = 4 → 0 ≤ ch < 65536 →
  let u' := Z.lor (shl 32 u 16) ch in
  let w := u mod 2 ^ eb * 65536 + ch in
  u' mod 2 ^ (eb + 16) = w
  ∧ emit_digits 4 u' (eb + 16)
    = if eb =? 0 then ([utf7_digit (w / 2 ^ 10 mod 64); utf7_digit (w / 2 ^ 4 mod 64)], 4)
      else if eb =? 4 then
        ([utf7_digit (w / 2 ^ 14 mod 64); utf7_digit (w / 2 ^ 8 mod 64); utf7_digit (w / 2 ^ 2 mod 64)], 2)
      else
        ([utf7_digit (w / 2 ^ 12 mod 64); utf7_digit (w / 2 ^ 6 mod 64); utf7_digit (w / 2 ^ 0 mod 64)], 0).
Proof.
  intros Heb Hch. cbv zeta. set (u' := Z.lor (shl 32 u 16) ch).
  assert (Hw : u' mod 2 ^ (eb + 16) = u mod 2 ^ eb * 65536 + ch).
  { rewrite <- (wrap_low 32) by lia. unfold u'. rewrite push_low by lia. done. }
  split; [done|]. rewrite <- Hw. clearbody u'.
  assert (Hemit : ∀ i k, 0 ≤ i → i + 6 ≤ k →
    utf7_digit (Z.land (Z.shiftr u' i) 63) = utf7_digit ((u' mod 2 ^ k) / 2 ^ i mod 64))
    by (intros; f_equal; by apply emit_digit).
  destruct Heb as [->|[->| ->]]; cbn [Z.eqb Pos.eqb].
  - change (0 + 16) with 16. rewrite <- !Hemit by lia. reflexivity.
  - change (2 + 16) with 18. rewrite <- !Hemit by lia. reflexivity.
  - change (4 + 16) with 20. rewrite <- !Hemit by lia. reflexivity.
Qed.

(** The digits [out] of the character [ch] leave [eb'] bits, and the decoder reads what
    was pending and, up to these bits, the character. *)
Definition reads (u' ch db v : Z) (pend : list Z) (out : list Z * Z) : Prop :=
  ∃ d ds eb' db' v' units pend',
    out = (utf7_digit d :: ds, eb') ∧ 0 ≤ d < 64
    ∧ in_run eb' u' db' v' pend' ∧ units ++ pend' = pend ++ [ch]
    ∧ ∀ text, decode_units (utf7_digit d :: ds ++ text) true db v
              = app units <$> decode_units text true db' v'.

Section RunStep.
Context (u' v ch : Z) (Hch : 0 ≤ ch < 65536).

Lemma run_step_0 :
  u' mod 2 ^ 16 = ch →
  reads u' ch 0 v [] ([utf7_digit (ch / 2 ^ 10 mod 64); utf7_digit (ch / 2 ^ 4 mod 64)], 4).
Proof using Hch.
  intros Hlow.
  exists (ch / 2 ^ 10 mod 64), [utf7_digit (ch / 2 ^ 4 mod 64)], 4, 12,
    (pushed (pushed v (ch / 2 ^ 10 mod 64)) (ch / 2 ^ 4 mod 64)), [], [ch].
  split_and!; [done|by apply Z.mod_pos_bound..| |done|].
  + right. exists ch. split_and!; [lia..|done|]. left. split_and!; [done..| |].
    * rewrite (pushed_low 6), (pushed_low 0) by (lia || by apply Z.mod_pos_bound).
      rewrite Z.mod_1_r. change (2 ^ 10) with 1024. change (2 ^ 4) with 16. Z.div_mod_to_equations. lia.
    * by rewrite (low_of_low _ 4 16 _ ltac:(lia) Hlow).
  + intros text. cbn [app]. rewrite !read_more by (lia || by apply Z.mod_pos_bound).
    by destruct (decode_units text true _ _).
Qed.

Context (c : Z) (Hc : 0 ≤ c < 65536).

Lemma run_step_4 :
  let w := c mod 16 * 65536 + ch in
  u' mod 2 ^ 20 = w → v mod 2 ^ 12 = c / 16 →
  reads u' ch 12 v [c]
    ([utf7_digit (w / 2 ^ 14 mod 64); utf7_digit (w / 2 ^ 8 mod 64); utf7_digit (w / 2 ^ 2 mod 64)], 2).
Proof using Hch Hc.
  intros w Hlow Hv.
  set (v1 := pushed v (w / 2 ^ 14 mod 64)).
  set (v2 := pushed v1 (w / 2 ^ 8 mod 64)).
  assert (Hv1 : v1 mod 2 ^ 2 = ch / 2 ^ 14).
  { unfold v1. rewrite (low_of_low _ 2 18 _ ltac:(lia)
      (pushed_low 12 v (w / 2 ^ 14 mod 64) ltac:(lia) ltac:(by apply Z.mod_pos_bound))), Hv.
    unfold w. change (2 ^ 14) with 16384. change (2 ^ 2) with 4. Z.div_mod_to_equations. lia. }
  exists (w / 2 ^ 14 mod 64), [utf7_digit (w / 2 ^ 8 mod 64); utf7_digit (w / 2 ^ 2 mod 64)], 2, 14,
    (pushed v2 (w / 2 ^ 2 mod 64)), [c], [ch].
  split_and!; [done|by apply Z.mod_pos_bound..| |done|].
  + right. exists ch. split_and!; [lia..|done|]. right. split_and!; [done..| |].
    * unfold v2. rewrite (pushed_low 8), (pushed_low 2), Hv1 by (lia || by apply Z.mod_pos_bound).
      unfold w. change (2 ^ 14) with 16384. change (2 ^ 8) with 256. change (2 ^ 2) with 4.
      Z.div_mod_to_equations. lia.
    * rewrite (low_of_low _ 2 20 _ ltac:(lia) Hlow). unfold w. change (2 ^ 2) with 4.
      Z.div_mod_to_equations. lia.
  + intros text. cbn [app]. rewrite read_unit by (lia || by apply Z.mod_pos_bound). fold v1.
    change (12 - 10) with 2. rewrite !read_more by (lia || by apply Z.mod_pos_bound).
    rewrite Hv. replace ((c / 16 * 64 + w / 2 ^ 14 mod 64) / 2 ^ 2) with c; [done|].
    unfold w. change (2 ^ 14) with 16384. change (2 ^ 2) with 4. Z.div_mod_to_equations. lia.
Qed.

Lemma run_step_2 :
  let w := c mod 4 * 65536 + ch in
  u' mod 2 ^ 18 = w → v mod 2 ^ 14 = c / 4 →
  reads u' ch 14 v [c]
    ([utf7_digit (w / 2 ^ 12 mod 64); utf7_digit (w / 2 ^ 6 mod 64); utf7_digit (w / 2 ^ 0 mod 64)], 0).
Proof using Hch Hc.
  intros w Hlow Hv.
  set (v1 := pushed v (w / 2 ^ 12 mod 64)).
  set (v2 := pushed v1 (w / 2 ^ 6 mod 64)).
  assert (Hv1 : v1 mod 2 ^ 4 = ch / 2 ^ 12).
  { unfold v1. rewrite (low_of_low _ 4 20 _ ltac:(lia)
      (pushed_low 14 v (w / 2 ^ 12 mod 64) ltac:(lia) ltac:(by apply Z.mod_pos_bound))), Hv.
    unfold w. change (2 ^ 12) with 4096. change (2 ^ 4) with 16. Z.div_mod_to_equations. lia. }
  exists (w / 2 ^ 12 mod 64), [utf7_digit (w / 2 ^ 6 mod 64); utf7_digit (w / 2 ^ 0 mod 64)], 0, 0,
    (pushed v2 (w / 2 ^ 0 mod 64)), [c; ch], [].
  split_and!; [done|by apply Z.mod_pos_bound..|by left|done|].
  intros text. cbn [app]. rewrite read_unit by (lia || by apply Z.mod_pos_bound). fold v1.
  change (14 - 10) with 4. rewrite read_more by (lia || by apply Z.mod_pos_bound). fold v2.
  change (4 + 6) with 10. rewrite read_unit by (lia || by apply Z.mod_pos_bound). change (10 - 10) with 0.
  unfold v2 at 1. rewrite (pushed_low 4), Hv1, Hv by (lia || by apply Z.mod_pos_bound).
  replace ((c / 4 * 64 + w / 2 ^ 12 mod 64) / 2 ^ 4) with c.
  2:{ unfold w. change (2 ^ 12) with 4096. change (2 ^ 4) with 16. Z.div_mod_to_equations. lia. }
  replace (((ch / 2 ^ 12 * 64 + w / 2 ^ 6 mod 64) * 64 + w / 2 ^ 0 mod 64) / 2 ^ 0) with ch.
  2:{ unfold w. change (2 ^ 12) with 4096. change (2 ^ 6) with 64. change (2 ^ 0) with 1.
      Z.div_mod_to_equations. lia. }
  by destruct (decode_units text true 0 _).
Qed.
End RunStep.

(** One more character of a shifted run. *)
Lemma run_step ch eb u db v pend :
  in_run eb u db v pend → 0 ≤ ch < 65536 →
  let u' := Z.lor (shl 32 u 16) ch in reads u' ch db v pend (emit_digits 4 u' (eb + 16)).
Proof.
  intros Hrun Hch. cbv zeta.
  assert (Heb : eb = 0 ∨ eb = 2 ∨ eb = 4) by (destruct Hrun as [(->&_)|(c&_&_&[(->&_)|(->&_)])]; auto).
  destruct (emit_spec u ch eb Heb Hch) as [Hlow Hemit]. cbv zeta in Hlow, Hemit. rewrite Hemit.
  destruct Hrun as [(-> & -> & ->)|(c & Hc & -> & [(-> & -> & Hv & Hu)|(-> & -> & Hv & Hu)])];
    cbn [Z.eqb Pos.eqb]; rewrite ?Hu in *.
  - change (u mod 2 ^ 0) with (u mod 1) in *. rewrite Z.mod_1_r, Z.mul_0_l, Z.add_0_l in *.
    by apply run_step_0.
  - by apply run_step_4.
  - by apply run_step_2.
Qed.

(** ** Round trip *)

(** Printable ASCII outside a run. *)
Lemma decode_ascii ch text :
  32 ≤ ch < 127 →
  decode_units ((if ch =? 38 then str "&-" else [ch]) ++ text) false 0 0
  = cons ch <$> decode_units text false 0 0.
Proof.
  intros Hch. destruct (Z.eqb_spec ch 38) as [->|Hne]; [done|]. cbn [app decode_units].
  rewrite (proj2 (Z.eqb_neq _ _)) by done. by rewrite wrap_id by width.
Qed.

Lemma unit_cases ch :
  is_unit ch = true →
  0 ≤ ch < 65536 ∧ wrap 16 ch = ch ∧ ((32 <=? ch) && (ch <? 127) = true ↔ 32 ≤ ch < 127).
Proof.
  intros Hch%is_unit_range. split_and!; [lia..|by apply wrap_id; width|].
  rewrite andb_true_iff, Z.leb_le, Z.ltb_lt. lia.
Qed.

Lemma decode_encode text : Forall (λ c, is_unit c = true) text →
  (∀ u, decode_units (utf7_encode_from text false 0 u) false 0 0 = Some text)
  ∧ (∀ eb u db v pend, in_run eb u db v pend →
       decode_units (utf7_encode_from text true eb u) true db v = Some (pend ++ text)).
Proof.
  induction 1 as [|ch text Hch Htext [IHplain IHrun]].
  { split; [done|]. intros eb u db v pend Hrun. cbn [utf7_encode_from].
    rewrite <- (app_nil_r (unshift true u eb)), (unshift_decode eb u db v pend []) by done. done. }
  apply unit_cases in Hch as (Hrange & Hwrap & Hascii). cbn [utf7_encode_from]. rewrite Hwrap.
  destruct ((32 <=? ch) && (ch <? 127)).
  - destruct Hascii as [Hascii _]. specialize (Hascii eq_refl). split.
    + intros u. cbn [unshift app]. by rewrite decode_ascii, IHplain.
    + intros eb u db v pend Hrun. rewrite (unshift_decode eb u db v pend) by done.
      by rewrite decode_ascii, IHplain.
  - assert (Hstep : ∀ eb u db v pend, in_run eb u db v pend →
      let '(out, bits) := emit_digits 4 (Z.lor (shl 32 u 16) ch) (eb + 16) in
      decode_units (out ++ utf7_encode_from text true bits (Z.lor (shl 32 u 16) ch)) true db v
      = Some (pend ++ ch :: text)).
    { intros eb u db v pend Hrun.
      destruct (run_step ch eb u db v pend Hrun Hrange)
        as (d & ds & eb' & db' & v' & units & pend' & -> & Hd & Hrun' & Happ & Hdec).
      cbn [app]. rewrite Hdec, (IHrun eb' _ db' v' pend' Hrun'). cbn [fmap option_fmap option_map].
      f_equal. by rewrite app_assoc, Happ, <- app_assoc. }
    split.
    + intros u. specialize (Hstep 0 u 0 0 [] ltac:(by left)).
      destruct (run_step ch 0 u 0 0 [] ltac:(by left) Hrange)
        as (d & ds & eb' & db' & v' & units & pend' & Hemit & Hd & _). rewrite Hemit in *.
      cbn [negb app] in *. change (str "&" ++ ?l) with (38 :: l). cbn [app decode_units] in *.
      change (38 =? "&") with true. cbv iota.
      destruct (utf7_digit_rank d Hd) as (_ & Hdash & _). rewrite Hdash in *. done.
    + intros eb u db v pend Hrun. specialize (Hstep eb u db v pend Hrun).
      by destruct (emit_digits 4 (Z.lor (shl 32 u 16) ch) (eb + 16)).
Qed.

(** ** Properties *)

(** C32. A mailbox name of characters of the basic plane survives the modified UTF-7 of
    IMAP4rev1: what the server lists is what a client names. *)
Theorem utf7_roundtrip text :
  Forall (λ c, is_unit c = true) text → utf7_decode (utf7_encode text) = Some text.
Proof.
  intros Htext. unfold utf7_decode, utf7_encode.
  rewrite (proj1 (decode_encode text Htext) 0). cbn [mbind option_bind]. by apply from_utf16_units.
Qed.

Lemma utf7_roundtrip_witness :
  utf7_encode [126; 47; 21488; 21271; 38; 45; 163] = str "~/&U,BTFw-&--&AKM-"
  ∧ utf7_decode (str "~/&U,BTFw-&--&AKM-") = Some [126; 47; 21488; 21271; 38; 45; 163].
Proof.
  split; [by vm_compute|]. apply (utf7_roundtrip [126; 47; 21488; 21271; 38; 45; 163]).
  apply (bool_decide_unpack _). by vm_compute.
Defined.

(** Characters beyond it are cut to 16 bits: U+1F600 is listed as U+F600, U+10026 as an
    ampersand. *)
Lemma utf7_truncates :
  utf7_decode (utf7_encode [128512]) = Some [62976]
  ∧ utf7_decode (utf7_encode [65574]) = Some [38].
Proof. by vm_compute. Qed.
