(* ===== verification/SmtpQueue.v ===== *)
(** * The outbound queue of the SMTP server

    crates/smtp/src/queue: the messages that wait for delivery (mod.rs), the
    times at which they are due (manager.rs), their rows in the store with the
    locks of the workers (spool.rs) and the quotas of the queue (quota.rs).  A
    batch is written as [StoreTxn] models it.  The encoding of a message, the hash
    of a blob and what the configuration evaluates to are parameters. *)

From stdpp Require Import sorting.
From S2P Require Import Prelude Leb128 StoreKeys KvStore StoreTxn.

#[local] Opaque write_loop.
#[local] Open Scope chr_scope.

(** ** queue/mod.rs *)

(** [Schedule<u32>]: when, and how often so far. *)
Record Schedule := { due : Z; inner : Z }.

Inductive Status (T E : Type) :=
| Scheduled
| Completed (v : T)
| TemporaryFailure (e : E)
| PermanentFailure (e : E).
Arguments Scheduled {T E}.
Arguments Completed {T E} v.
Arguments TemporaryFailure {T E} e.
Arguments PermanentFailure {T E} e.

(** A reply of a remote server: the fields of [smtp_proto::Response]. *)
Record Response := { code : Z; esc : Z * Z * Z; message : bytes }.

Record HostResponse (T : Type) := { hostname : T; response : Response }.
Arguments hostname {T} _.
Arguments response {T} _.

Record ErrorDetails := { entity : bytes; details : bytes }.

Inductive Error :=
| DnsError (err : bytes)
| UnexpectedResponse (r : HostResponse ErrorDetails)
| ConnectionError (d : ErrorDetails)
| TlsError (d : ErrorDetails)
| DaneError (d : ErrorDetails)
| MtaStsError (err : bytes)
| RateLimited
| ConcurrencyLimited
| Io (err : bytes).

Inductive QuotaKey :=
| KeySize (key : bytes) (id : Z)
| KeyCount (key : bytes) (id : Z).

Record Domain := {
  domain : bytes;
  retry : Schedule;
  notify : Schedule;
  expires : Z;
  d_status : Status () Error;
}.

Record Recipient := {
  domain_idx : nat;
  address : bytes;
  address_lcase : bytes;
  r_status : Status (HostResponse bytes) (HostResponse ErrorDetails);
  r_flags : Z;
  orcpt : option bytes;
}.

(** [Message] without [span_id], which is for the logs and is not stored. *)
Record Message := {
  queue_id : Z;
  created : Z;
  blob_hash : bytes;
  return_path : bytes;
  return_path_lcase : bytes;
  return_path_domain : bytes;
  recipients : list Recipient;
  domains : list Domain;
  m_flags : Z;
  env_id : option bytes;
  priority : Z;
  size : Z;
  quota_keys : list QuotaKey;
}.

Definition RCPT_DSN_SENT : Z := shl 64 1 32.
Definition RCPT_STATUS_CHANGED : Z := shl 64 2 32.

(** [rsplit_once('@')] *)
Fixpoint rsplit_at (l : bytes) : option (bytes * bytes) :=
  match l with
  | [] => None
  | c :: l =>
      match rsplit_at l with
      | Some (a, b) => Some (c :: a, b)
      | None => if c =? "@" then Some ([], l) else None
      end
  end.

Definition domain_part (l : bytes) : bytes := from_option snd [] (rsplit_at l).

(** [Scheduled | TemporaryFailure(_)] and [Completed(_) | PermanentFailure(_)] *)
Definition is_live {T E} (s : Status T E) : bool :=
  match s with Scheduled | TemporaryFailure _ => true | _ => false end.

(** Field assignments. *)
Definition with_recipients (l : list Recipient) (m : Message) : Message := {|
  queue_id := queue_id m; created := created m; blob_hash := blob_hash m;
  return_path := return_path m; return_path_lcase := return_path_lcase m;
  return_path_domain := return_path_domain m; recipients := l; domains := domains m;
  m_flags := m_flags m; env_id := env_id m; priority := priority m; size := size m;
  quota_keys := quota_keys m |}.
Definition with_domains (l : list Domain) (m : Message) : Message := {|
  queue_id := queue_id m; created := created m; blob_hash := blob_hash m;
  return_path := return_path m; return_path_lcase := return_path_lcase m;
  return_path_domain := return_path_domain m; recipients := recipients m; domains := l;
  m_flags := m_flags m; env_id := env_id m; priority := priority m; size := size m;
  quota_keys := quota_keys m |}.
Definition with_quota_keys (l : list QuotaKey) (m : Message) : Message := {|
  queue_id := queue_id m; created := created m; blob_hash := blob_hash m;
  return_path := return_path m; return_path_lcase := return_path_lcase m;
  return_path_domain := return_path_domain m; recipients := recipients m; domains := domains m;
  m_flags := m_flags m; env_id := env_id m; priority := priority m; size := size m;
  quota_keys := l |}.
Definition with_blob (hash : bytes) (sz : Z) (m : Message) : Message := {|
  queue_id := queue_id m; created := created m; blob_hash := hash;
  return_path := return_path m; return_path_lcase := return_path_lcase m;
  return_path_domain := return_path_domain m; recipients := recipients m; domains := domains m;
  m_flags := m_flags m; env_id := env_id m; priority := priority m; size := sz;
  quota_keys := quota_keys m |}.

(** ** queue/manager.rs: when a message is due *)

Definition lower (next t : Z) : Z := if t <? next then t else next.

Definition next_event (now : Z) (m : Message) : option Z :=
  let '(next, has_events) := foldl (λ '(next, has_events) d,
    if is_live (d_status d) then
      let '(next, has_events) :=
        if negb has_events || (due (retry d) <? next) then (due (retry d), true)
        else (next, has_events) in
      (lower (lower next (due (notify d))) (expires d), has_events)
    else (next, has_events)) (now, false) (domains m) in
  if (has_events : bool) then Some next else None.

(** The loop that [next_delivery_event], [next_dsn] and [expires] share: the first
    live domain sets the time, the others lower it. *)
Definition earliest (f : Domain → Z) (now : Z) (m : Message) : Z :=
  foldl (λ next '(pos, d), if (pos =? 0)%nat || (f d <? next) then f d else next) now
    (imap (λ pos d, (pos, d)) (filter (λ d, is_live (d_status d)) (domains m))).

Definition next_delivery_event (now : Z) (m : Message) : Z := earliest (λ d, due (retry d)) now m.
Definition next_dsn (now : Z) (m : Message) : Z := earliest (λ d, due (notify d)) now m.
Definition message_expires (now : Z) (m : Message) : Z := earliest expires now m.

Definition lower_after (instant : Z) (next : option Z) (t : Z) : option Z :=
  if (instant <? t) && from_option (λ ne, t <? ne) true next then Some t else next.

Definition next_event_after (instant : Z) (m : Message) : option Z :=
  foldl (λ next d,
    if is_live (d_status d) then
      lower_after instant
        (lower_after instant (lower_after instant next (due (retry d))) (due (notify d))) (expires d)
    else next) None (domains m).

(** ** The server a worker talks to *)

(** common/src/ipc.rs ([QueueEvent] is [ManagerEvent] here); a limiter is named, its
    counters are shared. *)
Record QueueEventLock := { ev_due : Z; ev_queue_id : Z; lock_expiry : Z }.

Record OnHold := {
  next_due : option Z;
  limiters : list nat;
  held : QueueEventLock;
}.

Inductive ManagerEvent :=
| Reload
| EventOnHold (h : OnHold)
| Stop.

Record Server (DB : Type) := {
  store : DB;
  blobs : gmap bytes bytes;
  queue_tx : list ManagerEvent;
}.
Arguments store {DB} _.
Arguments blobs {DB} _.
Arguments queue_tx {DB} _.

Definition on_store {DB} (db : DB) (sv : Server DB) : Server DB :=
  {| store := db; blobs := blobs sv; queue_tx := queue_tx sv |}.
Definition send {DB} (e : ManagerEvent) (sv : Server DB) : Server DB :=
  {| store := store sv; blobs := blobs sv; queue_tx := queue_tx sv ++ [e] |}.
Definition put_blob {DB} (hash contents : bytes) (sv : Server DB) : Server DB :=
  {| store := store sv; blobs := <[hash := contents]> (blobs sv); queue_tx := queue_tx sv |}.

(** [Bincode<Message>]: serde and lz4. *)
Class MessageCodec := {
  message_serialize : Message → bytes;
  message_deserialize : bytes → option Message;
}.

Class MessageCodecLaw `{MessageCodec} : Prop :=
  message_roundtrip m : message_deserialize (message_serialize m) = Some m.

Definition LOCK_EXPIRY : Z := 300.

Definition message_event (due id : Z) : QueueClass :=
  QMessageEvent {| qe_due := due; qe_queue_id := id |}.
#[global] Arguments message_event : simpl never.

(** ** queue/quota.rs *)

(** [QueueEnvelope] and [Message] as the variables of an expression: the message
    alone, one of its domains, or one of its recipients. *)
Inductive Envelope :=
| EnvMessage (m : Message)
| EnvDomain (m : Message) (current_domain : nat)
| EnvRcpt (m : Message) (current_domain current_rcpt : nat).

(** [QueueQuota]: the expression, evaluated, and the key it is counted under. *)
Record QueueQuota := {
  expr_is_empty : bool;
  eval_expr : Envelope → option bool;
  new_key : Envelope → bytes;
  quota_size : option Z;
  quota_messages : option Z;
}.

Record QueueQuotas := {
  quota_sender : list QueueQuota;
  quota_rcpt_domain : list QueueQuota;
  quota_rcpt : list QueueQuota;
}.

Section Quota.
Context `{KvStore DB}.

(** [get_counter(..).await.unwrap_or(0) as usize] *)
Definition used (db : DB) (class : QueueClass) : Z :=
  wrap 64 match get_counter db (Queue class) 0 0 0 with Ok v => v | Err _ => 0 end.

Definition check_quota (db : DB) (quota : QueueQuota) (envelope : Envelope) (sz id : Z)
    (refs : list QuotaKey) : bool * list QuotaKey :=
  if negb (expr_is_empty quota) && default false (eval_expr quota envelope) then
    let key := new_key quota envelope in
    let '(ok, refs) :=
      match quota_size quota with
      | Some max_size =>
          if max_size <? wrap 64 (used db (QuotaSize key) + sz) then (false, refs)
          else (true, refs ++ [KeySize key id])
      | None => (true, refs)
      end in
    if negb ok then (false, refs)
    else
      match quota_messages quota with
      | Some max_messages =>
          if max_messages <? wrap 64 (used db (QuotaCount key) + 1) then (false, refs)
          else (true, refs ++ [KeyCount key id])
      | None => (true, refs)
      end
  else (true, refs).

(** The checks of a loop, which stops at the first that fails. *)
Fixpoint check_all (db : DB) (sz : Z) (checks : list (QueueQuota * Envelope * Z))
    (refs : list QuotaKey) : option (list QuotaKey) :=
  match checks with
  | [] => Some refs
  | (quota, envelope, id) :: checks =>
      let '(ok, refs) := check_quota db quota envelope sz id refs in
      if ok then check_all db sz checks refs else None
  end.

Definition domain_quota_id (pos : nat) : Z := shl 64 (Z.of_nat pos + 1) 32.
Definition rcpt_quota_id (pos : nat) : Z := Z.of_nat pos + 1.

Definition has_quota (quotas : QueueQuotas) (db : DB) (m : Message) : bool * Message :=
  let sender := (λ q, (q, EnvMessage m, 0)) <$> quota_sender quotas in
  let by_domain := quota_rcpt_domain quotas ≫= λ q,
    imap (λ i _, (q, EnvDomain m i, domain_quota_id i)) (domains m) in
  let by_rcpt := quota_rcpt quotas ≫= λ q,
    imap (λ i r, (q, EnvRcpt m (domain_idx r) i, rcpt_quota_id i)) (recipients m) in
  match check_all db (size m) (sender ++ by_domain ++ by_rcpt) [] with
  | Some keys => (true, with_quota_keys keys m)
  | None => (false, m)
  end.
End Quota.

(** The ids of the domains and recipients that are done. *)
Definition quota_ids (m : Message) : list Z :=
  concat (imap (λ pos d, if is_live (d_status d) then [] else [domain_quota_id pos]) (domains m))
  ++ concat (imap (λ pos r, if is_live (r_status r) then [] else [rcpt_quota_id pos]) (recipients m)).

Definition key_id (k : QuotaKey) : Z := match k with KeySize _ id | KeyCount _ id => id end.

Definition quota_class (k : QuotaKey) : QueueClass :=
  match k with KeySize key _ => QuotaSize key | KeyCount key _ => QuotaCount key end.

(** [size as i64] *)
Definition quota_weight (sz : Z) (k : QuotaKey) : Z :=
  match k with KeySize _ _ => i64 sz | KeyCount _ _ => 1 end.

(** [batch.add(.., -1)] and [batch.add(.., -(size as i64))] *)
Definition give_back (sz : Z) (k : QuotaKey) (b : BatchBuilder) : BatchBuilder :=
  add (Queue (quota_class k)) (i64 (- quota_weight sz k)) b.

Definition release_quota (m : Message) (b : BatchBuilder) : Message * BatchBuilder :=
  if bool_decide (quota_keys m = []) then (m, b)
  else
    let ids := quota_ids m in
    if bool_decide (ids = []) then (m, b)
    else
      let '(keys, b) := foldl (λ '(keys, b) k,
        if bool_decide (key_id k ∈ ids) then (keys, give_back (size m) k b)
        else (keys ++ [k], b)) ([], b) (quota_keys m) in
      (with_quota_keys keys m, b).

(** ** queue/spool.rs *)

Section Spool.
Context `{KvStore DB} `{MessageCodec}.
Context {R : Type} (gen_range : R → Z → Z * R) (xxh3_64 : bytes → Z) (seed : R).
Context (blob_hash_of : bytes → bytes).

(** [server.store().write(batch.build())]: the answer of the last attempt. *)
Definition store_write (engine : option EngineError) (b : BatchBuilder) (db : DB)
    : result CommitError AssignedIds * DB :=
  commit gen_range xxh3_64 b
    {| at_db := db; at_rng := seed; at_engine := engine; at_in_time := true |}.

Definition new_message (now : Z) (generated : option Z) (path path_lcase path_domain : bytes) : Message := {|
  queue_id := default now generated; created := now; blob_hash := [];
  return_path := path; return_path_lcase := path_lcase; return_path_domain := path_domain;
  recipients := []; domains := []; m_flags := 0; env_id := None; priority := 0; size := 0;
  quota_keys := [] |}.

Definition read_event (key value : bytes) : result StoreError QueueEventLock :=
  due ← deserialize_be_u64 key 0;
  id ← deserialize_be_u64 key U64_LEN;
  lock ← u64_deserialize value;
  Ok {| ev_due := due; ev_queue_id := id; lock_expiry := lock |}.

(** [SmtpSpool::next_event].  A row that cannot be read ends the scan; the events
    in front of it are kept. *)
Definition next_events (now : Z) (db : DB) : list QueueEventLock :=
  let key e := value_serialize (T := Z) None (Queue e) 0 0 0 0 in
  match iterate db
    {| ip_subspace := SUBSPACE_QUEUE_EVENT; ip_begin := key (message_event 0 0);
       ip_end := key (message_event u64_max u64_max); ip_first := false; ip_ascending := true |}
    (λ key value events,
       Ok match read_event key value with
          | Err _ => (false, events)
          | Ok event =>
              (ev_due event <=? now,
               if lock_expiry event <? now then events ++ [event] else events)
          end) [] with
  | Ok events => events
  | Err _ => []
  end.

Definition try_lock_event (now : Z) (engine : option EngineError) (event : QueueEventLock) (db : DB)
    : option QueueEventLock * DB :=
  let class := Queue (message_event (ev_due event) (ev_queue_id event)) in
  let b := assert_value class (AssertU64 (lock_expiry event)) builder_new in
  let event := {| ev_due := ev_due event; ev_queue_id := ev_queue_id event;
                  lock_expiry := wrap 64 (now + LOCK_EXPIRY) |} in
  let b := set class (StaticValue (u64_serialize (lock_expiry event))) b in
  match store_write engine b db with
  | (Ok _, db) => (Some event, db)
  | (Err _, db) => (None, db)
  end.

Definition read_message (id : Z) (db : DB) : option Message :=
  match get_value (λ l, ok_or DataCorruption (message_deserialize l)) db (Queue (QMessage id)) 0 0 0 with
  | Ok m => m
  | Err _ => None
  end.

Definition reserve_quota (sz : Z) (b : BatchBuilder) (k : QuotaKey) : BatchBuilder :=
  add (Queue (quota_class k)) (quota_weight sz k) b.

(** What [queue] meets: the engine's answers to its two writes and whether the
    blob store and the manager's channel are there. *)
Record QueueAnswers := {
  qa_reserve : option EngineError;
  qa_put_blob : bool;
  qa_write : option EngineError;
  qa_channel : bool;
}.

Definition queue (now : Z) (ans : QueueAnswers) (raw_headers : option bytes) (raw_message : bytes)
    (m : Message) (sv : Server DB) : bool * Server DB :=
  let contents := default [] raw_headers ++ raw_message in
  let m := with_blob (blob_hash_of contents)
             (if size m =? 0 then Z.of_nat (length contents) else size m) m in
  let reserve := Blob (BlobReserve (blob_hash m) (wrap 64 (now + 120))) in
  match store_write (qa_reserve ans) (set reserve (StaticValue (u32_serialize 0)) builder_new) (store sv) with
  | (Err _, db) => (false, on_store db sv)
  | (Ok _, db) =>
      let sv := on_store db sv in
      if negb (qa_put_blob ans) then (false, sv)
      else
        let sv := put_blob (blob_hash m) contents sv in
        let b := foldl (reserve_quota (size m)) builder_new (quota_keys m) in
        let b := set (Queue (message_event (default 0 (next_event now m)) (queue_id m)))
                   (StaticValue (u64_serialize 0)) b in
        let b := clear reserve b in
        let b := set (Blob (BlobLinkId (blob_hash m) (queue_id m))) (StaticValue []) b in
        let b := set (Blob (BlobCommit (blob_hash m))) (StaticValue []) b in
        let b := set (Queue (QMessage (queue_id m))) (StaticValue (message_serialize m)) b in
        match store_write (qa_write ans) b (store sv) with
        | (Err _, db) => (false, on_store db sv)
        | (Ok _, db) =>
            let sv := on_store db sv in
            (true, if qa_channel ans then send Reload sv else sv)
        end
  end.

(** [add_recipient_parts], with what the expiry expression evaluates to. *)
Definition add_recipient_parts (now : Z) (expire : option Z) (rcpt rcpt_lcase rcpt_domain : bytes)
    (m : Message) : Message :=
  let '(idx, ds) :=
    match list_find (λ d, domain d = rcpt_domain) (domains m) with
    | Some (idx, _) => (idx, domains m)
    | None =>
        let secs := default (5 * 86400) expire in
        (length (domains m),
         domains m ++ [{| domain := rcpt_domain; retry := {| due := now; inner := 0 |};
                          notify := {| due := wrap 64 (now + (secs + 10)); inner := 0 |};
                          expires := wrap 64 (now + secs); d_status := Scheduled |}])
    end in
  with_recipients (recipients m ++ [{| domain_idx := idx; address := rcpt; address_lcase := rcpt_lcase;
                                       r_status := Scheduled; r_flags := 0; orcpt := None |}])
    (with_domains ds m).

Definition add_recipient (lowercase : bytes → bytes) (now : Z) (expire : option Z) (rcpt : bytes)
    (m : Message) : Message :=
  let rcpt_lcase := lowercase rcpt in
  add_recipient_parts now expire rcpt rcpt_lcase (domain_part rcpt_lcase) m.

(** The batch that [release_quota] fills is shadowed before it is written. *)
Definition save_changes (engine : option EngineError) (prev_event next : option Z)
    (m : Message) (sv : Server DB) : bool * Server DB :=
  let '(m, _) := release_quota m builder_new in
  let b := builder_new in
  let b :=
    match prev_event, next with
    | Some prev, Some next =>
        set (Queue (message_event next (queue_id m))) (StaticValue (u64_serialize 0))
          (clear (Queue (message_event prev (queue_id m))) b)
    | _, _ => b
    end in
  let b := set (Queue (QMessage (queue_id m))) (StaticValue (message_serialize m)) b in
  match store_write engine b (store sv) with
  | (Ok _, db) => (true, on_store db sv)
  | (Err _, db) => (false, on_store db sv)
  end.

Definition remove (engine : option EngineError) (prev_event : Z) (m : Message) (sv : Server DB)
    : bool * Server DB :=
  let b := foldl (λ b k, give_back (size m) k b) builder_new (quota_keys m) in
  let b := clear (Blob (BlobLinkId (blob_hash m) (queue_id m))) b in
  let b := clear (Queue (message_event prev_event (queue_id m))) b in
  let b := clear (Queue (QMessage (queue_id m))) b in
  match store_write engine b (store sv) with
  | (Ok _, db) => (true, on_store db sv)
  | (Err _, db) => (false, on_store db sv)
  end.

Definition has_domain (l : list bytes) (m : Message) : bool :=
  existsb (λ d, bool_decide (domain d ∈ l)) (domains m)
  || from_option (λ x, bool_decide (x.2 ∈ l)) false (rsplit_at (return_path m)).
End Spool.

(** ** queue/manager.rs: the manager *)

(** A [Duration] in milliseconds. *)
Definition SHORT_WAIT : Z := 1.
Definition LONG_WAIT : Z := 86400 * 365 * 1000.

Record Manager := {
  on_hold : list OnHold;
  next_wake_up : Z;
}.

Definition manager_new : Manager := {| on_hold := []; next_wake_up := SHORT_WAIT |}.

(** A message on hold is released when a limiter has room or its time has come;
    [limits] reads the count and the maximum of a limiter. *)
Definition released (now : Z) (limits : nat → Z * Z) (o : OnHold) : bool :=
  existsb (λ l, (limits l).1 <? (limits l).2) (limiters o)
  || from_option (λ d, d <=? now) false (next_due o).

Definition next_on_hold (now : Z) (limits : nat → Z * Z) (hold : list OnHold)
    : option (QueueEventLock * list OnHold) :=
  '(pos, o) ← list_find (λ o, released now limits o) hold;
  Some (held o, delete pos hold).

(** [while let Some(event) = self.next_on_hold()]; the clock and the limiters move
    between the turns.  Every turn takes a message from the list. *)
Fixpoint take_on_hold (turns : nat) (now : nat → Z) (limits : nat → nat → Z * Z)
    (hold : list OnHold) : list QueueEventLock * list OnHold :=
  match turns with
  | O => ([], hold)
  | S turns =>
      match next_on_hold (now turns) (limits turns) hold with
      | Some (event, hold) =>
          let '(events, hold) := take_on_hold turns now limits hold in (event :: events, hold)
      | None => ([], hold)
      end
  end.

(** The loop over the events of the store: which are attempted, when to wake up. *)
Definition schedule_events (now : Z) (events : list QueueEventLock) : list QueueEventLock * Z :=
  foldl (λ '(attempts, wake) e,
    if ev_due e <=? now then (attempts ++ [e], wake)
    else (attempts, (ev_due e - now) * 1000)) ([], LONG_WAIT) events.

(** The deliveries that [process_events] starts. *)
Definition process_events `{KvStore DB} (now_hold : nat → Z) (limits : nat → nat → Z * Z)
    (now scan_now : Z) (db : DB) (q : Manager) : list QueueEventLock * Manager :=
  let '(held, hold) := take_on_hold (S (length (on_hold q))) now_hold limits (on_hold q) in
  let '(attempts, wake) := schedule_events now (next_events scan_now db) in
  (held ++ attempts, {| on_hold := hold; next_wake_up := wake |}).

Definition push_on_hold (h : OnHold) (q : Manager) : Manager :=
  {| on_hold := on_hold q ++ [h]; next_wake_up := next_wake_up q |}.

(** One turn of the manager's loop: [None] from the channel is its end, [Some None]
    the timeout. *)
Definition manager_turn `{KvStore DB} (now_hold : nat → Z) (limits : nat → nat → Z * Z)
    (now scan_now : Z) (db : DB) (received : option (option ManagerEvent)) (q : Manager)
    : option (list QueueEventLock * Manager) :=
  match received with
  | None | Some (Some Stop) => None
  | Some event =>
      let '(attempts, q) := process_events now_hold limits now scan_now db q in
      Some (attempts, match event with Some (EventOnHold h) => push_on_hold h q | _ => q end)
  end.

(** ** Specifications *)

#[export] Instance queue_event_eq_dec : EqDecision QueueEvent.
Proof. solve_decision. Defined.
#[export] Instance report_event_eq_dec : EqDecision ReportEvent.
Proof. solve_decision. Defined.
#[export] Instance queue_class_eq_dec : EqDecision QueueClass.
Proof. solve_decision. Defined.

(** A queue as a map: the stored message and the time of its event. *)
Abbreviation Spool := (gmap Z (Message * Z)).

(** What the keys of one quota add up to, and what a message holds of it. *)
Definition key_total (weight : QuotaKey → Z) (class : QueueClass) (keys : list QuotaKey) : Z :=
  foldr (λ k acc, (if decide (quota_class k = class) then weight k else 0) + acc) 0 keys.

Definition holds (class : QueueClass) (m : Message) : Z :=
  key_total (quota_weight (size m)) class (quota_keys m).

Definition reserved (class : QueueClass) (q : Spool) : Z :=
  map_fold (λ _ x acc, holds class x.1 + acc) 0 q.

Definition is_quota (class : QueueClass) : bool :=
  match class with QuotaCount _ | QuotaSize _ => true | _ => false end.

Definition queue_key (class : QueueClass) : bytes := value_serialize (T := Z) None (Queue class) 0 0 0 0.

(** Each message has its row and one event; a quota counter is what the messages
    hold plus [leak]. *)
Record spool_rows `{KvStore DB} `{MessageCodec} (q : Spool) (leak : QueueClass → Z) (db : DB) : Prop := {
  rows_message id : fits 64 id →
    kv_get db SUBSPACE_QUEUE_MESSAGE (queue_key (QMessage id)) = message_serialize ∘ fst <$> q !! id;
  rows_event due id : fits 64 due → fits 64 id →
    is_Some (kv_get db SUBSPACE_QUEUE_EVENT (queue_key (message_event due id)))
    ↔ snd <$> q !! id = Some due;
  rows_quota class : is_quota class = true →
    counter_at db SUBSPACE_QUOTA (queue_key class) = Ok (i64 (reserved class q + leak class));
}.

(** The operations of the sessions and the workers on the queue. *)
Inductive SpoolOp :=
| DoQueue (now : Z) (ans : QueueAnswers) (raw_headers : option bytes) (raw_message : bytes) (m : Message)
| DoLock (now : Z) (engine : option EngineError) (event : QueueEventLock)
| DoSave (engine : option EngineError) (moved : option (Z * Z)) (m : Message)
| DoRemove (engine : option EngineError) (prev_event : Z) (m : Message).

Section Operations.
Context `{KvStore DB} `{MessageCodec}.
Context {R : Type} (gen_range : R → Z → Z * R) (xxh3_64 : bytes → Z) (seed : R).
Context (blob_hash_of : bytes → bytes).

Definition spool_exec (op : SpoolOp) (sv : Server DB) : bool * Server DB :=
  match op with
  | DoQueue now ans headers raw m => queue gen_range xxh3_64 seed blob_hash_of now ans headers raw m sv
  | DoLock now engine event =>
      let '(e, db) := try_lock_event gen_range xxh3_64 seed now engine event (store sv) in
      (bool_decide (is_Some e), on_store db sv)
  | DoSave engine moved m => save_changes gen_range xxh3_64 seed engine (fst <$> moved) (snd <$> moved) m sv
  | DoRemove engine prev m => remove gen_range xxh3_64 seed engine prev m sv
  end.

(** The message as [queue] stores it. *)
Definition queued (headers : option bytes) (raw : bytes) (m : Message) : Message :=
  let contents := default [] headers ++ raw in
  with_blob (blob_hash_of contents) (if size m =? 0 then Z.of_nat (length contents) else size m) m.

(** What an operation that succeeds does to the queue and to the leak. *)
Definition spool_spec (op : SpoolOp) (s : Spool * (QueueClass → Z)) : Spool * (QueueClass → Z) :=
  match op with
  | DoQueue now _ headers raw m =>
      let m := queued headers raw m in
      (<[queue_id m := (m, default 0 (next_event now m))]> s.1, s.2)
  | DoLock _ _ _ => s
  | DoSave _ moved m =>
      let m' := (release_quota m builder_new).1 in
      (alter (λ x, (m', from_option snd x.2 moved)) (queue_id m) s.1,
       λ class, s.2 class + (holds class m - holds class m'))
  | DoRemove _ _ m => (delete (queue_id m) s.1, s.2)
  end.

(** A worker writes back the message it read, at the event it read, with the same
    quota; a message that is queued has a new id. *)
Definition spool_pre (op : SpoolOp) (q : Spool) : Prop :=
  match op with
  | DoQueue now _ headers raw m =>
      fits 64 (queue_id m) ∧ q !! queue_id m = None ∧
      fits 64 (default 0 (next_event now (queued headers raw m)))
  | DoLock _ _ event =>
      fits 64 (ev_due event) ∧ fits 64 (ev_queue_id event)
  | DoSave _ moved m =>
      fits 64 (queue_id m) ∧
      match q !! queue_id m with
      | Some (old, d) =>
          quota_keys m = quota_keys old ∧ size m = size old ∧ fits 64 d ∧
          from_option (λ x, x.1 = d ∧ fits 64 x.2) True moved
      | None => False
      end
  | DoRemove _ prev m =>
      fits 64 (queue_id m) ∧
      match q !! queue_id m with
      | Some (old, d) => d = prev ∧ quota_keys m = quota_keys old ∧ size m = size old ∧ fits 64 d
      | None => False
      end
  end.

(** A history of operations, with the failures of the store. *)
Fixpoint spool_run (ops : list SpoolOp) (s : Spool * (QueueClass → Z)) (sv : Server DB)
    : (Spool * (QueueClass → Z)) * Server DB :=
  match ops with
  | [] => (s, sv)
  | op :: ops =>
      let '(ok, sv) := spool_exec op sv in
      spool_run ops (if ok : bool then spool_spec op s else s) sv
  end.

Fixpoint spool_run_pre (ops : list SpoolOp) (s : Spool * (QueueClass → Z)) (sv : Server DB) : Prop :=
  match ops with
  | [] => True
  | op :: ops =>
      spool_pre op s.1 ∧
      let '(ok, sv) := spool_exec op sv in
      spool_run_pre ops (if ok : bool then spool_spec op s else s) sv
  end.
End Operations.

(** ** Keys and batches *)

Lemma queue_key_any {T} `{ResolveId T} ids (q : QueueClass) a c d :
  value_serialize (T := T) ids (Queue q) a c d 0 = queue_key q.
Proof. by destruct q. Qed.

Lemma message_key id : queue_key (QMessage id) = be_bytes 8 id.
Proof. unfold queue_key. by rewrite value_serialize_bytes. Qed.

Lemma event_key due id : queue_key (message_event due id) = be_bytes 8 due ++ be_bytes 8 id.
Proof. unfold queue_key. by rewrite value_serialize_bytes. Qed.

Lemma message_key_inj i j :
  fits 64 i → fits 64 j → queue_key (QMessage i) = queue_key (QMessage j) → i = j.
Proof. intros Hi Hj. rewrite !message_key. by apply be_bytes_inj. Qed.

Lemma event_key_inj d i d' i' :
  fits 64 d → fits 64 i → fits 64 d' → fits 64 i' →
  queue_key (message_event d i) = queue_key (message_event d' i') → d = d' ∧ i = i'.
Proof.
  intros Hd Hi Hd' Hi'. rewrite !event_key. intros [H1 H2]%app_split; [|done].
  by apply be_bytes_inj in H1, H2.
Qed.

Lemma quota_key c :
  is_quota c = true →
  queue_key c = match c with QuotaCount k => 0 :: k | QuotaSize k => 1 :: k | _ => [] end.
Proof.
  intros Hc. unfold queue_key. rewrite value_serialize_bytes.
  destruct c as [| | | | | |k|k]; try done; exact (f_equal (cons _) (app_nil_r k)).
Qed.

Lemma quota_key_inj c c' :
  is_quota c = true → is_quota c' = true → queue_key c = queue_key c' → c = c'.
Proof. intros Hc Hc'. rewrite !quota_key by done. destruct c, c'; try done; by intros [= ->]. Qed.

(** The writes of a batch that neither asserts nor asks for ids. *)
Definition plain_op `{KvStore DB} (op : Operation) : option (DB → DB) :=
  match op with
  | OpValue class vop =>
      let cf := value_subspace class u8_max in
      let key := value_serialize (Some assigned_default) class u32_max u8_max u32_max 0 in
      match vop with
      | SetValue (StaticValue l) => Some (kv_put cf key l)
      | AtomicAdd n => Some (kv_merge cf key (i64_to_le_bytes n))
      | ClearValue => Some (kv_delete cf key)
      | _ => None
      end
  | _ => None
  end.

Definition effect `{KvStore DB} (b : BatchBuilder) (db : DB) : DB :=
  foldl (λ db op, default id (plain_op op) db) db b.

Definition plain `{KvStore DB} (b : BatchBuilder) : Prop := Forall (λ op, is_Some (plain_op (DB := DB) op)) b.

Section PlainBatches.
Context `{KvLaws DB} {R : Type} (gen_range : R → Z → Z * R) (xxh3_64 : bytes → Z) (seed : R).

#[local] Abbreviation store_write := (store_write (DB := DB) gen_range xxh3_64 seed).

Lemma commit_plain (b : BatchBuilder) (db : DB) :
  plain (DB := DB) b →
  commit_ops gen_range xxh3_64 (txn_new db seed) b = Ok (txn_new (effect b db) seed).
Proof.
  intros Hb. revert db. induction Hb as [|op b [f Hop] Hb IH]; intros db; [done|].
  cbn [commit_ops effect foldl]. rewrite Hop. cbn [default from_option].
  assert (commit_op gen_range xxh3_64 (txn_new db seed) op = Ok (txn_new (f db) seed)) as ->.
  { destruct op as [| | | |?|class [[]| | |]| | |]; try done; by injection Hop as <-. }
  cbn [mbind result_bind]. by rewrite IH.
Qed.

Lemma store_write_plain engine b db :
  plain (DB := DB) b →
  store_write engine b db
  = match engine with
    | None => (Ok assigned_default, effect b db)
    | Some kind => (Err (RocksDB kind), db)
    end.
Proof.
  intros Hb. unfold SmtpQueue.store_write, commit. cbn [at_db at_rng at_engine].
  rewrite commit_plain by done. by destruct engine.
Qed.

End PlainBatches.

Lemma subspace_ne (a b : Z) : bool_decide (a = b) = false → a ≠ b.
Proof. apply bool_decide_eq_false_1. Qed.

Lemma get_put_ne `{KvLaws DB} cf k v (db : DB) cf' k' : cf' ≠ cf → kv_get (kv_put cf k v db) cf' k' = kv_get db cf' k'.
Proof. intros Hne. rewrite kv_get_put, decide_False; [done|]. by intros [? _]. Qed.

Lemma get_delete_ne `{KvLaws DB} cf k (db : DB) cf' k' : cf' ≠ cf → kv_get (kv_delete cf k db) cf' k' = kv_get db cf' k'.
Proof. intros Hne. rewrite kv_get_delete, decide_False; [done|]. by intros [? _]. Qed.

Ltac other_row :=
  first [rewrite get_put_ne by (by apply subspace_ne) | rewrite get_delete_ne by (by apply subspace_ne)].

Section Rows.
Context `{KvLaws DB} `{MessageCodec}.

Lemma effect_app b1 b2 (db : DB) : effect (b1 ++ b2) db = effect b2 (effect b1 db).
Proof. apply foldl_app. Qed.
Lemma plain_app (b1 b2 : BatchBuilder) : plain (DB := DB) (b1 ++ b2) ↔ plain (DB := DB) b1 ∧ plain (DB := DB) b2.
Proof. apply Forall_app. Qed.

Lemma foldl_batch {A} (f : A → Operation) (b : BatchBuilder) l :
  foldl (λ b x, b ++ [f x]) b l = b ++ (f <$> l).
Proof.
  revert b. induction l as [|x l IH]; intros b; simpl; [by rewrite app_nil_r|].
  by rewrite IH, <- app_assoc.
Qed.

(** *** Counters *)

Definition add_op (weight : QuotaKey → Z) (k : QuotaKey) : Operation :=
  OpValue (Queue (quota_class k)) (AtomicAdd (weight k)).

Lemma quota_class_is k : is_quota (quota_class k) = true.
Proof. by destruct k. Qed.

Lemma add_effect (class : QueueClass) n v (db : DB) :
  is_quota class = true → i64_ok n → counter_at db SUBSPACE_QUOTA (queue_key class) = Ok v →
  let db' := effect [OpValue (Queue class) (AtomicAdd n)] db in
  counter_at db' SUBSPACE_QUOTA (queue_key class) = Ok (i64 (v + n)) ∧
  ∀ cf k, ¬ (cf = SUBSPACE_QUOTA ∧ k = queue_key class) → kv_get db' cf k = kv_get db cf k.
Proof.
  intros Hc Hn Hv db'. destruct (add_step (λ (r : ()) _, (0, r)) (λ _, 0) (txn_new db tt) (Queue class) false n v)
    as (t' & Ht & _ & _ & Hcount & _ & Hframe); [done| |].
  { unfold value_key. rewrite queue_key_any. by destruct class. }
  injection Ht as <-. unfold value_key in *. cbn [txn on_txn assigned account_id collection document_id txn_new]
    in Hcount, Hframe.
  assert (value_subspace (T := MaybeDynamicId) (Queue class) u8_max = SUBSPACE_QUOTA) as Hs by by destruct class.
  rewrite Hs, queue_key_any in Hcount, Hframe.
  unfold db', effect. cbn [foldl plain_op default from_option]. rewrite Hs, queue_key_any. by destruct class.
Qed.
(** Quota counters that read [f], and the rows that are not counters. *)
Definition counters (f : QueueClass → Z) (db : DB) : Prop :=
  ∀ class, is_quota class = true → counter_at db SUBSPACE_QUOTA (queue_key class) = Ok (i64 (f class)).

Lemma adds_effect (weight : QuotaKey → Z) keys f (db : DB) :
  (∀ k, i64_ok (weight k)) → counters f db →
  counters (λ class, f class + key_total weight class keys) (effect (add_op weight <$> keys) db) ∧
  ∀ cf k, cf ≠ SUBSPACE_QUOTA → kv_get (effect (add_op weight <$> keys) db) cf k = kv_get db cf k.
Proof.
  intros Hw. revert f db. induction keys as [|k keys IH]; intros f db Hf.
  { split; [|done]. intros class Hc. simpl. rewrite Z.add_0_r. by apply Hf. }
  destruct (add_effect (quota_class k) (weight k) (i64 (f (quota_class k))) db) as [Hk Hframe];
    [apply quota_class_is|done|by apply Hf, quota_class_is|].
  set (db' := effect [_] db) in Hk, Hframe.
  assert (effect (add_op weight <$> k :: keys) db = effect (add_op weight <$> keys) db') as -> by done.
  destruct (IH (λ c, f c + if decide (quota_class k = c) then weight k else 0) db') as [Hc Hrest].
  - intros class Hq. destruct (decide (quota_class k = class)) as [<-|Hne].
    + by rewrite Hk, i64_add_l.
    + unfold counter_at. rewrite Hframe, Z.add_0_r; [by apply Hf|].
      intros [_ He]. by apply Hne, eq_sym, quota_key_inj; [|apply quota_class_is|].
  - split.
    + intros class Hq. rewrite Hc by done. cbn [key_total foldr]. do 2 f_equal. unfold key_total. lia.
    + intros cf k' Hcf. rewrite Hrest by done. apply Hframe. by intros [? _].
Qed.

Lemma adds_plain weight keys : plain (DB := DB) (add_op weight <$> keys).
Proof. apply Forall_fmap, Forall_true. intros k. by eexists. Qed.

Lemma key_total_neg (weight : QuotaKey → Z) class keys x :
  i64 (x + key_total (λ k, i64 (- weight k)) class keys) = i64 (x - key_total weight class keys).
Proof.
  revert x. induction keys as [|k keys IH]; intros x; cbn [key_total foldr]; [f_equal; lia|].
  fold (key_total weight class keys) (key_total (λ k, i64 (- weight k)) class keys).
  destruct (decide _); rewrite ?Z.add_0_l; [|by rewrite IH].
  rewrite Z.add_assoc, IH.
  replace (x + i64 (- weight k) - _) with (i64 (- weight k) + (x - key_total weight class keys)) by lia.
  rewrite i64_add_l. f_equal. lia.
Qed.

Lemma quota_weight_ok sz k : i64_ok (quota_weight sz k).
Proof. destruct k; simpl; [apply i64_range|done]. Qed.

(** What is written under other subspaces does not matter. *)
Lemma spool_rows_frame q leak (db db' : DB) :
  (∀ cf k, cf ∈ [SUBSPACE_QUEUE_MESSAGE; SUBSPACE_QUEUE_EVENT; SUBSPACE_QUOTA] →
     kv_get db' cf k = kv_get db cf k) →
  spool_rows q leak db → spool_rows q leak db'.
Proof.
  intros Hf [Hm He Hq]. split.
  - intros id Hid. rewrite Hf by set_solver. by apply Hm.
  - intros d id Hd Hid. rewrite Hf by set_solver. by apply He.
  - intros class Hc. unfold counter_at. rewrite Hf by set_solver. by apply Hq.
Qed.

Lemma reserved_insert class q id m d :
  q !! id = None → reserved class (<[id := (m, d)]> q) = holds class m + reserved class q.
Proof. intros Hid. unfold reserved. rewrite map_fold_insert_L; [done| |done]. intros; lia. Qed.

Lemma reserved_delete class q id m d :
  q !! id = Some (m, d) → reserved class q = holds class m + reserved class (delete id q).
Proof. intros Hid. unfold reserved. rewrite (map_fold_delete_L _ _ id (m, d)); [done| |done]. intros; lia. Qed.

Lemma spool_rows_leak q leak leak' (db : DB) :
  (∀ class, leak class = leak' class) → spool_rows q leak db → spool_rows q leak' db.
Proof.
  intros Hleak [Hm He Hq]. split; [done..|]. intros class Hc. rewrite <- Hleak. by apply Hq.
Qed.

(** Only the rows of one message change. *)
Lemma spool_rows_update q q' leak leak' (db db' : DB) id :
  spool_rows q leak db → fits 64 id → (∀ i, i ≠ id → q' !! i = q !! i) →
  (∀ i, i ≠ id → fits 64 i → kv_get db' SUBSPACE_QUEUE_MESSAGE (queue_key (QMessage i))
                 = kv_get db SUBSPACE_QUEUE_MESSAGE (queue_key (QMessage i))) →
  kv_get db' SUBSPACE_QUEUE_MESSAGE (queue_key (QMessage id)) = message_serialize ∘ fst <$> q' !! id →
  (∀ d i, i ≠ id → fits 64 i → fits 64 d →
     kv_get db' SUBSPACE_QUEUE_EVENT (queue_key (message_event d i))
     = kv_get db SUBSPACE_QUEUE_EVENT (queue_key (message_event d i))) →
  (∀ d, fits 64 d → is_Some (kv_get db' SUBSPACE_QUEUE_EVENT (queue_key (message_event d id)))
                    ↔ snd <$> q' !! id = Some d) →
  counters (λ class, reserved class q' + leak' class) db' →
  spool_rows q' leak' db'.
Proof.
  intros [Hm He Hq] Hid Hq' HM HMid HE HEid HC. split; [| |done].
  - intros i Hi. destruct (decide (i = id)) as [->|Hne]; [done|].
    rewrite HM, Hq' by done. by apply Hm.
  - intros d i Hd Hi. destruct (decide (i = id)) as [->|Hne]; [by apply HEid|].
    rewrite HE, Hq' by done. by apply He.
Qed.
(** Rows of the queue after [queue], over those after the quota is reserved. *)
Lemma queued_rows q leak (db db' : DB) id m d lock k1 k2 k3 :
  spool_rows q leak db → fits 64 id → fits 64 d → q !! id = None →
  counters (λ class, reserved class q + leak class + holds class m) db' →
  (∀ cf k, cf ≠ SUBSPACE_QUOTA → kv_get db' cf k = kv_get db cf k) →
  spool_rows (<[id := (m, d)]> q) leak
    (kv_put SUBSPACE_QUEUE_MESSAGE (queue_key (QMessage id)) (message_serialize m)
       (kv_put SUBSPACE_BLOB_LINK k1 [] (kv_put SUBSPACE_BLOB_LINK k2 []
          (kv_delete SUBSPACE_BLOB_RESERVE k3
             (kv_put SUBSPACE_QUEUE_EVENT (queue_key (message_event d id)) lock db'))))).
Proof.
  intros Hrows Hid Hd Hnew HC Hframe.
  apply (spool_rows_update q _ leak _ db _ id); try done.
  - intros i Hne. by rewrite lookup_insert_ne.
  - intros i Hne Hi. rewrite kv_get_put, decide_False.
    + do 4 other_row. apply Hframe. by apply subspace_ne.
    + intros [_ Hk%message_key_inj]; done.
  - by rewrite kv_get_put, decide_True, lookup_insert_eq.
  - intros d' i Hne Hi Hd'. do 4 other_row. rewrite kv_get_put, decide_False.
    + apply Hframe. by apply subspace_ne.
    + by intros [_ [_ ?]%event_key_inj].
  - intros d' Hd'. do 4 other_row. rewrite kv_get_put, lookup_insert_eq.
    destruct (decide _) as [[_ [-> _]%event_key_inj]|Hne]; try done.
    rewrite Hframe by by apply subspace_ne.
    rewrite (rows_event _ _ _ Hrows), Hnew by done. split; [done|]. intros [= <-]. by destruct Hne.
  - intros class Hc. unfold counter_at. do 5 other_row. fold (counter_at db' SUBSPACE_QUOTA (queue_key class)).
    rewrite HC, reserved_insert by done. do 2 f_equal. lia.
Qed.

Lemma reserved_replace class q id m d m' d' :
  q !! id = Some (m, d) →
  reserved class (<[id := (m', d')]> q) = reserved class q + holds class m' - holds class m.
Proof.
  intros Hid. rewrite <- insert_delete_eq, reserved_insert by apply lookup_delete_eq.
  rewrite (reserved_delete class q id m d Hid). lia.
Qed.

(** The message is written over; its event may move. *)
Lemma saved_rows q leak (db : DB) id old d m moved lock :
  spool_rows q leak db → fits 64 id → q !! id = Some (old, d) → fits 64 d →
  from_option (λ x, x.1 = d ∧ fits 64 x.2) True moved →
  spool_rows (<[id := (m, from_option snd d moved)]> q)
    (λ class, leak class + (holds class old - holds class m))
    (kv_put SUBSPACE_QUEUE_MESSAGE (queue_key (QMessage id)) (message_serialize m)
       (match moved with
        | Some (prev, next) =>
            kv_put SUBSPACE_QUEUE_EVENT (queue_key (message_event next id)) lock
              (kv_delete SUBSPACE_QUEUE_EVENT (queue_key (message_event prev id)) db)
        | None => db
        end)).
Proof.
  intros Hrows Hid Hold Hd Hmoved.
  apply (spool_rows_update q _ leak _ db _ id); try done.
  - intros i Hne. by rewrite lookup_insert_ne.
  - intros i Hne Hi. rewrite kv_get_put, decide_False by (by intros [_ Hk%message_key_inj]).
    destruct moved as [[prev next]|]; [|done]. by do 2 other_row.
  - by rewrite kv_get_put, decide_True, lookup_insert_eq.
  - intros d' i Hne Hi Hd'. other_row. destruct moved as [[prev next]|]; [|done].
    destruct Hmoved as [Hprev Hnext]. cbn in Hprev, Hnext. subst prev.
    rewrite kv_get_put, decide_False by (by intros [_ [_ ?]%event_key_inj]).
    rewrite kv_get_delete, decide_False by (by intros [_ [_ ?]%event_key_inj]). done.
  - intros d' Hd'. other_row. rewrite lookup_insert_eq. destruct moved as [[prev next]|]; cbn.
    + destruct Hmoved as [Hprev Hnext]. cbn in Hprev, Hnext. subst prev. rewrite kv_get_put.
      destruct (decide _) as [[_ [-> _]%event_key_inj]|Hne]; try done.
      rewrite kv_get_delete. destruct (decide _) as [_|Hne'].
      * split; [by intros []|]. intros [= <-]. by destruct Hne.
      * rewrite (rows_event _ _ _ Hrows), Hold by done. cbn. split.
        -- intros [= <-]. by destruct Hne'.
        -- intros [= <-]. by destruct Hne.
    + by rewrite (rows_event _ _ _ Hrows), Hold.
  - intros class Hc. unfold counter_at. other_row.
    trans (counter_at db SUBSPACE_QUOTA (queue_key class)).
    { unfold counter_at. destruct moved as [[prev next]|]; [|done]. by do 2 other_row. }
    rewrite (rows_quota _ _ _ Hrows), (reserved_replace class q id old d) by done. do 2 f_equal. lia.
Qed.

(** The rows of a message are removed, over those after its quota is released. *)
Lemma removed_rows q leak (db db' : DB) id m d k1 :
  spool_rows q leak db → fits 64 id → fits 64 d → q !! id = Some (m, d) →
  counters (λ class, reserved class q + leak class - holds class m) db' →
  (∀ cf k, cf ≠ SUBSPACE_QUOTA → kv_get db' cf k = kv_get db cf k) →
  spool_rows (delete id q) leak
    (kv_delete SUBSPACE_QUEUE_MESSAGE (queue_key (QMessage id))
       (kv_delete SUBSPACE_QUEUE_EVENT (queue_key (message_event d id))
          (kv_delete SUBSPACE_BLOB_LINK k1 db'))).
Proof.
  intros Hrows Hid Hd Hold HC Hframe.
  apply (spool_rows_update q _ leak _ db _ id); try done.
  - intros i Hne. by rewrite lookup_delete_ne.
  - intros i Hne Hi. rewrite kv_get_delete, decide_False by (by intros [_ Hk%message_key_inj]).
    do 2 other_row. apply Hframe. by apply subspace_ne.
  - by rewrite kv_get_delete, decide_True, lookup_delete_eq.
  - intros d' i Hne Hi Hd'. other_row.
    rewrite kv_get_delete, decide_False by (by intros [_ [_ ?]%event_key_inj]). other_row.
    apply Hframe. by apply subspace_ne.
  - intros d' Hd'. other_row. rewrite kv_get_delete, lookup_delete_eq.
    destruct (decide _) as [_|Hne]; [split; [by intros []|done]|]. other_row.
    rewrite Hframe by by apply subspace_ne. rewrite (rows_event _ _ _ Hrows), Hold by done.
    split; [|done]. intros [= <-]. by destruct Hne.
  - intros class Hc. unfold counter_at. do 3 other_row.
    fold (counter_at db' SUBSPACE_QUOTA (queue_key class)). rewrite HC by done.
    rewrite (reserved_delete class q id m d Hold). do 2 f_equal. lia.
Qed.
End Rows.

Ltac plain_batch :=
  unfold plain, set, clear, builder_new;
  repeat match goal with
  | |- Forall _ [] => apply Forall_nil_2
  | |- Forall _ (_ :: _) => apply Forall_cons_2; [by eexists|]
  | |- Forall _ (_ ++ _) => apply Forall_app_2
  | |- Forall _ (add_op ?w <$> ?l) => exact (adds_plain w l)
  end.

Section Locks.
Context `{KvLaws DB} {R : Type} (gen_range : R → Z → Z * R) (xxh3_64 : bytes → Z) (seed : R).

(** The lock that the row of an event holds. *)
Definition lock_of (d id : Z) (db : DB) : option Z :=
  l ← kv_get db SUBSPACE_QUEUE_EVENT (queue_key (message_event d id));
  if (length l =? 8)%nat then Some (from_be l) else None.

Lemma try_lock_spec now engine e (db : DB) :
  try_lock_event gen_range xxh3_64 seed now engine e db
  = if decide (lock_of (ev_due e) (ev_queue_id e) db = Some (lock_expiry e) ∧ engine = None)
    then (Some {| ev_due := ev_due e; ev_queue_id := ev_queue_id e;
                  lock_expiry := wrap 64 (now + LOCK_EXPIRY) |},
          kv_put SUBSPACE_QUEUE_EVENT (queue_key (message_event (ev_due e) (ev_queue_id e)))
            (u64_serialize (wrap 64 (now + LOCK_EXPIRY))) db)
    else (None, db).
Proof.
  unfold try_lock_event, store_write, commit, lock_of.
  set (key := queue_key (message_event (ev_due e) (ev_queue_id e))).
  cbn [at_db at_rng at_engine commit_ops commit_op assert_value set builder_new app txn txn_new collection].
  unfold value_key. cbn [assigned account_id collection document_id txn_new].
  rewrite !queue_key_any. fold key. change (value_subspace _ u8_max) with SUBSPACE_QUEUE_EVENT.
  destruct (kv_get db SUBSPACE_QUEUE_EVENT key) as [l|]; cbn [mbind option_bind assert_matches assert_is_none].
  - destruct (length l =? 8)%nat; cbn [andb]; [destruct (Z.eqb_spec (from_be l) (lock_expiry e)) as [He|He]|].
    + cbn. rewrite He. destruct engine; [by rewrite decide_False by naive_solver|].
      by rewrite decide_True.
    + cbn. rewrite decide_False by naive_solver. done.
    + cbn. rewrite decide_False by naive_solver. done.
  - cbn. rewrite decide_False by naive_solver. done.
Qed.

(** The workers' attempts at locks, one after the other: each scanned the queue at
    some time, of its own view of it, and takes one of the events found. *)
Record LockAttempt := {
  la_scan : Z;
  la_view : DB;
  la_event : QueueEventLock;
  la_now : Z;
  la_engine : option EngineError;
}.

Definition attempt_ok (a : LockAttempt) : Prop :=
  la_event a ∈ next_events (la_scan a) (la_view a) ∧ la_scan a ≤ la_now a ∧
  fits 64 (ev_due (la_event a)) ∧ fits 64 (ev_queue_id (la_event a)) ∧
  fits 64 (la_now a + LOCK_EXPIRY).

(** When the locks of the event [d], [id] were granted. *)
Fixpoint grants (d id : Z) (attempts : list LockAttempt) (db : DB) : list Z :=
  match attempts with
  | [] => []
  | a :: attempts =>
      let '(e, db) := try_lock_event gen_range xxh3_64 seed (la_now a) (la_engine a) (la_event a) db in
      (if decide (is_Some e ∧ ev_due (la_event a) = d ∧ ev_queue_id (la_event a) = id)
       then [la_now a] else []) ++ grants d id attempts db
  end.

Lemma iterate_inv {S} (P : S → Prop) (params : IterateParams)
    (cb : bytes → bytes → S → result StoreError (bool * S)) (db : DB) s s' :
  (∀ k v s r, P s → cb k v s = Ok r → P r.2) → P s → iterate db params cb s = Ok s' → P s'.
Proof.
  intros Hcb. unfold iterate. generalize (if ip_ascending params then seek (ip_begin params)
    (kv_scan db (ip_subspace params)) else seek_down (ip_end params) (reverse (kv_scan db (ip_subspace params)))).
  intros rows. revert s. induction rows as [|[k v] rows IH]; intros s Hs; cbn [iterate_rows].
  { by intros [= <-]. }
  destruct (decide _); [by intros [= <-]|]. destruct (cb k v s) as [r|] eqn:Hr; [|done].
  cbn [mbind result_bind]. destruct (negb r.1 || ip_first params); [intros [= <-]|apply IH]; by eapply Hcb.
Qed.

Lemma next_events_unlocked now (db : DB) : Forall (λ e, lock_expiry e < now) (next_events now db).
Proof.
  unfold next_events. destruct (iterate _ _ _ _) as [events|] eqn:Hit; [|constructor].
  eapply (iterate_inv (Forall (λ e, lock_expiry e < now))); [|constructor|exact Hit].
  intros k v s r Hs [= <-]. destruct (read_event k v) as [e|]; cbn; [|done].
  destruct (Z.ltb_spec (lock_expiry e) now); [|done]. apply Forall_app. by repeat constructor.
Qed.

Lemma lock_of_put d id d' id' lock (db : DB) :
  fits 64 d → fits 64 id → fits 64 d' → fits 64 id' → fits 64 lock →
  lock_of d id (kv_put SUBSPACE_QUEUE_EVENT (queue_key (message_event d' id')) (u64_serialize lock) db)
  = if decide (d' = d ∧ id' = id) then Some lock else lock_of d id db.
Proof.
  intros Hd Hid Hd' Hid' Hl. unfold lock_of. rewrite kv_get_put.
  destruct (decide (d' = d ∧ id' = id)) as [[-> ->]|Hne].
  - rewrite decide_True by done. cbn [mbind option_bind]. unfold u64_serialize.
    rewrite length_be_bytes, from_be_bytes_id by done. done.
  - rewrite decide_False; [done|]. intros [_ [-> ->]%event_key_inj]; naive_solver.
Qed.

Lemma grants_after d id attempts (db : DB) bound :
  fits 64 d → fits 64 id → Forall attempt_ok attempts →
  (∀ l, lock_of d id db = Some l → bound ≤ l) →
  Forall (λ t, bound < t) (grants d id attempts db) ∧
  StronglySorted (λ t1 t2, t1 + LOCK_EXPIRY < t2) (grants d id attempts db).
Proof.
  intros Hd Hid Hall. revert db bound.
  induction Hall as [|a attempts (Hin & Hscan & Hfd & Hfi & Hnow) Hall IH]; intros db bound Hb.
  { split; constructor. }
  cbn [grants]. rewrite try_lock_spec. destruct (decide (_ ∧ la_engine a = None)) as [[Hlock _]|_].
  2: { rewrite decide_False by (by intros [[] _]). by apply IH. }
  rewrite wrap_id by done. set (db' := kv_put _ _ _ db).
  assert (lock_expiry (la_event a) < la_now a) as Hlt.
  { pose proof (next_events_unlocked (la_scan a) (la_view a)) as Hf. rewrite Forall_forall in Hf.
    specialize (Hf _ Hin). cbv beta in Hf. lia. }
  assert (∀ l, lock_of d id db' = Some l → l = if decide (ev_due (la_event a) = d ∧ ev_queue_id (la_event a) = id)
    then la_now a + LOCK_EXPIRY else default 0 (lock_of d id db)) as Hdb'.
  { intros l. unfold db'. rewrite lock_of_put by done. destruct (decide _); [by intros [= <-]|]. by intros ->. }
  destruct (decide (ev_due (la_event a) = d ∧ ev_queue_id (la_event a) = id)) as [[<- <-]|Hne].
  - rewrite decide_True by (by split; [eexists|]). specialize (Hb _ Hlock).
    destruct (IH db' (la_now a + LOCK_EXPIRY)) as [Hf Hs]; [intros l Hl; rewrite (Hdb' l Hl); lia|].
    cbn [app]. split; [|by constructor]. constructor; [lia|].
    eapply Forall_impl; [exact Hf|]. cbv beta. unfold LOCK_EXPIRY. lia.
  - rewrite decide_False by naive_solver. apply IH. intros l Hl. apply Hb.
    unfold db' in Hl. rewrite lock_of_put, decide_False in Hl by done. done.
Qed.
End Locks.

Section SpoolSteps.
Context `{KvLaws DB} `{MessageCodec}.
Context {R : Type} (gen_range : R → Z → Z * R) (xxh3_64 : bytes → Z) (seed : R).
Context (blob_hash_of : bytes → bytes).

#[local] Abbreviation spool_exec := (spool_exec (DB := DB) gen_range xxh3_64 seed blob_hash_of).
#[local] Abbreviation spool_spec := (spool_spec blob_hash_of).

Lemma queue_step now ans headers raw m q leak (sv : Server DB) :
  spool_rows q leak (store sv) → spool_pre blob_hash_of (DoQueue now ans headers raw m) q →
  let op := DoQueue now ans headers raw m in
  let '(ok, sv') := spool_exec op sv in
  let s := if ok : bool then spool_spec op (q, leak) else (q, leak) in
  spool_rows s.1 s.2 (store sv').
Proof.
  intros Hrows (Hid & Hnew & Hdue). cbn [SmtpQueue.spool_exec]. unfold queue.
  fold (queued blob_hash_of headers raw m). set (m' := queued blob_hash_of headers raw m) in *.
  rewrite store_write_plain by plain_batch.
  destruct (qa_reserve ans); [done|]. set (db1 := effect _ (store sv)).
  assert (spool_rows q leak db1) as Hrows1.
  { apply (spool_rows_frame q leak (store sv)); [|done]. intros cf k Hcf. unfold db1, effect. cbn.
    apply get_put_ne. intros ->. by apply (bool_decide_pack _) in Hcf. }
  destruct (qa_put_blob ans); [|done]. cbn [negb store put_blob on_store].
  unfold reserve_quota, add. rewrite (foldl_batch (add_op (quota_weight (size m')))).
  rewrite store_write_plain by plain_batch. destruct (qa_write ans); [done|].
  destruct (adds_effect (quota_weight (size m')) (quota_keys m')
    (λ class, reserved class q + leak class) db1) as [HC Hframe];
    [apply quota_weight_ok|exact (rows_quota _ _ _ Hrows1)|].
  unfold set, clear, builder_new. rewrite <- !(assoc_L (++)), !effect_app.
  destruct (qa_channel ans);
    exact (queued_rows q leak db1 _ (queue_id m) m' _ _ _ _ _ Hrows1 Hid Hdue Hnew HC Hframe).
Qed.

Lemma lock_step now engine e q leak (sv : Server DB) :
  spool_rows q leak (store sv) → fits 64 (ev_due e) → fits 64 (ev_queue_id e) →
  spool_rows q leak (store (spool_exec (DoLock now engine e) sv).2).
Proof.
  intros Hrows Hd Hid. cbn [SmtpQueue.spool_exec]. rewrite try_lock_spec.
  destruct (decide _) as [[Hlock _]|_]; [|done]. cbn [snd store on_store].
  split.
  - intros i Hi. other_row. by apply (rows_message _ _ _ Hrows).
  - intros d i Hd' Hi. rewrite kv_get_put. destruct (decide _) as [[_ [-> ->]%event_key_inj]|Hne]; try done.
    + rewrite <- (rows_event _ _ _ Hrows) by done. unfold lock_of in Hlock.
      destruct (kv_get _ _ _); [|done]. by split.
    + by apply (rows_event _ _ _ Hrows).
  - intros class Hc. unfold counter_at. other_row. by apply (rows_quota _ _ _ Hrows).
Qed.

Lemma release_quota_keeps m b :
  queue_id (release_quota m b).1 = queue_id m ∧ size (release_quota m b).1 = size m.
Proof.
  unfold release_quota. repeat case_bool_decide; try done. by destruct (foldl _ _ _).
Qed.

Lemma save_step engine moved m q leak (sv : Server DB) :
  spool_rows q leak (store sv) → spool_pre blob_hash_of (DoSave engine moved m) q →
  let op := DoSave engine moved m in
  let '(ok, sv') := spool_exec op sv in
  let s := if ok : bool then spool_spec op (q, leak) else (q, leak) in
  spool_rows s.1 s.2 (store sv').
Proof.
  intros Hrows [Hid Hpre]. destruct (q !! queue_id m) as [[old d]|] eqn:Hold; [|done].
  destruct Hpre as (Hkeys & Hsize & Hd & Hmoved).
  cbn [SmtpQueue.spool_exec SmtpQueue.spool_spec]. unfold save_changes.
  destruct (release_quota_keeps m builder_new) as [Hqid _].
  destruct (release_quota m builder_new) as [m' b] eqn:Hrel. cbn [fst] in Hqid. rewrite Hqid.
  assert (∀ class, holds class m = holds class old) as Hholds.
  { intros class. unfold holds. by rewrite Hkeys, Hsize. }
  set (b' := match fst <$> moved with Some _ => _ | None => _ end).
  assert (plain (DB := DB) b') as Hb' by (unfold b'; destruct moved as [[prev next]|];
    cbn [fmap option_fmap option_map fst snd]; plain_batch).
  rewrite store_write_plain by (unfold set; apply plain_app; split; [done|plain_batch]).
  destruct engine; [done|]. cbn [fst snd store on_store].
  apply (spool_rows_leak _ (λ class, leak class + (holds class old - holds class m')));
    [intros class; by rewrite Hholds|].
  replace (alter _ (queue_id m) q) with (<[queue_id m := (m', from_option snd d moved)]> q).
  2: { apply map_eq. intros i. destruct (decide (i = queue_id m)) as [->|Hne].
       - by rewrite lookup_insert_eq, lookup_alter_eq, Hold.
       - by rewrite lookup_insert_ne, lookup_alter_ne. }
  pose proof (saved_rows q leak (store sv) (queue_id m) old d m' moved (u64_serialize 0) Hrows Hid Hold Hd Hmoved)
    as Hsaved.
  unfold b'. destruct moved as [[prev next]|]; exact Hsaved.
Qed.

Lemma remove_step engine prev m q leak (sv : Server DB) :
  spool_rows q leak (store sv) → spool_pre blob_hash_of (DoRemove engine prev m) q →
  let op := DoRemove engine prev m in
  let '(ok, sv') := spool_exec op sv in
  let s := if ok : bool then spool_spec op (q, leak) else (q, leak) in
  spool_rows s.1 s.2 (store sv').
Proof.
  intros Hrows [Hid Hpre]. destruct (q !! queue_id m) as [[old d]|] eqn:Hold; [|done].
  destruct Hpre as (-> & Hkeys & Hsize & Hprev).
  cbn [SmtpQueue.spool_exec SmtpQueue.spool_spec]. unfold remove, give_back, add.
  set (weight k := i64 (- quota_weight (size m) k)).
  rewrite (foldl_batch (add_op weight)). rewrite store_write_plain by plain_batch.
  destruct engine; [done|]. cbn [fst snd store on_store].
  destruct (adds_effect weight (quota_keys m) (λ class, reserved class q + leak class) (store sv))
    as [HC Hframe]; [intros k; apply i64_range|exact (rows_quota _ _ _ Hrows)|].
  unfold clear, builder_new. rewrite <- !(assoc_L (++)), !effect_app.
  refine (removed_rows q leak (store sv) _ (queue_id m) old prev _ Hrows Hid Hprev Hold _ Hframe).
  intros class Hc. etrans; [by apply HC|]. unfold weight. rewrite key_total_neg. unfold holds.
  by rewrite Hkeys, Hsize.
Qed.


Lemma spool_step op q leak (sv : Server DB) :
  spool_rows q leak (store sv) → spool_pre blob_hash_of op q →
  let '(ok, sv') := spool_exec op sv in
  let s := if ok : bool then spool_spec op (q, leak) else (q, leak) in
  spool_rows s.1 s.2 (store sv').
Proof.
  intros Hrows Hpre. destruct op as [now ans headers raw m|now engine e|engine moved m|engine prev m].
  - by apply queue_step.
  - destruct Hpre as [Hd Hid]. pose proof (lock_step now engine e q leak sv Hrows Hd Hid) as Hl.
    destruct (spool_exec _ sv) as [ok sv']. by destruct ok.
  - by apply save_step.
  - by apply remove_step.
Qed.

Lemma read_message_rows `{!MessageCodecLaw} q leak (db : DB) id :
  spool_rows q leak db → fits 64 id → read_message id db = fst <$> q !! id.
Proof.
  intros Hrows Hid. unfold read_message, get_value. change (value_subspace _ 0) with SUBSPACE_QUEUE_MESSAGE.
  rewrite queue_key_any, (rows_message _ _ _ Hrows) by done.
  destruct (q !! id) as [[m d]|]; [|done]. cbn. by rewrite message_roundtrip.
Qed.

End SpoolSteps.

(** ** The scan of the events *)

Definition event_row (e : QueueEventLock) : Row :=
  (queue_key (message_event (ev_due e) (ev_queue_id e)), u64_serialize (lock_expiry e)).

Definition event_ok (e : QueueEventLock) : Prop :=
  fits 64 (ev_due e) ∧ fits 64 (ev_queue_id e) ∧ fits 64 (lock_expiry e).

(** The rows of the events, in the order of their keys. *)
Definition events_are `{KvStore DB} (db : DB) (events : list QueueEventLock) : Prop :=
  kv_scan db SUBSPACE_QUEUE_EVENT = event_row <$> events ∧ Forall event_ok events.

(** The events up to the first that is not due. *)
Fixpoint visited (now : Z) (events : list QueueEventLock) : list QueueEventLock :=
  match events with
  | [] => []
  | e :: events => e :: if ev_due e <=? now then visited now events else []
  end.

Definition unlocked (now : Z) (e : QueueEventLock) : Prop := lock_expiry e < now.
#[export] Instance unlocked_dec now e : Decision (unlocked now e).
Proof. unfold unlocked. apply _. Defined.

Lemma read_event_row e : event_ok e → read_event (event_row e).1 (event_row e).2 = Ok e.
Proof.
  intros (Hd & Hi & Hl). unfold read_event, event_row, deserialize_be_u64. cbn [fst snd]. rewrite event_key.
  pose proof (deserialize_be_at 8 [] (ev_due e) (be_bytes 8 (ev_queue_id e)) 0) as Hdue.
  rewrite app_nil_l in Hdue. rewrite Hdue by done. cbn [mbind result_bind].
  pose proof (deserialize_be_at 8 (be_bytes 8 (ev_due e)) (ev_queue_id e) [] U64_LEN) as Hid.
  rewrite app_nil_r in Hid. rewrite Hid by done. cbn [mbind result_bind].
  unfold u64_deserialize, u64_serialize. rewrite length_be_bytes, from_be_bytes_id by done. by destruct e.
Qed.

Lemma event_key_compare d i d' i' :
  fits 64 d → fits 64 i → fits 64 d' → fits 64 i' →
  bytes_compare (queue_key (message_event d i)) (queue_key (message_event d' i'))
  = match d ?= d' with Eq => i ?= i' | c => c end.
Proof.
  intros Hd Hi Hd' Hi'. rewrite !event_key, bytes_compare_app by (by rewrite !length_be_bytes).
  by rewrite !(be_bytes_compare 8) by done.
Qed.

Lemma event_key_bounds d i :
  fits 64 d → fits 64 i →
  ¬ bytes_lt (queue_key (message_event d i)) (queue_key (message_event 0 0)) ∧
  ¬ bytes_lt (queue_key (message_event u64_max u64_max)) (queue_key (message_event d i)).
Proof.
  intros Hd Hi. unfold bytes_lt. unfold fits in *.
  assert (u64_max = 2 ^ 64 - 1) as Hmax by done.
  rewrite !event_key_compare by (unfold fits; lia).
  split.
  - destruct (Z.compare_spec d 0), (Z.compare_spec i 0); done || lia.
  - destruct (Z.compare_spec u64_max d), (Z.compare_spec u64_max i); done || lia.
Qed.

Section Scan.
Context `{KvLaws DB} (db : DB) (events : list QueueEventLock) (now : Z) (Hev : events_are db events).

Lemma events_sorted : StronglySorted (λ e1 e2, ev_due e1 ≤ ev_due e2) events.
Proof using All.
  destruct Hev as [Hrows Hok]. pose proof (kv_scan_sorted db SUBSPACE_QUEUE_EVENT) as Hs.
  rewrite Hrows in Hs. clear Hrows Hev.
  induction events as [|e l IH]; [constructor|]. apply Forall_cons in Hok as [He Hok].
  apply StronglySorted_inv in Hs as [Hs Hall]. constructor; [by apply IH|].
  change (Forall (row_lt (event_row e)) (event_row <$> l)) in Hall. rewrite Forall_fmap in Hall.
  rewrite Forall_forall in *. intros e' Hin. specialize (Hall e' Hin).
  destruct He as (Hd & Hi & _), (Hok e' Hin) as (Hd' & Hi' & _).
  unfold compose, row_lt, bytes_lt in Hall. cbn [event_row fst] in Hall.
  rewrite event_key_compare in Hall by done.
  destruct (Z.compare_spec (ev_due e) (ev_due e')); [lia|lia|done].
Qed.

Lemma next_events_visited : next_events now db = filter (unlocked now) (visited now events).
Proof using All.
  destruct Hev as [Hrows Hok]. unfold next_events, iterate. cbn [ip_subspace ip_ascending ip_begin].
  rewrite Hrows. rewrite !queue_key_any.
  assert (seek (queue_key (message_event 0 0)) (event_row <$> events) = event_row <$> events) as ->.
  { destruct Hok as [|e l (Hd & Hi & _) Hok]; [done|]. cbn [fmap list_fmap seek].
    rewrite decide_False; [done|]. by apply event_key_bounds. }
  match goal with |- context [iterate_rows ?p ?cb _ _] =>
    enough (∀ acc, iterate_rows p cb (event_row <$> events) acc
                   = Ok (acc ++ filter (unlocked now) (visited now events))) as Hit by by rewrite Hit end.
  clear Hrows Hev.
  induction Hok as [|e l He Hok IH]; intros acc; cbn [fmap list_fmap iterate_rows visited].
  { by rewrite app_nil_r. }
  rewrite (surjective_pairing (event_row e)), decide_False.
  2: { cbn [ip_begin ip_end event_row fst]. destruct He as (Hd & Hi & _).
       destruct (event_key_bounds (ev_due e) (ev_queue_id e)) as [? ?]; [done..|]. tauto. }
  rewrite read_event_row by done. cbn [mbind result_bind fst snd ip_first].
  rewrite orb_false_r.
  assert ((if lock_expiry e <? now then acc ++ [e] else acc) = acc ++ filter (unlocked now) [e]) as ->.
  { rewrite filter_cons. destruct (Z.ltb_spec (lock_expiry e) now).
    - by rewrite decide_True.
    - rewrite decide_False by (unfold unlocked; lia). by rewrite filter_nil, app_nil_r. }
  destruct (ev_due e <=? now); cbn [negb].
  - rewrite IH, <- app_assoc, <- filter_app. done.
  - done.
Qed.
End Scan.

Lemma strongly_sorted_filter {A} (R : A → A → Prop) (P : A → Prop) `{∀ x, Decision (P x)} l :
  StronglySorted R l → StronglySorted R (filter P l).
Proof.
  induction 1 as [|x l Hl IH Hx]; [constructor|]. rewrite filter_cons. destruct (decide (P x)); [|done].
  constructor; [done|]. rewrite Forall_forall in *. intros y [_ Hy]%list_elem_of_filter. by apply Hx.
Qed.

(** What the manager makes of the events: the first one that is not due sets the
    time to wake up, if it is not locked. *)
Lemma schedule_visited now events acc wake :
  StronglySorted (λ e1 e2, ev_due e1 ≤ ev_due e2) events →
  foldl (λ '(attempts, wake) e,
    if ev_due e <=? now then (attempts ++ [e], wake) else (attempts, (ev_due e - now) * 1000))
    (acc, wake) (filter (unlocked now) (visited now events))
  = (acc ++ filter (λ e, ev_due e ≤ now ∧ unlocked now e) events,
     match head (filter (λ e, now < ev_due e) events) with
     | Some e => if decide (unlocked now e) then (ev_due e - now) * 1000 else wake
     | None => wake
     end).
Proof.
  intros Hs. revert acc. induction Hs as [|e l Hs IH Hall]; intros acc; cbn [visited].
  { by rewrite app_nil_r. }
  destruct (Z.leb_spec (ev_due e) now) as [Hd|Hd].
  - rewrite (filter_cons_False (λ e, now < ev_due e)) by lia.
    destruct (decide (unlocked now e)) as [Hu|Hu].
    + rewrite !filter_cons_True by done. cbn [foldl]. rewrite (proj2 (Z.leb_le _ _) Hd), IH.
      by rewrite <- app_assoc.
    + rewrite filter_cons_False by done. rewrite filter_cons_False by tauto. apply IH.
  - rewrite (filter_cons_True (λ e, now < ev_due e)) by done. cbn [head].
    rewrite (filter_none (λ e, ev_due e ≤ now ∧ unlocked now e)), app_nil_r.
    2: { constructor; [lia|]. eapply Forall_impl; [exact Hall|]. cbn. lia. }
    rewrite filter_cons. destruct (decide (unlocked now e)); [|done].
    cbn [filter list_filter foldl]. by rewrite (proj2 (Z.leb_gt _ _) Hd).
Qed.

Lemma take_on_hold_sub turns now limits hold :
  Forall (λ e, e ∈ held <$> hold) (take_on_hold turns now limits hold).1.
Proof.
  revert hold. induction turns as [|n IH]; intros hold; cbn [take_on_hold]; [constructor|].
  unfold next_on_hold. destruct (list_find _ hold) as [[pos o]|] eqn:Hf; cbn [mbind option_bind]; [|constructor].
  apply list_find_Some in Hf as (Hpos & _ & _). specialize (IH (delete pos hold)).
  destruct (take_on_hold n now limits (delete pos hold)) as [events hold']. cbn [fst] in *. constructor.
  - apply list_elem_of_fmap. exists o. split; [done|]. by eapply list_elem_of_lookup_2.
  - eapply Forall_impl; [exact IH|]. cbn. intros e (o' & -> & Hin)%list_elem_of_fmap.
    apply list_elem_of_fmap. exists o'. split; [done|].
    rewrite (delete_Permutation hold pos o Hpos). by right.
Qed.

(** ** Properties *)


(** C23. However many workers scan the queue and try to lock what they found, the
    locks granted on one event do not overlap: each is granted after the one before
    it has expired. *)
Theorem locks_disjoint `{KvLaws DB} {R} (gen_range : R → Z → Z * R) (xxh3_64 : bytes → Z) (seed : R)
    (d id : Z) (attempts : list (LockAttempt (DB := DB))) (db : DB) :
  fits 64 d → fits 64 id → Forall attempt_ok attempts →
  StronglySorted (λ t1 t2, t1 + LOCK_EXPIRY < t2) (grants gen_range xxh3_64 seed d id attempts db).
Proof.
  intros Hd Hid Hall. destruct (lock_of d id db) as [l|] eqn:Hl.
  - apply (grants_after gen_range xxh3_64 seed d id attempts db l); try done. intros l'. rewrite Hl. by intros [= ->].
  - apply (grants_after gen_range xxh3_64 seed d id attempts db 0); try done. by rewrite Hl.
Qed.


(** ** A concrete queue *)

Module QueueExample.

(** A codec that keeps the law: every value is a run of numbers. *)
Class Wire (A : Type) := {
  wput : A → bytes;
  wget : bytes → option (A * bytes);
  wire_law a rest : wget (wput a ++ rest) = Some (a, rest);
}.

#[local] Instance wire_Z : Wire Z.
Proof. by refine {| wput z := [z]; wget l := match l with z :: l => Some (z, l) | [] => None end |}. Defined.
#[local] Instance wire_unit : Wire ().
Proof. by refine {| wput _ := []; wget l := Some ((), l) |}; intros []. Defined.
#[local] Instance wire_prod {A B} `{Wire A, Wire B} : Wire (A * B).
Proof.
  refine {| wput x := wput x.1 ++ wput x.2;
            wget l := '(a, l) ← wget l; '(b, l) ← wget l; Some ((a, b), l) |}.
  intros [a b] rest. cbn [fst snd]. rewrite <- app_assoc, wire_law. cbn. by rewrite wire_law.
Defined.
#[local] Instance wire_sum {A B} `{Wire A, Wire B} : Wire (A + B).
Proof.
  refine {| wput x := match x with inl a => 0 :: wput a | inr b => 1 :: wput b end;
            wget l := match l with
                      | 0 :: l => '(a, l) ← wget l; Some (inl a, l)
                      | _ :: l => '(b, l) ← wget l; Some (inr b, l)
                      | [] => None end |}.
  intros [a|b] rest; cbn; by rewrite wire_law.
Defined.
Fixpoint wget_n {A} `{Wire A} (n : nat) (l : bytes) : option (list A * bytes) :=
  match n with
  | O => Some ([], l)
  | S n => '(a, l) ← wget l; '(k, l) ← wget_n n l; Some (a :: k, l)
  end.
#[local] Instance wire_list {A} `{Wire A} : Wire (list A).
Proof.
  refine {| wput x := Z.of_nat (length x) :: (x ≫= wput);
            wget l := match l with n :: l => wget_n (Z.to_nat n) l | [] => None end |}.
  intros x rest. cbn [app]. rewrite Nat2Z.id. induction x as [|a x IH]; [done|].
  cbn. rewrite <- app_assoc, wire_law. cbn. change (list_bind _ _ wput x) with (x ≫= wput). by rewrite IH.
Defined.
Lemma wire_iso {A B} `{Wire B} (f : A → B) (g : B → A) : (∀ a, g (f a) = a) → Wire A.
Proof.
  intros Hgf. refine {| wput a := wput (f a); wget l := '(b, l) ← wget l; Some (g b, l) |}.
  intros a rest. rewrite wire_law. cbn. by rewrite Hgf.
Defined.
#[local] Instance wire_nat : Wire nat.
Proof. apply (wire_iso Z.of_nat Z.to_nat Nat2Z.id). Defined.
#[local] Instance wire_bool : Wire bool.
Proof. by apply (wire_iso (λ b : bool, if b then 1 else 0) (λ z, z =? 1)); intros []. Defined.
#[local] Instance wire_option {A} `{Wire A} : Wire (option A).
Proof.
  by apply (wire_iso (λ o, match o with Some a => inr a | None => inl () end)
    (λ s, match s with inr a => Some a | inl () => None end)); intros [].
Defined.

#[local] Instance schedule_wire : Wire Schedule.
Proof. by apply (wire_iso (λ s, (due s, inner s)) (λ '(d, i), {| due := d; inner := i |})); intros []. Defined.
#[local] Instance status_wire {T E} `{Wire T, Wire E} : Wire (Status T E).
Proof.
  by apply (wire_iso
    (λ s, match s with
          | Scheduled => inl () | Completed v => inr (inl v)
          | TemporaryFailure e => inr (inr (inl e)) | PermanentFailure e => inr (inr (inr e)) end)
    (λ s, match s with
          | inl () => Scheduled | inr (inl v) => Completed v
          | inr (inr (inl e)) => TemporaryFailure e | inr (inr (inr e)) => PermanentFailure e end)); intros [].
Defined.
#[local] Instance response_wire : Wire Response.
Proof.
  by apply (wire_iso (λ r, (code r, esc r, message r))
    (λ '(c, e, m), {| code := c; esc := e; message := m |})); intros [].
Defined.
#[local] Instance host_response_wire {T} `{Wire T} : Wire (HostResponse T).
Proof.
  by apply (wire_iso (λ r, (hostname r, response r)) (λ '(h, r), {| hostname := h; response := r |})); intros [].
Defined.
#[local] Instance error_details_wire : Wire ErrorDetails.
Proof. by apply (wire_iso (λ r, (entity r, details r)) (λ '(e, d), {| entity := e; details := d |})); intros []. Defined.
#[local] Instance error_wire : Wire Error.
Proof.
  by apply (wire_iso
    (λ e, match e with
          | DnsError l => (0, inl l) | MtaStsError l => (1, inl l) | Io l => (2, inl l)
          | UnexpectedResponse r => (0, inr (inl r))
          | ConnectionError d => (0, inr (inr d)) | TlsError d => (1, inr (inr d)) | DaneError d => (2, inr (inr d))
          | RateLimited => (3, inl []) | ConcurrencyLimited => (4, inl []) end)
    (λ x, match x with
          | (0, inl l) => DnsError l | (1, inl l) => MtaStsError l | (2, inl l) => Io l
          | (_, inr (inl r)) => UnexpectedResponse r
          | (0, inr (inr d)) => ConnectionError d | (1, inr (inr d)) => TlsError d | (_, inr (inr d)) => DaneError d
          | (3, inl _) => RateLimited | (_, inl _) => ConcurrencyLimited end)); intros [].
Defined.
#[local] Instance quota_key_wire : Wire QuotaKey.
Proof.
  by apply (wire_iso (λ k, match k with KeySize l i => (true, l, i) | KeyCount l i => (false, l, i) end)
    (λ '(b, l, i), if b : bool then KeySize l i else KeyCount l i)); intros [].
Defined.
#[local] Instance domain_wire : Wire Domain.
Proof.
  by apply (wire_iso (λ d, (domain d, retry d, notify d, expires d, d_status d))
    (λ '(d, r, n, e, s), {| domain := d; retry := r; notify := n; expires := e; d_status := s |})); intros [].
Defined.
#[local] Instance recipient_wire : Wire Recipient.
Proof.
  by apply (wire_iso (λ r, (domain_idx r, address r, address_lcase r, r_status r, r_flags r, orcpt r))
    (λ '(i, a, l, s, f, o), {| domain_idx := i; address := a; address_lcase := l; r_status := s;
                               r_flags := f; orcpt := o |})); intros [].
Defined.
#[local] Instance message_wire : Wire Message.
Proof.
  by apply (wire_iso (λ m, (queue_id m, created m, blob_hash m, return_path m, return_path_lcase m,
      return_path_domain m, recipients m, domains m, m_flags m, env_id m, priority m, size m, quota_keys m))
    (λ '(q, c, b, p, l, d, rs, ds, f, e, pr, s, k),
       {| queue_id := q; created := c; blob_hash := b; return_path := p; return_path_lcase := l;
          return_path_domain := d; recipients := rs; domains := ds; m_flags := f; env_id := e;
          priority := pr; size := s; quota_keys := k |})); intros [].
Defined.

#[export] Instance example_codec : MessageCodec := {
  message_serialize m := wput m;
  message_deserialize l := fst <$> wget l;
}.
#[export] Instance example_codec_law : MessageCodecLaw.
Proof.
  intros m. change (fst <$> wget (wput m) = Some m). pose proof (wire_law m []) as Hw.
  rewrite app_nil_r in Hw. by rewrite Hw.
Qed.

Definition server0 : Server MapStore.DB := {| store := ∅; blobs := ∅; queue_tx := [] |}.
Definition fine : QueueAnswers :=
  {| qa_reserve := None; qa_put_blob := true; qa_write := None; qa_channel := true |}.
Definition key_hash (l : bytes) : bytes := take 2 l.

Definition two_domains (status : Status () Error) (keys : list QuotaKey) : Message :=
  with_quota_keys keys
    (with_domains
       [{| domain := [97]; retry := {| due := 100; inner := 0 |}; notify := {| due := 900; inner := 0 |};
           expires := 800; d_status := status |};
        {| domain := [98]; retry := {| due := 200; inner := 0 |}; notify := {| due := 900; inner := 0 |};
           expires := 800; d_status := Scheduled |}]
       (new_message 100 (Some 7) [] [] [])).

(** One message per domain: what the first domain holds of its quota. *)
Definition domain_key : QuotaKey := KeyCount [1] (domain_quota_id 0).

Definition life (status : Status () Error) : list SpoolOp :=
  let m := two_domains status [domain_key] in
  let m := with_blob (key_hash [65; 66]) 2 m in
  [DoQueue 100 fine None [65; 66] (two_domains Scheduled [domain_key]);
   DoLock 100 None {| ev_due := 100; ev_queue_id := 7; lock_expiry := 0 |};
   DoSave None (Some (100, 200)) m;
   DoRemove None 200 (release_quota m builder_new).1].

Definition run_life (status : Status () Error) : (Spool * (QueueClass → Z)) * Server MapStore.DB :=
  spool_run coin no_hash 0 key_hash (life status) (∅, λ _, 0) server0.

Lemma empty_rows : spool_rows ∅ (λ _, 0) (store server0).
Proof.
  assert (∀ cf k, kv_get (store server0) cf k = None) as Hnone by (intros; apply lookup_empty).
  split.
  - intros id _. by rewrite Hnone, lookup_empty.
  - intros d id _ _. rewrite Hnone, lookup_empty. split; [by intros []|done].
  - intros class _. unfold counter_at, reserved. by rewrite Hnone, map_fold_empty.
Qed.


(** A domain that is done gives its quota back in a batch that is not written:
    the message is gone and its quota is still in use. *)
Lemma quota_leaks :
  let '(s, sv) := run_life (Completed ()) in
  s.1 = ∅ ∧ read_message 7 (store sv) = None ∧
  get_counter (store sv) (Queue (QuotaCount [1])) 0 0 0 = Ok 1 ∧
  get_counter (store (run_life Scheduled).2) (Queue (QuotaCount [1])) 0 0 0 = Ok 0.
Proof. by vm_compute. Qed.

(** Two recipients under one key are checked one by one, each against what was
    there before: a limit of one message is passed and two are counted. *)
Definition one_message : QueueQuota :=
  {| expr_is_empty := false; eval_expr _ := Some true; new_key _ := [1]; quota_size := None;
     quota_messages := Some 1 |}.
Definition two_recipients : Message :=
  add_recipient_parts 100 None [97; 64; 99] [97; 64; 99] [99]
    (add_recipient_parts 100 None [98; 64; 99] [98; 64; 99] [99] (new_message 100 (Some 7) [] [] [])).

Lemma quota_overshoot :
  let quotas := {| quota_sender := []; quota_rcpt_domain := []; quota_rcpt := [one_message] |} in
  let '(ok, m) := has_quota quotas (store server0) two_recipients in
  let '(queued, sv) := queue coin no_hash 0 key_hash 100 fine None [65] m server0 in
  ok = true ∧ queued = true ∧ get_counter (store sv) (Queue (QuotaCount [1])) 0 0 0 = Ok 2.
Proof. by vm_compute. Qed.

(** Rows of events. *)
Definition with_events (l : list QueueEventLock) : MapStore.DB :=
  foldr (λ e, kv_put SUBSPACE_QUEUE_EVENT (event_row e).1 (event_row e).2) ∅ l.

Definition ev (d id lock : Z) : QueueEventLock := {| ev_due := d; ev_queue_id := id; lock_expiry := lock |}.

Definition no_limits (turn limiter : nat) : Z * Z := (0, 0).

(** A worker that stopped while it held a lock: the event is due and nothing wakes
    the manager when the lock expires. *)
Lemma lock_not_awaited :
  process_events (λ _, 0) no_limits 100 100 (with_events [ev 90 7 150]) manager_new
  = ([], {| on_hold := []; next_wake_up := LONG_WAIT |}).
Proof. by vm_compute. Qed.

(** The clock ticks between the two readings: the event of second 101 is neither
    attempted nor waited for, the manager sleeps until second 5000. *)
Lemma tick_delays :
  process_events (λ _, 0) no_limits 100 101 (with_events [ev 101 7 0; ev 5000 8 0]) manager_new
  = ([], {| on_hold := []; next_wake_up := (5000 - 100) * 1000 |}).
Proof. by vm_compute. Qed.

Lemma locks_disjoint_witness :
  let a now seen := {| la_scan := now; la_view := with_events [ev 90 7 seen]; la_event := ev 90 7 seen;
                       la_now := now; la_engine := None |} in
  grants coin no_hash 0 90 7 [a 100 0; a 101 0; a 401 400] (with_events [ev 90 7 0]) = [100; 401] ∧
  StronglySorted (λ t1 t2, t1 + LOCK_EXPIRY < t2)
    (grants coin no_hash 0 90 7 [a 100 0; a 101 0; a 401 400] (with_events [ev 90 7 0])).
Proof.
  intros a. split; [by vm_compute|]. apply (locks_disjoint coin no_hash 0 90 7).
  - done.
  - done.
  - repeat constructor; try (by vm_compute); apply (bool_decide_unpack _); by vm_compute.
Defined.

End QueueExample.
