(* ===== verification/SmtpDelivery.v ===== *)
(** * Delivery attempts of the SMTP server

    crates/smtp/src: what a worker does with a message it has locked
    (outbound/delivery.rs), the dialogue with a remote server
    (outbound/session.rs, client.rs and the statuses of outbound/mod.rs), the
    delivery to local mailboxes (outbound/local.rs), throttling (queue/throttle.rs)
    and the notifications to the sender (queue/dsn.rs).  What remote servers,
    resolvers and the clock answer is given to the model; the theorems hold for
    every answer.  [None] is a panic: an index out of range. *)

From S2P Require Import Prelude Leb128 Utf8 Decimal StoreKeys KvStore StoreTxn SmtpQueue.

#[local] Open Scope chr_scope.

(** ** Text *)

(** [char::is_whitespace] *)
Definition is_white_space (c : Z) : bool :=
  (9 <=? c) && (c <=? 13) || (c =? 32) || (c =? 133) || (c =? 160) || (c =? 5760)
  || (8192 <=? c) && (c <=? 8202) || (c =? 8232) || (c =? 8233) || (c =? 8239) || (c =? 8287)
  || (c =? 12288).

Fixpoint trim_start (l : list Z) : list Z :=
  match l with
  | c :: l' => if is_white_space c then trim_start l' else l
  | [] => []
  end.

(** [str::trim] *)
Definition trim (s : bytes) : bytes :=
  match from_utf8 s with
  | Some cs => str_bytes (reverse (trim_start (reverse (trim_start cs))))
  | None => s
  end.

(** ** The protocol library *)

(** [mail_send::Error] *)
Inductive SendError :=
| SeIo | SeTls | SeBase64 | SeAuth | SeUnparseableReply
| SeUnexpectedReply (reply : Response)
| SeAuthenticationFailed (reply : Response)
| SeInvalidTLSName | SeMissingCredentials | SeMissingMailFrom | SeMissingRcptTo
| SeUnsupportedAuthMechanism | SeTimeout | SeMissingStartTls.

(** smtp_proto: what a reply code stands for, and the flags of an envelope. *)
Class SmtpProto := {
  positive_completion : Response → bool;
  permanent_negative : Response → bool;
  send_error_text : SendError → bytes;
  RCPT_NOTIFY_SUCCESS : Z;
  RCPT_NOTIFY_FAILURE : Z;
  RCPT_NOTIFY_DELAY : Z;
  RCPT_NOTIFY_NEVER : Z;
  MAIL_REQUIRETLS : Z;
  MAIL_SMTPUTF8 : Z;
  MAIL_RET_FULL : Z;
  MAIL_RET_HDRS : Z;
}.

(** A reply is not both; the flags of a recipient are in the low half of the word. *)
Class SmtpProtoLaw `{SmtpProto} : Prop := {
  severity_one r : positive_completion r && permanent_negative r = false;
  notify_success_fits : fits 32 RCPT_NOTIFY_SUCCESS;
  notify_failure_fits : fits 32 RCPT_NOTIFY_FAILURE;
  notify_delay_fits : fits 32 RCPT_NOTIFY_DELAY;
  notify_never_fits : fits 32 RCPT_NOTIFY_NEVER;
}.

(** The extensions of an [EhloResponse] that the client asks for. *)
Record Capabilities := {
  ext_size : bool;
  ext_require_tls : bool;
  ext_smtp_utf8 : bool;
  ext_dsn : bool;
  ext_chunking : bool;
}.

Definition flag_set (flags flag : Z) : bool := negb ((flags .& flag) =? 0).
Definition rcpt_has_flag (r : Recipient) (flag : Z) : bool := flag_set (r_flags r) flag.

Definition set_rcpt (s : Status (HostResponse bytes) (HostResponse ErrorDetails)) (flags : Z)
    (r : Recipient) : Recipient := {|
  domain_idx := domain_idx r; address := address r; address_lcase := address_lcase r;
  r_status := s; r_flags := flags; orcpt := orcpt r |}.

(** [rcpt.status = ..; rcpt.flags |= RCPT_STATUS_CHANGED] *)
Definition change_status (s : Status (HostResponse bytes) (HostResponse ErrorDetails)) (r : Recipient)
    : Recipient := set_rcpt s (r_flags r .| RCPT_STATUS_CHANGED) r.

Definition into_permanent {T E} (s : Status T E) : Status T E :=
  match s with TemporaryFailure e => PermanentFailure e | s => s end.
Definition into_temporary {T E} (s : Status T E) : Status T E :=
  match s with PermanentFailure e => TemporaryFailure e | s => s end.

(** ** outbound/mod.rs *)

Section Statuses.
Context `{SmtpProto}.

(** A failure of a whole domain. *)
Definition failure (permanent : bool) (e : Error) : Status () Error :=
  if permanent then PermanentFailure e else TemporaryFailure e.

Definition from_smtp_error (host command : bytes) (err : SendError) : Status () Error :=
  match err with
  | SeUnexpectedReply reply =>
      failure (permanent_negative reply)
        (UnexpectedResponse {| hostname := {| entity := host; details := trim command |};
                               response := reply |})
  | SeAuth | SeUnsupportedAuthMechanism | SeInvalidTLSName | SeMissingStartTls =>
      PermanentFailure (ConnectionError {| entity := host; details := send_error_text err |})
  | _ => TemporaryFailure (ConnectionError {| entity := host; details := send_error_text err |})
  end.

Definition from_starttls_error (host : bytes) (reply : option Response) : Status () Error :=
  match reply with
  | Some reply =>
      failure (permanent_negative reply)
        (UnexpectedResponse {| hostname := {| entity := host; details := str "STARTTLS" |};
                               response := reply |})
  | None =>
      PermanentFailure (TlsError {| entity := host;
                                    details := str "STARTTLS not advertised by host." |})
  end.

(** [cause] is the text of the error inside, for the TLS and I/O errors. *)
Definition from_tls_error (host : bytes) (err : SendError) (cause : bytes) : Status () Error :=
  match err with
  | SeInvalidTLSName => PermanentFailure (TlsError {| entity := host; details := str "Invalid hostname" |})
  | SeTimeout => TemporaryFailure (TlsError {| entity := host; details := str "TLS handshake timed out" |})
  | SeTls => TemporaryFailure (TlsError {| entity := host; details := str "Handshake failed: " ++ cause |})
  | SeIo => TemporaryFailure (TlsError {| entity := host; details := str "I/O error: " ++ cause |})
  | _ => PermanentFailure (TlsError {| entity := host; details := str "Other TLS error" |})
  end.

Definition timeout (host stage : bytes) : Status () Error :=
  TemporaryFailure (ConnectionError {| entity := host; details := str "Timeout while " ++ stage |}).

Definition local_error : Status () Error :=
  TemporaryFailure (ConnectionError {| entity := str "localhost";
                                       details := str "Could not deliver message locally." |}).

(** ** outbound/client.rs *)

(** What waiting for the other side gives. *)
Inductive Reply (A : Type) :=
| TimedOut
| SendFailed (e : SendError)
| Received (a : A).
Arguments TimedOut {A}.
Arguments SendFailed {A} e.
Arguments Received {A} a.

Record SessionParams := {
  p_hostname : bytes;
  has_credentials : bool;
  is_smtp : bool;
  local_hostname : bytes;
}.

Definition reply_or {A} (host stage command : bytes) (r : Reply A) : result (Status () Error) A :=
  match r with
  | TimedOut => Err (timeout host stage)
  | SendFailed e => Err (from_smtp_error host command e)
  | Received a => Ok a
  end.

(** [r.assert_code(220)] *)
Definition assert_code (c : Z) (r : Reply Response) : Reply Response :=
  match r with
  | Received a => if code a =? c then r else SendFailed (SeUnexpectedReply a)
  | _ => r
  end.

Definition read_greeting (host : bytes) (r : Reply Response) : result (Status () Error) () :=
  _ ← reply_or host (str "reading greeting") [] (assert_code 220 r); Ok ().

Definition data_command (bdat_cmd : option bytes) : bytes := default (str "DATA") bdat_cmd.

Definition read_smtp_data_response (host : bytes) (bdat_cmd : option bytes) (r : Reply Response)
    : result (Status () Error) Response :=
  reply_or host (str "reading SMTP DATA response") (data_command bdat_cmd) r.

Definition read_lmtp_data_response (host : bytes) (r : Reply (list Response))
    : result (Status () Error) (list Response) :=
  reply_or host (str "reading LMTP DATA responses") [] r.

Definition say_helo (p : SessionParams) (r : Reply Capabilities) : result (Status () Error) Capabilities :=
  let cmd := (if is_smtp p then str "EHLO " else str "LHLO ") ++ local_hostname p ++ [13; 10] in
  reply_or (p_hostname p) (str "reading EHLO response") cmd r.

(** [blob] is what the blob store has of the message; the dialogue inside is BDAT,
    or DATA and the reply 354, and then the message. *)
Definition send_message (p : SessionParams) (blob : option bytes) (bdat_cmd : option bytes)
    (data_reply sent : Reply Response) : result (Status () Error) () :=
  match blob with
  | None => Err (TemporaryFailure (Io (str "Queue system error.")))
  | Some _ =>
      let stage := str "sending message" in
      _ ← (if bdat_cmd is Some _ then Ok ()
           else _ ← reply_or (p_hostname p) stage (data_command bdat_cmd) (assert_code 354 data_reply); Ok ());
      _ ← reply_or (p_hostname p) stage (data_command bdat_cmd) sent; Ok ()
  end.
End Statuses.
Arguments TimedOut {A}.
Arguments SendFailed {A} e.
Arguments Received {A} a.

(** ** outbound/session.rs *)

Section Session.
Context `{SmtpProto}.

Definition build_mail_from (m : Message) (c : Capabilities) : bytes :=
  let has flag := flag_set (m_flags m) flag in
  str "MAIL FROM:<" ++ return_path m ++ str ">"
  ++ (if ext_size c then str " SIZE=" ++ uint_to_string (size m) else [])
  ++ (if has MAIL_REQUIRETLS && ext_require_tls c then str " REQUIRETLS" else [])
  ++ (if has MAIL_SMTPUTF8 && ext_smtp_utf8 c then str " SMTPUTF8" else [])
  ++ (if ext_dsn c then
        (if has MAIL_RET_FULL then str " RET=FULL"
         else if has MAIL_RET_HDRS then str " RET=HDRS" else [])
        ++ from_option (λ id, str " ENVID=" ++ id) [] (env_id m)
      else [])
  ++ [13; 10].

Definition build_rcpt_to (r : Recipient) (c : Capabilities) : bytes :=
  let has := rcpt_has_flag r in
  str "RCPT TO:<" ++ address r ++ str ">"
  ++ (if ext_dsn c then
        if has ((RCPT_NOTIFY_SUCCESS .| RCPT_NOTIFY_FAILURE) .| RCPT_NOTIFY_DELAY) then
          str " NOTIFY="
          ++ (if has RCPT_NOTIFY_SUCCESS then str "SUCCESS" else [])
          ++ (if has RCPT_NOTIFY_DELAY then
                (if has RCPT_NOTIFY_SUCCESS then str "," else []) ++ str "DELAY" else [])
          ++ (if has RCPT_NOTIFY_FAILURE then
                (if has RCPT_NOTIFY_SUCCESS || has RCPT_NOTIFY_DELAY then str "," else [])
                ++ str "FAILURE" else [])
        else if has RCPT_NOTIFY_NEVER then str " NOTIFY=NEVER" else []
      else [])
  ++ [13; 10].

(** The answers to one delivery: [da_rcpt] to the RCPT commands in turn. *)
Record DeliverAnswers := {
  da_helo : Reply Capabilities;
  da_auth : option SendError;
  da_mail : result SendError Response;
  da_rcpt : nat → result SendError Response;
  da_blob : option bytes;
  da_data_reply : Reply Response;
  da_sent : Reply Response;
  da_smtp_response : Reply Response;
  da_lmtp_responses : Reply (list Response);
}.

(** The counters of the RCPT loop and the recipients accepted, by position. *)
Record RcptState := {
  total_rcpt : nat;
  total_completed : nat;
  commands : nat;
  accepted : list (nat * Status (HostResponse bytes) (HostResponse ErrorDetails));
}.

Definition settled_status {T E} (s : Status T E) : bool := negb (is_live s).

(** The turn of one recipient: the counters and the recipient after it, or the
    error that ends the session. *)
Definition rcpt_turn (p : SessionParams) (c : Capabilities) (reply : nat → result SendError Response)
    (pos : nat) (r : Recipient) (s : RcptState) : result SendError (Recipient * RcptState) :=
  let s := {| total_rcpt := S (total_rcpt s); total_completed := total_completed s;
              commands := commands s; accepted := accepted s |} in
  if settled_status (r_status r) then
    Ok (r, {| total_rcpt := total_rcpt s; total_completed := S (total_completed s);
              commands := commands s; accepted := accepted s |})
  else
    let cmd := build_rcpt_to r c in
    match reply (commands s) with
    | Err e => Err e
    | Ok resp =>
        if positive_completion resp then
          Ok (r, {| total_rcpt := total_rcpt s; total_completed := total_completed s;
                    commands := S (commands s);
                    accepted := accepted s
                      ++ [(pos, Completed {| hostname := p_hostname p; response := resp |})] |})
        else
          let hr := {| hostname := {| entity := p_hostname p; details := trim cmd |};
                       response := resp |} in
          Ok (change_status (if permanent_negative resp then PermanentFailure hr else TemporaryFailure hr) r,
              {| total_rcpt := total_rcpt s;
                 total_completed := if permanent_negative resp then S (total_completed s)
                                    else total_completed s;
                 commands := S (commands s); accepted := accepted s |})
    end.

(** The loop over the recipients of domain [idx]; an error leaves those that had
    their turn changed. *)
Fixpoint rcpt_loop (p : SessionParams) (c : Capabilities) (reply : nat → result SendError Response)
    (idx pos : nat) (rs : list Recipient) (s : RcptState)
    : list Recipient * result SendError RcptState :=
  match rs with
  | [] => ([], Ok s)
  | r :: rs =>
      if (domain_idx r =? idx)%nat then
        match rcpt_turn p c reply pos r s with
        | Err e => (r :: rs, Err e)
        | Ok (r, s) =>
            let '(rs, res) := rcpt_loop p c reply idx (S pos) rs s in (r :: rs, res)
        end
      else
        let '(rs, res) := rcpt_loop p c reply idx (S pos) rs s in (r :: rs, res)
  end.

(** [for (rcpt, status) in accepted_rcpts] after a 250 *)
Definition mark_delivered (rs : list Recipient) (s : RcptState) : list Recipient * RcptState :=
  (foldl (λ rs '(pos, status), alter (change_status status) pos rs) rs (accepted s),
   {| total_rcpt := total_rcpt s; total_completed := total_completed s + length (accepted s);
      commands := commands s; accepted := accepted s |}).

(** One of the LMTP responses. *)
Definition lmtp_status (p : SessionParams) (bdat_cmd : option bytes) (resp : Response)
    : Status (HostResponse bytes) (HostResponse ErrorDetails) :=
  if positive_completion resp then Completed {| hostname := p_hostname p; response := resp |}
  else
    let hr := {| hostname := {| entity := p_hostname p; details := data_command bdat_cmd |};
                 response := resp |} in
    if permanent_negative resp then PermanentFailure hr else TemporaryFailure hr.

Definition mark_lmtp (p : SessionParams) (bdat_cmd : option bytes) (responses : list Response)
    (rs : list Recipient) (s : RcptState) : list Recipient * RcptState :=
  foldl (λ '(rs, s) '((pos, _), resp),
    let status := lmtp_status p bdat_cmd resp in
    (alter (change_status status) pos rs,
     {| total_rcpt := total_rcpt s;
        total_completed := if settled_status status then S (total_completed s) else total_completed s;
        commands := commands s; accepted := accepted s |}))
    (rs, s) (zip (accepted s) responses).

Definition rcpt_state0 : RcptState :=
  {| total_rcpt := 0; total_completed := 0; commands := 0; accepted := [] |}.

Definition final_status (s : RcptState) : Status () Error :=
  if (total_completed s =? total_rcpt s)%nat then Completed () else Scheduled.

(** Sending the message to the recipients that were accepted. *)
Definition send_accepted (m : Message) (p : SessionParams) (c : Capabilities) (a : DeliverAnswers)
    (rs : list Recipient) (s : RcptState) : Status () Error * list Recipient :=
  if bool_decide (accepted s = []) then (final_status s, rs)
  else
    let bdat_cmd :=
      if ext_chunking c then Some (str "BDAT " ++ uint_to_string (size m) ++ str " LAST" ++ [13; 10])
      else None in
    match send_message p (da_blob a) bdat_cmd (da_data_reply a) (da_sent a) with
    | Err status => (status, rs)
    | Ok _ =>
        if is_smtp p then
          match read_smtp_data_response (p_hostname p) bdat_cmd (da_smtp_response a) with
          | Err status => (status, rs)
          | Ok resp =>
              if code resp =? 250 then
                let '(rs, s) := mark_delivered rs s in (final_status s, rs)
              else (from_smtp_error (p_hostname p) (data_command bdat_cmd) (SeUnexpectedReply resp), rs)
          end
        else
          match read_lmtp_data_response (p_hostname p) (da_lmtp_responses a) with
          | Err status => (status, rs)
          | Ok responses =>
              let '(rs, s) := mark_lmtp p bdat_cmd responses rs s in (final_status s, rs)
          end
    end.

(** [Message::deliver] for the recipients of domain [idx]: the status of the
    domain and the recipients. *)
Definition deliver (m : Message) (idx : nat) (p : SessionParams) (a : DeliverAnswers)
    (rs : list Recipient) : Status () Error * list Recipient :=
  match say_helo p (da_helo a) with
  | Err status => (status, rs)
  | Ok c =>
      match (if has_credentials p then da_auth a else None) with
      | Some err => (from_smtp_error (p_hostname p) (str "AUTH ...") err, rs)
      | None =>
          let cmd := build_mail_from m c in
          match (match da_mail a with
                 | Ok r => if positive_completion r then Ok r else Err (SeUnexpectedReply r)
                 | Err e => Err e
                 end) with
          | Err err => (from_smtp_error (p_hostname p) cmd err, rs)
          | Ok _ =>
              match rcpt_loop p c (da_rcpt a) idx 0 rs rcpt_state0 with
              | (rs, Err err) => (from_smtp_error (p_hostname p) [] err, rs)
              | (rs, Ok s) => send_accepted m p c a rs s
              end
          end
      end
  end.
End Session.

(** ** outbound/local.rs *)

Inductive DeliveryResult :=
| DrSuccess
| DrTemporaryFailure (reason : bytes)
| DrPermanentFailure (rcode : Z * Z * Z) (reason : bytes).

Definition local_status (r : Recipient) (result : DeliveryResult)
    : Status (HostResponse bytes) (HostResponse ErrorDetails) :=
  let host := {| entity := str "localhost"; details := str "RCPT TO:<" ++ address r ++ str ">" |} in
  match result with
  | DrSuccess =>
      Completed {| hostname := str "localhost";
                   response := {| code := 250; esc := (2, 1, 5); message := str "OK" |} |}
  | DrTemporaryFailure reason =>
      TemporaryFailure {| hostname := host;
                          response := {| code := 451; esc := (4, 3, 0); message := reason |} |}
  | DrPermanentFailure rcode reason =>
      PermanentFailure {| hostname := host;
                          response := {| code := 550; esc := rcode; message := reason |} |}
  end.

(** The positions of the recipients of domain [idx], and those still pending. *)
Definition domain_rcpts (idx : nat) (rs : list Recipient) : list (nat * Recipient) :=
  filter (λ x, domain_idx x.2 = idx) (imap (λ i r, (i, r)) rs).
Definition pending_rcpts (idx : nat) (rs : list Recipient) : list (nat * Recipient) :=
  filter (λ x, is_live (r_status x.2)) (domain_rcpts idx rs).

(** [results] is what the mailbox server answered; [None]: its channel is closed. *)
Definition deliver_local (idx : nat) (results : option (list DeliveryResult)) (rs : list Recipient)
    : Status () Error * list Recipient :=
  match results with
  | None => (local_error, rs)
  | Some results =>
      let total := length (domain_rcpts idx rs) in
      let pending := pending_rcpts idx rs in
      let '(rs, completed) := foldl (λ '(rs, completed) '((pos, r), result),
        let status := local_status r result in
        (alter (change_status status) pos rs,
         if settled_status status then S completed else completed))
        (rs, (total - length pending)%nat) (zip pending results) in
      (if (completed =? total)%nat then Completed () else Scheduled, rs)
  end.

(** ** queue/throttle.rs and the retries of outbound/delivery.rs *)

Inductive ThrottleError :=
| Concurrency (limiter : nat)
| Rate (retry_at : Z).

Definition set_domain (s : Status () Error) (r n : Schedule) (d : Domain) : Domain :=
  {| domain := domain d; retry := r; notify := n; expires := expires d; d_status := s |}.

Definition set_throttle_error (err : ThrottleError) (d : Domain) (on_hold : list nat)
    : Domain * list nat :=
  match err with
  | Concurrency limiter =>
      (set_domain (TemporaryFailure ConcurrencyLimited) (retry d) (notify d) d, on_hold ++ [limiter])
  | Rate retry_at =>
      (set_domain (TemporaryFailure RateLimited) {| due := retry_at; inner := inner (retry d) |}
         (notify d) d, on_hold)
  end.

(** [Domain::retry]; an empty schedule is out of range. *)
Definition domain_retry (now : Z) (schedule : list Z) (d : Domain) : option Domain :=
  secs ← schedule !! Nat.min (Z.to_nat (inner (retry d))) (length schedule - 1);
  Some (set_domain (d_status d)
          {| due := wrap 64 (now + secs); inner := wrap 32 (inner (retry d) + 1) |} (notify d) d).

Definition set_status (now : Z) (schedule : list Z) (s : Status () Error) (d : Domain) : option Domain :=
  let d := set_domain s (retry d) (notify d) d in
  if is_live s then domain_retry now schedule d else Some d.

(** [has_pending_delivery]: the domains whose time is over fail, with those of
    their recipients that have a temporary failure. *)
Definition expire_rcpts (idx : nat) (rs : list Recipient) : list Recipient :=
  (λ r, if (domain_idx r =? idx)%nat then set_rcpt (into_permanent (r_status r)) (r_flags r) r else r) <$> rs.

Fixpoint expire_domains (now : Z) (idx : nat) (ds : list Domain) (rs : list Recipient)
    : list Domain * list Recipient * bool :=
  match ds with
  | [] => ([], rs, false)
  | d :: ds =>
      let '(d, rs, pending) :=
        match d_status d with
        | TemporaryFailure e =>
            if expires d <=? now then
              (set_domain (PermanentFailure e) (retry d) (notify d) d, expire_rcpts idx rs, false)
            else (d, rs, true)
        | Scheduled =>
            if expires d <=? now then
              (set_domain (PermanentFailure (Io (str "Queue rate limit exceeded."))) (retry d) (notify d) d,
               expire_rcpts idx rs, false)
            else (d, rs, true)
        | _ => (d, rs, false)
        end in
      let '(ds, rs, rest) := expire_domains now (S idx) ds rs in
      (d :: ds, rs, pending || rest)
  end.

Definition has_pending_delivery (now : Z) (m : Message) : bool * Message :=
  let '(ds, rs, pending) := expire_domains now 0 (domains m) (recipients m) in
  (pending, with_recipients rs (with_domains ds m)).

(** ** queue/dsn.rs *)

(** The recipients that a notification lists, by position. *)
Record Dsn := {
  dsn_success : list nat;
  dsn_delay : list nat;
  dsn_failed : list nat;
}.

Inductive Report := NoReport | ReportSuccess | ReportDelay | ReportFailed.

#[export] Instance Report_eq_dec : EqDecision Report.
Proof. solve_decision. Defined.

Section Dsn.
Context `{SmtpProto}.

(** What [build_dsn] does with one recipient. *)
Definition rcpt_report (now : Z) (d : Domain) (r : Recipient) : Report * Recipient :=
  let sent := set_rcpt (r_status r) (r_flags r .| (RCPT_DSN_SENT .| RCPT_STATUS_CHANGED)) r in
  let final (flag : Z) (report : Report) := (if rcpt_has_flag sent flag then report else NoReport, sent) in
  let delay := if (due (notify d) <=? now) && rcpt_has_flag r RCPT_NOTIFY_DELAY
               then (ReportDelay, r) else (NoReport, r) in
  if rcpt_has_flag r (RCPT_DSN_SENT .| RCPT_NOTIFY_NEVER) then (NoReport, r)
  else
    match r_status r with
    | Completed _ => final RCPT_NOTIFY_SUCCESS ReportSuccess
    | TemporaryFailure _ => delay
    | PermanentFailure _ => final RCPT_NOTIFY_FAILURE ReportFailed
    | Scheduled =>
        match d_status d with
        | PermanentFailure _ => final RCPT_NOTIFY_FAILURE ReportFailed
        | TemporaryFailure _ | Scheduled => delay
        | Completed _ => (NoReport, r)
        end
    end.

Definition add_report (report : Report) (pos : nat) (dsn : Dsn) : Dsn :=
  match report with
  | NoReport => dsn
  | ReportSuccess => {| dsn_success := pos :: dsn_success dsn; dsn_delay := dsn_delay dsn; dsn_failed := dsn_failed dsn |}
  | ReportDelay => {| dsn_success := dsn_success dsn; dsn_delay := pos :: dsn_delay dsn; dsn_failed := dsn_failed dsn |}
  | ReportFailed => {| dsn_success := dsn_success dsn; dsn_delay := dsn_delay dsn; dsn_failed := pos :: dsn_failed dsn |}
  end.

Definition dsn_empty : Dsn := {| dsn_success := []; dsn_delay := []; dsn_failed := [] |}.

Fixpoint report_loop (now : Z) (ds : list Domain) (pos : nat) (rs : list Recipient)
    : option (Dsn * list Recipient) :=
  match rs with
  | [] => Some (dsn_empty, [])
  | r :: rs =>
      (** The domain is looked up after the flags. *)
      '(report, r) ←
        (if rcpt_has_flag r (RCPT_DSN_SENT .| RCPT_NOTIFY_NEVER) then Some (NoReport, r)
         else d ← ds !! domain_idx r; Some (rcpt_report now d r));
      '(dsn, rs) ← report_loop now ds (S pos) rs;
      Some (add_report report pos dsn, r :: rs)
  end.

(** The next delay notification of a domain: [intervals] is what the
    configuration evaluates to. *)
Definition next_notify (now : Z) (intervals : option (list Z)) (d : Domain) : Domain :=
  if is_live (d_status d) && (due (notify d) <=? now) then
    match (l ← intervals; l !! Z.to_nat (inner (notify d) + 1)) with
    | Some secs =>
        set_domain (d_status d) (retry d)
          {| due := wrap 64 (now + secs); inner := wrap 32 (inner (notify d) + 1) |} d
    | None =>
        set_domain (d_status d) (retry d)
          {| due := wrap 64 (expires d + 10); inner := inner (notify d) |} d
    end
  else d.

(** [build_dsn]: whether there is something to say, and the message after it. *)
Definition build_dsn (now : Z) (intervals : nat → option (list Z)) (m : Message)
    : option (option Dsn * Message) :=
  '(dsn, rs) ← report_loop now (domains m) 0 (recipients m);
  let m := with_recipients rs m in
  if bool_decide (dsn_success dsn = [] ∧ dsn_delay dsn = [] ∧ dsn_failed dsn = []) then Some (None, m)
  else
    let m := if bool_decide (dsn_delay dsn = []) then m
             else with_domains (imap (λ i d, next_notify now (intervals i) d) (domains m)) m in
    Some (Some dsn, m).

Definition double_bounce_rcpt (ds : list Domain) (r : Recipient) : option Recipient :=
  let sent := set_rcpt (r_status r) (r_flags r .| RCPT_DSN_SENT) r in
  if rcpt_has_flag r (RCPT_DSN_SENT .| RCPT_NOTIFY_NEVER) then Some r
  else
    match r_status r with
    | PermanentFailure _ => Some sent
    | Scheduled =>
        d ← ds !! domain_idx r;
        Some (match d_status d with PermanentFailure _ => sent | _ => r end)
    | _ => Some r
    end.

Definition handle_double_bounce (now : Z) (m : Message) : option Message :=
  rs ← mapM (double_bounce_rcpt (domains m)) (recipients m);
  Some (with_recipients rs (with_domains
    ((λ d, if due (notify d) <=? now then
             set_domain (d_status d) (retry d) {| due := wrap 64 (expires d + 10); inner := inner (notify d) |} d
           else d) <$> domains m) m)).

(** [log_dsn] writes to the log; it looks every domain up. *)
Definition log_dsn (m : Message) : option () :=
  _ ← mapM (λ r, if rcpt_has_flag r RCPT_DSN_SENT then Some () else d ← domains m !! domain_idx r; Some ())
        (recipients m);
  Some ().
End Dsn.

(** ** outbound/delivery.rs *)

(** What sending notifications meets: the clock, the notification intervals, the
    id of the new message, what its expiry evaluates to, its signature and text. *)
Record DsnAnswers := {
  dn_now : Z;
  dn_intervals : nat → option (list Z);
  dn_generated : option Z;
  dn_expire : option Z;
  dn_signature : option bytes;
  dn_text : Dsn → Message → bytes;
  dn_queue : QueueAnswers;
}.

(** How a host is tried, address by address. *)
Inductive IpAttempt :=
| IpThrottled (err : ThrottleError)
| IpConnectError (host : bytes) (err : SendError)
| IpNextHost (permanent : bool) (err : Error)
| IpDeliver (p : SessionParams) (a : DeliverAnswers).

Inductive HostAttempt :=
| HostFailed (permanent : bool) (err : Error)
| HostIps (ips : list IpAttempt).

(** How a domain is tried: throttled, delivered locally, given up before a host is
    known (the MTA-STS policy, the MX records), or host by host. *)
Inductive DomainAttempt :=
| AtThrottled (err : ThrottleError)
| AtLocal (results : option (list DeliveryResult))
| AtFailed (permanent : bool) (err : Error)
| AtHosts (hosts : list HostAttempt).

Record DomainAnswers := {
  dm_check : Z;
  dm_attempt : DomainAttempt;
  dm_schedule : list Z;
  dm_now : Z;
}.

Record TaskAnswers := {
  tk_pending_now : Z;
  tk_dsn1 : DsnAnswers;
  tk_due_now : Z;
  tk_check_now : Z;
  tk_sender_throttle : option ThrottleError;
  tk_domain : nat → DomainAnswers;
  tk_dsn2 : DsnAnswers;
  tk_next_now : Z;
  tk_engine : option EngineError;
  tk_channel : bool;
}.

Section Delivery.
Context `{KvStore DB} `{MessageCodec} `{SmtpProto}.
Context {R : Type} (gen_range : R → Z → Z * R) (xxh3_64 : bytes → Z) (seed : R).
Context (blob_hash_of : bytes → bytes).

#[local] Abbreviation queue := (queue gen_range xxh3_64 seed blob_hash_of).
#[local] Abbreviation save_changes := (save_changes gen_range xxh3_64 seed).
#[local] Abbreviation remove := (remove gen_range xxh3_64 seed).

(** The notification is queued as a message of its own, to the return path and
    with an empty return path; whether that works is not looked at. *)
Definition send_dsn (a : DsnAnswers) (m : Message) (sv : Server DB)
    : option (option Dsn * Message * Server DB) :=
  _ ← log_dsn m;
  if negb (bool_decide (return_path m = [])) then
    '(dsn, m) ← build_dsn (dn_now a) (dn_intervals a) m;
    match dsn with
    | None => Some (None, m, sv)
    | Some dsn =>
        let dsn_message := new_message (dn_now a) (dn_generated a) [] [] [] in
        let dsn_message := add_recipient_parts (dn_now a) (dn_expire a) (return_path m)
                             (return_path_lcase m) (return_path_domain m) dsn_message in
        let '(_, sv) := queue (dn_now a) (dn_queue a) (dn_signature a) (dn_text a dsn m) dsn_message sv in
        Some (Some dsn, m, sv)
    end
  else
    m ← handle_double_bounce (dn_now a) m;
    Some (None, m, sv).

(** What becomes of a domain: throttled, or the status of an attempt with the
    recipients as it left them. *)
Inductive DomainOutcome :=
| OutThrottled (err : ThrottleError)
| OutStatus (s : Status () Error) (rs : list Recipient).

Inductive HostOutcome :=
| HostNext (last_status : Status () Error)
| HostDone (o : DomainOutcome).

Fixpoint try_ips (m : Message) (idx : nat) (ips : list IpAttempt) (rs : list Recipient)
    (last_status : Status () Error) : HostOutcome :=
  match ips with
  | [] => HostNext last_status
  | IpThrottled err :: _ => HostDone (OutThrottled err)
  | IpConnectError host err :: ips => try_ips m idx ips rs (from_smtp_error host [] err)
  | IpNextHost permanent err :: _ => HostNext (failure permanent err)
  | IpDeliver p a :: _ =>
      let '(s, rs) := deliver m idx p a rs in HostDone (OutStatus s rs)
  end.

Fixpoint try_hosts (m : Message) (idx : nat) (hosts : list HostAttempt) (rs : list Recipient)
    (last_status : Status () Error) : DomainOutcome :=
  match hosts with
  | [] => OutStatus last_status rs
  | HostFailed permanent err :: hosts => try_hosts m idx hosts rs (failure permanent err)
  | HostIps ips :: hosts =>
      match try_ips m idx ips rs last_status with
      | HostNext last_status => try_hosts m idx hosts rs last_status
      | HostDone o => o
      end
  end.

Definition try_domain (m : Message) (idx : nat) (attempt : DomainAttempt) (rs : list Recipient)
    : DomainOutcome :=
  match attempt with
  | AtThrottled err => OutThrottled err
  | AtLocal results => let '(s, rs) := deliver_local idx results rs in OutStatus s rs
  | AtFailed permanent err => OutStatus (failure permanent err) rs
  | AtHosts hosts => try_hosts m idx hosts rs Scheduled
  end.

(** [matches!(status, Scheduled | TemporaryFailure(_) if retry.due <= now())] *)
Definition is_due (now : Z) (d : Domain) : bool := is_live (d_status d) && (due (retry d) <=? now).

(** ['next_domain]: the domains, the recipients and the limiters that hold. *)
Fixpoint domain_loop (m : Message) (answers : nat → DomainAnswers) (idx : nat) (ds : list Domain)
    (rs : list Recipient) (on_hold : list nat) : option (list Domain * list Recipient * list nat) :=
  match ds with
  | [] => Some ([], rs, on_hold)
  | d :: ds =>
      let a := answers idx in
      '(d, rs, on_hold) ←
        (if is_due (dm_check a) d then
           match try_domain m idx (dm_attempt a) rs with
           | OutThrottled err => let '(d, on_hold) := set_throttle_error err d on_hold in Some (d, rs, on_hold)
           | OutStatus s rs => d ← set_status (dm_now a) (dm_schedule a) s d; Some (d, rs, on_hold)
           end
         else Some (d, rs, on_hold));
      '(ds, rs, on_hold) ← domain_loop m answers (S idx) ds rs on_hold;
      Some (d :: ds, rs, on_hold)
  end.

(** What a task leaves: the message as it was saved or removed, the notifications
    it sent, and the server. *)
Record TaskResult := {
  tr_message : Message;
  tr_removed : bool;
  tr_dsns : list Dsn;
  tr_server : Server DB;
}.

Definition notify_manager (a : TaskAnswers) (e : ManagerEvent) (sv : Server DB) : Server DB :=
  if tk_channel a then send e sv else sv.

Definition finish (m : Message) (removed : bool) (dsns : list (option Dsn)) (sv : Server DB) : TaskResult :=
  {| tr_message := m; tr_removed := removed; tr_dsns := omap id dsns; tr_server := sv |}.

(** The end of a task, after its attempts and notifications. *)
Definition conclude (a : TaskAnswers) (event : QueueEventLock) (m : Message) (on_hold : list nat)
    (dsns : list (option Dsn)) (sv : Server DB) : TaskResult :=
  if negb (bool_decide (on_hold = [])) then
    let next_due := next_event_after (tk_next_now a) m in
    let '(_, sv) := save_changes (tk_engine a) None None m sv in
    finish m false dsns
      (notify_manager a (EventOnHold {| next_due := next_due; limiters := on_hold; held := event |}) sv)
  else
    match next_event (tk_next_now a) m with
    | Some due =>
        let '(_, sv) := save_changes (tk_engine a) (Some (ev_due event)) (Some due) m sv in
        finish m false dsns (notify_manager a Reload sv)
    | None =>
        let '(_, sv) := remove (tk_engine a) (ev_due event) m sv in
        finish m true dsns (notify_manager a Reload sv)
    end.

(** The sender is throttled. *)
Definition throttled (a : TaskAnswers) (event : QueueEventLock) (err : ThrottleError) (m : Message)
    (dsns : list (option Dsn)) (sv : Server DB) : TaskResult :=
  match err with
  | Concurrency limiter =>
      let next_due := next_event_after (tk_next_now a) m in
      let '(_, sv) := save_changes (tk_engine a) None None m sv in
      finish m false dsns
        (notify_manager a (EventOnHold {| next_due := next_due; limiters := [limiter]; held := event |}) sv)
  | Rate retry_at =>
      let next := Z.min retry_at (default u64_max (next_event_after (tk_next_now a) m)) in
      let '(_, sv) := save_changes (tk_engine a) (Some (ev_due event)) (Some next) m sv in
      finish m false dsns (notify_manager a Reload sv)
  end.

Definition deliver_task (a : TaskAnswers) (event : QueueEventLock) (m : Message) (sv : Server DB)
    : option TaskResult :=
  let '(pending, m) := has_pending_delivery (tk_pending_now a) m in
  '(dsn1, m, sv) ← send_dsn (tk_dsn1 a) m sv;
  if pending then
    let due := next_delivery_event (tk_due_now a) m in
    if tk_check_now a <? due then
      let '(_, sv) := save_changes (tk_engine a) (Some (ev_due event)) (Some due) m sv in
      Some (finish m false [dsn1] (notify_manager a Reload sv))
    else
      match tk_sender_throttle a with
      | Some err => Some (throttled a event err m [dsn1] sv)
      | None =>
          '(ds, rs, on_hold) ← domain_loop (with_recipients [] m) (tk_domain a) 0 (domains m) (recipients m) [];
          let m := with_recipients rs (with_domains ds m) in
          '(dsn2, m, sv) ← send_dsn (tk_dsn2 a) m sv;
          Some (conclude a event m on_hold [dsn1; dsn2] sv)
      end
  else
    let '(_, sv) := remove (tk_engine a) (ev_due event) m sv in
    Some (finish m true [dsn1] (notify_manager a Reload sv)).

(** [try_deliver]: what a worker does with an event of the queue. *)
Definition try_deliver (now : Z) (lock clear_engine : option EngineError) (a : TaskAnswers)
    (event : QueueEventLock) (sv : Server DB) : option (option TaskResult * Server DB) :=
  let '(locked, db) := try_lock_event gen_range xxh3_64 seed now lock event (store sv) in
  let sv := on_store db sv in
  match locked with
  | None => Some (None, sv)
  | Some event =>
      match read_message (ev_queue_id event) (store sv) with
      | Some m => r ← deliver_task a event m sv; Some (Some r, tr_server r)
      | None =>
          let b := clear (Queue (message_event (ev_due event) (ev_queue_id event))) builder_new in
          Some (None, on_store (store_write gen_range xxh3_64 seed clear_engine b (store sv)).2 sv)
      end
  end.
End Delivery.

(** ** What a message is held to *)

Definition rcpts_ok (m : Message) : Prop :=
  Forall (λ r, (domain_idx r < length (domains m))%nat) (recipients m).

(** A domain that is completed has no recipient left to deliver to. *)
Definition done_ok (ds : list Domain) (rs : list Recipient) : Prop :=
  ∀ r d, r ∈ rs → ds !! domain_idx r = Some d → d_status d = Completed () → is_live (r_status r) = false.

(** How a recipient may change: what is settled stays, a notification is not
    forgotten, the envelope's flags and the domain are as before. *)
Record evolves (r r' : Recipient) : Prop := {
  ev_domain : domain_idx r' = domain_idx r;
  ev_address : address r' = address r;
  ev_width : fits 64 (r_flags r) → fits 64 (r_flags r');
  ev_settled : is_live (r_status r) = false → r_status r' = r_status r;
  ev_low f : fits 32 f → rcpt_has_flag r' f = rcpt_has_flag r f;
  ev_sent : rcpt_has_flag r RCPT_DSN_SENT = true → rcpt_has_flag r' RCPT_DSN_SENT = true;
}.

#[export] Instance evolves_preorder : PreOrder evolves.
Proof.
  split.
  - intros r. by split.
  - intros r1 r2 r3 [D1 A1 W1 S1 L1 F1] [D2 A2 W2 S2 L2 F2]. split.
    + by rewrite D2.
    + by rewrite A2.
    + auto.
    + intros Hl. rewrite S2; [by apply S1|]. by rewrite S1.
    + intros f Hf. by rewrite L2, L1.
    + auto.
Qed.

(** A recipient of another domain does not change at all, and no notification is
    recorded. *)
Definition evolves_in (idx : nat) (r r' : Recipient) : Prop :=
  evolves r r' ∧ (domain_idx r ≠ idx → r' = r) ∧
  rcpt_has_flag r' RCPT_DSN_SENT = rcpt_has_flag r RCPT_DSN_SENT.

#[export] Instance evolves_in_preorder idx : PreOrder (evolves_in idx).
Proof.
  split.
  - intros r. by split; [|split].
  - intros r1 r2 r3 (H1 & H2 & H3) (H4 & H5 & H6). split; [by etrans|]. split; [|congruence].
    intros Hne. rewrite H5; [by apply H2|]. by rewrite (ev_domain _ _ H1).
Qed.

(** *** Flags *)

Lemma flag_set_lor x a b : flag_set x (a .| b) = flag_set x a || flag_set x b.
Proof.
  unfold flag_set. rewrite Z.land_lor_distr_r.
  destruct (Z.eqb_spec (x .& a) 0) as [->|Ha], (Z.eqb_spec (x .& b) 0) as [->|Hb]; simpl; try done.
  - by rewrite Z.lor_0_l, (proj2 (Z.eqb_neq _ _) Hb).
  - by rewrite Z.lor_0_r, (proj2 (Z.eqb_neq _ _) Ha).
  - rewrite (proj2 (Z.eqb_neq _ _)); [done|]. by intros [? _]%Z.lor_eq_0_iff.
Qed.

Lemma flag_set_comm x a : flag_set x a = flag_set a x.
Proof. unfold flag_set. by rewrite Z.land_comm. Qed.

Lemma flag_set_lor_l x y a : flag_set (x .| y) a = flag_set x a || flag_set y a.
Proof. rewrite !(flag_set_comm _ a). apply flag_set_lor. Qed.

(** The two flags of the queue are above those of the envelope. *)
Lemma queue_flag_low k f : 32 ≤ k → fits 32 f → flag_set (2 ^ k) f = false.
Proof.
  intros Hk Hf. unfold flag_set. rewrite (proj2 (Z.eqb_eq _ _)); [done|].
  apply Z.bits_inj'. intros i Hi. rewrite Z.land_spec, Z.bits_0, Z.pow2_bits_eqb by lia.
  destruct (Z.eqb_spec k i) as [<-|]; [|done]. simpl.
  rewrite Z.testbit_eqb by lia. unfold fits in Hf. rewrite Z.div_small; [done|].
  split; [lia|]. eapply Z.lt_le_trans; [apply Hf|]. apply Z.pow_le_mono_r; lia.
Qed.

Lemma changed_low f : fits 32 f → flag_set RCPT_STATUS_CHANGED f = false.
Proof. apply (queue_flag_low 33). lia. Qed.
Lemma sent_low f : fits 32 f → flag_set RCPT_DSN_SENT f = false.
Proof. apply (queue_flag_low 32). lia. Qed.

Lemma change_status_evolves st r : is_live (r_status r) = true → evolves r (change_status st r).
Proof.
  intros Hl. split; cbn; [done|done|intros Hw; by apply fits_lor|by rewrite Hl| |].
  - intros f Hf. unfold rcpt_has_flag. cbn. by rewrite flag_set_lor_l, changed_low, orb_false_r.
  - unfold rcpt_has_flag. cbn. rewrite flag_set_lor_l. by intros ->.
Qed.

Lemma change_status_in idx st r :
  is_live (r_status r) = true → domain_idx r = idx → evolves_in idx r (change_status st r).
Proof.
  intros Hl Hd. split; [by apply change_status_evolves|]. split; [done|].
  unfold rcpt_has_flag. cbn. rewrite flag_set_lor_l. apply orb_false_r.
Qed.

(** *** Counting *)

Definition counted (idx : nat) (r : Recipient) : Prop := domain_idx r = idx ∧ is_live (r_status r) = false.
#[export] Instance counted_dec idx r : Decision (counted idx r).
Proof. unfold counted. apply _. Defined.

Definition rcpt_count (idx : nat) (rs : list Recipient) : nat := length (filter (λ r, domain_idx r = idx) rs).
Definition settled_count (idx : nat) (rs : list Recipient) : nat := length (filter (counted idx) rs).

(** When all are counted, all are settled. *)
Lemma all_settled idx rs :
  (rcpt_count idx rs ≤ settled_count idx rs)%nat →
  ∀ r, r ∈ rs → domain_idx r = idx → is_live (r_status r) = false.
Proof.
  unfold rcpt_count, settled_count. induction rs as [|r rs IH]; intros Hle r' Hr Hd; [by apply not_elem_of_nil in Hr|].
  assert (length (filter (counted idx) rs) ≤ length (filter (λ r, domain_idx r = idx) rs))%nat as Hbase.
  { clear. induction rs as [|r rs IH]; [done|]. rewrite !filter_cons.
    destruct (decide (counted idx r)) as [[Hd Hl]|]; [rewrite decide_True by done; simpl; lia|].
    destruct (decide _); simpl; lia. }
  rewrite !filter_cons in Hle. destruct (decide (domain_idx r = idx)) as [Hdr|Hdr].
  - destruct (decide (counted idx r)) as [[_ Hl]|Hn]; simpl in Hle; [|lia].
    apply elem_of_cons in Hr as [->|Hr]; [done|]. apply IH; [lia|done|done].
  - rewrite decide_False in Hle by (by intros [? _]).
    apply elem_of_cons in Hr as [->|Hr]; [done|]. by apply IH.
Qed.

Lemma settled_alter idx pos st rs r :
  rs !! pos = Some r → domain_idx r = idx → is_live (r_status r) = true →
  settled_count idx (alter (change_status st) pos rs)
  = (settled_count idx rs + if settled_status st then 1 else 0)%nat.
Proof.
  unfold settled_count. revert pos. induction rs as [|r0 rs IH]; intros [|pos] Hr Hd Hl; try done.
  - injection Hr as ->. cbn [alter list_alter]. rewrite !filter_cons.
    rewrite (decide_False (P := counted idx r)) by (intros [_ ?]; congruence).
    unfold settled_status. destruct (decide (counted idx (change_status st r))) as [[_ Hst]|Hn].
    + cbn in Hst. rewrite Hst. simpl. lia.
    + destruct (is_live st) eqn:Hst; simpl; [lia|]. by destruct Hn.
  - cbn [lookup list_lookup] in Hr. cbn [alter list_alter]. rewrite !filter_cons.
    change (list_alter _ pos rs) with (alter (change_status st) pos rs).
    destruct (decide (counted idx r0)); simpl; rewrite (IH pos) by done; done.
Qed.

(** *** Marking recipients *)

(** The loops that give statuses to recipients, by position. *)
Definition mark_all (marks : list (nat * Status (HostResponse bytes) (HostResponse ErrorDetails)))
    (rs : list Recipient) (n : nat) : list Recipient * nat :=
  foldl (λ '(rs, n) '(pos, st),
    (alter (change_status st) pos rs, if settled_status st then S n else n)) (rs, n) marks.

(** The positions are those of different live recipients of the domain. *)
Definition marks_ok (idx : nat) (poss : list nat) (rs : list Recipient) : Prop :=
  NoDup poss ∧
  Forall (λ pos, ∃ r, rs !! pos = Some r ∧ domain_idx r = idx ∧ is_live (r_status r) = true) poss.

Lemma Forall2_alter {A} (P : A → A → Prop) `{!Reflexive P} (f : A → A) i l :
  (∀ x, l !! i = Some x → P x (f x)) → Forall2 P l (alter f i l).
Proof.
  intros Hf. apply Forall2_same_length_lookup. split; [by rewrite length_alter|].
  intros j x y Hx Hy. destruct (decide (i = j)) as [<-|Hne].
  - rewrite list_lookup_alter_eq, Hx in Hy. injection Hy as <-. by apply Hf.
  - rewrite list_lookup_alter_ne, Hx in Hy by done. by injection Hy as <-.
Qed.

Lemma mark_all_spec idx marks rs n :
  marks_ok idx marks.*1 rs →
  Forall2 (evolves_in idx) rs (mark_all marks rs n).1 ∧
  (settled_count idx (mark_all marks rs n).1 + n = settled_count idx rs + (mark_all marks rs n).2)%nat.
Proof.
  revert rs n. induction marks as [|[pos st] marks IH]; intros rs n [Hnd Hall].
  { split; [reflexivity|done]. }
  cbn [mark_all foldl fmap list_fmap fst] in *.
  apply NoDup_cons in Hnd as [Hnin Hnd]. apply Forall_cons in Hall as [(r & Hr & Hd & Hl) Hall].
  set (rs1 := alter (change_status st) pos rs). set (n1 := if settled_status st then S n else n).
  assert (marks_ok idx marks.*1 rs1) as Hok1.
  { split; [done|]. rewrite Forall_forall in *. intros pos' Hpos'. destruct (Hall pos' Hpos') as (r' & Hr' & ? & ?).
    exists r'. split; [|done]. unfold rs1. rewrite list_lookup_alter_ne; [done|]. by intros ->. }
  destruct (IH rs1 n1 Hok1) as [Hf Hc]. fold (mark_all marks rs1 n1). split.
  - etrans; [|exact Hf]. apply Forall2_alter; [apply _|]. intros x. rewrite Hr. intros [= <-].
    by apply change_status_in.
  - pose proof (settled_alter idx pos st rs r Hr Hd Hl) as H1. fold rs1 in H1.
    assert (n1 = n + if settled_status st then 1 else 0)%nat by (unfold n1; destruct (settled_status st); lia).
    lia.
Qed.

Lemma rcpt_count_evolves idx rs rs' : Forall2 evolves rs rs' → rcpt_count idx rs' = rcpt_count idx rs.
Proof.
  unfold rcpt_count. induction 1 as [|r r' rs rs' Hr Hrs IH]; [done|].
  rewrite !filter_cons, (ev_domain _ _ Hr). destruct (decide _); simpl; lia.
Qed.

Lemma evolves_in_evolves idx rs rs' : Forall2 (evolves_in idx) rs rs' → Forall2 evolves rs rs'.
Proof. intros Hf. eapply Forall2_impl; [exact Hf|]. by intros ? ? [? _]. Qed.

Lemma mark_count marks rs n :
  (mark_all marks rs n).2 = (n + length (filter (λ x, settled_status x.2 = true) marks))%nat.
Proof.
  revert rs n. induction marks as [|[pos st] marks IH]; intros rs n; [simpl; lia|].
  cbn [mark_all foldl]. fold (mark_all marks (alter (change_status st) pos rs) (if settled_status st then S n else n)).
  rewrite IH, filter_cons. cbn [snd]. destruct (settled_status st); [rewrite decide_True by done|rewrite decide_False by done];
    simpl; lia.
Qed.

Section SessionFacts.
Context `{SmtpProto}.

(** The positions that the RCPT loop accepts, from [pos] on, in the list it leaves. *)
Definition accepts (idx pos : nat) (rs : list Recipient)
    (acc : list (nat * Status (HostResponse bytes) (HostResponse ErrorDetails))) : Prop :=
  NoDup acc.*1 ∧
  Forall (λ x, settled_status x.2 = true ∧ ∃ i r, x.1 = (pos + i)%nat ∧ rs !! i = Some r ∧
                 domain_idx r = idx ∧ is_live (r_status r) = true) acc.

Lemma accepts_nil idx pos rs : accepts idx pos rs [].
Proof. split; constructor. Qed.

Lemma accepts_shift idx pos r rs acc : accepts idx (S pos) rs acc → accepts idx pos (r :: rs) acc.
Proof.
  intros [Hnd Hall]. split; [done|]. eapply Forall_impl; [exact Hall|]. cbn.
  intros x (Hs & i & r' & -> & Hr & Hd & Hl). split; [done|]. exists (S i), r'. split; [lia|done].
Qed.

Lemma accepts_cons idx pos r rs st acc :
  domain_idx r = idx → is_live (r_status r) = true → settled_status st = true →
  accepts idx (S pos) rs acc → accepts idx pos (r :: rs) ((pos, st) :: acc).
Proof.
  intros Hd Hl Hs Hacc. split.
  - destruct Hacc as [Hnd Hall]. apply NoDup_cons. split; [|done].
    intros ((pos', st') & Hpos & Hin)%list_elem_of_fmap. cbn in Hpos.
    rewrite Forall_forall in Hall. destruct (Hall _ Hin) as (_ & i & _ & Hi & _). cbn in Hi. lia.
  - constructor.
    + split; [done|]. exists 0%nat, r. split; [cbn; lia|done].
    + by apply accepts_shift.
Qed.

Lemma rcpt_turn_spec p c reply pos r s r' s' :
  rcpt_turn p c reply pos r s = Ok (r', s') →
  evolves_in (domain_idx r) r r' ∧
  total_rcpt s' = S (total_rcpt s) ∧
  total_completed s' = (total_completed s + if is_live (r_status r') then 0 else 1)%nat ∧
  (accepted s' = accepted s ∨
   ∃ st, accepted s' = accepted s ++ [(pos, st)] ∧ settled_status st = true ∧ is_live (r_status r') = true).
Proof.
  unfold rcpt_turn. destruct (settled_status (r_status r)) eqn:Hs.
  { intros [= <- <-]. unfold settled_status in Hs. apply negb_true_iff in Hs. rewrite Hs.
    split_and!; [reflexivity|done|cbn; lia|by left]. }
  unfold settled_status in Hs. apply negb_false_iff in Hs.
  destruct (reply _) as [resp|]; [|done]. destruct (positive_completion resp).
  - intros [= <- <-]. rewrite Hs. split_and!; [reflexivity|done|cbn; lia|]. right. eexists. done.
  - intros [= <- <-]. cbn [change_status set_rcpt r_status total_completed total_rcpt accepted].
    split_and!; [by apply change_status_in|done| |by left].
    destruct (permanent_negative resp); cbn; lia.
Qed.

Lemma settled_count_cons idx r rs :
  settled_count idx (r :: rs)
  = ((if (domain_idx r =? idx)%nat then if is_live (r_status r) then 0 else 1 else 0)
     + settled_count idx rs)%nat.
Proof.
  unfold settled_count. rewrite filter_cons. destruct (Nat.eqb_spec (domain_idx r) idx) as [Hd|Hd].
  - destruct (decide (counted idx r)) as [[_ ->]|Hn]; [done|].
    destruct (is_live (r_status r)) eqn:Hl; [done|]. by destruct Hn.
  - rewrite decide_False by (by intros [? _]). done.
Qed.

Lemma rcpt_count_cons idx r rs :
  rcpt_count idx (r :: rs) = ((if (domain_idx r =? idx)%nat then 1 else 0) + rcpt_count idx rs)%nat.
Proof.
  unfold rcpt_count. rewrite filter_cons.
  destruct (Nat.eqb_spec (domain_idx r) idx); [by rewrite decide_True|by rewrite decide_False].
Qed.

Lemma rcpt_loop_spec p c reply idx pos rs s rs' res :
  rcpt_loop p c reply idx pos rs s = (rs', res) →
  Forall2 (evolves_in idx) rs rs' ∧
  ∀ s', res = Ok s' →
    total_rcpt s' = (total_rcpt s + rcpt_count idx rs)%nat ∧
    total_completed s' = (total_completed s + settled_count idx rs')%nat ∧
    ∃ acc, accepted s' = accepted s ++ acc ∧ accepts idx pos rs' acc.
Proof.
  revert pos s rs' res. induction rs as [|r rs IH]; intros pos s rs' res; cbn [rcpt_loop].
  { intros [= <- <-]. split; [constructor|]. intros s' [= <-]. cbn. split_and!; [lia|lia|].
    exists []. rewrite app_nil_r. split; [done|apply accepts_nil]. }
  destruct (Nat.eqb_spec (domain_idx r) idx) as [Hd|Hd].
  - destruct (rcpt_turn p c reply pos r s) as [[r1 s1]|e] eqn:Hturn.
    2: { intros [= <- <-]. split; [reflexivity|done]. }
    destruct (rcpt_loop p c reply idx (S pos) rs s1) as [rs1 res1] eqn:Hloop. intros [= <- <-].
    apply rcpt_turn_spec in Hturn as (Hev & Htot & Hcomp & Hacc1). rewrite Hd in Hev.
    apply IH in Hloop as [Hf Hok]. split; [by constructor|]. intros s' Hs'.
    destruct (Hok s' Hs') as (Htot' & Hcomp' & acc & Hacc & Haccs).
    pose proof (ev_domain _ _ (proj1 Hev)) as Hd1.
    rewrite settled_count_cons, rcpt_count_cons, Hd1, Hd, Nat.eqb_refl. split_and!; [lia|lia|].
    destruct Hacc1 as [Heq|(st & Heq & Hst & Hl)]; rewrite Heq in Hacc.
    + exists acc. split; [done|]. by apply accepts_shift.
    + exists ((pos, st) :: acc). rewrite Hacc, <- app_assoc. split; [done|]. apply accepts_cons; congruence.
  - destruct (rcpt_loop p c reply idx (S pos) rs s) as [rs1 res1] eqn:Hloop. intros [= <- <-].
    apply IH in Hloop as [Hf Hok]. split; [constructor; [reflexivity|done]|]. intros s' Hs'.
    destruct (Hok s' Hs') as (Htot' & Hcomp' & acc & Hacc & Haccs).
    rewrite settled_count_cons, rcpt_count_cons, (proj2 (Nat.eqb_neq _ _) Hd). split_and!; [lia|lia|].
    exists acc. split; [done|]. by apply accepts_shift.
Qed.

(** *** Domains *)

Lemma failure_not_completed b e : failure b e ≠ Completed ().
Proof. by destruct b. Qed.

Lemma from_smtp_error_not_completed host cmd e : from_smtp_error host cmd e ≠ Completed ().
Proof. destruct e; try done. apply failure_not_completed. Qed.

Lemma reply_or_not_completed {A} host stage cmd (r : Reply A) s :
  reply_or host stage cmd r = Err s → s ≠ Completed ().
Proof. destruct r; [by intros [= <-]| |done]. intros [= <-]. apply from_smtp_error_not_completed. Qed.

Lemma send_message_not_completed p blob bdat r1 r2 s :
  send_message p blob bdat r1 r2 = Err s → s ≠ Completed ().
Proof.
  destruct blob as [b|]; cbn [send_message]; [|by intros [= <-]].
  destruct bdat as [cmd|]; cbn [mbind result_bind].
  - destruct (reply_or _ _ _ r2) eqn:H2; [done|]. intros [= <-]. by eapply reply_or_not_completed.
  - destruct (reply_or _ _ _ (assert_code 354 r1)) eqn:H1; cbn [mbind result_bind].
    + destruct (reply_or _ _ _ r2) eqn:H2; [done|]. intros [= <-]. by eapply reply_or_not_completed.
    + intros [= <-]. by eapply reply_or_not_completed.
Qed.

(** What an attempt at a domain promises: the recipients evolve, those of other
    domains do not, and a domain is completed when none of its recipients is left. *)
Definition tried_ok (idx : nat) (rs : list Recipient) (o : Status () Error * list Recipient) : Prop :=
  Forall2 (evolves_in idx) rs o.2 ∧
  (o.1 = Completed () → ∀ r, r ∈ o.2 → domain_idx r = idx → is_live (r_status r) = false).

Lemma tried_failed idx rs rs' s :
  s ≠ Completed () → Forall2 (evolves_in idx) rs rs' → tried_ok idx rs (s, rs').
Proof. intros Hs Hf. by split. Qed.

Lemma tried_counted idx rs rs' (completed total : nat) :
  Forall2 (evolves_in idx) rs rs' → total = rcpt_count idx rs → completed = settled_count idx rs' →
  tried_ok idx rs (if (completed =? total)%nat then Completed () else Scheduled, rs').
Proof.
  intros Hf -> ->. split; [done|]. cbn [fst snd]. destruct (Nat.eqb_spec (settled_count idx rs') (rcpt_count idx rs)) as [He|];
    [|done].
  intros _. apply all_settled. rewrite (rcpt_count_evolves idx rs rs'); [lia|]. by eapply evolves_in_evolves.
Qed.

Lemma accepts_marks idx rs acc : accepts idx 0 rs acc → marks_ok idx acc.*1 rs.
Proof.
  intros [Hnd Hall]. split; [done|]. apply Forall_fmap. eapply Forall_impl; [exact Hall|]. cbn.
  intros x (_ & i & r & -> & ?). by exists r.
Qed.

Lemma mark_delivered_all rs s :
  Forall (λ x, settled_status x.2 = true) (accepted s) →
  mark_delivered rs s
  = ((mark_all (accepted s) rs (total_completed s)).1,
     {| total_rcpt := total_rcpt s; total_completed := (mark_all (accepted s) rs (total_completed s)).2;
        commands := commands s; accepted := accepted s |}).
Proof.
  intros Hs. unfold mark_delivered. rewrite mark_count, filter_all by done. f_equal.
  generalize (total_completed s). revert rs. induction (accepted s) as [|[pos st] l IH]; intros rs n; [done|].
  apply Forall_cons in Hs as [_ Hs]. cbn [foldl mark_all]. by apply IH.
Qed.

Lemma mark_lmtp_all p bdat responses rs s :
  let marks := zip_with (λ x resp, (x.1, lmtp_status p bdat resp)) (accepted s) responses in
  mark_lmtp p bdat responses rs s
  = ((mark_all marks rs (total_completed s)).1,
     {| total_rcpt := total_rcpt s; total_completed := (mark_all marks rs (total_completed s)).2;
        commands := commands s; accepted := accepted s |}).
Proof.
  assert (∀ (l : list (nat * Status (HostResponse bytes) (HostResponse ErrorDetails))) responses rs tc,
    foldl (λ '(rs, s) '((pos, _), resp),
      let status := lmtp_status p bdat resp in
      (alter (change_status status) pos rs,
       {| total_rcpt := total_rcpt s;
          total_completed := if settled_status status then S (total_completed s) else total_completed s;
          commands := commands s; accepted := accepted s |}))
      (rs, {| total_rcpt := total_rcpt s; total_completed := tc; commands := commands s;
              accepted := accepted s |}) (zip l responses)
    = let marks := zip_with (λ x resp, (x.1, lmtp_status p bdat resp)) l responses in
      ((mark_all marks rs tc).1,
       {| total_rcpt := total_rcpt s; total_completed := (mark_all marks rs tc).2;
          commands := commands s; accepted := accepted s |})) as Hgen.
  { intros l. induction l as [|[pos st] l IH]; intros [|resp k] rs0 tc; try done.
    cbn [zip zip_with foldl mark_all fst]. apply IH. }
  unfold mark_lmtp. rewrite <- (Hgen (accepted s)). by destruct s.
Qed.

Lemma zip_marks {A B C} (f : A → B → C) (l : list (nat * A)) (k : list B) :
  (zip_with (λ x b, (x.1, f x.2 b)) l k).*1 = take (length k) l.*1.
Proof.
  revert k. induction l as [|[pos a] l IH]; intros [|b k]; try done. cbn. by rewrite IH.
Qed.

Lemma marks_ok_take idx n poss rs : marks_ok idx poss rs → marks_ok idx (take n poss) rs.
Proof.
  intros [Hnd Hall]. split.
  - eapply sublist_NoDup; [done|apply sublist_take].
  - by apply Forall_take.
Qed.

Lemma send_accepted_ok m p c a idx rs0 rs s :
  Forall2 (evolves_in idx) rs0 rs →
  total_rcpt s = rcpt_count idx rs0 → total_completed s = settled_count idx rs →
  accepts idx 0 rs (accepted s) →
  tried_ok idx rs0 (send_accepted m p c a rs s).
Proof.
  intros Hev Htot Hcomp Hacc. pose proof (accepts_marks idx rs _ Hacc) as Hmarks.
  unfold send_accepted, final_status. case_bool_decide; [by apply tried_counted|].
  destruct (send_message _ _ _ _ _) as [[]|s1] eqn:Hsend.
  2: { apply tried_failed; [by eapply send_message_not_completed|done]. }
  destruct (is_smtp p).
  - destruct (read_smtp_data_response _ _ _) as [resp|s1] eqn:Hresp.
    2: { apply tried_failed; [by eapply reply_or_not_completed|done]. }
    destruct (code resp =? 250); [|apply tried_failed; [apply from_smtp_error_not_completed|done]].
    rewrite mark_delivered_all by (eapply Forall_impl; [apply Hacc|]; by intros ? [? _]).
    destruct (mark_all_spec idx (accepted s) rs (total_completed s) Hmarks) as [Hf Hc].
    apply tried_counted; [by etrans|done|]. cbn. lia.
  - destruct (read_lmtp_data_response _ _) as [responses|s1] eqn:Hresp.
    2: { apply tried_failed; [by eapply reply_or_not_completed|done]. }
    rewrite mark_lmtp_all. set (marks := zip_with _ _ _).
    destruct (mark_all_spec idx marks rs (total_completed s)) as [Hf Hc].
    { unfold marks. rewrite (zip_marks (λ _ resp, lmtp_status p _ resp)). by apply marks_ok_take. }
    apply tried_counted; [by etrans|done|]. cbn. lia.
Qed.

Lemma deliver_ok m idx p a rs : tried_ok idx rs (deliver m idx p a rs).
Proof.
  unfold deliver. destruct (say_helo p (da_helo a)) as [c|s] eqn:Hhelo.
  2: { apply tried_failed; [by eapply reply_or_not_completed|reflexivity]. }
  destruct (if has_credentials p then da_auth a else None).
  { apply tried_failed; [apply from_smtp_error_not_completed|reflexivity]. }
  destruct (match da_mail a with Ok _ => _ | Err _ => _ end).
  2: { apply tried_failed; [apply from_smtp_error_not_completed|reflexivity]. }
  destruct (rcpt_loop p c (da_rcpt a) idx 0 rs rcpt_state0) as [rs1 [s1|e]] eqn:Hloop.
  - apply rcpt_loop_spec in Hloop as [Hf Hok]. destruct (Hok s1 eq_refl) as (Ht & Hc & acc & Ha & Haccs).
    cbn in Ht, Hc, Ha. subst acc. by apply send_accepted_ok.
  - apply rcpt_loop_spec in Hloop as [Hf _].
    apply tried_failed; [apply from_smtp_error_not_completed|done].
Qed.
End SessionFacts.

(** *** Local delivery *)

Lemma filter_snd {A B} (P : B → Prop) {Hb : ∀ b, Decision (P b)} {Hx : ∀ x : A * B, Decision (P x.2)}
    (l : list (A * B)) :
  (filter (λ x, P x.2) l).*2 = filter P l.*2.
Proof.
  induction l as [|[a b] l IH]; [done|]. rewrite fmap_cons, !filter_cons. unfold decide. cbn [snd].
  destruct (Hx (a, b)) as [Hp|Hp], (Hb b) as [Hp'|Hp']; cbn in Hp; cbn; congruence.
Qed.

Lemma domain_rcpts_snd idx rs : (domain_rcpts idx rs).*2 = filter (λ r, domain_idx r = idx) rs.
Proof.
  unfold domain_rcpts. etrans; [apply (filter_snd (λ r, domain_idx r = idx))|]. rewrite fmap_imap. f_equal.
  etrans; [|apply list_fmap_id]. symmetry. etrans; [symmetry; apply imap_const|]. by apply imap_ext.
Qed.

Lemma domain_rcpts_count idx rs : length (domain_rcpts idx rs) = rcpt_count idx rs.
Proof. by rewrite <- (length_fmap snd), domain_rcpts_snd. Qed.

Lemma pending_count idx rs : (settled_count idx rs + length (pending_rcpts idx rs) = rcpt_count idx rs)%nat.
Proof.
  transitivity (settled_count idx rs + length (filter (λ r, is_live (r_status r))
                                                (filter (λ r, domain_idx r = idx) rs)))%nat.
  { unfold pending_rcpts. rewrite <- (length_fmap snd), <- domain_rcpts_snd. do 2 f_equal.
    apply (filter_snd (λ r, is_live (r_status r))). }
  induction rs as [|r rs IH]; [done|]. rewrite settled_count_cons, rcpt_count_cons, filter_cons.
  destruct (Nat.eqb_spec (domain_idx r) idx) as [Hd|Hd].
  - rewrite decide_True, filter_cons by done.
    destruct (is_live (r_status r)); [rewrite decide_True by done|rewrite decide_False by (by intros [])]; simpl; lia.
  - rewrite decide_False by done. lia.
Qed.

Lemma pending_marks idx rs : marks_ok idx (pending_rcpts idx rs).*1 rs.
Proof.
  split.
  - eapply sublist_NoDup.
    2: { apply fmap_sublist. etrans; apply sublist_filter. }
    rewrite fmap_imap. apply NoDup_alt. intros i j x. rewrite !list_lookup_imap. cbn.
    destruct (rs !! i), (rs !! j); cbn; congruence.
  - apply Forall_fmap, Forall_forall. intros [i r] [Hl [Hd Hin]%list_elem_of_filter]%list_elem_of_filter.
    apply elem_of_lookup_imap in Hin as (i' & r' & [= <- <-] & Hr). exists r. by apply Is_true_true in Hl.
Qed.

Lemma deliver_local_marks (pending : list (nat * Recipient)) results rs n :
  foldl (λ '(rs, completed) '((pos, r), result),
    let status := local_status r result in
    (alter (change_status status) pos rs, if settled_status status then S completed else completed))
    (rs, n) (zip pending results)
  = mark_all (zip_with (λ x result, (x.1, local_status x.2 result)) pending results) rs n.
Proof.
  revert results rs n. induction pending as [|[pos r] l IH]; intros [|result results] rs n; try done.
  cbn [zip zip_with foldl mark_all fst snd]. apply IH.
Qed.

Lemma deliver_local_ok idx results rs : tried_ok idx rs (deliver_local idx results rs).
Proof.
  unfold deliver_local. destruct results as [results|]; [|by apply tried_failed].
  cbv zeta. rewrite deliver_local_marks. set (n := (_ - _)%nat). set (marks := zip_with _ _ _).
  destruct (mark_all_spec idx marks rs n) as [Hf Hc].
  { unfold marks. rewrite (zip_marks local_status). apply marks_ok_take, pending_marks. }
  destruct (mark_all marks rs n) as [rs' n']. cbn [fst snd] in *.
  apply tried_counted; [done|apply domain_rcpts_count|].
  pose proof (pending_count idx rs). unfold n in Hc. rewrite domain_rcpts_count in Hc. lia.
Qed.

(** *** A task as steps, a domain at a time *)

(** The outcome that is final for a recipient of domain [d], if there is one. *)
Definition final_report (d : Domain) (r : Recipient) : Report :=
  match r_status r, d_status d with
  | Completed _, _ => ReportSuccess
  | PermanentFailure _, _ | Scheduled, PermanentFailure _ => ReportFailed
  | _, _ => NoReport
  end.

(** One domain that is still live is attempted or given up. *)
Inductive domain_step : list Domain * list Recipient → list Domain * list Recipient → Prop :=
| DomainStep idx d d' ds rs rs' :
    ds !! idx = Some d → is_live (d_status d) = true → expires d' = expires d →
    Forall2 (evolves_in idx) rs rs' →
    (d_status d' = Completed () → ∀ r, r ∈ rs' → domain_idx r = idx → is_live (r_status r) = false) →
    domain_step (ds, rs) (<[idx := d']> ds, rs').

Definition works : relation (list Domain * list Recipient) := rtc domain_step.

(** What a message under delivery keeps: recipients have a domain, and those of a
    completed domain are settled. *)
Definition sound (ds : list Domain) (rs : list Recipient) : Prop :=
  Forall (λ r, (domain_idx r < length ds)%nat) rs ∧ done_ok ds rs.

Lemma Forall2_in_r {A B} (P : A → B → Prop) l k y : Forall2 P l k → y ∈ k → ∃ x, x ∈ l ∧ P x y.
Proof.
  intros Hf (i & Hy)%list_elem_of_lookup_1. destruct (Forall2_lookup_r _ _ _ _ _ Hf Hy) as (x & Hx & ?).
  exists x. split; [by eapply list_elem_of_lookup_2|done].
Qed.

Lemma domain_step_sound s s' : domain_step s s' → sound s.1 s.2 → sound s'.1 s'.2.
Proof.
  intros [idx d d' ds rs rs' Hd Hl _ Hf Hdone] [Hok Hs]. cbn [fst snd] in *. split.
  - rewrite length_insert, Forall_forall in *. intros r' Hr'.
    destruct (Forall2_in_r _ _ _ _ Hf Hr') as (r & Hr & Hev & _). rewrite (ev_domain _ _ Hev). by apply Hok.
  - intros r' d1 Hr' Hd1 Hst. destruct (decide (domain_idx r' = idx)) as [He|Hne].
    + rewrite He, list_lookup_insert_eq in Hd1 by (by eapply lookup_lt_Some). injection Hd1 as ->. by apply Hdone.
    + rewrite list_lookup_insert_ne in Hd1 by done.
      destruct (Forall2_in_r _ _ _ _ Hf Hr') as (r & Hr & Hev & Hsame & _).
      rewrite (ev_domain _ _ Hev) in Hne, Hd1. rewrite (Hsame Hne). by eapply Hs.
Qed.

(** What becomes of the recipient at a position and of its domain. *)
Record followed (r : Recipient) (d : Domain) (r' : Recipient) (d' : Domain) : Prop := {
  fo_domain : domain_idx r' = domain_idx r;
  fo_address : address r' = address r;
  fo_width : fits 64 (r_flags r) → fits 64 (r_flags r');
  fo_low f : fits 32 f → rcpt_has_flag r' f = rcpt_has_flag r f;
  fo_sent : rcpt_has_flag r' RCPT_DSN_SENT = rcpt_has_flag r RCPT_DSN_SENT;
  fo_final : final_report d r ≠ NoReport → final_report d' r' = final_report d r;
}.

Lemma followed_refl r d : followed r d r d.
Proof. by split. Qed.

Lemma followed_trans r1 d1 r2 d2 r3 d3 : followed r1 d1 r2 d2 → followed r2 d2 r3 d3 → followed r1 d1 r3 d3.
Proof.
  intros [D1 A1 W1 L1 S1 F1] [D2 A2 W2 L2 S2 F2]. split; [congruence|congruence|auto| |congruence|].
  - intros f Hf. by rewrite L2, L1.
  - intros Hfin. rewrite F2; [by apply F1|]. by rewrite F1.
Qed.

Definition tracks (s s' : list Domain * list Recipient) : Prop :=
  length s'.1 = length s.1 ∧ length s'.2 = length s.2 ∧
  (∀ j d, s.1 !! j = Some d → ∃ d', s'.1 !! j = Some d' ∧ expires d' = expires d) ∧
  ∀ i r d, s.2 !! i = Some r → s.1 !! domain_idx r = Some d →
    ∃ r' d', s'.2 !! i = Some r' ∧ s'.1 !! domain_idx r = Some d' ∧ followed r d r' d'.

#[export] Instance tracks_preorder : PreOrder tracks.
Proof.
  split.
  - intros [ds rs]. split_and!; [done|done|by eauto|]. intros i r d Hr Hd. exists r, d. split_and!; [done|done|apply followed_refl].
  - intros s1 s2 s3 (Hd1 & Hr1 & He1 & Hf1) (Hd2 & Hr2 & He2 & Hf2). split_and!; [congruence|congruence| |].
    + intros j d Hd. destruct (He1 _ _ Hd) as (d' & Hd' & Hx). destruct (He2 _ _ Hd') as (d'' & ? & ?).
      exists d''. split; [done|congruence].
    + intros i r d Hr Hd. destruct (Hf1 _ _ _ Hr Hd) as (r' & d' & Hr' & Hd' & Hfo).
      rewrite <- (fo_domain _ _ _ _ Hfo) in Hd'. destruct (Hf2 _ _ _ Hr' Hd') as (r'' & d'' & Hr'' & Hd'' & Hfo').
      exists r'', d''. rewrite (fo_domain _ _ _ _ Hfo) in Hd''. split_and!; [done|done|by eapply followed_trans].
Qed.

(** A final outcome of a recipient whose domain is live is its own. *)
Lemma final_live d r : is_live (d_status d) = true → final_report d r ≠ NoReport → is_live (r_status r) = false.
Proof. unfold final_report. by destruct (r_status r), (d_status d). Qed.

Lemma final_settled d d' r : is_live (r_status r) = false → final_report d' r = final_report d r.
Proof. unfold final_report. by destruct (r_status r). Qed.

Lemma final_status_eq d d' r r' :
  r_status r' = r_status r → d_status d' = d_status d → final_report d' r' = final_report d r.
Proof. unfold final_report. by intros -> ->. Qed.

Lemma domain_step_tracks s s' : domain_step s s' → tracks s s'.
Proof.
  intros [idx d d' ds rs rs' Hd Hl Hx Hf _]. unfold tracks. cbn [fst snd].
  split_and!; [apply length_insert|by symmetry; eapply Forall2_length| |].
  - intros j d1 Hd1. destruct (decide (idx = j)) as [<-|Hne].
    + exists d'. rewrite list_lookup_insert_eq by (by eapply lookup_lt_Some). split; [done|congruence].
    + exists d1. by rewrite list_lookup_insert_ne.
  - intros i r d1 Hr Hd1. destruct (Forall2_lookup_l _ _ _ _ _ Hf Hr) as (r' & Hr' & Hev & Hsame & Hsent).
    exists r'. destruct (decide (idx = domain_idx r)) as [He|Hne].
    + exists d'. rewrite <- He in Hd1 |- *. rewrite list_lookup_insert_eq by (by eapply lookup_lt_Some).
      assert (d1 = d) as -> by congruence. split_and!; [done|done|].
      split; [apply Hev|apply Hev|apply Hev|apply Hev|done|]. intros Hfin. pose proof (final_live _ _ Hl Hfin) as Hr0.
      unfold final_report. rewrite (ev_settled _ _ Hev Hr0). by apply final_settled.
    + exists d1. rewrite list_lookup_insert_ne by done. rewrite (Hsame (not_eq_sym Hne)) in *.
      split_and!; [done|done|apply followed_refl].
Qed.

Lemma works_tracks s s' : works s s' → tracks s s'.
Proof. induction 1 as [|s1 s2 s3 Hs _ IH]; [reflexivity|]. etrans; [by apply domain_step_tracks|done]. Qed.
Lemma works_sound s s' : works s s' → sound s.1 s.2 → sound s'.1 s'.2.
Proof. induction 1 as [|s1 s2 s3 Hs _ IH]; [done|]. intros Hsound. by eapply IH, domain_step_sound. Qed.

Lemma expire_rcpts_in idx rs : Forall2 (evolves_in idx) rs (expire_rcpts idx rs).
Proof.
  induction rs as [|r rs IH]; constructor; [|done].
  destruct (Nat.eqb_spec (domain_idx r) idx); [|reflexivity].
  split; [|by split]. split; [done|done|done| |done|done]. cbn. by destruct (r_status r).
Qed.

(** The domain at the end of those already done. *)
Lemma works_here pre d d' ds rs rs' s :
  is_live (d_status d) = true → expires d' = expires d →
  Forall2 (evolves_in (length pre)) rs rs' →
  (d_status d' = Completed () → ∀ r, r ∈ rs' → domain_idx r = length pre → is_live (r_status r) = false) →
  works (pre ++ d' :: ds, rs') s → works (pre ++ d :: ds, rs) s.
Proof.
  intros Hl Hx Hf Hdone Hw. eapply rtc_l; [|exact Hw].
  assert (pre ++ d' :: ds = <[length pre := d']> (pre ++ d :: ds)) as ->.
  { rewrite <- (Nat.add_0_r (length pre)), insert_app_r. done. }
  eapply DomainStep; [|done..]. by apply list_lookup_middle.
Qed.

Lemma snoc_cons {A} (pre : list A) x l : pre ++ x :: l = (pre ++ [x]) ++ l.
Proof. by rewrite <- app_assoc. Qed.

Lemma expire_domains_works now pre ds rs :
  let '(ds', rs', pending) := expire_domains now (length pre) ds rs in
  works (pre ++ ds, rs) (pre ++ ds', rs') ∧
  (pending = false → Forall (λ d, is_live (d_status d) = false) ds') ∧
  (Forall (λ d, is_live (d_status d) = true → expires d ≤ now) ds → pending = false).
Proof.
  revert pre rs. induction ds as [|d ds IH]; intros pre rs; cbn [expire_domains].
  { split_and!; [apply rtc_refl|constructor|done]. }
  assert (∃ d1 rs1 p1, (match d_status d with
      | TemporaryFailure e =>
          if expires d <=? now then
            (set_domain (PermanentFailure e) (retry d) (notify d) d, expire_rcpts (length pre) rs, false)
          else (d, rs, true)
      | Scheduled =>
          if expires d <=? now then
            (set_domain (PermanentFailure (Io (str "Queue rate limit exceeded."))) (retry d) (notify d) d,
             expire_rcpts (length pre) rs, false)
          else (d, rs, true)
      | _ => (d, rs, false)
      end) = (d1, rs1, p1) ∧
    (∀ s, works (pre ++ d1 :: ds, rs1) s → works (pre ++ d :: ds, rs) s) ∧
    (p1 = false → is_live (d_status d1) = false) ∧
    ((is_live (d_status d) = true → expires d ≤ now) → p1 = false)) as (d1 & rs1 & p1 & -> & Hw & Hp & Hx).
  { destruct (d_status d) as [| |e|e] eqn:Hs; [|do 3 eexists; by rewrite Hs| |do 3 eexists; by rewrite Hs].
    all: destruct (Z.leb_spec (expires d) now) as [Hle|Hgt];
      [|do 3 eexists; split; [done|]; split_and!; [done|done|]; intros Hd; specialize (Hd eq_refl); lia].
    all: do 3 eexists; split; [done|]; split_and!; [|done|done]; intros s;
      eapply works_here; [by rewrite Hs|done|apply expire_rcpts_in|done]. }
  specialize (IH (pre ++ [d1]) rs1). rewrite length_app, Nat.add_comm in IH. cbn [length Nat.add] in IH.
  destruct (expire_domains now (S (length pre)) ds rs1) as [[ds2 rs2] p2]. destruct IH as (Hw2 & Hp2 & Hx2).
  rewrite <- !snoc_cons in Hw2. split_and!.
  - by apply Hw.
  - intros [-> ->]%orb_false_iff. constructor; auto.
  - intros [Hd Hds]%Forall_cons. by rewrite Hx, Hx2.
Qed.

Section TaskFacts.
Context `{SmtpProto}.

Definition outcome_ok (idx : nat) (rs : list Recipient) (o : DomainOutcome) : Prop :=
  match o with OutThrottled _ => True | OutStatus s rs' => tried_ok idx rs (s, rs') end.

Lemma try_ips_ok m idx ips rs last :
  last ≠ Completed () →
  match try_ips m idx ips rs last with
  | HostNext last => last ≠ Completed ()
  | HostDone o => outcome_ok idx rs o
  end.
Proof.
  revert last. induction ips as [|[err|host err|permanent err|p a] ips IH]; intros last Hl; cbn [try_ips].
  - done.
  - done.
  - apply IH, from_smtp_error_not_completed.
  - apply failure_not_completed.
  - pose proof (deliver_ok m idx p a rs) as Hok. by destruct (deliver m idx p a rs).
Qed.

Lemma try_hosts_ok m idx hosts rs last : last ≠ Completed () → outcome_ok idx rs (try_hosts m idx hosts rs last).
Proof.
  revert last. induction hosts as [|[permanent err|ips] hosts IH]; intros last Hl; cbn [try_hosts].
  - by apply tried_failed.
  - apply IH, failure_not_completed.
  - pose proof (try_ips_ok m idx ips rs last Hl) as Hok. destruct (try_ips _ _ _ _ _); [by apply IH|done].
Qed.

Lemma try_domain_ok m idx attempt rs : outcome_ok idx rs (try_domain m idx attempt rs).
Proof.
  destruct attempt as [err|results|permanent err|hosts]; cbn [try_domain].
  - done.
  - pose proof (deliver_local_ok idx results rs) as Hok. by destruct (deliver_local idx results rs).
  - apply tried_failed; [apply failure_not_completed|reflexivity].
  - by apply try_hosts_ok.
Qed.

Lemma set_status_some now schedule s d :
  schedule ≠ [] → ∃ d', set_status now schedule s d = Some d' ∧ d_status d' = s ∧ expires d' = expires d.
Proof.
  intros Hs. unfold set_status, domain_retry. destruct (is_live s); [|by eexists].
  destruct (lookup_lt_is_Some_2 schedule (Nat.min (Z.to_nat (inner (retry (set_domain s (retry d) (notify d) d))))
    (length schedule - 1))) as [secs ->].
  { destruct schedule; [done|]. cbn [length]. lia. }
  by eexists.
Qed.

Lemma domain_loop_works m answers pre ds rs oh :
  (∀ i, dm_schedule (answers i) ≠ []) →
  ∃ ds' rs' oh', domain_loop m answers (length pre) ds rs oh = Some (ds', rs', oh') ∧
    works (pre ++ ds, rs) (pre ++ ds', rs').
Proof.
  intros Hsched. revert pre rs oh. induction ds as [|d ds IH]; intros pre rs oh; cbn [domain_loop].
  { do 3 eexists. split; [done|apply rtc_refl]. }
  assert (∃ d1 rs1 oh1, (if is_due (dm_check (answers (length pre))) d then
      match try_domain m (length pre) (dm_attempt (answers (length pre))) rs with
      | OutThrottled err => let '(d, on_hold) := set_throttle_error err d oh in Some (d, rs, on_hold)
      | OutStatus s rs =>
          d ← set_status (dm_now (answers (length pre))) (dm_schedule (answers (length pre))) s d; Some (d, rs, oh)
      end else Some (d, rs, oh)) = Some (d1, rs1, oh1) ∧
    (∀ s, works (pre ++ d1 :: ds, rs1) s → works (pre ++ d :: ds, rs) s)) as (d1 & rs1 & oh1 & -> & Hw).
  { unfold is_due. destruct (is_live (d_status d)) eqn:Hl; cbn [andb]; [|by do 3 eexists].
    destruct (due (retry d) <=? _); [|by do 3 eexists].
    pose proof (try_domain_ok m (length pre) (dm_attempt (answers (length pre))) rs) as Hok.
    destruct (try_domain _ _ _ _) as [err|s rs1].
    - destruct err; do 3 eexists; (split; [done|]); intros s; by apply works_here.
    - destruct (set_status_some (dm_now (answers (length pre))) _ s d (Hsched (length pre))) as (d1 & -> & Hs & Hx).
      destruct Hok as [Hf Hdone]. do 3 eexists. split; [done|]. intros s'.
      apply works_here; [done|done|done|]. by rewrite Hs. }
  cbn [mbind option_bind]. specialize (IH (pre ++ [d1]) rs1 oh1). rewrite length_app, Nat.add_comm in IH.
  cbn [length Nat.add] in IH.
  destruct IH as (ds2 & rs2 & oh2 & -> & Hw2). rewrite <- !snoc_cons in Hw2.
  do 3 eexists. split; [done|]. by apply Hw.
Qed.

(** *** Notifications *)

(** How many of the notifications list the recipient at [i] in [f]. *)
Definition listed (i : nat) (l : list nat) : nat := length (filter (λ j, j = i) l).
Definition told (f : Dsn → list nat) (i : nat) (dsns : list Dsn) : nat := sum_list ((λ x, listed i (f x)) <$> dsns).

Definition report_flag (report : Report) : Z :=
  match report with ReportSuccess => RCPT_NOTIFY_SUCCESS | ReportFailed => RCPT_NOTIFY_FAILURE | _ => 0 end.

Definition is_final (report : Report) : bool :=
  match report with ReportSuccess | ReportFailed => true | _ => false end.

Definition open_to_report (r : Recipient) : bool := negb (rcpt_has_flag r (RCPT_DSN_SENT .| RCPT_NOTIFY_NEVER)).

(** A recipient is marked when its outcome is final and it was not told before; to
    an empty return path only failures are. *)
Definition marked (bounce : bool) (d : Domain) (r : Recipient) : bool :=
  open_to_report r &&
  if bounce then bool_decide (final_report d r = ReportFailed) else is_final (final_report d r).

(** It is listed when the envelope asks for it. *)
Definition lists_now (bounce : bool) (d : Domain) (r : Recipient) (report : Report) : nat :=
  if negb bounce && open_to_report r && bool_decide (final_report d r = report)
     && rcpt_has_flag r (report_flag report) then 1 else 0.

Lemma listed_cons i j l : listed i (j :: l) = ((if (j =? i)%nat then 1 else 0) + listed i l)%nat.
Proof.
  unfold listed. rewrite filter_cons. destruct (Nat.eqb_spec j i); [by rewrite decide_True|by rewrite decide_False].
Qed.

(** The recipient after a notification. *)
Record noted (marks : bool) (r r' : Recipient) : Prop := {
  no_domain : domain_idx r' = domain_idx r;
  no_address : address r' = address r;
  no_width : fits 64 (r_flags r) → fits 64 (r_flags r');
  no_status : r_status r' = r_status r;
  no_low f : fits 32 f → rcpt_has_flag r' f = rcpt_has_flag r f;
  no_sent : rcpt_has_flag r' RCPT_DSN_SENT = rcpt_has_flag r RCPT_DSN_SENT || marks;
}.

Lemma noted_same r : noted false r r.
Proof. split; [done|done|done|done|done|]. by rewrite orb_false_r. Qed.

Lemma noted_set flags r :
  fits 64 flags → (∀ f, fits 32 f → flag_set flags f = false) → flag_set flags RCPT_DSN_SENT = true →
  noted true r (set_rcpt (r_status r) (r_flags r .| flags) r).
Proof.
  intros Hw Hlow Hsent. split; [done|done|intros ?; by apply fits_lor|done| |]; unfold rcpt_has_flag; cbn.
  - intros f Hf. by rewrite flag_set_lor_l, Hlow, orb_false_r.
  - by rewrite flag_set_lor_l, Hsent.
Qed.

Lemma sent_changed_low f : fits 32 f → flag_set (RCPT_DSN_SENT .| RCPT_STATUS_CHANGED) f = false.
Proof. intros Hf. by rewrite flag_set_lor_l, sent_low, changed_low. Qed.

Definition is_report (report report' : Report) : nat := if decide (report' = report) then 1 else 0.

Context `{!SmtpProtoLaw}.

Lemma rcpt_report_spec now d r :
  noted (marked false d r) r (rcpt_report now d r).2 ∧
  is_report ReportFailed (rcpt_report now d r).1 = lists_now false d r ReportFailed ∧
  is_report ReportSuccess (rcpt_report now d r).1 = lists_now false d r ReportSuccess.
Proof.
  unfold rcpt_report, marked, lists_now, open_to_report.
  destruct (rcpt_has_flag r (RCPT_DSN_SENT .| RCPT_NOTIFY_NEVER)); cbn [negb andb].
  { split_and!; [apply noted_same|done|done]. }
  assert (∀ flag, fits 32 flag → rcpt_has_flag
    (set_rcpt (r_status r) (r_flags r .| (RCPT_DSN_SENT .| RCPT_STATUS_CHANGED)) r) flag = rcpt_has_flag r flag) as Hflag.
  { intros flag Hf. unfold rcpt_has_flag. cbn [set_rcpt r_flags].
    by rewrite flag_set_lor_l, sent_changed_low, orb_false_r. }
  pose proof (noted_same r) as Hsame.
  pose proof (noted_set (RCPT_DSN_SENT .| RCPT_STATUS_CHANGED) r ltac:(done) sent_changed_low eq_refl) as Hset.
  set (delay := (due (notify d) <=? now) && rcpt_has_flag r RCPT_NOTIFY_DELAY). clearbody delay.
  unfold final_report, is_report.
  destruct (r_status r), (d_status d); cbn [report_flag];
    rewrite ?Hflag by (apply notify_success_fits || apply notify_failure_fits);
    generalize (rcpt_has_flag r RCPT_NOTIFY_FAILURE), (rcpt_has_flag r RCPT_NOTIFY_SUCCESS); intros [] [];
    by destruct delay.
Qed.

Lemma double_bounce_spec ds d r :
  ds !! domain_idx r = Some d →
  ∃ r', double_bounce_rcpt ds r = Some r' ∧ noted (marked true d r) r r'.
Proof.
  intros Hd. unfold double_bounce_rcpt, marked, open_to_report.
  destruct (rcpt_has_flag r (RCPT_DSN_SENT .| RCPT_NOTIFY_NEVER)); cbn [negb andb].
  { eexists. split; [done|apply noted_same]. }
  pose proof (noted_same r) as Hsame. pose proof (noted_set RCPT_DSN_SENT r ltac:(done) sent_low eq_refl) as Hset.
  unfold final_report. destruct (r_status r); rewrite ?Hd; cbn [mbind option_bind]; destruct (d_status d);
    (eexists; split; [reflexivity|done]).
Qed.

Lemma add_report_listed report pos dsn i :
  listed i (dsn_failed (add_report report pos dsn))
  = ((if (pos =? i)%nat then is_report ReportFailed report else 0) + listed i (dsn_failed dsn))%nat ∧
  listed i (dsn_success (add_report report pos dsn))
  = ((if (pos =? i)%nat then is_report ReportSuccess report else 0) + listed i (dsn_success dsn))%nat.
Proof.
  destruct report; cbn [add_report dsn_failed dsn_success]; rewrite ?listed_cons; unfold is_report; cbn;
    by destruct (pos =? i)%nat.
Qed.

(** The notification for the recipients from [pos] on. *)
Lemma report_loop_spec now ds pos rs :
  Forall (λ r, (domain_idx r < length ds)%nat) rs →
  ∃ dsn rs', report_loop now ds pos rs = Some (dsn, rs') ∧ length rs' = length rs ∧
    (∀ i, (i < pos)%nat → listed i (dsn_failed dsn) = 0%nat ∧ listed i (dsn_success dsn) = 0%nat) ∧
    ∀ i r d, rs !! i = Some r → ds !! domain_idx r = Some d →
      ∃ r', rs' !! i = Some r' ∧ noted (marked false d r) r r' ∧
        listed (pos + i) (dsn_failed dsn) = lists_now false d r ReportFailed ∧
        listed (pos + i) (dsn_success dsn) = lists_now false d r ReportSuccess.
Proof.
  intros Hok. revert pos. induction rs as [|r rs IH]; intros pos; cbn [report_loop].
  { do 2 eexists. split_and!; [done|done|done|]. intros i r d Hr. by rewrite lookup_nil in Hr. }
  apply Forall_cons in Hok as [Hr Hok]. destruct (IH Hok (S pos)) as (dsn & rs' & -> & Hlen & Hlt & Hrest).
  apply lookup_lt_is_Some_2 in Hr as [d0 Hd0]. rewrite Hd0.
  assert ((if rcpt_has_flag r (RCPT_DSN_SENT .| RCPT_NOTIFY_NEVER) then Some (NoReport, r)
           else d ← Some d0; Some (rcpt_report now d r)) = Some (rcpt_report now d0 r)) as ->.
  { unfold rcpt_report. by destruct (rcpt_has_flag r _). }
  destruct (rcpt_report_spec now d0 r) as (Hn & Hfail & Hsucc).
  destruct (rcpt_report now d0 r) as [report r1]. cbn [mbind option_bind fst snd] in *.
  do 2 eexists. split; [done|]. split; [by cbn; f_equal|]. split.
  - intros i Hi. destruct (add_report_listed report pos dsn i) as [-> ->].
    rewrite (proj2 (Nat.eqb_neq pos i)) by lia. apply Hlt. lia.
  - intros [|i] r' d Hr' Hd.
    + injection Hr' as <-. assert (d = d0) as -> by congruence. exists r1. rewrite Nat.add_0_r.
      destruct (add_report_listed report pos dsn pos) as [-> ->]. rewrite Nat.eqb_refl.
      destruct (Hlt pos ltac:(lia)) as [-> ->]. split_and!; [done|done|lia|lia].
    + destruct (Hrest i r' d Hr' Hd) as (r2 & Hr2 & Hn2 & H1 & H2). exists r2.
      destruct (add_report_listed report pos dsn (pos + S i)) as [-> ->].
      rewrite (proj2 (Nat.eqb_neq pos (pos + S i))) by lia.
      replace (pos + S i)%nat with (S pos + i)%nat by lia. by split_and!.
Qed.

Lemma log_dsn_some m : rcpts_ok m → log_dsn m = Some ().
Proof.
  intros Hok. unfold log_dsn. destruct (mapM_is_Some_2 (λ r,
    if rcpt_has_flag r RCPT_DSN_SENT then Some () else d ← domains m !! domain_idx r; Some ()) (recipients m)) as [l Hl].
  - eapply Forall_impl; [exact Hok|]. intros r Hr%lookup_lt_is_Some_2. destruct Hr as [d Hd]. unfold compose. rewrite Hd.
    by destruct (rcpt_has_flag r _).
  - by rewrite Hl.
Qed.

(** A notification leaves the domains' statuses, and notes what it lists. *)
Definition informs (bounce : bool) (m : Message) (dsn : option Dsn) (m' : Message) : Prop :=
  m' = with_recipients (recipients m') (with_domains (domains m') m) ∧
  length (domains m') = length (domains m) ∧ length (recipients m') = length (recipients m) ∧
  (∀ j d, domains m !! j = Some d →
    ∃ d', domains m' !! j = Some d' ∧ d_status d' = d_status d ∧ expires d' = expires d) ∧
  ∀ i r d, recipients m !! i = Some r → domains m !! domain_idx r = Some d →
    ∃ r', recipients m' !! i = Some r' ∧ noted (marked bounce d r) r r' ∧
      told dsn_failed i (option_list dsn) = lists_now bounce d r ReportFailed ∧
      told dsn_success i (option_list dsn) = lists_now bounce d r ReportSuccess.

Lemma build_dsn_spec now intervals m :
  rcpts_ok m → ∃ dsn m', build_dsn now intervals m = Some (dsn, m') ∧ informs false m dsn m'.
Proof.
  intros Hok. unfold build_dsn.
  destruct (report_loop_spec now (domains m) 0 (recipients m) Hok) as (dsn & rs' & -> & Hlen & _ & Hrest).
  cbn [mbind option_bind]. set (m1 := with_recipients rs' m). case_bool_decide as Hempty.
  - do 2 eexists. split; [done|]. split_and!; [by destruct m|done|done|by eauto|].
    intros i r d Hr Hd. destruct (Hrest i r d Hr Hd) as (r' & Hr' & Hn & <- & <-). exists r'.
    destruct Hempty as (-> & _ & ->). by split_and!.
  - do 2 eexists. split; [done|].
    assert (∀ i r d, recipients m !! i = Some r → domains m !! domain_idx r = Some d →
      ∃ r', rs' !! i = Some r' ∧ noted (marked false d r) r r' ∧
        told dsn_failed i (option_list (Some dsn)) = lists_now false d r ReportFailed ∧
        told dsn_success i (option_list (Some dsn)) = lists_now false d r ReportSuccess) as Hrs.
    { intros i r d Hr Hd. destruct (Hrest i r d Hr Hd) as (r' & Hr' & Hn & <- & <-). exists r'.
      unfold told. cbn. rewrite !Nat.add_0_r. by split_and!. }
    case_bool_decide.
    + split_and!; [by destruct m|done|done|by eauto|done].
    + split_and!; [by destruct m|apply length_imap|done| |done].
      intros j d Hd. cbn. rewrite list_lookup_imap, Hd. eexists. split; [done|].
      unfold next_notify. destruct (_ && _); [|done]. by destruct (_ ≫= _).
Qed.

Lemma handle_double_bounce_spec now m :
  rcpts_ok m → ∃ m', handle_double_bounce now m = Some m' ∧ informs true m None m'.
Proof.
  intros Hok. unfold handle_double_bounce.
  destruct (mapM_is_Some_2 (double_bounce_rcpt (domains m)) (recipients m)) as [rs' Hrs].
  { eapply Forall_impl; [exact Hok|]. intros r [d Hd]%lookup_lt_is_Some_2.
    destruct (double_bounce_spec _ _ _ Hd) as (r' & Hr' & _). unfold compose. by rewrite Hr'. }
  rewrite Hrs. eexists. split; [done|]. apply mapM_Some in Hrs.
  split_and!; [by destruct m|by cbn; rewrite length_fmap|by symmetry; eapply Forall2_length| |].
  - intros j d Hd. cbn. rewrite list_lookup_fmap, Hd. eexists. split; [done|]. by destruct (_ <=? now).
  - intros i r d Hr Hd. destruct (Forall2_lookup_l _ _ _ _ _ Hrs Hr) as (r' & Hr' & Hb).
    destruct (double_bounce_spec _ _ _ Hd) as (r'' & Hb' & Hn). exists r'. split; [done|].
    split; [congruence|done].
Qed.
End TaskFacts.

(** *** The account of a message *)

Section Ledger.
Context `{SmtpProto} `{!SmtpProtoLaw}.

(** How often the notifications should have listed a recipient. *)
Definition owed (m : Message) (d : Domain) (r : Recipient) (report : Report) : nat :=
  if negb (bool_decide (return_path m = [])) && rcpt_has_flag r RCPT_DSN_SENT
     && bool_decide (final_report d r = report) && rcpt_has_flag r (report_flag report) then 1 else 0.

Record ledger (m : Message) (dsns : list Dsn) : Prop := {
  le_sound : sound (domains m) (recipients m);
  le_told i r d : recipients m !! i = Some r → domains m !! domain_idx r = Some d →
    told dsn_failed i dsns = owed m d r ReportFailed ∧ told dsn_success i dsns = owed m d r ReportSuccess ∧
    (rcpt_has_flag r RCPT_DSN_SENT = true →
     final_report d r ≠ NoReport ∧ rcpt_has_flag r RCPT_NOTIFY_NEVER = false);
}.

Lemma report_flag_fits report : fits 32 (report_flag report).
Proof. destruct report; [by compute|apply notify_success_fits|by compute|apply notify_failure_fits]. Qed.

Lemma told_app f i l k : told f i (l ++ k) = (told f i l + told f i k)%nat.
Proof. unfold told. rewrite fmap_app. induction (_ <$> l) as [|x xs IH]; cbn; lia. Qed.

Lemma owed_followed m m' d r d' r' report :
  return_path m' = return_path m → followed r d r' d' →
  (rcpt_has_flag r RCPT_DSN_SENT = true → final_report d r ≠ NoReport) →
  owed m' d' r' report = owed m d r report.
Proof.
  intros Hp [_ _ _ Hlow Hsent Hfin] Hs. unfold owed. rewrite Hp, Hsent, Hlow by apply report_flag_fits.
  destruct (rcpt_has_flag r RCPT_DSN_SENT); [|by rewrite !andb_false_r]. by rewrite Hfin by auto.
Qed.

Lemma ledger_tracks m dsns ds' rs' :
  ledger m dsns → tracks (domains m, recipients m) (ds', rs') → sound ds' rs' →
  ledger (with_recipients rs' (with_domains ds' m)) dsns.
Proof.
  intros [[Hok Hs] Hle] (_ & Hlen & _ & Hf) Hsound. cbn [fst snd] in *. split; [done|].
  intros i r' d'. cbn. intros Hr' Hd'.
  destruct (lookup_lt_is_Some_2 (recipients m) i) as [r Hr].
  { rewrite <- Hlen. by eapply lookup_lt_Some. }
  destruct (lookup_lt_is_Some_2 (domains m) (domain_idx r)) as [d Hd].
  { rewrite Forall_forall in Hok. by eapply Hok, list_elem_of_lookup_2. }
  destruct (Hf i r d Hr Hd) as (r1 & d1 & Hr1 & Hd1 & Hfo). assert (r1 = r') as -> by congruence.
  rewrite (fo_domain _ _ _ _ Hfo) in Hd'. assert (d1 = d') as -> by congruence.
  destruct (Hle i r d Hr Hd) as (-> & -> & Hsent).
  split_and!; [symmetry; apply owed_followed; [done|done|intros ?; by apply Hsent]..|].
  rewrite (fo_sent _ _ _ _ Hfo), (fo_low _ _ _ _ Hfo) by apply notify_never_fits.
  intros [Hfin Hnever]%Hsent. by rewrite (fo_final _ _ _ _ Hfo).
Qed.

Lemma open_not_sent r : rcpt_has_flag r RCPT_DSN_SENT = true → open_to_report r = false.
Proof. unfold open_to_report, rcpt_has_flag. rewrite flag_set_lor. by intros ->. Qed.

Lemma owed_noted m m' d d' r r' report :
  return_path m' = return_path m → d_status d' = d_status d → is_final report = true →
  noted (marked (bool_decide (return_path m = [])) d r) r r' →
  (owed m d r report + lists_now (bool_decide (return_path m = [])) d r report)%nat = owed m' d' r' report.
Proof.
  intros Hp Hd Hfin [_ _ _ Hst Hlow Hsent]. unfold owed, lists_now.
  rewrite Hp, Hsent, Hlow by apply report_flag_fits. rewrite (final_status_eq d d' r r') by done.
  destruct (rcpt_has_flag r RCPT_DSN_SENT) eqn:Hs.
  - rewrite open_not_sent by done. destruct (bool_decide (return_path m = [])); cbn; [done|]. apply Nat.add_0_r.
  - unfold marked. destruct (bool_decide (return_path m = [])); cbn; [done|].
    destruct (open_to_report r); cbn; [|done]. case_bool_decide as Hr; [|by rewrite andb_false_r].
    by rewrite Hr, Hfin.
Qed.

Lemma informs_path bounce m dsn m' : informs bounce m dsn m' → return_path m' = return_path m.
Proof. intros (Hm & _). by rewrite Hm. Qed.

Lemma informs_back bounce m dsn m' i r' d' :
  rcpts_ok m → informs bounce m dsn m' → recipients m' !! i = Some r' → domains m' !! domain_idx r' = Some d' →
  ∃ r d, recipients m !! i = Some r ∧ domains m !! domain_idx r = Some d ∧ d_status d' = d_status d ∧
    noted (marked bounce d r) r r' ∧
    told dsn_failed i (option_list dsn) = lists_now bounce d r ReportFailed ∧
    told dsn_success i (option_list dsn) = lists_now bounce d r ReportSuccess.
Proof.
  intros Hok (_ & _ & Hlen & Hds & Hrs) Hr' Hd'.
  destruct (lookup_lt_is_Some_2 (recipients m) i) as [r Hr].
  { rewrite <- Hlen. by eapply lookup_lt_Some. }
  destruct (lookup_lt_is_Some_2 (domains m) (domain_idx r)) as [d Hd].
  { unfold rcpts_ok in Hok. rewrite Forall_forall in Hok. by eapply Hok, list_elem_of_lookup_2. }
  destruct (Hrs i r d Hr Hd) as (r1 & Hr1 & Hn & Hf & Hs). assert (r1 = r') as -> by congruence.
  exists r, d. rewrite (no_domain _ _ _ Hn) in Hd'. destruct (Hds _ _ Hd) as (d1 & Hd1 & Hst & _).
  split_and!; try done. congruence.
Qed.

Lemma ledger_informs m dsns dsn m' :
  ledger m dsns → informs (bool_decide (return_path m = [])) m dsn m' → ledger m' (dsns ++ option_list dsn).
Proof.
  intros [[Hok Hdone] Hle] Hinf. split.
  - pose proof Hinf as (_ & Hlend & _). split.
    + apply Forall_lookup. intros i r' Hr'. pose proof Hinf as (_ & _ & Hlen & _ & Hrs).
      destruct (lookup_lt_is_Some_2 (recipients m) i) as [r Hr]; [rewrite <- Hlen; by eapply lookup_lt_Some|].
      rewrite Forall_lookup in Hok. destruct (lookup_lt_is_Some_2 _ _ (Hok i r Hr)) as [d Hd].
      destruct (Hrs i r d Hr Hd) as (r1 & Hr1 & Hn & _). assert (r1 = r') as -> by congruence.
      rewrite (no_domain _ _ _ Hn), Hlend. by eapply Hok.
    + intros r' d' (i & Hr')%list_elem_of_lookup_1 Hd' Hst.
      destruct (informs_back _ _ _ _ _ _ _ Hok Hinf Hr' Hd') as (r & d & Hr & Hd & Hs & Hn & _).
      rewrite (no_status _ _ _ Hn). eapply Hdone; [by eapply list_elem_of_lookup_2|done|congruence].
  - intros i r' d' Hr' Hd'.
    destruct (informs_back _ _ _ _ _ _ _ Hok Hinf Hr' Hd') as (r & d & Hr & Hd & Hs & Hn & Hf & Hsu).
    destruct (Hle i r d Hr Hd) as (H1 & H2 & H3). rewrite !told_app, H1, H2, Hf, Hsu.
    pose proof (informs_path _ _ _ _ Hinf) as Hp.
    split_and!; [by apply owed_noted..|]. rewrite (no_sent _ _ _ Hn).
    rewrite (final_status_eq d d' r r') by (done || apply Hn).
    rewrite (no_low _ _ _ Hn) by apply notify_never_fits. intros [Hst|Hm]%orb_prop; [by apply H3|].
    unfold marked in Hm. apply andb_prop in Hm as [Hopen Hm]. split.
    + destruct (bool_decide (return_path m = [])); [by apply bool_decide_eq_true_1 in Hm as ->|].
      by destruct (final_report d r).
    + unfold open_to_report, rcpt_has_flag in *. rewrite flag_set_lor in Hopen.
      by apply negb_true_iff, orb_false_iff in Hopen as [_ ->].
Qed.

(** Who failed has been told, or asked not to be. *)
Definition informed (m : Message) : Prop :=
  ∀ i r d, recipients m !! i = Some r → domains m !! domain_idx r = Some d →
    rcpt_has_flag r RCPT_NOTIFY_NEVER = false →
    final_report d r = ReportFailed ∨ return_path m ≠ [] ∧ final_report d r = ReportSuccess →
    rcpt_has_flag r RCPT_DSN_SENT = true.

Lemma informs_informed m dsn m' :
  rcpts_ok m → informs (bool_decide (return_path m = [])) m dsn m' → informed m'.
Proof.
  intros Hok Hinf i r' d' Hr' Hd' Hnever Hfin.
  destruct (informs_back _ _ _ _ _ _ _ Hok Hinf Hr' Hd') as (r & d & Hr & Hd & Hs & Hn & _).
  pose proof (informs_path _ _ _ _ Hinf) as Hp.
  rewrite Hp, (final_status_eq d d' r r') in Hfin by (done || apply Hn).
  rewrite (no_low _ _ _ Hn) in Hnever by apply notify_never_fits.
  rewrite (no_sent _ _ _ Hn). unfold marked, open_to_report.
  unfold rcpt_has_flag in *. rewrite flag_set_lor, Hnever, orb_false_r.
  destruct (flag_set (r_flags r) RCPT_DSN_SENT); [done|]. cbn.
  case_bool_decide; destruct Hfin as [->|[? ->]]; done.
Qed.
End Ledger.

Lemma next_event_none now m :
  next_event now m = None → Forall (λ d, is_live (d_status d) = false) (domains m).
Proof.
  unfold next_event. set (f := λ '(next, has_events) d, _).
  assert (∀ next b, (b = true → (foldl f (next, b) (domains m)).2 = true) ∧
    ((foldl f (next, b) (domains m)).2 = false → Forall (λ d, is_live (d_status d) = false) (domains m))) as Hgen.
  { induction (domains m) as [|d ds IH]; intros next b; [by split|]. cbn [foldl].
    assert (∃ next', f (next, b) d = (next', b || is_live (d_status d))) as [next' ->].
    { unfold f. destruct (is_live (d_status d)); [|eexists; by rewrite orb_false_r].
      destruct b, (due (retry d) <? next); by eexists. }
    destruct (IH next' (b || is_live (d_status d))) as [H1 H2]. split.
    - intros ->. by apply H1.
    - intros Hf. constructor; [|by apply H2]. destruct (is_live (d_status d)); [|done].
      rewrite orb_true_r in Hf, H1. by rewrite H1 in Hf. }
  destruct (Hgen now false) as [_ Hg]. destruct (foldl f (now, false) (domains m)) as [next b].
  destruct b; [done|]. intros _. by apply Hg.
Qed.

Lemma expiry_pointwise ds ds' :
  length ds' = length ds →
  (∀ j d, ds !! j = Some d → ∃ d', ds' !! j = Some d' ∧ expires d' = expires d) →
  expires <$> ds' = expires <$> ds.
Proof.
  intros Hlen Hx. apply list_eq. intros j. rewrite !list_lookup_fmap.
  destruct (ds !! j) as [d|] eqn:Hd.
  - destruct (Hx j d Hd) as (d' & -> & He). cbn. by rewrite He.
  - apply lookup_ge_None in Hd. by rewrite (proj2 (lookup_ge_None ds' j)) by lia.
Qed.

(** A recipient keeps its address, its domain and the flags of the envelope; its
    word of flags stays one. *)
Definition kept (r r' : Recipient) : Prop :=
  domain_idx r' = domain_idx r ∧ address r' = address r ∧
  (∀ f, fits 32 f → rcpt_has_flag r' f = rcpt_has_flag r f) ∧
  (fits 64 (r_flags r) → fits 64 (r_flags r')).

#[export] Instance kept_preorder : PreOrder kept.
Proof.
  split; [by intros r|]. intros r1 r2 r3 (D1 & A1 & L1 & W1) (D2 & A2 & L2 & W2).
  split_and!; [congruence|congruence| |by auto]. intros f Hf. by rewrite L2, L1.
Qed.

(** Everything but the recipients and the domains is as before, a recipient is the
    same one, and a domain expires when it did. *)
Record carries (m m' : Message) : Prop := {
  ca_envelope : m' = with_recipients (recipients m') (with_domains (domains m') m);
  ca_expiry : expires <$> domains m' = expires <$> domains m;
  ca_kept : Forall2 kept (recipients m) (recipients m');
}.

#[export] Instance carries_preorder : PreOrder carries.
Proof.
  split.
  - intros m. split; [by destruct m|done|reflexivity].
  - intros m1 m2 m3 [E1 X1 K1] [E2 X2 K2]. split; [|congruence|by etrans]. rewrite E2, E1. done.
Qed.

Lemma kept_pointwise (ds : list Domain) (rs rs' : list Recipient) :
  Forall (λ r, (domain_idx r < length ds)%nat) rs → length rs' = length rs →
  (∀ i r d, rs !! i = Some r → ds !! domain_idx r = Some d → ∃ r', rs' !! i = Some r' ∧ kept r r') →
  Forall2 kept rs rs'.
Proof.
  intros Hok Hlen Hk. apply Forall2_same_length_lookup. split; [done|]. intros i r r' Hr Hr'.
  rewrite Forall_lookup in Hok. destruct (lookup_lt_is_Some_2 _ _ (Hok i r Hr)) as [d Hd].
  destruct (Hk i r d Hr Hd) as (r1 & Hr1 & ?). by assert (r1 = r') as -> by congruence.
Qed.

Lemma carries_works m ds' rs' :
  rcpts_ok m → works (domains m, recipients m) (ds', rs') →
  carries m (with_recipients rs' (with_domains ds' m)).
Proof.
  intros Hok (Hlen & Hlenr & Hx & Hf)%works_tracks. split; [done|by apply expiry_pointwise|].
  apply (kept_pointwise (domains m)); [done|done|]. intros i r d Hr Hd.
  destruct (Hf i r d Hr Hd) as (r' & d' & Hr' & _ & Hfo). exists r'. split; [done|]. split_and!; apply Hfo.
Qed.

Section Tasks.
Context `{KvStore DB} `{MessageCodec} `{SmtpProto} `{!SmtpProtoLaw}.
Context {R : Type} (gen_range : R → Z → Z * R) (xxh3_64 : bytes → Z) (seed : R).
Context (blob_hash_of : bytes → bytes).

#[local] Abbreviation send_dsn := (send_dsn gen_range xxh3_64 seed blob_hash_of).
#[local] Abbreviation deliver_task := (deliver_task gen_range xxh3_64 seed blob_hash_of).

(** The tasks that a message sees until it is removed, with all notifications. *)
Fixpoint deliver_tasks (tasks : list (TaskAnswers * QueueEventLock)) (m : Message) (sv : Server DB)
    : option (Message * bool * list Dsn * Server DB) :=
  match tasks with
  | [] => Some (m, false, [], sv)
  | (a, event) :: tasks =>
      r ← deliver_task a event m sv;
      if tr_removed r then Some (tr_message r, true, tr_dsns r, tr_server r)
      else
        '(m, removed, dsns, sv) ← deliver_tasks tasks (tr_message r) (tr_server r);
        Some (m, removed, tr_dsns r ++ dsns, sv)
  end.

Lemma send_dsn_spec a m (sv : Server DB) :
  rcpts_ok m → ∃ dsn m' sv', send_dsn a m sv = Some (dsn, m', sv') ∧ informs (bool_decide (return_path m = [])) m dsn m'.
Proof.
  intros Hok. unfold SmtpDelivery.send_dsn. rewrite log_dsn_some by done. cbn [mbind option_bind].
  case_bool_decide as Hp; cbn [negb].
  - destruct (handle_double_bounce_spec (dn_now a) m Hok) as (m' & -> & Hinf). by do 3 eexists.
  - destruct (build_dsn_spec (dn_now a) (dn_intervals a) m Hok) as (dsn & m' & -> & Hinf). cbn [mbind option_bind].
    destruct dsn as [dsn|]; [|by do 3 eexists]. destruct (queue _ _ _ _ _ _ _ _ _ _). by do 3 eexists.
Qed.

(** What one task does to the account of its message. *)
Record task_done (a : TaskAnswers) (m : Message) (dsns : list Dsn) (res : TaskResult (DB := DB)) : Prop := {
  td_ledger : ledger (tr_message res) (dsns ++ tr_dsns res);
  td_carries : carries m (tr_message res);
  td_removed : tr_removed res = true →
    informed (tr_message res) ∧ Forall (λ d, is_live (d_status d) = false) (domains (tr_message res));
  td_expired : Forall (λ d, expires d ≤ tk_pending_now a) (domains m) → tr_removed res = true;
}.

Lemma carries_informs bounce m dsn m' : rcpts_ok m → informs bounce m dsn m' → carries m m'.
Proof.
  intros Hok (Hm & Hlen & Hlenr & Hx & Hf). split; [done| |].
  - apply expiry_pointwise; [done|]. intros j d Hd. destruct (Hx j d Hd) as (d' & ? & _ & ?). by exists d'.
  - apply (kept_pointwise (domains m)); [done|done|]. intros i r d Hr Hd.
    destruct (Hf i r d Hr Hd) as (r' & Hr' & Hn & _). exists r'. split; [done|]. split_and!; apply Hn.
Qed.

Lemma ledger_works m dsns ds' rs' :
  ledger m dsns → works (domains m, recipients m) (ds', rs') → ledger (with_recipients rs' (with_domains ds' m)) dsns.
Proof.
  intros Hle Hw. apply ledger_tracks; [done|by apply works_tracks|]. apply (works_sound _ _ Hw), Hle.
Qed.

(** The domains that do not live after a notification are those before. *)
Lemma informs_live bounce m dsn m' :
  informs bounce m dsn m' → Forall (λ d, is_live (d_status d) = false) (domains m) →
  Forall (λ d, is_live (d_status d) = false) (domains m').
Proof.
  intros (_ & Hlen & _ & Hx & _) Hall. rewrite Forall_lookup in *. intros j d' Hd'.
  destruct (lookup_lt_is_Some_2 (domains m) j) as [d Hd]; [rewrite <- Hlen; by eapply lookup_lt_Some|].
  destruct (Hx j d Hd) as (d1 & Hd1 & Hs & _). assert (d1 = d') as -> by congruence. rewrite Hs. by eapply Hall.
Qed.

Lemma option_list_omap (dsns : list (option Dsn)) : omap id dsns = dsns ≫= option_list.
Proof. induction dsns as [|[x|] l IH]; cbn; by rewrite ?IH. Qed.

Lemma conclude_spec a event m on_hold dsns sv :
  let res := conclude gen_range xxh3_64 seed a event m on_hold dsns sv in
  tr_message res = m ∧ tr_dsns res = omap id dsns ∧
  (tr_removed res = true → Forall (λ d, is_live (d_status d) = false) (domains m)).
Proof.
  unfold conclude. destruct (negb _).
  { by destruct (save_changes _ _ _ _ _ _ _ _). }
  destruct (next_event (tk_next_now a) m) eqn:Hne.
  - by destruct (save_changes _ _ _ _ _ _ _ _).
  - destruct (remove _ _ _ _ _ _ _). split_and!; [done|done|]. intros _. by eapply next_event_none.
Qed.

Lemma throttled_spec a event err m dsns sv :
  let res := throttled gen_range xxh3_64 seed a event err m dsns sv in
  tr_message res = m ∧ tr_dsns res = omap id dsns ∧ tr_removed res = false.
Proof. destruct err; cbn; by destruct (save_changes _ _ _ _ _ _ _ _). Qed.

Lemma deliver_task_spec a event m dsns (sv : Server DB) :
  (∀ i, dm_schedule (tk_domain a i) ≠ []) → ledger m dsns →
  ∃ res, deliver_task a event m sv = Some res ∧ task_done a m dsns res.
Proof.
  intros Hsched Hle. unfold SmtpDelivery.deliver_task, has_pending_delivery.
  pose proof (expire_domains_works (tk_pending_now a) [] (domains m) (recipients m)) as Hexp. cbn [length app] in Hexp.
  destruct (expire_domains _ 0 _ _) as [[ds1 rs1] pending]. destruct Hexp as (Hw & Hlive & Hdead).
  pose proof (ledger_works _ _ _ _ Hle Hw) as Hle1. pose proof (carries_works _ _ _ (proj1 (le_sound _ _ Hle)) Hw) as Hc1.
  set (m1 := with_recipients rs1 (with_domains ds1 m)) in *.
  destruct (send_dsn_spec (tk_dsn1 a) m1 sv) as (dsn1 & m2 & sv2 & -> & Hinf2); [apply Hle1|].
  pose proof (ledger_informs _ _ _ _ Hle1 Hinf2) as Hle2. pose proof (carries_informs _ _ _ _ (proj1 (le_sound _ _ Hle1)) Hinf2) as Hc2.
  assert (carries m m2) as Hc by (by etrans). cbn [mbind option_bind].
  assert (Forall (λ d, expires d ≤ tk_pending_now a) (domains m) → pending = false) as Hexpired.
  { intros Hx. apply Hdead. eapply Forall_impl; [exact Hx|]. auto. }
  destruct pending.
  2: { destruct (remove _ _ _ _ _ _ _). eexists. split; [done|]. split; cbn [finish tr_message tr_dsns tr_removed].
       - rewrite option_list_omap. cbn. by rewrite app_nil_r.
       - done.
       - intros _. split; [eapply informs_informed; [apply Hle1|done]|]. eapply informs_live; [done|]. by apply Hlive.
       - done. }
  destruct (tk_check_now a <? _).
  { destruct (save_changes _ _ _ _ _ _ _ _). eexists. split; [done|].
    split; cbn [finish tr_message tr_dsns tr_removed]; [|done|done|by intros ?%Hexpired].
    rewrite option_list_omap. cbn. by rewrite app_nil_r. }
  destruct (tk_sender_throttle a) as [err|].
  { eexists. split; [done|]. destruct (throttled_spec a event err m2 [dsn1] sv2) as (Hm & Hd & Hr).
    split; rewrite ?Hm, ?Hd, ?Hr; [|done|done|by intros ?%Hexpired]. rewrite option_list_omap. cbn. by rewrite app_nil_r. }
  destruct (domain_loop_works (with_recipients [] m2) (tk_domain a) [] (domains m2) (recipients m2) [] Hsched)
    as (ds3 & rs3 & oh & Hloop & Hw3). cbn [length app] in Hloop, Hw3. rewrite Hloop. cbn [mbind option_bind].
  pose proof (ledger_works _ _ _ _ Hle2 Hw3) as Hle3. pose proof (carries_works _ _ _ (proj1 (le_sound _ _ Hle2)) Hw3) as Hc3.
  set (m3 := with_recipients rs3 (with_domains ds3 m2)) in *.
  destruct (send_dsn_spec (tk_dsn2 a) m3 sv2) as (dsn2 & m4 & sv4 & -> & Hinf4); [apply Hle3|].
  pose proof (ledger_informs _ _ _ _ Hle3 Hinf4) as Hle4. pose proof (carries_informs _ _ _ _ (proj1 (le_sound _ _ Hle3)) Hinf4) as Hc4.
  cbn [mbind option_bind]. eexists. split; [done|].
  destruct (conclude_spec a event m4 oh [dsn1; dsn2] sv4) as (Hm & Hd & Hr).
  split; rewrite ?Hm, ?Hd.
  - rewrite option_list_omap. cbn. by rewrite app_nil_r, app_assoc.
  - etrans; [exact Hc|]. by etrans.
  - intros Hrem. split; [eapply informs_informed; [apply Hle3|done]|by apply Hr].
  - by intros ?%Hexpired.
Qed.

(** A history leaves the account right. *)
Record history_done (m m' : Message) (removed : bool) (dsns : list Dsn) : Prop := {
  hd_ledger : ledger m' dsns;
  hd_carries : carries m m';
  hd_removed : removed = true → informed m' ∧ Forall (λ d, is_live (d_status d) = false) (domains m');
}.

Lemma deliver_tasks_spec tasks m dsns (sv : Server DB) :
  Forall (λ t : TaskAnswers * QueueEventLock, ∀ i, dm_schedule (tk_domain t.1 i) ≠ []) tasks → ledger m dsns →
  ∃ m' removed dsns' sv', deliver_tasks tasks m sv = Some (m', removed, dsns', sv') ∧
    history_done m m' removed (dsns ++ dsns').
Proof.
  intros Hsched. revert m dsns sv. induction Hsched as [|[a event] tasks Ha Hsched IH]; intros m dsns sv Hle.
  - do 4 eexists. split; [done|]. rewrite app_nil_r. by split.
  - cbn [deliver_tasks]. destruct (deliver_task_spec a event m dsns sv Ha Hle) as (res & -> & Hdone).
    cbn [mbind option_bind]. destruct (tr_removed res) eqn:Hrem.
    + do 4 eexists. split; [done|]. split; [apply Hdone..|]. intros _. by apply Hdone.
    + destruct (IH (tr_message res) (dsns ++ tr_dsns res) (tr_server res) (td_ledger _ _ _ _ Hdone))
        as (m' & removed & dsns' & sv' & -> & [Hl Hc Hr]).
      do 4 eexists. split; [done|]. rewrite app_assoc. split; [done| |done]. etrans; [apply Hdone|done].
Qed.
End Tasks.
