(* ===== verification/SmtpWorker.v ===== *)
(** * The workers of the SMTP queue

    What a message sees from the first attempt at its delivery until it is removed
    (crates/smtp/src/outbound/delivery.rs and queue/dsn.rs, modelled in SmtpDelivery.v),
    and what the tasks leave in the queue (SmtpQueue.v): the account of recipients and
    notifications, the widths of the fields, and the rows of the store. *)

From S2P Require Import Prelude StoreKeys KvStore StoreTxn SmtpQueue SmtpDelivery.

(** ** The account of a message *)

(** A message as the sessions queue it: no notification was sent. *)
Definition unreported (m : Message) : Prop :=
  sound (domains m) (recipients m) ∧
  Forall (λ r, rcpt_has_flag r RCPT_DSN_SENT = false) (recipients m).

(** Its domain failed for good while it had a temporary failure of its own. *)
Definition dropped (d : Domain) (r : Recipient) : Prop :=
  match r_status r, d_status d with TemporaryFailure _, PermanentFailure _ => True | _, _ => False end.

Definition once (b : bool) : nat := if b then 1 else 0.

(** How the account of a recipient [r0] with domain [d] ends: its last state [r], and
    how often notifications to the sender list it as failed and as delivered. *)
Definition account_ok `{SmtpProto} (m : Message) (r0 : Recipient) (d : Domain) (r : Recipient)
    (failed success : nat) : Prop :=
  let asked := negb (bool_decide (return_path m = [])) && negb (rcpt_has_flag r0 RCPT_NOTIFY_NEVER) in
  match final_report d r with
  | ReportSuccess => failed = 0%nat ∧ success = once (asked && rcpt_has_flag r0 RCPT_NOTIFY_SUCCESS)
  | ReportFailed => failed = once (asked && rcpt_has_flag r0 RCPT_NOTIFY_FAILURE) ∧ success = 0%nat
  | _ => dropped d r ∧ failed = 0%nat ∧ success = 0%nat
  end.

(** The schedule that a task retries by is not empty. *)
Definition schedules_ok (tasks : list (TaskAnswers * QueueEventLock)) : Prop :=
  Forall (λ t, ∀ i, dm_schedule (tk_domain t.1 i) ≠ []) tasks.

Section Accounts.
Context `{SmtpProto} `{!SmtpProtoLaw}.

Lemma unreported_ledger m : unreported m → ledger m [].
Proof.
  intros [Hs Hsent]. split; [done|]. intros i r d Hr _. rewrite Forall_lookup in Hsent.
  unfold owed. rewrite (Hsent i r Hr), !andb_false_r. done.
Qed.

Lemma owed_le_1 m d r : (owed m d r ReportFailed + owed m d r ReportSuccess ≤ 1)%nat.
Proof.
  unfold owed. repeat case_bool_decide; destruct (rcpt_has_flag r RCPT_DSN_SENT); cbn; try lia; try congruence;
    repeat match goal with |- context [if ?b then _ else _] => destruct b end; lia.
Qed.

Lemma not_final_dropped ds rs d r :
  done_ok ds rs → r ∈ rs → ds !! domain_idx r = Some d → is_live (d_status d) = false →
  match final_report d r with ReportSuccess | ReportFailed => True | _ => dropped d r end.
Proof.
  intros Hdone Hr Hd Hl. specialize (Hdone r d Hr Hd). unfold final_report, dropped.
  destruct (d_status d) as [|[]|e|e]; try done; destruct (r_status r); try done; by discriminate Hdone.
Qed.

(** An account that is kept and closed. *)
Lemma account_closed m m' dsns i r0 r d :
  ledger m' dsns → informed m' → Forall (λ d, is_live (d_status d) = false) (domains m') →
  return_path m' = return_path m → kept r0 r →
  recipients m' !! i = Some r → domains m' !! domain_idx r = Some d →
  account_ok m r0 d r (told dsn_failed i dsns) (told dsn_success i dsns).
Proof.
  intros [[_ Hdone] Hle] Hinf Hlive Hp (_ & _ & Hlow & _) Hr Hd.
  destruct (Hle i r d Hr Hd) as (-> & -> & Hsent). specialize (Hinf i r d Hr Hd).
  rewrite Forall_lookup in Hlive. pose proof (not_final_dropped _ _ d r Hdone (list_elem_of_lookup_2 _ _ _ Hr) Hd (Hlive _ _ Hd)) as Hnf.
  assert (final_report d r = ReportFailed ∨ final_report d r = ReportSuccess → return_path m ≠ [] →
    rcpt_has_flag r RCPT_DSN_SENT = negb (rcpt_has_flag r RCPT_NOTIFY_NEVER)) as Hflag.
  { intros Hfin Hne. rewrite Hp in Hinf. destruct (rcpt_has_flag r RCPT_NOTIFY_NEVER); cbn [negb].
    - destruct (rcpt_has_flag r RCPT_DSN_SENT); [|done]. by destruct (Hsent eq_refl).
    - apply Hinf; [done|]. destruct Hfin as [?|?]; [by left|by right]. }
  unfold account_ok, owed, once. rewrite Hp.
  rewrite <- !Hlow by (apply notify_never_fits || apply notify_failure_fits || apply notify_success_fits).
  destruct (final_report d r) eqn:Hfin; cbn [report_flag]; case_bool_decide as Hpath; cbn [negb andb]; try done;
    rewrite ?Hflag by auto; rewrite ?andb_false_r; try done.
  all: by rewrite ?(bool_decide_eq_false_2 (_ = _)), ?(bool_decide_eq_true_2 (_ = _)), ?andb_false_r, ?andb_true_r by done.
Qed.
End Accounts.



(** ** Widths *)

(** The fields of a domain and of a recipient as the machine words they are. *)
Record domain_wf (d : Domain) : Prop := {
  wf_retry : fits 64 (due (retry d));
  wf_notify : fits 64 (due (notify d));
  wf_expires : fits 64 (expires d);
  wf_retries : fits 32 (inner (retry d));
  wf_notifies : fits 32 (inner (notify d));
}.

Definition message_wf (m : Message) : Prop :=
  Forall domain_wf (domains m) ∧ Forall (λ r, fits 64 (r_flags r)) (recipients m).

Definition throttle_wf (err : ThrottleError) : Prop :=
  match err with Rate retry_at => fits 64 retry_at | Concurrency _ => True end.

(** The throttles that an attempt may end with. *)
Definition throttles (attempt : DomainAttempt) : list ThrottleError :=
  match attempt with
  | AtThrottled err => [err]
  | AtHosts hosts =>
      h ← hosts;
      match h with
      | HostIps ips => ip ← ips; (match ip with IpThrottled err => [err] | _ => [] end)
      | HostFailed _ _ => []
      end
  | _ => []
  end.

Record task_wf (a : TaskAnswers) : Prop := {
  tw_domains i : Forall throttle_wf (throttles (dm_attempt (tk_domain a i)));
  tw_sender : from_option throttle_wf True (tk_sender_throttle a);
  tw_due_now : fits 64 (tk_due_now a);
  tw_next_now : fits 64 (tk_next_now a);
}.

Lemma set_domain_wf s r n d :
  domain_wf d → fits 64 (due r) → fits 32 (inner r) → fits 64 (due n) → fits 32 (inner n) →
  domain_wf (set_domain s r n d).
Proof. by intros []; split. Qed.

(** A domain gets words from words. *)
Ltac words_wf :=
  repeat match goal with H : domain_wf _ |- _ => destruct H end;
  apply set_domain_wf; [by split|..]; cbn [due inner]; (done || by apply wrap_fits).

Section Widths.
Context `{SmtpProto}.

Lemma try_domain_throttled m idx attempt rs err :
  try_domain m idx attempt rs = OutThrottled err → err ∈ throttles attempt.
Proof.
  destruct attempt as [err'|results|permanent e|hosts]; cbn [try_domain throttles].
  - intros [= ->]. by left.
  - by destruct (deliver_local _ _ _).
  - done.
  - generalize (Scheduled (T := ()) (E := Error)) as last.
    induction hosts as [|[permanent e|ips] hosts IH]; intros last; cbn [try_hosts]; [done| |].
    + intros Hin%IH. done.
    + destruct (try_ips m idx ips rs last) as [last'|o] eqn:Hips.
      * intros Hin%IH. apply elem_of_app. by right.
      * intros ->. apply elem_of_app. left. clear IH. revert last Hips.
        induction ips as [|[e|host e|permanent e|p a] ips IH]; intros last; cbn [try_ips]; [done| | |done|].
        -- intros [= ->]. by left.
        -- intros Hin%IH. done.
        -- by destruct (deliver m idx p a rs).
Qed.

Lemma set_status_wf now schedule s d d' : domain_wf d → set_status now schedule s d = Some d' → domain_wf d'.
Proof.
  intros Hd. unfold set_status, domain_retry. destruct (is_live s).
  - destruct (schedule !! _); [|done]. intros [= <-]. cbn. words_wf.
  - intros [= <-]. words_wf.
Qed.

Lemma domain_loop_wf m answers idx ds rs oh ds' rs' oh' :
  (∀ i, Forall throttle_wf (throttles (dm_attempt (answers i)))) → Forall domain_wf ds →
  domain_loop m answers idx ds rs oh = Some (ds', rs', oh') → Forall domain_wf ds'.
Proof.
  intros Ha. revert idx rs oh ds' rs' oh'.
  induction ds as [|d ds IH]; intros idx rs oh ds' rs' oh' Hds; cbn [domain_loop]; [by intros [= <- <- <-]|].
  apply Forall_cons in Hds as [Hd Hds].
  destruct (if is_due _ _ then _ else _) as [[[d1 rs1] oh1]|] eqn:Hone; [|done].
  cbn [mbind option_bind]. destruct (domain_loop _ _ _ ds rs1 oh1) as [[[ds2 rs2] oh2]|] eqn:Hrest; [|done].
  intros [= <- <- <-]. constructor; [|by eapply IH]. clear Hrest.
  destruct (is_due _ d); [|by injection Hone as <- <- <-].
  destruct (try_domain _ _ _ _) as [err|s rs3] eqn:Ht.
  - apply try_domain_throttled in Ht. pose proof (Ha idx) as He. rewrite Forall_forall in He. apply He in Ht.
    destruct err; injection Hone as <- <- <-; words_wf.
  - destruct (set_status _ _ s d) as [d3|] eqn:Hs; [|done]. injection Hone as <- <- <-. by eapply set_status_wf.
Qed.

Lemma expire_domains_wf now idx ds rs :
  Forall domain_wf ds → Forall domain_wf (expire_domains now idx ds rs).1.1.
Proof.
  intros Hds. revert idx rs. induction Hds as [|d ds Hd Hds IH]; intros idx rs; cbn [expire_domains]; [constructor|].
  destruct (match d_status d with Scheduled => _ | _ => _ end) as [[d1 rs1] p1] eqn:Hone.
  specialize (IH (S idx) rs1). destruct (expire_domains now (S idx) ds rs1) as [[ds2 rs2] p2].
  cbn. constructor; [|done].
  destruct (d_status d); [destruct (_ <=? _)| |destruct (_ <=? _)|]; injection Hone as <- <- <-; (done || words_wf).
Qed.

Lemma next_notify_wf now intervals d : domain_wf d → domain_wf (next_notify now intervals d).
Proof. intros Hd. unfold next_notify. destruct (_ && _); [|done]. destruct (_ ≫= _); words_wf. Qed.

Lemma build_dsn_wf now intervals m dsn m' :
  build_dsn now intervals m = Some (dsn, m') → Forall domain_wf (domains m) → Forall domain_wf (domains m').
Proof.
  unfold build_dsn. intros Hb Hd. destruct (report_loop _ _ _ _) as [[dsn1 rs]|]; [|done]. cbn in Hb.
  case_bool_decide; injection Hb as <- <-; [done|]. case_bool_decide; [done|]. cbn.
  apply Forall_lookup. intros j d Hj. rewrite list_lookup_imap in Hj.
  destruct (domains m !! j) as [d0|] eqn:Hd0; [|done]. injection Hj as <-. apply next_notify_wf.
  rewrite Forall_lookup in Hd. by eapply Hd.
Qed.

Lemma handle_double_bounce_wf now m m' :
  handle_double_bounce now m = Some m' → Forall domain_wf (domains m) → Forall domain_wf (domains m').
Proof.
  unfold handle_double_bounce. intros Hb Hd. destruct (mapM _ _); [|done]. injection Hb as <-. cbn.
  apply Forall_fmap. eapply Forall_impl; [exact Hd|]. intros d Hw. cbn. destruct (_ <=? now); [words_wf|done].
Qed.

Lemma foldl_inv {A B} (P : A → Prop) (f : A → B → A) (Q : B → Prop) a l :
  P a → Forall Q l → (∀ a b, P a → Q b → P (f a b)) → P (foldl f a l).
Proof. intros Ha Hl Hf. revert a Ha. induction Hl; intros a Ha; cbn; auto. Qed.

Lemma lower_fits next t : fits 64 next → fits 64 t → fits 64 (lower next t).
Proof. unfold lower. by destruct (t <? next). Qed.

Lemma next_event_fits now m t :
  fits 64 now → Forall domain_wf (domains m) → next_event now m = Some t → fits 64 t.
Proof.
  intros Hn Hd. unfold next_event. set (f := λ '(next, has_events) d, _).
  assert (fits 64 (foldl f (now, false) (domains m)).1) as Hf.
  { apply (foldl_inv (λ x, fits 64 x.1) f domain_wf); [done|done|]. intros [next b] d Hnext [Hr Hno He _ _].
    unfold f. destruct (is_live _); [|done]. destruct (_ || _); by repeat apply lower_fits. }
  destruct (foldl f (now, false) (domains m)) as [next []]; [|done]. by intros [= <-].
Qed.

Lemma earliest_fits f now m :
  fits 64 now → Forall domain_wf (domains m) → (∀ d, domain_wf d → fits 64 (f d)) → fits 64 (earliest f now m).
Proof.
  intros Hn Hd Hf. unfold earliest.
  apply (foldl_inv (fits 64) _ (λ x, fits 64 (f x.2))); [done| |].
  - apply Forall_lookup. intros i [pos d] Hi. rewrite list_lookup_imap in Hi.
    destruct (filter _ _ !! i) as [d0|] eqn:Hd0; [|done]. injection Hi as <- <-. cbn. apply Hf.
    apply list_elem_of_lookup_2, list_elem_of_filter in Hd0 as [_ Hin]. rewrite Forall_forall in Hd. by apply Hd.
  - intros next [pos d] Hnext Hd'. by destruct (_ || _).
Qed.

Lemma next_event_after_fits instant m :
  Forall domain_wf (domains m) → fits 64 (default u64_max (next_event_after instant m)).
Proof.
  intros Hd. unfold next_event_after.
  apply (foldl_inv (λ x, fits 64 (default u64_max x)) _ domain_wf); [by compute|done|].
  intros next d Hnext [Hr Hno He _ _]. destruct (is_live _); [|done].
  assert (∀ n t, fits 64 (default u64_max n) → fits 64 t → fits 64 (default u64_max (lower_after instant n t))) as Hl.
  { intros n t Hn Ht. unfold lower_after. by destruct (_ && _). }
  by repeat apply Hl.
Qed.
End Widths.

(** ** What a task leaves in the queue *)

(** The id of the message that a notification is sent with. *)
Definition dsn_id (a : DsnAnswers) : Z := default (dn_now a) (dn_generated a).
Definition dsn_wf (a : DsnAnswers) : Prop := fits 64 (dn_now a) ∧ fits 64 (dsn_id a).

Section Worker.
Context `{KvLaws DB} `{MessageCodec} `{SmtpProto} `{!SmtpProtoLaw}.
Context {R : Type} (gen_range : R → Z → Z * R) (xxh3_64 : bytes → Z) (seed : R).
Context (blob_hash_of : bytes → bytes).

#[local] Abbreviation send_dsn := (send_dsn gen_range xxh3_64 seed blob_hash_of).
#[local] Abbreviation deliver_task := (deliver_task gen_range xxh3_64 seed blob_hash_of).
#[local] Abbreviation spool_exec := (spool_exec (DB := DB) gen_range xxh3_64 seed blob_hash_of).
#[local] Abbreviation spool_spec := (spool_spec blob_hash_of).

(** What the queue holds for an id, after the notifications [dsns]. *)
Record entry_ok (dsns : list Dsn) (id : Z) (x : Message * Z) : Prop := {
  en_id : queue_id x.1 = id;
  en_id_fits : fits 64 id;
  en_due_fits : fits 64 x.2;
  en_wf : message_wf x.1;
  en_ledger : ledger x.1 dsns;
}.

(** At most messages with the given new ids are added to the queue. *)
Definition extends (ids : list Z) (sv sv' : Server DB) : Prop :=
  ∀ q leak, spool_rows q leak (store sv) → NoDup ids → Forall (λ i, q !! i = None) ids →
    ∃ q', spool_rows q' leak (store sv') ∧ (∀ i, i ∉ ids → q' !! i = q !! i) ∧
      ∀ i x, i ∈ ids → q' !! i = Some x → entry_ok [] i x.

Lemma extends_refl ids sv : extends ids sv sv.
Proof.
  intros q leak Hrows _ Hnew. exists q. split_and!; [done|done|]. intros i x Hi Hx.
  rewrite Forall_forall in Hnew. by rewrite Hnew in Hx.
Qed.

Lemma extends_app ids1 ids2 sv1 sv2 sv3 :
  extends ids1 sv1 sv2 → extends ids2 sv2 sv3 → extends (ids1 ++ ids2) sv1 sv3.
Proof.
  intros He1 He2 q leak Hrows (Hnd1 & Hdisj & Hnd2)%NoDup_app [Hq1 Hq2]%Forall_app.
  destruct (He1 q leak Hrows Hnd1 Hq1) as (q1 & Hrows1 & Hs1 & Hn1).
  destruct (He2 q1 leak Hrows1 Hnd2) as (q2 & Hrows2 & Hs2 & Hn2).
  { rewrite Forall_forall in *. intros i Hi. rewrite Hs1; [by apply Hq2|]. intros Hi1. by eapply Hdisj. }
  exists q2. split_and!; [done| |].
  - intros i Hi. rewrite elem_of_app in Hi. rewrite Hs2, Hs1; naive_solver.
  - intros i x [Hi|Hi]%elem_of_app Hx; [|by apply Hn2]. apply Hn1; [done|]. rewrite <- Hs2; [done|by apply Hdisj].
Qed.

Lemma send_dsn_extends a m sv dsn m' sv' :
  dsn_wf a → send_dsn a m sv = Some (dsn, m', sv') → extends [dsn_id a] sv sv'.
Proof.
  intros [Hnow Hid]. unfold SmtpDelivery.send_dsn. destruct (log_dsn m); [|done]. cbn [mbind option_bind].
  destruct (negb _).
  2: { destruct (handle_double_bounce _ _); [|done]. intros [= <- <- <-]. apply extends_refl. }
  destruct (build_dsn _ _ _) as [[[x|] m1]|]; [|intros [= <- <- <-]; apply extends_refl|done].
  cbn [mbind option_bind]. set (dm := add_recipient_parts _ _ _ _ _ _).
  destruct (queue _ _ _ _ _ _ _ _ _ _) as [ok sv1] eqn:Hq. intros [= <- <- <-] q leak Hrows _ [Hnew _]%Forall_cons.
  pose proof (queue_step gen_range xxh3_64 seed blob_hash_of (dn_now a) (dn_queue a) (dn_signature a)
    (dn_text a x m1) dm q leak sv Hrows) as Hstep.
  cbn [SmtpQueue.spool_exec] in Hstep. rewrite Hq in Hstep. cbn zeta iota in Hstep.
  assert (queue_id dm = dsn_id a) as Hdm by done.
  assert (domain_wf {| domain := return_path_domain m1; retry := {| due := dn_now a; inner := 0 |};
      notify := {| due := wrap 64 (dn_now a + (default (5 * 86400) (dn_expire a) + 10)); inner := 0 |};
      expires := wrap 64 (dn_now a + default (5 * 86400) (dn_expire a)); d_status := Scheduled |}) as Hdom.
  { split; cbn; (done || by apply wrap_fits). }
  assert (fits 64 (default 0 (next_event (dn_now a) (queued blob_hash_of (dn_signature a) (dn_text a x m1) dm)))) as Hdue.
  { destruct (next_event (dn_now a) _) as [t|] eqn:Hne; [|by compute].
    eapply next_event_fits; [exact Hnow| |exact Hne]. by constructor. }
  assert (spool_pre blob_hash_of (DoQueue (dn_now a) (dn_queue a) (dn_signature a) (dn_text a x m1) dm) q) as Hpre.
  { split_and!; [by rewrite Hdm|by rewrite Hdm|done]. }
  specialize (Hstep Hpre). destruct ok.
  - eexists. split; [exact Hstep|]. split.
    + intros i Hi. cbn. apply lookup_insert_ne. intros <-. apply Hi. by left.
    + intros i y ->%list_elem_of_singleton Hy. cbn in Hy. rewrite <- Hdm, lookup_insert_eq in Hy.
      injection Hy as <-. split; [done|done|done| |].
      * split; [by constructor|by repeat constructor].
      * apply unreported_ledger. split; [|by repeat constructor]. split; [repeat constructor|].
        intros r d Hr Hd Hst. cbn in Hr, Hd. apply list_elem_of_singleton in Hr as ->. cbn in Hd. by injection Hd as <-.
  - exists q. split_and!; [done|done|]. intros i y ->%list_elem_of_singleton Hy. by rewrite Hnew in Hy.
Qed.

Lemma send_dsn_wf a m sv dsn m' sv' :
  send_dsn a m sv = Some (dsn, m', sv') → Forall domain_wf (domains m) → Forall domain_wf (domains m').
Proof.
  unfold SmtpDelivery.send_dsn. destruct (log_dsn m); [|done]. cbn [mbind option_bind]. destruct (negb _).
  - destruct (build_dsn _ _ _) as [[[x|] m1]|] eqn:Hb; [| |done]; cbn [mbind option_bind].
    + destruct (queue _ _ _ _ _ _ _ _ _ _). intros [= <- <- <-]. by eapply build_dsn_wf.
    + intros [= <- <- <-]. by eapply build_dsn_wf.
  - destruct (handle_double_bounce _ _) eqn:Hb; [|done]. intros [= <- <- <-]. by eapply handle_double_bounce_wf.
Qed.

(** The write that a task ends with: the message is saved, at its event or a new one,
    or removed. *)
Definition ending (a : TaskAnswers) (event : QueueEventLock) (res : TaskResult (DB := DB)) (op : SpoolOp) : Prop :=
  (tr_removed res = true ∧ op = DoRemove (tk_engine a) (ev_due event) (tr_message res)) ∨
  (tr_removed res = false ∧ ∃ moved, op = DoSave (tk_engine a) moved (tr_message res) ∧
     from_option (λ x, x.1 = ev_due event ∧ fits 64 x.2) True moved).

(** The server is what the write makes of it, and the manager may be told. *)
Definition ends_with (a : TaskAnswers) (event : QueueEventLock) (sv : Server DB) (m : Message)
    (res : TaskResult (DB := DB)) : Prop :=
  tr_message res = m ∧
  ∃ op, ending a event res op ∧ store (tr_server res) = store (spool_exec op sv).2.

Lemma store_notify a e (sv : Server DB) : store (notify_manager a e sv) = store sv.
Proof. unfold notify_manager. by destruct (tk_channel a). Qed.

Lemma ends_save a event (sv : Server DB) m dsns prev next e :
  match prev, next with Some p, Some n => p = ev_due event ∧ fits 64 n | None, None => True | _, _ => False end →
  ends_with a event sv m
    (let '(_, sv) := save_changes gen_range xxh3_64 seed (tk_engine a) prev next m sv in
     finish m false dsns (notify_manager a e sv)).
Proof.
  intros Hm. destruct prev as [p|], next as [n|]; [|done|done|].
  - destruct (save_changes _ _ _ _ _ _ _ _) as [ok sv'] eqn:Hs. split; [done|].
    exists (DoSave (tk_engine a) (Some (p, n)) m). split; [right; split; [done|]; by exists (Some (p, n))|].
    cbn [SmtpQueue.spool_exec fmap option_fmap option_map fst snd]. rewrite Hs. apply store_notify.
  - destruct (save_changes _ _ _ _ _ _ _ _) as [ok sv'] eqn:Hs. split; [done|].
    exists (DoSave (tk_engine a) None m). split; [right; split; [done|]; by exists None|].
    cbn [SmtpQueue.spool_exec fmap option_fmap option_map]. rewrite Hs. apply store_notify.
Qed.

Lemma ends_remove a event (sv : Server DB) m dsns e :
  ends_with a event sv m
    (let '(_, sv) := remove gen_range xxh3_64 seed (tk_engine a) (ev_due event) m sv in
     finish m true dsns (notify_manager a e sv)).
Proof.
  destruct (remove _ _ _ _ _ _ _) as [ok sv'] eqn:Hs. split; [done|].
  exists (DoRemove (tk_engine a) (ev_due event) m). split; [by left|].
  cbn [SmtpQueue.spool_exec]. rewrite Hs. apply store_notify.
Qed.

Lemma conclude_ends a event m on_hold dsns (sv : Server DB) :
  fits 64 (tk_next_now a) → Forall domain_wf (domains m) →
  ends_with a event sv m (conclude gen_range xxh3_64 seed a event m on_hold dsns sv).
Proof.
  intros Hn Hd. unfold conclude. destruct (negb _); [by apply ends_save|].
  destruct (next_event (tk_next_now a) m) as [t|] eqn:Hne; [|apply ends_remove].
  apply ends_save. split; [done|]. by eapply next_event_fits.
Qed.

Lemma throttled_ends a event err m dsns (sv : Server DB) :
  throttle_wf err → Forall domain_wf (domains m) →
  ends_with a event sv m (throttled gen_range xxh3_64 seed a event err m dsns sv).
Proof.
  intros He Hd. destruct err as [limiter|retry_at]; unfold throttled; apply ends_save; [done|].
  split; [done|]. pose proof (next_event_after_fits (tk_next_now a) m Hd) as Hn. cbn in He. unfold fits in *. lia.
Qed.

(** A task sends at most its two notifications, and ends with one write. *)
Lemma deliver_task_ends a event m (sv : Server DB) res :
  task_wf a → dsn_wf (tk_dsn1 a) → dsn_wf (tk_dsn2 a) → Forall domain_wf (domains m) →
  deliver_task a event m sv = Some res →
  Forall domain_wf (domains (tr_message res)) ∧
  ∃ sv1, extends [dsn_id (tk_dsn1 a); dsn_id (tk_dsn2 a)] sv sv1 ∧ ends_with a event sv1 (tr_message res) res.
Proof.
  intros [Ha Hsend Hdue Hnext] Hw1 Hw2 Hm. unfold SmtpDelivery.deliver_task, has_pending_delivery.
  pose proof (expire_domains_wf (tk_pending_now a) 0 (domains m) (recipients m) Hm) as Hm1.
  destruct (expire_domains _ 0 _ _) as [[ds1 rs1] pending]. cbn [fst] in Hm1.
  destruct (send_dsn (tk_dsn1 a) _ sv) as [[[dsn1 m2] sv2]|] eqn:Hd1; [|done]. cbn [mbind option_bind].
  pose proof (send_dsn_wf _ _ _ _ _ _ Hd1 Hm1) as Hm2. apply send_dsn_extends in Hd1; [|done].
  assert (extends [dsn_id (tk_dsn1 a); dsn_id (tk_dsn2 a)] sv sv2) as Hext.
  { apply (extends_app [_] [_] sv sv2 sv2 Hd1), extends_refl. }
  destruct pending.
  2: { pose proof (ends_remove a event sv2 m2 [dsn1] Reload) as He. destruct (remove _ _ _ _ _ _ _).
       intros [= <-]. by eauto. }
  destruct (tk_check_now a <? next_delivery_event (tk_due_now a) m2).
  { pose proof (ends_save a event sv2 m2 [dsn1] (Some (ev_due event)) (Some (next_delivery_event (tk_due_now a) m2)) Reload)
      as He.
    destruct (save_changes _ _ _ _ _ _ _ _). intros [= <-]. split; [done|]. exists sv2. split; [done|]. apply He.
    split; [done|]. apply earliest_fits; [done|done|]. by intros d []. }
  destruct (tk_sender_throttle a) as [err|].
  { intros [= <-]. pose proof (throttled_ends a event err m2 [dsn1] sv2 Hsend Hm2) as He. pose proof He as [-> _]. by eauto. }
  destruct (domain_loop _ _ _ _ _ _) as [[[ds3 rs3] oh]|] eqn:Hloop; [|done]. cbn [mbind option_bind].
  assert (Forall domain_wf ds3) as Hm3 by (by eapply domain_loop_wf).
  destruct (send_dsn (tk_dsn2 a) _ sv2) as [[[dsn2 m4] sv4]|] eqn:Hd2; [|done]. cbn [mbind option_bind].
  pose proof (send_dsn_wf _ _ _ _ _ _ Hd2 Hm3) as Hm4. apply send_dsn_extends in Hd2; [|done].
  intros [= <-]. pose proof (conclude_ends a event m4 oh [dsn1; dsn2] sv4 Hnext Hm4) as He. pose proof He as [-> _].
  split; [done|]. exists sv4. split; [|done]. by apply (extends_app [_] [_] sv sv2 sv4).
Qed.

(** A write succeeds when the engine does. *)
Lemma ending_ok op engine (sv : Server DB) :
  (∃ moved m, op = DoSave engine moved m) ∨ (∃ prev m, op = DoRemove engine prev m) →
  (spool_exec op sv).1 = bool_decide (engine = None).
Proof.
  intros [(moved & m & ->)|(prev & m & ->)]; cbn [SmtpQueue.spool_exec].
  - unfold save_changes. destruct (release_quota m builder_new) as [m' b].
    set (b' := match fst <$> moved with Some _ => _ | None => _ end).
    assert (plain (DB := DB) b') as Hb' by (unfold b'; destruct moved as [[prev next]|];
      cbn [fmap option_fmap option_map fst snd]; plain_batch).
    rewrite store_write_plain by (unfold set; apply plain_app; split; [done|plain_batch]). by destruct engine.
  - unfold remove, give_back, add. set (weight k := i64 (- quota_weight (size m) k)).
    rewrite (foldl_batch (add_op weight)). rewrite store_write_plain by plain_batch. by destruct engine.
Qed.

Definition task_ids (a : TaskAnswers) : list Z := [dsn_id (tk_dsn1 a); dsn_id (tk_dsn2 a)].

Definition task_ok (a : TaskAnswers) : Prop :=
  task_wf a ∧ dsn_wf (tk_dsn1 a) ∧ dsn_wf (tk_dsn2 a) ∧ ∀ i, dm_schedule (tk_domain a i) ≠ [].

(** What is in the queue for the id of the message after its task. *)
Definition task_entry (a : TaskAnswers) (before : Message * Z) (res : TaskResult (DB := DB))
    (after : option (Message * Z)) : Prop :=
  match tk_engine a with
  | Some _ => after = Some before
  | None =>
      if tr_removed res then after = None
      else ∃ due, after = Some ((release_quota (tr_message res) builder_new).1, due) ∧ fits 64 due
  end.

(** The last write of a task, on the queue as its notifications left it. *)
Lemma ending_rows a event m (res : TaskResult (DB := DB)) op q leak (sv : Server DB) :
  spool_rows q leak (store sv) → q !! queue_id m = Some (m, ev_due event) →
  fits 64 (queue_id m) → fits 64 (ev_due event) → carries m (tr_message res) → ending a event res op →
  ∃ q' leak', spool_rows q' leak' (store (spool_exec op sv).2) ∧
    (∀ i, i ≠ queue_id m → q' !! i = q !! i) ∧ task_entry a (m, ev_due event) res (q' !! queue_id m).
Proof.
  intros Hrows Hq Hid Hdue Hc Hend.
  assert (queue_id (tr_message res) = queue_id m ∧ quota_keys (tr_message res) = quota_keys m ∧
          size (tr_message res) = size m) as (Hi & Hk & Hs) by (by rewrite (ca_envelope _ _ Hc)).
  assert ((spool_exec op sv).1 = bool_decide (tk_engine a = None)) as Hok.
  { apply ending_ok. destruct Hend as [[_ ->]|(_ & moved & -> & _)]; [right|left]; by do 2 eexists. }
  assert (spool_pre blob_hash_of op q) as Hpre.
  { destruct Hend as [[_ ->]|(_ & moved & -> & Hm)]; cbn [spool_pre]; rewrite Hi, Hq; by split_and!. }
  pose proof (spool_step gen_range xxh3_64 seed blob_hash_of op q leak sv Hrows Hpre) as Hstep.
  destruct (spool_exec op sv) as [ok sv']. cbn [fst snd] in *. subst ok. unfold task_entry.
  case_bool_decide as He; cbn zeta in Hstep.
  2: { exists q, leak. split_and!; [done|done|]. destruct (tk_engine a); [|done]. done. }
  rewrite He. destruct Hend as [[-> ->]|(-> & moved & -> & Hm)]; cbn [SmtpQueue.spool_spec fst snd] in Hstep;
    rewrite Hi in Hstep; do 2 eexists; (split; [exact Hstep|]).
  - split; [intros i Hne; by apply lookup_delete_ne|apply lookup_delete_eq].
  - split; [intros i Hne; by apply lookup_alter_ne|]. rewrite lookup_alter_eq, Hq. eexists. split; [done|].
    destruct moved as [[p n]|]; cbn in Hm |- *; [apply Hm|done].
Qed.

Lemma task_rows a event m dsns (res : TaskResult (DB := DB)) q leak (sv : Server DB) :
  task_ok a → spool_rows q leak (store sv) → q !! queue_id m = Some (m, ev_due event) →
  entry_ok dsns (queue_id m) (m, ev_due event) → NoDup (task_ids a) → Forall (λ i, q !! i = None) (task_ids a) →
  deliver_task a event m sv = Some res → task_done a m dsns res →
  ∃ q' leak', spool_rows q' leak' (store (tr_server res)) ∧
    (∀ i, i ≠ queue_id m → i ∉ task_ids a → q' !! i = q !! i) ∧
    (∀ i x, i ∈ task_ids a → q' !! i = Some x → entry_ok [] i x) ∧
    task_entry a (m, ev_due event) res (q' !! queue_id m) ∧ Forall domain_wf (domains (tr_message res)).
Proof.
  intros (Ha & Hw1 & Hw2 & _) Hrows Hq Hen Hnd Hnew Hrun Hdone.
  destruct (deliver_task_ends a event m sv res Ha Hw1 Hw2 (proj1 (en_wf _ _ _ Hen)) Hrun)
    as (Hwf & sv1 & Hext & _ & op & Hend & Hstore).
  destruct (Hext q leak Hrows Hnd Hnew) as (q1 & Hrows1 & Hs1 & Hn1). fold (task_ids a) in Hs1, Hn1.
  assert (queue_id m ∉ task_ids a) as Hni.
  { intros Hin. rewrite Forall_forall in Hnew. by rewrite Hnew in Hq. }
  destruct (ending_rows a event m res op q1 leak sv1) as (q2 & leak2 & Hrows2 & Hs2 & Hentry); try done.
  { by rewrite Hs1. }
  { apply Hen. } { apply Hen. } { apply Hdone. }
  exists q2, leak2. rewrite Hstore. split_and!; [done| | |done|done].
  - intros i Hi1 Hi2. by rewrite Hs2, Hs1.
  - intros i x Hi Hx. apply Hn1; [done|]. rewrite <- Hs2; [done|]. by intros ->.
Qed.

(** *** Workers that take events from the queue *)

Record WorkerRun := {
  wr_now : Z;
  wr_lock : option EngineError;
  wr_clear : option EngineError;
  wr_answers : TaskAnswers;
  wr_event : QueueEventLock;
}.

(** One worker after the other; the results of the tasks, with their messages. *)
Fixpoint worker_run (runs : list WorkerRun) (sv : Server DB)
    : option (list (Z * TaskResult (DB := DB)) * Server DB) :=
  match runs with
  | [] => Some ([], sv)
  | w :: runs =>
      '(res, sv) ← try_deliver gen_range xxh3_64 seed blob_hash_of (wr_now w) (wr_lock w) (wr_clear w)
                     (wr_answers w) (wr_event w) sv;
      '(results, sv) ← worker_run runs sv;
      Some ((if res is Some r then [(ev_queue_id (wr_event w), r)] else []) ++ results, sv)
  end.

Definition run_ok (w : WorkerRun) : Prop :=
  task_ok (wr_answers w) ∧ fits 64 (ev_due (wr_event w)) ∧ fits 64 (ev_queue_id (wr_event w)).

(** A worker gets the lock of an event in the queue, and with it the message; or
    nothing changes. *)
Lemma try_deliver_rows `{!MessageCodecLaw} w q leak (sv : Server DB) :
  spool_rows q leak (store sv) → run_ok w →
  let go := try_deliver gen_range xxh3_64 seed blob_hash_of (wr_now w) (wr_lock w) (wr_clear w)
              (wr_answers w) (wr_event w) sv in
  go = Some (None, sv) ∨
  ∃ m event sv1, q !! ev_queue_id (wr_event w) = Some (m, ev_due event) ∧
    spool_rows q leak (store sv1) ∧
    go = (r ← deliver_task (wr_answers w) event m sv1; Some (Some r, tr_server r)).
Proof.
  intros Hrows (_ & Hd & Hid). cbn zeta. unfold try_deliver.
  pose proof (lock_step gen_range xxh3_64 seed blob_hash_of (wr_now w) (wr_lock w) (wr_event w) q leak sv Hrows Hd Hid)
    as Hrows1. cbn [SmtpQueue.spool_exec] in Hrows1. rewrite try_lock_spec in Hrows1 |- *.
  destruct (decide _) as [[Hlock _]|_]; [|left; by destruct sv]. right. cbn [snd on_store store ev_queue_id ev_due] in *.
  unfold lock_of in Hlock.
  assert (snd <$> q !! ev_queue_id (wr_event w) = Some (ev_due (wr_event w))) as Hq.
  { apply (rows_event _ _ _ Hrows); [done|done|]. destruct (kv_get _ _ _); by eauto. }
  destruct (q !! ev_queue_id (wr_event w)) as [[m d]|] eqn:He; [|done]. injection Hq as ->.
  rewrite (read_message_rows q leak) by done. rewrite He.
  do 3 eexists. split; [|split]; [| |done]; done.
Qed.

Lemma release_quota_only m :
  let m' := (release_quota m builder_new).1 in
  recipients m' = recipients m ∧ domains m' = domains m ∧ return_path m' = return_path m ∧ queue_id m' = queue_id m.
Proof. unfold release_quota. repeat case_bool_decide; try done. by destruct (foldl _ _ _). Qed.

Lemma ledger_only m m' dsns :
  recipients m' = recipients m → domains m' = domains m → return_path m' = return_path m →
  ledger m dsns → ledger m' dsns.
Proof.
  intros Hr Hd Hp [Hs Hle]. split; rewrite Hr, Hd; [done|]. intros i r d Hi Hj. unfold owed. rewrite Hp.
  by apply Hle.
Qed.

(** The same mail: its sender and recipients. *)
Definition follows (m m' : Message) : Prop :=
  return_path m' = return_path m ∧ Forall2 kept (recipients m) (recipients m').

#[export] Instance follows_preorder : PreOrder follows.
Proof.
  split; [by intros m; split|]. intros m1 m2 m3 [P1 K1] [P2 K2]. split; [congruence|by etrans].
Qed.

Lemma carries_follows m m' : carries m m' → follows m m'.
Proof. intros Hc. split; [by rewrite (ca_envelope _ _ Hc)|apply Hc]. Qed.

Lemma kept_flags rs rs' :
  Forall2 kept rs rs' → Forall (λ r, fits 64 (r_flags r)) rs → Forall (λ r, fits 64 (r_flags r)) rs'.
Proof.
  intros Hk Hf. rewrite Forall_lookup in *. intros i r' Hr'.
  destruct (Forall2_lookup_r _ _ _ _ _ Hk Hr') as (r & Hr & _ & _ & _ & Hw). by eapply Hw, Hf.
Qed.

Lemma saved_entry m dsns (res : TaskResult (DB := DB)) a d due :
  entry_ok dsns (queue_id m) (m, d) → task_done a m dsns res → Forall domain_wf (domains (tr_message res)) →
  fits 64 due →
  entry_ok (dsns ++ tr_dsns res) (queue_id m) ((release_quota (tr_message res) builder_new).1, due).
Proof.
  intros Hen [Hle Hc _ _] Hwf Hdue. destruct (release_quota_only (tr_message res)) as (Hr & Hd & Hp & Hi).
  pose proof (ca_envelope _ _ Hc) as Hm. split; cbn [fst snd].
  - rewrite Hi, Hm. done.
  - apply Hen.
  - done.
  - split; rewrite ?Hd, ?Hr; [done|]. eapply kept_flags; [apply Hc|]. apply Hen.
  - by apply (ledger_only (tr_message res)).
Qed.

(** The notifications about a message among the results of tasks. *)
Definition dsns_of (id : Z) (results : list (Z * TaskResult (DB := DB))) : list Dsn :=
  x ← results; if decide (x.1 = id) then tr_dsns x.2 else [].

(** The message of a task that ended an account. *)
Definition closed (m : Message) (dsns : list Dsn) (res : TaskResult (DB := DB)) : Prop :=
  tr_removed res = true ∧ follows m (tr_message res) ∧ ledger (tr_message res) dsns ∧
  informed (tr_message res) ∧ Forall (λ d, is_live (d_status d) = false) (domains (tr_message res)).

(** What one worker does to the queue: [acc] are the notifications so far. *)
Record run_done (w : WorkerRun) (q q' : Spool) (acc : Z → list Dsn)
    (results : list (Z * TaskResult (DB := DB))) : Prop := {
  rd_entries i x : q' !! i = Some x → i ∈ task_ids (wr_answers w) ∧ acc i = [] ∨ is_Some (q !! i) →
    entry_ok (acc i ++ dsns_of i results) i x;
  rd_absent i : q !! i = None → dsns_of i results = [] ∧ (i ∉ task_ids (wr_answers w) → q' !! i = None);
  rd_mail i m d : q !! i = Some (m, d) →
    (∃ x, q' !! i = Some x ∧ follows m x.1) ∨
    (q' !! i = None ∧ ∃ res, (i, res) ∈ results ∧ closed m (acc i ++ dsns_of i results) res);
}.

Lemma worker_step `{!MessageCodecLaw} w q leak acc (sv : Server DB) :
  spool_rows q leak (store sv) → run_ok w → tk_engine (wr_answers w) = None →
  (∀ i x, q !! i = Some x → entry_ok (acc i) i x) →
  NoDup (task_ids (wr_answers w)) → Forall (λ i, q !! i = None) (task_ids (wr_answers w)) →
  ∃ res sv' q' leak',
    try_deliver gen_range xxh3_64 seed blob_hash_of (wr_now w) (wr_lock w) (wr_clear w)
      (wr_answers w) (wr_event w) sv = Some (res, sv') ∧
    spool_rows q' leak' (store sv') ∧
    run_done w q q' acc (if res is Some r then [(ev_queue_id (wr_event w), r)] else []).
Proof.
  intros Hrows Hok Heng Hen Hnd Hnew.
  destruct (try_deliver_rows w q leak sv Hrows Hok) as [->|(m & event & sv1 & Hq & Hrows1 & ->)].
  { exists None, sv, q, leak. split_and!; [done|done|]. split.
    - intros i x Hx _. rewrite app_nil_r. by apply Hen.
    - by intros i Hi.
    - intros i m d Hi. left. exists (m, d). split; [done|reflexivity]. }
  set (id := ev_queue_id (wr_event w)) in *. pose proof (Hen _ _ Hq) as Hid.
  assert (queue_id m = id) as Hqid by apply Hid.
  destruct (deliver_task_spec gen_range xxh3_64 seed blob_hash_of (wr_answers w) event m (acc id) sv1)
    as (res & Hrun & Hdone); [apply Hok|apply Hid|].
  destruct (task_rows (wr_answers w) event m (acc id) res q leak sv1) as (q' & leak' & Hrows' & Hs & Hn & Hentry & Hwf);
    rewrite ?Hqid; try done; [apply Hok|].
  rewrite Hqid in Hs, Hentry. unfold task_entry in Hentry. rewrite Heng in Hentry.
  exists (Some res), (tr_server res), q', leak'. rewrite Hrun. split_and!; [done|done|].
  assert (dsns_of id [(id, res)] = tr_dsns res) as Hself.
  { unfold dsns_of. cbn. by rewrite decide_True, app_nil_r. }
  assert (∀ i, i ≠ id → dsns_of i [(id, res)] = []) as Hother.
  { intros i Hne. unfold dsns_of. cbn. by rewrite decide_False. }
  pose proof (carries_follows _ _ (td_carries _ _ _ _ Hdone)) as Hfol.
  assert (∀ i x, q !! i = Some x → i ∉ task_ids (wr_answers w)) as Hold.
  { intros i x Hi Hin. rewrite Forall_forall in Hnew. by rewrite Hnew in Hi. }
  split.
  - intros i x Hx Hi. destruct (decide (i = id)) as [->|Hne].
    + rewrite Hself. destruct (tr_removed res); [congruence|]. destruct Hentry as (due & He & Hdue).
      rewrite He in Hx. injection Hx as <-. rewrite <- Hqid in Hid, Hdone |- *. by eapply saved_entry.
    + rewrite Hother, app_nil_r by done. destruct Hi as [[Hi ->]|[y Hy]]; [by apply Hn|].
      apply Hen. rewrite <- Hs; [done|done|by eapply Hold].
  - intros i Hi. assert (i ≠ id) as Hne by congruence. split; [by apply Hother|]. intros Hni. by rewrite Hs.
  - intros i m' d Hi. destruct (decide (i = id)) as [->|Hne].
    + assert (m' = m) as -> by congruence. rewrite Hself. destruct (tr_removed res) eqn:Hrem.
      * right. split; [done|]. exists res. split; [by left|].
        destruct (td_removed _ _ _ _ Hdone Hrem) as [Hi1 Hi2]. split; [done|]. split; [done|].
        split; [apply Hdone|done].
      * left. destruct Hentry as (due & He & _). eexists. split; [exact He|].
        destruct (release_quota_only (tr_message res)) as (Hr & _ & Hp & _). destruct Hfol as [Hp' Hk].
        split; cbn [fst]; [congruence|by rewrite Hr].
    + left. exists (m', d). split; [|reflexivity]. rewrite Hs; [done|done|by eapply Hold].
Qed.

(** The account of a message of the queue after the workers [results]: it is still
    there, or the task that removed it closed the account. *)
Definition mail_done (i : Z) (m : Message) (dsns : list Dsn) (results : list (Z * TaskResult (DB := DB)))
    (q : Spool) : Prop :=
  match q !! i with
  | Some x => follows m x.1 ∧ ledger x.1 dsns
  | None => ∃ res, (i, res) ∈ results ∧ closed m dsns res
  end.

Definition run_ids (runs : list WorkerRun) : list Z := w ← runs; task_ids (wr_answers w).

Lemma dsns_of_app i l k : dsns_of i (l ++ k) = dsns_of i l ++ dsns_of i k.
Proof. apply bind_app. Qed.

Lemma mail_done_follows i m m1 dsns results results' q :
  follows m m1 → mail_done i m1 dsns results q → mail_done i m dsns (results' ++ results) q.
Proof.
  intros Hf. unfold mail_done. destruct (q !! i) as [x|].
  - intros [Hx Hle]. split; [by etrans|done].
  - intros (res & Hin & Hrem & Hx & Hrest). exists res. split; [apply elem_of_app; by right|].
    split; [done|]. split; [by etrans|done].
Qed.

Lemma worker_run_rows `{!MessageCodecLaw} runs q leak acc (sv : Server DB) :
  spool_rows q leak (store sv) → Forall run_ok runs →
  Forall (λ w, tk_engine (wr_answers w) = None) runs →
  (∀ i x, q !! i = Some x → entry_ok (acc i) i x) →
  NoDup (run_ids runs) → Forall (λ i, q !! i = None ∧ acc i = []) (run_ids runs) →
  ∃ results sv' q' leak', worker_run runs sv = Some (results, sv') ∧ spool_rows q' leak' (store sv') ∧
    (∀ i, q !! i = None → i ∉ run_ids runs → dsns_of i results = [] ∧ q' !! i = None) ∧
    ∀ i m d, q !! i = Some (m, d) → mail_done i m (acc i ++ dsns_of i results) results q'.
Proof.
  intros Hrows Hok. revert q leak acc sv Hrows. induction Hok as [|w runs Hw Hok IH];
    intros q leak acc sv Hrows Heng Hen Hnd Hnew.
  { exists [], sv, q, leak. split_and!; [done|done|done|]. intros i m d Hi. unfold mail_done. rewrite Hi.
    split; [reflexivity|]. rewrite app_nil_r. by apply (en_ledger _ _ _ (Hen _ _ Hi)). }
  apply Forall_cons in Heng as [Hew Heng]. cbn [run_ids mbind list_bind] in Hnd, Hnew.
  apply NoDup_app in Hnd as (Hnd1 & Hdisj & Hnd2). apply Forall_app in Hnew as [Hnew1 Hnew2].
  destruct (worker_step w q leak acc sv Hrows Hw Hew Hen Hnd1) as (res & sv1 & q1 & leak1 & Hgo & Hrows1 & [Hent Habs Hmail]).
  { eapply Forall_impl; [exact Hnew1|]. by intros i [? _]. }
  set (r1 := if res is Some r then _ else _) in *.
  destruct (IH q1 leak1 (λ i, acc i ++ dsns_of i r1) sv1 Hrows1 Heng) as (results & sv2 & q2 & leak2 & Hruns & Hrows2 & Habs2 & Hmail2).
  { intros i x Hx. apply Hent; [done|]. destruct (decide (i ∈ task_ids (wr_answers w))) as [Hi|Hi].
    - left. rewrite Forall_forall in Hnew1. by split; [|apply Hnew1].
    - right. destruct (q !! i) eqn:Hq; [done|]. destruct (Habs i Hq) as [_ Hnone]. by rewrite Hnone in Hx. }
  { done. }
  { rewrite Forall_forall in *. intros i Hi. destruct (Hnew2 i Hi) as [Hq ->]. destruct (Habs i Hq) as [-> Hnone].
    split; [|done]. apply Hnone. intros Hin. by eapply Hdisj. }
  exists (r1 ++ results), sv2, q2, leak2. cbn [worker_run]. rewrite Hgo. cbn [mbind option_bind]. rewrite Hruns.
  split_and!; [done|done| |].
  - intros i Hi Hni. cbn [run_ids mbind list_bind] in Hni. apply not_elem_of_app in Hni as [Hni1 Hni2].
    destruct (Habs i Hi) as [Hd Hnone]. rewrite dsns_of_app, Hd. by apply Habs2; [apply Hnone|].
  - intros i m d Hi. rewrite dsns_of_app, app_assoc.
    destruct (Hmail i m d Hi) as [([m1 d1] & Hx & Hf)|(Hnone & r & Hin & Hcl)].
    + eapply mail_done_follows; [exact Hf|]. by eapply Hmail2.
    + destruct (Habs2 i Hnone) as [-> Hq2].
      { intros Hin'. rewrite Forall_forall in Hnew2. destruct (Hnew2 i Hin'). congruence. }
      unfold mail_done. rewrite Hq2, app_nil_r. exists r. split; [apply elem_of_app; by left|done].
Qed.
Lemma mail_done_account id m results q :
  mail_done id m (dsns_of id results) results q →
  let failed i := told dsn_failed i (dsns_of id results) in
  let success i := told dsn_success i (dsns_of id results) in
  match q !! id with
  | Some (m', _) =>
      Forall2 kept (recipients m) (recipients m') ∧
      ∀ i, (i < length (recipients m))%nat → (failed i + success i ≤ 1)%nat
  | None =>
      ∃ res, (id, res) ∈ results ∧ tr_removed res = true ∧
        ∀ i r0, recipients m !! i = Some r0 →
          ∃ r d, recipients (tr_message res) !! i = Some r ∧ address r = address r0 ∧
            domains (tr_message res) !! domain_idx r0 = Some d ∧
            account_ok m r0 d r (failed i) (success i)
  end.
Proof.
  intros Hmail. cbn zeta. unfold mail_done in Hmail. destruct (q !! id) as [[m' d']|].
  - destruct Hmail as [[_ Hk] Hle]. cbn [fst] in *. split; [done|]. intros i Hi.
    rewrite (Forall2_length _ _ _ Hk) in Hi. apply lookup_lt_is_Some_2 in Hi as [r Hr].
    pose proof (proj1 (le_sound _ _ Hle)) as Hdom. rewrite Forall_lookup in Hdom.
    destruct (lookup_lt_is_Some_2 _ _ (Hdom i r Hr)) as [d1 Hd1].
    destruct (le_told _ _ Hle i r d1 Hr Hd1) as (-> & -> & _). apply owed_le_1.
  - destruct Hmail as (res & Hin & Hrem & [Hp Hk] & Hle & Hinf & Hlive). exists res. split_and!; [done|done|].
    intros i r0 Hr0. destruct (Forall2_lookup_l _ _ _ _ _ Hk Hr0) as (r & Hr & Hkr).
    pose proof (proj1 (le_sound _ _ Hle)) as Hdom. rewrite Forall_lookup in Hdom.
    destruct (lookup_lt_is_Some_2 _ _ (Hdom i r Hr)) as [d1 Hd1]. exists r, d1. rewrite <- (proj1 Hkr).
    split_and!; [done|apply Hkr|done|]. by apply (account_closed m (tr_message res)).
Qed.
End Worker.

(** The workers and the queue together: from a queue of new messages, whatever
    events workers take in turn and whatever the network answers, no task panics, the
    store stays a queue, and every message is still in it with its recipients, none
    of them reported twice, or was removed by a task that closed the account of each
    recipient; the notices counted are those made for the message over all tasks.  The
    ids generated for notices are new and the writes of the tasks succeed. *)
Theorem queue_accounted `{KvLaws DB} `{MessageCodec} `{!MessageCodecLaw} `{SmtpProto} `{!SmtpProtoLaw} {R}
    (gen_range : R → Z → Z * R) (xxh3_64 : bytes → Z) (seed : R) (blob_hash_of : bytes → bytes)
    (runs : list WorkerRun) (q : Spool) (leak : QueueClass → Z) (sv : Server DB) :
  spool_rows q leak (store sv) →
  (∀ id x, q !! id = Some x →
     queue_id x.1 = id ∧ fits 64 id ∧ fits 64 x.2 ∧ message_wf x.1 ∧ unreported x.1) →
  Forall run_ok runs → Forall (λ w, tk_engine (wr_answers w) = None) runs →
  NoDup (run_ids runs) → Forall (λ id, q !! id = None) (run_ids runs) →
  ∃ results sv' q' leak',
    worker_run gen_range xxh3_64 seed blob_hash_of runs sv = Some (results, sv') ∧
    spool_rows q' leak' (store sv') ∧
    ∀ id m d, q !! id = Some (m, d) →
      let failed i := told dsn_failed i (dsns_of id results) in
      let success i := told dsn_success i (dsns_of id results) in
      match q' !! id with
      | Some (m', _) =>
          Forall2 kept (recipients m) (recipients m') ∧
          ∀ i, (i < length (recipients m))%nat → (failed i + success i ≤ 1)%nat
      | None =>
          ∃ res, (id, res) ∈ results ∧ tr_removed res = true ∧
            ∀ i r0, recipients m !! i = Some r0 →
              ∃ r d, recipients (tr_message res) !! i = Some r ∧ address r = address r0 ∧
                domains (tr_message res) !! domain_idx r0 = Some d ∧
                account_ok m r0 d r (failed i) (success i)
      end.
Proof.
  intros Hrows Hq Hok Heng Hnd Hnew.
  destruct (worker_run_rows gen_range xxh3_64 seed blob_hash_of runs q leak (λ _, []) sv Hrows Hok Heng)
    as (results & sv' & q' & leak' & Hrun & Hrows' & _ & Hmail).
  { intros i x (Hi & Hf & Hd & Hw & Hu)%Hq. split; [done..|]. by apply unreported_ledger. }
  { done. }
  { eapply Forall_impl; [exact Hnew|]. by intros i Hi. }
  do 4 eexists. split; [exact Hrun|]. split; [exact Hrows'|]. intros id m d Hm. cbn zeta.
  specialize (Hmail id m d Hm). cbn [app] in Hmail. by apply mail_done_account.
Qed.

(** A task whose write fails loses nothing: every message is in the queue as it
    was, at the same event. *)
Theorem failed_write_keeps_mail `{KvLaws DB} `{MessageCodec} `{!MessageCodecLaw} `{SmtpProto} `{!SmtpProtoLaw} {R}
    (gen_range : R → Z → Z * R) (xxh3_64 : bytes → Z) (seed : R) (blob_hash_of : bytes → bytes)
    (w : WorkerRun) (err : EngineError) (q : Spool) (leak : QueueClass → Z) (sv : Server DB) :
  spool_rows q leak (store sv) → run_ok w → tk_engine (wr_answers w) = Some err →
  (∀ id x, q !! id = Some x → ∃ dsns, entry_ok dsns id x) →
  NoDup (task_ids (wr_answers w)) → Forall (λ id, q !! id = None) (task_ids (wr_answers w)) →
  ∃ res sv' q' leak',
    try_deliver gen_range xxh3_64 seed blob_hash_of (wr_now w) (wr_lock w) (wr_clear w) (wr_answers w)
      (wr_event w) sv = Some (res, sv') ∧
    spool_rows q' leak' (store sv') ∧ ∀ id x, q !! id = Some x → q' !! id = Some x.
Proof.
  intros Hrows Hok Heng Hen Hnd Hnew.
  destruct (try_deliver_rows gen_range xxh3_64 seed blob_hash_of w q leak sv Hrows Hok)
    as [->|(m & event & sv1 & Hq & Hrows1 & ->)]; [by exists None, sv, q, leak|].
  destruct (Hen _ _ Hq) as [dsns Hid]. assert (queue_id m = ev_queue_id (wr_event w)) as Hqid by apply Hid.
  destruct (deliver_task_spec gen_range xxh3_64 seed blob_hash_of (wr_answers w) event m dsns sv1)
    as (res & Hrun & Hdone); [apply Hok|apply Hid|].
  destruct (task_rows gen_range xxh3_64 seed blob_hash_of (wr_answers w) event m dsns res q leak sv1)
    as (q' & leak' & Hrows' & Hs & _ & Hentry & _); rewrite ?Hqid; try done; [apply Hok|].
  exists (Some res), (tr_server res), q', leak'. rewrite Hrun. split_and!; [done|done|].
  unfold task_entry in Hentry. rewrite Heng, Hqid in Hentry. intros id x Hx.
  destruct (decide (id = ev_queue_id (wr_event w))) as [->|Hne]; [congruence|].
  rewrite Hs; [done|congruence|]. intros Hin. rewrite Forall_forall in Hnew. by rewrite Hnew in Hx.
Qed.


(** ** What a session delivered *)

(** The RCPT commands are for the pending recipients in turn; the positions of those
    the server accepts, with its replies, where [k] commands went before. *)
Fixpoint accepted_of `{SmtpProto} (reply : nat → result SendError Response) (k : nat)
    (pending : list (nat * Recipient)) : list (nat * Response) :=
  match pending with
  | [] => []
  | (i, _) :: pending =>
      match reply k with
      | Ok resp => if positive_completion resp then [(i, resp)] else []
      | Err _ => []
      end ++ accepted_of reply (S k) pending
  end.

Section Delivered.
Context `{SmtpProto}.

Definition pending_from (idx pos : nat) (rs : list Recipient) : list (nat * Recipient) :=
  filter (λ x, is_live (r_status x.2)) (filter (λ x, domain_idx x.2 = idx) (imap (λ i r, ((pos + i)%nat, r)) rs)).

Lemma pending_from_cons idx pos r rs :
  pending_from idx pos (r :: rs)
  = (if bool_decide (domain_idx r = idx) && is_live (r_status r) then [(pos, r)] else []) ++ pending_from idx (S pos) rs.
Proof.
  unfold pending_from. cbn [imap].
  rewrite (imap_ext ((λ i r, ((pos + i)%nat, r)) ∘ S) (λ i r, ((S pos + i)%nat, r))) by (intros; cbn; f_equal; lia).
  rewrite Nat.add_0_r, filter_cons. cbn [snd]. case_decide as Hd.
  - rewrite (bool_decide_eq_true_2 _ Hd), filter_cons. cbn [snd andb]. by destruct (is_live (r_status r)).
  - by rewrite (bool_decide_eq_false_2 _ Hd).
Qed.

Definition completed_from (r r' : Recipient) : Prop := ∀ h, r_status r' = Completed h → r_status r = Completed h.
#[local] Instance completed_from_refl : Reflexive completed_from.
Proof. by intros r h. Qed.

Lemma accepted_of_app reply k l1 l2 : accepted_of reply k (l1 ++ l2) = accepted_of reply k l1 ++ accepted_of reply (k + length l1) l2.
Proof.
  revert k. induction l1 as [|[i r] l1 IH]; intros k; cbn [app accepted_of length].
  - by rewrite Nat.add_0_r.
  - rewrite IH, app_assoc. by rewrite Nat.add_succ_r.
Qed.

(** The recipient as a completed one of this host. *)
Definition completed_here (p : SessionParams) (x : nat * Response)
    : nat * Status (HostResponse bytes) (HostResponse ErrorDetails) :=
  (x.1, Completed {| hostname := p_hostname p; response := x.2 |}).

Lemma rcpt_turn_accepted p c reply pos r s r' s' :
  rcpt_turn p c reply pos r s = Ok (r', s') →
  let sent := if is_live (r_status r) then [(pos, r)] else [] in
  completed_from r r' ∧ commands s' = (commands s + length sent)%nat ∧
  accepted s' = accepted s ++ (completed_here p <$> accepted_of reply (commands s) sent).
Proof.
  unfold rcpt_turn, settled_status. destruct (is_live (r_status r)) eqn:Hl; cbn [negb].
  - cbn [commands accepted total_rcpt total_completed accepted_of]. destruct (reply (commands s)) as [resp|]; [|done].
    destruct (positive_completion resp).
    + intros [= <- <-]. split_and!; [by intros h|cbn; lia|done].
    + intros [= <- <-]. split_and!; [|cbn; lia|by rewrite app_nil_r].
      intros h. cbn. by destruct (permanent_negative resp).
  - intros [= <- <-]. split_and!; [by intros h|cbn; lia|by rewrite app_nil_r].
Qed.

Lemma rcpt_loop_accepted p c reply idx pos rs s rs' res :
  rcpt_loop p c reply idx pos rs s = (rs', res) →
  Forall2 completed_from rs rs' ∧
  ∀ s', res = Ok s' →
    accepted s' = accepted s ++ (completed_here p <$> accepted_of reply (commands s) (pending_from idx pos rs)).
Proof.
  revert pos s rs' res. induction rs as [|r rs IH]; intros pos s rs' res; cbn [rcpt_loop].
  { intros [= <- <-]. split; [constructor|]. intros s' [= <-]. by rewrite app_nil_r. }
  rewrite pending_from_cons. destruct (Nat.eqb_spec (domain_idx r) idx) as [Hd|Hd].
  - rewrite (bool_decide_eq_true_2 _ Hd). cbn [andb].
    destruct (rcpt_turn p c reply pos r s) as [[r1 s1]|e] eqn:Ht.
    2: { intros [= <- <-]. by split. }
    apply rcpt_turn_accepted in Ht as (Hc & Hcmd & Hacc).
    destruct (rcpt_loop p c reply idx (S pos) rs s1) as [rs1 res1] eqn:Hl. intros [= <- <-].
    apply IH in Hl as [Hf Hok]. split; [by constructor|]. intros s' Hs'.
    rewrite accepted_of_app, fmap_app, app_assoc, <- Hacc, <- Hcmd. by apply Hok.
  - rewrite (bool_decide_eq_false_2 _ Hd). cbn [andb app].
    destruct (rcpt_loop p c reply idx (S pos) rs s) as [rs1 res1] eqn:Hl. intros [= <- <-].
    apply IH in Hl as [Hf Hok]. split; [constructor; [by intros h|done]|done].
Qed.

(** What marking completes is in the marks. *)
Lemma mark_all_completed marks rs n i r' h :
  (mark_all marks rs n).1 !! i = Some r' → r_status r' = Completed h →
  (i, Completed h) ∈ marks ∨ ∃ r, rs !! i = Some r ∧ r_status r = Completed h.
Proof.
  revert rs n. induction marks as [|[pos st] marks IH]; intros rs n Hr' Hh; [right; by eauto|].
  cbn [mark_all foldl] in Hr'. destruct (IH _ _ Hr' Hh) as [Hin|(r & Hr & Hs)]; [left; by right|].
  destruct (decide (pos = i)) as [->|Hne].
  - rewrite list_lookup_alter_eq in Hr. destruct (rs !! i) as [r0|]; [|done]. injection Hr as <-. cbn in Hs. subst st.
    left. by left.
  - rewrite list_lookup_alter_ne in Hr by done. right. by eauto.
Qed.

Lemma accepted_of_lookup reply k pending j i resp :
  accepted_of reply k pending !! j = Some (i, resp) →
  ∃ n r, pending !! n = Some (i, r) ∧ reply (k + n)%nat = Ok resp ∧ positive_completion resp = true.
Proof.
  revert k j. induction pending as [|[i0 r0] pending IH]; intros k j; cbn [accepted_of]; [by destruct j|].
  intros [Hj|[_ Hj]]%lookup_app_Some.
  - destruct (reply k) as [resp0|] eqn:Hk; [|by destruct j]. destruct (positive_completion resp0) eqn:Hp; [|by destruct j].
    destruct j as [|j]; [|by destruct j]. injection Hj as -> ->. exists 0%nat, r0. rewrite Nat.add_0_r. done.
  - destruct (IH _ _ Hj) as (n & r & Hn & Hr & Hp). exists (S n), r. rewrite Nat.add_succ_r. done.
Qed.

(** How a server has taken the message for the recipient at [i], one of those whose
    RCPT commands it accepted, and with which reply. *)
Definition taken (p : SessionParams) (a : DeliverAnswers) (acc : list (nat * Response)) (i : nat) (reply : Response)
    : Prop :=
  is_Some (da_blob a) ∧
  ∃ j resp, acc !! j = Some (i, resp) ∧
    if is_smtp p then reply = resp ∧ ∃ done, da_smtp_response a = Received done ∧ code done = 250
    else ∃ replies, da_lmtp_responses a = Received replies ∧ replies !! j = Some reply ∧
           positive_completion reply = true.

Lemma lmtp_completed p bdat resp h :
  lmtp_status p bdat resp = Completed h →
  hostname h = p_hostname p ∧ response h = resp ∧ positive_completion resp = true.
Proof.
  unfold lmtp_status. destruct (positive_completion resp) eqn:Hp; [by intros [= <-]|].
  by destruct (permanent_negative resp).
Qed.

Lemma reply_or_ok {A} host stage cmd (r : Reply A) x : reply_or host stage cmd r = Ok x → r = Received x.
Proof. by destruct r; intros [= ->]. Qed.

Lemma send_accepted_taken m p c a rs s st rs' acc i r' h :
  accepted s = completed_here p <$> acc → send_accepted m p c a rs s = (st, rs') →
  rs' !! i = Some r' → r_status r' = Completed h →
  (∃ r, rs !! i = Some r ∧ r_status r = Completed h) ∨ hostname h = p_hostname p ∧ taken p a acc i (response h).
Proof.
  intros Hacc. unfold send_accepted. case_bool_decide; [intros [= <- <-]; left; by eauto|].
  cbv zeta. generalize (if ext_chunking c then Some (str "BDAT " ++ Decimal.uint_to_string (size m) ++ str " LAST" ++ [13; 10])
    else None) as bdat. intros bdat.
  destruct (send_message _ _ _ _ _) as [u|e] eqn:Hsend; [|intros [= <- <-]; left; by eauto].
  assert (is_Some (da_blob a)) as Hblob by (by destruct (da_blob a)). unfold taken. destruct (is_smtp p).
  - destruct (read_smtp_data_response _ _ _) as [resp|e] eqn:Hr; [|intros [= <- <-]; left; by eauto].
    apply reply_or_ok in Hr. destruct (Z.eqb_spec (code resp) 250) as [Hcode|]; [|intros [= <- <-]; left; by eauto].
    rewrite mark_delivered_all.
    2: { rewrite Hacc. apply Forall_fmap, Forall_true. done. }
    intros [= <- <-] Hi Hh. destruct (mark_all_completed _ _ _ _ _ _ Hi Hh) as [Hin|]; [right|by left].
    rewrite Hacc in Hin. apply list_elem_of_fmap in Hin as ([i0 resp0] & [= -> ->] & Hin). split; [done|]. split; [done|].
    apply list_elem_of_lookup_1 in Hin as [j Hj]. exists j, resp0. split; [done|]. split; [done|]. by eexists.
  - destruct (read_lmtp_data_response _ _) as [replies|e] eqn:Hr; [|intros [= <- <-]; left; by eauto].
    apply reply_or_ok in Hr. rewrite mark_lmtp_all.
    intros [= <- <-] Hi Hh. destruct (mark_all_completed _ _ _ _ _ _ Hi Hh) as [Hin|]; [right|by left].
    apply list_elem_of_lookup_1 in Hin as [j Hj]. rewrite lookup_zip_with, Hacc, list_lookup_fmap in Hj.
    destruct (acc !! j) as [[i0 resp0]|] eqn:Haj; [|done]. cbn in Hj. destruct (replies !! j) as [reply|] eqn:Hrj; [|done].
    injection Hj as -> Hst. apply lmtp_completed in Hst as (Hhost & -> & Hpos).
    split; [done|]. split; [done|]. exists j, resp0. split; [done|]. by eexists.
Qed.
End Delivered.

(** C22. A recipient is marked as delivered only when the server of the session took
    the message for it: it answered MAIL and this recipient's own RCPT command
    with a positive completion, the message was read from the blob store, and the answer
    to the message was 250, or for LMTP a positive completion in this recipient's place. *)
Theorem delivered_was_accepted `{SmtpProto} (m : Message) (idx : nat) (p : SessionParams) (a : DeliverAnswers)
    (rs rs' : list Recipient) (s : Status () Error) (i : nat) (r r' : Recipient) (h : HostResponse bytes) :
  deliver m idx p a rs = (s, rs') → rs !! i = Some r → rs' !! i = Some r' →
  r_status r' = Completed h → r_status r ≠ Completed h →
  hostname h = p_hostname p ∧
  (∃ resp, da_mail a = Ok resp ∧ positive_completion resp = true) ∧
  (∃ k resp, pending_rcpts idx rs !! k = Some (i, r) ∧ da_rcpt a k = Ok resp ∧ positive_completion resp = true) ∧
  taken p a (accepted_of (da_rcpt a) 0 (pending_rcpts idx rs)) i (response h).
Proof.
  intros Hdel Hr Hr' Hh Hne. unfold deliver in Hdel.
  destruct (say_helo p (da_helo a)) as [c|]; [|congruence].
  destruct (if has_credentials p then da_auth a else None); [congruence|].
  destruct (match da_mail a with Ok _ => _ | Err _ => _ end) as [x|e] eqn:Hmail; [|congruence].
  destruct (rcpt_loop p c (da_rcpt a) idx 0 rs rcpt_state0) as [rs1 [s1|e]] eqn:Hloop;
    apply rcpt_loop_accepted in Hloop as [Hf Hacc].
  2: { injection Hdel as <- <-. by apply (Forall2_lookup_lr _ _ _ _ _ _ Hf Hr) in Hr' as Hc; apply Hc in Hh. }
  specialize (Hacc s1 eq_refl). cbn [accepted rcpt_state0 commands app] in Hacc.
  change (pending_from idx 0 rs) with (pending_rcpts idx rs) in Hacc.
  destruct (send_accepted_taken m p c a rs1 s1 s rs' _ i r' h Hacc Hdel Hr' Hh) as [(r1 & Hr1 & Hs)|[Hhost Htaken]].
  { by apply (Forall2_lookup_lr _ _ _ _ _ _ Hf Hr) in Hr1 as Hc; apply Hc in Hs. }
  split_and!; [done| | |done].
  - destruct (da_mail a) as [resp|]; [|done]. exists resp. by destruct (positive_completion resp).
  - destruct Htaken as (_ & j & resp & Hj & _). apply accepted_of_lookup in Hj as (k & r2 & Hk & Hresp & Hpos).
    exists k, resp. split; [|done].
    assert (r2 = r) as ->; [|done]. apply list_elem_of_lookup_2 in Hk.
    apply list_elem_of_filter in Hk as [_ [_ Hk]%list_elem_of_filter].
    apply elem_of_lookup_imap in Hk as (i' & r3 & [= <- <-] & Hr3). congruence.
Qed.

(** ** Examples *)

Module WorkerExample.
Import QueueExample.

#[local] Instance example_proto : SmtpProto := {|
  positive_completion r := (200 <=? code r) && (code r <? 300);
  permanent_negative r := (500 <=? code r) && (code r <? 600);
  send_error_text _ := [];
  RCPT_NOTIFY_SUCCESS := 2; RCPT_NOTIFY_FAILURE := 4; RCPT_NOTIFY_DELAY := 8; RCPT_NOTIFY_NEVER := 16;
  MAIL_REQUIRETLS := 1; MAIL_SMTPUTF8 := 2; MAIL_RET_FULL := 4; MAIL_RET_HDRS := 8;
|}.
#[local] Instance example_proto_law : SmtpProtoLaw.
Proof.
  split; try (by compute). intros r. cbn. destruct (code r <? 300) eqn:H1; [|by rewrite andb_false_r].
  destruct (500 <=? code r) eqn:H2; [lia|by rewrite andb_false_r].
Qed.

Definition host : bytes := [109; 120].
Definition reply (c : Z) : Response := {| code := c; esc := (0, 0, 0); message := [] |}.

(** A session in which MAIL, the RCPT commands and the message are answered as given. *)
Definition session (mail : Z) (rcpt : nat → Z) (data : Z) : DomainAttempt :=
  AtHosts [HostIps [IpDeliver
    {| p_hostname := host; has_credentials := false; is_smtp := true; local_hostname := [] |}
    {| da_helo := Received {| ext_size := false; ext_require_tls := false; ext_smtp_utf8 := false;
                              ext_dsn := false; ext_chunking := false |};
       da_auth := None; da_mail := Ok (reply mail); da_rcpt k := Ok (reply (rcpt k)); da_blob := Some [65];
       da_data_reply := Received (reply 354); da_sent := Received (reply 0);
       da_smtp_response := Received (reply data); da_lmtp_responses := TimedOut |}]].

Definition dsn_at (now id : Z) (answers : QueueAnswers) : DsnAnswers := {|
  dn_now := now; dn_intervals _ := None; dn_generated := Some id; dn_expire := None;
  dn_signature := None; dn_text _ _ := [66]; dn_queue := answers |}.

(** A task at the time [now], its notices with the ids [id] and [id + 1]. *)
Definition task_at (now id : Z) (domains : nat → DomainAttempt) : TaskAnswers := {|
  tk_pending_now := now; tk_dsn1 := dsn_at now id fine; tk_due_now := now; tk_check_now := now;
  tk_sender_throttle := None;
  tk_domain i := {| dm_check := now; dm_attempt := domains i; dm_schedule := [60]; dm_now := now |};
  tk_dsn2 := dsn_at now (id + 1) fine; tk_next_now := now; tk_engine := None; tk_channel := true |}.

Definition mail_to (domain_of : list nat) : Message :=
  with_recipients
    ((λ idx, {| domain_idx := idx; address := [97]; address_lcase := [97]; r_status := Scheduled;
                r_flags := 6; orcpt := None |}) <$> domain_of)
    (with_domains
       ((λ d, {| domain := [d]; retry := {| due := 100; inner := 0 |}; notify := {| due := 900; inner := 0 |};
                 expires := 800; d_status := Scheduled |}) <$> [97; 98])
       (new_message 100 (Some 7) [115] [115] [115])).

Definition reports (x : option (Message * bool * list Dsn * Server MapStore.DB)) : option (bool * list (nat * nat)) :=
  '(m, removed, dsns, _) ← x;
  Some (removed, imap (λ i _, (told dsn_failed i dsns, told dsn_success i dsns)) (recipients m)).

(** The first domain takes the message at once, the second never does. *)
Definition two_tasks : list (TaskAnswers * QueueEventLock) :=
  [(task_at 100 20 (λ i, if (i =? 0)%nat then session 250 (λ _, 250) 250 else AtFailed false (Io [])), ev 100 7 400);
   (task_at 800 30 (λ _, AtFailed false (Io [])), ev 160 7 900)].

Lemma mail_unreported : unreported (mail_to [0; 1]%nat).
Proof.
  split; [split; [by repeat constructor|]|by repeat constructor].
  intros r d Hr. cbn in Hr. rewrite !elem_of_cons in Hr. destruct Hr as [->|[->|Hr]]; [..|by apply not_elem_of_nil in Hr].
  all: cbn; by intros [= <-].
Qed.



Ltac a_word := apply (bool_decide_unpack _); by vm_compute.

(** A queue with one message. *)
Definition queue_mail : SpoolOp := DoQueue 100 fine None [65] (mail_to [0; 1]%nat).
Definition one_mail : Spool := (spool_spec key_hash queue_mail (∅, λ _, 0)).1.
Definition server1 : Server MapStore.DB :=
  (spool_exec coin no_hash 0 key_hash queue_mail server0).2.

Lemma one_mail_rows : spool_rows one_mail (λ _, 0) (store server1).
Proof.
  pose proof (spool_step coin no_hash 0 key_hash queue_mail ∅ (λ _, 0) server0 empty_rows) as Hstep.
  assert ((spool_exec coin no_hash 0 key_hash queue_mail server0).1 = true) as Hq by (by vm_compute).
  unfold server1. destruct (spool_exec _ _ _ _ _ _) as [ok sv]. cbn in Hq. subst ok. apply Hstep. by vm_compute.
Qed.

Lemma one_mail_ok id x :
  one_mail !! id = Some x → queue_id x.1 = id ∧ fits 64 id ∧ fits 64 x.2 ∧ message_wf x.1 ∧ unreported x.1.
Proof.
  unfold one_mail. cbn [spool_spec queue_mail fst]. intros [[<- <-]|[_ Hx]]%lookup_insert_Some; [|done]. split; [reflexivity|].
  split; [a_word|]. split; [a_word|]. split.
  - split; repeat constructor; a_word.
  - exact mail_unreported.
Qed.

Definition run_at (a : TaskAnswers) (e : QueueEventLock) : WorkerRun :=
  {| wr_now := tk_pending_now a; wr_lock := None; wr_clear := None; wr_answers := a; wr_event := e |}.

Definition two_runs : list WorkerRun :=
  [run_at (task_at 100 20 (λ i, if (i =? 0)%nat then session 250 (λ _, 250) 250 else AtFailed false (Io []))) (ev 100 7 0);
   run_at (task_at 800 30 (λ _, AtFailed false (Io []))) (ev 160 7 0)].

Lemma task_at_ok now id domains :
  fits 64 now → fits 64 id → fits 64 (id + 1) → (∀ i, throttles (domains i) = []) → task_ok (task_at now id domains).
Proof.
  intros Hn Hi Hi' Hd. split_and!; [|done|done|by intros i]. split; [|done|done|done].
  intros i. cbn. rewrite Hd. constructor.
Qed.

Lemma two_runs_ok : Forall run_ok two_runs.
Proof.
  assert (∀ a e, task_ok a → fits 64 (ev_due e) → fits 64 (ev_queue_id e) → run_ok (run_at a e)) as Hrun by done.
  apply Forall_cons_2; [|apply Forall_cons_2; [|apply Forall_nil_2]].
  all: apply Hrun; [apply task_at_ok; [a_word..|]|a_word..]; by intros [|i].
Qed.

Lemma queue_accounted_witness :
  (let '(results, sv) := default ([], server1) (worker_run coin no_hash 0 key_hash two_runs server1) in
   (λ x, (x.1, tr_removed x.2)) <$> results = [(7, false); (7, true)] ∧
   (λ i, (told dsn_failed i (dsns_of 7 results), told dsn_success i (dsns_of 7 results))) <$> [0; 1]%nat
   = [(0, 1); (1, 0)]%nat ∧
   read_message 7 (store sv) = None) ∧
  ∃ results sv' q' leak', worker_run coin no_hash 0 key_hash two_runs server1 = Some (results, sv') ∧
    spool_rows q' leak' (store sv').
Proof.
  split; [by vm_compute|].
  destruct (queue_accounted coin no_hash 0 key_hash two_runs one_mail (λ _, 0) server1)
    as (results & sv' & q' & leak' & Hrun & Hrows & _).
  - exact one_mail_rows.
  - exact one_mail_ok.
  - exact two_runs_ok.
  - by repeat constructor.
  - apply (bool_decide_unpack _). by vm_compute.
  - repeat constructor; by vm_compute.
  - exists results, sv', q', leak'. exact (conj Hrun Hrows).
Defined.

Definition engine_fails (a : TaskAnswers) (err : EngineError) : TaskAnswers := {|
  tk_pending_now := tk_pending_now a; tk_dsn1 := tk_dsn1 a; tk_due_now := tk_due_now a;
  tk_check_now := tk_check_now a; tk_sender_throttle := tk_sender_throttle a; tk_domain := tk_domain a;
  tk_dsn2 := tk_dsn2 a; tk_next_now := tk_next_now a; tk_engine := Some err; tk_channel := tk_channel a |}.


Definition failing_run : WorkerRun :=
  run_at (engine_fails (task_at 800 30 (λ _, AtFailed false (Io []))) OtherKind) (ev 100 7 0).

Lemma failed_write_keeps_mail_witness :
  ∃ res sv' q' leak',
    try_deliver coin no_hash 0 key_hash 800 None None (wr_answers failing_run) (ev 100 7 0) server1 = Some (res, sv') ∧
    spool_rows q' leak' (store sv') ∧ ∀ id x, one_mail !! id = Some x → q' !! id = Some x.
Proof.
  apply (failed_write_keeps_mail coin no_hash 0 key_hash failing_run OtherKind one_mail (λ _, 0) server1).
  - exact one_mail_rows.
  - split; [|split; a_word]. split_and!; [split|split; a_word|split; a_word|by intros i].
    + intros i. constructor.
    + done.
    + a_word.
    + a_word.
  - done.
  - intros id x (Hi & Hf & Hd & Hw & Hu)%one_mail_ok. exists []. split; [done..|]. by apply unreported_ledger.
  - a_word.
  - apply Forall_cons_2; [|apply Forall_cons_2; [|apply Forall_nil_2]]; by vm_compute.
Defined.

(** A session that takes the message for the second recipient only. *)
Definition picky : DeliverAnswers := {|
  da_helo := Received {| ext_size := false; ext_require_tls := false; ext_smtp_utf8 := false;
                         ext_dsn := false; ext_chunking := false |};
  da_auth := None; da_mail := Ok (reply 250); da_rcpt k := Ok (reply (if (k =? 0)%nat then 550 else 250));
  da_blob := Some [65]; da_data_reply := Received (reply 354); da_sent := Received (reply 0);
  da_smtp_response := Received (reply 250); da_lmtp_responses := TimedOut |}.
Definition params : SessionParams :=
  {| p_hostname := host; has_credentials := false; is_smtp := true; local_hostname := [] |}.

Lemma delivered_was_accepted_witness :
  let rs := recipients (mail_to [0; 0]%nat) in
  let rs' := (deliver (mail_to []) 0 params picky rs).2 in
  r_status <$> rs' !! 1%nat = Some (Completed {| hostname := host; response := reply 250 |}) ∧
  taken params picky (accepted_of (da_rcpt picky) 0 (pending_rcpts 0 rs)) 1 (reply 250).
Proof.
  intros rs rs'. destruct (deliver (mail_to []) 0 params picky rs) as [s l] eqn:Hd.
  destruct (rs !! 1%nat) as [r|] eqn:Hr; [|by vm_compute in Hr].
  destruct (l !! 1%nat) as [r'|] eqn:Hr'; [|vm_compute in Hd; by injection Hd as <- <-].
  assert (r_status r' = Completed {| hostname := host; response := reply 250 |}) as Hs.
  { vm_compute in Hd. injection Hd as <- <-. by injection Hr' as <-. }
  split; [cbn; by rewrite Hr', <- Hs|].
  apply (delivered_was_accepted (mail_to []) 0 params picky rs l s 1 r r'
    {| hostname := host; response := reply 250 |}); try done.
  vm_compute in Hr. by injection Hr as <-.
Defined.

(** The server answers 450 to the only recipient; at the next attempt it answers 550 to
    MAIL.  The domain has failed, the message is removed, and the sender, who asked to
    be told of failures, is told nothing. *)
Lemma temporary_failure_dropped :
  reports (deliver_tasks coin no_hash 0 key_hash
    [(task_at 100 20 (λ _, session 250 (λ _, 450) 250), ev 100 7 400);
     (task_at 200 30 (λ _, session 550 (λ _, 450) 250), ev 160 7 500)]
    (with_domains (take 1 (domains (mail_to []))) (mail_to [0]%nat)) server0)
  = Some (true, [(0, 0)%nat]).
Proof. by vm_compute. Qed.

(** The notice cannot be queued: the message is removed and nobody is told. *)
Lemma notice_lost :
  let no_blobs := {| qa_reserve := None; qa_put_blob := false; qa_write := None; qa_channel := true |} in
  let m := with_domains (take 1 (domains (mail_to []))) (mail_to [0]%nat) in
  let a := task_at 800 30 (λ _, AtFailed false (Io [])) in
  let a := {| tk_pending_now := 800; tk_dsn1 := dsn_at 800 30 no_blobs; tk_due_now := 800; tk_check_now := 800;
              tk_sender_throttle := None; tk_domain := tk_domain a; tk_dsn2 := tk_dsn2 a; tk_next_now := 800;
              tk_engine := None; tk_channel := true |} in
  match deliver_task coin no_hash 0 key_hash a (ev 100 7 400) m server0 with
  | Some res => tr_removed res = true ∧ next_events 10000000 (store (tr_server res)) = []
  | None => False
  end.
Proof. by vm_compute. Qed.

(** A task that only sends a delay notice puts the message back at its next retry,
    though the domain expires before that. *)
Definition late_retry : Message :=
  with_domains [{| domain := [97]; retry := {| due := 5000; inner := 3 |}; notify := {| due := 100; inner := 0 |};
                   expires := 800; d_status := TemporaryFailure RateLimited |}]
    (with_recipients (set_rcpt Scheduled 14 <$> recipients (mail_to [0]%nat)) (mail_to [])).

Lemma expiry_overslept :
  match deliver_task coin no_hash 0 key_hash (task_at 100 20 (λ _, AtFailed false (Io []))) (ev 100 7 400) late_retry server0 with
  | Some res =>
      length (tr_dsns res) = 1%nat ∧ next_event 100 (tr_message res) = Some 800 ∧
      (λ e, (ev_due e, ev_queue_id e)) <$> next_events 10000000 (store (tr_server res)) = [(100, 20); (5000, 7)]
  | None => False
  end.
Proof. by vm_compute. Qed.
End WorkerExample.
