(* ===== verification/SmtpEnvelope.v ===== *)
(** * The envelope of an SMTP session and the filters that change it

    crates/smtp/src: the data of a session (core/mod.rs), what Sieve scripts may do to
    it (scripts/envelope.rs), the answers of milters (inbound/milter/message.rs) and of
    MTA hooks (inbound/hooks/message.rs), the message they leave, and the queue entry
    that is built from the envelope ([build_message] of inbound/data.rs).  The
    lower-case map of Unicode and the parser of ESMTP parameters are parameters; so is
    what milters, hooks and the configuration answer. *)

From stdpp Require Import sorting.
From coqutil Require Import Datatypes.RecordSettersUsingExistingGetters.
From S2P Require Import Prelude Decimal StoreKeys KvStore StoreTxn SmtpQueue SmtpDelivery SmtpWorker.

#[local] Open Scope chr_scope.

(** ** core/mod.rs *)

Record SessionAddress := {
  sa_address : bytes;
  sa_address_lcase : bytes;
  sa_domain : bytes;
  sa_flags : Z;
  dsn_info : option bytes;
}.

(** The account of a session: its name and its addresses. *)
Record AccessToken := { at_name : bytes; at_emails : list bytes }.

(** The results of mail_auth that the session looks at. *)
Inductive IprevResult := IprevPass | IprevFail | IprevTempError | IprevPermError | IprevNone.
Inductive SpfResult := SpfPass | SpfFail | SpfSoftFail | SpfNeutral | SpfTempError | SpfPermError | SpfNone.

(** [SessionData] without the addresses of the two ends and the id for the logs. *)
Record SessionData := {
  helo_domain : bytes;
  mail_from : option SessionAddress;
  rcpt_to : list SessionAddress;
  rcpt_errors : nat;
  rcpt_oks : nat;
  sd_message : bytes;
  authenticated_as : option AccessToken;
  auth_errors : nat;
  sd_priority : Z;
  delivery_by : Z;
  future_release : Z;
  valid_until : Z;
  bytes_left : Z;
  messages_sent : nat;
  iprev : option IprevResult;
  spf_ehlo : option SpfResult;
  spf_mail_from : option SpfResult;
}.

Definition session_data_new (now : Z) : SessionData := {|
  helo_domain := []; mail_from := None; rcpt_to := []; rcpt_errors := 0; rcpt_oks := 0;
  sd_message := []; authenticated_as := None; auth_errors := 0; sd_priority := 0;
  delivery_by := 0; future_release := 0; valid_until := now; bytes_left := 0; messages_sent := 0;
  iprev := None; spf_ehlo := None; spf_mail_from := None |}.

(** [PartialEq] and [Ord] *)
Definition sa_eqb (a b : SessionAddress) : bool :=
  bool_decide (sa_address_lcase a = sa_address_lcase b).

Definition sa_cmp (a b : SessionAddress) : comparison :=
  match bytes_compare (sa_domain a) (sa_domain b) with
  | Eq => bytes_compare (sa_address_lcase a) (sa_address_lcase b)
  | order => order
  end.

Definition sa_le (a b : SessionAddress) : Prop := sa_cmp a b ≠ Gt.

#[export] Instance sa_le_dec : RelDecision sa_le.
Proof. intros a b. unfold sa_le. apply _. Defined.

(** [rcpt_to.contains(&rcpt)] *)
Definition has_rcpt (a : SessionAddress) (l : list SessionAddress) : bool := existsb (sa_eqb a) l.

(** Flags of smtp_proto, its parser of ESMTP parameters, and [str::to_lowercase]. *)
Class SmtpSyntax := {
  to_lowercase : bytes → bytes;
  MAIL_BY_NOTIFY : Z;
  MAIL_BY_RETURN : Z;
  MAIL_BY_TRACE : Z;
  mail_from_parameters : bytes → option (Z * option bytes);
  rcpt_to_parameters : bytes → option (Z * option bytes);
}.

(** The flags of a recipient are in the low half of the word. *)
Class SmtpSyntaxLaw `{SmtpSyntax} : Prop :=
  rcpt_parameters_low l flags info : rcpt_to_parameters l = Some (flags, info) → fits 32 flags.

Definition contains_at (l : bytes) : bool := bool_decide ("@" ∈ l).

Section Addresses.
Context `{SmtpSyntax}.

Definition address_of (address : bytes) (flags : Z) (info : option bytes) : SessionAddress :=
  let lcase := to_lowercase address in
  {| sa_address := address; sa_address_lcase := lcase; sa_domain := domain_part lcase;
     sa_flags := flags; dsn_info := info |}.

(** [SessionAddress::new] *)
Definition session_address_new (address : bytes) : SessionAddress := address_of address 0 None.

(** [address], [address_lcase] and [domain] replaced. *)
Definition readdress (address : bytes) (a : SessionAddress) : SessionAddress :=
  let lcase := to_lowercase address in
  a <| sa_address := address |><| sa_address_lcase := lcase |><| sa_domain := domain_part lcase |>.

Definition unaddress (a : SessionAddress) : SessionAddress :=
  a <| sa_address := [] |><| sa_address_lcase := [] |><| sa_domain := [] |>.
End Addresses.

(** [last_mut] *)
Definition alter_last {A} (f : A → A) (l : list A) : list A := alter f (pred (length l)) l.

(** ** scripts/envelope.rs *)

Inductive EnvelopeField :=
| EnvFrom | EnvTo | EnvByMode | EnvByTrace | EnvNotify | EnvRet | EnvOrcpt | EnvEnvid
| EnvByTimeAbsolute | EnvByTimeRelative.

(** [value.split(c)] *)
Fixpoint split_on (c : Z) (l : bytes) : list bytes :=
  match l with
  | [] => [[]]
  | x :: l =>
      if x =? c then [] :: split_on c l
      else match split_on c l with p :: ps => (x :: p) :: ps | [] => [[x]] end
  end.

Section Scripts.
Context `{SmtpProto} `{SmtpSyntax}.

(** [flags &= !mask] *)
Definition clear_flags (mask flags : Z) : Z := Z.ldiff flags mask.

Definition RCPT_NOTIFY_ANY : Z :=
  ((RCPT_NOTIFY_DELAY .| RCPT_NOTIFY_FAILURE) .| RCPT_NOTIFY_SUCCESS) .| RCPT_NOTIFY_NEVER.

Definition notify_flag (value : bytes) (flags : Z) : Z :=
  let value := trim value in
  if bool_decide (value = str "SUCCESS") then flags .| RCPT_NOTIFY_SUCCESS
  else if bool_decide (value = str "FAILURE") then flags .| RCPT_NOTIFY_FAILURE
  else if bool_decide (value = str "DELAY") then flags .| RCPT_NOTIFY_DELAY
  else flags.

Definition notify_flags (value : bytes) (flags : Z) : Z :=
  let flags := clear_flags RCPT_NOTIFY_ANY flags in
  if bool_decide (value = str "NEVER") then flags .| RCPT_NOTIFY_NEVER
  else foldl (λ flags v, notify_flag v flags) flags (split_on "," value).

Definition set_from (value : bytes) (d : SessionData) : SessionData :=
  if contains_at value then
    d <| mail_from := Some match mail_from d with
                           | Some a => readdress value a
                           | None => session_address_new value
                           end |>
  else if bool_decide (value = []) then
    d <| mail_from := Some match mail_from d with
                           | Some a => unaddress a
                           | None => unaddress (session_address_new [])
                           end |>
  else d.

Definition set_to (value : bytes) (d : SessionData) : SessionData :=
  if contains_at value then
    match rcpt_to d with
    | [] => d <| rcpt_to := [session_address_new value] |>
    | l => d <| rcpt_to := alter_last (readdress value) l |>
    end
  else d.

Definition on_from_flags (f : Z → Z) (d : SessionData) : SessionData :=
  d <| mail_from ::= fmap (λ a, a <| sa_flags ::= f |>) |>.

Definition apply_envelope_modification (envelope : EnvelopeField) (value : bytes) (d : SessionData)
    : SessionData :=
  match envelope with
  | EnvFrom => set_from value d
  | EnvTo => set_to value d
  | EnvByMode =>
      on_from_flags (λ flags,
        let flags := clear_flags (MAIL_BY_NOTIFY .| MAIL_BY_RETURN) flags in
        if bool_decide (value = str "N") then flags .| MAIL_BY_NOTIFY
        else if bool_decide (value = str "R") then flags .| MAIL_BY_RETURN
        else flags) d
  | EnvByTrace =>
      on_from_flags (λ flags,
        if bool_decide (value = str "T") then flags .| MAIL_BY_TRACE
        else clear_flags MAIL_BY_TRACE flags) d
  | EnvNotify => d <| rcpt_to ::= alter_last (λ a, a <| sa_flags ::= notify_flags value |>) |>
  | EnvRet =>
      on_from_flags (λ flags,
        let flags := clear_flags (MAIL_RET_FULL .| MAIL_RET_HDRS) flags in
        if bool_decide (value = str "FULL") then flags .| MAIL_RET_FULL
        else if bool_decide (value = str "HDRS") then flags .| MAIL_RET_HDRS
        else flags) d
  | EnvOrcpt => d <| rcpt_to ::= alter_last (λ a, a <| dsn_info := Some value |>) |>
  | EnvEnvid => d <| mail_from ::= fmap (λ a, a <| dsn_info := Some value |>) |>
  | EnvByTimeAbsolute | EnvByTimeRelative => d
  end.

(** common/src/scripts/mod.rs and smtp/src/scripts/mod.rs *)
Inductive ScriptModification :=
| SetEnvelope (name : EnvelopeField) (value : bytes)
| ScriptAddHeader (name value : bytes).

Inductive ScriptResult :=
| ScriptAccept (modifications : list ScriptModification)
| ScriptReplace (message : bytes) (modifications : list ScriptModification)
| ScriptReject (message : bytes)
| ScriptDiscard.

(** The loop over the modifications of a script, headers aside. *)
Definition script_modify (d : SessionData) (m : ScriptModification) : SessionData :=
  match m with
  | SetEnvelope name value => apply_envelope_modification name value d
  | ScriptAddHeader _ _ => d
  end.
Definition apply_script (l : list ScriptModification) (d : SessionData) : SessionData :=
  foldl script_modify d l.

Definition ends_line (value : bytes) : bool := bool_decide (last value = Some 10).
Definition CRLF : bytes := [13; 10].

(** The headers that a script adds. *)
Definition script_headers (l : list ScriptModification) (headers : bytes) : bytes :=
  foldl (λ headers m, match m with
                      | ScriptAddHeader name value =>
                          headers ++ name ++ str ": " ++ value ++ (if ends_line value then [] else CRLF)
                      | SetEnvelope _ _ => headers
                      end) headers l.
End Scripts.

(** ** inbound/mod.rs *)

Record FilterResponse := { fr_message : bytes; fr_disconnect : bool }.

Definition line (text : bytes) : bytes := text ++ CRLF.

Definition MESSAGE_QUEUED : bytes := line (str "250 2.0.0 Message queued for delivery.").

Definition response_accept : FilterResponse := {| fr_message := MESSAGE_QUEUED; fr_disconnect := false |}.
Definition response_reject : FilterResponse :=
  {| fr_message := line (str "503 5.5.3 Message rejected."); fr_disconnect := false |}.
Definition response_temp_fail : FilterResponse :=
  {| fr_message := line (str "451 4.3.5 Unable to accept message at this time."); fr_disconnect := false |}.
Definition response_shutdown : FilterResponse :=
  {| fr_message := line (str "421 4.3.0 Server shutting down."); fr_disconnect := true |}.
Definition response_server_failure : FilterResponse :=
  {| fr_message := line (str "451 4.3.5 Unable to accept message at this time."); fr_disconnect := false |}.
Definition response_disconnect : FilterResponse := {| fr_message := []; fr_disconnect := true |}.

(** ** inbound/milter *)

Inductive Modification :=
| ChangeFrom (sender args : bytes)
| AddRcpt (recipient args : bytes)
| DeleteRcpt (recipient : bytes)
| ReplaceBody (value : bytes)
| AddHeader (name value : bytes)
| InsertHeader (index : Z) (name value : bytes)
| ChangeHeader (index : Z) (name value : bytes)
| Quarantine (reason : bytes).

Inductive Action :=
| ActAccept | ActContinue | ActDiscard | ActReject | ActTempFail
| ActReplyCode (code text : bytes)
| ActShutdown | ActConnectionFailure.

(** [Rejection::Action] and [Rejection::Error] *)
Inductive Rejection := RejectAction (a : Action) | RejectError.

Definition assert_continue (a : Action) : result Rejection () :=
  match a with ActContinue | ActAccept => Ok () | a => Err (RejectAction a) end.

(** The dialogue of [run] with one milter: its answers to the stages that are sent
    ([None] is an error of the connection), and, with a message, to the body. *)
Fixpoint milter_stages (answers : list (option Action)) : result Rejection () :=
  match answers with
  | [] => Ok ()
  | None :: _ => Err RejectError
  | Some a :: answers => _ ← assert_continue a; milter_stages answers
  end.

Definition milter_run (stages : list (option Action)) (body : option (option (Action * list Modification)))
    : result Rejection (list Modification) :=
  _ ← milter_stages stages;
  match body with
  | None => Ok []
  | Some None => Err RejectError
  | Some (Some (a, modifications)) => _ ← assert_continue a; Ok modifications
  end.

Definition is_replace_body (m : Modification) : bool := match m with ReplaceBody _ => true | _ => false end.

Definition keep_headers (l : list Modification) : list Modification :=
  filter (λ m, negb (is_replace_body m)) l.

(** The body is replaced once: a later replacement removes the earlier ones. *)
Definition add_modifications (old new : list Modification) : list Modification :=
  if bool_decide (old = []) then new
  else (if existsb is_replace_body new then keep_headers old else old) ++ new.

(** [None] is the [unreachable!()]. *)
Definition action_response (a : Action) : option FilterResponse :=
  match a with
  | ActDiscard => Some response_accept
  | ActReject => Some response_reject
  | ActTempFail => Some response_temp_fail
  | ActReplyCode code text =>
      Some {| fr_message := code ++ [32] ++ text ++ (if ends_line text then [] else CRLF);
              fr_disconnect := false |}
  | ActShutdown => Some response_shutdown
  | ActConnectionFailure => Some response_disconnect
  | ActAccept | ActContinue => None
  end.

(** A configured milter: whether it runs at this stage, what it does on errors, and
    its answers. *)
Record Milter := {
  mi_runs : bool;
  mi_tempfail_on_error : bool;
  mi_stages : list (option Action);
  mi_body : option (option (Action * list Modification));
}.

Fixpoint milters_loop (l : list Milter) (modifications : list Modification)
    : option (result FilterResponse (list Modification)) :=
  match l with
  | [] => Some (Ok modifications)
  | m :: l =>
      if negb (mi_runs m) then milters_loop l modifications
      else
        match milter_run (mi_stages m) (mi_body m) with
        | Ok new => milters_loop l (add_modifications modifications new)
        | Err (RejectAction a) => r ← action_response a; Some (Err r)
        | Err RejectError =>
            if mi_tempfail_on_error m then Some (Err response_server_failure)
            else milters_loop l modifications
        end
  end.

Definition run_milters (l : list Milter) : option (result FilterResponse (list Modification)) :=
  milters_loop l [].

(** ** inbound/hooks/message.rs *)

Inductive HookAction := HookAccept | HookDiscard | HookReject | HookQuarantine.

Inductive HookModification :=
| HmChangeFrom (value : bytes) (parameters : list (bytes * option bytes))
| HmAddRecipient (value : bytes) (parameters : list (bytes * option bytes))
| HmDeleteRecipient (value : bytes)
| HmReplaceContents (value : bytes)
| HmAddHeader (name value : bytes)
| HmInsertHeader (index : Z) (name value : bytes)
| HmChangeHeader (index : Z) (name value : bytes)
| HmDeleteHeader (index : Z) (name : bytes).

Record SmtpResponse := {
  hr_status : option Z;
  hr_enhanced_status : option bytes;
  hr_message : option bytes;
  hr_disconnect : bool;
}.

Record HookResponse := {
  hk_action : HookAction;
  hk_response : option SmtpResponse;
  hk_modifications : list HookModification;
}.

(** The parameters in the order of the map's iterator. *)
Definition flatten_parameters (parameters : list (bytes * option bytes)) : bytes :=
  foldl (λ arguments '(key, value),
    arguments ++ (if bool_decide (arguments = []) then [] else [32]) ++ key
    ++ from_option (λ v, "=" :: v) [] value) [] parameters.

Definition hook_modification (m : HookModification) : Modification :=
  match m with
  | HmChangeFrom value parameters => ChangeFrom value (flatten_parameters parameters)
  | HmAddRecipient value parameters => AddRcpt value (flatten_parameters parameters)
  | HmDeleteRecipient value => DeleteRcpt value
  | HmReplaceContents value => ReplaceBody value
  | HmAddHeader name value => AddHeader name value
  | HmInsertHeader index name value => InsertHeader index name value
  | HmChangeHeader index name value => ChangeHeader index name value
  | HmDeleteHeader index name => ChangeHeader index name []
  end.

(** The reply of a hook that names its status and text. *)
Definition hook_reply (r : option SmtpResponse) (message : FilterResponse) : FilterResponse :=
  match r with
  | None => message
  | Some r =>
      {| fr_message :=
           match hr_status r, hr_message r with
           | Some status, Some text =>
               line (uint_to_string status ++ [32]
                     ++ from_option (λ e, e ++ [32]) [] (hr_enhanced_status r) ++ text)
           | _, _ => fr_message message
           end;
         fr_disconnect := hr_disconnect r |}
  end.

(** A configured hook; [ho_answer] is [None] when the request fails. *)
Record Hook := {
  ho_runs : bool;
  ho_tempfail_on_error : bool;
  ho_answer : option HookResponse;
}.

Fixpoint hooks_loop (l : list Hook) (modifications : list Modification)
    : result FilterResponse (list Modification) :=
  match l with
  | [] => Ok modifications
  | h :: l =>
      if negb (ho_runs h) then hooks_loop l modifications
      else
        match ho_answer h with
        | Some r =>
            let modifications :=
              add_modifications modifications (hook_modification <$> hk_modifications r) in
            match hk_action r with
            | HookAccept => hooks_loop l modifications
            | HookDiscard => Err (hook_reply (hk_response r) response_accept)
            | HookReject => Err (hook_reply (hk_response r) response_reject)
            | HookQuarantine =>
                (* pushed, and dropped with the return *)
                let _ := modifications ++ [AddHeader (str "X-Quarantine") (str "true")] in
                Err (hook_reply (hk_response r) response_accept)
            end
        | None =>
            if ho_tempfail_on_error h then Err response_server_failure
            else hooks_loop l modifications
        end
  end.

Definition run_mta_hooks (l : list Hook) : result FilterResponse (list Modification) := hooks_loop l [].

(** ** inbound/milter/message.rs: the changes that filters ask for *)

(** What the changes use of [AuthenticatedMessage]. *)
Record ParsedMessage := {
  raw_headers : bytes;
  raw_body : bytes;
  raw_parsed_headers : list (bytes * bytes);
}.

Record HeaderChange := {
  hc_index : Z;
  hc_name : bytes;
  hc_value : bytes;
  hc_is_change : bool;
}.

Definition ascii_lower (c : Z) : Z := if ("A" <=? c) && (c <=? "Z") then c + 32 else c.
Definition eq_ignore_ascii_case (a b : bytes) : bool :=
  bool_decide (ascii_lower <$> a = ascii_lower <$> b).

Definition is_ascii_whitespace (c : Z) : bool :=
  (c =? 32) || (c =? 9) || (c =? 10) || (c =? 12) || (c =? 13).

(** [addr.rsplit_once('>')], its first half *)
Fixpoint before_last (c : Z) (l : bytes) : option bytes :=
  match l with
  | [] => None
  | x :: l =>
      match before_last c l with
      | Some a => Some (x :: a)
      | None => if x =? c then Some [] else None
      end
  end.

Definition strip_brackets (addr : bytes) : bytes :=
  let addr := trim addr in
  match addr with
  | c :: rest =>
      if c =? "<" then trim (default rest (before_last ">" rest)) else addr
  | [] => addr
  end.

(** The position of the [index]-th header of the name. *)
Fixpoint nth_header (name : bytes) (index count : Z) (pos : nat) (l : list (bytes * bytes)) : option nat :=
  match l with
  | [] => None
  | (n, _) :: l =>
      if eq_ignore_ascii_case n name then
        if count + 1 =? index then Some pos else nth_header name index (count + 1) (S pos) l
      else nth_header name index count (S pos) l
  end.

(** The position where [InsertHeader] puts its header: that of the [index]-th header
    of the name, else of the last one, else the front. *)
Fixpoint insert_position (name : bytes) (index count : Z) (pos found : nat) (l : list (bytes * bytes)) : nat :=
  match l with
  | [] => found
  | (n, _) :: l =>
      if eq_ignore_ascii_case n name then
        if count + 1 =? index then pos else insert_position name index (count + 1) (S pos) pos l
      else insert_position name index count (S pos) found l
  end.

Definition change_header (headers : list (bytes * bytes)) (c : HeaderChange) : list (bytes * bytes) :=
  if hc_is_change c then
    match nth_header (hc_name c) (hc_index c) 0 0 headers with
    | Some pos =>
        if bool_decide (hc_value c = []) then delete pos headers
        else alter (λ h, (h.1, hc_value c)) pos headers
    | None => headers
    end
  else
    let pos := if 0 <? hc_index c then insert_position (hc_name c) (hc_index c) 0 0 0 headers else O in
    take pos headers ++ (hc_name c, hc_value c) :: drop pos headers.

Definition write_header (h : bytes * bytes) : bytes :=
  h.1 ++ (if from_option is_ascii_whitespace false (head h.2) then str ":" else str ": ")
  ++ h.2 ++ (if ends_line h.2 then [] else CRLF).

Definition rewrite_message (body : bytes) (changes : list HeaderChange) (needs_rewrite : bool)
    (m : ParsedMessage) : option bytes :=
  if bool_decide (changes = []) then
    if bool_decide (body = []) then None else Some (raw_headers m ++ body)
  else
    let new_body := if bool_decide (body = []) then raw_body m else body in
    if needs_rewrite then
      Some ((foldl change_header (raw_parsed_headers m) changes ≫= write_header) ++ CRLF ++ new_body)
    else
      Some ((changes ≫= λ c, hc_name c ++ str ": " ++ hc_value c
                             ++ (if ends_line (hc_value c) then [] else CRLF))
            ++ raw_headers m ++ new_body).

Section Milters.
Context `{SmtpSyntax}.

(** The parameters of a sender or recipient; those that do not parse are ignored. *)
Definition with_parameters (parse : bytes → option (Z * option bytes)) (args : bytes) (a : SessionAddress)
    : SessionAddress :=
  if bool_decide (args = []) then a
  else
    match parse (args ++ [10]) with
    | Some (flags, info) => a <| sa_flags := flags |><| dsn_info := info |>
    | None => a
    end.

(** The changes of the envelope. *)
Definition change_envelope (d : SessionData) (m : Modification) : SessionData :=
  match m with
  | ChangeFrom sender args =>
      d <| mail_from := Some (with_parameters mail_from_parameters args
                                (session_address_new (strip_brackets sender))) |>
  | AddRcpt recipient args =>
      let recipient := strip_brackets recipient in
      if contains_at recipient then
        let rcpt := with_parameters rcpt_to_parameters args (session_address_new recipient) in
        if has_rcpt rcpt (rcpt_to d) then d else d <| rcpt_to ::= λ l, l ++ [rcpt] |>
      else d
  | DeleteRcpt recipient =>
      let recipient := strip_brackets recipient in
      d <| rcpt_to ::= filter (λ a, sa_address_lcase a ≠ recipient) |>
  | _ => d
  end.

(** The changes of the message: the new body, the headers, whether they are rewritten. *)
Definition change_message (m : ParsedMessage) (acc : bytes * list HeaderChange * bool) (c : Modification)
    : bytes * list HeaderChange * bool :=
  let '(body, changes, needs_rewrite) := acc in
  let change index name value is_change :=
    changes ++ [{| hc_index := index; hc_name := name; hc_value := value; hc_is_change := is_change |}] in
  match c with
  | ReplaceBody value => (body ++ value, changes, needs_rewrite)
  | AddHeader name value => (body, change 0 name value false, needs_rewrite)
  | InsertHeader index name value => (body, change index name value false, true)
  | ChangeHeader index name value =>
      if bool_decide (value = [])
         || existsb (λ h, eq_ignore_ascii_case h.1 name) (raw_parsed_headers m)
      then (body, change index name value true, true)
      else (body, change 0 name value false, needs_rewrite)
  | Quarantine reason => (body, change 0 (str "X-Quarantine") reason false, needs_rewrite)
  | ChangeFrom _ _ | AddRcpt _ _ | DeleteRcpt _ => acc
  end.

Definition apply_milter_modifications (modifications : list Modification) (m : ParsedMessage)
    (d : SessionData) : option bytes * SessionData :=
  let '(body, changes, needs_rewrite) := foldl (change_message m) ([], [], false) modifications in
  (rewrite_message body changes needs_rewrite m, foldl change_envelope d modifications).
End Milters.

(** ** inbound/data.rs: the entry of the queue *)

(** What [build_message] reads for one domain: the clock, three times, and the
    schedules of the configuration, in seconds. *)
Record DomainAnswers := {
  bd_retry_now : Z;
  bd_notify_now : Z;
  bd_expires_now : Z;
  bd_notify : option (list Z);
  bd_expire : option Z;
}.

Record BuildAnswers := {
  ba_created : Z;
  ba_domain : nat → DomainAnswers;
}.

(** [Duration + Duration], which panics on overflow, and [Schedule::later] *)
Definition duration_add (a b : Z) : option Z := if a + b <=? u64_max then Some (a + b) else None.
Definition schedule_later (now duration : Z) : Schedule := {| due := wrap 64 (now + duration); inner := 0 |}.

Section BuildMessage.
Context `{SmtpProto} `{SmtpSyntax}.

(** How many notifications there are and when the first one is. *)
Definition notify_intervals (a : DomainAnswers) : Z * Z :=
  match bd_notify a with
  | Some (next :: rest) => (Z.of_nat (length rest) + 1, next)
  | _ => (1, 86400)
  end.

(** The next notification and the expiry of a domain. *)
Definition notify_expires (d : SessionData) (flags : Z) (a : DomainAnswers) : option (Schedule * Z) :=
  let '(num_intervals, next_notify) := notify_intervals a in
  let expire := default (5 * 86400) (bd_expire a) in
  if delivery_by d =? 0 then
    later ← duration_add (future_release d) next_notify;
    Some (schedule_later (bd_notify_now a) later,
          wrap 64 (bd_expires_now a + future_release d + expire))
  else if flag_set flags MAIL_BY_RETURN then
    later ← duration_add (future_release d) next_notify;
    Some (schedule_later (bd_notify_now a) later,
          wrap 64 (bd_expires_now a + wrap 64 (delivery_by d)))
  else
    let wait :=
      if 0 <? delivery_by d then
        let notify_at := wrap 64 (delivery_by d) in
        if notify_at <? expire then notify_at else next_notify
      else
        let notify_at := wrap 64 (- delivery_by d) in
        if notify_at <? expire then expire - notify_at else next_notify in
    later ← duration_add (future_release d) wait;
    Some ({| due := due (schedule_later (bd_notify_now a) later); inner := wrap 32 (num_intervals - 1) |},
          wrap 64 (bd_expires_now a + expire)).

Definition build_domain (d : SessionData) (flags : Z) (name : bytes) (a : DomainAnswers) : option Domain :=
  '(notify, expires) ← notify_expires d flags a;
  Some {| domain := name;
          retry := if future_release d =? 0 then {| due := bd_retry_now a; inner := 0 |}
                   else schedule_later (bd_retry_now a) (future_release d);
          notify := notify; expires := expires; d_status := Scheduled |}.

Definition build_recipient (idx : nat) (a : SessionAddress) : Recipient := {|
  domain_idx := idx; address := sa_address a; address_lcase := sa_address_lcase a;
  r_status := Scheduled;
  r_flags := if flag_set (sa_flags a) RCPT_NOTIFY_ANY then sa_flags a
             else (sa_flags a .| RCPT_NOTIFY_DELAY) .| RCPT_NOTIFY_FAILURE;
  orcpt := dsn_info a |}.

(** The loop over the recipients: a new domain when it is not that of the last one. *)
Fixpoint build_loop (d : SessionData) (flags : Z) (answers : nat → DomainAnswers)
    (l : list SessionAddress) (ds : list Domain) (rs : list Recipient)
    : option (list Domain * list Recipient) :=
  match l with
  | [] => Some (ds, rs)
  | a :: l =>
      ds ← (if from_option (λ x, bool_decide (domain x = sa_domain a)) false (last ds) then Some ds
            else x ← build_domain d flags (sa_domain a) (answers (length ds)); Some (ds ++ [x]));
      build_loop d flags answers l ds (rs ++ [build_recipient (pred (length ds)) a])
  end.

(** [sort_unstable] is the stable sort here: recipients that compare equal have the same
    address. *)
Definition build_message (ans : BuildAnswers) (from : SessionAddress) (rcpts : list SessionAddress)
    (id : Z) (d : SessionData) : option Message :=
  '(ds, rs) ← build_loop d (sa_flags from) (ba_domain ans) (merge_sort sa_le rcpts) [] [];
  Some {| queue_id := id; created := ba_created ans; blob_hash := [];
          return_path := sa_address from; return_path_lcase := sa_address_lcase from;
          return_path_domain := sa_domain from; recipients := rs; domains := ds;
          m_flags := sa_flags from; env_id := dsn_info from; priority := sd_priority d; size := 0;
          quota_keys := [] |}.
End BuildMessage.

(** ** Milters *)

Lemma assert_continue_err a x : assert_continue a = Err x → x = RejectAction a ∧ is_Some (action_response a).
Proof. destruct a; intros [= <-]; by split; [|eexists]. Qed.

Lemma milter_stages_err answers a : milter_stages answers = Err (RejectAction a) → is_Some (action_response a).
Proof.
  induction answers as [|[b|] answers IH]; [done| |done]. cbn [milter_stages].
  destruct (assert_continue b) as [x|x] eqn:Ha; cbn [mbind result_bind]; [done|].
  apply assert_continue_err in Ha as [-> Hr]. by intros [= <-].
Qed.

Lemma milter_run_err stages body a : milter_run stages body = Err (RejectAction a) → is_Some (action_response a).
Proof.
  unfold milter_run. destruct (milter_stages stages) as [x|x] eqn:Hs; cbn [mbind result_bind].
  - destruct body as [[[b l]|]|]; try done. destruct (assert_continue b) eqn:Ha; cbn [mbind result_bind]; [done|].
    apply assert_continue_err in Ha as [-> Hr]. by intros [= <-].
  - intros [= ->]. by eapply milter_stages_err.
Qed.

(** The [unreachable!()] of [run_milters] is not reached. *)
Lemma run_milters_total l : is_Some (run_milters l).
Proof.
  unfold run_milters. generalize (@nil Modification). induction l as [|m l IH]; intros acc; [by eexists|].
  cbn [milters_loop]. destruct (negb (mi_runs m)); [apply IH|].
  destruct (milter_run _ _) as [new|[a|]] eqn:Hr; [apply IH| |].
  - apply milter_run_err in Hr as [r ->]. by eexists.
  - destruct (mi_tempfail_on_error m); [by eexists|apply IH].
Qed.

(** ** The entry of the queue *)

Section Entries.
Context `{SmtpProto} `{!SmtpProtoLaw} `{SmtpSyntax}.

(** A domain as [build_message] makes it. *)
Record domain_built (d : SessionData) (flags : Z) (a : DomainAnswers) (x : Domain) : Prop := {
  db_status : d_status x = Scheduled;
  db_retry : due (retry x) = (if future_release d =? 0 then bd_retry_now a
                              else wrap 64 (bd_retry_now a + future_release d));
  db_retries : inner (retry x) = 0;
  db_schedule : notify_expires d flags a = Some (notify x, expires x);
}.

Lemma build_domain_spec d flags name a x :
  build_domain d flags name a = Some x → domain x = name ∧ domain_built d flags a x.
Proof.
  unfold build_domain. destruct (notify_expires d flags a) as [[n e]|] eqn:Hn; [|done].
  intros [= <-]. split; [done|]. split; cbn; [done| |by destruct (_ =? 0)|done]. by destruct (_ =? 0).
Qed.

(** What a recipient of the envelope becomes. *)
Definition rcpt_built (ds : list Domain) (a : SessionAddress) (r : Recipient) : Prop :=
  r = build_recipient (domain_idx r) a ∧ domain <$> ds !! domain_idx r = Some (sa_domain a).

Lemma rcpt_built_grow ds ds' a r : rcpt_built ds a r → rcpt_built (ds ++ ds') a r.
Proof.
  intros [Hr Hd]. split; [done|]. destruct (ds !! domain_idx r) eqn:He; [|done].
  by rewrite (lookup_app_l_Some _ _ _ _ He).
Qed.

Lemma sa_le_lex a b :
  sa_le a b ↔ bytes_lt (sa_domain a) (sa_domain b) ∨
    (sa_domain a = sa_domain b ∧ bytes_le (sa_address_lcase a) (sa_address_lcase b)).
Proof.
  unfold sa_le, sa_cmp, bytes_lt, bytes_le.
  destruct (bytes_compare (sa_domain a) (sa_domain b)) eqn:Hc.
  - apply bytes_compare_eq in Hc. naive_solver.
  - naive_solver.
  - split; [done|]. intros [?|[He _]]; [done|]. apply bytes_compare_eq in He. congruence.
Qed.

#[export] Instance sa_le_trans : Transitive sa_le.
Proof.
  intros a b c. rewrite !sa_le_lex. intros [Hab|[-> Hab]] [Hbc|[Hd Hbc]].
  - left. by etrans.
  - left. by rewrite <- Hd.
  - by left.
  - right. split; [done|]. by etrans.
Qed.

#[export] Instance sa_le_total : Total sa_le.
Proof.
  intros a b. rewrite !sa_le_lex. destruct (decide (bytes_le (sa_domain a) (sa_domain b))) as [Hd|Hd%bytes_not_le];
    [|by right; left]. apply bytes_le_lt_eq in Hd as [Hd|Hd]; [by left; left|].
  destruct (bytes_le_total (sa_address_lcase a) (sa_address_lcase b)); [left|right]; by right.
Qed.

(** The names of the domains so far, and the addresses still to come. *)
Definition names_ok (ds : list Domain) (l : list SessionAddress) : Prop :=
  StronglySorted bytes_lt (domain <$> ds) ∧
  ∀ x a, last ds = Some x → a ∈ l → bytes_le (domain x) (sa_domain a).

Lemma strongly_sorted_snoc {A} (R : A → A → Prop) `{!Transitive R} (l : list A) x :
  StronglySorted R l → (∀ y, last l = Some y → R y x) → StronglySorted R (l ++ [x]).
Proof.
  induction l as [|y l IH]; intros Hs Hlast; [by repeat constructor|].
  apply StronglySorted_inv in Hs as [Hs Hy]. cbn [app]. constructor.
  - apply IH; [done|]. intros z Hz. apply Hlast. destruct l; done.
  - apply Forall_app. split; [done|]. apply Forall_singleton. destruct (last l) as [z|] eqn:Hz.
    + trans z; [|apply Hlast; by destruct l]. rewrite Forall_forall in Hy. by apply Hy, last_Some_elem_of.
    + apply last_None in Hz as ->. by apply Hlast.
Qed.

Lemma names_ok_same ds a l :
  names_ok ds (a :: l) → StronglySorted sa_le (a :: l) → names_ok ds l.
Proof. intros [Hs Hlast] _. split; [done|]. intros x b Hx Hb. eapply Hlast; [done|by right]. Qed.

Lemma names_ok_new ds a l x :
  names_ok ds (a :: l) → StronglySorted sa_le (a :: l) → domain x = sa_domain a →
  from_option (λ y, bool_decide (domain y = sa_domain a)) false (last ds) = false →
  names_ok (ds ++ [x]) l.
Proof.
  intros [Hs Hlast] [_ Ha]%StronglySorted_inv Hx Hne. split.
  - rewrite fmap_app. apply strongly_sorted_snoc; [apply _|done|]. intros y. rewrite fmap_last.
    destruct (last ds) as [z|] eqn:Hz; intros [= <-]. cbn in Hne. apply bool_decide_eq_false in Hne.
    rewrite Hx. destruct (proj1 (bytes_le_lt_eq _ _) (Hlast z a eq_refl ltac:(by left))); [done|congruence].
  - intros y b. rewrite last_snoc. intros [= <-] Hb. rewrite Hx, Forall_forall in *.
    specialize (Ha b Hb). apply sa_le_lex in Ha. apply bytes_le_lt_eq. naive_solver.
Qed.

(** The loop, from domains that are in order: every recipient has its domain, the
    domains are in order and as built. *)
Lemma build_loop_spec d flags answers l ds rs ds' rs' :
  StronglySorted sa_le l → names_ok ds l → build_loop d flags answers l ds rs = Some (ds', rs') →
  ∃ new tail, ds' = ds ++ new ∧ rs' = rs ++ tail ∧ Forall2 (rcpt_built ds') l tail ∧
    StronglySorted bytes_lt (domain <$> ds') ∧
    ∀ i x, new !! i = Some x → domain_built d flags (answers (length ds + i)%nat) x.
Proof.
  revert ds rs. induction l as [|a l IH]; intros ds rs Hl Hn; cbn [build_loop].
  { intros [= <- <-]. exists [], []. rewrite !app_nil_r. split_and!; [done..|apply Hn|done]. }
  pose proof (StronglySorted_inv Hl) as [Hl' _].
  destruct (from_option _ false (last ds)) eqn:Hlast; cbn [mbind option_bind].
  - intros (new & tail & -> & -> & Hf & Hs & Hb)%IH; [|done|by eapply names_ok_same].
    exists new, (build_recipient (pred (length ds)) a :: tail). rewrite <- app_assoc.
    split_and!; [done..| |done|done]. constructor; [|done]. apply rcpt_built_grow. split; [done|].
    cbn [domain_idx build_recipient]. rewrite last_lookup in Hlast. destruct (ds !! _); [|done].
    cbn in Hlast. apply bool_decide_eq_true in Hlast. cbn. by rewrite Hlast.
  - destruct (build_domain d flags (sa_domain a) _) as [x|] eqn:Hx; [|done]. cbn [mbind option_bind].
    apply build_domain_spec in Hx as [Hname Hx].
    intros (new & tail & -> & -> & Hf & Hs & Hb)%IH; [|done|by eapply names_ok_new].
    replace (pred (length (ds ++ [x]))) with (length ds) by (rewrite length_app; cbn; lia).
    exists (x :: new), (build_recipient (length ds) a :: tail). rewrite <- !app_assoc in *. cbn [app] in *.
    split_and!; [done..| |done|].
    + constructor; [|done]. split; [done|]. cbn [domain_idx build_recipient].
      rewrite list_lookup_middle by done. cbn. by rewrite Hname.
    + intros [|i] y; cbn; [intros [= <-]; by rewrite Nat.add_0_r|]. intros Hy%Hb.
      rewrite length_app in Hy. cbn in Hy. by replace (length ds + S i)%nat with (length ds + 1 + i)%nat by lia.
Qed.

(** Answers within the machine words, for a message held up to [hold] seconds. *)
Record domain_answers_wf (hold : Z) (a : DomainAnswers) : Prop := {
  dw_retry : fits 64 (bd_retry_now a);
  dw_notify : 0 ≤ (notify_intervals a).2 ∧ hold + (notify_intervals a).2 ≤ u64_max;
  dw_expire : 0 ≤ default (5 * 86400) (bd_expire a) ∧ hold + default (5 * 86400) (bd_expire a) ≤ u64_max;
}.

Lemma duration_add_some a b : a + b ≤ u64_max → duration_add a b = Some (a + b).
Proof. intros Hle. unfold duration_add. by rewrite (proj2 (Z.leb_le _ _) Hle). Qed.

Lemma notify_expires_total hold d flags a :
  domain_answers_wf hold a → future_release d ≤ hold → is_Some (notify_expires d flags a).
Proof.
  intros [_ [Hn0 Hn] [He0 He]] Hh. unfold notify_expires. destruct (notify_intervals a) as [num next]. cbn [snd] in *.
  destruct (delivery_by d =? 0); [|destruct (flag_set flags MAIL_BY_RETURN)].
  - rewrite duration_add_some by lia. by eexists.
  - rewrite duration_add_some by lia. by eexists.
  - rewrite duration_add_some; [by eexists|].
    pose proof (wrap_fits 64 (delivery_by d) ltac:(lia)) as [? _].
    pose proof (wrap_fits 64 (- delivery_by d) ltac:(lia)) as [? _].
    destruct (0 <? delivery_by d);
      match goal with |- context [?x <? ?y] => destruct (Z.ltb_spec x y) end; lia.
Qed.

Lemma notify_expires_wf d flags a n e :
  notify_expires d flags a = Some (n, e) → fits 64 (due n) ∧ fits 32 (inner n) ∧ fits 64 e.
Proof.
  unfold notify_expires. destruct (notify_intervals a) as [num next].
  destruct (delivery_by d =? 0); [|destruct (flag_set flags MAIL_BY_RETURN)];
    (destruct (duration_add _ _); [|done]); intros [= <- <-]; cbn;
    split_and!; try (by apply wrap_fits); by compute.
Qed.

Lemma domain_built_wf hold d flags a x : domain_answers_wf hold a → domain_built d flags a x → domain_wf x.
Proof.
  intros Ha [_ Hr Hi Hs]. apply notify_expires_wf in Hs as (? & ? & ?). split; [|done|done| |done].
  - rewrite Hr. destruct (_ =? 0); [apply Ha|by apply wrap_fits].
  - rewrite Hi. by compute.
Qed.

Lemma build_loop_total hold d flags answers l ds rs :
  (∀ i, domain_answers_wf hold (answers i)) → future_release d ≤ hold →
  is_Some (build_loop d flags answers l ds rs).
Proof.
  intros Ha Hh. revert ds rs. induction l as [|a l IH]; intros ds rs; cbn [build_loop]; [by eexists|].
  destruct (from_option _ _ _); cbn [mbind option_bind]; [apply IH|].
  unfold build_domain. destruct (notify_expires_total hold d flags (answers (length ds)) (Ha _) Hh) as [[n e] ->].
  apply IH.
Qed.

Lemma build_message_total hold ans from rcpts id d :
  (∀ i, domain_answers_wf hold (ba_domain ans i)) → future_release d ≤ hold →
  is_Some (build_message ans from rcpts id d).
Proof.
  intros Ha Hh. unfold build_message.
  destruct (build_loop_total hold d (sa_flags from) (ba_domain ans) (merge_sort sa_le rcpts) [] [] Ha Hh) as [[ds rs] ->].
  by eexists.
Qed.

(** The entry that an envelope becomes. *)
Record entry_of (from : SessionAddress) (rcpts : list SessionAddress) (id : Z) (m : Message) : Prop := {
  eo_id : queue_id m = id;
  eo_from : return_path m = sa_address from ∧ return_path_lcase m = sa_address_lcase from ∧
            return_path_domain m = sa_domain from ∧ m_flags m = sa_flags from ∧ env_id m = dsn_info from;
  eo_rcpts : ∃ l, l ≡ₚ rcpts ∧ Forall2 (rcpt_built (domains m)) l (recipients m);
  eo_domains : StronglySorted bytes_lt (domain <$> domains m);
  eo_scheduled : Forall (λ x, d_status x = Scheduled) (domains m);
}.

Lemma build_message_built ans from rcpts id d m :
  build_message ans from rcpts id d = Some m →
  entry_of from rcpts id m ∧ quota_keys m = [] ∧
  ∀ i x, domains m !! i = Some x → domain_built d (sa_flags from) (ba_domain ans i) x.
Proof.
  unfold build_message. destruct (build_loop _ _ _ _ _ _) as [[ds rs]|] eqn:Hb; [|done].
  intros [= <-].
  apply build_loop_spec in Hb as (new & tail & -> & -> & Hf & Hs & Hd);
    [|apply (StronglySorted_merge_sort _)|by split; [constructor|]].
  split; [|by split]. split; cbn; [done|done| |done|].
  - exists (merge_sort sa_le rcpts). split; [apply merge_sort_Permutation|done].
  - apply Forall_lookup. intros i x Hx. by apply (db_status _ _ _ _ (Hd i x Hx)).
Qed.

(** A recipient's flags are those of the low half of the word, so no notice is noted. *)
Lemma build_recipient_flags idx a :
  fits 32 (sa_flags a) → fits 32 (r_flags (build_recipient idx a)).
Proof.
  intros Hf. cbn [r_flags build_recipient]. destruct (flag_set _ _); [done|].
  apply fits_lor; [done| |apply notify_failure_fits]. apply fits_lor; [done..|apply notify_delay_fits].
Qed.

Definition low_flags (a : SessionAddress) : Prop := fits 32 (sa_flags a).

Lemma low_not_sent f : fits 32 f → flag_set f RCPT_DSN_SENT = false.
Proof. intros Hf. unfold flag_set. rewrite Z.land_comm. by apply sent_low. Qed.

(** The queue gets a message that nothing was said about yet, of fields that fit. *)
Lemma entry_unreported from rcpts id m :
  entry_of from rcpts id m → Forall low_flags rcpts →
  unreported m ∧ Forall (λ r, fits 64 (r_flags r)) (recipients m).
Proof.
  intros [_ _ (l & Hp & Hf) _ Hs] Hlow. rewrite <- Hp in Hlow.
  assert (∀ r, r ∈ recipients m → fits 32 (r_flags r) ∧ (domain_idx r < length (domains m))%nat) as Hr.
  { intros r (a & Ha & [Hr Hd])%(Forall2_in_r _ _ _ _ Hf). rewrite Forall_forall in Hlow. split.
    - rewrite Hr. by apply build_recipient_flags, Hlow.
    - apply lookup_lt_is_Some. by destruct (domains m !! domain_idx r). }
  split_and!; [split; [split|]|].
  - apply Forall_forall. intros r Hin. by apply Hr.
  - intros r d _ Hd Hst. rewrite Forall_lookup in Hs. specialize (Hs _ _ Hd). congruence.
  - apply Forall_forall. intros r Hin. apply low_not_sent, Hr, Hin.
  - apply Forall_forall. intros r [[? ?] _]%Hr. split; [done|]. by trans (2 ^ 32).
Qed.
End Entries.

(** ** What scripts do to the envelope *)

Lemma alter_last_snoc {A} (f : A → A) l x : alter_last f (l ++ [x]) = l ++ [f x].
Proof.
  unfold alter_last. replace (pred (length (l ++ [x]))) with (length l) by (rewrite length_app; cbn; lia).
  induction l as [|y l IH]; [done|]. cbn. by f_equal.
Qed.

Lemma fits_ldiff w a b : 0 ≤ w → fits w a → fits w (Z.ldiff a b).
Proof. intros Hw Ha. rewrite Z.ldiff_land. by apply fits_land_l. Qed.

Section ScriptSteps.
Context `{SmtpProto} `{!SmtpProtoLaw} `{SmtpSyntax}.

Lemma notify_flags_low value flags : fits 32 flags → fits 32 (notify_flags value flags).
Proof.
  intros Hf. unfold notify_flags, clear_flags.
  assert (fits 32 (Z.ldiff flags RCPT_NOTIFY_ANY)) as Hc by by apply fits_ldiff.
  case_bool_decide; [by apply fits_lor, notify_never_fits|].
  generalize dependent (Z.ldiff flags RCPT_NOTIFY_ANY). induction (split_on _ value) as [|v l IH]; intros z Hz; [done|].
  cbn [foldl]. apply IH. unfold notify_flag. repeat case_bool_decide; try done.
  - by apply fits_lor, notify_success_fits.
  - by apply fits_lor, notify_failure_fits.
  - by apply fits_lor, notify_delay_fits.
Qed.

(** A change of the recipients by one modification: none, of what is said about the last
    one, of its address, or a first recipient. *)
Inductive rcpts_step (m : ScriptModification) : list SessionAddress → list SessionAddress → Prop :=
| step_same l : rcpts_step m l l
| step_info l x x' :
    sa_address_lcase x' = sa_address_lcase x → sa_domain x' = sa_domain x →
    (low_flags x → low_flags x') → rcpts_step m (l ++ [x]) (l ++ [x'])
| step_to l x v : m = SetEnvelope EnvTo v → rcpts_step m (l ++ [x]) (l ++ [readdress v x])
| step_new v : m = SetEnvelope EnvTo v → rcpts_step m [] [session_address_new v].

(** The modifications of a script touch the envelope only, and keep a sender. *)
Definition envelope_step (P : list SessionAddress → list SessionAddress → Prop) (d d' : SessionData) : Prop :=
  ∃ from l, d' = d <| mail_from := from |><| rcpt_to := l |> ∧
    (is_Some (mail_from d) → is_Some from) ∧ P (rcpt_to d) l.

Lemma envelope_same d d' P :
  P (rcpt_to d) (rcpt_to d') → d' = d <| mail_from := mail_from d' |><| rcpt_to := rcpt_to d' |> →
  (is_Some (mail_from d) → is_Some (mail_from d')) → envelope_step P d d'.
Proof. intros HP Hd Hf. by exists (mail_from d'), (rcpt_to d'). Qed.

Lemma rcpts_info m l f :
  (∀ x, sa_address_lcase (f x) = sa_address_lcase x ∧ sa_domain (f x) = sa_domain x ∧
        (low_flags x → low_flags (f x))) →
  rcpts_step m l (alter_last f l).
Proof.
  intros Hf. destruct l as [|x l _] using rev_ind; [apply step_same|]. rewrite alter_last_snoc.
  by apply step_info; apply Hf.
Qed.

Lemma apply_modification_step e v d :
  envelope_step (rcpts_step (SetEnvelope e v)) d (apply_envelope_modification e v d).
Proof.
  assert (∀ f : option SessionAddress, (is_Some (mail_from d) → is_Some f) →
    envelope_step (rcpts_step (SetEnvelope e v)) d (d <| mail_from := f |>)) as Hfrom.
  { intros f Hf. exists f, (rcpt_to d). split; [by destruct d|]. split; [done|apply step_same]. }
  assert (∀ l, rcpts_step (SetEnvelope e v) (rcpt_to d) l →
    envelope_step (rcpts_step (SetEnvelope e v)) d (d <| rcpt_to := l |>)) as Hto.
  { intros l Hl. exists (mail_from d), l. split; [by destruct d|]. by split. }
  assert (envelope_step (rcpts_step (SetEnvelope e v)) d d) as Hid.
  { exists (mail_from d), (rcpt_to d). split; [by destruct d|]. split; [done|apply step_same]. }
  destruct e; cbn [apply_envelope_modification]; try done;
    try (apply Hfrom; by intros [? ->]); try (apply Hto, rcpts_info; intros x; split_and!; try done).
  - unfold set_from. destruct (contains_at v); [by apply Hfrom|]. case_bool_decide; [by apply Hfrom|done].
  - unfold set_to. destruct (contains_at v); [|done].
    assert (rcpts_step (SetEnvelope EnvTo v) (rcpt_to d)
      match rcpt_to d with [] => [session_address_new v] | l => alter_last (readdress v) l end) as Hl.
    { destruct (rcpt_to d) as [|x l _] using rev_ind; [by apply step_new|].
      destruct (l ++ [x]) eqn:He; [by destruct l|]. rewrite <- He, alter_last_snoc. by apply step_to. }
    by destruct (rcpt_to d); apply Hto.
  - intros Hx. by apply notify_flags_low.
Qed.

Lemma envelope_trans P Q d1 d2 d3 :
  envelope_step P d1 d2 → envelope_step Q d2 d3 →
  envelope_step (λ l l', ∃ k, P l k ∧ Q k l') d1 d3.
Proof.
  intros (f & l & -> & Hf & Hl) (f' & l' & -> & Hf' & Hl'). exists f', l'. split; [by destruct d1|].
  split; [by auto|]. by exists l.
Qed.

(** A property of the recipients that every modification keeps is kept by the script. *)
Lemma apply_script_step (P : list SessionAddress → Prop) mods d :
  (∀ m l l', m ∈ mods → rcpts_step m l l' → P l → P l') → P (rcpt_to d) →
  envelope_step (λ _ l', P l') d (apply_script mods d).
Proof.
  revert d. induction mods as [|m mods IH]; intros d HP Hd.
  { exists (mail_from d), (rcpt_to d). split; [by destruct d|]. by split. }
  assert (envelope_step (rcpts_step m) d (script_modify d m)) as Hstep.
  { destruct m as [e v|n v]; [apply apply_modification_step|].
    exists (mail_from d), (rcpt_to d). split; [by destruct d|]. split; [done|apply step_same]. }
  change (apply_script (m :: mods) d) with (apply_script mods (script_modify d m)).
  destruct Hstep as (f & l & -> & Hf & Hl).
  destruct (IH (d <| mail_from := f |><| rcpt_to := l |>)) as (f' & l' & He & Hf' & Hl').
  - intros m' k k' Hm'. apply HP. by right.
  - cbn. eapply HP; [by left|exact Hl|done].
  - exists f', l'. split; [|by auto]. rewrite He. by destruct d.
Qed.
End ScriptSteps.

(** ** The message of a transaction *)

Lemma strict_sorted_nodup {A} (R : relation A) `{!Irreflexive R} (l : list A) : StronglySorted R l → NoDup l.
Proof.
  induction 1 as [|x l _ IH Hx]; constructor; [|done]. intros Hin. rewrite Forall_forall in Hx.
  by apply (irreflexivity R x), Hx.
Qed.

(** C27. A transaction becomes one message of the queue: [build_message] does not panic when
    the times of its answers fit; the message has the generated id and the sender, the recipients
    are those of the session, each scheduled under its own domain, which is there once, and
    told about delays and failures unless it asked for something else; each domain is due at
    once, or after the hold that the client asked for. *)
Theorem message_built `{SmtpProto} `{!SmtpProtoLaw} `{SmtpSyntax} (hold : Z) (ans : BuildAnswers)
    (from : SessionAddress) (rcpts : list SessionAddress) (id : Z) (d : SessionData) :
  (∀ i, domain_answers_wf hold (ba_domain ans i)) → future_release d ≤ hold →
  ∃ m l, build_message ans from rcpts id d = Some m ∧
    queue_id m = id ∧ return_path m = sa_address from ∧ l ≡ₚ rcpts ∧
    Forall2 (λ a r,
      address r = sa_address a ∧ address_lcase r = sa_address_lcase a ∧ r_status r = Scheduled ∧
      domain <$> domains m !! domain_idx r = Some (sa_domain a) ∧
      r_flags r = (if flag_set (sa_flags a) RCPT_NOTIFY_ANY then sa_flags a
                   else (sa_flags a .| RCPT_NOTIFY_DELAY) .| RCPT_NOTIFY_FAILURE)) l (recipients m) ∧
    NoDup (domain <$> domains m) ∧
    ∀ i x, domains m !! i = Some x →
      d_status x = Scheduled ∧
      due (retry x) = (if future_release d =? 0 then bd_retry_now (ba_domain ans i)
                       else wrap 64 (bd_retry_now (ba_domain ans i) + future_release d)) ∧
      fits 64 (expires x).
Proof.
  intros Hwf Hhold. destruct (build_message_total hold ans from rcpts id d Hwf Hhold) as [m Hm].
  destruct (build_message_built ans from rcpts id d m Hm) as ([Hid [Hfrom _] (l & Hl & Hr) Hsort _] & _ & Hd).
  exists m, l. split_and!; try done.
  - eapply Forall2_impl; [exact Hr|]. intros a r [Hbuilt Hdom]. rewrite Hbuilt. cbn [domain_idx build_recipient].
    by split_and!.
  - by apply (strict_sorted_nodup bytes_lt).
  - intros i x Hx. destruct (Hd i x Hx) as [Hs Hdue _ Hne]. split_and!; [done|done|].
    apply (domain_built_wf hold d (sa_flags from) (ba_domain ans i)); [done|]. by apply Hd.
Qed.

(** ** Examples *)

Module EnvelopeExample.
Import WorkerExample.
#[local] Existing Instance example_proto.
#[local] Existing Instance example_proto_law.

#[local] Instance example_syntax : SmtpSyntax := {|
  to_lowercase l := (λ c, if (65 <=? c) && (c <=? 90) then c + 32 else c) <$> l;
  MAIL_BY_NOTIFY := 16; MAIL_BY_RETURN := 32; MAIL_BY_TRACE := 64;
  mail_from_parameters _ := None; rcpt_to_parameters _ := None |}.
#[local] Instance example_syntax_law : SmtpSyntaxLaw.
Proof. done. Qed.

(** Every domain is due at 100, tells of a delay after 800 seconds and expires after 700. *)
Definition builds : BuildAnswers :=
  {| ba_created := 100;
     ba_domain _ := {| bd_retry_now := 100; bd_notify_now := 100; bd_expires_now := 100;
                       bd_notify := Some [800]; bd_expire := Some 700 |} |}.

Lemma message_built_witness :
  ∃ m l, build_message builds (session_address_new (str "s@y"))
      (session_address_new <$> [str "b@x"; str "c@y"; str "a@x"]) 13 (session_data_new 0) = Some m ∧
    l ≡ₚ session_address_new <$> [str "b@x"; str "c@y"; str "a@x"] ∧ length (recipients m) = length l.
Proof.
  destruct (message_built 86400 builds (session_address_new (str "s@y"))
      (session_address_new <$> [str "b@x"; str "c@y"; str "a@x"]) 13 (session_data_new 0))
    as (m & l & Hm & _ & _ & Hl & Hr & _).
  - intros i. split; cbn; [a_word|by split..].
  - by vm_compute.
  - exists m, l. split_and!; [exact Hm|exact Hl|]. symmetry. by eapply Forall2_length.
Defined.
End EnvelopeExample.
