(* ===== verification/SmtpSession.v ===== *)
(** * SMTP and LMTP sessions

    crates/smtp/src: the state of a connection and its parameters (core/mod.rs,
    core/params.rs), the commands (inbound/ehlo.rs, auth.rs, mail.rs, rcpt.rs, vrfy.rs,
    data.rs), the loop that feeds them (inbound/session.rs) and the connection around it
    (inbound/spawn.rs).  A message that is accepted goes into the queue of SmtpQueue.v.
    The receivers of smtp_proto, which cut the input into commands, lines and message
    data, are parameters with what the loop relies on; so is what directories, filters,
    resolvers, the clock and the expressions of the configuration answer.  Reports about
    failed authentication and throttle counters are not modelled. *)

From coqutil Require Import Datatypes.RecordSettersUsingExistingGetters.
From S2P Require Import Prelude Utf8 Decimal StoreKeys KvStore StoreTxn SmtpQueue SmtpDelivery SmtpEnvelope.

#[local] Open Scope chr_scope.

(** ** Requests *)

(** [MailFrom] and [RcptTo] of smtp_proto. *)
Record MailFrom := {
  mf_address : bytes;
  mf_flags : Z;
  mf_size : Z;
  mf_by : Z;
  mf_hold_for : Z;
  mf_hold_until : Z;
  mf_mt_priority : Z;
  mf_env_id : option bytes;
}.

Record RcptTo := {
  rt_address : bytes;
  rt_flags : Z;
  rt_orcpt : option bytes;
}.

Inductive Request :=
| ReqRcpt (to : RcptTo)
| ReqMail (from : MailFrom)
| ReqEhlo (host : bytes)
| ReqData
| ReqBdat (chunk_size : Z) (is_last : bool)
| ReqAuth (mechanism : Z) (initial_response : bytes)
| ReqNoop
| ReqVrfy (value : bytes)
| ReqExpn (value : bytes)
| ReqStartTls
| ReqRset
| ReqQuit
| ReqHelp
| ReqHelo (host : bytes)
| ReqLhlo (host : bytes)
| ReqEtrn
| ReqAtrn
| ReqBurl.

Inductive RequestError :=
| NeedsMoreData
| UnknownCommand
| InvalidResponse
| InvalidSenderAddress
| InvalidRecipientAddress
| SyntaxError (syntax : bytes)
| InvalidParameter (param : bytes)
| UnsupportedParameter (param : bytes)
| ResponseTooLong.

(** [mail_send::Credentials] *)
Inductive Credentials :=
| CredPlain (username secret : bytes)
| CredOAuthBearer (token : bytes)
| CredXOauth2 (username secret : bytes).

Record SaslToken := { mechanism : Z; credentials : Credentials }.

(** The receivers of smtp_proto: what they return, their state and the bytes left. *)
Class SmtpReceivers := {
  RequestReceiver : Type;
  request_default : RequestReceiver;
  request_ingest : RequestReceiver → bytes → result RequestError Request * RequestReceiver * bytes;
  DataReceiver : Type;
  data_new : DataReceiver;
  data_ingest : DataReceiver → bytes → bytes → bool * DataReceiver * bytes * bytes;
  BdatReceiver : Type;
  bdat_new : Z → bool → BdatReceiver;
  bdat_is_last : BdatReceiver → bool;
  bdat_ingest : BdatReceiver → bytes → bytes → bool * BdatReceiver * bytes * bytes;
  LineReceiver : Type;
  line_new : SaslToken → LineReceiver;
  line_token : LineReceiver → SaslToken;
  line_buf : LineReceiver → bytes;
  line_clear : SaslToken → LineReceiver → LineReceiver;
  line_ingest : LineReceiver → bytes → bool * LineReceiver * bytes;
  DummyDataReceiver : Type;
  dummy_new_bdat : Z → DummyDataReceiver;
  dummy_new_data : DataReceiver → DummyDataReceiver;
  dummy_data_ingest : DummyDataReceiver → bytes → bool * DummyDataReceiver * bytes;
  DummyLineReceiver : Type;
  dummy_line_default : DummyLineReceiver;
  dummy_line_ingest : DummyLineReceiver → bytes → bool * DummyLineReceiver * bytes;
  MAX_LINE_LENGTH : nat;
  (* the texts of smtp_proto, mail_parser and mail_send *)
  AUTH_PLAIN : Z;
  AUTH_LOGIN : Z;
  AUTH_OAUTHBEARER : Z;
  AUTH_XOAUTH2 : Z;
  debug_text : bytes → bytes;
  spf_text : SpfResult → bytes;
  base64_decode : bytes → option bytes;
  into_string : bytes → bytes;
  credentials_of_pair : bytes → bytes → Credentials;
  credentials_default : Credentials;
}.

(** What the loop relies on.  A receiver that returns a command, a line or a message has
    read a byte; what goes into the message was read, and a BDAT receiver takes no more
    than the bytes it still has to get.  The flags of a recipient are those of RFC 3461. *)
Class SmtpReceiversLaw `{SmtpReceivers} := {
  request_reads r l x r' rest :
    request_ingest r l = (x, r', rest) → x ≠ Err NeedsMoreData → (length rest < length l)%nat;
  request_rcpt_flags r l to r' rest :
    request_ingest r l = (Ok (ReqRcpt to), r', rest) → fits 32 (rt_flags to);
  request_chunk_size r l n last r' rest :
    request_ingest r l = (Ok (ReqBdat n last), r', rest) → 0 ≤ n;
  data_reads r l m b r' m' rest :
    data_ingest r l m = (b, r', m', rest) →
    (length m' + length rest ≤ length m + length l)%nat ∧ (b = true → (length rest < length l)%nat);
  bdat_left : BdatReceiver → nat;
  bdat_left_new n last : bdat_left (bdat_new n last) = Z.to_nat n;
  bdat_reads r l m b r' m' rest :
    bdat_ingest r l m = (b, r', m', rest) →
    (length rest ≤ length l)%nat ∧
    (length m' + bdat_left r' ≤ length m + bdat_left r)%nat;
  line_reads r l b r' rest :
    line_ingest r l = (b, r', rest) → (length rest ≤ length l)%nat ∧ (b = true → (length rest < length l)%nat);
  dummy_data_reads r l b r' rest :
    dummy_data_ingest r l = (b, r', rest) → (length rest ≤ length l)%nat;
  dummy_line_reads r l b r' rest :
    dummy_line_ingest r l = (b, r', rest) → (length rest ≤ length l)%nat;
}.

(** ** common/src/auth/sasl.rs *)

Section Sasl.
Context `{SmtpReceivers}.

Definition push_arg (arg_num : nat) (ch : Z) (acc : bytes * bytes) : bytes * bytes :=
  match arg_num with
  | 1%nat => (acc.1 ++ [ch], acc.2)
  | 2%nat => (acc.1, acc.2 ++ [ch])
  | _ => acc
  end.

Fixpoint plain_loop (l : bytes) (arg_num : nat) (acc : bytes * bytes) : bytes * bytes :=
  match l with
  | [] => acc
  | ch :: l =>
      if ch =? 0 then plain_loop l (S arg_num) acc else plain_loop l arg_num (push_arg arg_num ch acc)
  end.

(** [String::from_utf8] *)
Definition string_from_utf8 (l : bytes) : option bytes := (λ _, l) <$> from_utf8 l.

Definition sasl_decode_challenge_plain (challenge : bytes) : option Credentials :=
  let '(username, secret) := plain_loop challenge 0 ([], []) in
  username ← string_from_utf8 username;
  secret ← string_from_utf8 secret;
  if bool_decide (username = []) || bool_decide (secret = []) then None
  else Some (credentials_of_pair username secret).

Fixpoint xoauth_loop (l : bytes) (arg_num : nat) (in_arg : bool) (acc : bytes * bytes) : bytes * bytes :=
  match l with
  | [] => acc
  | ch :: l =>
      if in_arg then
        if ch =? 1 then xoauth_loop l arg_num false acc
        else xoauth_loop l arg_num true (push_arg arg_num ch acc)
      else if ch =? "=" then xoauth_loop l (S arg_num) true acc
      else xoauth_loop l arg_num false acc
  end.

Definition sasl_decode_challenge_xoauth (challenge : bytes) : option Credentials :=
  let '(username, secret) := xoauth_loop challenge 0 false ([], []) in
  username ← string_from_utf8 username;
  secret ← string_from_utf8 secret;
  if bool_decide (username = []) then None else Some (credentials_of_pair username secret).

(** The loop of [extract_oauth_bearer] at [pos]: [rest] is [drop pos l]. *)
Fixpoint bearer_loop (l rest : bytes) (pos start_pos : nat) : option bytes :=
  match rest with
  | [] => None
  | ch :: rest =>
      let is_separator := ch =? 1 in
      if is_separator || (pos =? pred (length l))%nat then
        let head := take 12 (drop start_pos l) in
        if (length head =? 12)%nat && eq_ignore_ascii_case head (str "auth=Bearer ") then
          let stop := if is_separator then pos else length l in
          if (start_pos + 12 <=? stop)%nat then
            string_from_utf8 (take (stop - (start_pos + 12)) (drop (start_pos + 12) l))
          else None
        else bearer_loop l rest (S pos) (S pos)
      else bearer_loop l rest (S pos) start_pos
  end.

Definition sasl_decode_challenge_oauth (challenge : bytes) : option Credentials :=
  CredOAuthBearer <$> bearer_loop challenge challenge 0 0.

(** [SaslToken::from_mechanism] *)
Definition from_mechanism (m : Z) : option SaslToken :=
  if (m =? AUTH_PLAIN) || (m =? AUTH_LOGIN) then Some {| mechanism := m; credentials := CredPlain [] [] |}
  else if m =? AUTH_OAUTHBEARER then Some {| mechanism := m; credentials := CredOAuthBearer [] |}
  else if m =? AUTH_XOAUTH2 then Some {| mechanism := m; credentials := CredXOauth2 [] [] |}
  else None.
End Sasl.

(** ** The state of a session *)

Inductive ServerProtocol := Smtp | Lmtp.

Inductive VerifyStrategy := Relaxed | Strict | Disable.
Definition verify (v : VerifyStrategy) : bool := match v with Strict | Relaxed => true | Disable => false end.
Definition is_strict (v : VerifyStrategy) : bool := match v with Strict => true | _ => false end.

(** [SessionParameters] without the waiting times. *)
Record SessionParameters := {
  ehlo_require : bool;
  ehlo_reject_non_fqdn : bool;
  auth_directory : bool;
  auth_require : bool;
  auth_errors_max : nat;
  auth_match_sender : bool;
  rcpt_errors_max : nat;
  rcpt_max : nat;
  rcpt_dsn : bool;
  can_expn : bool;
  can_vrfy : bool;
  max_message_size : Z;
  p_iprev : VerifyStrategy;
  p_spf_ehlo : VerifyStrategy;
  p_spf_mail_from : VerifyStrategy;
}.

Definition session_parameters_default : SessionParameters := {|
  ehlo_require := false; ehlo_reject_non_fqdn := false; auth_directory := false;
  auth_require := false; auth_errors_max := 0; auth_match_sender := false; rcpt_errors_max := 0;
  rcpt_max := 0; rcpt_dsn := false; can_expn := false; can_vrfy := false; max_message_size := 0;
  p_iprev := Relaxed; p_spf_ehlo := Relaxed; p_spf_mail_from := Relaxed |}.

(** ** What the environment answers to the commands *)

(** [eval_if] gives [None] when an expression has no value. *)

Record EhloAnswers := {
  ea_valid_labels : bool;
  ea_spf : SpfResult;
  ea_script : option ScriptResult;
  ea_milters : list Milter;
  ea_hooks : list Hook;
  ea_pipelining : option bool;
  ea_chunking : option bool;
  ea_expn : option bool;
  ea_vrfy : option bool;
  ea_requiretls : option bool;
  ea_dsn : option bool;
  ea_mechanisms : option Z;
  ea_future_release : option Z;
  ea_now : Z;
  ea_deliver_by : option Z;
  ea_mt_priority : option Z;
  ea_max_message_size : option Z;
  ea_no_soliciting : option bytes;
}.

Record RcptParams := {
  rp_errors_max : option nat;
  rp_max_recipients : option nat;
  rp_dsn : option bool;
  rp_max_message_size : option Z;
}.

Record MailAnswers := {
  ma_iprev : IprevResult;
  ma_is_allowed : option bool;
  ma_script : option ScriptResult;
  ma_milters : list Milter;
  ma_hooks : list Hook;
  ma_rewrite : option bytes;
  ma_requiretls : option bool;
  ma_deliver_by : option Z;
  ma_mt_priority : option Z;
  ma_max_message_size : option Z;
  ma_future_release : option Z;
  ma_now : Z;
  ma_dsn : option bool;
  ma_throttle : bool;
  ma_spf : SpfResult;
  ma_params : RcptParams;
}.

(** directory::backend::RcptType *)
Inductive RcptType := Mailbox | List (members : list bytes) | Invalid.

(** A directory, when the expression names one; [None] is an error. *)
Record Directory := {
  is_local_domain : bytes → option bool;
  dir_rcpt : bytes → option RcptType;
}.

Record RcptAnswers := {
  ra_script : option ScriptResult;
  ra_has_rewrite : bool;
  ra_milter_on_stage : bool;
  ra_milters : list Milter;
  ra_hooks : list Hook;
  ra_rewrite : option bytes;
  ra_directory : option Directory;
  ra_relay : option bool;
  ra_throttle : bool;
}.

(** The errors of [authenticate] that the session tells apart. *)
Inductive AuthFailure := AuthFailed | TokenExpired | MissingTotp | Unauthorized | SecurityOther | AuthOther.

Record AuthAnswers := {
  au_mechanisms : option Z;
  au_authenticate : Credentials → result AuthFailure AccessToken;
  au_expn : option bool;
  au_vrfy : option bool;
  au_must_match_sender : option bool;
}.

(** [vrfy] and [expn]: the values, or an error and whether it is [NotSupported]. *)
Record VrfyAnswers := {
  va_has_directory : bool;
  va_values : result bool (list bytes);
}.

Inductive DkimResult := DkimPass | DkimNeutral | DkimFail | DkimPermError | DkimTempError | DkimNone.
Inductive DmarcResult := DmarcPass | DmarcFail | DmarcTempError | DmarcPermError | DmarcNone.
Inductive Policy := PolicyNone | PolicyQuarantine | PolicyReject | PolicyUnspecified.

Record DmarcOutput := {
  dmarc_spf_result : DmarcResult;
  dmarc_dkim_result : DmarcResult;
  dmarc_policy : Policy;
}.

Inductive AddressMatch :=
| StartsWith (prefix : bytes)
| EndsWith (suffix : bytes)
| Equals (value : bytes).

Record DataAnswers := {
  qm_parse : bytes → option ParsedMessage;
  qm_received_headers : Z;
  qm_max_received_headers : option Z;
  qm_dkim_verify : option VerifyStrategy;
  qm_dmarc_verify : option VerifyStrategy;
  qm_dkim : list DkimResult;
  qm_arc_verify : option VerifyStrategy;
  qm_arc_sealer : bool;
  qm_arc : DkimResult;
  qm_dmarc : DmarcOutput;
  qm_report_addresses : list AddressMatch;
  qm_report_forward : bool;
  qm_generated : option Z;
  qm_now : Z;
  qm_auth_headers : bytes;
  qm_milters : list Milter;
  qm_hooks : list Hook;
  qm_pipes : list (bytes → option bytes);
  qm_script : option ScriptResult;
  qm_build : BuildAnswers;
  qm_add_return_path : option bool;
  qm_missing_headers : bytes;
  qm_signers : list (bytes → bytes → option bytes);
  qm_quotas : QueueQuotas;
  qm_queue_now : Z;
  qm_queue : QueueAnswers;
}.

(** The answers while one command, line or message is handled. *)
Record Answers := {
  an_scanner_banned : option bool;
  an_ehlo : EhloAnswers;
  an_mail : MailAnswers;
  an_rcpt : RcptAnswers;
  an_auth : AuthAnswers;
  an_vrfy : VrfyAnswers;
  an_max_messages : option nat;
  an_data : DataAnswers;
}.

(** ** Sessions *)

(** [smtp_proto::EhloResponse], with its flags one by one. *)
Record EhloResponse := {
  eh_hostname : bytes;
  eh_start_tls : bool;
  eh_pipelining : bool;
  eh_chunking : bool;
  eh_expn : bool;
  eh_vrfy : bool;
  eh_require_tls : bool;
  eh_dsn : bool;
  eh_auth_mechanisms : Z;
  eh_future_release : option (Z * Z);
  eh_deliver_by : option Z;
  eh_mt_priority : option Z;
  eh_size : Z;
  eh_no_soliciting : option (option bytes);
}.

(** queue/mod.rs *)
Inductive MessageSource := Authenticated | Unauthenticated | SourceDsn | SourceReport | SourceAutogenerated.

(** A message in the queue, the time of its event and where it came from. *)
Record Accepted := {
  ac_message : Message;
  ac_due : Z;
  ac_source : MessageSource;
}.

Inductive Outcome (A : Type) :=
| Done (a : A)
| Disconnect
| Panic.
Arguments Done {A} a.
Arguments Disconnect {A}.
Arguments Panic {A}.

Section Session.
Context `{KvStore DB} `{MessageCodec} `{SmtpProto} `{SmtpSyntax} `{SmtpReceivers}.
Context {R : Type} (gen_range : R → Z → Z * R) (xxh3_64 : bytes → Z) (seed : R).
Context (blob_hash_of : bytes → bytes) (ehlo_text : EhloResponse → bytes).

Inductive State :=
| StRequest (r : RequestReceiver)
| StBdat (r : BdatReceiver)
| StData (r : DataReceiver)
| StSasl (r : LineReceiver)
| StDataTooLarge (r : DummyDataReceiver)
| StRequestTooLarge (r : DummyLineReceiver)
| StAccepted (id : Z)
| StNone.

(** The stream is what was written to it and how many writes it still takes ([None]: all);
    [accepted] are the messages that went into the queue. *)
Record Session := {
  s_hostname : bytes;
  state : State;
  protocol : ServerProtocol;
  acceptor_tls : bool;
  is_tls : bool;
  output : list bytes;
  writes_left : option nat;
  data : SessionData;
  params : SessionParameters;
  server : Server DB;
  accepted : list Accepted;
}.

Definition state_default : State := StRequest request_default.

(** The monad of the handlers: [Err(())] and panics end the session. *)
Definition SM (A : Type) : Type := Session → Outcome A * Session.

#[export] Instance sm_ret : MRet SM := λ A a s, (Done a, s).
#[export] Instance sm_bind : MBind SM := λ A B k m s,
  match m s with
  | (Done a, s) => k a s
  | (Disconnect, s) => (Disconnect, s)
  | (Panic, s) => (Panic, s)
  end.

Definition get_session : SM Session := λ s, (Done s, s).
Definition disconnect {A} : SM A := λ s, (Disconnect, s).
Definition panic {A} : SM A := λ s, (Panic, s).
Definition unwrap {A} (o : option A) : SM A := λ s, (match o with Some a => Done a | None => Panic end, s).
Definition get_data : SM SessionData := λ s, (Done (data s), s).
Definition get_params : SM SessionParameters := λ s, (Done (params s), s).
Definition modify_data (f : SessionData → SessionData) : SM () := λ s, (Done (), s <| data ::= f |>).
Definition modify_params (f : SessionParameters → SessionParameters) : SM () := λ s,
  (Done (), s <| params ::= f |>).
Definition put_server (sv : Server DB) : SM () := λ s, (Done (), s <| server := sv |>).

(** ** inbound/session.rs: [write] and [reset] *)

Definition write (l : bytes) : SM () := λ s,
  match writes_left s with
  | Some O => (Disconnect, s)
  | n => (Done (), s <| output ::= λ o, o ++ [l] |><| writes_left := pred <$> n |>)
  end.

(** [write(..).await.ok()] *)
Definition write_ok (l : bytes) : SM () := λ s, (Done (), (write l s).2).

Definition reset_data (d : SessionData) : SessionData :=
  d <| mail_from := None |><| spf_mail_from := None |><| rcpt_to := [] |><| sd_message := [] |>
    <| sd_priority := 0 |><| delivery_by := 0 |><| future_release := 0 |><| rcpt_oks := 0%nat |>.

Definition reset : SM () := modify_data reset_data.

(** ** core/params.rs *)

Record SessionParamAnswers := {
  sp_transfer_limit : option Z;
  sp_duration : option Z;
  sp_spf_ehlo : option VerifyStrategy;
  sp_spf_mail_from : option VerifyStrategy;
  sp_iprev : option VerifyStrategy;
  sp_ehlo_require : option bool;
  sp_reject_non_fqdn : option bool;
  sp_directory : bool;
  sp_auth_require : option bool;
  sp_errors_max : option nat;
  sp_must_match_sender : option bool;
  sp_expn : option bool;
  sp_vrfy : option bool;
}.

Definition eval_session_params (a : SessionParamAnswers) : SM () :=
  _ ← modify_data (λ d,
        d <| bytes_left := default (250 * 1024 * 1024) (sp_transfer_limit a) |>
          <| valid_until ::= λ t, t + default (15 * 60) (sp_duration a) |>);
  modify_params (λ p,
    p <| p_spf_ehlo := default Relaxed (sp_spf_ehlo a) |>
      <| p_spf_mail_from := default Relaxed (sp_spf_mail_from a) |>
      <| p_iprev := default Relaxed (sp_iprev a) |>
      <| ehlo_require := default true (sp_ehlo_require a) |>
      <| ehlo_reject_non_fqdn := default true (sp_reject_non_fqdn a) |>
      <| auth_directory := sp_directory a |>
      <| auth_require := default false (sp_auth_require a) |>
      <| auth_errors_max := default 3%nat (sp_errors_max a) |>
      <| auth_match_sender := default true (sp_must_match_sender a) |>
      <| can_expn := default false (sp_expn a) |>
      <| can_vrfy := default false (sp_vrfy a) |>).

Definition eval_post_auth_params (a : AuthAnswers) : SM () :=
  modify_params (λ p,
    p <| can_expn := default false (au_expn a) |>
      <| can_vrfy := default false (au_vrfy a) |>
      <| auth_match_sender := default true (au_must_match_sender a) |>).

Definition eval_rcpt_params (a : RcptParams) : SM () :=
  modify_params (λ p,
    p <| rcpt_errors_max := default 10%nat (rp_errors_max a) |>
      <| rcpt_max := default 100%nat (rp_max_recipients a) |>
      <| rcpt_dsn := default true (rp_dsn a) |>
      <| max_message_size := default (25 * 1024 * 1024) (rp_max_message_size a) |>).

(** ** inbound/auth.rs *)

Definition account_name (token : AccessToken) : bytes :=
  if bool_decide (at_name token = []) then str "unavailable" else at_name token.

Definition is_authenticated (d : SessionData) : bool := bool_decide (is_Some (authenticated_as d)).
Definition authenticated_emails (d : SessionData) : list bytes :=
  from_option at_emails [] (authenticated_as d).

Definition auth_error (response : bytes) : SM bool :=
  _ ← modify_data (λ d, d <| auth_errors ::= S |>);
  _ ← write response;
  s ← get_session;
  if (auth_errors (data s) <? auth_errors_max (params s))%nat then mret false
  else
    _ ← write (line (str "421 4.3.0 Too many authentication errors, disconnecting."));
    disconnect.

Definition temporary_failure : SM bool :=
  _ ← write (line (str "454 4.7.0 Temporary authentication failure"));
  mret false.

Definition authenticate (a : AuthAnswers) (c : Credentials) : SM bool :=
  p ← get_params;
  if auth_directory p then
    match au_authenticate a c with
    | Ok token =>
        _ ← modify_data (λ d, d <| authenticated_as := Some token |>);
        _ ← eval_post_auth_params a;
        _ ← write (line (str "235 2.7.0 Authentication succeeded."));
        mret false
    | Err AuthFailed => auth_error (line (str "535 5.7.8 Authentication credentials invalid."))
    | Err TokenExpired => auth_error (line (str "535 5.7.8 OAuth token expired."))
    | Err MissingTotp =>
        auth_error (line (str "334 5.7.8 Missing TOTP token, try with 'secret$totp_code'."))
    | Err Unauthorized =>
        _ ← write (line (str "550 5.7.1 Your account is not authorized to use this service."));
        mret false
    | Err SecurityOther => disconnect
    | Err AuthOther => temporary_failure
    end
  else temporary_failure.

(** The token is changed in place: it is returned with the answer. *)
Definition handle_sasl_response (a : AuthAnswers) (token : SaslToken) (response : bytes)
    : SM (bool * SaslToken) :=
  let keep (m : SM bool) : SM (bool * SaslToken) := b ← m; mret (b, token) in
  let invalid := keep (auth_error (line (str "500 5.5.6 Invalid challenge."))) in
  let m := mechanism token in
  if bool_decide (response = []) then
    if (m =? AUTH_PLAIN) || (m =? AUTH_XOAUTH2) || (m =? AUTH_OAUTHBEARER) then
      _ ← write (line (str "334 Go ahead."));
      mret (true, token)
    else
      match credentials token with
      | CredPlain username secret =>
          if (m =? AUTH_LOGIN) && bool_decide (username = []) && bool_decide (secret = []) then
            _ ← write (line (str "334 VXNlcm5hbWU6"));
            mret (true, token)
          else invalid
      | _ => invalid
      end
  else
    match base64_decode response with
    | None => invalid
    | Some response =>
        if m =? AUTH_PLAIN then
          match sasl_decode_challenge_plain response with
          | Some c => keep (authenticate a c)
          | None => invalid
          end
        else
          match m =? AUTH_LOGIN, credentials token with
          | true, CredPlain username secret =>
              if bool_decide (username = []) then
                _ ← write (line (str "334 UGFzc3dvcmQ6"));
                mret (true, token <| credentials := CredPlain (into_string response) secret |>)
              else
                b ← authenticate a (CredPlain username (into_string response));
                mret (b, token <| credentials := credentials_default |>)
          | _, _ =>
              if m =? AUTH_OAUTHBEARER then
                match sasl_decode_challenge_oauth response with
                | Some c => keep (authenticate a c)
                | None => invalid
                end
              else if m =? AUTH_XOAUTH2 then
                match sasl_decode_challenge_xoauth response with
                | Some c => keep (authenticate a c)
                | None => invalid
                end
              else invalid
          end
    end.

(** ** Early returns *)

(** A step that says whether the command goes on; a reply that ends it. *)
Definition and_then {A} (m : SM bool) (stop : A) (k : SM A) : SM A := b ← m; if (b : bool) then k else mret stop.
Definition stop_with (reply : bytes) : SM bool := _ ← write reply; mret false.

(** [self.data.mail_from = None; return self.write(..)] *)
Definition drop_from (reply : bytes) : SM bool :=
  _ ← modify_data (λ d, d <| mail_from := None |>); stop_with reply.

(** [self.data.rcpt_to.pop(); return self.write(..)] *)
Definition pop_rcpt : SM () := modify_data (λ d, d <| rcpt_to ::= @removelast _ |>).
Definition drop_rcpt (reply : bytes) : SM bool := _ ← pop_rcpt; stop_with reply.

(** ** inbound/ehlo.rs *)

Definition handle_spf (spf : SpfResult) (strict : bool) : SM bool :=
  match spf with
  | SpfPass => mret true
  | SpfTempError =>
      if strict then stop_with (line (str "451 4.7.24 Temporary SPF validation error.")) else mret true
  | spf =>
      if strict then stop_with (line (str "550 5.7.23 SPF validation failed, status: " ++ spf_text spf ++ str "."))
      else mret true
  end.

(** A rejected EHLO: the sender and the domain go back, the recipients stay. *)
Definition undo_ehlo (prev : bytes) (d : SessionData) : SessionData :=
  d <| mail_from := None |><| helo_domain := prev |>.

Definition reject_ehlo (prev : bytes) (reply : bytes) : SM bool :=
  _ ← modify_data (λ d, undo_ehlo prev d <| spf_ehlo := None |>); stop_with reply.

(** The checks of a domain that was not given before. *)
Definition ehlo_checks (a : EhloAnswers) (domain : bytes) : SM bool :=
  s ← get_session;
  if ehlo_reject_non_fqdn (params s) && negb (ea_valid_labels a)
  then stop_with (line (str "550 5.5.0 Invalid EHLO domain."))
  else
    let prev := helo_domain (data s) in
    _ ← modify_data (λ d, d <| helo_domain := domain |>);
    and_then
      (if verify (p_spf_ehlo (params s)) then
         ok ← handle_spf (ea_spf a) (is_strict (p_spf_ehlo (params s)));
         if ok : bool then _ ← modify_data (λ d, d <| spf_ehlo := Some (ea_spf a) |>); mret true
         else _ ← modify_data (undo_ehlo prev); mret false
       else mret true) false
    (match ea_script a with
     | Some (ScriptReject message) => reject_ehlo prev message
     | _ =>
         r ← unwrap (run_milters (ea_milters a));
         match r with
         | Err message => reject_ehlo prev (fr_message message)
         | Ok _ =>
             match run_mta_hooks (ea_hooks a) with
             | Err message => reject_ehlo prev (fr_message message)
             | Ok _ => mret true
             end
         end
     end).

Definition ehlo_response (a : EhloAnswers) (s : Session) : EhloResponse := {|
  eh_hostname := s_hostname s;
  eh_start_tls := negb (is_tls s) && acceptor_tls s;
  eh_pipelining := default true (ea_pipelining a);
  eh_chunking := default true (ea_chunking a);
  eh_expn := default false (ea_expn a);
  eh_vrfy := default false (ea_vrfy a);
  eh_require_tls := default true (ea_requiretls a);
  eh_dsn := default false (ea_dsn a);
  eh_auth_mechanisms := if is_authenticated (data s) then 0 else default 0 (ea_mechanisms a);
  eh_future_release := (λ v, (v, wrap 64 (ea_now a + v))) <$> ea_future_release a;
  eh_deliver_by := ea_deliver_by a;
  eh_mt_priority := ea_mt_priority a;
  eh_size := default (25 * 1024 * 1024) (ea_max_message_size a);
  eh_no_soliciting := (λ v, if bool_decide (v = []) then None else Some v) <$> ea_no_soliciting a |}.

Definition handle_ehlo (a : EhloAnswers) (domain : bytes) (is_extended : bool) : SM () :=
  d ← get_data;
  and_then (if bool_decide (domain = helo_domain d) then mret true else ehlo_checks a domain) tt
  (d ← get_data;
   _ ← (if bool_decide (is_Some (mail_from d)) then reset else mret ());
   s ← get_session;
   if is_extended then write (ehlo_text (ehlo_response a s))
   else write (line (str "250 " ++ s_hostname s ++ str " you had me at HELO"))).

(** ** inbound/mail.rs *)

Definition mail_preconditions (a : MailAnswers) : SM bool :=
  s ← get_session;
  let d := data s in
  let p := params s in
  if bool_decide (helo_domain d = [])
     && (ehlo_require p || verify (p_spf_ehlo p) || verify (p_spf_mail_from p))
  then stop_with (line (str "503 5.5.1 Polite people say EHLO first."))
  else if bool_decide (is_Some (mail_from d))
  then stop_with (line (str "503 5.5.1 Multiple MAIL commands not allowed."))
  else if auth_require p && negb (is_authenticated d)
  then stop_with (line (str "503 5.5.1 You must authenticate first."))
  else
    _ ← (if bool_decide (iprev d = None) && verify (p_iprev p)
         then modify_data (λ d, d <| iprev := Some (ma_iprev a) |>) else mret ());
    d ← get_data;
    if is_strict (p_iprev p) then
      match iprev d with
      | Some IprevPass => mret true
      | Some IprevTempError =>
          stop_with (line (str "451 4.7.25 Temporary error validating reverse DNS."))
      | _ => stop_with (line (str "550 5.7.25 Reverse DNS validation failed."))
      end
    else mret true.

Definition sender_of (from : MailFrom) : SessionAddress :=
  if bool_decide (mf_address from = []) then
    {| sa_address := []; sa_address_lcase := []; sa_domain := []; sa_flags := mf_flags from;
       dsn_info := mf_env_id from |}
  else address_of (mf_address from) (mf_flags from) (mf_env_id from).

(** Sieve, milters and MTA hooks of a stage, [reject] on a refusal. *)
Definition stage_filters (script : option ScriptResult) (milters : list Milter) (hooks : list Hook)
    (reject : bytes → SM bool) : SM bool :=
  and_then
    match script with
    | Some (ScriptAccept modifications) => _ ← modify_data (apply_script modifications); mret true
    | Some (ScriptReject message) => reject message
    | _ => mret true
    end false
  (r ← unwrap (run_milters milters);
   match r with
   | Err message => reject (fr_message message)
   | Ok _ =>
       match run_mta_hooks hooks with
       | Err message => reject (fr_message message)
       | Ok _ => mret true
       end
   end).

Definition rewrite_from (rewrite : option bytes) : SM () :=
  match rewrite with
  | None => mret ()
  | Some new_address =>
      d ← get_data;
      from ← unwrap (mail_from d);
      let from :=
        if contains_at new_address then readdress new_address from
        else if bool_decide (new_address = []) then unaddress from
        else from in
      modify_data (λ d, d <| mail_from := Some from |>)
  end.

(** Whether an account may send from an address. *)
Definition may_send_from (token : AccessToken) (address : bytes) : bool :=
  bool_decide (account_name token = address)
  || existsb (λ e, bool_decide (e = address)
                   || bool_decide (head e = Some "@") && bool_decide (e `suffix_of` address))
       (at_emails token).

Definition match_sender : SM bool :=
  s ← get_session;
  match authenticated_as (data s) with
  | Some token =>
      if auth_match_sender (params s) then
        from ← unwrap (mail_from (data s));
        if may_send_from token (sa_address_lcase from) then mret true
        else drop_from (line (str "501 5.5.4 You are not allowed to send from this address."))
      else mret true
  | None => mret true
  end.

Definition check_requiretls (a : MailAnswers) (from : MailFrom) : SM bool :=
  if flag_set (mf_flags from) MAIL_REQUIRETLS && negb (default false (ma_requiretls a))
  then drop_from (line (str "501 5.5.4 REQUIRETLS has been disabled."))
  else mret true.

(** [from.by.checked_abs().unwrap_or(0) as u64] *)
Definition checked_abs (by_ : Z) : Z := if by_ =? - 2 ^ 63 then 0 else Z.abs by_.

Definition check_deliver_by (a : MailAnswers) (from : MailFrom) : SM bool :=
  if flag_set (mf_flags from) (MAIL_BY_NOTIFY .| MAIL_BY_RETURN) then
    match ma_deliver_by a with
    | Some duration =>
        if (checked_abs (mf_by from) <=? duration)
           && ((0 <? mf_by from) || flag_set (mf_flags from) MAIL_BY_NOTIFY)
        then _ ← modify_data (λ d, d <| delivery_by := mf_by from |>); mret true
        else drop_from (line (str "501 5.5.4 BY parameter exceeds maximum of " ++ uint_to_string duration
                              ++ str " seconds."))
    | None => drop_from (line (str "501 5.5.4 DELIVERBY extension has been disabled."))
    end
  else mret true.

Definition check_priority (a : MailAnswers) (from : MailFrom) : SM bool :=
  if mf_mt_priority from =? 0 then mret true
  else
    match ma_mt_priority a with
    | Some _ =>
        if (-6 <=? mf_mt_priority from) && (mf_mt_priority from <? 6)
        then _ ← modify_data (λ d, d <| sd_priority := mf_mt_priority from |>); mret true
        else drop_from (line (str "501 5.5.4 Invalid priority value."))
    | None => drop_from (line (str "501 5.5.4 MT-PRIORITY extension has been disabled."))
    end.

Definition check_size (a : MailAnswers) (from : MailFrom) : SM bool :=
  if (0 <? mf_size from) && (default (25 * 1024 * 1024) (ma_max_message_size a) <? mf_size from)
  then drop_from (line (str "552 5.3.4 Message too big for system."))
  else mret true.

Definition check_hold (a : MailAnswers) (from : MailFrom) : SM bool :=
  if (mf_hold_for from =? 0) && (mf_hold_until from =? 0) then mret true
  else
    match ma_future_release a with
    | Some max_hold =>
        let hold_for :=
          if negb (mf_hold_for from =? 0) then mf_hold_for from
          else if ma_now a <? mf_hold_until from then mf_hold_until from - ma_now a else 0 in
        if hold_for <=? max_hold then _ ← modify_data (λ d, d <| future_release := hold_for |>); mret true
        else drop_from (line (str "501 5.5.4 Requested hold time exceeds maximum of "
                              ++ uint_to_string max_hold ++ str " seconds."))
    | None => drop_from (line (str "501 5.5.4 FUTURERELEASE extension has been disabled."))
    end.

Definition check_dsn (a : MailAnswers) (from : MailFrom) : SM bool :=
  if bool_decide (is_Some (mf_env_id from)) && negb (default false (ma_dsn a))
  then drop_from (line (str "501 5.5.4 DSN extension has been disabled."))
  else mret true.

Definition validate_parameters (a : MailAnswers) (from : MailFrom) : SM bool :=
  and_then (check_requiretls a from) false (and_then (check_deliver_by a from) false
  (and_then (check_priority a from) false (and_then (check_size a from) false
  (and_then (check_hold a from) false (check_dsn a from))))).

(** Throttle, SPF and the reply. *)
Definition admit_sender (a : MailAnswers) : SM () :=
  if ma_throttle a then
    p ← get_params;
    and_then
      (if verify (p_spf_mail_from p) then
         d ← get_data;
         _ ← unwrap (mail_from d);
         ok ← handle_spf (ma_spf a) (is_strict (p_spf_mail_from p));
         if ok : bool then _ ← modify_data (λ d, d <| spf_mail_from := Some (ma_spf a) |>); mret true
         else _ ← modify_data (λ d, d <| mail_from := None |>); mret false
       else mret true) tt
    (_ ← eval_rcpt_params (ma_params a);
     write (line (str "250 2.1.0 OK")))
  else
    _ ← drop_from (line (str "451 4.4.5 Rate limit exceeded, try again later."));
    mret ().

Definition handle_mail_from (a : MailAnswers) (from : MailFrom) : SM () :=
  and_then (mail_preconditions a) tt
  (_ ← modify_data (λ d, d <| mail_from := Some (sender_of from) |>);
   and_then (if default true (ma_is_allowed a) then mret true
             else drop_from (line (str "550 5.7.1 Sender address not allowed."))) tt
  (and_then (stage_filters (ma_script a) (ma_milters a) (ma_hooks a) drop_from) tt
  (_ ← rewrite_from (ma_rewrite a);
   and_then match_sender tt
  (and_then (validate_parameters a from) tt (admit_sender a))))).

(** ** inbound/rcpt.rs *)

Definition rcpt_error (response : bytes) : SM bool :=
  _ ← modify_data (λ d, d <| rcpt_errors ::= S |>);
  s ← get_session;
  if (rcpt_errors (data s) <? rcpt_errors_max (params s))%nat then stop_with response
  else
    _ ← write (line (str "421 4.3.0 Too many errors, disconnecting."));
    disconnect.

(** [self.data.rcpt_oks += 1; return self.write(b"250 2.1.5 OK")] *)
Definition rcpt_ok : SM () :=
  _ ← modify_data (λ d, d <| rcpt_oks ::= S |>);
  write (line (str "250 2.1.5 OK")).

Definition rewrite_rcpt (rewrite : option bytes) : SM () :=
  match rewrite with
  | None => mret ()
  | Some new_address =>
      if contains_at new_address
      then modify_data (λ d, d <| rcpt_to ::= alter_last (readdress new_address) |>)
      else mret ()
  end.

(** Filters and rewriting of the last recipient, which may make it one there is. *)
Definition rcpt_filters (a : RcptAnswers) : SM bool :=
  if bool_decide (is_Some (ra_script a)) || ra_has_rewrite a || ra_milter_on_stage a then
    and_then (stage_filters (ra_script a) (ra_milters a) (ra_hooks a) drop_rcpt) false
    (_ ← rewrite_rcpt (ra_rewrite a);
     d ← get_data;
     rcpt ← unwrap (last (rcpt_to d));
     if (1 <? length (filter (λ r, sa_eqb r rcpt = true) (rcpt_to d)))%nat
     then _ ← pop_rcpt; _ ← rcpt_ok; mret false
     else mret true)
  else mret true.

(** The last recipient is one of the directory, or relaying is allowed; the members
    when it is a list. *)
Definition verify_rcpt (a : RcptAnswers) : SM (option (option (list bytes))) :=
  let unable := _ ← drop_rcpt (line (str "451 4.4.3 Unable to verify address at this time.")); mret None in
  let refuse reply := _ ← pop_rcpt; _ ← rcpt_error (line reply); mret None in
  let relay :=
    if default false (ra_relay a) then mret (Some None)
    else refuse (str "550 5.1.2 Relay not allowed.") in
  d ← get_data;
  rcpt ← unwrap (last (rcpt_to d));
  match ra_directory a with
  | Some directory =>
      match is_local_domain directory (sa_domain rcpt) with
      | Some true =>
          match dir_rcpt directory (sa_address_lcase rcpt) with
          | Some Mailbox => mret (Some None)
          | Some (List members) => mret (Some (Some members))
          | Some Invalid => refuse (str "550 5.1.2 Mailbox does not exist.")
          | None => unable
          end
      | Some false => relay
      | None => unable
      end
  | None => relay
  end.

(** The members of a list that are not recipients yet, in place of the list. *)
Definition add_member (list_addr : SessionAddress) (l : list SessionAddress) (member : bytes)
    : list SessionAddress :=
  let a := session_address_new member in
  if has_rcpt a l || sa_eqb a list_addr then l
  else l ++ [a <| dsn_info := Some (str "rfc822;" ++ sa_address_lcase list_addr) |>
               <| sa_flags := sa_flags list_addr |>].

Definition expand_list (members : option (list bytes)) : SM () :=
  match members with
  | None => mret ()
  | Some members =>
      d ← get_data;
      list_addr ← unwrap (last (rcpt_to d));
      modify_data (λ d, d <| rcpt_to ::= λ l, foldl (add_member list_addr) (removelast l) members |>)
  end.

Definition rcpt_of (to : RcptTo) : SessionAddress := address_of (rt_address to) (rt_flags to) (rt_orcpt to).

Definition handle_rcpt_to (a : RcptAnswers) (to : RcptTo) : SM () :=
  s ← get_session;
  let reply l := write (line l) in
  if bool_decide (mail_from (data s) = None) then reply (str "503 5.5.1 MAIL is required first.")
  else if (rcpt_max (params s) <=? length (rcpt_to (data s)))%nat
  then reply (str "451 4.5.3 Too many recipients.")
  else if (flag_set (rt_flags to) RCPT_NOTIFY_ANY || bool_decide (is_Some (rt_orcpt to)))
          && negb (rcpt_dsn (params s))
  then reply (str "501 5.5.4 DSN extension has been disabled.")
  else
    let rcpt := rcpt_of to in
    if has_rcpt rcpt (rcpt_to (data s)) then rcpt_ok
    else
      _ ← modify_data (λ d, d <| rcpt_to ::= λ l, l ++ [rcpt] |>);
      and_then (rcpt_filters a) tt
      (v ← verify_rcpt a;
       match v with
       | None => mret ()
       | Some members =>
           if ra_throttle a then _ ← expand_list members; rcpt_ok
           else _ ← drop_rcpt (line (str "451 4.4.5 Rate limit exceeded, try again later.")); mret ()
       end).

(** ** inbound/vrfy.rs *)

Definition vrfy_reply (values : list bytes) : bytes :=
  concat (imap (λ pos v, line (str "250" ++ (if (pos =? pred (length values))%nat then str " " else str "-") ++ v))
            values).

Definition handle_vrfy (a : VrfyAnswers) : SM () :=
  p ← get_params;
  if va_has_directory a && can_vrfy p then
    match va_values a with
    | Ok [] | Err true => write (line (str "550 5.1.2 Address not found."))
    | Ok values => write (vrfy_reply values)
    | Err false => write (line (str "252 2.4.3 Unable to verify address at this time."))
    end
  else write (line (str "252 2.5.1 VRFY is disabled.")).

Definition handle_expn (a : VrfyAnswers) : SM () :=
  p ← get_params;
  if va_has_directory a && can_expn p then
    match va_values a with
    | Ok [] | Err true => write (line (str "550 5.1.2 Mailing list not found."))
    | Ok values => write (vrfy_reply values)
    | Err false => write (line (str "252 2.4.3 Unable to expand mailing list at this time."))
    end
  else write (line (str "252 2.5.1 EXPN is disabled.")).

(** ** inbound/data.rs *)

Definition can_send_data (max_messages : option nat) : SM bool :=
  d ← get_data;
  if bool_decide (rcpt_to d = []) then stop_with (line (str "503 5.5.1 RCPT is required first."))
  else if (messages_sent d <? default 10%nat max_messages)%nat then mret true
  else stop_with (line (str "451 4.4.5 Maximum number of messages per session exceeded.")).

(** reporting/mod.rs *)
Definition address_matches (m : AddressMatch) (a : SessionAddress) : bool :=
  match m with
  | StartsWith prefix => bool_decide (prefix `prefix_of` sa_address_lcase a)
  | EndsWith suffix => bool_decide (suffix `suffix_of` sa_address_lcase a)
  | Equals value => bool_decide (sa_address_lcase a = value)
  end.
Definition is_report (addresses : list AddressMatch) (rcpts : list SessionAddress) : bool :=
  existsb (λ m, existsb (address_matches m) rcpts) addresses.

Definition is_dkim_pass (r : DkimResult) : bool := match r with DkimPass => true | _ => false end.
Definition is_dkim_temp_error (r : DkimResult) : bool := match r with DkimTempError => true | _ => false end.

(** The checks of DKIM, ARC and DMARC: a reply when the message is refused. *)
Definition dkim_refusal (a : DataAnswers) : option bytes :=
  let dkim := default Relaxed (qm_dkim_verify a) in
  let dmarc := default Relaxed (qm_dmarc_verify a) in
  if (verify dkim || verify dmarc) && (is_strict dkim && negb (existsb is_dkim_pass (qm_dkim a))) then
    Some (if existsb is_dkim_temp_error (qm_dkim a)
          then line (str "451 4.7.20 No passing DKIM signatures found.")
          else line (str "550 5.7.20 No passing DKIM signatures found."))
  else None.

Definition arc_refusal (a : DataAnswers) : option bytes :=
  let arc := default Relaxed (qm_arc_verify a) in
  let pass := match qm_arc a with DkimPass | DkimNone => true | _ => false end in
  if (verify arc || qm_arc_sealer a) && (is_strict arc && negb pass) then
    Some (if is_dkim_temp_error (qm_arc a) then line (str "451 4.7.29 ARC validation failed.")
          else line (str "550 5.7.29 ARC validation failed."))
  else None.

Definition is_dmarc_pass (r : DmarcResult) : bool := match r with DmarcPass => true | _ => false end.
Definition is_dmarc_temp_error (r : DmarcResult) : bool := match r with DmarcTempError => true | _ => false end.

Definition dmarc_refusal (a : DataAnswers) (spf : option SpfResult) : option bytes :=
  let dmarc := default Relaxed (qm_dmarc_verify a) in
  let out := qm_dmarc a in
  if bool_decide (is_Some spf) && verify dmarc then
    let pass := is_dmarc_pass (dmarc_spf_result out) || is_dmarc_pass (dmarc_dkim_result out) in
    let rejected := is_strict dmarc
                    && match dmarc_policy out with PolicyReject => true | _ => false end && negb pass in
    let is_temp_fail := (rejected && is_dmarc_temp_error (dmarc_spf_result out))
                        || is_dmarc_temp_error (dmarc_dkim_result out) in
    if rejected then
      Some (if is_temp_fail then line (str "451 4.7.1 Email temporarily rejected per DMARC policy.")
            else line (str "550 5.7.1 Email rejected per DMARC policy."))
    else None
  else None.

(** Milters, then hooks, whose changes remove every earlier body. *)
Definition data_filters (a : DataAnswers) : option (result FilterResponse (list Modification)) :=
  r ← run_milters (qm_milters a);
  Some (modifications ← r;
        new ← run_mta_hooks (qm_hooks a);
        Ok (if bool_decide (new = []) then modifications else keep_headers modifications ++ new)).

(** The pipe commands: the output of one that succeeds and changed the message. *)
Definition run_pipes (pipes : list (bytes → option bytes)) (raw : bytes) (edited : option bytes) : option bytes :=
  foldl (λ edited pipe,
    let piped := default raw edited in
    match pipe piped with
    | Some out => if bool_decide (out = []) || bool_decide (out = piped) then edited else Some out
    | None => edited
    end) edited pipes.

(** The data script: a reply, or the message and the headers. *)
Definition data_script (script : option ScriptResult) (edited : option bytes) (headers : bytes)
    : SM (bytes + option bytes * bytes) :=
  match script with
  | None => mret (inr (edited, headers))
  | Some (ScriptReject message) => mret (inl message)
  | Some ScriptDiscard => mret (inl MESSAGE_QUEUED)
  | Some (ScriptAccept modifications) =>
      _ ← modify_data (apply_script modifications);
      mret (inr (edited, script_headers modifications headers))
  | Some (ScriptReplace message modifications) =>
      _ ← modify_data (apply_script modifications);
      mret (inr (Some message, script_headers modifications headers))
  end.

(** The headers in front of the message, its signatures first come, first served. *)
Definition final_headers (a : DataAnswers) (headers path raw : bytes) : bytes :=
  let headers :=
    if default true (qm_add_return_path a) then headers ++ str "Return-Path: <" ++ path ++ line (str ">")
    else headers in
  foldl (λ headers sign, headers ++ default [] (sign headers raw)) (headers ++ qm_missing_headers a)
    (qm_signers a).

Definition sized (sz : Z) (m : Message) : Message := with_blob (blob_hash m) sz m.

Definition put_accepted (now : Z) (source : MessageSource) (m : Message) : SM () := λ s,
  (Done (), s <| state := StAccepted (queue_id m) |>
              <| accepted ::= λ l, l ++ [{| ac_message := m; ac_due := default 0 (next_event now m);
                                            ac_source := source |}] |>).

(** The end of [queue_message]: quota and queue. *)
Definition enqueue (a : DataAnswers) (m : Message) (headers raw : bytes) : SM bytes :=
  s ← get_session;
  let '(ok, m) := has_quota (qm_quotas a) (store (server s)) m in
  if ok : bool then
    let source := if is_authenticated (data s) then Authenticated else Unauthenticated in
    let '(ok, sv) := queue gen_range xxh3_64 seed blob_hash_of (qm_queue_now a) (qm_queue a)
                       (Some headers) raw m (server s) in
    _ ← put_server sv;
    if ok : bool then
      _ ← put_accepted (qm_queue_now a) source (queued blob_hash_of (Some headers) raw m);
      _ ← modify_data (λ d, d <| messages_sent ::= S |>);
      mret MESSAGE_QUEUED
    else mret (line (str "451 4.3.5 Unable to accept message at this time."))
  else mret (line (str "452 4.3.1 Mail system full, try again later.")).

(** From the filters on. *)
Definition filter_and_queue (a : DataAnswers) (raw : bytes) (parsed : ParsedMessage) : SM bytes :=
  let id := default (qm_now a) (qm_generated a) in
  r ← unwrap (data_filters a);
  match r with
  | Err response => mret (fr_message response)
  | Ok modifications =>
      d ← get_data;
      let '(edited, d) :=
        if bool_decide (modifications = []) then (None, d)
        else apply_milter_modifications modifications parsed d in
      _ ← modify_data (λ _, d);
      r ← data_script (qm_script a) (run_pipes (qm_pipes a) raw edited) (qm_auth_headers a);
      match r with
      | inl reply => mret reply
      | inr (edited, headers) =>
          d ← get_data;
          from ← unwrap (mail_from d);
          _ ← modify_data (λ d, d <| rcpt_to := [] |>);
          m ← unwrap (build_message (qm_build a) from (rcpt_to d) id d);
          let raw := default raw edited in
          let headers := final_headers a headers (return_path m) raw in
          enqueue a (sized (Z.of_nat (length raw + length headers)) m) headers raw
      end
  end.

Definition queue_message (a : DataAnswers) : SM bytes :=
  d ← get_data;
  let raw := sd_message d in
  _ ← modify_data (λ d, d <| sd_message := [] |>);
  match qm_parse a raw with
  | None => mret (line (str "550 5.7.7 Failed to parse message."))
  | Some parsed =>
      if default 50 (qm_max_received_headers a) <? qm_received_headers a
      then mret (line (str "450 4.4.6 Too many Received headers. Possible loop detected."))
      else
        match dkim_refusal a, arc_refusal a with
        | Some reply, _ | None, Some reply => mret reply
        | None, None =>
            _ ← unwrap (mail_from d);
            match dmarc_refusal a (spf_mail_from d) with
            | Some reply => mret reply
            | None =>
                if is_report (qm_report_addresses a) (rcpt_to d) && negb (qm_report_forward a)
                then _ ← modify_data (λ d, d <| messages_sent ::= S |>); mret MESSAGE_QUEUED
                else filter_and_queue a raw parsed
            end
        end
  end.

(** ** inbound/session.rs: the loop *)

(** A turn of the loop: on with a state and the bytes left, out of it, or STARTTLS. *)
Inductive Turn :=
| Next (st : State) (rest : bytes)
| Break (st : State)
| TlsStarts.

Definition isize_max : Z := 2 ^ 63 - 1.

(** [Vec::reserve], which panics when the capacity does not fit. *)
Definition reserve (n : Z) (len : nat) : SM () :=
  if Z.of_nat len + n <=? isize_max then mret () else panic.

Definition start_bdat (chunk_size : Z) (is_last : bool) : SM State :=
  s ← get_session;
  let len := length (sd_message (data s)) in
  if wrap 64 (chunk_size + Z.of_nat len) <? max_message_size (params s)
  then _ ← reserve chunk_size len; mret (StBdat (bdat_new chunk_size is_last))
  else mret (StDataTooLarge (dummy_new_bdat chunk_size)).

(** AUTH: the state that waits for the next line, if any. *)
Definition handle_auth (a : AuthAnswers) (mech : Z) (initial_response : bytes) : SM (option State) :=
  let auth := default 0 (au_mechanisms a) in
  let reply l := _ ← write (line l); mret None in
  s ← get_session;
  if (auth =? 0) || negb (auth_directory (params s)) then reply (str "503 5.5.1 AUTH not allowed.")
  else if is_authenticated (data s) then reply (str "503 5.5.1 Already authenticated.")
  else
    match from_mechanism (mech .& auth) with
    | None => reply (str "554 5.7.8 Authentication mechanism not supported.")
    | Some token =>
        '(more, token) ← handle_sasl_response a token initial_response;
        mret (if (more : bool) then Some (StSasl (line_new token)) else None)
    end.

(** A request: the state the loop goes on with, [None] when TLS starts. *)
Definition handle_request (a : Answers) (r : RequestReceiver) (req : Request) : SM (option State) :=
  let stay (m : SM ()) : SM (option State) := _ ← m; mret (Some (StRequest r)) in
  let reply l := stay (write (line l)) in
  s ← get_session;
  match req with
  | ReqRcpt to => stay (handle_rcpt_to (an_rcpt a) to)
  | ReqMail from => stay (handle_mail_from (an_mail a) from)
  | ReqEhlo host =>
      match protocol s with
      | Smtp => stay (handle_ehlo (an_ehlo a) host true)
      | Lmtp => reply (str "500 5.5.1 Invalid command.")
      end
  | ReqData =>
      ok ← can_send_data (an_max_messages a);
      if ok : bool then
        _ ← write (line (str "354 Start mail input; end with <CRLF>.<CRLF>"));
        _ ← modify_data (λ d, d <| sd_message := [] |>);
        mret (Some (StData data_new))
      else mret (Some (StRequest r))
  | ReqBdat chunk_size is_last => st ← start_bdat chunk_size is_last; mret (Some st)
  | ReqAuth mech initial_response =>
      st ← handle_auth (an_auth a) mech initial_response;
      mret (Some (default (StRequest r) st))
  | ReqNoop => reply (str "250 2.0.0 OK")
  | ReqVrfy _ => stay (handle_vrfy (an_vrfy a))
  | ReqExpn _ => stay (handle_expn (an_vrfy a))
  | ReqStartTls =>
      if is_tls s then reply (str "504 5.7.4 Already in TLS mode.")
      else if acceptor_tls s then
        _ ← write (line (str "220 2.0.0 Ready to start TLS."));
        mret None
      else reply (str "502 5.7.0 TLS not available.")
  | ReqRset => _ ← reset; reply (str "250 2.0.0 OK")
  | ReqQuit => _ ← write (line (str "221 2.0.0 Bye.")); disconnect
  | ReqHelp => reply (str "250 2.0.0 Help can be found at https://stalw.art")
  | ReqHelo host =>
      match protocol s with
      | Smtp => stay (handle_ehlo (an_ehlo a) host false)
      | Lmtp => reply (str "500 5.5.1 Invalid command: LHLO expected.")
      end
  | ReqLhlo host =>
      match protocol s with
      | Lmtp => stay (handle_ehlo (an_ehlo a) host true)
      | Smtp => reply (str "502 5.5.1 Invalid command: EHLO expected.")
      end
  | ReqEtrn | ReqAtrn | ReqBurl => reply (str "502 5.5.1 Command not implemented.")
  end.

(** An error of the request receiver, [NeedsMoreData] aside. *)
Definition handle_request_error (a : Answers) (r : RequestReceiver) (err : RequestError) : SM State :=
  let reply l := _ ← write (line l); mret (StRequest r) in
  match err with
  | NeedsMoreData => mret (StRequest r)
  | UnknownCommand | InvalidResponse =>
      d ← get_data;
      if negb (is_authenticated d) && default false (an_scanner_banned a) then disconnect
      else reply (str "500 5.5.1 Invalid command.")
  | InvalidSenderAddress => reply (str "501 5.1.8 Bad sender's system address.")
  | InvalidRecipientAddress => reply (str "501 5.1.3 Bad destination mailbox address syntax.")
  | SyntaxError syntax => reply (str "501 5.5.2 Syntax error, expected: " ++ syntax)
  | InvalidParameter param => reply (str "501 5.5.4 Invalid parameter " ++ debug_text param ++ str ".")
  | UnsupportedParameter param => reply (str "504 5.5.4 Unsupported parameter " ++ debug_text param ++ str ".")
  | ResponseTooLong => mret (StRequestTooLarge dummy_line_default)
  end.

(** The reply to a message, once per accepted RCPT with LMTP; no reply disconnects. *)
Fixpoint write_times (n : nat) (l : bytes) : SM () :=
  match n with O => mret () | S n => _ ← write l; write_times n l end.

Definition finish_message (a : DataAnswers) : SM () :=
  message ← queue_message a;
  s ← get_session;
  if bool_decide (message = []) then disconnect
  else
    _ ← write_times match protocol s with Smtp => 1 | Lmtp => rcpt_oks (data s) end message;
    reset.

(** [total] is the length of the whole input. *)
Definition turn (a : Answers) (total : nat) (st : State) (iter : bytes) : SM Turn :=
  match st with
  | StRequest r =>
      let '(res, r, rest) := request_ingest r iter in
      match res with
      | Ok req =>
          st ← handle_request a r req;
          mret (if st is Some st then Next st rest else TlsStarts)
      | Err NeedsMoreData => mret (Break (StRequest r))
      | Err err => st ← handle_request_error a r err; mret (Next st rest)
      end
  | StData r =>
      s ← get_session;
      if Z.of_nat (length (sd_message (data s))) + Z.of_nat total <? max_message_size (params s) then
        let '(ok, r, message, rest) := data_ingest r iter (sd_message (data s)) in
        _ ← modify_data (λ d, d <| sd_message := message |>);
        if ok : bool then _ ← finish_message (an_data a); mret (Next state_default rest)
        else mret (Break (StData r))
      else mret (Next (StDataTooLarge (dummy_new_data r)) iter)
  | StBdat r =>
      s ← get_session;
      let '(ok, r, message, rest) := bdat_ingest r iter (sd_message (data s)) in
      _ ← modify_data (λ d, d <| sd_message := message |>);
      if ok : bool then
        can ← can_send_data (an_max_messages a);
        _ ← (if (can : bool) then
               if bdat_is_last r then finish_message (an_data a)
               else write (line (str "250 2.6.0 Chunk accepted."))
             else modify_data (λ d, d <| sd_message := [] |>));
        mret (Next state_default rest)
      else mret (Break (StBdat r))
  | StSasl r =>
      let '(ok, r, rest) := line_ingest r iter in
      if ok : bool then
        if (length (line_buf r) <? MAX_LINE_LENGTH)%nat then
          '(more, token) ← handle_sasl_response (an_auth a) (line_token r) (line_buf r);
          mret (Next (if (more : bool) then StSasl (line_clear token r) else state_default) rest)
        else
          _ ← auth_error (line (str "500 5.5.6 Authentication Exchange line is too long."));
          mret (Next state_default rest)
      else mret (Break (StSasl r))
  | StDataTooLarge r =>
      let '(ok, r, rest) := dummy_data_ingest r iter in
      if ok : bool then
        _ ← modify_data (λ d, d <| sd_message := [] |>);
        _ ← write (line (str "552 5.3.4 Message too big for system."));
        mret (Next state_default rest)
      else mret (Break (StDataTooLarge r))
  | StRequestTooLarge r =>
      let '(ok, r, rest) := dummy_line_ingest r iter in
      if ok : bool then
        _ ← write (line (str "554 5.3.4 Line is too long."));
        mret (Next state_default rest)
      else mret (Break (StRequestTooLarge r))
  | StNone | StAccepted _ => panic
  end.

Definition put_state (st : State) : SM () := λ s, (Done (), s <| state := st |>).

(** Out of fuel is [None]; the [n]-th turn meets the answers [E n]. *)
Fixpoint ingest_loop (fuel : nat) (E : nat → Answers) (total : nat) (st : State) (iter : bytes)
    : Session → option (Outcome bool * Session) := λ s,
  match fuel with
  | O => None
  | S fuel =>
      match turn (E O) total st iter s with
      | (Done (Next st rest), s) => ingest_loop fuel (λ n, E (S n)) total st rest s
      | (Done (Break st), s) => Some (Done true, s <| state := st |>)
      | (Done TlsStarts, s) => Some (Done false, s <| state := state_default |>)
      | (Disconnect, s) => Some (Disconnect, s)
      | (Panic, s) => Some (Panic, s)
      end
  end.

(** A turn that reads nothing is followed by one that reads or ends the loop. *)
Definition ingest_fuel (l : bytes) : nat := 3 * length l + 3.

Definition ingest (E : nat → Answers) (l : bytes) (s : Session) : option (Outcome bool * Session) :=
  ingest_loop (ingest_fuel l) E (length l) (state s) l (s <| state := StNone |>).

(** ** inbound/spawn.rs *)

Record ConnectAnswers := {
  ca_params : SessionParamAnswers;
  ca_script : option ScriptResult;
  ca_milters : list Milter;
  ca_hooks : list Hook;
  ca_hostname : option bytes;
  ca_greeting : option bytes;
}.

(** [!write(..).await.is_err()] *)
Definition write_is_ok (l : bytes) : SM bool := λ s,
  match write l s with
  | (Done _, s) => (Done true, s)
  | (_, s) => (Done false, s)
  end.

Definition put_hostname (l : bytes) : SM () := λ s, (Done (), s <| s_hostname := l |>).

Definition init_conn (a : ConnectAnswers) : SM bool :=
  let refuse l := _ ← write_ok l; mret false in
  _ ← eval_session_params (ca_params a);
  match ca_script a with
  | Some (ScriptReject message) => refuse message
  | _ =>
      r ← unwrap (run_milters (ca_milters a));
      match r with
      | Err message => refuse (fr_message message)
      | Ok _ =>
          match run_mta_hooks (ca_hooks a) with
          | Err message => refuse (fr_message message)
          | Ok _ =>
              let host := default [] (ca_hostname a) in
              _ ← put_hostname (if bool_decide (host = []) then str "localhost" else host);
              let greeting :=
                match ca_greeting a with
                | Some (c :: g) => line (str "220 " ++ c :: g)
                | _ => line (str "220 Stalwart ESMTP at your service.")
                end in
              write_is_ok greeting
          end
      end
  end.

(** What a connection meets while it waits for input. *)
Inductive ConnEvent :=
| ConnRead (now : Z) (E : nat → Answers) (l : bytes)
| ConnError
| ConnTimeout
| ConnShutdown.

(** Still waiting; ended, with TLS to be started or not; ended by a panic. *)
Inductive ConnResult :=
| Waiting
| Ended (tls : bool)
| Panicked.

Fixpoint handle_conn (events : list ConnEvent) (s : Session) : option (ConnResult * Session) :=
  match events with
  | [] => Some (Waiting, s)
  | ConnRead now E l :: events =>
      let n := Z.of_nat (length l) in
      if bool_decide (l = []) then Some (Ended false, s)
      else if (now <? valid_until (data s)) && (n <=? bytes_left (data s)) then
        match ingest E l (s <| data ::= λ d, d <| bytes_left ::= λ b, b - n |> |>) with
        | None => None
        | Some (Done true, s) => handle_conn events s
        | Some (Done false, s) => Some (Ended true, s)
        | Some (Disconnect, s) => Some (Ended false, s)
        | Some (Panic, s) => Some (Panicked, s)
        end
      else
        let reply := if bytes_left (data s) <? n
                     then str "451 4.7.28 " ++ s_hostname s ++ str " Session exceeded transfer quota."
                     else str "453 4.3.2 " ++ s_hostname s ++ str " Session open for too long." in
        Some (Ended false, (write_ok (line reply) s).2)
  | ConnError :: _ => Some (Ended false, s)
  | ConnTimeout :: _ =>
      Some (Ended false,
            (write_ok (line (str "221 2.0.0 " ++ s_hostname s ++ str " Disconnecting inactive client.")) s).2)
  | ConnShutdown :: _ => Some (Ended false, (write_ok (line (str "421 4.3.0 Server shutting down.")) s).2)
  end.

Definition session_new (now : Z) (proto : ServerProtocol) (acceptor tls : bool) (writes : option nat)
    (sv : Server DB) : Session := {|
  s_hostname := []; state := state_default; protocol := proto; acceptor_tls := acceptor;
  is_tls := tls; output := []; writes_left := writes; data := session_data_new now;
  params := session_parameters_default; server := sv; accepted := [] |}.

(** The session over TLS: the same state on the new stream, which takes [writes]. *)
Definition into_tls (writes : option nat) (s : Session) : Session :=
  s <| is_tls := true |><| writes_left := writes |>.

(** A connection: throttle, greeting, commands, and, after STARTTLS and a handshake
    ([Some] gives the writes of the new stream), commands again. *)
Definition handle (is_allowed : bool) (a : ConnectAnswers) (before : list ConnEvent)
    (tls_accept : option (option nat)) (after : list ConnEvent) (s : Session)
    : option (ConnResult * Session) :=
  if is_allowed then
    match init_conn a s with
    | (Done true, s) =>
        '(r, s) ← handle_conn before s;
        match r, tls_accept with
        | Ended true, Some writes =>
            if acceptor_tls s then handle_conn after (into_tls writes s) else Some (Ended false, s)
        | Ended true, None => Some (Ended false, s)
        | r, _ => Some (r, s)
        end
    | (Panic, s) => Some (Panicked, s)
    | (_, s) => Some (Ended false, s)
    end
  else Some (Ended false, s).
End Session.
