(* ===== verification/SmtpInbound.v ===== *)
(** * What SMTP sessions keep

    The theorems about the sessions of SmtpSession.v: rules to step through the
    handlers, the invariant between two commands, the limits, the recipients that a
    message may have, and the composition with the queue and its workers (SmtpQueue.v
    and SmtpWorker.v). *)

From coqutil Require Import Datatypes.RecordSettersUsingExistingGetters.
From S2P Require Import Prelude StoreKeys KvStore StoreTxn SmtpQueue SmtpDelivery SmtpWorker SmtpEnvelope SmtpSession.

(** ** Rules *)

Section Rules.
Context `{KvStore DB} `{SmtpReceivers}.

#[local] Abbreviation SM := (SM (DB := DB)).
#[local] Abbreviation Session := (Session (DB := DB)).

(** What holds of the data and the parameters when a handler is done; without [np] it
    may panic. *)
Definition dwp {A} (np : bool) (m : SM A) (Q : A → SessionData → SessionParameters → Prop)
    (d : SessionData) (p : SessionParameters) : Prop :=
  ∀ s : Session, data s = d → params s = p →
    match m s with
    | (Done a, s') => Q a (data s') (params s')
    | (Disconnect, _) => True
    | (Panic, _) => np = false
    end.

Lemma dwp_ret {A} np (a : A) (Q : A → SessionData → SessionParameters → Prop) d p :
  Q a d p → dwp np (mret a) Q d p.
Proof. by intros HQ s <- <-. Qed.

Lemma dwp_bind {A B} np (m : SM A) (k : A → SM B) Q d p :
  dwp np m (λ a, dwp np (k a) Q) d p → dwp np (m ≫= k) Q d p.
Proof.
  intros Hm s Hd Hp. specialize (Hm s Hd Hp). unfold mbind, sm_bind.
  destruct (m s) as [[a| |] s']; [|done|done]. by apply Hm.
Qed.

Lemma dwp_mono {A} np (m : SM A) (Q Q' : A → SessionData → SessionParameters → Prop) d p :
  dwp np m Q d p → (∀ a d p, Q a d p → Q' a d p) → dwp np m Q' d p.
Proof.
  intros Hm HQ s Hd Hp. specialize (Hm s Hd Hp). destruct (m s) as [[a| |] s']; [|done|done]. by apply HQ.
Qed.

Lemma dwp_write np l (Q : () → SessionData → SessionParameters → Prop) d p : Q tt d p → dwp np (write l) Q d p.
Proof. intros HQ s <- <-. unfold write. by destruct (writes_left s) as [[|]|]. Qed.

Lemma dwp_get_session np (Q : Session → SessionData → SessionParameters → Prop) d p :
  (∀ s, data s = d → params s = p → Q s d p) → dwp np get_session Q d p.
Proof. intros HQ s <- <-. by apply HQ. Qed.

Lemma dwp_get_data np (Q : SessionData → SessionData → SessionParameters → Prop) d p :
  Q d d p → dwp np get_data Q d p.
Proof. by intros HQ s <- <-. Qed.

Lemma dwp_get_params np (Q : SessionParameters → SessionData → SessionParameters → Prop) d p :
  Q p d p → dwp np get_params Q d p.
Proof. by intros HQ s <- <-. Qed.

Lemma dwp_modify_data np f (Q : () → SessionData → SessionParameters → Prop) d p :
  Q tt (f d) p → dwp np (modify_data f) Q d p.
Proof. by intros HQ s <- <-. Qed.

Lemma dwp_modify_params np f (Q : () → SessionData → SessionParameters → Prop) d p :
  Q tt d (f p) → dwp np (modify_params f) Q d p.
Proof. by intros HQ s <- <-. Qed.

Lemma dwp_unwrap {A} np (o : option A) (Q : A → SessionData → SessionParameters → Prop) d p :
  (np = true → is_Some o) → (∀ a, o = Some a → Q a d p) → dwp np (unwrap o) Q d p.
Proof.
  intros Hn HQ s <- <-. unfold unwrap. destruct o as [a|]; [by apply HQ|].
  destruct np; [|done]. by destruct (Hn eq_refl).
Qed.

Lemma dwp_disconnect {A} np (Q : A → SessionData → SessionParameters → Prop) d p : dwp np disconnect Q d p.
Proof. by intros s _ _. Qed.

Lemma dwp_panic {A} np (Q : A → SessionData → SessionParameters → Prop) d p :
  np = false → dwp np panic Q d p.
Proof. by intros -> s _ _. Qed.

Lemma dwp_and_then {A} np (m : SM bool) (stop : A) k Q d p :
  dwp np m (λ b d p, if b : bool then dwp np k Q d p else Q stop d p) d p →
  dwp np (and_then m stop k) Q d p.
Proof.
  intros Hm. apply dwp_bind. eapply dwp_mono; [exact Hm|]. intros [|] d' p' Hb; [done|]. by apply dwp_ret.
Qed.

Lemma dwp_stop_with np l (Q : bool → SessionData → SessionParameters → Prop) d p :
  Q false d p → dwp np (stop_with l) Q d p.
Proof. intros HQ. apply dwp_bind, dwp_write, dwp_ret, HQ. Qed.

Lemma dwp_drop_from np l (Q : bool → SessionData → SessionParameters → Prop) d p :
  Q false (d <| mail_from := None |>) p → dwp np (drop_from l) Q d p.
Proof. intros HQ. apply dwp_bind, dwp_modify_data, dwp_stop_with, HQ. Qed.

Lemma dwp_drop_rcpt np l (Q : bool → SessionData → SessionParameters → Prop) d p :
  Q false (d <| rcpt_to ::= @removelast _ |>) p → dwp np (drop_rcpt l) Q d p.
Proof. intros HQ. apply dwp_bind, dwp_modify_data, dwp_stop_with, HQ. Qed.

Lemma dwp_put_server np sv (Q : () → SessionData → SessionParameters → Prop) d p :
  Q tt d p → dwp np (put_server sv) Q d p.
Proof. by intros HQ s <- <-. Qed.

Lemma dwp_put_accepted np now source m (Q : () → SessionData → SessionParameters → Prop) d p :
  Q tt d p → dwp np (put_accepted now source m) Q d p.
Proof. by intros HQ s <- <-. Qed.

(** Nothing is claimed of the data. *)
Lemma dwp_any {A} (m : SM A) d p : dwp false m (λ _ _ _, True) d p.
Proof. intros s _ _. by destruct (m s) as [[]]. Qed.

Lemma dwp_run {A} np (m : SM A) (Q : A → SessionData → SessionParameters → Prop) (s : Session) :
  dwp np m Q (data s) (params s) →
  match m s with
  | (Done a, s') => Q a (data s') (params s')
  | (Disconnect, _) => True
  | (Panic, _) => np = false
  end.
Proof. intros Hm. by apply Hm. Qed.
End Rules.

#[global] Opaque dwp.

(** One rule, by the head of the program. *)
Ltac dwp_step :=
  lazymatch goal with
  | |- dwp _ (mbind _ _) _ _ _ => apply dwp_bind
  | |- dwp _ (mret _) _ _ _ => apply dwp_ret
  | |- dwp _ (write _) _ _ _ => apply dwp_write
  | |- dwp _ get_data _ _ _ => apply dwp_get_data
  | |- dwp _ get_params _ _ _ => apply dwp_get_params
  | |- dwp _ get_session _ _ _ => 
      let s := fresh "s" in let Hd := fresh in let Hp := fresh in
      apply dwp_get_session; intros s Hd Hp; rewrite ?Hd, ?Hp; clear Hd Hp
  | |- dwp _ (modify_data _) _ _ _ => apply dwp_modify_data
  | |- dwp _ (modify_params _) _ _ _ => apply dwp_modify_params
  | |- dwp _ (stop_with _) _ _ _ => apply dwp_stop_with
  | |- dwp _ (drop_from _) _ _ _ => apply dwp_drop_from
  | |- dwp _ (drop_rcpt _) _ _ _ => apply dwp_drop_rcpt
  | |- dwp _ disconnect _ _ _ => apply dwp_disconnect
  | |- dwp _ (put_server _) _ _ _ => apply dwp_put_server
  | |- dwp _ (put_accepted _ _ _) _ _ _ => apply dwp_put_accepted
  | |- dwp _ (and_then _ _ _) _ _ _ => apply dwp_and_then
  end.

(** ** Who may be a recipient *)

Section Vouched.
Context `{SmtpSyntax}.
Context (Ans : Answers → Prop).

Definition script_of (r : option ScriptResult) : list ScriptModification :=
  match r with Some (ScriptAccept l) | Some (ScriptReplace _ l) => l | _ => [] end.

(** The addresses that scripts of MAIL and DATA, milters and hooks put in the envelope. *)
Definition named (value : bytes) : Prop :=
  ∃ ans, Ans ans ∧
    (SetEnvelope EnvTo value ∈ script_of (ma_script (an_mail ans)) ∨
     SetEnvelope EnvTo value ∈ script_of (qm_script (an_data ans)) ∨
     ∃ l args rcpt, data_filters (an_data ans) = Some (Ok l) ∧ AddRcpt rcpt args ∈ l ∧
       value = strip_brackets rcpt).

(** Why a recipient is one: a directory has its mailbox, the session may relay to its
    domain, it is a member of a list of a directory, or a filter of the server named it. *)
Inductive vouched (a : SessionAddress) : Prop :=
| by_mailbox ans dir :
    Ans ans → ra_directory (an_rcpt ans) = Some dir →
    is_local_domain dir (sa_domain a) = Some true → dir_rcpt dir (sa_address_lcase a) = Some Mailbox →
    vouched a
| by_relay ans :
    Ans ans → ra_relay (an_rcpt ans) = Some true →
    (∀ dir, ra_directory (an_rcpt ans) = Some dir → is_local_domain dir (sa_domain a) = Some false) →
    vouched a
| by_list ans dir list_domain list_addr members member :
    Ans ans → ra_directory (an_rcpt ans) = Some dir →
    is_local_domain dir list_domain = Some true → dir_rcpt dir list_addr = Some (List members) →
    member ∈ members → sa_address_lcase a = to_lowercase member →
    vouched a
| by_filter value : named value → sa_address_lcase a = to_lowercase value → vouched a.

Lemma vouched_same a b :
  sa_address_lcase a = sa_address_lcase b → sa_domain a = sa_domain b → vouched a → vouched b.
Proof.
  intros Hl Hd [ans dir ? ? Hdom Hbox|ans ? ? Hdom|ans dir ? ? ? ? ? ? ? ? ? Hm|value ? Hv].
  - rewrite Hd in Hdom. rewrite Hl in Hbox. by eapply by_mailbox.
  - rewrite Hd in Hdom. by eapply by_relay.
  - rewrite Hl in Hm. by eapply by_list.
  - rewrite Hl in Hv. by eapply by_filter.
Qed.
End Vouched.

(** ** The invariant between commands *)

(** Limits that the configuration stays under, whether senders authenticate, and the
    bytes that the session may still read. *)
Record Limits := {
  lim_rcpt_errors : nat;
  lim_messages : nat;
  lim_size : Z;
  lim_hold : Z;
  lim_auth : bool;
  lim_bytes : Z;
}.

(** The fields of the invariant that a change of the data leaves, or makes trivial. *)
Ltac keeps_tac :=
  split; cbn; unfold RecordSettersUsingExistingGetters.const; try done; try (by intros _ [? [=]]); try (by intros; constructor); try (by auto).

Section Invariant.
Context `{SmtpSyntax} (Ans : Answers → Prop) (lim : Limits).

Definition rcpt_good (a : SessionAddress) : Prop := vouched Ans a ∧ low_flags a.

(** With [np], also what keeps the handlers from panicking. *)
Record keeps (np : bool) (d : SessionData) (p : SessionParameters) : Prop := {
  k_rcpts : Forall rcpt_good (rcpt_to d);
  k_require : auth_require p = lim_auth lim;
  k_auth : auth_require p = true → is_Some (mail_from d) → is_Some (authenticated_as d);
  k_auth_errors : auth_errors d = O ∨ (auth_errors d < auth_errors_max p)%nat;
  k_rcpt_errors : rcpt_errors d = O ∨ (rcpt_errors d < lim_rcpt_errors lim)%nat;
  k_rcpt_errors_max : (rcpt_errors_max p ≤ lim_rcpt_errors lim)%nat;
  k_max_size : max_message_size p ≤ lim_size lim;
  k_sent : (messages_sent d ≤ lim_messages lim)%nat;
  k_size : Z.of_nat (length (sd_message d)) < lim_size lim;
  k_bytes : bytes_left d = lim_bytes lim;
  k_from : np = true → mail_from d = None → rcpt_to d = [];
  k_nodup : np = true → NoDup (sa_address_lcase <$> rcpt_to d);
  k_hold : np = true → future_release d ≤ lim_hold lim;
  k_spf : np = true → is_strict (p_spf_ehlo p) = false;
}.

Lemma keeps_drop_from np d p :
  (np = true → rcpt_to d = []) → keeps np d p → keeps np (d <| mail_from := None |>) p.
Proof. intros Hr []. by keeps_tac. Qed.

Lemma keeps_reset np d p : 0 < lim_size lim → 0 ≤ lim_hold lim → keeps np d p → keeps np (reset_data d) p.
Proof.
  intros Hs Hh []. by keeps_tac.
Qed.

(** What [np] asks of the answers: no EHLO is refused by a filter, no MAIL script names a
    recipient, and the times fit. *)
Record calm (a : Answers) : Prop := {
  cm_script m : ea_script (an_ehlo a) ≠ Some (ScriptReject m);
  cm_milters : ∃ l, run_milters (ea_milters (an_ehlo a)) = Some (Ok l);
  cm_hooks : ∃ l, run_mta_hooks (ea_hooks (an_ehlo a)) = Ok l;
  cm_mail v : SetEnvelope EnvTo v ∉ script_of (ma_script (an_mail a));
  cm_hold h : ma_future_release (an_mail a) = Some h → h ≤ lim_hold lim;
  cm_build i : domain_answers_wf (lim_hold lim) (ba_domain (qm_build (an_data a)) i);
}.

Record answers_ok (np : bool) (a : Answers) : Prop := {
  ao_in : Ans a;
  ao_rcpt_errors : (default 10%nat (rp_errors_max (ma_params (an_mail a))) ≤ lim_rcpt_errors lim)%nat;
  ao_size : default (25 * 1024 * 1024) (rp_max_message_size (ma_params (an_mail a))) ≤ lim_size lim;
  ao_messages : (default 10%nat (an_max_messages a) ≤ lim_messages lim)%nat;
  ao_calm : np = true → calm a;
}.

Record limits_ok : Prop := {
  lo_size : 0 < lim_size lim;
  lo_hold : 0 ≤ lim_hold lim;
}.
End Invariant.

(** ** The handlers keep it *)

Section Handlers.
Context `{KvStore DB} `{MessageCodec} `{SmtpProto} `{!SmtpProtoLaw} `{SmtpSyntax} `{!SmtpSyntaxLaw} `{SmtpReceivers}.
Context (Ans : Answers → Prop) (lim : Limits) (Hlim : limits_ok lim) (np : bool).

#[local] Abbreviation keeps := (keeps Ans lim np).
#[local] Abbreviation rcpt_good := (rcpt_good Ans).
#[local] Abbreviation dwp := (dwp (DB := DB) np).

Lemma keeps_auth_params d p a b c :
  keeps d p → keeps d (p <| can_expn := a |><| can_vrfy := b |><| auth_match_sender := c |>).
Proof. intros []. by keeps_tac. Qed.

Lemma auth_error_keeps l d p : keeps d p → dwp (auth_error l) (λ _, keeps) d p.
Proof.
  intros Hk. unfold auth_error. repeat dwp_step.
  destruct (Nat.ltb_spec (auth_errors (d <| auth_errors ::= S |>)) (auth_errors_max p)) as [Hlt|_]; repeat dwp_step.
  destruct Hk. by keeps_tac.
Qed.

Lemma authenticate_keeps a c d p : keeps d p → dwp (authenticate a c) (λ _, keeps) d p.
Proof.
  intros Hk. unfold authenticate, temporary_failure, eval_post_auth_params. repeat dwp_step.
  destruct (auth_directory p); [|by repeat dwp_step].
  destruct (au_authenticate a c) as [token|[]]; try (by apply auth_error_keeps); repeat dwp_step; try done.
  apply keeps_auth_params. destruct Hk. keeps_tac.
Qed.

Lemma sasl_keeps a token l d p : keeps d p → dwp (handle_sasl_response a token l) (λ _, keeps) d p.
Proof.
  intros Hk. unfold handle_sasl_response.
  assert (∀ (m : SM bool) (t : SaslToken), dwp m (λ _, keeps) d p → dwp (b ← m; mret (b, t)) (λ _, keeps) d p) as Hkeep.
  { intros m t Hm. dwp_step. eapply dwp_mono; [exact Hm|]. intros b d' p' Hk'. by dwp_step. }
  pose proof (Hkeep _ token (auth_error_keeps (line (str "500 5.5.6 Invalid challenge.")) d p Hk)) as Hinv.
  pose proof (λ c, Hkeep _ token (authenticate_keeps a c d p Hk)) as Hauth.
  case_bool_decide.
  - destruct (_ || _); [by repeat dwp_step|]. destruct (credentials token); [|done..].
    destruct (_ && _); [|done]. by repeat dwp_step.
  - destruct (base64_decode l) as [l'|]; [|done].
    destruct (mechanism token =? AUTH_PLAIN); [by destruct (sasl_decode_challenge_plain l')|].
    assert (dwp (if mechanism token =? AUTH_OAUTHBEARER
      then match sasl_decode_challenge_oauth l' with Some c => b ← authenticate a c; mret (b, token)
           | None => b ← auth_error (line (str "500 5.5.6 Invalid challenge.")); mret (b, token) end
      else if mechanism token =? AUTH_XOAUTH2
      then match sasl_decode_challenge_xoauth l' with Some c => b ← authenticate a c; mret (b, token)
           | None => b ← auth_error (line (str "500 5.5.6 Invalid challenge.")); mret (b, token) end
      else b ← auth_error (line (str "500 5.5.6 Invalid challenge.")); mret (b, token)) (λ _, keeps) d p) as Hrest.
    { destruct (_ =? _); [by destruct (sasl_decode_challenge_oauth l')|].
      destruct (_ =? _); [by destruct (sasl_decode_challenge_xoauth l')|done]. }
    destruct (mechanism token =? AUTH_LOGIN); [|done]. destruct (credentials token); [|done..].
    case_bool_decide; [by repeat dwp_step|]. apply Hkeep, authenticate_keeps, Hk.
Qed.

Lemma spf_same spf strict d p :
  dwp (handle_spf spf strict) (λ b d' p', d' = d ∧ p' = p ∧ (strict = false → b = true)) d p.
Proof. unfold handle_spf. destruct spf, strict; repeat dwp_step; by split_and!. Qed.

(** *** EHLO *)

Lemma filters_dwp (milters : list Milter) (k : result FilterResponse (list Modification) → SM bool) Q d p :
  (∀ r, run_milters milters = Some r → dwp (k r) Q d p) → dwp (unwrap (run_milters milters) ≫= k) Q d p.
Proof. intros Hk. dwp_step. apply dwp_unwrap; [intros _; apply run_milters_total|done]. Qed.

Lemma reject_ehlo_keeps prev l d p : np = false → keeps d p → dwp (reject_ehlo prev l) (λ _, keeps) d p.
Proof. intros Hnp Hk. unfold reject_ehlo, undo_ehlo. repeat dwp_step. destruct Hk. keeps_tac; by rewrite Hnp. Qed.

Lemma answers_cases a : answers_ok Ans lim np a → np = false ∨ calm lim a.
Proof. intros Ha. destruct np eqn:Hnp; [right|by left]. by apply Ha. Qed.

Lemma ehlo_filters_keeps a prev d p :
  answers_ok Ans lim np a → keeps d p →
  dwp (match ea_script (an_ehlo a) with
       | Some (ScriptReject message) => reject_ehlo prev message
       | _ =>
           r ← unwrap (run_milters (ea_milters (an_ehlo a)));
           match r with
           | Err message => reject_ehlo prev (fr_message message)
           | Ok _ =>
               match run_mta_hooks (ea_hooks (an_ehlo a)) with
               | Err message => reject_ehlo prev (fr_message message)
               | Ok _ => mret true
               end
           end
       end) (λ _, keeps) d p.
Proof.
  intros Ha Hk. destruct (answers_cases a Ha) as [Hnp|Hc].
  - assert (∀ l, dwp (reject_ehlo prev l) (λ _, keeps) d p) as Hrej by (intros l; by apply reject_ehlo_keeps).
    destruct (ea_script (an_ehlo a)) as [[]|]; try apply Hrej;
      (apply filters_dwp; intros [?|?] _; [|apply Hrej]);
      (destruct (run_mta_hooks _); [by repeat dwp_step|apply Hrej]).
  - destruct (cm_milters _ _ Hc) as [l Hm], (cm_hooks _ _ Hc) as [l' Hh].
    pose proof (cm_script _ _ Hc) as Hs. rewrite Hh.
    destruct (ea_script (an_ehlo a)) as [[]|]; try (by edestruct Hs);
      (apply filters_dwp; rewrite Hm; intros r [= <-]; by repeat dwp_step).
Qed.

Lemma ehlo_checks_keeps a domain d p :
  answers_ok Ans lim np a → keeps d p → dwp (ehlo_checks (an_ehlo a) domain) (λ _, keeps) d p.
Proof.
  intros Ha Hk. unfold ehlo_checks. repeat dwp_step.
  destruct (_ && _); [by repeat dwp_step|]. repeat dwp_step.
  assert (keeps (d <| helo_domain := domain |>) p) as Hk' by (destruct Hk; keeps_tac).
  destruct (verify _); [|dwp_step; by apply ehlo_filters_keeps]. dwp_step.
  eapply dwp_mono; [apply spf_same|]. intros b ? ? (-> & -> & Hb). destruct b; repeat dwp_step.
  - apply ehlo_filters_keeps; [done|]. destruct Hk'. keeps_tac.
  - assert (np = false) as Hnp.
    { destruct np eqn:Hnp; [|done]. pose proof (Hb (k_spf _ _ _ _ _ Hk eq_refl)). done. }
    destruct Hk'. unfold undo_ehlo. keeps_tac; by rewrite Hnp.
Qed.

Lemma reset_keeps d p : keeps d p → dwp reset (λ _, keeps) d p.
Proof. intros Hk. unfold reset. dwp_step. apply keeps_reset; [apply Hlim|apply Hlim|done]. Qed.

Lemma ehlo_keeps text a domain extended d p :
  answers_ok Ans lim np a → keeps d p →
  dwp (handle_ehlo text (an_ehlo a) domain extended) (λ _, keeps) d p.
Proof.
  intros Ha Hk. unfold handle_ehlo. repeat dwp_step.
  eapply (dwp_mono _ _ (λ _, keeps)).
  { case_bool_decide; [by dwp_step|by apply ehlo_checks_keeps]. }
  intros b d' p' Hk'. destruct b; [|done]. repeat dwp_step. eapply (dwp_mono _ _ (λ _, keeps)).
  { case_bool_decide; [by apply reset_keeps|by dwp_step]. }
  intros _ d2 p2 Hk2. repeat dwp_step. destruct extended; by dwp_step.
Qed.

(** *** MAIL *)

Lemma is_authenticated_spec d : is_authenticated d = true ↔ is_Some (authenticated_as d).
Proof. apply bool_decide_eq_true. Qed.

Lemma mail_preconditions_keeps a d p :
  keeps d p →
  dwp (mail_preconditions a) (λ b d' p', keeps d' p' ∧
    (b = true → mail_from d' = None ∧ (auth_require p' = true → is_Some (authenticated_as d')))) d p.
Proof.
  intros Hk. unfold mail_preconditions. repeat dwp_step.
  destruct (_ && _); [by repeat dwp_step|]. case_bool_decide as Hf; [by repeat dwp_step|].
  destruct (auth_require p && negb (is_authenticated d)) eqn:Hauth; [by repeat dwp_step|].
  assert (mail_from d = None) as Hnone by (by apply eq_None_not_Some).
  assert (auth_require p = true → is_Some (authenticated_as d)) as Hreq.
  { intros Hp. rewrite Hp in Hauth. cbn in Hauth. apply is_authenticated_spec. by destruct (is_authenticated d). }
  clear Hauth. repeat dwp_step. eapply (dwp_mono _ _ (λ _ d' p', keeps d' p' ∧ mail_from d' = None ∧ p' = p ∧
    (auth_require p' = true → is_Some (authenticated_as d')))).
  { destruct (_ && _); repeat dwp_step; [|done]. split; [|done]. destruct Hk. keeps_tac. }
  intros _ d' p' (Hk' & Hn & -> & Hr). repeat dwp_step.
  destruct (is_strict _); [|by repeat dwp_step]. destruct (iprev d') as [[]|]; by repeat dwp_step.
Qed.

(** A sender is set, and no recipients with [np]. *)
Definition sending (d : SessionData) (p : SessionParameters) : Prop :=
  keeps d p ∧ is_Some (mail_from d) ∧ (np = true → rcpt_to d = []).

Definition goes_on (b : bool) (d : SessionData) (p : SessionParameters) : Prop :=
  if b then sending d p else keeps d p.

Lemma drop_from_keeps l d p : sending d p → dwp (drop_from l) goes_on d p.
Proof. intros (Hk & _ & Hr). dwp_step. by apply keeps_drop_from. Qed.

Lemma step_good m l l' :
  (∀ v, m = SetEnvelope EnvTo v → named Ans v) → rcpts_step m l l' → Forall rcpt_good l → Forall rcpt_good l'.
Proof.
  intros Hm Hstep Hl. destruct Hstep as [l|l x x' H1' H2' H3'|l x v Hv|v Hv]; [done| | |].
  - apply Forall_app in Hl as [Hl [[Hx Hlow] _]%Forall_cons]. apply Forall_app_2; [done|]. apply Forall_singleton.
    split; [by eapply vouched_same|by apply H3'].
  - apply Forall_app in Hl as [Hl [Hx _]%Forall_cons]. apply Forall_app_2; [done|]. apply Forall_singleton.
    split; [by eapply by_filter; [apply Hm|]|apply Hx].
  - apply Forall_singleton. split; [by eapply by_filter; [apply Hm|]|by compute].
Qed.

Lemma keeps_envelope from l d p :
  keeps d p → Forall rcpt_good l → (is_Some (mail_from d) ∧ is_Some from) →
  (np = true → NoDup (sa_address_lcase <$> l)) →
  keeps (d <| mail_from := from |><| rcpt_to := l |>) p.
Proof.
  intros Hk Hl [Hd [f ->]] Hnd. destruct Hk. by keeps_tac.
Qed.

Lemma script_sending a mods d p :
  answers_ok Ans lim np a → mods ⊆ script_of (ma_script (an_mail a)) → sending d p →
  sending (apply_script mods d) p.
Proof.
  intros Ha Hm (Hk & Hf & Hr).
  destruct (apply_script_step (λ l, Forall rcpt_good l ∧ (np = true → l = [])) mods d) as (f & l & -> & Hf' & Hl & Hn).
  - intros m l l' Hin%Hm Hstep [Hl Hn]. split.
    + eapply step_good; [|exact Hstep|done]. intros v ->. exists a. split; [apply Ha|by left].
    + intros Hnp. specialize (Hn Hnp). destruct Hstep as [l|l x x'|l x v|v ->]; [done|by destruct l..|].
      destruct (answers_cases a Ha) as [?|Hc]; [congruence|]. by apply (cm_mail _ _ Hc) in Hin.
  - split; [apply Hk|done].
  - split; [|by split; [apply Hf'|]]. apply keeps_envelope; [done..|by split; [|apply Hf']|].
    intros Hnp. rewrite (Hn Hnp). constructor.
Qed.

Lemma mail_filters_goes_on a d p :
  answers_ok Ans lim np a → sending d p →
  dwp (stage_filters (ma_script (an_mail a)) (ma_milters (an_mail a)) (ma_hooks (an_mail a)) drop_from) goes_on d p.
Proof.
  intros Ha Hs. unfold stage_filters. dwp_step. eapply (dwp_mono _ _ goes_on).
  { destruct (ma_script (an_mail a)) as [[mods| |m|]|] eqn:Hsc; repeat dwp_step; try done.
    - apply (script_sending a); [done| |done]. rewrite Hsc. done.
    - destruct Hs as (Hk & _ & Hr). by apply keeps_drop_from. }
  intros b d' p' Hb. destruct b; [|done]. apply filters_dwp. intros [l|r] _; [|by apply drop_from_keeps].
  destruct (run_mta_hooks _); [by dwp_step|by apply drop_from_keeps].
Qed.

Lemma sending_from from d p : sending d p → sending (d <| mail_from := Some from |>) p.
Proof. intros (Hk & Hf & Hr). split; [|by split]. destruct Hk. keeps_tac. Qed.

Lemma rewrite_from_sending r d p : sending d p → dwp (rewrite_from r) (λ _, sending) d p.
Proof.
  intros Hs. unfold rewrite_from. destruct r as [new|]; repeat dwp_step; [|done].
  apply dwp_unwrap; [intros _; apply Hs|]. intros from _. dwp_step. by apply sending_from.
Qed.

Lemma match_sender_goes_on d p : sending d p → dwp match_sender goes_on d p.
Proof.
  intros Hs. unfold match_sender. repeat dwp_step. destruct (authenticated_as d); [|by dwp_step].
  destruct (auth_match_sender p); [|by dwp_step]. dwp_step.
  apply dwp_unwrap; [intros _; apply Hs|]. intros from _. destruct (may_send_from _ _); [by dwp_step|].
  by apply drop_from_keeps.
Qed.

Lemma goes_on_then m k d p :
  dwp m goes_on d p → (∀ d p, sending d p → dwp k goes_on d p) → dwp (and_then m false k) goes_on d p.
Proof.
  intros Hm Hk. dwp_step. eapply dwp_mono; [exact Hm|]. intros [|] d' p' Hb; [by apply Hk|done].
Qed.

Lemma validate_goes_on a from d p :
  answers_ok Ans lim np a → sending d p → dwp (validate_parameters (an_mail a) from) goes_on d p.
Proof.
  intros Ha Hs.
  assert (∀ l d p, sending d p → dwp (drop_from l) goes_on d p) as Hdrop by apply drop_from_keeps.
  unfold validate_parameters. apply goes_on_then; [|clear d p Hs; intros d p Hs; apply goes_on_then;
    [|clear d p Hs; intros d p Hs; apply goes_on_then; [|clear d p Hs; intros d p Hs; apply goes_on_then;
    [|clear d p Hs; intros d p Hs; apply goes_on_then; [|clear d p Hs; intros d p Hs]]]]].
  - unfold check_requiretls. destruct (_ && _); [by apply Hdrop|by dwp_step].
  - unfold check_deliver_by. destruct (flag_set _ _); [|by dwp_step].
    destruct (ma_deliver_by _); [|by apply Hdrop]. destruct (_ && _); [|by apply Hdrop]. repeat dwp_step.
    destruct Hs as (Hk & Hf & Hr). split; [|by split]. destruct Hk. keeps_tac.
  - unfold check_priority. destruct (_ =? 0); [by dwp_step|]. destruct (ma_mt_priority _); [|by apply Hdrop].
    destruct (_ && _); [|by apply Hdrop]. repeat dwp_step.
    destruct Hs as (Hk & Hf & Hr). split; [|by split]. destruct Hk. keeps_tac.
  - unfold check_size. destruct (_ && _); [by apply Hdrop|by dwp_step].
  - unfold check_hold. destruct (_ && _); [by dwp_step|].
    destruct (ma_future_release (an_mail a)) as [h|] eqn:Hh; [|by apply Hdrop].
    set (hold := if negb _ then _ else _). clearbody hold. destruct (Z.leb_spec hold h) as [Hle|_]; [|by apply Hdrop]. repeat dwp_step.
    destruct Hs as (Hk & Hf & Hr). split; [|by split]. destruct Hk. keeps_tac.
    intros Hnp. destruct (answers_cases a Ha) as [?|Hc]; [congruence|]. pose proof (cm_hold _ _ Hc h Hh). lia.
  - unfold check_dsn. destruct (_ && _); [by apply Hdrop|by dwp_step].
Qed.

Lemma admit_sender_keeps a d p :
  answers_ok Ans lim np a → sending d p → dwp (admit_sender (an_mail a)) (λ _, keeps) d p.
Proof.
  intros Ha Hs. unfold admit_sender. destruct (ma_throttle _).
  2: { dwp_step. eapply dwp_mono; [by apply drop_from_keeps|]. intros [|] d' p' Hk; dwp_step; [apply Hk|done]. }
  repeat dwp_step. eapply (dwp_mono _ _ goes_on).
  { destruct (verify _); [|by dwp_step]. repeat dwp_step. apply dwp_unwrap; [intros _; apply Hs|].
    intros from _. dwp_step. eapply dwp_mono; [apply spf_same|]. intros b ? ? (-> & -> & _).
    destruct b; repeat dwp_step.
    - destruct Hs as (Hk & Hf & Hr). split; [|by split]. destruct Hk. keeps_tac.
    - destruct Hs as (Hk & _ & Hr). by apply keeps_drop_from. }
  intros [|] d' p' Hk; [|done]. unfold eval_rcpt_params. repeat dwp_step. destruct Hk as [Hk _].
  pose proof (ao_rcpt_errors _ _ _ _ Ha). pose proof (ao_size _ _ _ _ Ha). destruct Hk. by keeps_tac.
Qed.

Lemma mail_keeps a from d p :
  answers_ok Ans lim np a → keeps d p → dwp (handle_mail_from (an_mail a) from) (λ _, keeps) d p.
Proof.
  intros Ha Hk. unfold handle_mail_from. dwp_step.
  eapply dwp_mono; [by apply mail_preconditions_keeps|]. clear d p Hk. intros [|] d p [Hk Hb]; [|done].
  destruct (Hb eq_refl) as [Hnone Hauth]. repeat dwp_step.
  assert (sending (d <| mail_from := Some (sender_of from) |>) p) as Hs.
  { split; [|split; [by eexists|]]; [|intros Hnp; by apply Hk].
    destruct Hk. by keeps_tac. }
  eapply (dwp_mono _ _ goes_on).
  { destruct (default true _); [by dwp_step|by apply drop_from_keeps]. }
  clear Hs. intros [|] d1 p1 Hs; [|done]. dwp_step.
  eapply dwp_mono; [by apply mail_filters_goes_on|]. clear d1 p1 Hs. intros [|] d1 p1 Hs; [|done]. dwp_step.
  eapply dwp_mono; [by apply rewrite_from_sending|]. clear d1 p1 Hs. intros [] d1 p1 Hs. dwp_step.
  eapply dwp_mono; [by apply match_sender_goes_on|]. clear d1 p1 Hs. intros [|] d1 p1 Hs; [|done]. dwp_step.
  eapply dwp_mono; [by apply validate_goes_on|]. clear d1 p1 Hs. intros [|] d1 p1 Hs; [|done].
  by apply admit_sender_keeps.
Qed.

(** *** RCPT *)

(** A recipient [x] after those of the invariant. *)
Record offered (l : list SessionAddress) (x : SessionAddress) (d : SessionData) (p : SessionParameters) : Prop := {
  of_rcpts : rcpt_to d = l ++ [x];
  of_low : low_flags x;
  of_from : is_Some (mail_from d);
  of_keeps : keeps (d <| rcpt_to := l |>) p;
}.

Lemma rcpt_ok_keeps d p : keeps d p → dwp rcpt_ok (λ _, keeps) d p.
Proof. intros Hk. unfold rcpt_ok. repeat dwp_step. destruct Hk. keeps_tac. Qed.

Lemma offered_pop l x d p : offered l x d p → keeps (d <| rcpt_to ::= @removelast _ |>) p.
Proof.
  intros [Hl _ _ Hk]. assert (d <| rcpt_to ::= @removelast _ |> = d <| rcpt_to := l |>) as ->; [|done].
  trans (d <| rcpt_to := removelast (rcpt_to d) |>); [by destruct d|]. by rewrite Hl, removelast_last.
Qed.

Lemma pop_keeps l x d p : offered l x d p → dwp pop_rcpt (λ _, keeps) d p.
Proof. intros Ho. unfold pop_rcpt. dwp_step. by eapply offered_pop. Qed.

Lemma drop_rcpt_keeps l x m d p : offered l x d p → dwp (drop_rcpt m) (λ b d' p', b = false ∧ keeps d' p') d p.
Proof. intros Ho. dwp_step. split; [done|]. by eapply offered_pop. Qed.

Lemma rcpt_error_keeps m d p : keeps d p → dwp (rcpt_error m) (λ _, keeps) d p.
Proof.
  intros Hk. unfold rcpt_error. repeat dwp_step.
  destruct (Nat.ltb_spec (rcpt_errors (d <| rcpt_errors ::= S |>)) (rcpt_errors_max p)) as [Hlt|_]; repeat dwp_step.
  cbn in Hlt. destruct Hk. keeps_tac. right. lia.
Qed.

Lemma offered_last l x y d p :
  offered l x d p → low_flags y → offered l y (d <| rcpt_to ::= alter_last (λ _, y) |>) p.
Proof.
  intros [Hl _ Hf Hk] Hy. split; cbn; [by rewrite Hl, alter_last_snoc|done|done|].
  by destruct Hk; keeps_tac.
Qed.

Lemma script_offered mods l x d p :
  offered l x d p → ∃ y, offered l y (apply_script mods d) p.
Proof.
  intros [Hl Hlow Hf Hk].
  destruct (apply_script_step (λ k, ∃ y, k = l ++ [y] ∧ low_flags y) mods d) as (f & k & -> & Hf' & y & -> & Hy).
  - intros m k k' _ Hstep (y & -> & Hy). inversion Hstep as [?|k1 y1 y2 H1' H2' H3' He|k1 y1 v Hv He|v Hv He]; subst.
    + by exists y.
    + apply app_inj_tail in He as [-> ->]. exists y2. auto.
    + apply app_inj_tail in He as [-> ->]. by exists (readdress v y).
    + by destruct l.
  - by exists x.
  - exists y. split; [done|done|by apply Hf'|]. cbn. specialize (Hf' Hf).
    destruct Hk, Hf' as [f' ->]. by keeps_tac.
Qed.

Lemma rcpt_stage_filters a l x d p :
  offered l x d p →
  dwp (stage_filters (ra_script a) (ra_milters a) (ra_hooks a) drop_rcpt)
    (λ b d' p', if b : bool then ∃ y, offered l y d' p' else keeps d' p') d p.
Proof.
  intros Ho. unfold stage_filters. dwp_step.
  assert (∀ m y d p, offered l y d p →
    dwp (drop_rcpt m) (λ b d' p', if b : bool then ∃ y, offered l y d' p' else keeps d' p') d p) as Hdrop.
  { intros m y d1 p1 Ho1. eapply dwp_mono; [by eapply drop_rcpt_keeps|]. by intros b d2 p2 [-> ?]. }
  eapply (dwp_mono _ _ (λ b d' p', if b : bool then ∃ y, offered l y d' p' else keeps d' p')).
  { destruct (ra_script a) as [[mods| |m|]|]; repeat dwp_step; eauto; [by eapply script_offered|by eapply offered_pop]. }
  intros [|] d' p' Hb; [|done]. destruct Hb as [y Hy]. apply filters_dwp. intros [k|r] _; [|by eapply Hdrop].
  destruct (run_mta_hooks _); [dwp_step; eauto|by eapply Hdrop].
Qed.

Definition fresh_in (l : list SessionAddress) (x : SessionAddress) : Prop :=
  sa_address_lcase x ∉ sa_address_lcase <$> l.

Lemma has_rcpt_fresh x l : has_rcpt x l = false → fresh_in l x.
Proof.
  intros Hx (y & Hy & Hin)%list_elem_of_fmap. unfold has_rcpt in Hx.
  apply eq_true_false_abs in Hx; [done|]. apply existsb_exists. exists y.
  split; [by apply list_elem_of_In|]. by apply bool_decide_eq_true.
Qed.

Lemma single_fresh l x :
  ¬ (1 < length (filter (λ r, sa_eqb r x = true) (l ++ [x])))%nat → fresh_in l x.
Proof.
  intros Hn (y & Hy & Hin)%list_elem_of_fmap. apply Hn. rewrite filter_app, length_app.
  rewrite (filter_cons_True _ x []) by by apply bool_decide_eq_true. cbn [length filter].
  assert (y ∈ filter (λ r, sa_eqb r x = true) l) as Hf by (apply list_elem_of_filter; split; [by apply bool_decide_eq_true|done]).
  destruct (filter _ l); [by apply elem_of_nil in Hf|]. cbn. lia.
Qed.

Lemma rcpt_filters_offered a l x d p :
  offered l x d p → fresh_in l x →
  dwp (rcpt_filters a) (λ b d' p', if b : bool then ∃ y, offered l y d' p' ∧ fresh_in l y else keeps d' p') d p.
Proof.
  intros Ho Hx. unfold rcpt_filters. destruct (_ || _); [|dwp_step; eauto]. dwp_step.
  eapply dwp_mono; [by eapply rcpt_stage_filters|]. clear d p x Ho Hx. intros [|] d p Hb; [|done].
  destruct Hb as [y Hy]. dwp_step. eapply (dwp_mono _ _ (λ _ d' p', ∃ y, offered l y d' p')).
  { unfold rewrite_rcpt. destruct (ra_rewrite a) as [new|]; [|dwp_step; eauto].
    destruct (contains_at new); dwp_step; [|eauto]. exists (readdress new y).
    destruct Hy as [Hl Hlow Hf Hk]. split; cbn; [by rewrite Hl, alter_last_snoc|done|done|]. destruct Hk. keeps_tac. }
  clear d p y Hy. intros [] d p [y Hy]. repeat dwp_step. rewrite (of_rcpts _ _ _ _ Hy), last_snoc.
  apply dwp_unwrap; [by eexists|]. intros z [= <-].
  destruct (Nat.ltb_spec 1 (length (filter (λ r, sa_eqb r y = true) (l ++ [y])))) as [_|Hle].
  - dwp_step. eapply dwp_mono; [by eapply pop_keeps|]. intros [] d' p' Hk. dwp_step.
    eapply dwp_mono; [by apply rcpt_ok_keeps|]. intros [] d2 p2 Hk2. by dwp_step.
  - dwp_step. exists y. split; [done|]. apply single_fresh. lia.
Qed.

(** What a verified recipient is: vouched for, or a list whose members are. *)
Definition verified (x : SessionAddress) (members : option (list bytes)) : Prop :=
  match members with
  | None => vouched Ans x
  | Some l => ∀ member a, member ∈ l → sa_address_lcase a = to_lowercase member → vouched Ans a
  end.

Lemma verify_rcpt_verified a l x d p :
  Ans a → offered l x d p →
  dwp (verify_rcpt (an_rcpt a)) (λ v d' p',
    match v with
    | None => keeps d' p'
    | Some members => offered l x d' p' ∧ verified x members
    end) d p.
Proof.
  intros Ha Ho. unfold verify_rcpt. repeat dwp_step. rewrite (of_rcpts _ _ _ _ Ho), last_snoc.
  apply dwp_unwrap; [by eexists|]. intros z [= <-].
  set (Q := λ (v : option (option (list bytes))) d' p', _).
  assert (∀ m, dwp (_ ← drop_rcpt m; mret None) Q d p) as Hun.
  { intros m. dwp_step. eapply dwp_mono; [by eapply drop_rcpt_keeps|]. intros b d' p' [_ Hk]. by dwp_step. }
  assert (∀ m, dwp (_ ← pop_rcpt; _ ← rcpt_error m; mret None) Q d p) as Href.
  { intros m. dwp_step. eapply dwp_mono; [by eapply pop_keeps|]. intros [] d' p' Hk. dwp_step.
    eapply dwp_mono; [by apply rcpt_error_keeps|]. intros b d2 p2 Hk2. by dwp_step. }
  assert ((∀ dir, ra_directory (an_rcpt a) = Some dir → is_local_domain dir (sa_domain x) = Some false) →
    dwp (if default false (ra_relay (an_rcpt a)) then mret (Some None)
         else _ ← pop_rcpt; _ ← rcpt_error (line (str "550 5.1.2 Relay not allowed.")); mret None) Q d p) as Hrelay.
  { intros Hdir. destruct (ra_relay (an_rcpt a)) as [[|]|] eqn:Hr; cbn; [|apply Href..]. dwp_step. split; [done|].
    by eapply by_relay. }
  destruct (ra_directory (an_rcpt a)) as [dir|] eqn:Hdir; [|by apply Hrelay].
  destruct (is_local_domain dir (sa_domain x)) as [[|]|] eqn:Hloc; [| |apply Hun].
  - destruct (dir_rcpt dir (sa_address_lcase x)) as [[|members|]|] eqn:Hbox; [| |apply Href|apply Hun]; dwp_step.
    + split; [done|]. by eapply by_mailbox.
    + split; [done|]. intros member b Hm Hb. by eapply by_list.
  - apply Hrelay. by intros ? [= <-].
Qed.

Lemma add_members_good x members l :
  (∀ member a, member ∈ members → sa_address_lcase a = to_lowercase member → vouched Ans a) →
  low_flags x → Forall rcpt_good l → NoDup (sa_address_lcase <$> l) ∨ np = false →
  let l' := foldl (add_member x) l members in
  Forall rcpt_good l' ∧ (NoDup (sa_address_lcase <$> l') ∨ np = false).
Proof.
  intros Hm Hx. revert l. induction members as [|member members IH]; intros l Hl Hnd; cbn [foldl]; [done|].
  apply IH; [by intros m a ?; apply Hm; right| |].
  - unfold add_member. destruct (_ || _); [done|]. apply Forall_app. split; [done|]. apply Forall_singleton.
    split; [by eapply Hm; [by left|]|done].
  - unfold add_member. destruct (has_rcpt _ _ || _) eqn:Hin; [done|]. apply orb_false_iff in Hin as [Hin _].
    destruct Hnd as [Hnd|?]; [left|by right]. rewrite fmap_app. apply NoDup_app. split; [done|].
    split; [|apply NoDup_singleton]. intros y Hy ->%list_elem_of_singleton. by apply (has_rcpt_fresh _ _ Hin).
Qed.

Lemma offered_good l x d p : offered l x d p → vouched Ans x → fresh_in l x → keeps d p.
Proof.
  intros [Hl Hlow Hf Hk] Hv Hx. destruct Hk. split; cbn in *; try done; rewrite ?Hl.
  - apply Forall_app. split; [done|]. by apply Forall_singleton.
  - intros _ Hn. rewrite Hn in Hf. by destruct Hf.
  - intros Hnp. rewrite fmap_app. apply NoDup_app. split; [by auto|]. split; [|apply NoDup_singleton].
    by intros y Hy ->%list_elem_of_singleton.
Qed.

Lemma expand_keeps members l x d p :
  offered l x d p → fresh_in l x → verified x members → dwp (expand_list members) (λ _, keeps) d p.
Proof.
  intros Ho Hx Hv. unfold expand_list. destruct members as [members|]; [|dwp_step; by eapply offered_good].
  repeat dwp_step. rewrite (of_rcpts _ _ _ _ Ho), last_snoc. apply dwp_unwrap; [by eexists|]. intros z [= <-].
  dwp_step. destruct Ho as [Hl Hlow Hf Hk].
  destruct (add_members_good x members l Hv Hlow (k_rcpts _ _ _ _ _ Hk)) as [Hg Hnd].
  { destruct np eqn:Hnp; [left|by right]. by apply Hk. }
  destruct Hk. split; cbn in *; try done; rewrite ?Hl, ?removelast_last; try done.
  - intros _ Hn. rewrite Hn in Hf. by destruct Hf.
  - intros Hnp. destruct Hnd; [done|congruence].
Qed.

Lemma rcpt_keeps a to d p :
  answers_ok Ans lim np a → fits 32 (rt_flags to) → keeps d p →
  dwp (handle_rcpt_to (an_rcpt a) to) (λ _, keeps) d p.
Proof.
  intros Ha Hto Hk. unfold handle_rcpt_to. repeat dwp_step. case_bool_decide as Hf; [by dwp_step|].
  destruct (_ <=? _)%nat; [by dwp_step|]. destruct (_ && _); [by dwp_step|].
  destruct (has_rcpt (rcpt_of to) (rcpt_to d)) eqn:Hin; [by apply rcpt_ok_keeps|]. repeat dwp_step.
  assert (offered (rcpt_to d) (rcpt_of to) (d <| rcpt_to ::= λ l, l ++ [rcpt_of to] |>) p) as Ho.
  { split; [done|done|by apply not_eq_None_Some|]. destruct Hk. by keeps_tac. }
  eapply dwp_mono; [eapply rcpt_filters_offered; [exact Ho|by apply has_rcpt_fresh]|].
  intros [|] d1 p1 Hb; [|done]. destruct Hb as (y & Hy & Hfresh). dwp_step.
  eapply dwp_mono; [apply verify_rcpt_verified; [apply Ha|exact Hy]|].
  intros [members|] d2 p2 Hv; [|by dwp_step]. destruct Hv as [Ho2 Hv]. destruct (ra_throttle _); dwp_step.
  - eapply dwp_mono; [by eapply expand_keeps|]. intros [] d3 p3 Hk3. by apply rcpt_ok_keeps.
  - eapply dwp_mono; [by eapply drop_rcpt_keeps|]. intros b d3 p3 [_ Hk3]. by dwp_step.
Qed.

(** *** Data *)

Lemma can_send_data_spec a d p :
  answers_ok Ans lim np a →
  dwp (can_send_data (an_max_messages a)) (λ b d' p', d' = d ∧ p' = p ∧
    (b = true → rcpt_to d ≠ [] ∧ (messages_sent d < lim_messages lim)%nat)) d p.
Proof.
  intros Ha. unfold can_send_data. repeat dwp_step. case_bool_decide as Hr; [by repeat dwp_step|].
  destruct (Nat.ltb_spec (messages_sent d) (default 10%nat (an_max_messages a))) as [Hlt|_]; [|by repeat dwp_step].
  dwp_step. split_and!; [done..|]. intros _. split; [done|]. pose proof (ao_messages _ _ _ _ Ha). lia.
Qed.

(** What is left of the invariant when the envelope is set aside. *)
Record counts (n : nat) (d : SessionData) (p : SessionParameters) : Prop := {
  c_bytes : bytes_left d = lim_bytes lim;
  c_require : auth_require p = lim_auth lim;
  c_auth_errors : auth_errors d = O ∨ (auth_errors d < auth_errors_max p)%nat;
  c_rcpt_errors : rcpt_errors d = O ∨ (rcpt_errors d < lim_rcpt_errors lim)%nat;
  c_rcpt_errors_max : (rcpt_errors_max p ≤ lim_rcpt_errors lim)%nat;
  c_max_size : max_message_size p ≤ lim_size lim;
  c_sent : (messages_sent d + n ≤ lim_messages lim)%nat;
  c_spf : np = true → is_strict (p_spf_ehlo p) = false;
}.

Lemma keeps_counts d p : keeps d p → (messages_sent d < lim_messages lim)%nat → counts 1 d p.
Proof. intros [] Hlt. split; [done..|lia|done]. Qed.

Lemma counts_reset d p : counts 0 d p → keeps (reset_data d) p.
Proof.
  intros []. pose proof (lo_size _ Hlim). pose proof (lo_hold _ Hlim). keeps_tac. lia.
Qed.

Lemma counts_envelope n from l d p : counts n d p → counts n (d <| mail_from := from |><| rcpt_to := l |>) p.
Proof. intros []. by split. Qed.

Lemma counts_less d p : counts 1 d p → counts 0 d p.
Proof. intros []. split; [done..|lia|done]. Qed.

Lemma apply_script_envelope mods d :
  ∃ from l, apply_script mods d = d <| mail_from := from |><| rcpt_to := l |> ∧
    (is_Some (mail_from d) → is_Some from).
Proof.
  destruct (apply_script_step (λ _, True) mods d) as (f & l & He & Hf & _); [done|done|]. by exists f, l.
Qed.

Lemma change_envelope_step d m :
  ∃ from l, change_envelope d m = d <| mail_from := from |><| rcpt_to := l |> ∧
    (is_Some (mail_from d) → is_Some from).
Proof.
  assert (∃ from l, d = d <| mail_from := from |><| rcpt_to := l |> ∧ (is_Some (mail_from d) → is_Some from)) as Hid.
  { exists (mail_from d), (rcpt_to d). by destruct d. }
  destruct m; cbn [change_envelope]; try done.
  - eexists _, (rcpt_to d). split; [reflexivity|]. intros _. by eexists.
  - destruct (contains_at _); [|done]. destruct (has_rcpt _ _); [done|].
    eexists (mail_from d), _. by split; [reflexivity|].
  - eexists (mail_from d), _. by split; [reflexivity|].
Qed.

Lemma change_envelopes mods d :
  ∃ from l, foldl change_envelope d mods = d <| mail_from := from |><| rcpt_to := l |> ∧
    (is_Some (mail_from d) → is_Some from).
Proof.
  revert d. induction mods as [|m mods IH]; intros d.
  { exists (mail_from d), (rcpt_to d). by destruct d. }
  cbn [foldl]. destruct (change_envelope_step d m) as (f & l & -> & Hf).
  destruct (IH (d <| mail_from := f |><| rcpt_to := l |>)) as (f' & l' & -> & Hf').
  exists f', l'. split; [by destruct d|]. auto.
Qed.

Context {R : Type} (gen_range : R → Z → Z * R) (xxh3_64 : bytes → Z) (seed : R).
Context (blob_hash_of : bytes → bytes) (ehlo_text : EhloResponse → bytes).

#[local] Abbreviation queue_message := (queue_message gen_range xxh3_64 seed blob_hash_of).
#[local] Abbreviation filter_and_queue := (filter_and_queue gen_range xxh3_64 seed blob_hash_of).
#[local] Abbreviation enqueue := (enqueue gen_range xxh3_64 seed blob_hash_of).
#[local] Abbreviation finish_message := (finish_message gen_range xxh3_64 seed blob_hash_of).

Lemma counts_sent d p : counts 1 d p → counts 0 (d <| messages_sent ::= S |>) p.
Proof. intros []. split; cbn; [done..|lia|done]. Qed.

Lemma enqueue_counts a m headers raw d p : counts 1 d p → dwp (enqueue a m headers raw) (λ _, counts 0) d p.
Proof.
  intros Hc. unfold SmtpSession.enqueue. repeat dwp_step. destruct (has_quota _ _ _) as [[|] m'].
  2: { dwp_step. by apply counts_less. }
  destruct (queue _ _ _ _ _ _ _ _ _ _) as [[|] sv]; repeat dwp_step; [by apply counts_sent|by apply counts_less].
Qed.

(** What [queue_message] needs not to panic. *)
Definition ready (a : DataAnswers) (d : SessionData) : Prop :=
  np = true → is_Some (mail_from d) ∧ future_release d ≤ lim_hold lim ∧
    ∀ i, domain_answers_wf (lim_hold lim) (ba_domain (qm_build a) i).

Lemma data_filters_total a : is_Some (data_filters a).
Proof. unfold data_filters. destruct (run_milters_total (qm_milters a)) as [r ->]. by eexists. Qed.

Lemma data_script_counts script edited headers d p :
  counts 1 d p →
  dwp (data_script script edited headers) (λ r d' p', counts 1 d' p' ∧
    ∃ from l, d' = d <| mail_from := from |><| rcpt_to := l |> ∧ (is_Some (mail_from d) → is_Some from)) d p.
Proof.
  intros Hc.
  assert (∀ mods, counts 1 (apply_script mods d) p ∧ ∃ from l,
    apply_script mods d = d <| mail_from := from |><| rcpt_to := l |> ∧ (is_Some (mail_from d) → is_Some from)) as Hs.
  { intros mods. pose proof (apply_script_envelope mods d) as (f & l & He & Hf). split; [|by exists f, l].
    rewrite He. by apply counts_envelope. }
  assert (counts 1 d p ∧ ∃ from l, d = d <| mail_from := from |><| rcpt_to := l |> ∧
    (is_Some (mail_from d) → is_Some from)) as Hd.
  { split; [done|]. exists (mail_from d), (rcpt_to d). by destruct d. }
  unfold data_script. destruct script as [[]|]; repeat dwp_step; done.
Qed.

Lemma filter_and_queue_counts a raw parsed d p :
  counts 1 d p → ready a d → dwp (filter_and_queue a raw parsed) (λ _, counts 0) d p.
Proof.
  intros Hc Hr. unfold SmtpSession.filter_and_queue. dwp_step.
  apply dwp_unwrap; [intros _; apply data_filters_total|]. intros [mods|response] _.
  2: { dwp_step. by apply counts_less. }
  repeat dwp_step.
  destruct (if bool_decide (mods = []) then _ else _) as [edited d1] eqn:He.
  assert (∃ from l, d1 = d <| mail_from := from |><| rcpt_to := l |> ∧ (is_Some (mail_from d) → is_Some from))
    as (f & l & -> & Hf).
  { case_bool_decide.
    - injection He as _ <-. exists (mail_from d), (rcpt_to d). by destruct d.
    - unfold apply_milter_modifications in He. destruct (foldl (change_message _) _ _) as [[? ?] ?].
      injection He as _ <-. apply change_envelopes. }
  repeat dwp_step. eapply dwp_mono; [apply data_script_counts; by apply counts_envelope|].
  intros r d2 p2 (Hc2 & f2 & l2 & -> & Hf2). cbn in Hf2. destruct r as [reply|[edited' headers]].
  { dwp_step. by apply counts_less. }
  repeat dwp_step. apply dwp_unwrap.
  { intros Hnp. apply Hf2, Hf, Hr, Hnp. }
  intros from _. repeat dwp_step. apply dwp_unwrap.
  { intros Hnp. destruct (Hr Hnp) as (_ & Hh & Hb). by apply (build_message_total (lim_hold lim)). }
  intros m _. apply enqueue_counts. destruct Hc2. by split.
Qed.

Lemma queue_message_counts a d p :
  counts 1 d p → ready a d → dwp (queue_message a) (λ _, counts 0) d p.
Proof.
  intros Hc Hr. unfold SmtpSession.queue_message. repeat dwp_step.
  assert (counts 1 (d <| sd_message := [] |>) p) as Hc' by (destruct Hc; by split).
  pose proof (counts_less _ _ Hc') as Hc0.
  destruct (qm_parse a _) as [parsed|]; [|by dwp_step]. destruct (_ <? _); [by dwp_step|].
  destruct (dkim_refusal a); [by dwp_step|]. destruct (arc_refusal a); [by dwp_step|]. dwp_step.
  apply dwp_unwrap; [intros Hnp; by apply Hr|]. intros from _.
  destruct (dmarc_refusal a _); [by dwp_step|].
  destruct (_ && _); [repeat dwp_step; by apply counts_sent|]. apply filter_and_queue_counts; [done|].
  intros Hnp. apply Hr, Hnp.
Qed.

Lemma write_times_same n l (Q : () → SessionData → SessionParameters → Prop) d p :
  Q tt d p → dwp (write_times n l) Q d p.
Proof. intros HQ. induction n as [|n IH]; cbn [write_times]; repeat dwp_step; [done|exact IH]. Qed.

Lemma finish_message_keeps a d p :
  counts 1 d p → ready a d → dwp (finish_message a) (λ _ d' p', keeps d' p' ∧ sd_message d' = []) d p.
Proof.
  intros Hc Hr. unfold SmtpSession.finish_message. dwp_step.
  eapply dwp_mono; [by apply queue_message_counts|]. intros message d1 p1 Hc1. repeat dwp_step.
  case_bool_decide; [by dwp_step|]. dwp_step. apply write_times_same. unfold reset. dwp_step.
  split; [by apply counts_reset|done].
Qed.

(** *** The loop *)

Context `{!SmtpReceiversLaw}.

#[local] Abbreviation handle_request := (handle_request ehlo_text).
#[local] Abbreviation turn := (turn gen_range xxh3_64 seed blob_hash_of ehlo_text).

(** What a state adds to the invariant: recipients to deliver to, and room for the bytes
    that are still to come. *)
Definition state_ok (st : State) (d : SessionData) : Prop :=
  match st with
  | StData _ => rcpt_to d ≠ [] ∧ (messages_sent d < lim_messages lim)%nat
  | StBdat r => Z.of_nat (length (sd_message d) + bdat_left r) < lim_size lim
  | StNone | StAccepted _ => False
  | _ => True
  end.

(** No chunk is announced that would not fit in the address space; only the absence of
    panics needs it. *)
Definition modest (req : Request) : bool :=
  match req with ReqBdat n _ => lim_size lim + n <=? isize_max | _ => true end.

Definition request_ok (req : Request) : Prop :=
  match req with
  | ReqRcpt to => fits 32 (rt_flags to)
  | ReqBdat n _ => 0 ≤ n
  | _ => True
  end.

Lemma keeps_message l d p :
  Z.of_nat (length l) < lim_size lim → keeps d p → keeps (d <| sd_message := l |>) p.
Proof. intros Hl []. by keeps_tac. Qed.

Lemma keeps_no_message d p : keeps d p → keeps (d <| sd_message := [] |>) p.
Proof. apply keeps_message, Hlim. Qed.

Lemma start_bdat_keeps n last d p :
  0 ≤ n → (np = true → lim_size lim + n ≤ isize_max) → keeps d p →
  dwp (start_bdat n last) (λ st d' p', keeps d' p' ∧ state_ok st d') d p.
Proof.
  intros Hn Hm Hk. unfold start_bdat, reserve. repeat dwp_step.
  destruct (Z.ltb_spec (wrap 64 (n + Z.of_nat (length (sd_message d)))) (max_message_size p)) as [Hlt|_];
    [|by dwp_step].
  destruct (Z.leb_spec (Z.of_nat (length (sd_message d)) + n) isize_max) as [Hle|Hgt]; repeat dwp_step.
  - split; [done|]. cbn. rewrite bdat_left_new. pose proof (k_max_size _ _ _ _ _ Hk).
    rewrite wrap_id in Hlt; [lia|]. unfold fits, isize_max in *. lia.
  - apply dwp_panic. destruct np eqn:Hnp; [|done]. pose proof (k_size _ _ _ _ _ Hk). specialize (Hm eq_refl). lia.
Qed.

Lemma handle_auth_keeps a mech l d p :
  keeps d p → dwp (handle_auth a mech l) (λ st d' p', keeps d' p' ∧ from_option (λ st, state_ok st d') True st) d p.
Proof.
  intros Hk. unfold handle_auth. repeat dwp_step. destruct (_ || _); [by repeat dwp_step|].
  destruct (is_authenticated d); [by repeat dwp_step|].
  destruct (from_mechanism _) as [token|]; [|by repeat dwp_step]. dwp_step.
  eapply dwp_mono; [by apply sasl_keeps|]. intros [[|] t] d' p' Hk'; by dwp_step.
Qed.

Lemma handle_request_keeps a r req d p :
  answers_ok Ans lim np a → request_ok req → (np = true → modest req = true) → keeps d p →
  dwp (handle_request a r req) (λ st d' p', keeps d' p' ∧ from_option (λ st, state_ok st d') True st) d p.
Proof.
  intros Ha Hreq Hm Hk.
  assert (∀ m : SM (), dwp m (λ _, keeps) d p →
    dwp (_ ← m; mret (Some (StRequest r))) (λ st d' p', keeps d' p' ∧ from_option (λ st, state_ok st d') True st) d p)
    as Hstay.
  { intros m Hdwp. dwp_step. eapply dwp_mono; [exact Hdwp|]. intros [] d' p' Hk'. by dwp_step. }
  assert (∀ l, dwp (_ ← write l; mret (Some (StRequest r)))
    (λ st d' p', keeps d' p' ∧ from_option (λ st, state_ok st d') True st) d p) as Hwrite.
  { intros l. apply Hstay. by dwp_step. }
  unfold SmtpSession.handle_request. dwp_step. dwp_step.
  destruct req; try (by apply Hwrite).
  - apply Hstay. by apply rcpt_keeps.
  - apply Hstay. by apply mail_keeps.
  - destruct (protocol s); [|by apply Hwrite]. apply Hstay. by apply ehlo_keeps.
  - dwp_step. eapply dwp_mono; [by apply can_send_data_spec|]. intros [|] ? ? (-> & -> & Hb); [|by dwp_step].
    destruct (Hb eq_refl) as [Hr Hs]. repeat dwp_step. split; [by apply keeps_no_message|done].
  - dwp_step. eapply dwp_mono; [apply start_bdat_keeps; [done| |done]|].
    { intros Hnp. by apply Z.leb_le, Hm. }
    intros st d' p' [? ?]. by dwp_step.
  - dwp_step. eapply dwp_mono; [by apply handle_auth_keeps|]. intros [st|] d' p' [? ?]; by dwp_step.
  - apply Hstay. unfold handle_vrfy. repeat dwp_step. destruct (_ && _); [|by dwp_step].
    destruct (va_values _) as [[|]|[]]; by dwp_step.
  - apply Hstay. unfold handle_expn. repeat dwp_step. destruct (_ && _); [|by dwp_step].
    destruct (va_values _) as [[|]|[]]; by dwp_step.
  - destruct (is_tls s); [by apply Hwrite|]. destruct (acceptor_tls s); [|by apply Hwrite]. by repeat dwp_step.
  - dwp_step. eapply dwp_mono; [by apply reset_keeps|]. intros [] d' p' Hk'. by repeat dwp_step.
  - by repeat dwp_step.
  - destruct (protocol s); [|by apply Hwrite]. apply Hstay. by apply ehlo_keeps.
  - destruct (protocol s); [by apply Hwrite|]. apply Hstay. by apply ehlo_keeps.
Qed.

Lemma request_error_keeps a r err d p :
  keeps d p → dwp (handle_request_error a r err) (λ st d' p', keeps d' p' ∧ state_ok st d') d p.
Proof.
  intros Hk. unfold handle_request_error. destruct err; repeat dwp_step; try done;
    (destruct (_ && _); by repeat dwp_step).
Qed.

Lemma ready_keeps a d p :
  answers_ok Ans lim np a → keeps d p → rcpt_to d ≠ [] → ready (an_data a) d.
Proof.
  intros Ha Hk Hr Hnp. destruct (answers_cases a Ha) as [?|Hc]; [congruence|]. split; [|split].
  - apply not_eq_None_Some. intros Hn. by apply Hr, (k_from _ _ _ _ _ Hk).
  - by apply Hk.
  - by apply (cm_build _ _ Hc).
Qed.

Definition turn_ok (t : Turn) (d : SessionData) (p : SessionParameters) : Prop :=
  keeps d p ∧ match t with Next st _ | Break st => state_ok st d | TlsStarts => True end.

Lemma data_turn_keeps a total r iter d p :
  answers_ok Ans lim np a → (length iter ≤ total)%nat → keeps d p → state_ok (StData r) d →
  dwp (turn a total (StData r) iter) turn_ok d p.
Proof.
  intros Ha Hlen Hk [Hr Hs]. cbn [SmtpSession.turn]. repeat dwp_step.
  destruct (Z.ltb_spec (Z.of_nat (length (sd_message d)) + Z.of_nat total) (max_message_size p)) as [Hlt|_];
    [|by dwp_step].
  destruct (data_ingest r iter (sd_message d)) as [[[ok r'] message] rest] eqn:Hd.
  apply data_reads in Hd as [Hd _]. pose proof (k_max_size _ _ _ _ _ Hk).
  assert (keeps (d <| sd_message := message |>) p) as Hk' by (apply keeps_message; [lia|done]).
  repeat dwp_step. destruct ok; [|by dwp_step]. dwp_step.
  eapply dwp_mono; [apply finish_message_keeps|].
  - by apply keeps_counts.
  - by eapply ready_keeps.
  - intros [] d1 p1 [Hk1 _]. by dwp_step.
Qed.

Lemma bdat_turn_keeps a total r iter d p :
  answers_ok Ans lim np a → keeps d p → state_ok (StBdat r) d →
  dwp (turn a total (StBdat r) iter) turn_ok d p.
Proof.
  intros Ha Hk Hs. cbn [state_ok] in Hs. cbn [SmtpSession.turn]. repeat dwp_step.
  destruct (bdat_ingest r iter (sd_message d)) as [[[ok r'] message] rest] eqn:Hd.
  apply bdat_reads in Hd as [_ Hd].
  assert (keeps (d <| sd_message := message |>) p) as Hk' by (apply keeps_message; [lia|done]).
  repeat dwp_step. destruct ok; [|dwp_step; split; [done|]; cbn; unfold RecordSettersUsingExistingGetters.const; lia].
  dwp_step.
  eapply dwp_mono; [by apply can_send_data_spec|]. intros can ? ? (-> & -> & Hb).
  dwp_step. eapply (dwp_mono _ _ (λ _, keeps)); [|intros [] d1 p1 Hk1; by dwp_step].
  destruct can; [|dwp_step; by apply keeps_no_message]. destruct (Hb eq_refl) as [Hr Hsent].
  destruct (bdat_is_last r'); [|by dwp_step].
  eapply dwp_mono; [apply finish_message_keeps; [by apply keeps_counts|by eapply ready_keeps]|].
  by intros [] d1 p1 [Hk1 _].
Qed.

Definition modest_input (st : State) (iter : bytes) : bool :=
  match st with
  | StRequest r => match request_ingest r iter with (Ok req, _, _) => modest req | _ => true end
  | _ => true
  end.

Lemma turn_keeps a total st iter d p :
  answers_ok Ans lim np a → (length iter ≤ total)%nat → keeps d p → state_ok st d →
  (np = true → modest_input st iter = true) →
  dwp (turn a total st iter) turn_ok d p.
Proof.
  intros Ha Hlen Hk Hs Hm. destruct st as [r|r|r|r|r|r| |]; try done.
  - cbn [SmtpSession.turn]. destruct (request_ingest r iter) as [[res r'] rest] eqn:Hi. destruct res as [req|err].
    + dwp_step. eapply dwp_mono; [apply handle_request_keeps; [done| | |done]|].
      * destruct req; cbn; [by eapply request_rcpt_flags|..|done]; try done. by eapply request_chunk_size.
      * intros Hnp. specialize (Hm Hnp). cbn [modest_input] in Hm. by rewrite Hi in Hm.
      * intros [st|] d' p' [Hk' Hst]; by dwp_step.
    + assert (dwp (st ← handle_request_error a r' err; mret (Next st rest)) turn_ok d p) as Herr.
      { dwp_step. eapply dwp_mono; [by apply request_error_keeps|]. intros st d' p' [? ?]. by dwp_step. }
      destruct err; first [done|by dwp_step].
  - by apply bdat_turn_keeps.
  - by apply data_turn_keeps.
  - cbn [SmtpSession.turn]. destruct (line_ingest r iter) as [[[|] r'] rest]; [|by dwp_step].
    destruct (_ <? _)%nat.
    + dwp_step. eapply dwp_mono; [by apply sasl_keeps|]. intros [[|] t] d' p' Hk'; by dwp_step.
    + dwp_step. eapply dwp_mono; [by apply auth_error_keeps|]. intros b d' p' Hk'. by dwp_step.
  - cbn [SmtpSession.turn]. destruct (dummy_data_ingest r iter) as [[[|] r'] rest]; [|by dwp_step].
    repeat dwp_step. split; [by apply keeps_no_message|done].
  - cbn [SmtpSession.turn]. destruct (dummy_line_ingest r iter) as [[[|] r'] rest]; [|by dwp_step]. by repeat dwp_step.
Qed.
End Handlers.

(** ** Termination *)

Section Termination.
Context `{KvStore DB} `{MessageCodec} `{SmtpProto} `{SmtpSyntax} `{SmtpReceivers} `{!SmtpReceiversLaw}.
Context {R : Type} (gen_range : R → Z → Z * R) (xxh3_64 : bytes → Z) (seed : R).
Context (blob_hash_of : bytes → bytes) (ehlo_text : EhloResponse → bytes).

(** How many turns a state may take without reading. *)
Definition state_turns (st : State) : nat :=
  match st with
  | StData _ => 2
  | StBdat _ | StDataTooLarge _ | StRequestTooLarge _ => 1
  | _ => 0
  end.

Lemma state_turns_le st : (state_turns st ≤ 2)%nat.
Proof. destruct st; cbn; lia. Qed.

Definition measure (st : State) (iter : bytes) : nat := 3 * length iter + state_turns st.

(** A turn after which the loop goes on makes the measure smaller. *)
Lemma turn_reads a total st iter d p :
  dwp (DB := DB) false (turn gen_range xxh3_64 seed blob_hash_of ehlo_text a total st iter)
    (λ t _ _, match t with
              | Next st' rest => (measure st' rest < measure st iter)%nat ∧ (length rest ≤ length iter)%nat
              | _ => True
              end) d p.
Proof.
  assert (∀ (r1 : bytes) st', (length r1 < length iter)%nat →
    (measure st' r1 < measure st iter)%nat ∧ (length r1 ≤ length iter)%nat) as Hless.
  { intros r1 st' Hr. pose proof (state_turns_le st'). unfold measure. lia. }
  assert (∀ (r1 : bytes), (length r1 ≤ length iter)%nat → (0 < state_turns st)%nat →
    (measure state_default r1 < measure st iter)%nat ∧ (length r1 ≤ length iter)%nat) as Hsame.
  { intros r1 Hr Hst. unfold measure. cbn [state_turns state_default]. lia. }
  destruct st as [r|r|r|r|r|r| |]; cbn [turn].
  - destruct (request_ingest r iter) as [[res r'] rest] eqn:Hi. destruct res as [req|err].
    + dwp_step. eapply dwp_mono; [apply dwp_any|]. intros [st'|] d' p' _; dwp_step; [|done].
      apply Hless. by eapply request_reads.
    + assert (err ≠ NeedsMoreData → (length rest < length iter)%nat) as Hr.
      { intros Hne. eapply request_reads; [exact Hi|congruence]. }
      destruct err; try (by dwp_step);
        (dwp_step; eapply dwp_mono; [apply dwp_any|]; intros st' d' p' _; dwp_step; by apply Hless, Hr).
  - repeat dwp_step. destruct (bdat_ingest _ _ _) as [[[[|] r'] message] rest] eqn:Hi; repeat dwp_step; [|done].
    eapply dwp_mono; [apply dwp_any|]. intros can d' p' _. dwp_step.
    eapply dwp_mono; [apply dwp_any|]. intros [] d2 p2 _. dwp_step.
    apply bdat_reads in Hi as [? _]. apply Hsame; [done|cbn; lia].
  - repeat dwp_step. destruct (_ <? _).
    2: { dwp_step. unfold measure. cbn [state_turns]. lia. }
    destruct (data_ingest _ _ _) as [[[[|] r'] message] rest] eqn:Hi; repeat dwp_step; [|done].
    eapply dwp_mono; [apply dwp_any|]. intros [] d' p' _. dwp_step.
    apply data_reads in Hi as [_ Hi]. by apply Hless, Hi.
  - destruct (line_ingest _ _) as [[[|] r'] rest] eqn:Hi; repeat dwp_step; [|done].
    apply line_reads in Hi as [_ Hi]. specialize (Hi eq_refl). destruct (_ <? _)%nat; dwp_step;
      (eapply dwp_mono; [apply dwp_any|]); [intros [more t] d' p' _|intros b d' p' _]; dwp_step; by apply Hless.
  - destruct (dummy_data_ingest _ _) as [[[|] r'] rest] eqn:Hi; repeat dwp_step; [|done].
    apply dummy_data_reads in Hi. apply Hsame; [done|cbn; lia].
  - destruct (dummy_line_ingest _ _) as [[[|] r'] rest] eqn:Hi; repeat dwp_step; [|done].
    apply dummy_line_reads in Hi. apply Hsame; [done|cbn; lia].
  - by apply dwp_panic.
  - by apply dwp_panic.
Qed.
End Termination.
