(* ===== verification/SmtpMail.v ===== *)
(** * Mail that SMTP sessions accept

    What the sessions of SmtpSession.v put into the queue of SmtpQueue.v: a handler that
    is not the end of a message leaves the queue alone, and the end of a message adds at
    most one entry, under the id that was generated, with the recipients of the session,
    so with the invariant of SmtpInbound.v only with recipients that are vouched for. *)

From coqutil Require Import Datatypes.RecordSettersUsingExistingGetters.
From S2P Require Import Prelude StoreKeys KvStore StoreTxn SmtpQueue SmtpDelivery SmtpWorker SmtpEnvelope SmtpSession SmtpInbound.

(** ** What goes into the queue *)

Section Frames.
Context `{KvStore DB} `{SmtpReceivers}.

#[local] Abbreviation SM := (SM (DB := DB)).
#[local] Abbreviation Session := (Session (DB := DB)).

(** The queue as a session sees it, and what it put there. *)
Definition same_queue (s s' : Session) : Prop := server s' = server s ∧ accepted s' = accepted s.

(** However a handler ends, the queue is as before. *)
Definition frames {A} (m : SM A) : Prop := ∀ s, same_queue s (m s).2.

Lemma frames_ret {A} (a : A) : frames (mret a).
Proof. by intros s. Qed.

Lemma frames_bind {A B} (m : SM A) (k : A → SM B) : frames m → (∀ a, frames (k a)) → frames (m ≫= k).
Proof.
  intros Hm Hk s. specialize (Hm s). unfold mbind, sm_bind. destruct (m s) as [[a| |] s1]; [|done|done].
  destruct (Hk a s1) as [H1 H2], Hm as [H3 H4]. split; [by rewrite H1|by rewrite H2].
Qed.

Lemma frames_write l : frames (write l).
Proof. intros s. unfold write. by destruct (writes_left s) as [[|]|]. Qed.

Lemma frames_session : frames get_session.
Proof. by intros s. Qed.
Lemma frames_data : frames get_data.
Proof. by intros s. Qed.
Lemma frames_params : frames get_params.
Proof. by intros s. Qed.
Lemma frames_modify_data f : frames (modify_data f).
Proof. by intros s. Qed.
Lemma frames_modify_params f : frames (modify_params f).
Proof. by intros s. Qed.
Lemma frames_unwrap {A} (o : option A) : frames (unwrap o).
Proof. intros s. by destruct o. Qed.
Lemma frames_disconnect {A} : frames (A := A) disconnect.
Proof. by intros s. Qed.
Lemma frames_panic {A} : frames (A := A) panic.
Proof. by intros s. Qed.

Lemma frames_and_then {A} (m : SM bool) (stop : A) (k : SM A) : frames m → frames k → frames (and_then m stop k).
Proof. intros Hm Hk. apply frames_bind; [done|]. intros [|]; [done|apply frames_ret]. Qed.
End Frames.

Create HintDb frames.
#[export] Hint Resolve frames_ret frames_write frames_session frames_data frames_params frames_modify_data
  frames_modify_params frames_unwrap frames_disconnect frames_panic : frames.

(** Through the program: its binds, its tests, its primitives. *)
Ltac frame :=
  repeat first
    [ by eauto 1 with frames
    | apply frames_bind; [|intros ?]
    | apply frames_and_then
    | match goal with
      | |- frames (match ?x with _ => _ end) => destruct x
      | |- frames (let _ := _ in _) => cbv zeta
      end ].

Section HandlerFrames.
Context `{KvStore DB} `{MessageCodec} `{SmtpProto} `{SmtpSyntax} `{SmtpReceivers}.
Context (ehlo_text : EhloResponse → bytes).

#[local] Abbreviation SM := (SM (DB := DB)).

Lemma frames_stop l : frames (DB := DB) (stop_with l).
Proof. unfold stop_with. frame. Qed.
Lemma frames_drop_from l : frames (DB := DB) (drop_from l).
Proof. unfold drop_from, stop_with. frame. Qed.
Lemma frames_drop_rcpt l : frames (DB := DB) (drop_rcpt l).
Proof. unfold drop_rcpt, pop_rcpt, stop_with. frame. Qed.
Lemma frames_auth_error l : frames (DB := DB) (auth_error l).
Proof. unfold auth_error. frame. Qed.

#[local] Hint Resolve frames_stop frames_drop_from frames_drop_rcpt frames_auth_error : frames.

Lemma frames_authenticate a c : frames (DB := DB) (authenticate a c).
Proof. unfold authenticate, temporary_failure, eval_post_auth_params. frame. Qed.
#[local] Hint Resolve frames_authenticate : frames.

Lemma frames_sasl a t l : frames (DB := DB) (handle_sasl_response a t l).
Proof. unfold handle_sasl_response. cbv zeta. frame. Qed.
#[local] Hint Resolve frames_sasl : frames.

Lemma frames_spf spf strict : frames (DB := DB) (handle_spf spf strict).
Proof. unfold handle_spf. frame. Qed.
Lemma frames_reset : frames (DB := DB) reset.
Proof. unfold reset. frame. Qed.
#[local] Hint Resolve frames_spf frames_reset : frames.

Lemma frames_ehlo a l extended : frames (DB := DB) (handle_ehlo ehlo_text a l extended).
Proof. unfold handle_ehlo, ehlo_checks, reject_ehlo. frame. Qed.

Lemma frames_filters script milters hooks reject :
  (∀ l, frames (reject l)) → frames (DB := DB) (stage_filters script milters hooks reject).
Proof. intros Hr. unfold stage_filters. frame. Qed.

Lemma frames_mail a from : frames (DB := DB) (handle_mail_from a from).
Proof.
  unfold handle_mail_from, mail_preconditions, rewrite_from, match_sender, validate_parameters, check_requiretls,
    check_deliver_by, check_priority, check_size, check_hold, check_dsn, admit_sender, eval_rcpt_params. cbv zeta.
  frame; apply frames_filters; frame.
Qed.

Lemma frames_rcpt a to : frames (DB := DB) (handle_rcpt_to a to).
Proof.
  unfold handle_rcpt_to, rcpt_filters, verify_rcpt, expand_list, rewrite_rcpt, rcpt_ok, rcpt_error, pop_rcpt. cbv zeta.
  frame; apply frames_filters; frame.
Qed.

Lemma frames_can_send n : frames (DB := DB) (can_send_data n).
Proof. unfold can_send_data. frame. Qed.
#[local] Hint Resolve frames_ehlo frames_mail frames_rcpt frames_can_send : frames.

Lemma frames_request a r req : frames (DB := DB) (handle_request ehlo_text a r req).
Proof. unfold handle_request, start_bdat, reserve, handle_auth, handle_vrfy, handle_expn. cbv zeta. frame. Qed.

Lemma frames_request_error a r err : frames (DB := DB) (handle_request_error a r err).
Proof. unfold handle_request_error. cbv zeta. frame. Qed.

Lemma frames_write_times n l : frames (DB := DB) (write_times n l).
Proof. induction n; cbn [write_times]; frame. Qed.
End HandlerFrames.

Section Queueing.
Context `{KvStore DB} `{MessageCodec} `{SmtpProto} `{!SmtpProtoLaw} `{SmtpSyntax} `{!SmtpSyntaxLaw} `{SmtpReceivers}.
Context {R : Type} (gen_range : R → Z → Z * R) (xxh3_64 : bytes → Z) (seed : R).
Context (blob_hash_of : bytes → bytes) (ehlo_text : EhloResponse → bytes).
Context (Ans : Answers → Prop).

#[local] Abbreviation Session := (Session (DB := DB)).
#[local] Abbreviation queue := (queue (DB := DB) gen_range xxh3_64 seed blob_hash_of).
#[local] Abbreviation queue_message := (queue_message gen_range xxh3_64 seed blob_hash_of).
#[local] Abbreviation filter_and_queue := (filter_and_queue gen_range xxh3_64 seed blob_hash_of).
#[local] Abbreviation enqueue := (enqueue gen_range xxh3_64 seed blob_hash_of).
#[local] Abbreviation finish_message := (finish_message gen_range xxh3_64 seed blob_hash_of).
#[local] Abbreviation turn := (turn gen_range xxh3_64 seed blob_hash_of ehlo_text).

Definition source_of (d : SessionData) : MessageSource :=
  if is_authenticated d then Authenticated else Unauthenticated.

(** [m] is offered to the queue, which takes it or not. *)
Definition offers (a : DataAnswers) (m : Message) (source : MessageSource) (s s' : Session) : Prop :=
  ∃ headers raw ok,
    queue (qm_queue_now a) (qm_queue a) (Some headers) raw m (server s) = (ok, server s') ∧
    accepted s' = accepted s ++
      (if ok : bool then
         let m := queued blob_hash_of (Some headers) raw m in
         [{| ac_message := m; ac_due := default 0 (next_event (qm_queue_now a) m); ac_source := source |}]
       else []).

(** What the end of a message does to the queue: nothing, or the entry that the envelope
    becomes is offered to it. *)
Definition queueing (a : DataAnswers) (s s' : Session) : Prop :=
  same_queue s s' ∨
  ∃ from rcpts d m m' sz db,
    is_Some (mail_from (data s)) ∧ Forall (rcpt_good Ans) rcpts ∧
    build_message (qm_build a) from rcpts (default (qm_now a) (qm_generated a)) d = Some m ∧
    m' = (has_quota (qm_quotas a) (db : DB) (sized sz m)).2 ∧
    offers a m' (source_of (data s)) s s'.

Lemma enqueue_offers a m headers raw s :
  same_queue s (enqueue a m headers raw s).2 ∨
  offers a (has_quota (qm_quotas a) (store (server s)) m).2 (source_of (data s)) s (enqueue a m headers raw s).2.
Proof.
  unfold SmtpSession.enqueue, mbind, sm_bind, get_session, mret, sm_ret.
  destruct (has_quota _ _ m) as [[|] m'] eqn:Hq; [|by left]. right. exists headers, raw. cbn [snd].
  destruct (queue _ _ _ _ _ _) as [[|] sv] eqn:Hrun.
  - exists true. by split.
  - exists false. split; [done|]. cbn. by rewrite app_nil_r.
Qed.

Lemma offers_from a m source s1 s2 s' :
  server s1 = server s2 → accepted s1 = accepted s2 → offers a m source s1 s' → offers a m source s2 s'.
Proof. intros Hs Ha (h & raw & ok & Hq & Hacc). exists h, raw, ok. by rewrite <- Hs, <- Ha. Qed.

(** The recipients after the changes of milters and hooks. *)
Lemma change_envelope_good ans mods d :
  Ans ans → data_filters (an_data ans) = Some (Ok mods) → Forall (rcpt_good Ans) (rcpt_to d) →
  ∀ l, l ⊆ mods → Forall (rcpt_good Ans) (rcpt_to (foldl change_envelope d l)).
Proof.
  intros Ha Hm Hd l. revert d Hd. induction l as [|m l IH]; intros d Hd Hl; [done|]. cbn [foldl].
  apply IH; [|by intros x ?; apply Hl; right]. destruct m; cbn [change_envelope]; try done.
  - destruct (contains_at _); [|done]. destruct (has_rcpt _ _); [done|]. cbn. apply Forall_app. split; [done|].
    apply Forall_singleton. set (x := session_address_new _).
    assert (sa_address_lcase (with_parameters rcpt_to_parameters args x) = to_lowercase (strip_brackets recipient) ∧
      low_flags (with_parameters rcpt_to_parameters args x)) as [Hlc Hlow].
    { unfold with_parameters. case_bool_decide; [by split; [|by compute]|].
      destruct (rcpt_to_parameters _) as [[flags info]|] eqn:Hp; [|by split; [|by compute]].
      split; [done|]. by eapply rcpt_parameters_low. }
    split; [|done]. eapply by_filter; [|exact Hlc]. exists ans. split; [done|]. right. right.
    exists mods, args, recipient. split_and!; [done| |done]. apply Hl. by left.
  - cbn. rewrite Forall_forall in Hd |- *. intros x [_ Hx]%list_elem_of_filter. by apply Hd.
Qed.

Lemma envelope_authenticated from l d : is_authenticated (d <| mail_from := from |><| rcpt_to := l |>) = is_authenticated d.
Proof. done. Qed.

(** The data script leaves the queue and the account alone, and recipients vouched for. *)
Lemma data_script_good ans edited headers (s : Session) :
  Ans ans → Forall (rcpt_good Ans) (rcpt_to (data s)) →
  let '(_, s') := data_script (qm_script (an_data ans)) edited headers s in
  same_queue s s' ∧ Forall (rcpt_good Ans) (rcpt_to (data s')) ∧ source_of (data s') = source_of (data s).
Proof.
  intros Ha Hd.
  assert (∀ mods, mods ⊆ script_of (qm_script (an_data ans)) →
    Forall (rcpt_good Ans) (rcpt_to (apply_script mods (data s))) ∧
    source_of (apply_script mods (data s)) = source_of (data s)) as Hs.
  { intros mods Hin. destruct (apply_script_step (Forall (rcpt_good Ans)) mods (data s)) as (f & l & -> & _ & Hl);
      [|done|by split].
    intros m l l' Hm Hstep Hl. eapply step_good; [|exact Hstep|done]. intros v ->. exists ans. split; [done|].
    right. left. by apply Hin. }
  unfold data_script, mbind, sm_bind, mret, sm_ret, modify_data.
  destruct (qm_script (an_data ans)) as [[mods|m mods| |]|]; cbn; try done;
    (destruct (Hs mods) as [Hg Hsrc]; [done|]); by split_and!.
Qed.

Lemma filter_and_queue_queueing ans raw parsed (s : Session) :
  Ans ans → Forall (rcpt_good Ans) (rcpt_to (data s)) → is_Some (mail_from (data s)) →
  queueing (an_data ans) s (filter_and_queue (an_data ans) raw parsed s).2.
Proof.
  intros Ha Hd Hf. unfold SmtpSession.filter_and_queue.
  unfold mbind at 1, sm_bind at 1, unwrap at 1.
  destruct (data_filters (an_data ans)) as [[mods|response]|] eqn:Hm; [|by left..].
  unfold mbind at 1, sm_bind at 1, get_data at 1. cbn beta iota zeta.
  destruct (if bool_decide (mods = []) then _ else _) as [edited d1] eqn:He.
  assert (Forall (rcpt_good Ans) (rcpt_to d1) ∧ source_of d1 = source_of (data s)) as [Hd1 Hs1].
  { case_bool_decide; [by injection He as _ <-|]. unfold apply_milter_modifications in He.
    destruct (foldl (change_message _) _ _) as [[? ?] ?]. injection He as _ <-.
    split; [by eapply change_envelope_good|]. destruct (change_envelopes mods (data s)) as (f0 & k0 & -> & _). done. }
  unfold mbind at 1, sm_bind at 1, modify_data at 1. unfold mbind at 1, sm_bind at 1.
  set (s1 := s <| data ::= _ |>).
  pose proof (data_script_good ans (run_pipes (qm_pipes (an_data ans)) raw edited) (qm_auth_headers (an_data ans)) s1 Ha Hd1)
    as Hscript.
  destruct (data_script _ _ _ s1) as [[r| |] s2]; [|by left; destruct Hscript..].
  destruct Hscript as ((Hsv & Hacc) & Hd2 & Hs2).
  destruct r as [reply|[edited' headers]]; [by left|].
  unfold mbind at 1, sm_bind at 1, get_data at 1. unfold mbind at 1, sm_bind at 1, unwrap at 1.
  destruct (mail_from (data s2)) as [from|]; [|by left].
  unfold mbind at 1, sm_bind at 1, modify_data at 1. unfold mbind at 1, sm_bind at 1, unwrap at 1.
  destruct (build_message _ _ _ _ _) as [m|] eqn:Hb; [|by left].
  set (s3 := s2 <| data ::= _ |>). cbn beta iota zeta.
  set (raw' := default raw edited'). set (hs := final_headers _ _ _ _). set (sz := Z.of_nat _).
  destruct (enqueue_offers (an_data ans) (sized sz m) hs raw' s3) as [[Hq Hac]|Ho]; [left; by split; rewrite ?Hq, ?Hac|].
  right. eexists from, (rcpt_to (data s2)), (data s2), m, _, sz, (store (server s3)). split_and!; [done..|].
  assert (source_of (data s3) = source_of (data s)) as <- by (etrans; [exact Hs2|exact Hs1]).
  by eapply offers_from; [..|exact Ho].
Qed.

Lemma queue_message_queueing ans (s : Session) :
  Ans ans → Forall (rcpt_good Ans) (rcpt_to (data s)) → queueing (an_data ans) s (queue_message (an_data ans) s).2.
Proof.
  intros Ha Hd. unfold SmtpSession.queue_message.
  unfold mbind at 1, sm_bind at 1, get_data at 1. unfold mbind at 1, sm_bind at 1, modify_data at 1. cbn beta iota zeta.
  destruct (qm_parse _ _) as [parsed|]; [|by left]. destruct (_ <? _); [by left|].
  destruct (dkim_refusal _); [by left|]. destruct (arc_refusal _); [by left|].
  unfold mbind at 1, sm_bind at 1, unwrap at 1. destruct (mail_from (data s)) as [from|] eqn:Hf; [|by left].
  destruct (dmarc_refusal _ _); [by left|]. destruct (_ && _); [by left|].
  set (s1 := s <| data ::= _ |>).
  destruct (filter_and_queue_queueing ans (sd_message (data s)) parsed s1) as [Hsame|Hop]; [done|done|by exists from|by left|].
  right. exact Hop.
Qed.

Lemma queueing_frames a (s s1 s2 : Session) : queueing a s s1 → same_queue s1 s2 → queueing a s s2.
Proof.
  intros Hq [Hsv Hac]. destruct Hq as [[H1' H2']|(f & r & d & m & m' & sz & db & Hf & Hr & Hb & Hm & h & raw & ok & Hrun & Hacc)].
  - left. split; congruence.
  - right. exists f, r, d, m, m', sz, db. split_and!; [done..|]. exists h, raw, ok. by rewrite Hsv, Hac.
Qed.

Lemma queueing_from a (s0 s s' : Session) :
  same_queue s0 s → source_of (data s) = source_of (data s0) → mail_from (data s) = mail_from (data s0) →
  queueing a s s' → queueing a s0 s'.
Proof.
  intros [Hsv Hac] Hsrc Hmf [[H1' H2']|(f & r & d & m & m' & sz & db & Hf & Hr & Hb & Hm & Ho)].
  - left. split; congruence.
  - right. exists f, r, d, m, m', sz, db. rewrite <- Hsrc, <- Hmf. split_and!; [done..|]. by eapply offers_from.
Qed.

Lemma frames_after {A B} (m : SM A) (k : A → SM B) a (s : Session) :
  queueing a s (m s).2 → (∀ x, frames (k x)) → queueing a s ((m ≫= k) s).2.
Proof.
  intros Hm Hk. unfold mbind, sm_bind. destruct (m s) as [[x| |] s1]; [|done|done].
  eapply queueing_frames; [exact Hm|apply Hk].
Qed.

Lemma finish_message_queueing ans (s : Session) :
  Ans ans → Forall (rcpt_good Ans) (rcpt_to (data s)) → queueing (an_data ans) s (finish_message (an_data ans) s).2.
Proof.
  intros Ha Hd. apply frames_after; [by apply queue_message_queueing|]. intros l.
  pose proof (frames_write_times (DB := DB)). pose proof (frames_reset (DB := DB)). frame.
Qed.

(** A step that leaves the queue and the data alone. *)
Lemma frames_before {A B} (m : SM A) (k : A → SM B) a (s : Session) :
  frames m → dwp false m (λ _ d _, d = data s) (data s) (params s) →
  (∀ x s1, same_queue s s1 → data s1 = data s → queueing a s1 (k x s1).2) →
  queueing a s ((m ≫= k) s).2.
Proof.
  intros Hf Hd Hk. specialize (Hf s). apply dwp_run in Hd. unfold mbind, sm_bind.
  destruct (m s) as [[x| |] s1]; [|by left..]. cbn [snd] in Hf.
  apply (queueing_from _ s s1); [done|congruence|congruence|by apply Hk].
Qed.

Lemma can_send_same n d p : dwp (DB := DB) false (can_send_data n) (λ _ d' _, d' = d) d p.
Proof.
  unfold can_send_data. repeat dwp_step. case_bool_decide; [by dwp_step|]. destruct (_ <? _)%nat; by dwp_step.
Qed.

(** A turn of the loop. *)
Lemma turn_queueing ans total st iter (s : Session) :
  Ans ans → Forall (rcpt_good Ans) (rcpt_to (data s)) →
  queueing (an_data ans) s (turn ans total st iter s).2.
Proof.
  intros Ha Hd.
  assert (∀ (m : SM Turn), frames m → queueing (an_data ans) s (m s).2) as Hfr by (intros m Hm; left; apply Hm).
  pose proof (frames_auth_error (DB := DB)). pose proof (frames_sasl (DB := DB)).
  destruct st as [r|r|r|r|r|r| |]; cbn [SmtpSession.turn].
  - apply Hfr. destruct (request_ingest r iter) as [[res r'] rest].
    pose proof (frames_request (DB := DB) ehlo_text). pose proof (frames_request_error (DB := DB)). frame.
  - unfold mbind at 1, sm_bind at 1, get_session at 1. destruct (bdat_ingest _ _ _) as [[[ok r'] message] rest].
    unfold mbind at 1, sm_bind at 1, modify_data at 1. set (s1 := s <| data ::= _ |>).
    apply (queueing_from _ _ s1); [done..|]. destruct ok; [|by left].
    apply frames_before; [apply frames_can_send|apply can_send_same|]. intros can s2 _ Hs2.
    apply frames_after; [|intros []; apply frames_ret].
    destruct can; [|by left]. destruct (bdat_is_last r'); [|left; apply frames_write].
    apply finish_message_queueing; [done|]. by rewrite Hs2.
  - unfold mbind at 1, sm_bind at 1, get_session at 1. destruct (_ <? _); [|by left].
    destruct (data_ingest _ _ _) as [[[ok r'] message] rest].
    unfold mbind at 1, sm_bind at 1, modify_data at 1. set (s1 := s <| data ::= _ |>).
    apply (queueing_from _ _ s1); [done..|]. destruct ok; [|by left].
    apply frames_after; [|intros []; apply frames_ret]. by apply finish_message_queueing.
  - apply Hfr. destruct (line_ingest _ _) as [[ok r'] rest]. frame.
  - apply Hfr. destruct (dummy_data_ingest _ _) as [[ok r'] rest]. frame.
  - apply Hfr. destruct (dummy_line_ingest _ _) as [[ok r'] rest]. frame.
  - by left.
  - by left.
Qed.
End Queueing.

(** ** The rows of what was accepted *)

Definition data_id (a : Answers) : Z := default (qm_now (an_data a)) (qm_generated (an_data a)).

(** The times and ids of the answers are machine words. *)
Record data_wf (hold : Z) (a : Answers) : Prop := {
  dw_id : fits 64 (data_id a);
  dw_now : fits 64 (qm_queue_now (an_data a));
  dw_build i : domain_answers_wf hold (ba_domain (qm_build (an_data a)) i);
}.

(** A recipient of an accepted message, with the domain it is filed under. *)
Definition rcpt_vouched `{SmtpSyntax} (Ans : Answers → Prop) (m : Message) (r : Recipient) : Prop :=
  ∃ x, vouched Ans x ∧ address r = sa_address x ∧ address_lcase r = sa_address_lcase x ∧
    domain <$> domains m !! domain_idx r = Some (sa_domain x).

Definition entry (x : Accepted) : Message * Z := (ac_message x, ac_due x).
Definition entry_id (x : Accepted) : Z := queue_id (ac_message x).

(** The queue with the messages accepted. *)
Definition insert_all (l : list Accepted) (q : Spool) : Spool :=
  foldl (λ q x, <[entry_id x := entry x]> q) q l.

Section Rows.
Context `{KvLaws DB} `{MessageCodec} `{SmtpProto} `{!SmtpProtoLaw} `{SmtpSyntax} `{!SmtpSyntaxLaw} `{SmtpReceivers}.
Context {R : Type} (gen_range : R → Z → Z * R) (xxh3_64 : bytes → Z) (seed : R).
Context (blob_hash_of : bytes → bytes).
Context (Ans : Answers → Prop) (hold : Z).

#[local] Abbreviation Session := (Session (DB := DB)).
#[local] Abbreviation queueing := (queueing gen_range xxh3_64 seed blob_hash_of Ans).

(** What is said of a message when it is accepted. *)
Record accepted_ok (x : Accepted) : Prop := {
  ak_entry : entry_ok [] (entry_id x) (entry x);
  ak_vouched : Forall (rcpt_vouched Ans (ac_message x)) (recipients (ac_message x));
}.

Lemma has_quota_same quotas (db : DB) m :
  let m' := (has_quota quotas db m).2 in
  queue_id m' = queue_id m ∧ recipients m' = recipients m ∧ domains m' = domains m.
Proof. unfold has_quota. by destruct (check_all _ _ _ _). Qed.

Lemma entry_same from rcpts id m m' :
  entry_of from rcpts id m → queue_id m' = queue_id m → recipients m' = recipients m → domains m' = domains m →
  Forall (rcpt_good Ans) rcpts →
  (∀ i x, domains m !! i = Some x → domain_wf x) →
  queue_id m' = id ∧ message_wf m' ∧ unreported m' ∧ Forall (rcpt_vouched Ans m') (recipients m').
Proof.
  intros He Hid Hr Hd Hg Hwf.
  destruct (entry_unreported from rcpts id m He) as [[Hs Hsent] Hfl].
  { eapply Forall_impl; [exact Hg|]. by intros x [_ ?]. }
  destruct He as [Hq _ (l & Hp & Hf) _ _]. split_and!.
  - congruence.
  - split; [|by rewrite Hr]. rewrite Hd. by apply Forall_lookup.
  - split; by rewrite Hr, ?Hd.
  - rewrite Hr, Forall_forall. intros r (a & Ha & [Hr' Hdom])%(Forall2_in_r _ _ _ _ Hf).
    rewrite <- Hp, Forall_forall in Hg. exists a. rewrite Hd. split_and!; [by apply Hg|by rewrite Hr'|by rewrite Hr'|done].
Qed.

(** The entries of one turn: none, or one under the id that was generated. *)
Definition turn_entries (a : Answers) (s : Session) (l : list Accepted) : Prop :=
  l = [] ∨ ∃ x, l = [x] ∧ entry_id x = data_id a ∧ accepted_ok x ∧ is_Some (mail_from (data s)) ∧
    ac_source x = source_of (data s).

Lemma queueing_rows a (s s' : Session) :
  data_wf hold a → queueing (an_data a) s s' →
  ∃ l, accepted s' = accepted s ++ l ∧ turn_entries a s l ∧
    ∀ q leak, spool_rows q leak (store (server s)) → q !! data_id a = None →
      spool_rows (insert_all l q) leak (store (server s')).
Proof.
  intros Hwf [[Hsv Hacc]|(from & rcpts & d & m & m' & sz & db & Hf & Hg & Hb & Hm' & h & raw & ok & Hrun & Hacc)].
  { exists []. rewrite app_nil_r. split_and!; [done|by left|]. intros q leak Hrows _. by rewrite Hsv. }
  set (mq := queued blob_hash_of (Some h) raw m') in *.
  apply build_message_built in Hb as (He & _ & Hdom).
  pose proof (has_quota_same (qm_quotas (an_data a)) db (sized sz m)) as (Hid & Hr & Hd). rewrite <- Hm' in Hid, Hr, Hd.
  destruct (entry_same from rcpts (data_id a) m mq) as (Hq & Hmwf & Hun & Hv); [done|done|done|done|done| |].
  { intros i x Hx. exact (domain_built_wf _ _ _ _ _ (dw_build _ _ Hwf i) (Hdom i x Hx)). }
  assert (fits 64 (default 0 (next_event (qm_queue_now (an_data a)) mq))) as Hdue.
  { destruct (next_event _ mq) eqn:Hne; [|by compute]. eapply next_event_fits; [apply (dw_now _ _ Hwf)|apply Hmwf|exact Hne]. }
  assert (∀ q leak, spool_rows q leak (store (server s)) → q !! data_id a = None →
    spool_rows (if ok then <[data_id a := (mq, default 0 (next_event (qm_queue_now (an_data a)) mq))]> q else q) leak
      (store (server s'))) as Hrows'.
  { intros q leak Hrows Hnew.
    pose proof (queue_step gen_range xxh3_64 seed blob_hash_of (qm_queue_now (an_data a)) (qm_queue (an_data a))
      (Some h) raw m' q leak (server s) Hrows) as Hstep.
    cbn [spool_exec] in Hstep. rewrite Hrun in Hstep. cbn zeta iota in Hstep.
    assert (queue_id m' = data_id a) as Hid' by exact Hq.
    assert (spool_pre blob_hash_of (DoQueue (qm_queue_now (an_data a)) (qm_queue (an_data a)) (Some h) raw m') q) as Hpre.
    { split_and!; rewrite ?Hid'; [apply Hwf|done|done]. }
    specialize (Hstep Hpre). destruct ok; [|done]. cbn in Hstep. rewrite <- Hid'. exact Hstep. }
  destruct ok.
  - eexists. split; [exact Hacc|]. split.
    + right. eexists. split; [done|]. split_and!; [done| |done|done]. split; [|done]. split; cbn; [done| |done|done|].
      * change (fits 64 (queue_id mq)). rewrite Hq. apply Hwf.
      * by apply unreported_ledger.
    + intros q leak Hrows Hnew. specialize (Hrows' q leak Hrows Hnew). by rewrite <- Hq in Hrows'.
  - exists []. split; [done|]. split; [by left|]. done.
Qed.
End Rows.

(** ** What one turn accepts *)

Section Turns.
Context `{KvLaws DB} `{MessageCodec} `{SmtpProto} `{!SmtpProtoLaw} `{SmtpSyntax} `{!SmtpSyntaxLaw}.
Context `{SmtpReceivers} `{!SmtpReceiversLaw}.
Context {R : Type} (gen_range : R → Z → Z * R) (xxh3_64 : bytes → Z) (seed : R).
Context (blob_hash_of : bytes → bytes) (ehlo_text : EhloResponse → bytes).
Context (Ans : Answers → Prop) (lim : Limits) (Hlim : limits_ok lim) (np : bool).

#[local] Abbreviation Session := (Session (DB := DB)).
#[local] Abbreviation turn := (turn gen_range xxh3_64 seed blob_hash_of ehlo_text).

(** What is said of a message that a session accepts. *)
Definition well_accepted (x : Accepted) : Prop :=
  accepted_ok Ans x ∧ (lim_auth lim = true → ac_source x = Authenticated).

(** From one session to the next, messages with some of the ids, all new, were put
    into the queue. *)
Definition takes (ids : list Z) (s s' : Session) : Prop :=
  ∃ l, accepted s' = accepted s ++ l ∧ Forall well_accepted l ∧ (entry_id <$> l) `sublist_of` ids ∧
    ∀ q leak, spool_rows q leak (store (server s)) → NoDup ids → Forall (λ i, q !! i = None) ids →
      spool_rows (insert_all l q) leak (store (server s')).

Lemma takes_same ids s s' : same_queue s s' → takes ids s s'.
Proof.
  intros [Hsv Hac]. exists []. rewrite app_nil_r, Hsv. split_and!; [done|done|apply sublist_nil_l|done].
Qed.

Lemma insert_all_app l k q : insert_all (l ++ k) q = insert_all k (insert_all l q).
Proof. apply foldl_app. Qed.

Lemma insert_all_other l q i : i ∉ entry_id <$> l → insert_all l q !! i = q !! i.
Proof.
  revert q. induction l as [|x l IH]; intros q Hi; [done|]. cbn in Hi. apply not_elem_of_cons in Hi as [Hne Hi].
  change (insert_all (x :: l) q) with (insert_all l (<[entry_id x := entry x]> q)).
  rewrite IH by done. by apply lookup_insert_ne.
Qed.

Lemma insert_all_in l q x :
  NoDup (entry_id <$> l) → x ∈ l → insert_all l q !! entry_id x = Some (entry x).
Proof.
  revert q. induction l as [|y l IH]; intros q Hnd Hx; [by apply not_elem_of_nil in Hx|].
  cbn in Hnd. apply NoDup_cons in Hnd as [Hy Hnd].
  change (insert_all (y :: l) q) with (insert_all l (<[entry_id y := entry y]> q)).
  apply elem_of_cons in Hx as [->|Hx]; [|by apply IH]. rewrite insert_all_other by done. apply lookup_insert_eq.
Qed.

Lemma insert_all_inv l q i z :
  insert_all l q !! i = Some z → (∃ x, x ∈ l ∧ i = entry_id x ∧ z = entry x) ∨ q !! i = Some z.
Proof.
  revert q. induction l as [|y l IH]; intros q Hz; [by right|].
  destruct (IH (<[entry_id y := entry y]> q) Hz) as [(x & Hx & ?)|Hq]; [left; exists x; split; [by right|done]|].
  apply lookup_insert_Some in Hq as [[<- <-]|[_ Hq]]; [left|by right]. exists y. split; [by left|done].
Qed.

Lemma takes_trans ids1 ids2 s1 s2 s3 : takes ids1 s1 s2 → takes ids2 s2 s3 → takes (ids1 ++ ids2) s1 s3.
Proof.
  intros (l1 & Ha1 & Hp1 & Hs1 & Hr1) (l2 & Ha2 & Hp2 & Hs2 & Hr2). exists (l1 ++ l2).
  split; [by rewrite Ha2, Ha1, app_assoc|]. split; [by apply Forall_app|]. split; [rewrite fmap_app; by apply sublist_app|].
  intros q leak Hrows (Hnd1 & Hdisj & Hnd2)%NoDup_app [Hn1 Hn2]%Forall_app. rewrite insert_all_app.
  apply Hr2; [by apply Hr1|done|]. rewrite Forall_forall in *. intros i Hi. rewrite insert_all_other; [by apply Hn2|].
  intros Hin. apply (Hdisj i); [|done]. by eapply elem_of_submseteq, sublist_submseteq.
Qed.

Definition session_ok (st : State) (s : Session) : Prop :=
  keeps Ans lim np (data s) (params s) ∧ state_ok lim st (data s).

Lemma turn_takes a total st iter s :
  answers_ok Ans lim np a → data_wf (lim_hold lim) a → keeps Ans lim np (data s) (params s) →
  takes [data_id a] s (turn a total st iter s).2.
Proof.
  intros Ha Hwf Hk.
  destruct (queueing_rows gen_range xxh3_64 seed blob_hash_of Ans (lim_hold lim) a s (turn a total st iter s).2)
    as (l & Hacc & Hl & Hrows); [done| |].
  { apply turn_queueing; [apply Ha|apply Hk]. }
  exists l. split; [done|]. destruct Hl as [->|(x & -> & Hid & Hok & Hf & Hsrc)].
  - split_and!; [done|apply sublist_nil_l|]. intros q leak Hq _ [Hn _]%Forall_cons. by apply Hrows.
  - split_and!; [|cbn; by rewrite Hid|intros q leak Hq _ [Hn _]%Forall_cons; by apply Hrows].
    apply Forall_singleton. split; [done|]. intros Hauth. rewrite Hsrc. unfold source_of.
    destruct (is_authenticated (data s)) eqn:Hd; [done|]. exfalso.
    pose proof (k_auth _ _ _ _ _ Hk) as Hka. rewrite (k_require _ _ _ _ _ Hk) in Hka.
    apply eq_true_false_abs in Hd; [done|]. apply is_authenticated_spec. auto.
Qed.
End Turns.
