(* ===== verification/SmtpServer.v ===== *)
(** The SMTP server (crates/smtp/src/inbound/spawn.rs, core/mod.rs): its connections in
    steps, any number of connections and the workers of the queue on one store, and what
    holds of them: every connection comes to an end of its input, its counters stay under
    the limits of the configuration, only vouched recipients enter the queue, and a
    message that was accepted is in the queue until its account is closed. *)

From coqutil Require Import Datatypes.RecordSettersUsingExistingGetters.
From S2P Require Import Prelude StoreKeys KvStore StoreTxn SmtpQueue SmtpDelivery SmtpWorker SmtpEnvelope SmtpSession SmtpInbound SmtpMail.

#[local] Open Scope chr_scope.

(** ** What the reply to a message says *)

(** The reply is a failure, for now or for good. *)
Definition refusal (l : bytes) : bool := match l with c :: _ => (c =? "4") || (c =? "5") | [] => false end.

(** A milter, a hook or the script of the DATA stage answered. *)
Definition filtered (a : DataAnswers) (reply : bytes) : Prop :=
  (∃ r, data_filters a = Some (Err r) ∧ reply = fr_message r) ∨
  qm_script a = Some (ScriptReject reply) ∨
  (qm_script a = Some ScriptDiscard ∧ reply = MESSAGE_QUEUED).

(** A report for the server itself, which it keeps to itself. *)
Definition analysed (a : DataAnswers) (d : SessionData) (reply : bytes) : Prop :=
  is_report (qm_report_addresses a) (rcpt_to d) = true ∧ qm_report_forward a = false ∧ reply = MESSAGE_QUEUED.

Section Replies.
Context `{KvStore DB} `{MessageCodec} `{SmtpProto} `{SmtpSyntax} `{SmtpReceivers}.
Context {R : Type} (gen_range : R → Z → Z * R) (xxh3_64 : bytes → Z) (seed : R).
Context (blob_hash_of : bytes → bytes).

#[local] Abbreviation Session := (Session (DB := DB)).

Lemma enqueue_reply a m headers raw (s s' : Session) reply :
  enqueue gen_range xxh3_64 seed blob_hash_of a m headers raw s = (Done reply, s') →
  (reply = MESSAGE_QUEUED ∧ ∃ x, accepted s' = accepted s ++ [x] ∧ entry_id x = queue_id m) ∨
  (accepted s' = accepted s ∧ refusal reply = true).
Proof.
  unfold enqueue, mbind, sm_bind, get_session. destruct (has_quota _ _ _) as [ok m'] eqn:Hq.
  assert (queue_id m' = queue_id m) as Hid.
  { replace m' with ((has_quota (qm_quotas a) (store (server s)) m).2) by by rewrite Hq. apply has_quota_same. }
  destruct ok; [|intros [= <- <-]; by right].
  destruct (queue _ _ _ _ _ _ _ _ _ _) as [ok sv]. destruct ok.
  - intros [= <- <-]. left. split; [done|]. eexists. split; [reflexivity|exact Hid].
  - intros [= <- <-]. by right.
Qed.

Lemma script_reply a edited headers (s s' : Session) reply :
  data_script (qm_script a) edited headers s = (Done (inl reply), s') → same_queue s s' ∧ filtered a reply.
Proof.
  unfold data_script, filtered. destruct (qm_script a) as [[]|]; try discriminate; intros [= <- <-]; (split; [done|]);
    right; first [by left|by right].
Qed.

Lemma filter_reply a raw parsed (s s' : Session) reply :
  filter_and_queue gen_range xxh3_64 seed blob_hash_of a raw parsed s = (Done reply, s') →
  (reply = MESSAGE_QUEUED ∧ ∃ x, accepted s' = accepted s ++ [x] ∧
     entry_id x = default (qm_now a) (qm_generated a)) ∨
  (accepted s' = accepted s ∧ refusal reply = true) ∨
  (same_queue s s' ∧ filtered a reply).
Proof.
  unfold filter_and_queue. cbv zeta. unfold mbind at 1, sm_bind at 1, unwrap at 1.
  destruct (data_filters a) as [[mods|resp]|] eqn:Hf; [|intros [= <- <-]|done].
  2: { right. right. split; [done|]. left. by exists resp. }
  unfold mbind at 1, sm_bind at 1, get_data at 1.
  destruct (if bool_decide (mods = []) then _ else _) as [edited d].
  unfold mbind at 1, sm_bind at 1, modify_data at 1. set (s1 := s <| data ::= _ |>).
  unfold mbind at 1, sm_bind at 1.
  destruct (data_script _ _ _ s1) as [[[reply'|[edited' headers]]| |] s2] eqn:Hd; [| |done|done].
  { intros [= <- <-]. right. right. by apply script_reply in Hd. }
  assert (accepted s2 = accepted s) as <-.
  { revert Hd. unfold data_script. by destruct (qm_script a) as [[]|]; intros [= _ _ <-]. }
  unfold mbind at 1, sm_bind at 1, get_data at 1. unfold mbind at 1, sm_bind at 1, unwrap at 1.
  destruct (mail_from (data s2)) as [from|]; [|done]. unfold mbind at 1, sm_bind at 1, modify_data at 1.
  unfold mbind at 1, sm_bind at 1, unwrap at 1.
  destruct (build_message _ _ _ _ _) as [m|] eqn:Hb; [|done].
  apply build_message_built in Hb as (He & _).
  intros [(Hr & x & Hx & Hid)|?]%enqueue_reply; [left|by right; left].
  split; [done|]. exists x. split; [done|]. rewrite Hid. apply He.
Qed.

End Replies.

(** ** A connection in steps *)

(** Where a connection stands: before the greeting; waiting for input, over TLS or not;
    at work on [iter], what is left of an input of [total] bytes; at the handshake;
    over; ended by a panic. *)
Inductive Phase `{SmtpReceivers} :=
| Opening
| Commands (tls : bool)
| Working (tls : bool) (total : nat) (st : State) (iter : bytes)
| Handshake
| Closed
| Crashed.

(** The steps between two points where a connection waits for the network, the store or
    another task; one turn of the loop of [ingest] is a step. *)
Inductive ConnStep :=
| Accept (allowed : bool) (a : ConnectAnswers)
| Receive (now : Z) (l : bytes)
| OneTurn (a : Answers)
| ReadError
| ReadTimeout
| Shutdown
| TlsAccept (writes : option (option nat)).

Section Steps.
Context `{KvStore DB} `{MessageCodec} `{SmtpProto} `{SmtpSyntax} `{SmtpReceivers}.
Context {R : Type} (gen_range : R → Z → Z * R) (xxh3_64 : bytes → Z) (seed : R).
Context (blob_hash_of : bytes → bytes) (ehlo_text : EhloResponse → bytes).

#[local] Abbreviation Session := (Session (DB := DB)).
#[local] Abbreviation turn := (turn gen_range xxh3_64 seed blob_hash_of ehlo_text).
#[local] Abbreviation ingest_loop := (ingest_loop gen_range xxh3_64 seed blob_hash_of ehlo_text).
#[local] Abbreviation ingest := (ingest gen_range xxh3_64 seed blob_hash_of ehlo_text).
#[local] Abbreviation handle_conn := (handle_conn gen_range xxh3_64 seed blob_hash_of ehlo_text).
#[local] Abbreviation handle := (handle gen_range xxh3_64 seed blob_hash_of ehlo_text).

(** [handle_conn] said that TLS starts. *)
Definition upgrade (tls : bool) (s : Session) : Phase := if negb tls && acceptor_tls s then Handshake else Closed.

Definition accept (allowed : bool) (a : ConnectAnswers) (s : Session) : Phase * Session :=
  if allowed then
    match init_conn a s with
    | (Done true, s) => (Commands false, s)
    | (Panic, s) => (Crashed, s)
    | (_, s) => (Closed, s)
    end
  else (Closed, s).

Definition receive (tls : bool) (now : Z) (l : bytes) (s : Session) : Phase * Session :=
  let n := Z.of_nat (length l) in
  if bool_decide (l = []) then (Closed, s)
  else if (now <? valid_until (data s)) && (n <=? bytes_left (data s)) then
    (Working tls (length l) (state s) l,
     s <| data ::= λ d, d <| bytes_left ::= λ b, b - n |> |> <| state := StNone |>)
  else
    let reply := if bytes_left (data s) <? n
                 then str "451 4.7.28 " ++ s_hostname s ++ str " Session exceeded transfer quota."
                 else str "453 4.3.2 " ++ s_hostname s ++ str " Session open for too long." in
    (Closed, (write_ok (line reply) s).2).

Definition work (tls : bool) (total : nat) (st : State) (iter : bytes) (a : Answers) (s : Session)
    : Phase * Session :=
  match turn a total st iter s with
  | (Done (Next st rest), s) => (Working tls total st rest, s)
  | (Done (Break st), s) => (Commands tls, s <| state := st |>)
  | (Done TlsStarts, s) => let s := s <| state := state_default |> in (upgrade tls s, s)
  | (Disconnect, s) => (Closed, s)
  | (Panic, s) => (Crashed, s)
  end.

(** A step that the connection is not ready for does not happen. *)
Definition conn_step (x : ConnStep) (c : Phase * Session) : Phase * Session :=
  let s := c.2 in
  match c.1, x with
  | Opening, Accept allowed a => accept allowed a s
  | Commands tls, Receive now l => receive tls now l s
  | Working tls total st iter, OneTurn a => work tls total st iter a s
  | Commands _, ReadError => (Closed, s)
  | Commands _, ReadTimeout =>
      (Closed, (write_ok (line (str "221 2.0.0 " ++ s_hostname s ++ str " Disconnecting inactive client.")) s).2)
  | Commands _, Shutdown => (Closed, (write_ok (line (str "421 4.3.0 Server shutting down.")) s).2)
  | Handshake, TlsAccept (Some writes) => (Commands true, into_tls writes s)
  | Handshake, TlsAccept None => (Closed, s)
  | _, _ => c
  end.

Definition conn_run (steps : list ConnStep) (c : Phase * Session) : Phase * Session :=
  foldl (λ c x, conn_step x c) c steps.

(** *** [handle] in steps *)

(** The steps of one event, an input with [n] turns; the steps of events. *)
Definition event_steps (n : nat) (ev : ConnEvent) : list ConnStep :=
  match ev with
  | ConnRead now E l => Receive now l :: (OneTurn ∘ E <$> seq 0 n)
  | ConnError => [ReadError]
  | ConnTimeout => [ReadTimeout]
  | ConnShutdown => [Shutdown]
  end.

Definition steps_of (ns : list nat) (events : list ConnEvent) : list ConnStep :=
  concat (zip_with event_steps ns events).

Lemma conn_run_app l k c : conn_run (l ++ k) c = conn_run k (conn_run l c).
Proof. apply foldl_app. Qed.

Lemma conn_run_cons x l c : conn_run (x :: l) c = conn_run l (conn_step x c).
Proof. done. Qed.

(** Where a connection is after [ingest]. *)
Definition ingested (tls : bool) (o : Outcome bool) (s : Session) : Phase :=
  match o with
  | Done true => Commands tls
  | Done false => upgrade tls s
  | Disconnect => Closed
  | Panic => Crashed
  end.

Lemma ingest_loop_steps `{!SmtpReceiversLaw} tls fuel E total st iter s :
  (measure st iter < fuel)%nat →
  ∃ o s' n, ingest_loop fuel E total st iter s = Some (o, s') ∧
    conn_run (OneTurn ∘ E <$> seq 0 n) (Working tls total st iter, s) = (ingested tls o s', s').
Proof.
  revert E st iter s. induction fuel as [|fuel IH]; intros E st iter s Hfuel; [lia|].
  pose proof (dwp_run _ _ _ s (turn_reads gen_range xxh3_64 seed blob_hash_of ehlo_text (E 0%nat) total st iter
    (data s) (params s))) as Hread.
  cbn [SmtpSession.ingest_loop]. destruct (turn (E 0%nat) total st iter s) as [[t| |] s1] eqn:Ht.
  1: destruct t as [st1 rest|st1|].
  { destruct Hread as [Hmeas _]. destruct (IH (λ n, E (S n)) st1 rest s1) as (o & s' & n & Hrun & Hn); [lia|].
    exists o, s', (S n). split; [done|]. cbn [seq fmap list_fmap]. rewrite conn_run_cons.
    change (conn_step _ _) with (work tls total st iter (E 0%nat) s). unfold work. rewrite Ht. rewrite <- fmap_S_seq, <- list_fmap_compose. exact Hn. }
  all: do 2 eexists; exists 1%nat; (split; [done|]); cbn; unfold work; by rewrite Ht.
Qed.

(** Where a connection is after [handle_conn]. *)
Definition handled (tls : bool) (r : ConnResult) (s : Session) : Phase :=
  match r with
  | Waiting => Commands tls
  | Ended true => upgrade tls s
  | Ended false => Closed
  | Panicked => Crashed
  end.

Lemma handle_conn_steps `{!SmtpReceiversLaw} tls events s :
  ∃ r s' ns, handle_conn events s = Some (r, s') ∧
    conn_run (steps_of ns events) (Commands tls, s) = (handled tls r s', s').
Proof.
  revert s. induction events as [|ev events IH]; intros s; [by exists Waiting, s, []|].
  assert (∀ n ph s1, conn_run (event_steps n ev) (Commands tls, s) = (ph, s1) →
    conn_run (steps_of [n] (ev :: events)) (Commands tls, s) = (ph, s1)) as Hstop.
  { intros n ph s1. unfold steps_of. cbn [zip_with concat]. by rewrite app_nil_r. }
  destruct ev as [now E l| | |]; cbn [SmtpSession.handle_conn].
  2: { exists (Ended false). do 2 eexists. split; [done|]. by apply (Hstop 0%nat Closed). }
  2: { exists (Ended false). do 2 eexists. split; [done|]. by apply (Hstop 0%nat Closed). }
  2: { exists (Ended false). do 2 eexists. split; [done|]. by apply (Hstop 0%nat Closed). }
  cbv zeta. assert (∀ n, conn_run (event_steps n (ConnRead now E l)) (Commands tls, s)
    = conn_run (OneTurn ∘ E <$> seq 0 n) (receive tls now l s)) as Hev by done.
  unfold receive in Hev. case_bool_decide as Hl.
  { exists (Ended false). do 2 eexists. split; [done|]. apply (Hstop 0%nat Closed). by rewrite Hev. }
  destruct (_ && _).
  2: { exists (Ended false). do 2 eexists. split; [done|]. apply (Hstop 0%nat Closed). by rewrite Hev. }
  unfold SmtpSession.ingest. set (s0 := s <| data ::= _ |>) in *.
  destruct (ingest_loop_steps tls (ingest_fuel l) E (length l) (state s0) l (s0 <| state := StNone |>))
    as (o & s1 & n & Hrun & Hn).
  { unfold measure, ingest_fuel. pose proof (state_turns_le (state s0)). lia. }
  rewrite Hrun. change (state s0) with (state s) in Hn. rewrite <- Hev in Hn. destruct o as [[]| |].
  - destruct (IH s1) as (r & s' & ns & Hr & Hns). exists r, s', (n :: ns). split; [done|].
    unfold steps_of in *. cbn [zip_with concat]. by rewrite conn_run_app, Hn.
  - exists (Ended true). do 2 eexists. split; [done|]. by eapply Hstop.
  - exists (Ended false). do 2 eexists. split; [done|]. by eapply Hstop.
  - exists Panicked. do 2 eexists. split; [done|]. by eapply Hstop.
Qed.

(** Where a connection is after [handle]. *)
Definition finished (tls : bool) (r : ConnResult) : Phase :=
  match r with
  | Waiting => Commands tls
  | Ended _ => Closed
  | Panicked => Crashed
  end.

(** C14. A connection comes to an end of its events: with the fuel that it computes,
    [handle] gives a result whatever the network and the rest of the server answer, and it
    is the run of the small steps, one for each turn of the command loop, whose answers
    are those of the events in their order. *)
Theorem connection_ends `{!SmtpReceiversLaw} allowed a before tls_accept after s :
  ∃ r s' tls ns steps,
    handle allowed a before tls_accept after s = Some (r, s') ∧
    conn_run (Accept allowed a :: steps_of ns before ++ steps) (Opening, s) = (finished tls r, s') ∧
    (steps = [] ∨ ∃ ms, steps = TlsAccept tls_accept :: steps_of ms after).
Proof.
  unfold SmtpSession.handle.
  assert (∀ ph s1 r tls, accept allowed a s = (ph, s1) → finished tls r = ph →
    conn_run (Accept allowed a :: steps_of [] before ++ []) (Opening, s) = (finished tls r, s1)) as Hstop.
  { intros ph s1 r tls Hacc <-. rewrite app_nil_r, conn_run_cons. by destruct before. }
  unfold accept in Hstop. destruct allowed.
  2: { exists (Ended false), s, false, [], []. split_and!; [done|by apply (Hstop Closed)|by left]. }
  destruct (init_conn a s) as [[[]| |] s1] eqn:Hi.
  2-3: by exists (Ended false), s1, false, [], []; split_and!; [done|by apply (Hstop Closed)|by left].
  2: { exists Panicked, s1, false, [], []. split_and!; [done|by apply (Hstop Crashed)|by left]. }
  destruct (handle_conn_steps false before s1) as (r & s2 & ns & Hr & Hns). rewrite Hr. cbn [mbind option_bind].
  assert (∀ steps, conn_run (Accept true a :: steps_of ns before ++ steps) (Opening, s)
    = conn_run steps (handled false r s2, s2)) as Hrun.
  { intros steps. rewrite conn_run_cons, conn_run_app. change (conn_step _ _) with (accept true a s).
    unfold accept. by rewrite Hi, Hns. }
  assert (∀ r', finished false r' = handled false r s2 →
    conn_run (Accept true a :: steps_of ns before ++ []) (Opening, s) = (finished false r', s2)) as Hend.
  { intros r' Heq. by rewrite Hrun, Heq. }
  destruct r as [|[]|].
  - exists Waiting, s2, false, ns, []. split_and!; [by destruct tls_accept|by apply Hend|by left].
  - cbn [handled] in *. unfold upgrade in *. cbn [negb andb] in *. destruct tls_accept as [writes|].
    + destruct (acceptor_tls s2).
      * destruct (handle_conn_steps true after (into_tls writes s2)) as (r & s3 & ms & Hr' & Hms).
        exists r, s3, true, ns, (TlsAccept (Some writes) :: steps_of ms after).
        split_and!; [done| |right; by exists ms]. rewrite Hrun, conn_run_cons.
        change (conn_step _ _) with (Commands true, into_tls writes s2). rewrite Hms. by destruct r as [|[]|].
      * exists (Ended false), s2, false, ns, []. split_and!; [done|by apply Hend|by left].
    + exists (Ended false), s2, false, ns, [TlsAccept None]. split_and!; [done| |right; by exists []].
      rewrite Hrun. by destruct (acceptor_tls s2).
  - exists (Ended false), s2, false, ns, []. split_and!; [by destruct tls_accept|by apply Hend|by left].
  - exists Panicked, s2, false, ns, []. split_and!; [by destruct tls_accept|by apply Hend|by left].
Qed.
End Steps.

(** ** The invariant of a connection *)

Section Invariant.
Context `{KvLaws DB} `{MessageCodec} `{SmtpProto} `{!SmtpProtoLaw} `{SmtpSyntax} `{!SmtpSyntaxLaw}.
Context `{SmtpReceivers} `{!SmtpReceiversLaw}.
Context {R : Type} (gen_range : R → Z → Z * R) (xxh3_64 : bytes → Z) (seed : R).
Context (blob_hash_of : bytes → bytes) (ehlo_text : EhloResponse → bytes).
Context (Ans : Answers → Prop) (lim : Limits) (np : bool).

#[local] Abbreviation Session := (Session (DB := DB)).
#[local] Abbreviation conn_step := (conn_step gen_range xxh3_64 seed blob_hash_of ehlo_text).
#[local] Abbreviation conn_run := (conn_run gen_range xxh3_64 seed blob_hash_of ehlo_text).

(** The limits of a session that has read [n] bytes. *)
Definition after_bytes (n : Z) : Limits := {|
  lim_rcpt_errors := lim_rcpt_errors lim; lim_messages := lim_messages lim; lim_size := lim_size lim;
  lim_hold := lim_hold lim; lim_auth := lim_auth lim; lim_bytes := lim_bytes lim - n |}.

Definition live_ok (n : Z) (st : State) (s : Session) : Prop :=
  session_ok Ans (after_bytes n) np st s ∧ n ≤ lim_bytes lim.

(** A connection that has read [n] bytes. *)
Definition conn_ok (n : Z) (c : Phase * Session) : Prop :=
  match c.1 with
  | Opening => n = 0 ∧ state c.2 = state_default ∧ params c.2 = session_parameters_default ∧ ∃ now, data c.2 = session_data_new now
  | Commands _ | Handshake => live_ok n (state c.2) c.2
  | Working _ total st iter => (length iter ≤ total)%nat ∧ live_ok n st c.2
  | Closed => True
  | Crashed => np = false
  end.

(** The answers of the connect stage agree with the limits. *)
Record connect_ok (a : ConnectAnswers) : Prop := {
  co_bytes : default (250 * 1024 * 1024) (sp_transfer_limit (ca_params a)) = lim_bytes lim;
  co_auth : default false (sp_auth_require (ca_params a)) = lim_auth lim;
  co_spf : np = true → is_strict (default Relaxed (sp_spf_ehlo (ca_params a))) = false;
}.

Definition step_ok (x : ConnStep) : Prop :=
  match x with
  | Accept _ a => connect_ok a
  | OneTurn a => answers_ok Ans lim np a ∧ data_wf (lim_hold lim) a
  | _ => True
  end.

(** The ids that a step may give to a message; the bytes that it reads. *)
Definition step_ids (x : ConnStep) : list Z := match x with OneTurn a => [data_id a] | _ => [] end.

Definition step_bytes (ph : Phase) (x : ConnStep) : Z :=
  match ph, x with
  | Commands _, Receive _ l => Z.of_nat (length l)
  | _, _ => 0
  end.

(** What is asked of the whole configuration. *)
Record config_ok : Prop := {
  cf_limits : limits_ok lim;
  cf_bytes : 0 ≤ lim_bytes lim;
}.

(** No BDAT command that is about to be read announces a chunk that does not fit in the
    address space; now, and all through a run. *)
Definition phase_modest (ph : Phase) : bool :=
  match ph with Working _ _ st iter => modest_input lim st iter | _ => true end.

Fixpoint run_modest (steps : list ConnStep) (c : Phase * Session) : bool :=
  match steps with
  | [] => true
  | x :: steps => phase_modest c.1 && run_modest steps (conn_step x c)
  end.

Context (Hcfg : config_ok).

Lemma answers_after n a : answers_ok Ans lim np a → answers_ok Ans (after_bytes n) np a.
Proof. intros [? ? ? ? Hc]. split; [done..|]. intros Hnp. by destruct (Hc Hnp). Qed.

Lemma limits_after n : limits_ok (after_bytes n).
Proof. destruct Hcfg as [[] _]. by split. Qed.

Lemma write_same l (s : Session) : same_queue s (write l s).2.
Proof. apply frames_write. Qed.

(** The session as [eval_session_params] leaves it. *)
Definition opened (a : ConnectAnswers) (s : Session) : Session := (eval_session_params (ca_params a) s).2.

Lemma accept_spec allowed a (s : Session) :
  same_queue s (accept allowed a s).2 ∧
  match (accept allowed a s).1 with
  | Closed => True
  | Commands false =>
      let s' := (accept allowed a s).2 in
      data s' = data (opened a s) ∧ params s' = params (opened a s) ∧ state s' = state s
  | _ => False
  end.
Proof.
  unfold accept. destruct allowed; [|done]. unfold init_conn, mbind, sm_bind, unwrap, write_ok, put_hostname, write_is_ok.
  change (eval_session_params (ca_params a) s) with (Done (), opened a s).
  assert (same_queue s (opened a s)) as Hs by done. assert (state (opened a s) = state s) as Hst by done.
  revert Hs Hst. generalize (opened a s) as s1. intros s1 Hs Hst.
  assert (∀ l, same_queue s (write l s1).2) as Hw.
  { intros l. destruct (write_same l s1) as [H1' H2'], Hs. by split; etrans. }
  destruct (run_milters_total (ca_milters a)) as [rm Hrm]. rewrite Hrm.
  destruct (ca_script a) as [[]|]; try (by split; [apply Hw|]);
    (destruct rm as [mods|resp]; [|by split; [apply Hw|]];
     destruct (run_mta_hooks (ca_hooks a)) as [hs|resp]; [|by split; [apply Hw|]];
     cbv zeta; generalize (match ca_greeting a with Some (c :: g) => line (str "220 " ++ c :: g)
       | _ => line (str "220 Stalwart ESMTP at your service.") end) as greeting; intros greeting;
     unfold write; match goal with |- context [writes_left ?x] => change (writes_left x) with (writes_left s1) end;
     destruct (writes_left s1) as [[|]|]; done).
Qed.

Lemma accept_ok allowed a (s : Session) :
  connect_ok a → conn_ok 0 (Opening, s) → conn_ok 0 (accept allowed a s).
Proof.
  intros Ha (_ & Hst & Hp & now & Hd). cbn [fst snd] in *. pose proof (accept_spec allowed a s) as [_ Hspec].
  unfold conn_ok. destruct (accept allowed a s) as [[|[]| | | |] s']; cbn [fst snd] in *; try done.
  destruct Hspec as (Hd' & Hp' & Hs'). split; [|apply Hcfg]. split; [|by rewrite Hs', Hst].
  rewrite Hd', Hp'. clear -Hd Hp Ha Hcfg. destruct s. cbn in Hd, Hp. subst. destruct Ha, Hcfg as [[] ?].
  unfold opened, eval_session_params, mbind, sm_bind, modify_data, modify_params. keeps_tac; try lia; by left.
Qed.

Lemma receive_ok n tls now l (s : Session) :
  live_ok n (state s) s →
  conn_ok (n + Z.of_nat (length l)) (receive tls now l s) ∧ same_queue s (receive tls now l s).2.
Proof.
  intros [[Hk Hst] Hn]. unfold receive. case_bool_decide; [done|]. destruct (_ && _) eqn:Hroom.
  - apply andb_prop in Hroom as [_ Hroom]. apply Z.leb_le in Hroom.
    pose proof (k_bytes _ _ _ _ _ Hk) as Hb. cbn [after_bytes lim_bytes] in Hb. split; [|done].
    split; [done|]. split; [|lia]. split; [|by destruct (state s)].
    destruct Hk. keeps_tac. lia.
  - split; [done|]. apply write_same.
Qed.

Lemma work_ok n tls total st iter a (s : Session) :
  answers_ok Ans lim np a → data_wf (lim_hold lim) a → (length iter ≤ total)%nat → live_ok n st s →
  (np = true → modest_input lim st iter = true) →
  let c := work gen_range xxh3_64 seed blob_hash_of ehlo_text tls total st iter a s in
  conn_ok n c ∧ takes Ans lim [data_id a] s c.2.
Proof.
  intros Ha Hwf Hlen [[Hk Hst] Hn] Hmod. apply (answers_after n) in Ha. cbn zeta. unfold work.
  pose proof (turn_takes gen_range xxh3_64 seed blob_hash_of ehlo_text Ans (after_bytes n) np a total st iter s Ha Hwf Hk)
    as Htake.
  pose proof (dwp_run _ _ _ s (turn_keeps Ans (after_bytes n) (limits_after n) np gen_range xxh3_64 seed blob_hash_of
    ehlo_text a total st iter (data s) (params s) Ha Hlen Hk Hst Hmod)) as Hturn.
  pose proof (dwp_run _ _ _ s (turn_reads gen_range xxh3_64 seed blob_hash_of ehlo_text a total st iter
    (data s) (params s))) as Hread.
  destruct (SmtpSession.turn _ _ _ _ _ _ _ _ _ s) as [[t| |] s1]; cbn [fst snd] in *; [|by split..].
  destruct t as [st1 rest|st1|].
  - destruct Hread as [_ Hrest]. split; [|done]. split; [lia|]. by split.
  - split; [|done]. split; [|done]. exact Hturn.
  - split; [|done]. destruct Hturn as [Hk1 _]. unfold upgrade, conn_ok. destruct (_ && _); [|done]. by repeat split; destruct Hk1.
Qed.

Lemma conn_step_ok n x (c : Phase * Session) :
  step_ok x → conn_ok n c → (np = true → phase_modest c.1 = true) →
  conn_ok (n + step_bytes c.1 x) (conn_step x c) ∧ takes Ans lim (step_ids x) c.2 (conn_step x c).2.
Proof.
  destruct c as [ph s]. intros Hx Hc Hmod.
  assert (conn_ok (n + 0) (ph, s) ∧ takes Ans lim (step_ids x) s s) as Hsame.
  { rewrite Z.add_0_r. split; [done|]. by apply takes_same. }
  assert (∀ l, conn_ok (n + 0) (Closed, (write_ok l s).2) ∧ takes Ans lim (step_ids x) s (write_ok l s).2) as Hwrite.
  { intros l. split; [done|]. apply takes_same, write_same. }
  destruct ph as [|tls|tls total st iter| | |], x as [allowed a|now l|a| | | |[writes|]]; try exact Hsame; try apply Hwrite.
  - destruct Hc as [-> Hc]. split; [by apply accept_ok|]. apply takes_same, accept_spec.
  - destruct (receive_ok n tls now l s Hc) as [? ?]. split; [done|]. by apply takes_same.
  - split; [done|]. by apply takes_same.
  - destruct Hx as [Ha Hwf], Hc as [Hlen Hl]. change (step_bytes _ _) with 0. rewrite Z.add_0_r. by apply work_ok.
  - split; [by rewrite Z.add_0_r|]. by apply takes_same.
Qed.

(** The bytes that the steps of a connection read. *)
Fixpoint run_bytes (steps : list ConnStep) (c : Phase * Session) : Z :=
  match steps with
  | [] => 0
  | x :: steps => step_bytes c.1 x + run_bytes steps (conn_step x c)
  end.

Lemma conn_run_ok n steps (c : Phase * Session) :
  Forall step_ok steps → conn_ok n c → (np = true → run_modest steps c = true) →
  conn_ok (n + run_bytes steps c) (conn_run steps c) ∧ takes Ans lim (steps ≫= step_ids) c.2 (conn_run steps c).2.
Proof.
  intros Hsteps. revert n c. induction Hsteps as [|x steps Hx Hsteps IH]; intros n c Hc Hmod.
  { cbn. rewrite Z.add_0_r. split; [done|]. by apply takes_same. }
  destruct (conn_step_ok n x c Hx Hc) as [Hc1 Ht1]; [intros Hnp; apply (andb_prop _ _ (Hmod Hnp))|].
  destruct (IH _ _ Hc1) as [Hc2 Ht2]; [intros Hnp; apply (andb_prop _ _ (Hmod Hnp))|].
  rewrite conn_run_cons. cbn [run_bytes mbind list_bind]. rewrite Z.add_assoc. split; [done|]. by eapply takes_trans.
Qed.

Lemma new_ok now proto acceptor tls writes (sv : Server DB) :
  conn_ok 0 (Opening, session_new now proto acceptor tls writes sv).
Proof. split_and!; [done|done|done|by exists now]. Qed.
End Invariant.

(** ** The server *)

(** Connections and workers on one store; what the tasks of the workers gave. *)
Record System {DB} `{SmtpReceivers} := {
  sys_server : Server DB;
  sys_conns : list (Phase * Session (DB := DB));
  sys_results : list (Z * TaskResult (DB := DB));
}.

Inductive SysStep :=
| SysConnect (now : Z) (proto : ServerProtocol) (acceptor tls : bool) (writes : option nat)
| SysConn (i : nat) (x : ConnStep)
| SysWorker (w : WorkerRun).

Section System.
Context `{KvStore DB} `{MessageCodec} `{SmtpProto} `{SmtpSyntax} `{SmtpReceivers}.
Context {R : Type} (gen_range : R → Z → Z * R) (xxh3_64 : bytes → Z) (seed : R).
Context (blob_hash_of : bytes → bytes) (ehlo_text : EhloResponse → bytes).

(** A connection sees the store as the step before it left it, whoever made it. *)
Definition sys_step (x : SysStep) (y : System (DB := DB)) : option (System (DB := DB)) :=
  match x with
  | SysConnect now proto acceptor tls writes =>
      Some {| sys_server := sys_server y; sys_results := sys_results y;
              sys_conns := sys_conns y ++ [(Opening, session_new now proto acceptor tls writes (sys_server y))] |}
  | SysConn i x =>
      match sys_conns y !! i with
      | Some (ph, s) =>
          let c := conn_step gen_range xxh3_64 seed blob_hash_of ehlo_text x (ph, s <| server := sys_server y |>) in
          Some {| sys_server := server c.2; sys_results := sys_results y; sys_conns := <[i := c]> (sys_conns y) |}
      | None => Some y
      end
  | SysWorker w =>
      '(res, sv) ← try_deliver gen_range xxh3_64 seed blob_hash_of (wr_now w) (wr_lock w) (wr_clear w)
                     (wr_answers w) (wr_event w) (sys_server y);
      Some {| sys_server := sv; sys_conns := sys_conns y;
              sys_results := sys_results y ++ (if res is Some r then [(ev_queue_id (wr_event w), r)] else []) |}
  end.

Fixpoint sys_run (steps : list SysStep) (y : System (DB := DB)) : option (System (DB := DB)) :=
  match steps with
  | [] => Some y
  | x :: steps => y ← sys_step x y; sys_run steps y
  end.
End System.

Section Account.
Context `{KvLaws DB} `{MessageCodec} `{!MessageCodecLaw} `{SmtpProto} `{!SmtpProtoLaw} `{SmtpSyntax} `{!SmtpSyntaxLaw}.
Context `{SmtpReceivers} `{!SmtpReceiversLaw}.
Context {R : Type} (gen_range : R → Z → Z * R) (xxh3_64 : bytes → Z) (seed : R).
Context (blob_hash_of : bytes → bytes) (ehlo_text : EhloResponse → bytes).
Context (Ans : Answers → Prop) (limits : nat → Limits).

#[local] Abbreviation System := (System (DB := DB)).
#[local] Abbreviation sys_step := (sys_step gen_range xxh3_64 seed blob_hash_of ehlo_text).
#[local] Abbreviation sys_run := (sys_run gen_range xxh3_64 seed blob_hash_of ehlo_text).

(** The steps of connection [i] are within its limits; the workers' writes succeed. *)
Definition sys_step_ok (x : SysStep) : Prop :=
  match x with
  | SysConnect _ _ _ _ _ => True
  | SysConn i x => step_ok Ans (limits i) false x
  | SysWorker w => run_ok w ∧ tk_engine (wr_answers w) = None
  end.

Definition sys_ids (x : SysStep) : list Z :=
  match x with
  | SysConnect _ _ _ _ _ => []
  | SysConn _ x => step_ids x
  | SysWorker w => task_ids (wr_answers w)
  end.

(** The queue [q] of a server to which the ids [future] are still to be given, and the
    messages that were put into it, with their ids. *)
Record sys_ok (future : list Z) (q : Spool) (leak : QueueClass → Z) (mail : list (Z * Message)) (y : System) : Prop := {
  so_rows : spool_rows q leak (store (sys_server y));
  so_conns i c : sys_conns y !! i = Some c → ∃ n, conn_ok Ans (limits i) false n c;
  so_entries i x : q !! i = Some x → entry_ok (dsns_of i (sys_results y)) i x;
  so_future i : i ∈ future → q !! i = None ∧ dsns_of i (sys_results y) = [];
  so_mail i m : (i, m) ∈ mail → (i ∉ future) ∧ mail_done i m (dsns_of i (sys_results y)) (sys_results y) q;
  so_accepted i c x : sys_conns y !! i = Some c → x ∈ accepted (c.2) →
    well_accepted Ans (limits i) x ∧ (entry_id x, ac_message x) ∈ mail;
}.

Lemma worker_sys_ok w future q leak mail y :
  sys_step_ok (SysWorker w) → NoDup (task_ids (wr_answers w) ++ future) →
  sys_ok (task_ids (wr_answers w) ++ future) q leak mail y →
  ∃ y' q' leak', sys_step (SysWorker w) y = Some y' ∧ sys_ok future q' leak' mail y'.
Proof.
  intros [Hw Heng] (Hnd1 & Hdisj & _)%NoDup_app [Hrows Hconns Hen Hfut Hmail Hacc].
  assert (Forall (λ i, q !! i = None) (task_ids (wr_answers w))) as Hnew.
  { apply Forall_forall. intros i Hi. apply Hfut. apply elem_of_app. by left. }
  destruct (worker_step gen_range xxh3_64 seed blob_hash_of w q leak (λ i, dsns_of i (sys_results y)) (sys_server y)
    Hrows Hw Heng Hen Hnd1 Hnew) as (res & sv' & q' & leak' & Hgo & Hrows' & [Hent Habs Hdone]).
  cbn [SmtpServer.sys_step]. rewrite Hgo. cbn [mbind option_bind]. set (r1 := if res is Some r then _ else _) in *.
  eexists _, q', leak'. split; [done|]. split; cbn [sys_server sys_conns sys_results]; [done|done| | | |done].
  - intros i x Hx. rewrite dsns_of_app. apply Hent; [done|].
    destruct (decide (i ∈ task_ids (wr_answers w))) as [Hi|Hi].
    + left. split; [done|]. apply Hfut, elem_of_app. by left.
    + right. destruct (q !! i) eqn:Hq; [done|]. destruct (Habs i Hq) as [_ Hnone]. by rewrite Hnone in Hx.
  - intros i Hi. destruct (Hfut i) as [Hq Hd]; [apply elem_of_app; by right|]. destruct (Habs i Hq) as [Hd1 Hnone].
    rewrite dsns_of_app, Hd, Hd1. split; [|done]. apply Hnone. intros Hin. by eapply Hdisj.
  - intros i m Hm. destruct (Hmail i m Hm) as [[Hni1 Hni2]%not_elem_of_app Hi]. split; [done|]. rewrite dsns_of_app.
    unfold mail_done in Hi. destruct (q !! i) as [[m1 d1]|] eqn:Hq.
    + destruct Hi as [Hf _]. destruct (Hdone i m1 d1 Hq) as [(x & Hx & Hf')|(Hnone & r & Hin & Hcl)]; unfold mail_done.
      * rewrite Hx. split; [by etrans|]. apply (en_ledger _ i). apply Hent; [done|]. right. by rewrite Hq.
      * rewrite Hnone. exists r. split; [apply elem_of_app; by right|].
        destruct Hcl as (? & Hf' & ?). split; [done|]. split; [by etrans|done].
    + destruct (Habs i Hq) as [-> Hnone]. unfold mail_done. rewrite (Hnone Hni1), app_nil_r.
      destruct Hi as (r & Hin & Hcl). exists r. split; [apply elem_of_app; by left|done].
Qed.

Lemma conn_sys_ok k x future q leak mail y :
  config_ok (limits k) → sys_step_ok (SysConn k x) → NoDup (step_ids x ++ future) →
  sys_ok (step_ids x ++ future) q leak mail y →
  ∃ y' q' mail', sys_step (SysConn k x) y = Some y' ∧ sys_ok future q' leak (mail' ++ mail) y'.
Proof.
  intros Hcfg Hx (Hnd1 & Hdisj & _)%NoDup_app [Hrows Hconns Hen Hfut Hmail Hacc].
  cbn [SmtpServer.sys_step]. destruct (sys_conns y !! k) as [[ph s]|] eqn:Hk.
  2: { eexists _, q, []. split; [done|]. split; [done|done|done| | |done].
       - intros i Hi. apply Hfut, elem_of_app. by right.
       - intros i m Hm. destruct (Hmail i m Hm) as [[_ ?]%not_elem_of_app ?]. done. }
  set (c0 := (ph, s <| server := sys_server y |>)).
  destruct (Hconns k _ Hk) as [n Hok].
  destruct (conn_step_ok gen_range xxh3_64 seed blob_hash_of ehlo_text Ans (limits k) false Hcfg n x c0 Hx)
    as [Hok' (l & Hl & Hwell & Hsub & Hq')]; [by destruct ph|done|].
  set (c := SmtpServer.conn_step _ _ _ _ _ x c0) in *.
  assert (Forall (λ i, q !! i = None) (step_ids x)) as Hnew.
  { apply Forall_forall. intros i Hi. apply Hfut. apply elem_of_app. by left. }
  specialize (Hq' q leak Hrows Hnd1 Hnew).
  assert (∀ i, i ∉ step_ids x → insert_all l q !! i = q !! i) as Hother.
  { intros i Hi. apply insert_all_other. intros Hin. apply Hi. by eapply elem_of_submseteq, sublist_submseteq. }
  assert (∀ a, a ∈ l → entry_id a ∈ step_ids x) as Hids.
  { intros a Ha. eapply elem_of_submseteq; [|by apply sublist_submseteq]. apply list_elem_of_fmap. by exists a. }
  assert (∀ a, a ∈ l → insert_all l q !! entry_id a = Some (entry a) ∧
    entry_ok (dsns_of (entry_id a) (sys_results y)) (entry_id a) (entry a)) as Hnewq.
  { intros a Ha. destruct (Hfut (entry_id a)) as [_ ->]; [apply elem_of_app; left; by apply Hids|].
    rewrite Forall_forall in Hwell. destruct (Hwell a Ha) as [[He _] _]. split; [|exact He]. apply insert_all_in; [|done].
    by eapply sublist_NoDup. }
  eexists _, (insert_all l q), ((λ a, (entry_id a, ac_message a)) <$> l). split; [done|].
  split; cbn [sys_server sys_conns sys_results].
  - done.
  - intros i c' Hi. destruct (decide (i = k)) as [->|Hne].
    + rewrite list_lookup_insert_eq in Hi by (by eapply lookup_lt_Some). injection Hi as <-. by eexists.
    + rewrite list_lookup_insert_ne in Hi by done. by eapply Hconns.
  - intros i z [(a & Ha & -> & ->)|Hz]%insert_all_inv; [by apply Hnewq|by apply Hen].
  - intros i Hi. destruct (Hfut i) as [Hq Hd]; [apply elem_of_app; by right|]. split; [|done].
    rewrite Hother; [done|]. intros Hin. by eapply Hdisj.
  - intros i m [(a & [= -> ->] & Ha)%list_elem_of_fmap|Hm]%elem_of_app.
    + split; [intros Hin; eapply Hdisj; [by apply Hids|done]|]. destruct (Hnewq a Ha) as [Hin He].
      unfold mail_done. rewrite Hin. split; [reflexivity|]. exact (en_ledger _ _ _ He).
    + destruct (Hmail i m Hm) as [[Hni1 Hni2]%not_elem_of_app Hi]. split; [done|]. unfold mail_done in *. by rewrite Hother.
  - intros i c' a Hi Ha. destruct (decide (i = k)) as [->|Hne].
    + rewrite list_lookup_insert_eq in Hi by (by eapply lookup_lt_Some). injection Hi as <-.
      rewrite Hl in Ha. apply elem_of_app in Ha as [Ha|Ha].
      * destruct (Hacc k (ph, s) a Hk Ha) as [? ?]. split; [done|]. apply elem_of_app. by right.
      * rewrite Forall_forall in Hwell. split; [by apply Hwell|]. apply elem_of_app. left. apply list_elem_of_fmap. by exists a.
    + rewrite list_lookup_insert_ne in Hi by done. destruct (Hacc i c' a Hi Ha) as [? ?]. split; [done|].
      apply elem_of_app. by right.
Qed.

Lemma sys_run_ok steps future q leak mail y :
  (∀ i, config_ok (limits i)) → Forall sys_step_ok steps → NoDup ((steps ≫= sys_ids) ++ future) →
  sys_ok ((steps ≫= sys_ids) ++ future) q leak mail y →
  ∃ y' q' leak' mail', sys_run steps y = Some y' ∧ sys_ok future q' leak' (mail' ++ mail) y'.
Proof.
  intros Hcfg Hsteps. revert q leak mail y. induction Hsteps as [|x steps Hx Hsteps IH]; intros q leak mail y Hnd Hok.
  { by exists y, q, leak, []. }
  cbn [mbind list_bind] in Hnd, Hok. rewrite <- app_assoc in Hnd, Hok. fold (steps ≫= sys_ids) in Hnd, Hok.
  assert (∃ y1 q1 leak1 mail1, sys_step x y = Some y1 ∧ sys_ok ((steps ≫= sys_ids) ++ future) q1 leak1 (mail1 ++ mail) y1)
    as (y1 & q1 & leak1 & mail1 & Hstep & Hok1).
  { destruct x as [now proto acceptor tls writes|k x|w].
    - eexists _, q, leak, []. split; [done|]. destruct Hok as [? Hc ? ? ? Hacc]. split; [done| |done|done|done|].
      + intros i c [Hi|[_ [_ <-]%list_lookup_singleton_Some]]%lookup_app_Some; [by eapply Hc|]. exists 0. apply new_ok.
      + intros i c a [Hi|[_ [_ <-]%list_lookup_singleton_Some]]%lookup_app_Some; [by eapply Hacc|]. intros Ha.
        by apply not_elem_of_nil in Ha.
    - destruct (conn_sys_ok k x _ q leak mail y (Hcfg k) Hx Hnd Hok) as (y1 & q1 & mail1 & ? & ?). by exists y1, q1, leak, mail1.
    - destruct (worker_sys_ok w _ q leak mail y Hx Hnd Hok) as (y1 & q1 & leak1 & ? & ?). by exists y1, q1, leak1, []. }
  cbn [SmtpServer.sys_run]. rewrite Hstep. cbn [mbind option_bind].
  apply NoDup_app in Hnd as (_ & _ & Hnd).
  destruct (IH q1 leak1 (mail1 ++ mail) y1 Hnd Hok1) as (y' & q' & leak' & mail' & Hrun & Hok').
  exists y', q', leak', (mail' ++ mail1). rewrite <- app_assoc. done.
Qed.
End Account.

(** ** What holds of any run *)

Section Claims.
Context `{KvLaws DB} `{MessageCodec} `{!MessageCodecLaw} `{SmtpProto} `{!SmtpProtoLaw} `{SmtpSyntax} `{!SmtpSyntaxLaw}.
Context `{SmtpReceivers} `{!SmtpReceiversLaw}.
Context {R : Type} (gen_range : R → Z → Z * R) (xxh3_64 : bytes → Z) (seed : R).
Context (blob_hash_of : bytes → bytes) (ehlo_text : EhloResponse → bytes).

#[local] Abbreviation conn_run := (conn_run (DB := DB) gen_range xxh3_64 seed blob_hash_of ehlo_text).
#[local] Abbreviation run_bytes := (run_bytes (DB := DB) gen_range xxh3_64 seed blob_hash_of ehlo_text).
#[local] Abbreviation run_modest := (run_modest (DB := DB) gen_range xxh3_64 seed blob_hash_of ehlo_text).
#[local] Abbreviation sys_run := (sys_run (DB := DB) gen_range xxh3_64 seed blob_hash_of ehlo_text).

Lemma step_ok_in (Ans : Answers → Prop) lim x :
  step_ok (λ _, True) lim false x → (∀ a, x = OneTurn a → Ans a) → step_ok Ans lim false x.
Proof. destruct x as [allowed a| |a| | | |]; try done. intros [[] ?] Hin. split; [|done]. split; auto. Qed.

(** C10. While a connection is open its counters are within the limits that the
    configuration gives: the bytes read and those left make up the transfer limit, a
    message that is being received is smaller than the size limit, and the messages sent,
    the recipients refused and the failed logins stay below their limits. *)
Theorem session_bounds (lim : Limits) (steps : list ConnStep) now proto acceptor tls writes (sv : Server DB) :
  config_ok lim → Forall (step_ok (λ _, True) lim false) steps →
  let start := (Opening, session_new now proto acceptor tls writes sv) in
  let '(ph, s) := conn_run steps start in
  match ph with
  | Commands _ | Working _ _ _ _ | Handshake =>
      run_bytes steps start + bytes_left (data s) = lim_bytes lim ∧ 0 ≤ bytes_left (data s) ∧
      Z.of_nat (length (sd_message (data s))) < lim_size lim ∧
      (messages_sent (data s) ≤ lim_messages lim)%nat ∧
      (rcpt_errors (data s) = 0%nat ∨ (rcpt_errors (data s) < lim_rcpt_errors lim)%nat) ∧
      (auth_errors (data s) = 0%nat ∨ (auth_errors (data s) < auth_errors_max (params s))%nat)
  | _ => True
  end.
Proof.
  intros Hcfg Hsteps start.
  destruct (conn_run_ok gen_range xxh3_64 seed blob_hash_of ehlo_text (λ _, True) lim false Hcfg 0 steps start Hsteps)
    as [Hok _]; [apply new_ok|done|].
  rewrite Z.add_0_l in Hok. fold start. destruct (conn_run steps start) as [ph s].
  assert (∀ n st, live_ok (λ _, True) lim false n st s →
    n + bytes_left (data s) = lim_bytes lim ∧ 0 ≤ bytes_left (data s) ∧
    Z.of_nat (length (sd_message (data s))) < lim_size lim ∧
    (messages_sent (data s) ≤ lim_messages lim)%nat ∧
    (rcpt_errors (data s) = 0%nat ∨ (rcpt_errors (data s) < lim_rcpt_errors lim)%nat) ∧
    (auth_errors (data s) = 0%nat ∨ (auth_errors (data s) < auth_errors_max (params s))%nat)) as Hlive.
  { intros n st [[[] _] Hn]. cbn in *. split_and!; try done; lia. }
  destruct ph; try done; [exact (Hlive _ _ Hok)|exact (Hlive _ _ (proj2 Hok))|exact (Hlive _ _ Hok)].
Qed.

(** C4. No open relay: every recipient of every message that a connection accepts, and of
    the transaction it is in, is there for a reason found in the answers of this very
    connection: its mailbox is in a directory that has its domain, relaying to its domain was
    allowed, it is a member of a list of the directory, or a filter of the server named it;
    it is filed under its own domain, and where authentication is required the message
    came from an authenticated session. *)
Theorem recipients_vouched (lim : Limits) (steps : list ConnStep) now proto acceptor tls writes (sv : Server DB) :
  config_ok lim → Forall (step_ok (λ _, True) lim false) steps →
  let Ans a := OneTurn a ∈ steps in
  let c := conn_run steps (Opening, session_new now proto acceptor tls writes sv) in
  (∀ x, x ∈ accepted c.2 →
     Forall (rcpt_vouched Ans (ac_message x)) (recipients (ac_message x)) ∧
     (lim_auth lim = true → ac_source x = Authenticated)) ∧
  (∀ b, c.1 = Commands b → Forall (vouched Ans) (rcpt_to (data c.2))).
Proof.
  intros Hcfg Hsteps Ans c.
  assert (Forall (step_ok Ans lim false) steps) as Hsteps'.
  { rewrite Forall_forall in *. intros x Hx. apply step_ok_in; [by apply Hsteps|]. by intros a ->. }
  destruct (conn_run_ok gen_range xxh3_64 seed blob_hash_of ehlo_text Ans lim false Hcfg 0 steps
    (Opening, session_new now proto acceptor tls writes sv) Hsteps') as [Hok (l & Hl & Hwell & _)]; [apply new_ok|done|].
  fold c in Hok, Hl. split.
  - rewrite Hl. intros x Hx. rewrite Forall_forall in Hwell. destruct (Hwell x Hx) as [[_ ?] ?]. done.
  - intros b Hb. unfold conn_ok in Hok. rewrite Hb in Hok. destruct Hok as [[Hk _] _].
    eapply Forall_impl; [apply Hk|]. by intros r [? _].
Qed.

(** C13. A connection does not panic, when no filter refuses an EHLO, no MAIL script names
    a recipient, SPF is not strict for EHLO and no BDAT chunk exceeds the address space:
    whatever else its client sends, the steps never end in a crash. *)
Theorem session_no_panic (lim : Limits) (steps : list ConnStep) now proto acceptor tls writes (sv : Server DB) :
  config_ok lim → Forall (step_ok (λ _, True) lim true) steps →
  let start := (Opening, session_new now proto acceptor tls writes sv) in
  run_modest lim steps start = true → (conn_run steps start).1 ≠ Crashed.
Proof.
  intros Hcfg Hsteps start Hmod Hcrash.
  destruct (conn_run_ok gen_range xxh3_64 seed blob_hash_of ehlo_text (λ _, True) lim true Hcfg 0 steps start Hsteps)
    as [Hok _]; [apply new_ok|done|].
  unfold conn_ok in Hok. by rewrite Hcrash in Hok.
Qed.

End Claims.

(** ** Examples *)

Module ServerExample.
Import QueueExample WorkerExample EnvelopeExample.
#[local] Existing Instance example_syntax.
#[local] Existing Instance example_syntax_law.
#[local] Existing Instance example_proto.
#[local] Existing Instance example_proto_law.

(** Receivers of a small language: a letter for the command and its argument on a line; a
    dot ends a message. *)
Fixpoint cut (c : Z) (l : bytes) : option (bytes * bytes) :=
  match l with
  | [] => None
  | x :: l => if x =? c then Some ([], l) else '(a, b) ← cut c l; Some (x :: a, b)
  end.

Lemma cut_length c l a b : cut c l = Some (a, b) → length l = S (length a + length b).
Proof.
  revert a. induction l as [|x l IH]; intros a; [done|]. cbn [cut]. destruct (x =? c); [by intros [= <- <-]|].
  destruct (cut c l) as [[a' b']|]; [|done]. intros [= <- <-]. cbn. by rewrite (IH a').
Qed.

Definition parse (l : bytes) : result RequestError Request :=
  match l with
  | [] => Err UnknownCommand
  | c :: l =>
      if c =? "E" then Ok (ReqEhlo l)
      else if c =? "M" then
        Ok (ReqMail {| mf_address := l; mf_flags := 0; mf_size := 0; mf_by := 0; mf_hold_for := 0;
                       mf_hold_until := 0; mf_mt_priority := 0; mf_env_id := None |})
      else if c =? "R" then Ok (ReqRcpt {| rt_address := l; rt_flags := 0; rt_orcpt := None |})
      else if c =? "D" then Ok ReqData
      else if c =? "B" then Ok (ReqBdat (Z.of_nat (length l)) false)
      else if c =? "L" then Ok (ReqBdat (Z.of_nat (length l)) true)
      else if c =? "A" then Ok (ReqAuth 1 l)
      else if c =? "S" then Ok ReqStartTls
      else if c =? "Q" then Ok ReqQuit
      else Err UnknownCommand
  end.

#[local] Instance example_receivers : SmtpReceivers := {|
  RequestReceiver := bytes; request_default := [];
  request_ingest r l :=
    match cut 10 l with
    | Some (a, rest) => (parse (r ++ a), [], rest)
    | None => (Err NeedsMoreData, r ++ l, [])
    end;
  DataReceiver := (); data_new := ();
  data_ingest r l m :=
    match cut "." l with
    | Some (a, rest) => (true, r, m ++ a, rest)
    | None => (false, r, m ++ l, [])
    end;
  BdatReceiver := nat * bool; bdat_new n last := (Z.to_nat n, last); bdat_is_last := snd;
  bdat_ingest r l m :=
    if (r.1 <=? length l)%nat then (true, (0%nat, r.2), m ++ take r.1 l, drop r.1 l)
    else (false, ((r.1 - length l)%nat, r.2), m ++ l, []);
  LineReceiver := SaslToken * bytes; line_new t := (t, []); line_token := fst; line_buf := snd;
  line_clear t _ := (t, []);
  line_ingest r l :=
    match cut 10 l with
    | Some (a, rest) => (true, (r.1, r.2 ++ a), rest)
    | None => (false, (r.1, r.2 ++ l), [])
    end;
  DummyDataReceiver := nat + (); dummy_new_bdat n := inl (Z.to_nat n); dummy_new_data _ := inr ();
  dummy_data_ingest r l :=
    match r with
    | inl n => if (n <=? length l)%nat then (true, inl 0%nat, drop n l) else (false, inl (n - length l)%nat, [])
    | inr _ => match cut "." l with Some (_, rest) => (true, r, rest) | None => (false, r, []) end
    end;
  DummyLineReceiver := (); dummy_line_default := ();
  dummy_line_ingest r l := match cut 10 l with Some (_, rest) => (true, r, rest) | None => (false, r, []) end;
  MAX_LINE_LENGTH := 2048;
  AUTH_PLAIN := 1; AUTH_LOGIN := 2; AUTH_OAUTHBEARER := 4; AUTH_XOAUTH2 := 8;
  debug_text l := l; spf_text _ := []; base64_decode l := Some l; into_string l := l;
  credentials_of_pair := CredPlain; credentials_default := CredPlain [] [] |}.

Lemma parse_request l req : parse l = Ok req →
  match req with
  | ReqRcpt to => rt_flags to = 0
  | ReqBdat n _ => n + 1 = Z.of_nat (length l)
  | _ => True
  end.
Proof.
  destruct l as [|c l]; [done|]. unfold parse. repeat (destruct (_ =? _); [intros [= <-]; cbn; try done; lia|]). done.
Qed.

#[local] Instance example_receivers_law : SmtpReceiversLaw.
Proof.
  refine {| bdat_left := fst |}; cbn.
  - intros r l x r' rest. destruct (cut 10 l) as [[a b]|] eqn:Hc; [|by intros [= <- _ _]].
    apply cut_length in Hc. intros [= _ _ <-]. lia.
  - intros r l to r' rest. destruct (cut 10 l) as [[a b]|]; [|done]. intros [= Hp _ _].
    apply parse_request in Hp. rewrite Hp. by compute.
  - intros r l n last r' rest. destruct (cut 10 l) as [[a b]|]; [|done]. intros [= Hp _ _]. revert Hp.
    destruct (r ++ a) as [|c k]; [done|]. unfold parse. repeat (destruct (_ =? _); [intros [=]; lia|]). done.
  - intros r l m b r' m' rest. destruct (cut _ l) as [[a b']|] eqn:Hc; intros [= <- <- <- <-]; rewrite length_app.
    + apply cut_length in Hc. lia.
    + cbn. split; [lia|done].
  - done.
  - intros [n last] l m b r' m' rest. cbn. destruct (Nat.leb_spec n (length l)); intros [= <- <- <- <-]; cbn;
      rewrite length_app, ?length_take, ?length_drop; lia.
  - intros r l b r' rest. destruct (cut _ l) as [[a b']|] eqn:Hc; intros [= <- <- <-]; [|split; [cbn; lia|done]].
    apply cut_length in Hc. lia.
  - intros [n|u] l b r' rest.
    + destruct (n <=? length l)%nat; intros [= _ _ <-]; rewrite ?length_drop; cbn; lia.
    + destruct (cut _ l) as [[a b']|] eqn:Hc; intros [= _ _ <-]; [apply cut_length in Hc|cbn]; lia.
  - intros r l b r' rest. destruct (cut _ l) as [[a b']|] eqn:Hc; intros [= _ _ <-]; [apply cut_length in Hc|cbn]; lia.
Qed.

(** A server of the domain x with the mailboxes a and b and the list l; it takes mail for
    them from anyone, and relays for nobody. *)
Definition directory : Directory := {|
  is_local_domain d := Some (bool_decide (d = str "x"));
  dir_rcpt a := Some (if bool_decide (a = str "l@x") then List [str "b@x"; str "c@y"]
                      else if bool_decide (a ∈ [str "a@x"; str "b@x"]) then Mailbox else Invalid) |}.

Definition no_data (id : Z) : DataAnswers := {|
  qm_parse l := Some {| raw_headers := []; raw_body := l; raw_parsed_headers := [] |};
  qm_received_headers := 0; qm_max_received_headers := None; qm_dkim_verify := None; qm_dmarc_verify := None;
  qm_dkim := []; qm_arc_verify := None; qm_arc_sealer := false; qm_arc := DkimNone;
  qm_dmarc := {| dmarc_spf_result := DmarcNone; dmarc_dkim_result := DmarcNone; dmarc_policy := PolicyNone |};
  qm_report_addresses := []; qm_report_forward := true; qm_generated := Some id; qm_now := 100;
  qm_auth_headers := []; qm_milters := []; qm_hooks := []; qm_pipes := []; qm_script := None;
  qm_build := builds;
  qm_add_return_path := None; qm_missing_headers := []; qm_signers := [];
  qm_quotas := {| quota_sender := []; quota_rcpt_domain := []; quota_rcpt := [] |};
  qm_queue_now := 100; qm_queue := fine |}.

Definition answers (id : Z) : Answers := {|
  an_scanner_banned := None;
  an_ehlo := {| ea_valid_labels := true; ea_spf := SpfNone; ea_script := None; ea_milters := []; ea_hooks := [];
    ea_pipelining := None; ea_chunking := None; ea_expn := None; ea_vrfy := None; ea_requiretls := None;
    ea_dsn := None; ea_mechanisms := None; ea_future_release := None; ea_now := 100; ea_deliver_by := None;
    ea_mt_priority := None; ea_max_message_size := None; ea_no_soliciting := None |};
  an_mail := {| ma_iprev := IprevNone; ma_is_allowed := None; ma_script := None; ma_milters := []; ma_hooks := [];
    ma_rewrite := None; ma_requiretls := None; ma_deliver_by := None; ma_mt_priority := None;
    ma_max_message_size := None; ma_future_release := None; ma_now := 100; ma_dsn := None; ma_throttle := true;
    ma_spf := SpfNone; ma_params := {| rp_errors_max := None; rp_max_recipients := None; rp_dsn := None;
                                       rp_max_message_size := None |} |};
  an_rcpt := {| ra_script := None; ra_has_rewrite := false; ra_milter_on_stage := false; ra_milters := [];
    ra_hooks := []; ra_rewrite := None; ra_directory := Some directory; ra_relay := None; ra_throttle := true |};
  an_auth := {| au_mechanisms := Some 1; au_authenticate _ := Err AuthFailed; au_expn := None; au_vrfy := None;
    au_must_match_sender := None |};
  an_vrfy := {| va_has_directory := false; va_values := Ok [] |};
  an_max_messages := None; an_data := no_data id |}.

Definition connect : ConnectAnswers := {|
  ca_params := {| sp_transfer_limit := Some 1000; sp_duration := None; sp_spf_ehlo := None;
    sp_spf_mail_from := None; sp_iprev := None; sp_ehlo_require := None; sp_reject_non_fqdn := None;
    sp_directory := true; sp_auth_require := None; sp_errors_max := None; sp_must_match_sender := None;
    sp_expn := None; sp_vrfy := None |};
  ca_script := None; ca_milters := []; ca_hooks := []; ca_hostname := Some (str "mx"); ca_greeting := None |}.

(** A session at the time 50 that starts at 0. *)
Definition fresh : Session (DB := MapStore.DB) := session_new 0 Smtp true false None server0.
Definition says (answers : nat → Answers) (l : string) (n : nat) : list ConnStep :=
  Receive 50 (str l) :: (OneTurn ∘ answers <$> seq 0 n).
Definition numbered (id : Z) (k : nat) : Answers := answers (id + Z.of_nat k).

Definition lf : string := String (Ascii.ascii_of_nat 10) EmptyString.
Definition run (steps : list ConnStep) : Phase * Session (DB := MapStore.DB) :=
  conn_run coin no_hash 0 key_hash (λ _, str "250 mx") (Accept true connect :: steps) (Opening, fresh).

(** What the client sees, and the messages accepted. *)
Definition seen (c : Phase * Session (DB := MapStore.DB)) : list bytes := drop 1 (output c.2).
Definition mails (c : Phase * Session (DB := MapStore.DB)) : list (Z * bytes * list bytes) :=
  (λ x, (entry_id x, return_path (ac_message x), address <$> recipients (ac_message x))) <$> accepted c.2.

Definition hello : string := "Eh.z" ++ lf ++ "Ms@y" ++ lf ++ "Ra@x" ++ lf ++ "Rl@x" ++ lf ++ "Rz@y" ++ lf ++ "D" ++ lf ++ "hi.".

Definition limits : Limits := {|
  lim_rcpt_errors := 10; lim_messages := 10; lim_size := 25 * 1024 * 1024; lim_hold := 86400;
  lim_auth := false; lim_bytes := 1000 |}.

Lemma limits_config : config_ok limits.
Proof. by repeat split. Qed.

Lemma connect_fine np : connect_ok limits np connect.
Proof. by split. Qed.

Lemma answers_fine np id : fits 64 id → step_ok (λ _, True) limits np (OneTurn (answers id)).
Proof.
  intros Hid. assert (∀ i, domain_answers_wf (lim_hold limits) (ba_domain (qm_build (no_data id)) i)) as Hd.
  { intros i. split; cbn; [a_word|by split..]. }
  split.
  - split; [done..|]. intros _. split; try done; try (by eexists); try exact Hd.
    intros v Hv. by apply not_elem_of_nil in Hv.
  - split; [done|cbn; a_word|exact Hd].
Qed.

Lemma says_fine np id l n : 0 ≤ id → id + Z.of_nat n < 1000 → Forall (step_ok (λ _, True) limits np) (says (numbered id) l n).
Proof.
  intros H0 Hn. apply Forall_cons_2; [done|]. apply Forall_fmap, Forall_seq. intros k [_ Hk]. apply answers_fine.
  unfold fits. split; [lia|]. change (2 ^ 64) with 18446744073709551616. lia.
Qed.

Definition dialogue : list ConnStep := Accept true connect :: says (numbered 7) hello 8.

Lemma dialogue_fine np : Forall (step_ok (λ _, True) limits np) dialogue.
Proof. apply Forall_cons_2; [apply connect_fine|by apply says_fine]. Qed.

(** The dialogue: the list l has a member outside of the domain, and z@y is not relayed. *)
Lemma dialogue_seen :
  let c := run (says (numbered 7) hello 8) in
  c.1 = Commands false ∧
  seen c = [str "250 mx"; line (str "250 2.1.0 OK"); line (str "250 2.1.5 OK"); line (str "250 2.1.5 OK");
            line (str "550 5.1.2 Relay not allowed."); line (str "354 Start mail input; end with <CRLF>.<CRLF>");
            MESSAGE_QUEUED] ∧
  mails c = [(13, str "s@y", [str "a@x"; str "b@x"; str "c@y"])].
Proof. by vm_compute. Qed.

Lemma session_bounds_witness :
  let c := conn_run coin no_hash 0 key_hash (λ _, str "250 mx") dialogue (Opening, fresh) in
  c.1 = Commands false ∧
  run_bytes coin no_hash 0 key_hash (λ _, str "250 mx") dialogue (Opening, fresh) + bytes_left (data c.2) = 1000.
Proof.
  split; [by vm_compute|].
  pose proof (session_bounds coin no_hash 0 key_hash (λ _, str "250 mx") limits dialogue 0 Smtp true false None server0
    limits_config (dialogue_fine false)) as Hb. cbv zeta in Hb. fold fresh in Hb.
  assert ((conn_run coin no_hash 0 key_hash (λ _, str "250 mx") dialogue (Opening, fresh)).1 = Commands false) as Hph
    by (by vm_compute).
  destruct (conn_run _ _ _ _ _ _ _) as [ph s]. cbn [fst snd] in *. subst ph. by destruct Hb as [? _].
Defined.

Lemma recipients_vouched_witness :
  let c := conn_run coin no_hash 0 key_hash (λ _, str "250 mx") dialogue (Opening, fresh) in
  length (accepted c.2) = 1%nat ∧
  ∀ x, x ∈ accepted c.2 →
    Forall (rcpt_vouched (λ a, OneTurn a ∈ dialogue) (ac_message x)) (recipients (ac_message x)).
Proof.
  split; [by vm_compute|]. intros x Hx.
  destruct (recipients_vouched coin no_hash 0 key_hash (λ _, str "250 mx") limits dialogue 0 Smtp true false None server0
    limits_config (dialogue_fine false)) as [Hall _]. apply (Hall x Hx).
Defined.

Lemma session_no_panic_witness :
  (conn_run coin no_hash 0 key_hash (λ _, str "250 mx") dialogue (Opening, fresh)).1 ≠ Crashed.
Proof.
  apply (session_no_panic coin no_hash 0 key_hash (λ _, str "250 mx") limits dialogue 0 Smtp true false None server0
    limits_config (dialogue_fine true)). by vm_compute.
Defined.

(** The session when the message is to be queued. *)
Definition at_data : Session (DB := MapStore.DB) :=
  (run (says (numbered 7) hello 6)).2 <| data ::= λ d, d <| sd_message := str "hi" |> |>.


Lemma connection_ends_witness :
  ∃ r s', handle coin no_hash 0 key_hash (λ _, str "250 mx") true connect
    [ConnRead 50 (numbered 7) (str hello); ConnRead 60 (numbered 30) (str ("S" ++ lf))] (Some None)
    [ConnRead 70 (numbered 50) (str ("Q" ++ lf))] fresh = Some (r, s').
Proof.
  destruct (connection_ends coin no_hash 0 key_hash (λ _, str "250 mx") true connect
    [ConnRead 50 (numbered 7) (str hello); ConnRead 60 (numbered 30) (str ("S" ++ lf))] (Some None)
    [ConnRead 70 (numbered 50) (str ("Q" ++ lf))] fresh) as (r & s' & _ & _ & _ & Hrun & _).
  by exists r, s'.
Defined.

(** A connection and two workers: the mailboxes take the message, the other domain never
    answers. *)
Definition system_steps : list SysStep :=
  SysConnect 0 Smtp true false None :: (SysConn 0 <$> dialogue) ++
  (SysWorker <$> [run_at (task_at 100 120 (λ i, if (i =? 0)%nat then session 250 (λ _, 250) 250 else AtFailed false (Io [])))
                    (ev 100 13 0);
                  run_at (task_at 800 130 (λ _, AtFailed false (Io []))) (ev 160 13 0)]).

Lemma system_steps_ok : Forall (sys_step_ok (λ _, True) (λ _, limits)) system_steps.
Proof.
  apply Forall_cons_2; [done|]. apply Forall_app. split; [apply Forall_fmap, dialogue_fine|].
  assert (∀ a e, task_ok a → fits 64 (ev_due e) → fits 64 (ev_queue_id e) → run_ok (run_at a e)) as Hrun by done.
  apply Forall_cons_2; [|apply Forall_cons_2; [|apply Forall_nil_2]]; (split; [|done]);
    (apply Hrun; [apply task_at_ok; [a_word..|]|a_word..]); by intros [|i].
Qed.


(** *** Defects *)

(** An EHLO that a script refuses in a transaction drops the sender and keeps the
    recipients; DATA is then allowed, and the end of the message panics. *)
Definition refusing (k : nat) : Answers :=
  if (k =? 3)%nat
  then (numbered 7 k) <| an_ehlo ::= λ e, e <| ea_script := Some (ScriptReject (line (str "550 no"))) |> |>
  else numbered 7 k.

Lemma refused_ehlo_crashes :
  let c := run (says refusing ("Eh.z" ++ lf ++ "Ms@y" ++ lf ++ "Ra@x" ++ lf ++ "Ei.z" ++ lf ++ "D" ++ lf ++ "hi.") 7) in
  c.1 = Crashed ∧
  seen c = [str "250 mx"; line (str "250 2.1.0 OK"); line (str "250 2.1.5 OK"); line (str "550 no");
            line (str "354 Start mail input; end with <CRLF>.<CRLF>")].
Proof. by vm_compute. Qed.

(** A chunk over the size limit is refused and dropped, and the last chunk is then
    accepted as the whole message. *)
Definition small (k : nat) : Answers :=
  (numbered 7 k) <| an_mail ::= λ m, m <| ma_params ::= λ p, p <| rp_max_message_size := Some 5 |> |> |>.

Lemma refused_chunk_forgotten :
  let c := run (says small ("Eh.z" ++ lf ++ "Ms@y" ++ lf ++ "Ra@x" ++ lf ++ "B--------" ++ lf ++ "12345678" ++
                            "L--" ++ lf ++ "90") 9) in
  seen c = [str "250 mx"; line (str "250 2.1.0 OK"); line (str "250 2.1.5 OK");
            line (str "552 5.3.4 Message too big for system."); MESSAGE_QUEUED] ∧
  snd <$> map_to_list (blobs (server c.2)) = [line (str "Return-Path: <s@y>") ++ str "90"].
Proof. by vm_compute. Qed.

(** A hook that asks to quarantine a message has it thrown away, with a reply that says
    it was queued. *)
Definition quarantining (k : nat) : Answers :=
  (numbered 7 k) <| an_data ::= λ d, d <| qm_hooks :=
    [{| ho_runs := true; ho_tempfail_on_error := true;
        ho_answer := Some {| hk_action := HookQuarantine; hk_response := None; hk_modifications := [] |} |}] |> |>.

Lemma quarantine_discards :
  let c := run (says quarantining hello 8) in last (seen c) = Some MESSAGE_QUEUED ∧ mails c = [].
Proof. by vm_compute. Qed.

(** A login inside a transaction: the sender of MAIL is not compared with the addresses
    of the account, and the message counts as one of an authenticated session. *)
Definition authenticating (k : nat) : Answers :=
  (numbered 7 k) <| an_auth ::= λ a, a <| au_authenticate := λ _, Ok {| at_name := str "a"; at_emails := [str "a@x"] |} |> |>.
Definition nul : string := String (Ascii.ascii_of_nat 0) EmptyString.

Lemma auth_in_transaction :
  let c := run (says authenticating ("Eh.z" ++ lf ++ "Ms@y" ++ lf ++ "Rb@x" ++ lf ++
                                     "A" ++ nul ++ "a" ++ nul ++ "p" ++ lf ++ "D" ++ lf ++ "hi.") 8) in
  auth_match_sender (SmtpSession.params c.2) = true ∧ mails c = [(12, str "s@y", [str "b@x"])] ∧
  ac_source <$> accepted c.2 = [Authenticated] ∧
  seen (run (says authenticating ("Eh.z" ++ lf ++ "A" ++ nul ++ "a" ++ nul ++ "p" ++ lf ++ "Ms@y" ++ lf) 4))
  = [str "250 mx"; line (str "235 2.7.0 Authentication succeeded.");
     line (str "501 5.5.4 You are not allowed to send from this address.")].
Proof. by vm_compute. Qed.
End ServerExample.
