(* ===== verification/ExprValue.v ===== *)
(** * Values of the expression language

    crates/common/src/expr: the values of expressions (mod.rs), their operators,
    comparisons and conversions (eval.rs), and the functions that need no service
    (functions/array.rs, email.rs, misc.rs, text.rs).  A string is the list of its
    characters.  Floating point, the tables of Unicode, IP addresses and regular
    expressions are parameters. *)

From stdpp Require Import sorting.
From S2P Require Import Prelude Utf8 Decimal.

#[local] Open Scope chr_scope.

(** ** What comes from elsewhere *)

Class ExprBase := {
  f64 : Type;
  f_of_int : Z → f64;
  f_add : f64 → f64 → f64;
  f_sub : f64 → f64 → f64;
  f_mul : f64 → f64 → f64;
  f_div : f64 → f64 → f64;
  f_neg : f64 → f64;
  f_zero : f64;
  f_cmp : f64 → f64 → option comparison;
  f_parse : list Z → option f64;
  f_print : f64 → list Z;
  f_to_i64 : f64 → Z;
  f_to_usize : f64 → Z;
  u_lowercase : list Z → list Z;
  u_uppercase : list Z → list Z;
  u_is_alphabetic : Z → bool;
  u_is_uppercase : Z → bool;
  u_is_lowercase : Z → bool;
  u_is_numeric : Z → bool;
  u_is_whitespace : Z → bool;
  ip_parse : list Z → option bool;
  ip_reverse_name : list Z → list Z;
  Regex : Type;
  regex_new : list Z → option Regex;
  regex_captures : Regex → list Z → option (list (option (list Z)));
}.

(** ** Signed words *)

Definition i64_min : Z := - 2 ^ 63.
Definition i64_max : Z := 2 ^ 63 - 1.
Definition is_i64 (z : Z) : Prop := i64_min ≤ z ≤ i64_max.

(** [saturating_add] and the like; [as i64] *)
Definition saturate (z : Z) : Z := Z.max i64_min (Z.min i64_max z).
Definition as_i64 (z : Z) : Z := (z - i64_min) mod 2 ^ 64 + i64_min.

(** [str::parse::<i64>] and [i64::to_string] *)
Definition parse_i64 (l : list Z) : option Z :=
  match l with
  | [] => None
  | b :: rest =>
      let signed neg l :=
        match l with
        | [] => None
        | _ => v ← dec_digits 64 0 l;
               let v := if neg : bool then - v else v in
               if (i64_min <=? v) && (v <=? i64_max) then Some v else None
        end in
      if b =? "-" then signed true rest
      else if b =? "+" then signed false rest
      else signed false l
  end.

Definition print_i64 (n : Z) : list Z := if n <? 0 then "-" :: uint_to_string (- n) else uint_to_string n.

Section Values.
Context `{ExprBase}.

Inductive Value :=
| VString (s : list Z)
| VInteger (n : Z)
| VFloat (f : f64)
| VArray (l : list Value).

Definition value_default : Value := VString [].

Definition of_bool (b : bool) : Value := VInteger (if b then 1 else 0).
Definition of_usize (n : nat) : Value := VInteger (as_i64 (Z.of_nat n)).

(** ** Conversions *)

Definition f_is_zero (f : f64) : bool := match f_cmp f f_zero with Some Eq => true | _ => false end.

Definition to_bool (v : Value) : bool :=
  match v with
  | VFloat f => negb (f_is_zero f)
  | VInteger n => negb (n =? 0)
  | VString s => negb (bool_decide (s = []))
  | VArray a => match a with [] => false | _ => true end
  end.

Definition is_empty (v : Value) : bool := match v with VString [] => true | _ => false end.

(** [to_string] and [into_string]: the scalars of an array on lines of their own. *)
Definition join_lines (l : list Value) : list Z :=
  foldl (λ result item,
    (if bool_decide (result = []) then result else result ++ [13; 10]) ++
    match item with
    | VString s => s
    | VInteger n => print_i64 n
    | VFloat f => f_print f
    | VArray _ => []
    end) [] l.

Definition to_string (v : Value) : list Z :=
  match v with
  | VString s => s
  | VInteger n => print_i64 n
  | VFloat f => f_print f
  | VArray l => join_lines l
  end.

Definition parse_number (v : Value) : Value :=
  match v with
  | VString (c :: s) =>
      match parse_i64 (c :: s) with
      | Some n => VInteger n
      | None => match f_parse (c :: s) with Some f => VFloat f | None => VInteger 0 end
      end
  | VString [] => VInteger 0
  | VInteger n => VInteger n
  | VFloat f => VFloat f
  | VArray l => of_bool (match l with [] => true | _ => false end)
  end.

Definition to_integer (v : Value) : option Z :=
  match v with
  | VInteger n => Some n
  | VFloat f => Some (f_to_i64 f)
  | VString (c :: s) => parse_i64 (c :: s)
  | _ => None
  end.

Definition to_usize (v : Value) : option Z :=
  match v with
  | VInteger n => Some (wrap 64 n)
  | VFloat f => Some (f_to_usize f)
  | VString (c :: s) => parse_uint 64 (c :: s)
  | _ => None
  end.

Definition into_array (v : Value) : list Value :=
  match v with
  | VArray l => l
  | v => if is_empty v then [] else [v]
  end.

(** ** Comparison *)

(** The comparison of two numbers *)
Definition num_cmp (a b : Value) : option comparison :=
  match a, b with
  | VInteger a, VInteger b => Some (a ?= b)
  | VFloat a, VFloat b => f_cmp a b
  | VInteger a, VFloat b => f_cmp (f_of_int a) b
  | VFloat a, VInteger b => f_cmp a (f_of_int b)
  | _, _ => None
  end.

Definition is_eq (c : option comparison) : bool := match c with Some Eq => true | _ => false end.

Definition num_eqb (a b : Value) : bool :=
  match a, b with
  | VInteger a, VInteger b => a =? b
  | VFloat a, VFloat b => is_eq (f_cmp a b)
  | VInteger a, VFloat b | VFloat b, VInteger a => is_eq (f_cmp (f_of_int a) b)
  | _, _ => false
  end.

(** [PartialEq] *)
Fixpoint var_eqb (x y : Value) : bool :=
  match x, y with
  | VString a, VString b => bool_decide (a = b)
  | VString _, (VInteger _ | VFloat _) => num_eqb (parse_number x) y
  | (VInteger _ | VFloat _), VString _ => num_eqb x (parse_number y)
  | (VInteger _ | VFloat _), (VInteger _ | VFloat _) => num_eqb x y
  | VArray a, VArray b =>
      (fix all (a b : list Value) : bool :=
         match a, b with
         | [], [] => true
         | x :: a, y :: b => var_eqb x y && all a b
         | _, _ => false
         end) a b
  | _, _ => false
  end.

(** [PartialOrd]; strings by their bytes, which is by their characters *)
Fixpoint var_cmp (x y : Value) : option comparison :=
  match x, y with
  | VString a, VString b => Some (bytes_compare a b)
  | VString _, (VInteger _ | VFloat _) => num_cmp (parse_number x) y
  | (VInteger _ | VFloat _), VString _ => num_cmp x (parse_number y)
  | (VInteger _ | VFloat _), (VInteger _ | VFloat _) => num_cmp x y
  | VArray a, VArray b =>
      (fix lex (a b : list Value) : option comparison :=
         match a, b with
         | [], [] => Some Eq
         | [], _ :: _ => Some Lt
         | _ :: _, [] => Some Gt
         | x :: a, y :: b => match var_cmp x y with Some Eq => lex a b | c => c end
         end) a b
  | (VArray _ | VString _), _ => Some Gt
  | _, VArray _ => Some Lt
  end.

(** [Ord] *)
Definition var_ord (x y : Value) : comparison := default Gt (var_cmp x y).

(** ** Operators *)

Definition op_add (x y : Value) : Value :=
  match x, y with
  | VInteger a, VInteger b => VInteger (saturate (a + b))
  | VFloat a, VFloat b => VFloat (f_add a b)
  | VInteger i, VFloat f | VFloat f, VInteger i => VFloat (f_add (f_of_int i) f)
  | VArray a, VArray b => VArray (a ++ b)
  | VArray a, b => VArray (a ++ [b])
  | a, VArray b => VArray (a :: b)
  | VString a, b => if bool_decide (a = []) then b else VString (a ++ to_string b)
  | a, VString b => if bool_decide (b = []) then a else VString (to_string a ++ b)
  end.

(** The other operations read what is no number as one, and so work on two numbers. *)
Definition op_subtract (x y : Value) : Value :=
  match x, y with
  | VArray a, b | b, VArray a => VArray (filter (λ v, var_eqb v b = false) a)
  | _, _ =>
      match parse_number x, parse_number y with
      | VInteger a, VInteger b => VInteger (saturate (a - b))
      | VFloat a, VFloat b => VFloat (f_sub a b)
      | VInteger a, VFloat b => VFloat (f_sub (f_of_int a) b)
      | VFloat a, VInteger b => VFloat (f_sub a (f_of_int b))
      | _, _ => value_default
      end
  end.

Definition op_multiply (x y : Value) : Value :=
  match parse_number x, parse_number y with
  | VInteger a, VInteger b => VInteger (saturate (a * b))
  | VFloat a, VFloat b => VFloat (f_mul a b)
  | VInteger i, VFloat f | VFloat f, VInteger i => VFloat (f_mul (f_of_int i) f)
  | _, _ => value_default
  end.

Definition op_divide (x y : Value) : Value :=
  match parse_number x, parse_number y with
  | VInteger a, VInteger b => VFloat (if b =? 0 then f_zero else f_div (f_of_int a) (f_of_int b))
  | VFloat a, VFloat b => VFloat (if f_is_zero b then f_zero else f_div a b)
  | VInteger a, VFloat b => VFloat (if f_is_zero b then f_zero else f_div (f_of_int a) b)
  | VFloat a, VInteger b => VFloat (if b =? 0 then f_zero else f_div a (f_of_int b))
  | _, _ => value_default
  end.

Definition op_minus (x : Value) : Value :=
  match parse_number x with
  | VInteger n => VInteger (as_i64 (- n))
  | VFloat f => VFloat (f_neg f)
  | v => v
  end.

Definition op_and (x y : Value) : Value := of_bool (to_bool x && to_bool y).
Definition op_or (x y : Value) : Value := of_bool (to_bool x || to_bool y).
Definition op_xor (x y : Value) : Value := of_bool (xorb (to_bool x) (to_bool y)).
Definition op_eq (x y : Value) : Value := of_bool (var_eqb x y).
Definition op_ne (x y : Value) : Value := of_bool (negb (var_eqb x y)).
Definition op_not (x : Value) : Value := of_bool (negb (to_bool x)).

Definition op_lt (x y : Value) : Value :=
  of_bool (match var_cmp x y with Some Lt => true | _ => false end).
Definition op_le (x y : Value) : Value :=
  of_bool (match var_cmp x y with Some (Lt | Eq) => true | _ => false end).
Definition op_gt (x y : Value) : Value :=
  of_bool (match var_cmp x y with Some Gt => true | _ => false end).
Definition op_ge (x y : Value) : Value :=
  of_bool (match var_cmp x y with Some (Gt | Eq) => true | _ => false end).
End Values.
