(* ===== verification/ExprFunctions.v ===== *)
(** * Functions of the expression language

    crates/common/src/expr/functions: the functions that are computed in place
    (array.rs, email.rs, misc.rs, text.rs) and their table (mod.rs).  A function
    takes the list of its arguments; [None] is the panic of an index past its end. *)

From S2P Require Import Prelude Utf8 Decimal ExprValue.

#[local] Open Scope chr_scope.

(** ** Searching in strings *)

(** [split_once]: what comes before the first occurrence, and after it *)
Fixpoint split_once (pat s : list Z) : option (list Z * list Z) :=
  if bool_decide (take (length pat) s = pat) then Some ([], drop (length pat) s)
  else match s with
       | [] => None
       | c :: s => '(a, b) ← split_once pat s; Some (c :: a, b)
       end.

Definition rsplit_once (pat s : list Z) : option (list Z * list Z) :=
  '(a, b) ← split_once (reverse pat) (reverse s); Some (reverse b, reverse a).

(** [split]: an empty pattern matches before every character and at the end. *)
Fixpoint split_loop (fuel : nat) (pat s : list Z) : list (list Z) :=
  match fuel with
  | O => [s]
  | S fuel => match split_once pat s with
              | Some (a, b) => a :: split_loop fuel pat b
              | None => [s]
              end
  end.

Definition split (pat s : list Z) : list (list Z) :=
  if bool_decide (pat = []) then [] :: map (λ c, [c]) s ++ [[]]
  else split_loop (length s) pat s.

Definition rsplit (pat s : list Z) : list (list Z) := map reverse (split (reverse pat) (reverse s)).

Definition contains_str (s pat : list Z) : bool := bool_decide (is_Some (split_once pat s)).

Definition starts_with (s pat : list Z) : bool := bool_decide (take (length pat) s = pat).
Definition ends_with (s pat : list Z) : bool := starts_with (reverse s) (reverse pat).

Definition eq_ignore_ascii_case (a b : list Z) : bool := bool_decide (map to_lower a = map to_lower b).

(** [lines]: a line ends with LF or CR LF, the last one perhaps with neither. *)
Definition strip_cr (l : list Z) : list Z :=
  match reverse l with 13 :: r => reverse r | _ => l end.

Definition lines (s : list Z) : list (list Z) :=
  let parts := split [10] s in
  match reverse parts with
  | [] :: r => map strip_cr (reverse r)
  | last :: r => map strip_cr (reverse r) ++ [last]
  | [] => []
  end.

(** [skip] and [take] of a [usize] *)
Definition skip {A} (n : Z) (l : list A) : list A :=
  if Z.of_nat (length l) <=? n then [] else drop (Z.to_nat n) l.
Definition take_z {A} (n : Z) (l : list A) : list A :=
  if Z.of_nat (length l) <=? n then l else take (Z.to_nat n) l.

Fixpoint drop_while {A} (f : A → bool) (l : list A) : list A :=
  match l with [] => [] | c :: l' => if f c then drop_while f l' else l end.

(** [sort_unstable_by], as the library sorts up to twenty elements: each one is moved
    left past the elements it is less than.  The order it gives to longer lists is the
    same up to elements that compare equal. *)
Fixpoint insert_tail {A} (lt : A → A → bool) (x : A) (r : list A) : list A :=
  match r with
  | y :: r' => if lt x y then y :: insert_tail lt x r' else x :: r
  | [] => [x]
  end.
Definition sort_unstable_by {A} (cmp : A → A → comparison) (l : list A) : list A :=
  reverse (foldl (λ r x, insert_tail (λ a b, match cmp a b with Lt => true | _ => false end) x r) [] l).

Section Functions.
Context `{ExprBase}.

Definition trim_start (s : list Z) : list Z := drop_while u_is_whitespace s.
Definition trim_end (s : list Z) : list Z := reverse (drop_while u_is_whitespace (reverse s)).
Definition trim (s : list Z) : list Z := trim_end (trim_start s).

(** [split_whitespace] *)
Fixpoint words (cur : list Z) (s : list Z) : list (list Z) :=
  let flush := if bool_decide (cur = []) then [] else [reverse cur] in
  match s with
  | [] => flush
  | c :: s => if u_is_whitespace c then flush ++ words [] s else words (c :: cur) s
  end.

(** [is_alphanumeric] *)
Definition is_alphanumeric (c : Z) : bool := u_is_alphabetic c || u_is_numeric c.

Definition arg (v : list Value) (i : nat) (k : Value → Value) : option Value := k <$> v !! i.
Definition arg2 (v : list Value) (k : Value → Value → Value) : option Value :=
  a ← v !! 0%nat; b ← v !! 1%nat; Some (k a b).
Definition arg3 (v : list Value) (k : Value → Value → Value → Value) : option Value :=
  a ← v !! 0%nat; b ← v !! 1%nat; c ← v !! 2%nat; Some (k a b c).

Definition transform (f : list Z → Value) (v : Value) : Value :=
  match v with
  | VString s => f s
  | VArray l => VArray (map (λ v, f (to_string v)) l)
  | v => f (to_string v)
  end.

Definition mem (x : Value) (l : list Value) : bool := existsb (λ y, var_eqb y x) l.

(** ** array.rs *)

Definition fn_count (v : list Value) : option Value :=
  arg v 0 (λ v, match v with
                | VArray a => of_usize (length a)
                | v => of_usize (if is_empty v then 0 else 1)
                end).

Definition fn_sort (v : list Value) : option Value :=
  arg2 v (λ arr asc,
    VArray (if to_bool asc then sort_unstable_by (λ a b, var_ord b a) (into_array arr)
            else sort_unstable_by var_ord (into_array arr))).

Definition fn_dedup (v : list Value) : option Value :=
  arg v 0 (λ v, VArray (foldl (λ result item, if mem item result then result else result ++ [item])
                          [] (into_array v))).

Definition fn_is_intersect (v : list Value) : option Value :=
  arg2 v (λ x y, of_bool (match x, y with
                          | VArray a, VArray b => existsb (λ x, mem x b) a
                          | VArray a, item | item, VArray a => mem item a
                          | _, _ => false
                          end)).

Definition fn_winnow (v : list Value) : option Value :=
  arg v 0 (λ v, match v with
                | VArray a => VArray (filter (λ i, is_empty i = false) a)
                | v => v
                end).

(** ** email.rs *)

Record EmailScan := mkScan {
  last_ch : Z; in_quote : bool; at_count : Z; dot_count : Z; lp_len : Z; value : Z;
}.

Definition email_char (c : Z) : bool :=
  is_digit c || is_lower c || is_upper c || (127 <=? c) ||
  bool_decide (c ∈ ["!"; "#"; "$"; "%"; "&"; "'"; "*"; "+"; "-"; "/"; "="; "?"; "^"; "_";
                    "`"; "{"; "|"; "}"; "~"]).

(** One byte; [None] refuses the address. *)
Definition email_step (s : EmailScan) (ch : Z) : option EmailScan :=
  let '(mkScan last_ch in_quote at_count dot_count lp_len value) := s in
  if email_char ch then Some (mkScan ch in_quote at_count dot_count lp_len (value + 1))
  else if (ch =? ".") && negb in_quote then
    if negb (last_ch =? ".") && negb (last_ch =? "@") && negb (value =? 0) then
      Some (mkScan ch in_quote at_count (if at_count =? 1 then dot_count + 1 else dot_count)
              lp_len (value + 1))
    else None
  else if (ch =? "@") && negb in_quote then Some (mkScan ch in_quote (at_count + 1) dot_count value 0)
  else if bool_decide (ch ∈ [">"; ":"; ","; " "]) && in_quote then
    Some (mkScan ch in_quote at_count dot_count lp_len (value + 1))
  else if (ch =? 34) && (negb in_quote || negb (last_ch =? "\")) then
    Some (mkScan ch (negb in_quote) at_count dot_count lp_len value)
  else if (ch =? "\") && in_quote && negb (last_ch =? "\") then
    Some (mkScan ch in_quote at_count dot_count lp_len value)
  else if in_quote then Some (mkScan ch in_quote at_count dot_count lp_len value)
  else None.

Fixpoint email_scan (s : EmailScan) (l : bytes) : option EmailScan :=
  match l with
  | [] => Some s
  | ch :: l => s ← email_step s ch; email_scan s l
  end.

Definition is_email (l : bytes) : bool :=
  match email_scan (mkScan 0 false 0 0 0 0) l with
  | Some s => (at_count s =? 1) && (0 <? dot_count s) && (0 <? lp_len s) && (0 <? value s)
  | None => false
  end.

Definition fn_is_email (v : list Value) : option Value :=
  arg v 0 (λ v, of_bool (is_email (str_bytes (to_string v)))).

Definition fn_email_part (v : list Value) : option Value :=
  arg2 v (λ v part, transform (λ s,
    match rsplit_once ["@"] s with
    | Some (u, d) =>
        if bool_decide (to_string part = str "local") then VString (trim u)
        else if bool_decide (to_string part = str "domain") then VString (trim d)
        else value_default
    | None => value_default
    end) v).

(** ** misc.rs *)

Definition fn_is_empty (v : list Value) : option Value :=
  arg v 0 (λ v, of_bool (match v with
                         | VString s => bool_decide (s = [])
                         | VInteger _ | VFloat _ => false
                         | VArray a => match a with [] => true | _ => false end
                         end)).

Definition fn_is_number (v : list Value) : option Value :=
  arg v 0 (λ v, of_bool (match v with VInteger _ | VFloat _ => true | _ => false end)).

(** [ip_parse] tells an address of version 4 ([true]) from one of version 6. *)
Definition fn_is_ip_addr (v : list Value) : option Value :=
  arg v 0 (λ v, of_bool (match ip_parse (to_string v) with Some _ => true | None => false end)).
Definition fn_is_ipv4_addr (v : list Value) : option Value :=
  arg v 0 (λ v, of_bool (match ip_parse (to_string v) with Some v4 => v4 | None => false end)).
Definition fn_is_ipv6_addr (v : list Value) : option Value :=
  arg v 0 (λ v, of_bool (match ip_parse (to_string v) with Some v4 => negb v4 | None => false end)).
Definition fn_ip_reverse_name (v : list Value) : option Value :=
  arg v 0 (λ v, VString (match ip_parse (to_string v) with
                         | Some _ => ip_reverse_name (to_string v)
                         | None => []
                         end)).

(** ** text.rs *)

Definition fn_trim (v : list Value) : option Value := arg v 0 (transform (λ s, VString (trim s))).
Definition fn_trim_end (v : list Value) : option Value := arg v 0 (transform (λ s, VString (trim_end s))).
Definition fn_trim_start (v : list Value) : option Value :=
  arg v 0 (transform (λ s, VString (trim_start s))).

Definition fn_len (v : list Value) : option Value :=
  arg v 0 (λ v, match v with
                | VString s => of_usize (length (str_bytes s))
                | VArray a => of_usize (length a)
                | v => of_usize (length (str_bytes (to_string v)))
                end).

Definition fn_to_lowercase (v : list Value) : option Value :=
  arg v 0 (transform (λ s, VString (u_lowercase s))).
Definition fn_to_uppercase (v : list Value) : option Value :=
  arg v 0 (transform (λ s, VString (u_uppercase s))).

Definition fn_is_uppercase (v : list Value) : option Value :=
  arg v 0 (transform (λ s, of_bool (forallb (λ c, negb (u_is_alphabetic c) || u_is_uppercase c) s))).
Definition fn_is_lowercase (v : list Value) : option Value :=
  arg v 0 (transform (λ s, of_bool (forallb (λ c, negb (u_is_alphabetic c) || u_is_lowercase c) s))).
Definition fn_has_digits (v : list Value) : option Value :=
  arg v 0 (transform (λ s, of_bool (existsb is_digit s))).

Definition fn_split_words (v : list Value) : option Value :=
  arg v 0 (λ v, VArray (map VString
    (filter (λ w, forallb is_alphanumeric w = true) (words [] (to_string v))))).

Definition count_chars (f : Z → bool) (v : Value) : Value :=
  of_usize (length (filter (λ c, f c = true) (to_string v))).
Definition fn_count_spaces (v : list Value) : option Value := arg v 0 (count_chars u_is_whitespace).
Definition fn_count_uppercase (v : list Value) : option Value :=
  arg v 0 (count_chars (λ c, u_is_alphabetic c && u_is_uppercase c)).
Definition fn_count_lowercase (v : list Value) : option Value :=
  arg v 0 (count_chars (λ c, u_is_alphabetic c && u_is_lowercase c)).
Definition fn_count_chars (v : list Value) : option Value :=
  arg v 0 (λ v, of_usize (length (to_string v))).

Definition fn_eq_ignore_case (v : list Value) : option Value :=
  arg2 v (λ x y, of_bool (eq_ignore_ascii_case (to_string x) (to_string y))).

Definition fn_contains (v : list Value) : option Value :=
  arg2 v (λ x y, of_bool (match x with
                          | VArray arr => mem y arr
                          | x => contains_str (to_string x) (to_string y)
                          end)).

Definition fn_contains_ignore_case (v : list Value) : option Value :=
  arg2 v (λ x y, of_bool (match x with
    | VString s => contains_str (u_lowercase s) (u_lowercase (to_string y))
    | VArray arr => existsb (λ v, match v with
                                  | VString s => eq_ignore_ascii_case s (to_string y)
                                  | _ => false
                                  end) arr
    | x => contains_str (to_string x) (to_string y)
    end)).

Definition fn_starts_with (v : list Value) : option Value :=
  arg2 v (λ x y, of_bool (starts_with (to_string x) (to_string y))).
Definition fn_ends_with (v : list Value) : option Value :=
  arg2 v (λ x y, of_bool (ends_with (to_string x) (to_string y))).

Definition fn_lines (v : list Value) : option Value :=
  arg v 0 (λ v, match v with VString s => VArray (map VString (lines s)) | v => v end).

Definition fn_substring (v : list Value) : option Value :=
  arg3 v (λ s from len,
    VString (take_z (default 0 (to_usize len)) (skip (default 0 (to_usize from)) (to_string s)))).

Definition fn_strip_prefix (v : list Value) : option Value :=
  arg2 v (λ v prefix, transform (λ s,
    if starts_with s (to_string prefix) then VString (drop (length (to_string prefix)) s)
    else value_default) v).
Definition fn_strip_suffix (v : list Value) : option Value :=
  arg2 v (λ v suffix, transform (λ s,
    if ends_with s (to_string suffix) then VString (take (length s - length (to_string suffix)) s)
    else value_default) v).

Definition fn_split (v : list Value) : option Value :=
  arg2 v (λ x y, VArray (map VString (split (to_string y) (to_string x)))).
Definition fn_rsplit (v : list Value) : option Value :=
  arg2 v (λ x y, VArray (map VString (rsplit (to_string y) (to_string x)))).

(** The loop of [split_n].  A pattern that is not empty is found at most [length s]
    times; an empty one splits nothing off, [num] times. *)
Fixpoint split_n_loop (fuel : nat) (pat : list Z) (num : Z) (s : list Z) : list (list Z) :=
  match fuel with
  | O => [s]
  | S fuel =>
      if num <=? 0 then [s]
      else match split_once pat s with
           | Some (a, b) => a :: split_n_loop fuel pat (num - 1) b
           | None => [s]
           end
  end.
Definition split_n (pat : list Z) (num : Z) (s : list Z) : list (list Z) :=
  if bool_decide (pat = []) then replicate (Z.to_nat num) [] ++ [s]
  else split_n_loop (S (length s)) pat num s.

Definition fn_split_n (v : list Value) : option Value :=
  arg3 v (λ x y n,
    VArray (map VString (split_n (to_string y) (wrap 64 (default 0 (to_integer n))) (to_string x)))).

Definition pair_or_default (o : option (list Z * list Z)) : Value :=
  match o with Some (a, b) => VArray [VString a; VString b] | None => value_default end.
Definition fn_split_once (v : list Value) : option Value :=
  arg2 v (λ x y, pair_or_default (split_once (to_string y) (to_string x))).
Definition fn_rsplit_once (v : list Value) : option Value :=
  arg2 v (λ x y, pair_or_default (rsplit_once (to_string y) (to_string x))).

(** ** mod.rs *)

Definition FUNCTIONS : list (bytes * (list Value → option Value) * Z) := [
  (str "count", fn_count, 1);
  (str "sort", fn_sort, 2);
  (str "dedup", fn_dedup, 1);
  (str "winnow", fn_winnow, 1);
  (str "is_intersect", fn_is_intersect, 2);
  (str "is_email", fn_is_email, 1);
  (str "email_part", fn_email_part, 2);
  (str "is_empty", fn_is_empty, 1);
  (str "is_number", fn_is_number, 1);
  (str "is_ip_addr", fn_is_ip_addr, 1);
  (str "is_ipv4_addr", fn_is_ipv4_addr, 1);
  (str "is_ipv6_addr", fn_is_ipv6_addr, 1);
  (str "ip_reverse_name", fn_ip_reverse_name, 1);
  (str "trim", fn_trim, 1);
  (str "trim_end", fn_trim_end, 1);
  (str "trim_start", fn_trim_start, 1);
  (str "len", fn_len, 1);
  (str "to_lowercase", fn_to_lowercase, 1);
  (str "to_uppercase", fn_to_uppercase, 1);
  (str "is_uppercase", fn_is_uppercase, 1);
  (str "is_lowercase", fn_is_lowercase, 1);
  (str "has_digits", fn_has_digits, 1);
  (str "count_spaces", fn_count_spaces, 1);
  (str "count_uppercase", fn_count_uppercase, 1);
  (str "count_lowercase", fn_count_lowercase, 1);
  (str "count_chars", fn_count_chars, 1);
  (str "contains", fn_contains, 2);
  (str "contains_ignore_case", fn_contains_ignore_case, 2);
  (str "eq_ignore_case", fn_eq_ignore_case, 2);
  (str "starts_with", fn_starts_with, 2);
  (str "ends_with", fn_ends_with, 2);
  (str "lines", fn_lines, 1);
  (str "substring", fn_substring, 3);
  (str "strip_prefix", fn_strip_prefix, 2);
  (str "strip_suffix", fn_strip_suffix, 2);
  (str "split", fn_split, 2);
  (str "rsplit", fn_rsplit, 2);
  (str "split_once", fn_split_once, 2);
  (str "rsplit_once", fn_rsplit_once, 2);
  (str "split_n", fn_split_n, 3);
  (str "split_words", fn_split_words, 1)
].
End Functions.

Definition ASYNC_FUNCTIONS : list (bytes * Z * Z) := [
  (str "is_local_domain", 0, 2);
  (str "is_local_address", 1, 2);
  (str "key_get", 2, 2);
  (str "key_exists", 3, 2);
  (str "key_set", 4, 3);
  (str "counter_incr", 5, 3);
  (str "counter_get", 6, 2);
  (str "dns_query", 8, 2);
  (str "sql_query", 7, 3)
].
