(* ===== verification/Expr.v ===== *)
(** * The expression language: tokenizer, parser, evaluator and if-blocks

    crates/common/src/expr: the tokenizer (tokenizer.rs), the parser to postfix items
    with jumps (parser.rs), the stack machine (eval.rs) and the if-blocks of the
    configuration (if_block.rs).  The functions that ask a service ([eval_fnc] of
    functions/asynch.rs) and the variables of a session are arguments of the
    evaluation. *)

From coqutil Require Import Datatypes.RecordSettersUsingExistingGetters.
From S2P Require Import Prelude Utf8 Decimal ExprValue ExprFunctions.

#[local] Open Scope chr_scope.

(** ** Data: mod.rs *)

Inductive BinaryOperator :=
| Add | Subtract | Multiply | Divide | And | Or | Xor | OpEq | OpNe | OpLt | OpLe | OpGt | OpGe.

Inductive UnaryOperator := Not | Minus.

Definition VARIABLES_MAP : list (bytes * Z) := [
  (str "rcpt", 0); (str "rcpt_domain", 1); (str "sender", 2); (str "sender_domain", 3);
  (str "mx", 4); (str "helo_domain", 5); (str "authenticated_as", 6); (str "listener", 7);
  (str "remote_ip", 8); (str "local_ip", 10); (str "priority", 12); (str "local_port", 11);
  (str "remote_port", 9); (str "protocol", 13); (str "is_tls", 14); (str "recipients", 15);
  (str "retry_num", 16); (str "notify_num", 17); (str "expires_in", 18);
  (str "last_status", 19); (str "last_error", 20); (str "url", 21); (str "url_path", 22);
  (str "headers", 23); (str "method", 24)
].

Definition ALL_VARIABLES : list Z :=
  [0; 1; 2; 3; 4; 5; 6; 7; 8; 9; 10; 11; 12; 13; 14; 16; 17; 18; 19; 20].

(** The errors of the tokenizer and the parser, named by their messages *)
Inductive ParseError :=
| UnmatchedClose | UnmatchedOpen | InvalidCharacter | ExpectedCharacter | UnexpectedEnd
| UnterminatedString | InvalidUtf8 | InvalidRegex | InvalidFloat | InvalidInteger | InvalidVariable
| MismatchedParens | WrongArguments | MissingIndex | WrongMatches | InvalidToken | InvalidExpression
| OutOfFuel | ParserPanic.

(** [Duration::parse_value] (crates/utils/src/config/utils.rs), in milliseconds *)
Definition duration_parse (v : list Z) : option Z :=
  let digits := filter (λ c, is_digit c = true) v in
  let multiplier := map to_lower (filter (λ c, negb (is_digit c) && negb (is_whitespace c) = true) v) in
  m ← (if bool_decide (multiplier = str "d") then Some 86400000
       else if bool_decide (multiplier = str "h") then Some 3600000
       else if bool_decide (multiplier = str "m") then Some 60000
       else if bool_decide (multiplier = str "s") then Some 1000
       else if bool_decide (multiplier = str "ms") || bool_decide (multiplier = []) then Some 1
       else None);
  n ← parse_uint 64 digits;
  if 0 <? n then Some (wrap 64 (n * m)) else None.

Section Expressions.
Context `{ExprBase}.

Inductive Constant :=
| CInteger (n : Z)
| CFloat (f : f64)
| CString (s : list Z).

Definition of_constant (c : Constant) : Value :=
  match c with CInteger n => VInteger n | CFloat f => VFloat f | CString s => VString s end.

Inductive Token :=
| TVariable (v : Z)
| TCapture (c : Z)
| TFunction (name : bytes) (id num_args : Z)
| TConstant (c : Constant)
| TRegex (r : Regex)
| TBinary (op : BinaryOperator)
| TUnary (op : UnaryOperator)
| OpenParen
| CloseParen
| OpenBracket
| CloseBracket
| Comma.

Inductive ExpressionItem :=
| IVariable (v : Z)
| ICapture (c : Z)
| IConstant (c : Constant)
| IBinary (op : BinaryOperator)
| IUnary (op : UnaryOperator)
| IRegex (r : Regex)
| IJmpIf (val : bool) (pos : Z)
| IFunction (id num_args : Z)
| IArrayAccess
| IArrayBuild (n : Z).

Definition TokenMap := gmap bytes Token.

Definition with_variables (variables : list Z) (m : TokenMap) : TokenMap :=
  foldl (λ m '(name, idx), if bool_decide (idx ∈ variables) then <[name := TVariable idx]> m else m)
    m VARIABLES_MAP.
Definition with_all_variables (m : TokenMap) : TokenMap := with_variables ALL_VARIABLES m.
Definition with_variables_map (vars : list (bytes * Z)) (m : TokenMap) : TokenMap :=
  foldl (λ m '(name, idx), <[name := TVariable idx]> m) m vars.
Definition add_constant (name : bytes) (c : Constant) (m : TokenMap) : TokenMap :=
  <[name := TConstant c]> m.
Definition set_constants (consts : list (bytes * Constant)) (m : TokenMap) : TokenMap :=
  foldl (λ m '(name, c), add_constant name c m) m consts.

(** ** Tokenizer: tokenizer.rs *)

Record Tokenizer := mkTokenizer {
  t_iter : bytes;
  t_buf : bytes;
  t_depth : Z;
  t_next_token : list Token;
  t_has_number : bool;
  t_has_dot : bool;
  t_has_alpha : bool;
  t_is_start : bool;
  t_is_eof : bool;
}.

Definition tokenizer_new (expr : bytes) : Tokenizer :=
  mkTokenizer expr [] 0 [] false false false true false.

(** [find_char]: the character, and what follows it *)
Fixpoint find_char (chars : list Z) (it : bytes) : result ParseError (Z * bytes) :=
  match it with
  | [] => Err UnexpectedEnd
  | ch :: it =>
      if is_whitespace ch then find_char chars it
      else if bool_decide (ch ∈ chars) then Ok (ch, it) else Err ExpectedCharacter
  end.

(** The loop of [parse_string]: the bytes of the string, and what follows its end *)
Fixpoint string_loop (stop_ch last_ch : Z) (buf it : bytes) : option (bytes * bytes) :=
  match it with
  | [] => None
  | ch :: it =>
      if negb (last_ch =? "\") then
        if negb (ch =? stop_ch) then string_loop stop_ch ch (buf ++ [ch]) it
        else Some (buf, it)
      else
        let c := if ch =? "n" then 10 else if ch =? "r" then 13 else if ch =? "t" then 9 else ch in
        string_loop stop_ch ch (buf ++ [c]) it
  end.

Definition parse_string (stop_ch : Z) (it : bytes) : result ParseError (list Z * bytes) :=
  match string_loop stop_ch 0 [] it with
  | Some (buf, it) => match from_utf8 buf with Some s => Ok (s, it) | None => Err InvalidUtf8 end
  | None => Err UnterminatedString
  end.

Fixpoint find_function {A} (buf : bytes) (i : Z) (l : list (bytes * A * Z)) : option (Z * Z) :=
  match l with
  | [] => None
  | (name, _, num_args) :: l =>
      if bool_decide (name = buf) then Some (i, num_args) else find_function buf (i + 1) l
  end.

(** The function of a name, its number and its arguments: the two tables in turn *)
Definition lookup_function (buf : bytes) : option Token :=
  match find_function buf 0 FUNCTIONS with
  | Some (idx, num_args) => Some (TFunction buf idx num_args)
  | None =>
      match find (λ f, bool_decide (f.1.1 = buf)) ASYNC_FUNCTIONS with
      | Some (_, idx, num_args) => Some (TFunction buf (idx + Z.of_nat (length FUNCTIONS)) num_args)
      | None => None
      end
  end.

(** The token of a name *)
Definition parse_name (tokens : TokenMap) (has_number has_dot : bool) (buf : bytes) :
    result ParseError Token :=
  if negb has_number && negb has_dot && bool_decide (buf = str "true") then Ok (TConstant (CInteger 1))
  else if negb has_number && negb has_dot && bool_decide (buf = str "false") then
    Ok (TConstant (CInteger 0))
  else
    match (match buf with b :: v => if b =? "$" then parse_uint 32 v else None | [] => None end) with
    | Some c => Ok (TCapture c)
    | None =>
        match lookup_function buf with
        | Some t => Ok t
        | None =>
            match tokens !! buf with
            | Some t => Ok t
            | None =>
                match duration_parse buf with
                | Some ms => Ok (TConstant (CInteger (as_i64 ms)))
                | None => Err InvalidVariable
                end
            end
        end
    end.

Definition parse_buf (tokens : TokenMap) (t : Tokenizer) : result ParseError (Token * Tokenizer) :=
  let buf := t_buf t in
  let t := t <| t_buf := [] |> in
  if t_has_number t && negb (t_has_alpha t) then
    let t := t <| t_has_number := false |> in
    if t_has_dot t then
      match f_parse buf with
      | Some f => Ok (TConstant (CFloat f), t <| t_has_dot := false |>)
      | None => Err InvalidFloat
      end
    else
      match parse_i64 buf with
      | Some n => Ok (TConstant (CInteger n), t)
      | None => Err InvalidInteger
      end
  else
    token ← parse_name tokens (t_has_number t) (t_has_dot t) buf;
    Ok (token, t <| t_has_alpha := false |> <| t_has_number := false |> <| t_has_dot := false |>).

(** The token of a character that ends a word, the depth and the rest of the input after
    it; no token for a blank *)
Definition operator_token (depth : Z) (ch : Z) (it : bytes) : result ParseError (option (Token * Z * bytes)) :=
  let tok op it := Ok (Some (op, depth, it)) in
  let peek_is c := match it with d :: _ => d =? c | [] => false end in
  if ch =? "&" then tok (TBinary And) (if peek_is "&" then tail it else it)
  else if ch =? "|" then tok (TBinary Or) (if peek_is "|" then tail it else it)
  else if ch =? "!" then
    if peek_is "=" then tok (TBinary OpNe) (tail it) else tok (TUnary Not) it
  else if ch =? "^" then tok (TBinary Xor) it
  else if ch =? "(" then Ok (Some (OpenParen, depth + 1, it))
  else if ch =? ")" then
    if depth =? 0 then Err UnmatchedClose else Ok (Some (CloseParen, depth - 1, it))
  else if ch =? "+" then tok (TBinary Add) it
  else if ch =? "*" then tok (TBinary Multiply) it
  else if ch =? "/" then tok (TBinary Divide) it
  else if ch =? "=" then
    tok (TBinary (if peek_is ">" then OpGe else if peek_is "<" then OpLe else OpEq)) (tail it)
  else if ch =? ">" then
    if peek_is "=" then tok (TBinary OpGe) (tail it) else tok (TBinary OpGt) it
  else if ch =? "<" then
    if peek_is "=" then tok (TBinary OpLe) (tail it) else tok (TBinary OpLt) it
  else if ch =? "," then tok Comma it
  else if ch =? "[" then tok OpenBracket it
  else if ch =? "]" then tok CloseBracket it
  else if (ch =? " ") || (ch =? 13) || (ch =? 10) then Ok None
  else if (ch =? 34) || (ch =? "'") then
    '(s, it) ← parse_string ch it; Ok (Some (TConstant (CString s), depth, it))
  else Err InvalidCharacter.

(** After these a minus is a sign. *)
Definition starts_operand (token : Token) : bool :=
  match token with OpenParen | Comma | TBinary _ => true | _ => false end.

(** The word that [ch] ends: a regular expression or the token of the buffer *)
Definition prev_token (tokens : TokenMap) (t : Tokenizer) (ch : Z) (it : bytes) :
    result ParseError (option Token * Tokenizer * bytes) :=
  if (ch =? "(") && bool_decide (t_buf t = str "matches") then
    '(stop_ch, it) ← find_char [34; "'"] it;
    '(regex_str, it) ← parse_string stop_ch it;
    match regex_new regex_str with
    | None => Err InvalidRegex
    | Some regex =>
        '(_, it) ← find_char [","] it;
        Ok (Some (TRegex regex), t <| t_has_alpha := false |> <| t_buf := [] |>, it)
    end
  else if negb (bool_decide (t_buf t = [])) then
    '(token, t) ← parse_buf tokens (t <| t_is_start := false |>);
    Ok (Some token, t, it)
  else Ok (None, t, it).

(** The last arm of [next]; [None] goes on with the loop. *)
Definition end_word (tokens : TokenMap) (t : Tokenizer) (ch : Z) (it : bytes) :
    result ParseError (option (Token * Tokenizer)) :=
  '(prev, t, it) ← prev_token tokens t ch it;
  op ← (if ch =? "-" then
          Ok (Some (if t_is_start t then TUnary Minus else TBinary Subtract, t_depth t, it))
        else operator_token (t_depth t) ch it);
  match op with
  | None => Ok (match prev with Some p => Some (p, t <| t_iter := it |>) | None => None end)
  | Some (token, depth, it) =>
      let t := t <| t_depth := depth |> <| t_is_start := starts_operand token |> <| t_iter := it |> in
      Ok (Some (match prev with
                | Some p => (p, t <| t_next_token ::= cons token |>)
                | None => (token, t)
                end))
  end.

(** The input is over. *)
Definition finish (tokens : TokenMap) (t : Tokenizer) : result ParseError (option Token * Tokenizer) :=
  if 0 <? t_depth t then Err UnmatchedOpen
  else if negb (bool_decide (t_buf t = [])) then
    '(token, t) ← parse_buf tokens t; Ok (Some token, t)
  else Ok (None, t).

Definition push_buf (ch : Z) (t : Tokenizer) : Tokenizer := t <| t_buf ::= λ b, b ++ [ch] |>.

Definition last_is (cs : list Z) (l : bytes) : bool :=
  match last l with Some c => bool_decide (c ∈ cs) | None => false end.

(** The characters of a word: what [next] does with them, if it keeps them *)
Definition word_char (t : Tokenizer) (ch : Z) : option Tokenizer :=
  if is_alpha ch || (ch =? "_") || (ch =? "$") then Some (push_buf ch t <| t_has_alpha := true |>)
  else if is_digit ch then Some (push_buf ch t <| t_has_number := true |>)
  else if ch =? "." then Some (push_buf ch t <| t_has_dot := true |>)
  else if (ch =? "-") && last_is ["["] (t_buf t) then Some (push_buf ch t)
  else if (ch =? ":") && bool_decide ("." ∈ t_buf t) then Some (push_buf ch t)
  else if (ch =? "]") && bool_decide ("[" ∈ t_buf t) then Some (push_buf ch t)
  else if (ch =? "*") && last_is ["["; "."] (t_buf t) then Some (push_buf ch t)
  else None.

(** The loop of [next] over the rest of the input, which the iterator of [t] gave up *)
Fixpoint next_loop (tokens : TokenMap) (t : Tokenizer) (it : bytes) :
    result ParseError (option Token * Tokenizer) :=
  match it with
  | [] => finish tokens (t <| t_iter := [] |>)
  | ch :: it =>
      if ch =? "}" then finish tokens (t <| t_is_eof := true |> <| t_iter := it |>)
      else match word_char t ch with
           | Some t => next_loop tokens t it
           | None =>
               match end_word tokens t ch it with
               | Err e => Err e
               | Ok (Some (token, t)) => Ok (Some token, t)
               | Ok None => next_loop tokens t it
               end
           end
  end.

Definition next (tokens : TokenMap) (t : Tokenizer) : result ParseError (option Token * Tokenizer) :=
  match t_next_token t with
  | token :: rest => Ok (Some token, t <| t_next_token := rest |>)
  | [] => if t_is_eof t then Ok (None, t) else next_loop tokens (t <| t_iter := [] |>) (t_iter t)
  end.

(** ** Parser: parser.rs *)

Definition ID_ARRAY_ACCESS : Z := u32_max.
Definition ID_ARRAY_BUILD : Z := u32_max - 1.

Definition precedence (op : BinaryOperator) : Z :=
  match op with
  | Multiply | Divide => 7
  | Add | Subtract => 6
  | OpGt | OpGe | OpLt | OpLe => 5
  | OpEq | OpNe => 4
  | Xor => 3
  | And => 2
  | Or => 1
  end.

(** The stacks have their top first, the output its last item last. *)
Record Parser := mkParser {
  p_output : list ExpressionItem;
  p_operators : list (Token * option nat);
  p_arg_count : list Z;
}.

Definition sat_i32 (z : Z) : Z := Z.max (- 2 ^ 31) (Z.min (2 ^ 31 - 1) z).

Definition push_output (i : ExpressionItem) (p : Parser) : Parser := p <| p_output ::= λ o, o ++ [i] |>.
Definition push_operator (t : Token) (j : option nat) (p : Parser) : Parser :=
  p <| p_operators ::= cons (t, j) |>.

(** The operator below the top gets one argument more, if it builds an array; with a
    single operator on the stack that one is meant. *)
Definition count_item (ops : list (Token * option nat)) : list (Token * option nat) :=
  let pos := match ops with [_] => 0%nat | _ => 1%nat end in
  alter (λ op, match op with
               | (TFunction name id num_args, j) =>
                   if id =? ID_ARRAY_BUILD then (TFunction name id (wrap 32 (num_args + 1)), j) else op
               | _ => op
               end) pos ops.

Definition inc_arg_count (p : Parser) : Parser :=
  match p_arg_count p with
  | [] => p
  | x :: rest => p <| p_arg_count := sat_i32 (x + 1) :: rest |> <| p_operators ::= count_item |>
  end.

Definition dec_arg_count (p : Parser) : Parser :=
  match p_arg_count p with
  | [] => p
  | x :: rest => p <| p_arg_count := sat_i32 (x - 1) :: rest |>
  end.

Definition update_jmp_pos (j : option nat) (p : Parser) : Parser :=
  match j with
  | None => p
  | Some j =>
      p <| p_output ::= λ o,
        alter (λ i, match i with
                    | IJmpIf val _ => IJmpIf val (wrap 32 (Z.of_nat (length o) - Z.of_nat j))
                    | i => i
                    end) j o |>
  end.

Definition emit_binary (op : BinaryOperator) (j : option nat) (p : Parser) : Parser :=
  push_output (IBinary op) (update_jmp_pos j p).

(** The loops over the operator stack.  Each takes the stack apart from [p] and gives it
    back with the rest. *)

(** The stack down to the opening bracket, which is dropped *)
Fixpoint close_loop (is_open : Token → bool) (ops : list (Token * option nat)) (p : Parser) :
    result ParseError Parser :=
  match ops with
  | [] => Err MismatchedParens
  | (t, j) :: ops =>
      if is_open t then Ok (p <| p_operators := ops |>)
      else match t with
           | TBinary op => close_loop is_open ops (emit_binary op j p)
           | TUnary op => close_loop is_open ops (push_output (IUnary op) p)
           | _ => Err MismatchedParens
           end
  end.

(** The call that the bracket closed *)
Definition close_call (p : Parser) : result ParseError Parser :=
  match p_operators p with
  | (TFunction name id num_args, _) :: ops =>
      match p_arg_count p with
      | [] => Err ParserPanic
      | got_args :: counts =>
          let p := p <| p_arg_count := counts |> in
          if negb (got_args =? (num_args + 2 ^ 31) mod 2 ^ 32 - 2 ^ 31) then
            Err (if id =? u32_max then MissingIndex else WrongArguments)
          else
            Ok (push_output (if id =? ID_ARRAY_ACCESS then IArrayAccess
                             else if id =? ID_ARRAY_BUILD then IArrayBuild num_args
                             else IFunction id num_args)
                  (p <| p_operators := ops |>))
      end
  | (TRegex regex, _) :: ops =>
      match p_arg_count p with
      | [] => Err ParserPanic
      | n :: counts =>
          if negb (n =? 1) then Err WrongMatches
          else Ok (push_output (IRegex regex) (p <| p_arg_count := counts |> <| p_operators := ops |>))
      end
  | _ => Ok p
  end.

Fixpoint binary_loop (bop : BinaryOperator) (ops : list (Token * option nat)) (p : Parser) : Parser :=
  match ops with
  | (TBinary top, j) :: rest =>
      if precedence bop <=? precedence top then binary_loop bop rest (emit_binary top j p)
      else p <| p_operators := ops |>
  | (TUnary top, _) :: rest => binary_loop bop rest (push_output (IUnary top) p)
  | _ => p <| p_operators := ops |>
  end.

Fixpoint comma_loop (ops : list (Token * option nat)) (p : Parser) : Parser :=
  match ops with
  | (TBinary top, j) :: rest => comma_loop rest (emit_binary top j p)
  | (TUnary top, _) :: rest => comma_loop rest (push_output (IUnary top) p)
  | _ => p <| p_operators := ops |>
  end.

Fixpoint final_loop (ops : list (Token * option nat)) (p : Parser) : result ParseError Parser :=
  match ops with
  | [] => Ok (p <| p_operators := [] |>)
  | (TBinary op, j) :: ops => final_loop ops (emit_binary op j p)
  | (TUnary op, _) :: ops => final_loop ops (push_output (IUnary op) p)
  | _ => Err InvalidToken
  end.

Definition close_bracket (is_open : Token → bool) (p : Parser) : result ParseError Parser :=
  p ← close_loop is_open (p_operators p) p; close_call p.

Definition parse_binary (bop : BinaryOperator) (p : Parser) : Parser :=
  let p := dec_arg_count p in
  let p := binary_loop bop (p_operators p) p in
  let jump val := push_operator (TBinary bop) (Some (length (p_output p))) (push_output (IJmpIf val 0) p) in
  match bop with
  | And => jump false
  | Or => jump true
  | _ => push_operator (TBinary bop) None p
  end.

Definition open_call (t : Token) (p : Parser) : Parser :=
  push_operator t None ((inc_arg_count p) <| p_arg_count ::= cons 0 |>).

Definition open_bracket (last_is_var_or_fnc : bool) (p : Parser) : Parser :=
  let push id num_args arg_count p :=
    push_operator OpenBracket None
      (push_operator (TFunction (str "array") id num_args) None (p <| p_arg_count ::= cons arg_count |>)) in
  if last_is_var_or_fnc then push ID_ARRAY_ACCESS 2 1 p else push ID_ARRAY_BUILD 0 0 (inc_arg_count p).

Definition is_open_paren (t : Token) : bool := match t with OpenParen => true | _ => false end.
Definition is_open_bracket (t : Token) : bool := match t with OpenBracket => true | _ => false end.

(** One token; the boolean is [is_var_or_fnc]. *)
Definition parse_token (last : bool) (token : Token) (p : Parser) : result ParseError (bool * Parser) :=
  match token with
  | TVariable v => Ok (true, push_output (IVariable v) (inc_arg_count p))
  | TConstant c => Ok (false, push_output (IConstant c) (inc_arg_count p))
  | TCapture c => Ok (false, push_output (ICapture c) (inc_arg_count p))
  | TUnary _ | OpenParen => Ok (false, push_operator token None p)
  | CloseParen => p ← close_bracket is_open_paren p; Ok (true, p)
  | CloseBracket => p ← close_bracket is_open_bracket p; Ok (true, p)
  | TBinary bop => Ok (false, parse_binary bop p)
  | TFunction _ _ _ | TRegex _ => Ok (false, open_call token p)
  | OpenBracket => Ok (false, open_bracket last p)
  | Comma => Ok (false, comma_loop (p_operators p) p)
  end.

Definition parse_end (p : Parser) : result ParseError (list ExpressionItem) :=
  p ← final_loop (p_operators p) p; Ok (p_output p).

Fixpoint parse_loop (fuel : nat) (tokens : TokenMap) (last : bool) (t : Tokenizer) (p : Parser) :
    result ParseError (list ExpressionItem) :=
  match fuel with
  | O => Err OutOfFuel
  | S fuel =>
      '(token, t) ← next tokens t;
      match token with
      | None => parse_end p
      | Some token => '(last, p) ← parse_token last token p; parse_loop fuel tokens last t p
      end
  end.

(** [ExpressionParser::parse]: each call of [next] but the last gives a token, of which
    a byte of the text gives at most two. *)
Definition parse (tokens : TokenMap) (expr : bytes) : result ParseError (list ExpressionItem) :=
  parse_loop (2 * length expr + 2) tokens false (tokenizer_new expr) (mkParser [] [] []).

(** ** Evaluation: eval.rs *)

Section Eval.
(** The variables of the session, and the functions that ask a service: they change the
    world, and may fail. *)
Context {W E : Type}.
Variable resolve_variable : Z → Value.
Variable eval_fnc : Z → list Value → W → result E Value * W.

Inductive EvalError := Failed (e : E) | Panicked.

(** [captures] and the world *)
Record EvalState := mkEval { captures : list (list Z); world : W }.

Definition unary (op : UnaryOperator) (v : Value) : Value :=
  match op with Not => op_not v | Minus => op_minus v end.

Definition binary (op : BinaryOperator) (lhs rhs : Value) : Value :=
  match op with
  | Add => op_add lhs rhs
  | Subtract => op_subtract lhs rhs
  | Multiply => op_multiply lhs rhs
  | Divide => op_divide lhs rhs
  | And => op_and lhs rhs
  | Or => op_or lhs rhs
  | Xor => op_xor lhs rhs
  | OpEq => op_eq lhs rhs
  | OpNe => op_ne lhs rhs
  | OpLt => op_lt lhs rhs
  | OpLe => op_le lhs rhs
  | OpGt => op_gt lhs rhs
  | OpGe => op_ge lhs rhs
  end.

Definition pop (stack : list Value) : Value * list Value :=
  match stack with [] => (value_default, []) | v :: stack => (v, stack) end.

(** The last [n] values in the order they were pushed *)
Fixpoint pop_args (n : nat) (acc stack : list Value) : list Value * list Value :=
  match n with
  | O => (acc, stack)
  | S n => let '(v, stack) := pop stack in pop_args n (v :: acc) stack
  end.

(** A call: the function of the table, or else the one that asks a service *)
Definition call (id : Z) (arguments : list Value) (s : EvalState) : result EvalError Value * EvalState :=
  match FUNCTIONS !! Z.to_nat id with
  | Some (_, fnc, _) =>
      (match fnc arguments with Some v => Ok v | None => Err Panicked end, s)
  | None =>
      let '(r, w) := eval_fnc (id - Z.of_nat (length FUNCTIONS)) arguments (world s) in
      (match r with Ok v => Ok v | Err e => Err (Failed e) end, s <| world := w |>)
  end.

Definition array_access (array index : Value) : Value :=
  default value_default (head (skip (default 0 (to_usize index)) (into_array array))).

(** The value and the captures of a match *)
Definition match_regex (r : Regex) (v : Value) : list (list Z) :=
  match regex_captures r (to_string v) with
  | Some cs => map (default []) cs
  | None => []
  end.

Definition matched (cs : list (list Z)) : Value := of_bool (match cs with [] => false | _ => true end).

(** One item: the stack after it, and how many items are skipped next *)
Definition eval_item (i : ExpressionItem) (stack : list Value) (s : EvalState) :
    result EvalError (list Value * Z) * EvalState :=
  match i with
  | IVariable v => (Ok (resolve_variable v :: stack, 0), s)
  | IConstant c => (Ok (of_constant c :: stack, 0), s)
  | ICapture n =>
      (Ok (VString (default [] (captures s !! Z.to_nat n)) :: stack, 0), s)
  | IUnary op => let '(v, stack) := pop stack in (Ok (unary op v :: stack, 0), s)
  | IBinary op =>
      let '(rhs, stack) := pop stack in
      let '(lhs, stack) := pop stack in
      (Ok (binary op lhs rhs :: stack, 0), s)
  | IFunction id num_args =>
      let '(arguments, stack) := pop_args (Z.to_nat num_args) [] stack in
      let '(r, s) := call id arguments s in
      (match r with Ok v => Ok (v :: stack, 0) | Err e => Err e end, s)
  | IJmpIf val pos =>
      let b := match stack with v :: _ => to_bool v | [] => false end in
      (Ok (stack, if Bool.eqb b val then pos else 0), s)
  | IArrayAccess =>
      let '(index, stack) := pop stack in
      let '(array, stack) := pop stack in
      (Ok (array_access array index :: stack, 0), s)
  | IArrayBuild n =>
      let '(items, stack) := pop_args (Z.to_nat n) [] stack in
      (Ok (VArray items :: stack, 0), s)
  | IRegex r =>
      let '(v, stack) := pop stack in
      let cs := match_regex r v in
      (Ok (matched cs :: stack, 0), s <| captures := cs |>)
  end.

Fixpoint eval_loop (items : list ExpressionItem) (skipped : Z) (stack : list Value) (s : EvalState) :
    result EvalError Value * EvalState :=
  match items with
  | [] => (Ok (pop stack).1, s)
  | i :: items =>
      if 0 <? skipped then eval_loop items (skipped - 1) stack s
      else match eval_item i stack s with
           | (Ok (stack, skipped), s) => eval_loop items skipped stack s
           | (Err e, s) => (Err e, s)
           end
  end.

Definition expr_eval (items : list ExpressionItem) (s : EvalState) : result EvalError Value * EvalState :=
  eval_loop items 0 [] s.

(** [IfBlock]: the conditions with their values, and the value of no condition *)
Record IfBlock := mkIfBlock {
  ib_key : bytes;
  ib_if_then : list (list ExpressionItem * list ExpressionItem);
  ib_default : list ExpressionItem;
}.

Fixpoint if_then_eval (l : list (list ExpressionItem * list ExpressionItem))
    (default : list ExpressionItem) (s : EvalState) : result EvalError Value * EvalState :=
  match l with
  | [] => expr_eval default s
  | (expr, then_) :: l =>
      match expr_eval expr s with
      | (Ok v, s) => if to_bool v then expr_eval then_ s else if_then_eval l default s
      | (Err e, s) => (Err e, s)
      end
  end.

Definition if_block_eval (b : IfBlock) (w : W) : result EvalError Value * EvalState :=
  if_then_eval (ib_if_then b) (ib_default b) (mkEval [] w).

Definition if_block_is_empty (b : IfBlock) : bool :=
  bool_decide (length (ib_default b) = 0%nat) && bool_decide (length (ib_if_then b) = 0%nat).

(** [eval_if] and [eval_expr]: a value that cannot be converted, like an error, is
    nothing.  A panic is the caller's too. *)
Definition converted {R} (try_from : Value → option R) (r : result EvalError Value) :
    option (option R) :=
  match r with
  | Ok v => Some (try_from v)
  | Err (Failed _) => Some None
  | Err Panicked => None
  end.

Definition eval_if {R} (try_from : Value → option R) (b : IfBlock) (w : W) : option (option R) :=
  if if_block_is_empty b then Some None else converted try_from (if_block_eval b w).1.

Definition eval_expr {R} (try_from : Value → option R) (items : list ExpressionItem) (w : W) :
    option (option R) :=
  match items with
  | [] => Some None
  | _ => converted try_from (expr_eval items (mkEval [] w)).1
  end.
End Eval.

(** [TryFrom]: mod.rs and eval.rs *)
Definition try_string (v : Value) : option (list Z) := match v with VString s => Some s | _ => None end.
Definition try_bool (v : Value) : option bool := Some (to_bool v).
Definition try_u64 (v : Value) : option Z := wrap 64 <$> to_integer v.
Definition try_duration (f_as_u64 : f64 → Z) (v : Value) : option Z :=
  match v with
  | VInteger n => if 0 <? n then Some n else None
  | VFloat f => match f_cmp f f_zero with Some Gt => Some (f_as_u64 f) | _ => None end
  | VString (c :: s) => duration_parse (c :: s)
  | _ => None
  end.
Definition try_rate (v : Value) : option (Z * Z) :=
  match v with
  | VArray [requests; period] =>
      requests ← to_integer requests; period ← to_integer period;
      if (0 <? requests) && (0 <? period) then Some (requests, period) else None
  | _ => None
  end.
Definition try_vec {R} (try_from : Value → option R) (v : Value) : option (list R) :=
  mapM try_from (into_array v).

(** ** If-blocks of the configuration: if_block.rs *)

Inductive BlockError :=
| BadExpression (e : ParseError) | MissingThen | ElseBeforeIf | MultipleElse | ThenWithoutIf
| ThenInElse | InvalidProperty | MissingElse | BlockPanic.

(** The keys in their order, and the errors so far *)
Record Config := mkConfig { c_keys : list (bytes * bytes); c_errors : list (bytes * BlockError) }.

Definition config_value (c : Config) (key : bytes) : option bytes :=
  snd <$> find (λ kv, bool_decide (kv.1 = key)) (c_keys c).

Definition new_parse_error (key : bytes) (e : BlockError) (c : Config) : Config :=
  c <| c_errors ::= λ l, l ++ [(key, e)] |>.

(** [Expression::try_parse] *)
Definition try_parse (tokens : TokenMap) (key : bytes) (c : Config) : option (list ExpressionItem) * Config :=
  match config_value c key with
  | None => (None, c)
  | Some expr =>
      match parse tokens expr with
      | Ok items => (Some items, c)
      | Err e => (None, new_parse_error key (BadExpression e) c)
      end
  end.

(** The state of the loop over the keys of a block *)
Record BlockState := mkBlock {
  bs_if_then : list (list ExpressionItem * list ExpressionItem);
  bs_default : list ExpressionItem;
  bs_found_if : bool;
  bs_found_else : bytes;
  bs_found_then : bool;
  bs_last_array_pos : bytes;
}.

(** [last_mut().unwrap().then = ...] *)
Definition set_last_then (then_ : list ExpressionItem)
    (l : list (list ExpressionItem * list ExpressionItem)) :
    option (list (list ExpressionItem * list ExpressionItem)) :=
  match reverse l with
  | (e, _) :: r => Some (reverse ((e, then_) :: r))
  | [] => None
  end.

(** One key; [None] gives the block up. *)
Definition block_key (tokens : TokenMap) (key prefix item : bytes) (b : BlockState) (c : Config) :
    option BlockState * Config :=
  let fail e := (None, new_parse_error key e c) in
  match split_once ["."] (drop (length prefix) item) with
  | None => fail InvalidProperty
  | Some (array_pos, suffix) =>
      let if_key := match split_once ["."] suffix with Some (v, _) => v | None => suffix end in
      if bool_decide (if_key = str "if") then
        if bool_decide (array_pos = bs_last_array_pos b) then (Some (b <| bs_found_if := true |>), c)
        else if negb (bool_decide (bs_last_array_pos b = [])) && negb (bs_found_then b) then
          fail MissingThen
        else
          let '(e, c) := try_parse tokens item c in
          (e ← e; Some (b <| bs_if_then ::= λ l, l ++ [(e, [])] |> <| bs_found_then := false |>
                          <| bs_last_array_pos := array_pos |> <| bs_found_if := true |>), c)
      else if bool_decide (if_key = str "else") then
        if bool_decide (bs_found_else b = []) then
          if bs_found_if b then
            let '(e, c) := try_parse tokens item c in
            (e ← e; Some (b <| bs_default := e |> <| bs_found_else := array_pos |>), c)
          else fail ElseBeforeIf
        else if bool_decide (array_pos = bs_found_else b) then (Some b, c) else fail MultipleElse
      else if bool_decide (if_key = str "then") then
        if bool_decide (bs_found_else b = []) then
          if bool_decide (array_pos = bs_last_array_pos b) then
            if bs_found_then b then (Some b, c)
            else
              match try_parse tokens item c with
              | (None, c) => (None, c)
              | (Some e, c) =>
                  match set_last_then e (bs_if_then b) with
                  | Some l => (Some (b <| bs_if_then := l |> <| bs_found_then := true |>), c)
                  | None => fail BlockPanic
                  end
              end
          else fail ThenWithoutIf
        else fail ThenInElse
      else (Some b, c)
  end.

Fixpoint block_keys (tokens : TokenMap) (key prefix : bytes) (items : list bytes) (b : BlockState)
    (c : Config) : option BlockState * Config :=
  match items with
  | [] => (Some b, c)
  | item :: items =>
      match block_key tokens key prefix item b c with
      | (Some b, c) => block_keys tokens key prefix items b c
      | (None, c) => (None, c)
      end
  end.

Definition if_block_try_parse (tokens : TokenMap) (key : bytes) (c : Config) : option IfBlock * Config :=
  match config_value c key with
  | Some _ =>
      let '(e, c) := try_parse tokens key c in
      (e ← e; Some (mkIfBlock key [] e), c)
  | None =>
      let prefix := key ++ ["."] in
      let keys := filter (λ k, starts_with k prefix = true) (c_keys c).*1 in
      match block_keys tokens key prefix keys (mkBlock [] [] false [] false []) c with
      | (None, c) => (None, c)
      | (Some b, c) =>
          if negb (bs_found_if b) then (None, c)
          else if negb (bs_found_then b) then (None, new_parse_error key MissingThen c)
          else if bool_decide (bs_found_else b = []) then (None, new_parse_error key MissingElse c)
          else (Some (mkIfBlock key (bs_if_then b) (bs_default b)), c)
      end
  end.

(** [default_string] *)
Fixpoint first_string (items : list ExpressionItem) : option (list Z) :=
  match items with
  | [] => None
  | IConstant (CString s) :: _ => Some s
  | _ :: items => first_string items
  end.
Definition default_string (b : IfBlock) : option (list Z) := first_string (ib_default b).
End Expressions.

(** ** A concrete instance *)

Module ExprExample.
(** Fixed-point numbers of three decimals, the letters of ASCII, and regular expressions
    that look for a word *)
Definition fixed_parse (l : list Z) : option Z :=
  match split_once ["."] l with
  | Some (a, b) => n ← parse_uint 32 (a ++ take 3 (b ++ ["0"; "0"; "0"])); Some n
  | None => n ← parse_uint 32 l; Some (n * 1000)
  end.

#[export] Instance example_base : ExprBase := {
  f64 := Z;
  f_of_int n := n * 1000;
  f_add := Z.add;
  f_sub := Z.sub;
  f_mul a b := a * b / 1000;
  f_div a b := a * 1000 / b;
  f_neg := Z.opp;
  f_zero := 0;
  f_cmp a b := Some (a ?= b);
  f_parse := fixed_parse;
  f_print f := print_i64 (f / 1000) ++ "." :: uint_to_string (f mod 1000);
  f_to_i64 f := saturate (f / 1000);
  f_to_usize f := Z.max 0 (Z.min u64_max (f / 1000));
  u_lowercase := map to_lower;
  u_uppercase := map to_upper;
  u_is_alphabetic := is_alpha;
  u_is_uppercase := is_upper;
  u_is_lowercase := is_lower;
  u_is_numeric := is_digit;
  u_is_whitespace := is_whitespace;
  ip_parse _ := None;
  ip_reverse_name l := l;
  Regex := list Z;
  regex_new r := Some r;
  regex_captures r s := '(a, _) ← split_once r s; Some [Some r; Some a];
}.

Definition session_variables (v : Z) : Value :=
  if v =? 0 then VString (str "jo@example.org") else if v =? 2 then VString [] else VInteger (as_i64 v).

(** A service that answers with the number of its function *)
Definition services (id : Z) (args : list Value) (w : unit) : result unit Value * unit :=
  (Ok (VInteger (as_i64 id)), w).

Definition names : TokenMap := with_all_variables ∅.

Definition evaluate (s : bytes) : result ParseError (result EvalError Value) :=
  items ← parse names s; Ok (expr_eval session_variables services items (mkEval [] ())).1.

(** A text and its value *)
Lemma example_expression :
  evaluate (str "matches('@', rcpt) && $1 + '!' == 'jo!' || -2 * (3 - 1) >= 5m") = Ok (Ok (VInteger 1)).
Proof. reflexivity. Qed.

(** ** What the code does with some other texts *)

(** A single [=] takes the character after it with it. *)
Lemma equals_eats_operand : parse names (str "priority=5") = Ok [IVariable 12; IBinary OpEq].
Proof. reflexivity. Qed.

(** A minus after a bracket is a subtraction, and the array comes out empty. *)
Lemma minus_in_array_lost : evaluate (str "[-1]") = Ok (Ok (VArray [])).
Proof. reflexivity. Qed.

(** An item that begins with an operator or a parenthesis is not counted. *)
Lemma array_item_refused :
  parse names (str "[!sender, 1]") = Err WrongArguments ∧ parse names (str "[(sender), 1]") = Err WrongArguments.
Proof. done. Qed.

(** A quote that is escaped keeps its backslash. *)
Lemma escape_keeps_backslash : parse names (str "'a\'b'") = Ok [IConstant (CString (str "a\'b"))].
Proof. reflexivity. Qed.

(** [&&] and [||] give their left operand, not a truth value. *)
Lemma or_gives_operand : evaluate (str "rcpt || sender") = Ok (Ok (VString (str "jo@example.org"))).
Proof. reflexivity. Qed.

(** A call of [sort] in ascending order sorts in descending order. *)
Lemma sort_ascending_descends : evaluate (str "sort([1, 3, 2], true)") = Ok (Ok (VArray [VInteger 3; VInteger 2; VInteger 1])).
Proof. reflexivity. Qed.

(** As a number an empty array is one, and a full one is zero. *)
Lemma empty_array_is_one :
  evaluate (str "[] * 5") = Ok (Ok (VInteger 5)) ∧ evaluate (str "[7] * 5") = Ok (Ok (VInteger 0)).
Proof. done. Qed.

(** Operands that follow each other are accepted, and the last one counts. *)
Lemma juxtaposition_accepted : evaluate (str "1 2") = Ok (Ok (VInteger 2)).
Proof. reflexivity. Qed.
End ExprExample.
