(* ===== verification/ExprMeaning.v ===== *)
(** * What an expression means

    The syntax trees of the expression language, their meaning, their translation to
    postfix items with jumps, and the proof that the stack machine of Expr computes the
    meaning of a tree from its items. *)

From coqutil Require Import Datatypes.RecordSettersUsingExistingGetters.
From S2P Require Import Prelude Utf8 Decimal ExprValue ExprFunctions Expr.

#[local] Open Scope chr_scope.

Section Meaning.
Context `{ExprBase}.

(** ** Syntax trees *)

Inductive ast :=
| EVariable (v : Z)
| ECapture (c : Z)
| EConstant (c : Constant)
| EUnary (op : UnaryOperator) (e : ast)
| EBinary (op : BinaryOperator) (l r : ast)
| ECall (name : bytes) (id : Z) (args : list ast)
| EMatches (re : Regex) (e : ast)
| EIndex (a i : ast)
| EArray (items : list ast).

Section AstInd.
Variable P : ast → Prop.
Hypothesis (HV : ∀ v, P (EVariable v)) (HC : ∀ c, P (ECapture c)) (HK : ∀ c, P (EConstant c)).
Hypothesis (HU : ∀ op e, P e → P (EUnary op e)).
Hypothesis (HB : ∀ op l r, P l → P r → P (EBinary op l r)).
Hypothesis (HF : ∀ n id args, Forall P args → P (ECall n id args)).
Hypothesis (HM : ∀ re e, P e → P (EMatches re e)).
Hypothesis (HI : ∀ a i, P a → P i → P (EIndex a i)).
Hypothesis (HA : ∀ items, Forall P items → P (EArray items)).

Fixpoint ast_induction (e : ast) : P e :=
  let all := fix all (l : list ast) : Forall P l :=
    match l with [] => Forall_nil_2 P | e :: l => Forall_cons_2 P e l (ast_induction e) (all l) end in
  match e with
  | EVariable v => HV v
  | ECapture c => HC c
  | EConstant c => HK c
  | EUnary op e => HU op e (ast_induction e)
  | EBinary op l r => HB op l r (ast_induction l) (ast_induction r)
  | ECall n id args => HF n id args (all args)
  | EMatches re e => HM re e (ast_induction e)
  | EIndex a i => HI a i (ast_induction a) (ast_induction i)
  | EArray items => HA items (all items)
  end.
End AstInd.

(** The items of a tree.  A jump passes over the right operand and the operator. *)
Fixpoint compile (e : ast) : list ExpressionItem :=
  match e with
  | EVariable v => [IVariable v]
  | ECapture c => [ICapture c]
  | EConstant c => [IConstant c]
  | EUnary op e => compile e ++ [IUnary op]
  | EBinary op l r =>
      let cr := compile r in
      let pos := wrap 32 (Z.of_nat (length cr) + 1) in
      compile l ++
      (match op with And => [IJmpIf false pos] | Or => [IJmpIf true pos] | _ => [] end) ++
      cr ++ [IBinary op]
  | ECall _ id args => (args ≫= compile) ++ [IFunction id (Z.of_nat (length args))]
  | EMatches re e => compile e ++ [IRegex re]
  | EIndex a i => compile a ++ compile i ++ [IArrayAccess]
  | EArray items => (items ≫= compile) ++ [IArrayBuild (Z.of_nat (length items))]
  end.

(** ** Meaning *)

Section Denote.
Context {W E : Type}.
Variable resolve_variable : Z → Value.
Variable eval_fnc : Z → list Value → W → result E Value * W.

(** Evaluation: it may fail, and changes the captures and the world. *)
Definition Eval (A : Type) : Type := EvalState (W := W) → result (EvalError (E := E)) A * EvalState (W := W).

Definition ret {A} (a : A) : Eval A := λ s, (Ok a, s).
Definition ebind {A B} (m : Eval A) (k : A → Eval B) : Eval B :=
  λ s, match m s with (Ok a, s) => k a s | (Err e, s) => (Err e, s) end.
#[local] Notation "'let*' x := m 'in' k" := (ebind m (λ x, k)) (at level 10, x name, k at level 200).

Fixpoint traverse {A B} (f : A → Eval B) (l : list A) : Eval (list B) :=
  match l with
  | [] => ret []
  | a :: l => let* b := f a in let* bs := traverse f l in ret (b :: bs)
  end.

(** A regular expression leaves its captures, or none. *)
Definition capture (c : Z) : Eval Value :=
  λ s, (Ok (VString (default [] (captures s !! Z.to_nat c))), s).
Definition run_regex (re : Regex) (v : Value) : Eval Value :=
  λ s, (Ok (matched (match_regex re v)), s <| captures := match_regex re v |>).

(** Operands from left to right; [&&] and [||] give their left operand as it is when it
    decides. *)
Fixpoint denote (e : ast) : Eval Value :=
  match e with
  | EVariable v => ret (resolve_variable v)
  | ECapture c => capture c
  | EConstant c => ret (of_constant c)
  | EUnary op e => let* v := denote e in ret (unary op v)
  | EBinary op l r =>
      let* x := denote l in
      match op with
      | And => if to_bool x then let* y := denote r in ret (op_and x y) else ret x
      | Or => if to_bool x then ret x else let* y := denote r in ret (op_or x y)
      | op => let* y := denote r in ret (binary op x y)
      end
  | ECall _ id args => let* vs := traverse denote args in (call eval_fnc id vs : Eval Value)
  | EMatches re e => let* v := denote e in run_regex re v
  | EIndex a i => let* x := denote a in let* y := denote i in ret (array_access x y)
  | EArray items => let* vs := traverse denote items in ret (VArray vs)
  end.
End Denote.

(** ** The stack machine computes it *)

Section Machine.
Context {W E : Type}.
Variable resolve_variable : Z → Value.
Variable eval_fnc : Z → list Value → W → result E Value * W.

#[local] Abbreviation loop := (eval_loop resolve_variable eval_fnc).
#[local] Abbreviation meaning := (denote resolve_variable eval_fnc).

Lemma loop_skip l rest stack s :
  loop (l ++ rest) (Z.of_nat (length l)) stack s = loop rest 0 stack s.
Proof.
  induction l as [|i l IH]; [done|]. cbn [app eval_loop length].
  rewrite (proj2 (Z.ltb_lt _ _)) by lia. rewrite <- IH. f_equal. lia.
Qed.

Lemma pop_args_push vs acc stack :
  pop_args (length vs) acc (reverse vs ++ stack) = (vs ++ acc, stack).
Proof.
  revert acc. induction vs as [|v vs IH] using rev_ind; [done|]. intros acc.
  rewrite length_app, Nat.add_comm, reverse_snoc. cbn. by rewrite IH, <- app_assoc.
Qed.

(** The items of [e] push its value. *)
Definition computes (e : ast) : Prop :=
  Z.of_nat (length (compile e)) < 2 ^ 32 → ∀ rest stack s,
  loop (compile e ++ rest) 0 stack s =
  match meaning e s with
  | (Ok v, s) => loop rest 0 (v :: stack) s
  | (Err err, s) => (Err err, s)
  end.

Lemma computes_list l :
  Forall computes l → Z.of_nat (length (l ≫= compile)) < 2 ^ 32 → ∀ rest stack s,
  loop ((l ≫= compile) ++ rest) 0 stack s =
  match traverse meaning l s with
  | (Ok vs, s) => loop rest 0 (reverse vs ++ stack) s
  | (Err err, s) => (Err err, s)
  end.
Proof.
  induction 1 as [|e l He Hl IH]; intros Hlen rest stack s; [done|].
  rewrite bind_cons, length_app in Hlen. rewrite bind_cons, <- app_assoc, He by lia.
  cbn [traverse]; unfold ebind, ret. destruct (meaning e s) as [[v|err] s']; [|done].
  rewrite IH by lia. destruct (traverse meaning l s') as [[vs|err] s'']; [|done].
  by rewrite reverse_cons, <- app_assoc.
Qed.

Lemma traverse_length {A B} (f : A → Eval (W := W) (E := E) B) l s vs s' :
  traverse f l s = (Ok vs, s') → length vs = length l.
Proof.
  revert s vs. induction l as [|a l IH]; intros s vs; cbn; [by intros [= <- _]|].
  unfold ebind. destruct (f a s) as [[b|] s1]; [|done].
  destruct (traverse f l s1) as [[bs|] s2] eqn:Hl; [|done]. intros [= <- ->].
  cbn. f_equal. by eapply IH.
Qed.

Lemma compute_unary op e : computes e → computes (EUnary op e).
Proof.
  intros He Hlen rest stack s. cbn [compile denote] in *; unfold ebind, ret.
  rewrite length_app in Hlen. rewrite <- app_assoc, He by lia.
  by destruct (meaning e s) as [[v|err] s'].
Qed.

Lemma compute_binary op l r : computes l → computes r → computes (EBinary op l r).
Proof.
  intros Hl Hr Hlen rest stack s. cbn [compile denote] in *; unfold ebind, ret.
  rewrite !length_app in Hlen. cbn in Hlen. rewrite <- !app_assoc, Hl by lia.
  destruct (meaning l s) as [[x|err] s']; [|done].
  assert (Hplain : loop (compile r ++ [IBinary op] ++ rest) 0 (x :: stack) s' =
    match meaning r s' with
    | (Ok y, s) => loop rest 0 (binary op x y :: stack) s
    | (Err err, s) => (Err err, s)
    end).
  { rewrite Hr by lia. by destruct (meaning r s') as [[y|err] s'']. }
  assert (Hjump : wrap 32 (Z.of_nat (length (compile r)) + 1) =
    Z.of_nat (length (compile r ++ [IBinary op]))).
  { rewrite length_app. cbn. unfold wrap. rewrite Z.mod_small; lia. }
  destruct op; cbn [app] in *; try (rewrite Hplain; by destruct (meaning r s') as [[y|err] s'']).
  all: cbn [eval_loop eval_item]; change (0 <? 0) with false; cbn match.
  all: destruct (to_bool x); cbn [Bool.eqb].
  all: try (rewrite Hplain; by destruct (meaning r s') as [[y|err] s'']).
  all: rewrite Hjump, cons_middle, app_assoc; apply loop_skip.
Qed.

Lemma compute_call name id args : Forall computes args → computes (ECall name id args).
Proof.
  intros Hargs Hlen rest stack s. cbn [compile denote] in *; unfold ebind, ret.
  rewrite length_app in Hlen. rewrite <- app_assoc, computes_list by (done || lia).
  destruct (traverse meaning args s) as [[vs|err] s'] eqn:Hvs; [|done].
  apply traverse_length in Hvs. cbn [app eval_loop eval_item]. change (0 <? 0) with false. cbn match.
  rewrite Nat2Z.id, <- Hvs, pop_args_push, app_nil_r.
  by destruct (call eval_fnc id vs s') as [[v|err] s''].
Qed.

Lemma compute_array items : Forall computes items → computes (EArray items).
Proof.
  intros Hitems Hlen rest stack s. cbn [compile denote] in *; unfold ebind, ret.
  rewrite length_app in Hlen. rewrite <- app_assoc, computes_list by (done || lia).
  destruct (traverse meaning items s) as [[vs|err] s'] eqn:Hvs; [|done].
  apply traverse_length in Hvs. cbn [app eval_loop eval_item]. change (0 <? 0) with false. cbn match.
  by rewrite Nat2Z.id, <- Hvs, pop_args_push, app_nil_r.
Qed.

Lemma compute_index a i : computes a → computes i → computes (EIndex a i).
Proof.
  intros Ha Hi Hlen rest stack s. cbn [compile denote] in *; unfold ebind, ret.
  rewrite !length_app in Hlen. rewrite <- !app_assoc, Ha by lia.
  destruct (meaning a s) as [[x|err] s']; [|done]. rewrite Hi by lia.
  by destruct (meaning i s') as [[y|err] s''].
Qed.

Lemma compute_matches re e : computes e → computes (EMatches re e).
Proof.
  intros He Hlen rest stack s. cbn [compile denote] in *; unfold ebind, ret.
  rewrite length_app in Hlen. rewrite <- app_assoc, He by lia.
  by destruct (meaning e s) as [[v|err] s'].
Qed.

Lemma machine_computes e : computes e.
Proof.
  induction e using ast_induction; try done.
  all: eauto using compute_unary, compute_binary, compute_call, compute_array, compute_index,
    compute_matches.
Qed.

Lemma expr_eval_compile e s :
  Z.of_nat (length (compile e)) < 2 ^ 32 → expr_eval resolve_variable eval_fnc (compile e) s = meaning e s.
Proof.
  intros Hlen. unfold expr_eval. rewrite <- (app_nil_r (compile e)), machine_computes by done.
  by destruct (meaning e s) as [[v|err] s'].
Qed.
End Machine.
End Meaning.
