(* ===== verification/ExprGrammar.v ===== *)
(** * The grammar of expressions and its parser

    The sentences of the expression language as lists of tokens, with the precedences of
    the operators, and the proof that the parser of Expr (an operator-precedence parser
    with two stacks) gives the items of the tree that a sentence stands for. *)

From coqutil Require Import Datatypes.RecordSettersUsingExistingGetters.
From S2P Require Import Prelude Utf8 Decimal ExprValue ExprFunctions Expr ExprMeaning.

Section Grammar.
Context `{ExprBase}.

(** ** Sentences *)

(** A primary, which may be followed by an index or not; an expression whose operators
    have at least this precedence, a unary one having 8 *)
Inductive category := Primary (indexable : bool) | Level (n : Z).

(** The boolean says that the sentence begins with what an array counts as an item: with
    a variable, a constant, a call or an array, not with an operator or a parenthesis. *)
Inductive derives : category → bool → ast → list Token → Prop :=
| d_variable v : derives (Primary true) true (EVariable v) [TVariable v]
| d_capture c : derives (Primary false) true (ECapture c) [TCapture c]
| d_constant c : derives (Primary false) true (EConstant c) [TConstant c]
| d_call name id args ts :
    0 ≤ id < ID_ARRAY_BUILD → Z.of_nat (length args) < 2 ^ 31 →
    derives_list false args ts →
    derives (Primary true) true (ECall name id args)
      (TFunction name id (Z.of_nat (length args)) :: OpenParen :: ts ++ [CloseParen])
| d_matches re h e ts :
    derives (Level 1) h e ts →
    derives (Primary true) true (EMatches re e) (TRegex re :: OpenParen :: ts ++ [CloseParen])
| d_array items ts :
    Z.of_nat (length items) < 2 ^ 31 → derives_list true items ts →
    derives (Primary true) true (EArray items) (OpenBracket :: ts ++ [CloseBracket])
| d_index h a ta hi i ti :
    derives (Primary true) h a ta → derives (Level 1) hi i ti →
    derives (Primary true) h (EIndex a i) (ta ++ OpenBracket :: ti ++ [CloseBracket])
| d_paren h e ts :
    derives (Level 1) h e ts → derives (Primary true) false e (OpenParen :: ts ++ [CloseParen])
| d_primary b h e ts : derives (Primary b) h e ts → derives (Level 8) h e ts
| d_unary op h e ts : derives (Level 8) h e ts → derives (Level 8) false (EUnary op e) (TUnary op :: ts)
| d_binary op hl l tl hr r tr :
    derives (Level (precedence op)) hl l tl → derives (Level (precedence op + 1)) hr r tr →
    derives (Level (precedence op)) hl (EBinary op l r) (tl ++ TBinary op :: tr)
| d_level n m h e ts : 1 ≤ n ≤ m → derives (Level m) h e ts → derives (Level n) h e ts
with derives_list : bool → list ast → list Token → Prop :=
| d_none array : derives_list array [] []
| d_one array h e ts : derives (Level 1) h e ts → (array = true → h = true) → derives_list array [e] ts
| d_more array h e ts e' es tes :
    derives (Level 1) h e ts → (array = true → h = true) → derives_list array (e' :: es) tes →
    derives_list array (e :: e' :: es) (ts ++ Comma :: tes).

Scheme derives_mut := Induction for derives Sort Prop
with derives_list_mut := Induction for derives_list Sort Prop.
Combined Scheme derives_mutind from derives_mut, derives_list_mut.

(** ** Running the parser over tokens *)

Fixpoint run (last : bool) (ts : list Token) (p : Parser) : result ParseError (bool * Parser) :=
  match ts with
  | [] => Ok (last, p)
  | t :: ts => '(last, p) ← parse_token last t p; run last ts p
  end.

Definition parse_tokens (ts : list Token) : result ParseError (list ExpressionItem) :=
  '(_, p) ← run false ts (mkParser [] [] []); parse_end p.

Lemma run_app last ts ts' p :
  run last (ts ++ ts') p = ('(last, p) ← run last ts p; run last ts' p).
Proof.
  revert last p. induction ts as [|t ts IH]; intros last p; [done|]. cbn.
  destruct (parse_token last t p) as [[l q]|e]; [|done]. apply IH.
Qed.

Lemma push_operator_eq t j out ops c : push_operator t j (mkParser out ops c) = mkParser out ((t, j) :: ops) c.
Proof. done. Qed.

Lemma push_output_eq i out ops c : push_output i (mkParser out ops c) = mkParser (out ++ [i]) ops c.
Proof. done. Qed.

(** ** Operators that wait on the stack *)

(** What they add to the output *)
Definition emit_out (op : BinaryOperator) (j : option nat) (out : list ExpressionItem) : list ExpressionItem :=
  p_output (emit_binary op j (mkParser out [] [])).

Fixpoint flush (pend : list (Token * option nat)) (out : list ExpressionItem) : list ExpressionItem :=
  match pend with
  | (TBinary op, j) :: pend => flush pend (emit_out op j out)
  | (TUnary op, _) :: pend => flush pend (out ++ [IUnary op])
  | _ => out
  end.

(** Every operator of precedence at most [n] sends them to the output. *)
Definition bound_by (n : Z) (pend : list (Token * option nat)) : Prop :=
  Forall (λ op, match op.1 with TBinary b => n ≤ precedence b | TUnary _ => True | _ => False end) pend.

(** The operators below them stay, whatever an expression of level [n] does. *)
Definition stops (n : Z) (ops : list (Token * option nat)) : Prop :=
  match ops with
  | [] => True
  | (TBinary b, _) :: _ => precedence b < n
  | (TUnary _, _) :: _ => 8 ≤ n
  | (OpenParen, _) :: _ | (OpenBracket, _) :: _ => True
  | _ => False
  end.

Lemma precedence_range op : 1 ≤ precedence op ≤ 7.
Proof. destruct op; cbn; lia. Qed.

Lemma bound_mono n m pend : m ≤ n → bound_by n pend → bound_by m pend.
Proof. intros Hm Hb. eapply Forall_impl; [exact Hb|]. intros [[] j]; cbn; lia || done. Qed.

Lemma stops_mono n m ops : n ≤ m → stops n ops → stops m ops.
Proof. destruct ops as [|[[] j] ops]; cbn; lia || done. Qed.

Lemma emit_binary_out op j out ops c :
  emit_binary op j (mkParser out ops c) = mkParser (emit_out op j out) ops c.
Proof. by destruct j. Qed.

Lemma flush_app n a b out : bound_by n a → flush (a ++ b) out = flush b (flush a out).
Proof.
  intros Ha. revert out. induction Ha as [|[t j] a Ht Ha IH]; intros out; [done|].
  destruct t; cbn in *; done || apply IH.
Qed.

Lemma close_loop_flush is_open n pend t j ops out x c :
  is_open t = true → (∀ op, is_open (TBinary op) = false) → (∀ op, is_open (TUnary op) = false) →
  bound_by n pend →
  close_loop is_open (pend ++ (t, j) :: ops) (mkParser out x c) = Ok (mkParser (flush pend out) ops c).
Proof.
  intros Ht Hb Hu Hpend. revert out. induction Hpend as [|[u k] pend Hk Hpend IH]; intros out; cbn.
  - by rewrite Ht.
  - destruct u; try done; cbn; rewrite ?Hb, ?Hu, ?emit_binary_out; apply IH.
Qed.

Lemma binary_loop_flush bop pend ops out x c :
  bound_by (precedence bop) pend → stops (precedence bop) ops →
  binary_loop bop (pend ++ ops) (mkParser out x c) = mkParser (flush pend out) ops c.
Proof.
  intros Hpend Hops. revert out. induction Hpend as [|[u k] pend Hk Hpend IH]; intros out; cbn.
  - pose proof (precedence_range bop). destruct ops as [|[[] k] ops]; cbn in *; try done.
    + by rewrite (proj2 (Z.leb_gt _ _)).
    + lia.
  - destruct u; try done; cbn in *; [|apply IH].
    rewrite (proj2 (Z.leb_le _ _)) by done. rewrite emit_binary_out. apply IH.
Qed.

Lemma comma_loop_flush n pend t j ops out x c :
  bound_by n pend → t = OpenParen ∨ t = OpenBracket →
  comma_loop (pend ++ (t, j) :: ops) (mkParser out x c) = mkParser (flush pend out) ((t, j) :: ops) c.
Proof.
  intros Hpend Ht. revert out. induction Hpend as [|[u k] pend Hk Hpend IH]; intros out; cbn.
  - by destruct Ht as [-> | ->].
  - destruct u; try done; cbn; rewrite ?emit_binary_out; apply IH.
Qed.

Lemma final_loop_flush n pend out x c :
  bound_by n pend → final_loop pend (mkParser out x c) = Ok (mkParser (flush pend out) [] c).
Proof.
  intros Hpend. revert out. induction Hpend as [|[u k] pend Hk Hpend IH]; intros out; cbn; [done|].
  destruct u; try done; cbn; rewrite ?emit_binary_out; apply IH.
Qed.

(** ** Counting *)

(** A counter in its range *)
Definition counts (c : list Z) : Prop := match c with x :: _ => 0 ≤ x < 2 ^ 31 - 1 | [] => True end.
Definition inc (c : list Z) : list Z := match c with x :: c => (x + 1) :: c | [] => [] end.

(** What one operand that begins at this place does to the operators below it *)
Definition bump (h : bool) (c : list Z) (ops : list (Token * option nat)) : list (Token * option nat) :=
  match c with [] => ops | _ => if h then count_item ops else ops end.

Lemma inc_arg_count_bump out ops c :
  counts c → inc_arg_count (mkParser out ops c) = mkParser out (bump true c ops) (inc c).
Proof.
  destruct c as [|x c]; [done|]. cbn. intros Hx. unfold inc_arg_count. cbn.
  unfold sat_i32. by rewrite Z.min_r, Z.max_r by lia.
Qed.

Lemma dec_inc out ops c :
  counts c → dec_arg_count (mkParser out ops (inc c)) = mkParser out ops c.
Proof.
  destruct c as [|x c]; [done|]. cbn. intros Hx. unfold dec_arg_count. cbn.
  unfold sat_i32. rewrite Z.add_simpl_r. by rewrite Z.min_r, Z.max_r by lia.
Qed.

(** The bracket of a call and the call *)
Definition call_frame (array : bool) (name : bytes) (id k : Z) (ops : list (Token * option nat)) :
    list (Token * option nat) :=
  (if array then OpenBracket else OpenParen, None) :: (TFunction name id k, None) :: ops.

(** An array does not count what begins above its bracket. *)
Lemma bump_above n h c t j ops :
  stops n ops → (∀ name id k, t ≠ TFunction name id k) → bump h c ((t, j) :: ops) = (t, j) :: ops.
Proof.
  intros Hops Ht. unfold bump. destruct c; [done|]. destruct h; [|done]. unfold count_item.
  destruct ops as [|[u k] ops]; cbn.
  - by destruct t; try done; edestruct Ht.
  - by destruct u.
Qed.

Lemma bump_stops n h c ops : stops n ops → stops n (bump h c ops).
Proof.
  unfold bump. destruct c; [done|]. destruct h; [|done]. intros Hs. unfold count_item.
  by destruct ops as [|[t j] [|[u k] ops]]; cbn in *; [|destruct t|].
Qed.

Lemma bump_frame h c array name id n ops :
  id ≠ ID_ARRAY_BUILD → bump h c (call_frame array name id n ops) = call_frame array name id n ops.
Proof.
  intros Hid. unfold bump. destruct c; [done|]. destruct h; [|done]. cbn.
  by rewrite (proj2 (Z.eqb_neq _ _)) by done.
Qed.

Lemma bump_regex h c t j re k ops :
  bump h c ((t, j) :: (TRegex re, k) :: ops) = (t, j) :: (TRegex re, k) :: ops.
Proof. unfold bump. by destruct c, h. Qed.

Lemma bump_array x c array name n ops :
  0 ≤ n < 2 ^ 31 →
  bump true (x :: c) (call_frame array name ID_ARRAY_BUILD n ops) =
  call_frame array name ID_ARRAY_BUILD (n + 1) ops.
Proof. intros Hn. cbn. unfold wrap. by rewrite Z.mod_small by lia. Qed.

(** ** The parser follows the grammar *)

Definition level (cat : category) : Z := match cat with Primary _ => 8 | Level n => n end.

(** After the tokens of a sentence the output and the operators above [ops] hold the items
    of its tree. *)
Definition parses (cat : category) (h : bool) (e : ast) (ts : list Token) : Prop :=
  ∀ out ops c, stops (level cat) ops → counts c → ∃ last out' pend,
    run false ts (mkParser out ops c) = Ok (last, mkParser out' (pend ++ bump h c ops) (inc c)) ∧
    bound_by (level cat) pend ∧ flush pend out' = out ++ compile e ∧
    match cat with Primary b => pend = [] ∧ (b = true → last = true) | Level _ => True end.

Definition parses_list (array : bool) (es : list ast) (ts : list Token) : Prop :=
  ∀ out ops name id k x c,
    (if array then id = ID_ARRAY_BUILD ∧ 0 ≤ k ∧ k + Z.of_nat (length es) < 2 ^ 31
     else id ≠ ID_ARRAY_BUILD) →
    0 ≤ x → x + Z.of_nat (length es) < 2 ^ 31 →
    ∃ last out' pend,
      run false ts (mkParser out (call_frame array name id k ops) (x :: c)) =
      Ok (last, mkParser out'
        (pend ++ call_frame array name id (if array then k + Z.of_nat (length es) else k) ops)
        ((x + Z.of_nat (length es)) :: c)) ∧
      bound_by 1 pend ∧ flush pend out' = out ++ (es ≫= compile).

Lemma parses_leaf b e t i :
  compile e = [i] →
  (∀ last p, parse_token last t p = Ok (b, push_output i (inc_arg_count p))) →
  parses (Primary b) true e [t].
Proof.
  intros Hi Ht out ops c Hs Hc. eexists b, _, []. cbn [run]. rewrite Ht, inc_arg_count_bump by done.
  cbn. split_and!; try done; [constructor|by rewrite Hi].
Qed.

Lemma parses_unary op h e ts : parses (Level 8) h e ts → parses (Level 8) false (EUnary op e) (TUnary op :: ts).
Proof.
  intros IH out ops c Hs Hc.
  destruct (IH out ((TUnary op, None) :: ops) c) as (last & out' & pend & Hrun & Hb & Hf & _);
    [cbn; lia|done|].
  exists last, out', (pend ++ [(TUnary op, None)]). split_and!; [| |  |done].
  - cbn [run parse_token mbind result_bind]. rewrite push_operator_eq, Hrun, (bump_above 8) by done.
    rewrite <- app_assoc. by destruct c.
  - apply Forall_app. split; [done|]. by constructor.
  - rewrite (flush_app 8) by done. rewrite Hf. cbn. by rewrite <- app_assoc.
Qed.

(** The jump over the right operand is closed when its operator leaves the stack. *)
Lemma emit_jump op val a r :
  emit_out op (Some (length a)) (a ++ [IJmpIf val 0] ++ r) =
  a ++ [IJmpIf val (wrap 32 (Z.of_nat (length r) + 1))] ++ r ++ [IBinary op].
Proof.
  unfold emit_out, emit_binary, update_jmp_pos, push_output. cbn.
  rewrite alter_app_r_alt by done. rewrite Nat.sub_diag. cbn.
  rewrite <- app_assoc. cbn. do 4 f_equal. rewrite length_app. cbn. lia.
Qed.

Lemma emit_plain op out : emit_out op None out = out ++ [IBinary op].
Proof. done. Qed.

(** The operator with its jump, if it has one *)
Definition jump_items (op : BinaryOperator) : list ExpressionItem :=
  match op with And => [IJmpIf false 0] | Or => [IJmpIf true 0] | _ => [] end.
Definition jump_at (op : BinaryOperator) (n : nat) : option nat :=
  match op with And | Or => Some n | _ => None end.

Lemma parse_binary_flush op pend ops out c :
  bound_by (precedence op) pend → stops (precedence op) ops → counts c →
  parse_binary op (mkParser out (pend ++ ops) (inc c)) =
  mkParser (flush pend out ++ jump_items op) ((TBinary op, jump_at op (length (flush pend out))) :: ops) c.
Proof.
  intros Hb Hs Hc. unfold parse_binary. rewrite dec_inc by done. cbn [p_operators].
  rewrite binary_loop_flush by done. by destruct op; cbn; rewrite ?app_nil_r.
Qed.

Lemma emit_compiled op l r a :
  emit_out op (jump_at op (length (a ++ compile l))) (((a ++ compile l) ++ jump_items op) ++ compile r) =
  a ++ compile (EBinary op l r).
Proof.
  destruct op; cbn [jump_at jump_items compile]; try (rewrite emit_plain; by rewrite ?app_nil_r, <- ?app_assoc).
  all: rewrite <- app_assoc, emit_jump; by rewrite <- app_assoc.
Qed.

Lemma parses_binary op hl l tl hr r tr :
  parses (Level (precedence op)) hl l tl → parses (Level (precedence op + 1)) hr r tr →
  parses (Level (precedence op)) hl (EBinary op l r) (tl ++ TBinary op :: tr).
Proof.
  intros IHl IHr out ops c Hs Hc. cbn [level] in *.
  destruct (IHl out ops c) as (last & out1 & pend & Hrun & Hb & Hf & _); [done..|].
  pose proof (bump_stops _ hl c _ Hs) as Hs'.
  destruct (IHr ((out ++ compile l) ++ jump_items op)
    ((TBinary op, jump_at op (length (out ++ compile l))) :: bump hl c ops) c)
    as (last2 & out2 & pend2 & Hrun2 & Hb2 & Hf2 & _); [cbn; lia|done|].
  exists last2, out2, (pend2 ++ [(TBinary op, jump_at op (length (out ++ compile l)))]).
  rewrite (bump_above (precedence op)) in Hrun2 by done.
  assert (Hb2' : bound_by (precedence op) pend2) by (eapply bound_mono; [|exact Hb2]; cbn; lia).
  split_and!; [| | |done].
  - rewrite run_app, Hrun. cbn [mbind result_bind run parse_token].
    rewrite parse_binary_flush, Hf by done. cbn [mbind result_bind]. by rewrite Hrun2, <- app_assoc.
  - apply Forall_app. split; [done|]. constructor; [cbn; lia|constructor].
  - rewrite (flush_app (precedence op)) by done. rewrite Hf2. cbn [flush]. apply emit_compiled.
Qed.

(** ** Brackets and calls *)

Lemma open_access_eq out ops c :
  open_bracket true (mkParser out ops c) =
  mkParser out (call_frame true (str "array") ID_ARRAY_ACCESS 2 ops) (1 :: c).
Proof. done. Qed.

Lemma open_array_eq out ops c :
  counts c →
  open_bracket false (mkParser out ops c) =
  mkParser out (call_frame true (str "array") ID_ARRAY_BUILD 0 (bump true c ops)) (0 :: inc c).
Proof. intros Hc. unfold open_bracket. by rewrite inc_arg_count_bump. Qed.

Lemma open_call_eq t out ops c :
  counts c → open_call t (mkParser out ops c) = mkParser out ((t, None) :: bump true c ops) (0 :: inc c).
Proof. intros Hc. unfold open_call. by rewrite inc_arg_count_bump. Qed.

Lemma parses_paren h e ts : parses (Level 1) h e ts → parses (Primary true) false e (OpenParen :: ts ++ [CloseParen]).
Proof.
  intros IH out ops c Hs Hc.
  destruct (IH out ((OpenParen, None) :: ops) c) as (last & out' & pend & Hrun & Hb & Hf & _); [done..|].
  exists true, (out ++ compile e), []. rewrite (bump_above 8) in Hrun by done.
  split_and!; [|constructor|done..]. cbn [run parse_token mbind result_bind].
  rewrite push_operator_eq, run_app, Hrun. cbn [mbind result_bind run parse_token]. unfold close_bracket.
  cbn [p_operators]. rewrite (close_loop_flush _ 1) by done. rewrite Hf. cbn [mbind result_bind].
  unfold close_call. cbn [p_operators]. destruct c; cbn; destruct ops as [|[[] j] ops]; done.
Qed.

(** The number of arguments as the parser compares it *)
Lemma as_i32_small n : 0 ≤ n < 2 ^ 31 → (n + 2 ^ 31) mod 2 ^ 32 - 2 ^ 31 = n.
Proof. intros Hn. rewrite Z.mod_small; lia. Qed.

(** The bracket that closes a call *)
Lemma close_frame array name id n pend ops out c :
  0 ≤ n < 2 ^ 31 → bound_by 1 pend →
  close_bracket (if array : bool then is_open_bracket else is_open_paren)
    (mkParser out (pend ++ call_frame array name id n ops) (n :: c)) =
  Ok (mkParser (flush pend out ++
    [if id =? ID_ARRAY_ACCESS then IArrayAccess
     else if id =? ID_ARRAY_BUILD then IArrayBuild n else IFunction id n]) ops c).
Proof.
  intros Hn Hb. unfold close_bracket, call_frame. cbn [p_operators].
  rewrite (close_loop_flush _ 1) by (by destruct array). cbn [mbind result_bind].
  unfold close_call. cbn [p_operators p_arg_count]. by rewrite as_i32_small, Z.eqb_refl.
Qed.

Lemma parses_index h a ta hi i ti :
  parses (Primary true) h a ta → parses (Level 1) hi i ti →
  parses (Primary true) h (EIndex a i) (ta ++ OpenBracket :: ti ++ [CloseBracket]).
Proof.
  intros IHa IHi out ops c Hs Hc.
  destruct (IHa out ops c) as (last & out1 & pend & Hrun & _ & Hf & -> & Hlast); [done..|].
  rewrite Hlast in Hrun by done. cbn in Hf. subst out1.
  destruct (IHi (out ++ compile a) (call_frame true (str "array") ID_ARRAY_ACCESS 2 (bump h c ops))
    (1 :: inc c)) as (last2 & out2 & pend2 & Hrun2 & Hb2 & Hf2 & _); [done|cbn; lia|].
  rewrite bump_frame in Hrun2 by done.
  exists true, (out ++ compile (EIndex a i)), []. split_and!; [|constructor|done..].
  rewrite run_app, Hrun. cbn [mbind result_bind run parse_token app].
  rewrite open_access_eq, run_app, Hrun2.
  cbn [mbind result_bind run parse_token inc]. change (1 + 1) with 2.
  rewrite (close_frame true) by done. rewrite Hf2. cbn [mbind result_bind compile].
  by rewrite <- !app_assoc.
Qed.

Lemma parses_matches re h e ts :
  parses (Level 1) h e ts →
  parses (Primary true) true (EMatches re e) (TRegex re :: OpenParen :: ts ++ [CloseParen]).
Proof.
  intros IH out ops c Hs Hc.
  destruct (IH out ((OpenParen, None) :: (TRegex re, None) :: bump true c ops) (0 :: inc c))
    as (last & out' & pend & Hrun & Hb & Hf & _); [done|cbn; lia|].
  rewrite bump_regex in Hrun.
  exists true, (out ++ compile (EMatches re e)), []. split_and!; [|constructor|done..].
  cbn [run parse_token mbind result_bind]. rewrite open_call_eq by done.
  rewrite push_operator_eq, run_app, Hrun.
  cbn [mbind result_bind run parse_token]. unfold close_bracket. cbn [p_operators].
  rewrite (close_loop_flush _ 1) by done. rewrite Hf. cbn [inc]. change (0 + 1) with 1.
  cbn. by rewrite app_assoc.
Qed.

Lemma parses_call name id args ts :
  0 ≤ id < ID_ARRAY_BUILD → Z.of_nat (length args) < 2 ^ 31 → parses_list false args ts →
  parses (Primary true) true (ECall name id args)
    (TFunction name id (Z.of_nat (length args)) :: OpenParen :: ts ++ [CloseParen]).
Proof.
  intros Hid Hlen IH out ops c Hs Hc.
  destruct (IH out (bump true c ops) name id (Z.of_nat (length args)) 0 (inc c))
    as (last & out' & pend & Hrun & Hb & Hf); [lia..|].
  exists true, (out ++ compile (ECall name id args)), []. split_and!; [|constructor|done..].
  cbn [run parse_token mbind result_bind]. rewrite open_call_eq by done.
  rewrite push_operator_eq, run_app.
  fold (call_frame false name id (Z.of_nat (length args)) (bump true c ops)). rewrite Hrun.
  cbn [mbind result_bind run parse_token]. rewrite Z.add_0_l.
  rewrite (close_frame false) by (done || lia). rewrite Hf. cbn [mbind result_bind compile].
  unfold ID_ARRAY_ACCESS, ID_ARRAY_BUILD in *. rewrite !(proj2 (Z.eqb_neq _ _)) by lia.
  by rewrite <- app_assoc.
Qed.

Lemma parses_array items ts :
  Z.of_nat (length items) < 2 ^ 31 → parses_list true items ts →
  parses (Primary true) true (EArray items) (OpenBracket :: ts ++ [CloseBracket]).
Proof.
  intros Hlen IH out ops c Hs Hc.
  destruct (IH out (bump true c ops) (str "array") ID_ARRAY_BUILD 0 0 (inc c))
    as (last & out' & pend & Hrun & Hb & Hf); [split_and!; done || lia|lia..|].
  exists true, (out ++ compile (EArray items)), []. split_and!; [|constructor|done..].
  cbn [run parse_token mbind result_bind]. rewrite open_array_eq by done.
  rewrite run_app, Hrun. cbn [mbind result_bind run parse_token]. rewrite Z.add_0_l.
  rewrite (close_frame true) by (done || lia). rewrite Hf. cbn [mbind result_bind compile].
  by rewrite <- app_assoc.
Qed.

Lemma comma_frame pend array name id n ops out x c :
  bound_by 1 pend →
  comma_loop (pend ++ call_frame array name id n ops) (mkParser out x c) =
  mkParser (flush pend out) (call_frame array name id n ops) c.
Proof. intros Hb. apply (comma_loop_flush 1); [done|]. destruct array; auto. Qed.

Lemma parses_one array h e ts :
  parses (Level 1) h e ts → (array = true → h = true) → parses_list array [e] ts.
Proof.
  intros IH Hh out ops name id k x c Hid Hx Hlen. cbn [length] in *.
  destruct (IH out (call_frame array name id k ops) (x :: c)) as (last & out' & pend & Hrun & Hb & Hf & _);
    [by destruct array|cbn; lia|].
  exists last, out', pend. split_and!; [|done|by cbn; rewrite app_nil_r].
  rewrite Hrun. destruct array.
  - destruct Hid as (-> & Hk & Hkl). by rewrite Hh, bump_array by (done || lia).
  - by rewrite bump_frame.
Qed.

Lemma parses_more array h e ts e' es tes :
  parses (Level 1) h e ts → (array = true → h = true) → parses_list array (e' :: es) tes →
  parses_list array (e :: e' :: es) (ts ++ Comma :: tes).
Proof.
  intros IH Hh IHl out ops name id k x c Hid Hx Hlen.
  destruct (parses_one array h e ts IH Hh out ops name id k x c) as (last & out' & pend & Hrun & Hb & Hf);
    [destruct array; [|done]; destruct Hid as (? & ? & ?); split_and!; try done; cbn in *; lia|lia|cbn in *; lia|].
  destruct (IHl (out ++ compile e) ops name id (if array then k + 1 else k) (x + 1) c)
    as (last2 & out2 & pend2 & Hrun2 & Hb2 & Hf2);
    [destruct array; [|done]; destruct Hid as (? & ? & ?); split_and!; try done; cbn in *; lia|lia|cbn in *; lia|].
  exists last2, out2, pend2. split_and!; [|done|].
  - rewrite run_app, Hrun. cbn [mbind result_bind run parse_token p_operators].
    rewrite comma_frame, Hf, bind_cons, app_nil_r by done. cbn [mbind result_bind].
    change (Z.of_nat (length [e])) with 1. destruct array; rewrite Hrun2.
    all: do 3 f_equal; cbn [length]; [do 2 f_equal; try lia..|f_equal; lia].
  - by rewrite Hf2, <- app_assoc.
Qed.

Lemma grammar_parses :
  (∀ cat h e ts, derives cat h e ts → parses cat h e ts) ∧
  (∀ array es ts, derives_list array es ts → parses_list array es ts).
Proof.
  apply derives_mutind; intros.
  - by apply (parses_leaf true _ _ (IVariable v)).
  - by apply (parses_leaf false _ _ (ICapture c)).
  - by apply (parses_leaf false _ _ (IConstant c)).
  - by apply parses_call.
  - by eapply parses_matches.
  - by apply parses_array.
  - by eapply parses_index.
  - by eapply parses_paren.
  - intros out ops c Hs Hc. destruct (H0 out ops c) as (last & out' & pend & ? & ? & ? & _); [done..|].
    by exists last, out', pend.
  - by eapply parses_unary.
  - by eapply parses_binary.
  - intros out ops c Hs Hc. cbn in *.
    destruct (H0 out ops c) as (last & out' & pend & ? & ? & ? & _); [by apply (stops_mono n); [cbn; lia|]|done|].
    exists last, out', pend. split_and!; try done. by apply (bound_mono m); [lia|].
  - intros out ops name id k x c Hid Hx Hlen. exists false, out, []. cbn. rewrite !Z.add_0_r, app_nil_r.
    split_and!; [by destruct array|constructor|done].
  - by eapply parses_one.
  - by eapply parses_more.
Qed.

(** A sentence is parsed to the items of its tree. *)
Lemma parse_sentence h e ts : derives (Level 1) h e ts → parse_tokens ts = Ok (compile e).
Proof.
  intros Hd. apply grammar_parses in Hd.
  destruct (Hd [] [] []) as (last & out & pend & Hrun & Hb & Hf & _); [done..|].
  unfold parse_tokens. rewrite Hrun. cbn [mbind result_bind]. unfold parse_end. cbn in *.
  rewrite app_nil_r, (final_loop_flush 1) by done. cbn. by rewrite Hf.
Qed.
End Grammar.
