(* ===== verification/ExprText.v ===== *)
(** * The text of expressions

    How the tokens of an expression are written, the proof that the tokenizer of Expr
    reads them back, and the theorem that puts the tokenizer, the parser and the stack
    machine together: a text is evaluated to the meaning of the tree it stands for. *)

From Stdlib Require Import QArith.QArith.
From coqutil Require Import Datatypes.RecordSettersUsingExistingGetters.
From S2P Require Import Prelude Utf8 Decimal ExprValue ExprFunctions Expr ExprMeaning ExprGrammar.

#[local] Open Scope chr_scope.
#[local] Open Scope Z_scope.

(** ** Characters of words *)

Definition alpha_byte (c : Z) : bool := is_alpha c || (c =? "_") || (c =? "$").
Definition name_byte (c : Z) : bool := alpha_byte c || is_digit c.
Definition word_byte (c : Z) : bool := name_byte c || (c =? ".").
Definition is_dot (c : Z) : bool := c =? ".".

(** What may follow a word *)
Definition delimited (s : bytes) : Prop :=
  match s with [] => True | c :: _ => word_byte c = false ∧ c ≠ ":" ∧ c ≠ "}" end.

Definition blank (c : Z) : Prop := c = 32 ∨ c = 13 ∨ c = 10.

Definition duration_unit (u : bytes) : option Z :=
  if bool_decide (u = str "d") then Some 86400000
  else if bool_decide (u = str "h") then Some 3600000
  else if bool_decide (u = str "m") then Some 60000
  else if bool_decide (u = str "s") then Some 1000
  else if bool_decide (u = str "ms") then Some 1
  else None.

Section Text.
Context `{ExprBase}.
Variable tokens : TokenMap.

Definition function_names : list bytes := map (λ f, f.1.1) FUNCTIONS ++ map (λ f, f.1.1) ASYNC_FUNCTIONS.

(** ** Words *)

Inductive lexeme : bytes → Token → Prop :=
| lex_integer n : 0 ≤ n ≤ i64_max → lexeme (uint_to_string n) (TConstant (CInteger n))
| lex_float a b f :
    a ≠ [] → b ≠ [] → Forall (λ c, is_digit c = true) a → Forall (λ c, is_digit c = true) b →
    f_parse (a ++ "." :: b) = Some f → lexeme (a ++ "." :: b) (TConstant (CFloat f))
| lex_true : lexeme (str "true") (TConstant (CInteger 1))
| lex_false : lexeme (str "false") (TConstant (CInteger 0))
| lex_capture n : fits 32 n → lexeme ("$" :: uint_to_string n) (TCapture n)
| lex_function w f n i :
    FUNCTIONS !! i = Some (w, f, n) → lexeme w (TFunction w (Z.of_nat i) n)
| lex_service w i n :
    (w, i, n) ∈ ASYNC_FUNCTIONS → lexeme w (TFunction w (i + Z.of_nat (length FUNCTIONS)) n)
| lex_name c w t :
    is_alpha c || (c =? "_") = true → Forall (λ c, name_byte c = true) w →
    (c :: w) ∉ [str "true"; str "false"; str "matches"] ++ function_names →
    tokens !! (c :: w) = Some t → lexeme (c :: w) t
| lex_duration n u m :
    0 < n → duration_unit u = Some m → n * m ≤ i64_max → tokens !! (uint_to_string n ++ u) = None →
    lexeme (uint_to_string n ++ u) (TConstant (CInteger (n * m))).

(** ** Operators and punctuation *)

(** The spelling of a token, and the character that must not follow it *)
Definition symbols : list (bytes * Token * option Z) := [
  (["&"; "&"], TBinary And, None);
  (["&"], TBinary And, Some "&");
  (["|"; "|"], TBinary Or, None);
  (["|"], TBinary Or, Some "|");
  (["^"], TBinary Xor, None);
  (["+"], TBinary Add, None);
  (["*"], TBinary Multiply, None);
  (["/"], TBinary Divide, None);
  (["="; "="], TBinary OpEq, None);
  (["!"; "="], TBinary OpNe, None);
  ([">"; "="], TBinary OpGe, None);
  (["="; ">"], TBinary OpGe, None);
  (["<"; "="], TBinary OpLe, None);
  (["="; "<"], TBinary OpLe, None);
  ([">"], TBinary OpGt, Some "=");
  (["<"], TBinary OpLt, Some "=");
  (["!"], TUnary Not, Some "=");
  ([","], Comma, None);
  (["["], OpenBracket, None);
  (["]"], CloseBracket, None)
].

Definition follows (no : option Z) (s : bytes) : Prop := no = None ∨ head s ≠ no.

(** A quoted string of which no character ends it or escapes another *)
Definition quotable (q : Z) (s : list Z) : Prop :=
  (q = 34 ∨ q = "'") ∧ chars_ok s ∧ Forall (λ b, b ≠ q ∧ b ≠ "\") (str_bytes s).

(** ** Texts *)

(** The tokens of a text, at this depth of parentheses; a minus is a sign or not. *)
Inductive spells : Z → bool → list Token → bytes → Prop :=
| sp_end sign : spells 0 sign [] []
| sp_blank d sign ts c s : blank c → spells d sign ts s → spells d sign ts (c :: s)
| sp_word d sign ts w t s :
    lexeme w t → delimited s → spells d false ts s → spells d sign (t :: ts) (w ++ s)
| sp_symbol d sign ts y t no s :
    (y, t, no) ∈ symbols → follows no s → spells d (starts_operand t) ts s →
    spells d sign (t :: ts) (y ++ s)
| sp_open d sign ts s : spells (d + 1) true ts s → spells d sign (OpenParen :: ts) ("(" :: s)
| sp_close d sign ts s : 0 ≤ d → spells d false ts s → spells (d + 1) sign (CloseParen :: ts) (")" :: s)
| sp_minus d ts s : spells d false ts s → spells d true (TUnary Minus :: ts) ("-" :: s)
| sp_subtract d ts s : spells d true ts s → spells d false (TBinary Subtract :: ts) ("-" :: s)
| sp_string d sign ts q k s :
    quotable q k → spells d false ts s →
    spells d sign (TConstant (CString k) :: ts) (q :: str_bytes k ++ q :: s)
| sp_matches d sign ts q k re s :
    quotable q k → regex_new k = Some re → spells (d + 1) true ts s →
    spells d sign (TRegex re :: OpenParen :: ts) (str "matches(" ++ q :: str_bytes k ++ q :: "," :: s).

(** ** The tokenizer over a whole text *)

Inductive produces : Tokenizer → list Token → Prop :=
| pr_end t t' : next tokens t = Ok (None, t') → produces t []
| pr_token t t' k ts : next tokens t = Ok (Some k, t') → produces t' ts → produces t (k :: ts).

Lemma parse_loop_produces fuel t ts last p :
  produces t ts → (length ts < fuel)%nat →
  parse_loop fuel tokens last t p = ('(_, p) ← run last ts p; parse_end p).
Proof.
  intros Hp. revert fuel last p. induction Hp as [t t' Hn|t t' k ts Hn Hp IH]; intros fuel last p Hf.
  all: destruct fuel as [|fuel]; [cbn in Hf; lia|]; cbn [parse_loop]; rewrite Hn.
  - done.
  - cbn [mbind result_bind run]. destruct (parse_token last k p) as [[last' p']|e]; [|done].
    apply IH. cbn in Hf. lia.
Qed.

Definition boundary (d : Z) (sign : bool) (s : bytes) : Tokenizer :=
  mkTokenizer s [] d [] false false false sign false.

(** The words of the buffer *)
Definition word_token (w : bytes) : result ParseError Token :=
  if existsb is_digit w && negb (existsb alpha_byte w) then
    if existsb is_dot w then
      match f_parse w with Some f => Ok (TConstant (CFloat f)) | None => Err InvalidFloat end
    else match parse_i64 w with Some n => Ok (TConstant (CInteger n)) | None => Err InvalidInteger end
  else parse_name tokens (existsb is_digit w) (existsb is_dot w) w.

Lemma parse_buf_word it w d nt sign eof t :
  word_token w = Ok t →
  parse_buf tokens (mkTokenizer it w d nt (existsb is_digit w) (existsb is_dot w) (existsb alpha_byte w) sign eof)
  = Ok (t, mkTokenizer it [] d nt false false false sign eof).
Proof.
  unfold word_token, parse_buf. cbn. intros Hw.
  destruct (existsb is_digit w), (existsb alpha_byte w); cbn in *; try (by rewrite Hw).
  destruct (existsb is_dot w); [destruct (f_parse w)|destruct (parse_i64 w)]; by simplify_eq/=.
Qed.

Lemma word_char_byte it buf d nt hn hd ha sign eof c :
  word_byte c = true →
  word_char (mkTokenizer it buf d nt hn hd ha sign eof) c =
  Some (mkTokenizer it (buf ++ [c]) d nt (hn || is_digit c) (hd || is_dot c) (ha || alpha_byte c) sign eof).
Proof.
  unfold word_byte, name_byte. intros Hc. unfold word_char. fold (alpha_byte c) (is_dot c).
  destruct (alpha_byte c) eqn:Ha.
  - assert (is_digit c = false ∧ is_dot c = false) as [-> ->].
    { revert Ha. unfold alpha_byte, is_alpha, is_upper, is_lower, is_digit, is_dot. lia. }
    cbn. by rewrite !orb_false_r, orb_true_r.
  - destruct (is_digit c) eqn:Hd.
    + assert (is_dot c = false) as -> by (revert Hd; unfold is_digit, is_dot; lia).
      cbn. by rewrite !orb_false_r, orb_true_r.
    + change (is_dot c = true) in Hc. rewrite Hc. cbn. by rewrite !orb_false_r, orb_true_r.
Qed.

Lemma next_loop_word it buf d nt hn hd ha sign eof w s :
  Forall (λ c, word_byte c = true) w →
  next_loop tokens (mkTokenizer it buf d nt hn hd ha sign eof) (w ++ s) =
  next_loop tokens (mkTokenizer it (buf ++ w) d nt (hn || existsb is_digit w) (hd || existsb is_dot w)
    (ha || existsb alpha_byte w) sign eof) s.
Proof.
  intros Hw. revert buf hn hd ha. induction Hw as [|c w Hc Hw IH]; intros buf hn hd ha; cbn [app existsb].
  - by rewrite app_nil_r, !orb_false_r.
  - cbn [next_loop]. assert ((c =? "}") = false) as -> by (by destruct (Z.eqb_spec c "}") as [->|]).
    rewrite word_char_byte by done. rewrite IH. by rewrite <- app_assoc, !orb_assoc.
Qed.

(** The tokenizer between two tokens, while [next] owns the rest of the input, and after a word *)
Definition idle (d : Z) (sign : bool) : Tokenizer := boundary d sign [].
Definition holding (d : Z) (sign : bool) (w : bytes) : Tokenizer :=
  mkTokenizer [] w d [] (existsb is_digit w) (existsb is_dot w) (existsb alpha_byte w) sign false.

(** A word that the tokenizer takes as a whole *)
Definition whole_word (w : bytes) (t : Token) : Prop :=
  w ≠ [] ∧ Forall (λ c, word_byte c = true) w ∧ last w ≠ Some "." ∧ w ≠ str "matches" ∧ word_token w = Ok t.

Lemma word_char_delimiter t c it :
  Forall (λ c, word_byte c = true) (t_buf t) → last (t_buf t) ≠ Some "." →
  delimited (c :: it) → word_char t c = None.
Proof.
  intros Hbuf Hlast (Hc & Hcolon & _). unfold word_char.
  apply orb_false_iff in Hc as [Hname Hdot]. apply orb_false_iff in Hname as [Halpha Hdigit].
  unfold alpha_byte in Halpha. rewrite Halpha, Hdigit, Hdot.
  assert (Hb : "[" ∉ t_buf t).
  { intros Hin. rewrite Forall_forall in Hbuf. by specialize (Hbuf _ Hin). }
  assert (Hl : last_is ["["] (t_buf t) = false ∧ last_is ["["; "."] (t_buf t) = false).
  { unfold last_is. destruct (last (t_buf t)) as [x|] eqn:Hx; [|done].
    apply last_Some_elem_of in Hx as Hin.
    split; apply bool_decide_eq_false; rewrite ?elem_of_cons, ?elem_of_nil; naive_solver. }
  destruct Hl as [-> ->]. rewrite (bool_decide_eq_false_2 ("[" ∈ _)) by done.
  by rewrite (proj2 (Z.eqb_neq c ":")), !andb_false_r by done.
Qed.

Lemma prev_token_idle d sign c it : prev_token tokens (idle d sign) c it = Ok (None, idle d sign, it).
Proof. unfold prev_token. by destruct (c =? "("). Qed.

Lemma prev_token_holding d sign w t c it :
  whole_word w t → prev_token tokens (holding d sign w) c it = Ok (Some t, idle d false, it).
Proof.
  intros (Hne & Hw & Hlast & Hm & Ht). unfold prev_token. cbn [t_buf holding].
  rewrite (bool_decide_eq_false_2 (w = str "matches")), (bool_decide_eq_false_2 (w = [])) by done.
  rewrite andb_false_r. cbn [negb].
  change ((holding d sign w) <| t_is_start := false |>) with (holding d false w).
  unfold holding. by rewrite (parse_buf_word _ _ _ _ _ _ _ Ht).
Qed.

(** After a word the next character is read as between two tokens. *)
Lemma end_word_holding d sign w t c it :
  whole_word w t →
  end_word tokens (holding d sign w) c it =
  match end_word tokens (idle d false) c it with
  | Err e => Err e
  | Ok None => Ok (Some (t, boundary d false it))
  | Ok (Some (k, t')) => Ok (Some (t, t' <| t_next_token := [k] |>))
  end.
Proof.
  intros Hw. unfold end_word. rewrite (prev_token_holding _ _ _ _ _ _ Hw), prev_token_idle.
  cbn [mbind result_bind]. destruct (c =? "-"); [done|].
  by destruct (operator_token (t_depth (idle d false)) c it) as [[[[k d'] it']|]|e].
Qed.

Lemma end_word_idle d sign c it k t :
  end_word tokens (idle d sign) c it = Ok (Some (k, t)) → ∃ d' sign' it', t = boundary d' sign' it'.
Proof.
  unfold end_word. rewrite prev_token_idle. cbn [mbind result_bind].
  destruct (c =? "-"); [intros [= _ <-]; by eexists _, _, _|].
  destruct (operator_token (t_depth (idle d sign)) c it) as [[[[k' d'] it']|]|e]; intros [=]; subst.
  by eexists _, _, _.
Qed.

(** Between two tokens [next] is decided by the next character. *)
Lemma next_boundary d sign c it :
  delimited (c :: it) →
  next tokens (boundary d sign (c :: it)) =
  match end_word tokens (idle d sign) c it with
  | Err e => Err e
  | Ok (Some (k, t)) => Ok (Some k, t)
  | Ok None => next tokens (boundary d sign it)
  end.
Proof.
  intros Hc. unfold next. cbn [t_next_token t_is_eof boundary t_iter next_loop].
  rewrite (proj2 (Z.eqb_neq c "}")) by apply Hc.
  rewrite (word_char_delimiter _ _ it) by (done || constructor). done.
Qed.

Lemma next_word d sign w t s :
  whole_word w t →
  next tokens (boundary d sign (w ++ s)) = next_loop tokens (holding d sign w) s.
Proof.
  intros (_ & Hw & _). change (next_loop tokens (idle d sign) (w ++ s) = next_loop tokens (holding d sign w) s).
  unfold idle, boundary. by rewrite next_loop_word.
Qed.

Lemma finish_holding d sign w t :
  whole_word w t →
  next_loop tokens (holding d sign w) [] = if 0 <? d then Err UnmatchedOpen else Ok (Some t, boundary d sign []).
Proof.
  intros (Hne & _ & _ & _ & Ht). cbn [next_loop].
  change ((holding d sign w) <| t_iter := [] |>) with (holding d sign w).
  unfold finish. cbn [t_depth t_buf holding]. destruct (0 <? d); [done|].
  rewrite (bool_decide_eq_false_2 (w = [])) by done. cbn [negb]. unfold holding.
  by rewrite (parse_buf_word _ _ _ _ _ _ _ Ht).
Qed.

Lemma next_boundary_end d sign :
  next tokens (boundary d sign []) = if 0 <? d then Err UnmatchedOpen else Ok (None, boundary d sign []).
Proof. done. Qed.

Lemma produces_word d sign w t s ts :
  whole_word w t → delimited s → produces (boundary d false s) ts →
  produces (boundary d sign (w ++ s)) (t :: ts).
Proof.
  intros Hw Hs Hp. pose proof Hw as (Hne & Hbytes & Hlast & _ & Ht).
  pose proof (next_word d sign w t s Hw) as Hn. destruct s as [|c it].
  - rewrite (finish_holding _ _ _ _ Hw) in Hn. pose proof (next_boundary_end d false) as Hb.
    inversion Hp as [? ? Hx|? ? ? ? Hx]; subst; rewrite Hb in Hx; destruct (0 <? d) eqn:Hd; try done.
    econstructor; [exact Hn|]. econstructor. by rewrite next_boundary_end, Hd.
  - cbn [next_loop] in Hn. rewrite (proj2 (Z.eqb_neq c "}")) in Hn by apply Hs.
    rewrite (word_char_delimiter _ _ it) in Hn by done. rewrite (end_word_holding _ _ _ _ _ _ Hw) in Hn.
    pose proof (next_boundary d false c it Hs) as Hb.
    destruct (end_word tokens (idle d false) c it) as [[[k t']|]|e] eqn:He.
    + destruct (end_word_idle _ _ _ _ _ _ He) as (d' & sign' & it' & ->).
      econstructor; [exact Hn|]. inversion Hp as [? ? Hx|? t'' ? ? Hx Hp']; subst; rewrite Hb in Hx; [done|].
      simplify_eq. by econstructor.
    + econstructor; [exact Hn|].
      inversion Hp as [? ? Hx|? t'' ? ? Hx Hp']; subst; rewrite Hb in Hx; by econstructor.
    + inversion Hp as [? ? Hx|? t'' ? ? Hx Hp']; by rewrite Hb in Hx.
Qed.

(** ** The words of the language are whole words *)

Lemma digits_word w :
  w ≠ [] → Forall (λ c, is_digit c = true) w →
  Forall (λ c, word_byte c = true) w ∧ existsb is_digit w = true ∧ existsb is_dot w = false ∧
  existsb alpha_byte w = false ∧ last w ≠ Some ".".
Proof.
  intros Hne Hw.
  assert (Hno : ∀ f, (∀ c, is_digit c = true → f c = false) → existsb f w = false).
  { intros f Hf. clear Hne. induction Hw as [|c w Hc Hw IH]; [done|]. cbn. by rewrite Hf, IH. }
  split_and!.
  - eapply Forall_impl; [exact Hw|]. cbn. intros c Hc. unfold word_byte, name_byte. by rewrite Hc, orb_true_r.
  - destruct Hw as [|c w Hc Hw]; [done|]. cbn. by rewrite Hc.
  - apply Hno. intros c. unfold is_digit, is_dot. lia.
  - apply Hno. intros c. unfold is_digit, alpha_byte, is_alpha, is_upper, is_lower. lia.
  - intros Hl. apply last_Some_elem_of in Hl. rewrite Forall_forall in Hw. by apply Hw in Hl.
Qed.

Lemma parse_i64_print n : 0 ≤ n ≤ i64_max → parse_i64 (uint_to_string n) = Some n.
Proof.
  intros Hn. unfold i64_max in Hn. destruct (uint_to_string_digits n) as [Hne Hd]; [lia|].
  pose proof (dec_digits_print 64 n) as Hp. unfold fits in Hp. specialize (Hp ltac:(lia)).
  unfold parse_i64. destruct (uint_to_string n) as [|b l]; [done|].
  apply Forall_cons in Hd as [Hb _]. apply is_digit_range in Hb.
  rewrite !(proj2 (Z.eqb_neq b _)) by lia. rewrite Hp. cbn.
  unfold i64_min, i64_max. by rewrite !(proj2 (Z.leb_le _ _)) by lia.
Qed.

Lemma find_function_None {A} w i (l : list (bytes * A * Z)) :
  w ∉ map (λ f, f.1.1) l → find_function w i l = None.
Proof.
  revert i. induction l as [|[[name f] n] l IH]; intros i Hw; [done|]. cbn in *.
  rewrite bool_decide_eq_false_2; [apply IH|]; set_solver.
Qed.

Lemma find_service_None w (l : list (bytes * Z * Z)) :
  w ∉ map (λ f, f.1.1) l → find (λ f, bool_decide (f.1.1 = w)) l = None.
Proof.
  induction l as [|f l IH]; intros Hw; [done|]. cbn in *.
  rewrite bool_decide_eq_false_2; [apply IH|]; set_solver.
Qed.

Lemma lookup_function_None w : w ∉ function_names → lookup_function w = None.
Proof.
  unfold function_names. rewrite not_elem_of_app. intros [Hf Ha]. unfold lookup_function.
  by rewrite find_function_None, find_service_None.
Qed.

Lemma whole_integer n : 0 ≤ n ≤ i64_max → whole_word (uint_to_string n) (TConstant (CInteger n)).
Proof.
  intros Hn. destruct (uint_to_string_digits n) as [Hne Hd]; [lia|].
  destruct (digits_word _ Hne Hd) as (Hw & Hdig & Hdot & Ha & Hlast). split_and!; try done.
  - intros Hm. rewrite Hm in Hd. by inversion Hd.
  - unfold word_token. by rewrite Hdig, Hdot, Ha, parse_i64_print.
Qed.

Lemma whole_float a b f :
  a ≠ [] → b ≠ [] → Forall (λ c, is_digit c = true) a → Forall (λ c, is_digit c = true) b →
  f_parse (a ++ "." :: b) = Some f → whole_word (a ++ "." :: b) (TConstant (CFloat f)).
Proof.
  intros Ha Hb Hda Hdb Hf. destruct (digits_word _ Ha Hda) as (Hwa & Hdiga & Hdota & Haa & _).
  destruct (digits_word _ Hb Hdb) as (Hwb & Hdigb & Hdotb & Hab & Hlast).
  split_and!; [by destruct a| | | |].
  - apply Forall_app. split; [done|]. by constructor.
  - rewrite last_app, last_cons. by destruct (last b) eqn:Hl; [|apply last_None in Hl].
  - intros Hm. destruct a; [done|]. apply Forall_cons in Hda as [Hd _].
    injection Hm as ->. by apply is_digit_range in Hd.
  - unfold word_token. rewrite !existsb_app. cbn. by rewrite Hdiga, Haa, Hab, orb_true_r, Hf.
Qed.

Lemma whole_capture n : fits 32 n → whole_word ("$" :: uint_to_string n) (TCapture n).
Proof.
  intros Hn. destruct (uint_to_string_digits n) as [Hne Hd]; [unfold fits in Hn; lia|].
  destruct (digits_word _ Hne Hd) as (Hw & Hdig & Hdot & Ha & Hlast). split_and!; try done.
  - by constructor.
  - by destruct (uint_to_string n).
  - unfold word_token. cbn [existsb]. rewrite Hdig.
    change (parse_name tokens true (existsb is_dot (uint_to_string n)) ("$" :: uint_to_string n) = Ok (TCapture n)).
    unfold parse_name. cbn [negb andb]. change ("$" =? "$") with true. cbn match.
    by rewrite parse_uint_print.
Qed.

Lemma whole_function i w f n :
  FUNCTIONS !! i = Some (w, f, n) → whole_word w (TFunction w (Z.of_nat i) n).
Proof.
  intros Hi. pose proof (lookup_lt_Some _ _ _ Hi) as Hlt. cbn in Hlt.
  do 41 (destruct i as [|i]; [injection Hi as <- <- <-; split_and!; [done|by repeat constructor|done..]|]).
  lia.
Qed.

Lemma whole_service w i n :
  (w, i, n) ∈ ASYNC_FUNCTIONS → whole_word w (TFunction w (i + Z.of_nat (length FUNCTIONS)) n).
Proof.
  intros Hi. unfold ASYNC_FUNCTIONS in Hi.
  repeat (apply elem_of_cons in Hi as [[= -> -> ->]|Hi]; [split_and!; [done|by repeat constructor|done..]|]).
  by apply elem_of_nil in Hi.
Qed.

Lemma name_bytes_word w :
  Forall (λ c, name_byte c = true) w → Forall (λ c, word_byte c = true) w ∧ existsb is_dot w = false.
Proof.
  intros Hw. induction Hw as [|c w Hc Hw [IH1 IH2]]; [done|]. split.
  - constructor; [|done]. unfold word_byte. by rewrite Hc.
  - cbn. rewrite IH2, orb_false_r. revert Hc.
    unfold name_byte, alpha_byte, is_alpha, is_upper, is_lower, is_digit, is_dot. lia.
Qed.

Lemma last_no_dot w : Forall (λ c, name_byte c = true) w → last w ≠ Some ".".
Proof.
  intros Hw Hl. apply last_Some_elem_of in Hl. rewrite Forall_forall in Hw. by apply Hw in Hl.
Qed.

Lemma whole_name c w t :
  is_alpha c || (c =? "_") = true → Forall (λ c, name_byte c = true) w →
  (c :: w) ∉ [str "true"; str "false"; str "matches"] ++ function_names →
  tokens !! (c :: w) = Some t → whole_word (c :: w) t.
Proof.
  rewrite not_elem_of_app, !not_elem_of_cons. intros Hc Hw [(Ht & Hf & Hm & _) Hfn] Htok.
  assert (Hcw : Forall (λ c, name_byte c = true) (c :: w)).
  { constructor; [|done]. unfold name_byte, alpha_byte. by rewrite Hc. }
  destruct (name_bytes_word _ Hcw) as [Hb Hdot]. split_and!; try done; [by apply last_no_dot|].
  unfold word_token. rewrite Hdot. cbn [existsb]. unfold alpha_byte at 1. rewrite Hc. cbn [orb negb].
  rewrite andb_false_r. unfold parse_name.
  rewrite (bool_decide_eq_false_2 (_ = str "true")), (bool_decide_eq_false_2 (_ = str "false")) by done.
  rewrite !andb_false_r. assert ((c =? "$") = false) as ->.
  { revert Hc. unfold is_alpha, is_upper, is_lower. lia. }
  by rewrite lookup_function_None, Htok.
Qed.

Lemma function_names_alpha w : w ∈ function_names → ∃ c l, w = c :: l ∧ is_digit c = false.
Proof.
  intros Hw. assert (Hall : Forall (λ w, match w with c :: _ => is_digit c = false | [] => False end) function_names).
  { unfold function_names. apply Forall_app. split; by repeat constructor. }
  rewrite Forall_forall in Hall. specialize (Hall _ Hw). destruct w as [|c l]; [done|]. by exists c, l.
Qed.

Lemma filter_digits w : Forall (λ c, is_digit c = true) w → filter (λ c, is_digit c = true) w = w.
Proof. intros Hw. induction Hw as [|c w Hc Hw IH]; [done|]. rewrite filter_cons_True by done. by rewrite IH. Qed.

Lemma filter_not_digits w :
  Forall (λ c, is_digit c = true) w → filter (λ c, negb (is_digit c) && negb (is_whitespace c) = true) w = [].
Proof.
  intros Hw. induction Hw as [|c w Hc Hw IH]; [done|]. rewrite filter_cons_False; [done|]. by rewrite Hc.
Qed.

Lemma duration_parse_unit n u m :
  0 < n → duration_unit u = Some m → n * m ≤ i64_max → duration_parse (uint_to_string n ++ u) = Some (n * m).
Proof.
  intros Hn Hu Hm. destruct (uint_to_string_digits n) as [_ Hd]; [lia|]. unfold i64_max in Hm.
  unfold duration_parse. rewrite !filter_app, filter_digits, filter_not_digits by done. cbn [app].
  assert (0 < m ∧ filter (λ c, is_digit c = true) u = [] ∧
    map to_lower (filter (λ c, negb (is_digit c) && negb (is_whitespace c) = true) u) = u) as (Hm0 & -> & ->).
  { unfold duration_unit in Hu. repeat case_bool_decide; by simplify_eq/=. }
  rewrite app_nil_r, parse_uint_print by (unfold fits; nia).
  assert (Hw : wrap 64 (n * m) = n * m) by (unfold wrap; rewrite Z.mod_small; lia).
  unfold duration_unit in Hu. repeat case_bool_decide; simplify_eq/=.
  all: by rewrite (proj2 (Z.ltb_lt _ _)), Hw by done.
Qed.

Lemma whole_duration n u m :
  0 < n → duration_unit u = Some m → n * m ≤ i64_max → tokens !! (uint_to_string n ++ u) = None →
  whole_word (uint_to_string n ++ u) (TConstant (CInteger (n * m))).
Proof.
  intros Hn Hu Hm Htok. pose proof (duration_parse_unit _ _ _ Hn Hu Hm) as Hdur.
  destruct (uint_to_string_digits n) as [Hne Hd]; [lia|].
  destruct (digits_word _ Hne Hd) as (Hw & Hdig & Hdot & Ha & Hlast).
  assert (Hub : 0 < m ∧ u ≠ [] ∧ Forall (λ c, name_byte c = true) u ∧ existsb alpha_byte u = true).
  { unfold duration_unit in Hu. repeat case_bool_decide; simplify_eq/=; split_and!; by repeat constructor. }
  destruct Hub as (Hm0 & Hune & Hub & Hua). destruct (name_bytes_word _ Hub) as [Huw Hudot].
  destruct (uint_to_string n) as [|c w] eqn:Huint; [done|]. apply Forall_cons in Hd as [Hc _].
  assert (Hfirst : ∀ x l, is_digit x = false → (c :: w) ++ u ≠ x :: l) by (intros x l Hx [= -> _]; congruence).
  split_and!; [done| | | |].
  - by apply Forall_app.
  - rewrite last_app. destruct (last u) eqn:Hl; [|by apply last_None in Hl]. rewrite <- Hl. by apply last_no_dot.
  - by apply Hfirst.
  - unfold word_token. rewrite !existsb_app, Hdig, Hua, Hdot, Hudot. cbn [orb]. rewrite orb_true_r. cbn [negb andb].
    unfold parse_name. cbn [negb andb app]. cbn [app] in Htok, Hdur.
    assert ((c =? "$") = false) as -> by (revert Hc; unfold is_digit; lia).
    rewrite lookup_function_None, Htok, Hdur.
    + do 3 f_equal. unfold as_i64, i64_min, i64_max in *. rewrite Z.mod_small; nia.
    + intros Hin. apply function_names_alpha in Hin as (x & l & Hx & Hxd). by apply (Hfirst x l) in Hxd.
Qed.

Lemma lexeme_whole w t : lexeme w t → whole_word w t.
Proof.
  destruct 1.
  - by apply whole_integer.
  - by apply whole_float.
  - split_and!; [done|by repeat constructor|done..].
  - split_and!; [done|by repeat constructor|done..].
  - by apply whole_capture.
  - by eapply whole_function.
  - by apply whole_service.
  - by apply whole_name.
  - by apply whole_duration.
Qed.

(** ** Texts produce their tokens *)

Lemma string_loop_quote q last buf k s :
  last ≠ "\" → Forall (λ b, b ≠ q ∧ b ≠ "\") k → string_loop q last buf (k ++ q :: s) = Some (buf ++ k, s).
Proof.
  intros Hlast Hk. revert last buf Hlast. induction Hk as [|b k [Hq Hb] Hk IH]; intros last buf Hlast; cbn.
  - by rewrite (proj2 (Z.eqb_neq last _)), Z.eqb_refl, app_nil_r by done.
  - rewrite (proj2 (Z.eqb_neq last _)), (proj2 (Z.eqb_neq b q)) by done. cbn. rewrite IH by done.
    by rewrite <- app_assoc.
Qed.

Lemma parse_string_quote q k s : quotable q k → parse_string q (str_bytes k ++ q :: s) = Ok (k, s).
Proof.
  intros (_ & Hc & Hk). unfold parse_string. rewrite string_loop_quote by done. cbn [app].
  by rewrite from_utf8_str.
Qed.

Lemma produces_next d sign c it k t ts :
  delimited (c :: it) → end_word tokens (idle d sign) c it = Ok (Some (k, t)) → produces t ts →
  produces (boundary d sign (c :: it)) (k :: ts).
Proof. intros Hc He Hp. econstructor; [|exact Hp]. by rewrite next_boundary, He. Qed.

Lemma produces_blank d sign c it ts :
  blank c → produces (boundary d sign it) ts → produces (boundary d sign (c :: it)) ts.
Proof.
  intros Hc Hp. assert (Hn : next tokens (boundary d sign (c :: it)) = next tokens (boundary d sign it)).
  { rewrite next_boundary by (destruct Hc as [-> | [-> | ->]]; done).
    unfold end_word. rewrite prev_token_idle. by destruct Hc as [-> | [-> | ->]]. }
  inversion Hp; subst; econstructor; by rewrite ?Hn.
Qed.

Lemma end_word_operator d sign c it k d' it' :
  c ≠ "-" → operator_token d c it = Ok (Some (k, d', it')) →
  end_word tokens (idle d sign) c it = Ok (Some (k, boundary d' (starts_operand k) it')).
Proof.
  intros Hc Ho. unfold end_word. rewrite prev_token_idle. cbn [mbind result_bind].
  rewrite (proj2 (Z.eqb_neq c "-")) by done. change (t_depth (idle d sign)) with d. by rewrite Ho.
Qed.

Lemma symbol_token y t no s d :
  (y, t, no) ∈ symbols → follows no s →
  ∃ c l, y = c :: l ∧ delimited (c :: l ++ s) ∧ c ≠ "-" ∧ operator_token d c (l ++ s) = Ok (Some (t, d, s)).
Proof.
  intros Hy Hf. unfold symbols in Hy.
  repeat (apply elem_of_cons in Hy as [[= -> -> ->]|Hy];
    [eexists _, _; split_and!; [done..|]; destruct Hf as [Hno|Hno]; try done;
     destruct s as [|x s]; try done; cbn in Hno; unfold operator_token; cbn;
     rewrite (proj2 (Z.eqb_neq x _)) by congruence; done|]).
  by apply elem_of_nil in Hy.
Qed.

Lemma find_char_here c cs s : is_whitespace c = false → c ∈ cs → find_char cs (c :: s) = Ok (c, s).
Proof. intros Hw Hin. cbn. by rewrite Hw, bool_decide_eq_true_2. Qed.

Lemma next_matches d sign q k re s :
  quotable q k → regex_new k = Some re →
  next tokens (boundary d sign (str "matches(" ++ q :: str_bytes k ++ q :: "," :: s)) =
  Ok (Some (TRegex re), (boundary (d + 1) true s) <| t_next_token := [OpenParen] |>).
Proof.
  intros Hq Hre. set (rest := q :: str_bytes k ++ q :: "," :: s).
  change (next_loop tokens (idle d sign) (str "matches" ++ "(" :: rest) =
    Ok (Some (TRegex re), (boundary (d + 1) true s) <| t_next_token := [OpenParen] |>)).
  unfold idle, boundary. rewrite next_loop_word by (by repeat constructor).
  change (next_loop tokens (holding d sign (str "matches")) ("(" :: rest) =
    Ok (Some (TRegex re), (boundary (d + 1) true s) <| t_next_token := [OpenParen] |>)).
  assert (Hprev : prev_token tokens (holding d sign (str "matches")) "(" rest =
    Ok (Some (TRegex re), idle d sign, s)).
  { unfold prev_token. cbn [t_buf holding]. rewrite bool_decide_eq_true_2 by done. cbn match.
    subst rest. rewrite find_char_here by (destruct Hq as [[-> | ->] _]; set_solver).
    cbn [mbind result_bind]. rewrite parse_string_quote by done. cbn [mbind result_bind]. rewrite Hre.
    by rewrite find_char_here by set_solver. }
  cbn [next_loop]. rewrite (word_char_delimiter _ _ rest) by (done || by repeat constructor).
  unfold end_word. by rewrite Hprev.
Qed.

Lemma spells_produces d sign ts s : spells d sign ts s → produces (boundary d sign s) ts.
Proof.
  induction 1 as [sign|d sign ts c s Hc _ IH|d sign ts w t s Hw Hs _ IH|d sign ts y t no s Hy Hf _ IH
    |d sign ts s _ IH|d sign ts s Hd _ IH|d ts s _ IH|d ts s _ IH|d sign ts q k s Hq _ IH
    |d sign ts q k re s Hq Hre _ IH].
  - by econstructor.
  - by apply produces_blank.
  - apply produces_word; [by apply lexeme_whole|done..].
  - destruct (symbol_token y t no s d Hy Hf) as (c & l & -> & Hdel & Hminus & Ho).
    eapply produces_next; [done|by apply end_word_operator|done].
  - by eapply produces_next; [|apply end_word_operator|].
  - eapply produces_next; [done|apply end_word_operator; [done|]|exact IH].
    unfold operator_token. cbn. rewrite (proj2 (Z.eqb_neq _ _)), Z.add_simpl_r by lia. done.
  - by eapply produces_next.
  - by eapply produces_next.
  - eapply produces_next; [by destruct Hq as [[-> | ->] _]|apply end_word_operator|exact IH].
    + by destruct Hq as [[-> | ->] _].
    + pose proof (parse_string_quote q k s Hq) as Hp. destruct Hq as [[-> | ->] _];
        unfold operator_token; cbn -[parse_string]; by rewrite Hp.
  - econstructor; [by apply next_matches|]. by econstructor.
Qed.

Lemma spells_length d sign ts s : spells d sign ts s → (length ts ≤ length s)%nat.
Proof.
  induction 1; cbn in *; try lia; rewrite ?length_app in *; cbn; try lia.
  - apply lexeme_whole in H0 as (Hne & _). destruct w; [done|]. cbn. lia.
  - destruct (symbol_token y t no s d H0 H1) as (c & l & -> & _). cbn. lia.
Qed.

Lemma parse_spelled ts s : spells 0 true ts s → parse tokens s = parse_tokens ts.
Proof.
  intros Hs. unfold parse, parse_tokens. apply parse_loop_produces; [by apply spells_produces|].
  apply spells_length in Hs. lia.
Qed.
End Text.

Section Main.
Context `{ExprBase} {W E : Type}.

(** C11. A text that spells a sentence of the grammar is parsed to the items of the tree the
    sentence stands for, and evaluating them computes the meaning of the tree: the operands
    from left to right by the precedences of the operators, calls with all their arguments, a
    regular expression with its captures, and no more of [&&] and [||] than is needed. *)
Theorem expression_evaluated (tokens : TokenMap) (resolve_variable : Z → Value)
    (eval_fnc : Z → list Value → W → result E Value * W) (s : bytes) (ts : list Token) (h : bool) (e : ast) :
  spells tokens 0 true ts s → derives (Level 1) h e ts → Z.of_nat (length (compile e)) < 2 ^ 32 →
  ∃ items, parse tokens s = Ok items ∧
    ∀ st, expr_eval resolve_variable eval_fnc items st = denote resolve_variable eval_fnc e st.
Proof.
  intros Hs Hd Hlen. exists (compile e). split.
  - rewrite (parse_spelled _ _ _ Hs). by eapply parse_sentence.
  - intros st. by apply expr_eval_compile.
Qed.
End Main.

(** ** A concrete text *)

Module TextExample.
Import ExprExample.

Definition text : bytes := str "!sender || count([rcpt, 2])[0] >= 5m".

Definition text_tokens : list Token := [
  TUnary Not; TVariable 2; TBinary Or; TFunction (str "count") 0 1; OpenParen; OpenBracket; TVariable 0;
  Comma; TConstant (CInteger 2); CloseBracket; CloseParen; OpenBracket; TConstant (CInteger 0);
  CloseBracket; TBinary OpGe; TConstant (CInteger 300000)
].

Definition tree : ast :=
  EBinary Or (EUnary Not (EVariable 2))
    (EBinary OpGe
       (EIndex (ECall (str "count") 0 [EArray [EVariable 0; EConstant (CInteger 2)]]) (EConstant (CInteger 0)))
       (EConstant (CInteger 300000))).

Lemma symbol_here d sign ts y t no s :
  (y, t, no) ∈ symbols → follows no s → spells names d (starts_operand t) ts s → spells names d sign (t :: ts) (y ++ s).
Proof. by econstructor. Qed.

Ltac symbol y no := eapply (symbol_here _ _ _ y _ no); [set_solver|by (left + right)|].
Ltac name w := eapply (sp_word _ _ _ _ w); [by apply lex_name; [|repeat constructor|vm_compute; set_solver|]|done|].
Ltac integer n := eapply (sp_word _ _ _ _ (uint_to_string n)); [by apply lex_integer|done|].

Lemma text_spelled : spells names 0 true text_tokens text.
Proof.
  unfold text_tokens. change text with (["!"] ++ str "sender" ++ " " :: ["|"; "|"] ++ " " :: str "count" ++ "(" ::
    ["["] ++ str "rcpt" ++ [","] ++ " " :: uint_to_string 2 ++ ["]"] ++ ")" :: ["["] ++ uint_to_string 0 ++ ["]"] ++
    " " :: [">"; "="] ++ " " :: (uint_to_string 5 ++ str "m") ++ []).
  symbol ["!"] (Some "="). name (str "sender"). apply sp_blank; [by left|].
  symbol ["|"; "|"] (@None Z). apply sp_blank; [by left|].
  eapply (sp_word _ _ _ _ (str "count")); [by apply (lex_function _ _ fn_count 1 0)|done|].
  apply sp_open. symbol ["["] (@None Z). name (str "rcpt"). symbol [","] (@None Z). apply sp_blank; [by left|].
  integer 2. symbol ["]"] (@None Z). apply (sp_close _ 0); [lia|]. symbol ["["] (@None Z).
  integer 0. symbol ["]"] (@None Z). apply sp_blank; [by left|]. symbol [">"; "="] (@None Z).
  apply sp_blank; [by left|].
  apply (sp_word _ _ _ _ (uint_to_string 5 ++ str "m") (TConstant (CInteger (5 * 60000)))); [by apply lex_duration|done|].
  apply sp_end.
Qed.

Lemma tree_derived : derives (Level 1) false tree text_tokens.
Proof.
  eapply (d_binary Or _ _ [TUnary Not; TVariable 2]).
  - apply (d_level _ 8); [done|]. apply (d_unary Not true). apply (d_primary true). constructor.
  - apply (d_level _ 5); [done|]. eapply (d_binary OpGe true _
      (TFunction (str "count") 0 1 :: OpenParen :: [OpenBracket; TVariable 0; Comma; TConstant (CInteger 2); CloseBracket]
       ++ CloseParen :: [OpenBracket; TConstant (CInteger 0); CloseBracket])).
    + apply (d_level _ 8); [done|]. apply (d_primary true).
      apply (d_index _ _ [TFunction (str "count") 0 1; OpenParen; OpenBracket; TVariable 0; Comma;
        TConstant (CInteger 2); CloseBracket; CloseParen] true _ [TConstant (CInteger 0)]).
      * apply (d_call (str "count") 0 [EArray [EVariable 0; EConstant (CInteger 2)]] [OpenBracket; TVariable 0; Comma; TConstant (CInteger 2); CloseBracket]); [done..|].
        apply (d_one _ true); [|done]. apply (d_level _ 8); [done|]. apply (d_primary true).
        apply (d_array [EVariable 0; EConstant (CInteger 2)] [TVariable 0; Comma; TConstant (CInteger 2)]); [done|].
        apply (d_more _ true _ [TVariable 0]); [|done|].
        -- apply (d_level _ 8); [done|]. apply (d_primary true). constructor.
        -- apply (d_one _ true); [|done]. apply (d_level _ 8); [done|]. apply (d_primary false). constructor.
      * apply (d_level _ 8); [done|]. apply (d_primary false). constructor.
    + apply (d_level _ 8); [done|]. apply (d_primary false). constructor.
Qed.

Lemma expression_evaluated_witness :
  ∃ items, parse names text = Ok items ∧
    ∀ st, expr_eval session_variables services items st = denote session_variables services tree st.
Proof.
  exact (expression_evaluated names session_variables services text text_tokens false tree
    text_spelled tree_derived eq_refl).
Defined.
End TextExample.
