(* ===== verification/ExprSafe.v ===== *)
(** * Safety of expressions

    For any text: the parser of expressions ends without a panic, and what it accepts
    is evaluated without a panic, calls of functions included, to values whose integers
    are of 64 bits. *)

From coqutil Require Import Datatypes.RecordSettersUsingExistingGetters.
From S2P Require Import Prelude Utf8 Decimal ExprValue ExprFunctions Expr.

#[local] Open Scope chr_scope.
#[local] Open Scope Z_scope.

(** ** Integers *)

Lemma saturate_i64 z : is_i64 (saturate z).
Proof. unfold is_i64, saturate, i64_min, i64_max. lia. Qed.

Lemma as_i64_range z : is_i64 (as_i64 z).
Proof. unfold is_i64, as_i64, i64_min, i64_max. pose proof (Z.mod_pos_bound (z - - 2 ^ 63) (2 ^ 64)). lia. Qed.

Lemma parse_i64_range l n : parse_i64 l = Some n → is_i64 n.
Proof.
  assert (Hs : ∀ (neg : bool) l,
    match l with
    | [] => None
    | _ => v ← dec_digits 64 0 l;
           let v := if neg then - v else v in
           if (i64_min <=? v) && (v <=? i64_max) then Some v else None
    end = Some n → is_i64 n).
  { intros neg k Hk. destruct k as [|c k]; [done|]. destruct (dec_digits 64 0 (c :: k)) as [v|]; [|done].
    cbn in Hk. destruct ((i64_min <=? (if neg then - v else v)) && ((if neg then - v else v) <=? i64_max)) eqn:Hr;
      [|done]. injection Hk as <-. unfold is_i64. lia. }
  destruct l as [|b l]; [done|]. unfold parse_i64.
  destruct (b =? "-"); [apply (Hs true)|]. destruct (b =? "+"); [apply (Hs false)|].
  apply (Hs false (b :: l)).
Qed.

Create HintDb value.

Section Safe.
Context `{ExprBase}.

(** ** Values *)

Inductive value_ok : Value → Prop :=
| ok_string s : value_ok (VString s)
| ok_integer n : is_i64 n → value_ok (VInteger n)
| ok_float f : value_ok (VFloat f)
| ok_array l : Forall value_ok l → value_ok (VArray l).
Hint Constructors value_ok : value.
Hint Resolve saturate_i64 as_i64_range : value.

Lemma array_ok l : value_ok (VArray l) → Forall value_ok l.
Proof. by inversion 1. Qed.

Lemma of_bool_ok b : value_ok (of_bool b).
Proof. constructor. unfold is_i64, i64_min, i64_max. destruct b; lia. Qed.

Lemma of_usize_ok n : value_ok (of_usize n).
Proof. constructor. apply as_i64_range. Qed.

Lemma default_ok : value_ok value_default.
Proof. constructor. Qed.
Hint Resolve of_bool_ok of_usize_ok default_ok : value.

Lemma parse_number_ok v : value_ok v → value_ok (parse_number v).
Proof.
  intros Hv. destruct v as [[|c s]|n|f|l]; cbn [parse_number]; auto with value.
  - constructor. unfold is_i64, i64_min, i64_max. lia.
  - destruct (parse_i64 (c :: s)) as [n|] eqn:Hp; [constructor; by eapply parse_i64_range|].
    destruct (f_parse (c :: s)); constructor. unfold is_i64, i64_min, i64_max. lia.
Qed.

Lemma into_array_ok v : value_ok v → Forall value_ok (into_array v).
Proof.
  intros Hv. destruct v; cbn [into_array]; [..|by apply array_ok].
  all: destruct (is_empty _); [constructor|]; by constructor.
Qed.

(** ** Operators *)

Lemma op_add_ok x y : value_ok x → value_ok y → value_ok (op_add x y).
Proof.
  intros Hx Hy. destruct x, y; cbn [op_add]; auto with value; try (case_bool_decide; auto with value).
  all: constructor; repeat match goal with Hv : value_ok (VArray _) |- _ => apply array_ok in Hv end.
  all: rewrite ?Forall_app, ?Forall_cons, ?Forall_nil; auto with value.
Qed.

Lemma filter_ok (P : Value → Prop) `{∀ v, Decision (P v)} l : Forall value_ok l → Forall value_ok (filter P l).
Proof. intros Hl. apply Forall_forall. intros v [_ Hv]%list_elem_of_filter. by rewrite Forall_forall in Hl; apply Hl. Qed.

Lemma op_subtract_ok x y : value_ok x → value_ok y → value_ok (op_subtract x y).
Proof.
  intros Hx Hy. unfold op_subtract. pose proof (parse_number_ok x Hx). pose proof (parse_number_ok y Hy).
  assert (Hn : value_ok (match parse_number x, parse_number y with
    | VInteger a, VInteger b => VInteger (saturate (a - b))
    | VFloat a, VFloat b => VFloat (f_sub a b)
    | VInteger a, VFloat b => VFloat (f_sub (f_of_int a) b)
    | VFloat a, VInteger b => VFloat (f_sub a (f_of_int b))
    | _, _ => value_default
    end)) by (destruct (parse_number x), (parse_number y); auto with value).
  destruct x, y; auto; constructor; apply filter_ok; by apply array_ok.
Qed.

Lemma op_multiply_ok x y : value_ok (op_multiply x y).
Proof. unfold op_multiply. destruct (parse_number x), (parse_number y); auto with value. Qed.

Lemma op_divide_ok x y : value_ok (op_divide x y).
Proof. unfold op_divide. destruct (parse_number x), (parse_number y); auto with value. Qed.

Lemma op_minus_ok x : value_ok x → value_ok (op_minus x).
Proof.
  intros Hx. unfold op_minus. pose proof (parse_number_ok x Hx).
  destruct (parse_number x); auto with value.
Qed.

Lemma binary_ok op x y : value_ok x → value_ok y → value_ok (binary op x y).
Proof.
  intros Hx Hy. destruct op; cbn [binary].
  all: auto using op_add_ok, op_subtract_ok, op_multiply_ok, op_divide_ok with value.
  all: apply of_bool_ok.
Qed.

Lemma unary_ok op x : value_ok x → value_ok (unary op x).
Proof. intros Hx. destruct op; cbn [unary]; [apply of_bool_ok|by apply op_minus_ok]. Qed.

(** ** Functions *)

Lemma insert_tail_ok lt x (r : list Value) :
  value_ok x → Forall value_ok r → Forall value_ok (insert_tail lt x r).
Proof.
  intros Hx Hr. induction Hr as [|y r Hy Hr IH]; cbn; [by repeat constructor|].
  destruct (lt x y); by repeat constructor.
Qed.

Lemma sort_ok cmp (l : list Value) : Forall value_ok l → Forall value_ok (sort_unstable_by cmp l).
Proof.
  intros Hl. unfold sort_unstable_by. apply Forall_reverse.
  assert (Hf : ∀ f r, (∀ r x, value_ok x → Forall value_ok r → Forall value_ok (f r x)) →
    Forall value_ok r → Forall value_ok (foldl f r l)).
  { intros f. induction Hl as [|x l Hx Hl IH]; intros r Hf Hr; [done|]. apply IH; [done|]. by apply Hf. }
  apply Hf; [|done]. intros r x Hx Hr. by apply insert_tail_ok.
Qed.

Lemma dedup_ok l r :
  Forall value_ok l → Forall value_ok r →
  Forall value_ok (foldl (λ result item, if mem item result then result else result ++ [item]) r l).
Proof.
  intros Hl. revert r. induction Hl as [|x l Hx Hl IH]; intros r Hr; [done|]. cbn. apply IH.
  destruct (mem x r); [done|]. apply Forall_app. by repeat constructor.
Qed.

Lemma transform_ok f v : (∀ s, value_ok (f s)) → value_ok (transform f v).
Proof.
  intros Hf. destruct v; cbn; auto. constructor. apply Forall_map, Forall_true. auto.
Qed.

Lemma strings_ok l : value_ok (VArray (map VString l)).
Proof. constructor. apply Forall_map, Forall_true. auto with value. Qed.
Hint Resolve transform_ok strings_ok : value.

(** The functions of the table are defined for the arguments they declare. *)
Definition total (f : list Value → option Value) (n : Z) : Prop :=
  ∀ args, Z.of_nat (length args) = n → Forall value_ok args → ∃ v, f args = Some v ∧ value_ok v.

Lemma total_1 k : (∀ a, value_ok a → value_ok (k a)) → total (λ v, arg v 0 k) 1.
Proof.
  intros Hk [|a [|b args]] Hlen Hargs; cbn in Hlen; try lia.
  apply Forall_cons in Hargs as [Ha _]. exists (k a). auto.
Qed.

Lemma total_2 k : (∀ a b, value_ok a → value_ok b → value_ok (k a b)) → total (λ v, arg2 v k) 2.
Proof.
  intros Hk [|a [|b [|c args]]] Hlen Hargs; cbn in Hlen; try lia.
  apply Forall_cons in Hargs as [Ha Hargs]. apply Forall_cons in Hargs as [Hb _]. exists (k a b). auto.
Qed.

Lemma total_3 k : (∀ a b c, value_ok (k a b c)) → total (λ v, arg3 v k) 3.
Proof.
  intros Hk [|a [|b [|c [|d args]]]] Hlen Hargs; cbn in Hlen; try lia. exists (k a b c). auto.
Qed.

Lemma pair_ok o : value_ok (pair_or_default o).
Proof. destruct o as [[a b]|]; cbn; auto with value. Qed.

Lemma email_part_ok b a :
  value_ok (transform (λ s,
    match rsplit_once ["@"] s with
    | Some (u, d) =>
        if bool_decide (to_string b = str "local") then VString (trim u)
        else if bool_decide (to_string b = str "domain") then VString (trim d)
        else value_default
    | None => value_default
    end) a).
Proof.
  apply transform_ok. intros s. destruct (rsplit_once _ s) as [[u d]|]; [|auto with value].
  repeat case_bool_decide; auto with value.
Qed.

Lemma count_chars_ok f v : value_ok (count_chars f v).
Proof. apply of_usize_ok. Qed.
Hint Resolve pair_ok email_part_ok count_chars_ok : value.

Lemma functions_total : Forall (λ e, total e.1.2 e.2) FUNCTIONS.
Proof.
  unfold FUNCTIONS. repeat apply Forall_cons_2; [..|by apply Forall_nil_2]; cbn [fst snd].
  all: first [apply total_1; intros a Ha | apply total_2; intros a b Ha Hb | apply total_3; intros a b c].
  all: try solve [auto with value | destruct a; auto with value
    | apply transform_ok; intros s; case_match; auto with value].
  - constructor. destruct (to_bool b); by apply sort_ok, into_array_ok.
  - constructor. apply dedup_ok; [by apply into_array_ok|constructor].
  - destruct a; auto. constructor. by apply filter_ok, array_ok.
Qed.

Lemma functions_arity e : e ∈ FUNCTIONS → 0 ≤ e.2.
Proof.
  intros He. assert (Hall : Forall (λ e, 0 ≤ e.2) FUNCTIONS) by (unfold FUNCTIONS; repeat constructor; cbn; lia).
  by rewrite Forall_forall in Hall; apply Hall.
Qed.

(** ** Evaluation *)

(** The arguments that a call passes are those its function declares. *)
Definition call_ok (id num_args : Z) : Prop :=
  match FUNCTIONS !! Z.to_nat id with Some (_, _, n) => num_args = n | None => True end.

Definition item_ok (i : ExpressionItem) : Prop :=
  match i with
  | IConstant c => value_ok (of_constant c)
  | IFunction id num_args => call_ok id num_args
  | _ => True
  end.

Section Evaluation.
Context {W E : Type}.
Variable resolve_variable : Z → Value.
Variable eval_fnc : Z → list Value → W → result E Value * W.
Hypothesis resolve_ok : ∀ v, value_ok (resolve_variable v).
Hypothesis eval_fnc_ok : ∀ id args w v w',
  Forall value_ok args → eval_fnc id args w = (Ok v, w') → value_ok v.

(** No panic, and a good value *)
Definition outcome_ok {A} (P : A → Prop) (r : result (EvalError (E := E)) A) : Prop :=
  match r with Ok a => P a | Err (Failed _) => True | Err Panicked => False end.

Lemma pop_ok stack v stack' :
  Forall value_ok stack → pop stack = (v, stack') → value_ok v ∧ Forall value_ok stack'.
Proof.
  intros Hs. destruct Hs as [|x l Hx Hl]; cbn; intros [= <- <-]; [|done]. split; [apply default_ok|constructor].
Qed.

Lemma pop_args_ok n acc stack args stack' :
  Forall value_ok acc → Forall value_ok stack → pop_args n acc stack = (args, stack') →
  length args = (n + length acc)%nat ∧ Forall value_ok args ∧ Forall value_ok stack'.
Proof.
  revert acc stack. induction n as [|n IH]; intros acc stack Hacc Hs; cbn; [by intros [= <- <-]|].
  destruct (pop stack) as [v stack1] eqn:Hp. destruct (pop_ok _ _ _ Hs Hp) as [Hv Hs1].
  intros Hn. apply IH in Hn as (Hlen & Ha & Hs'); [|by constructor|done]. cbn in Hlen. split_and!; [lia|done..].
Qed.

Lemma call_safe id num_args args s :
  call_ok id num_args → length args = Z.to_nat num_args → Forall value_ok args →
  outcome_ok value_ok (call eval_fnc id args s).1.
Proof.
  intros Hc Hlen Hargs. unfold call, call_ok in *.
  destruct (FUNCTIONS !! Z.to_nat id) as [[[name f] n]|] eqn:Hf.
  - subst n. pose proof functions_total as Ht. rewrite Forall_lookup in Ht. specialize (Ht _ _ Hf). cbn in Ht.
    destruct (decide (0 ≤ num_args)) as [Hn|Hn].
    + destruct (Ht args) as (v & -> & Hv); [lia|done|]. done.
    + exfalso. apply list_elem_of_lookup_2, functions_arity in Hf. cbn in Hf. lia.
  - destruct (eval_fnc _ args (world s)) as [[v|e] w] eqn:He; cbn; [|done]. by eapply eval_fnc_ok.
Qed.

Lemma array_access_ok a i : value_ok a → value_ok (array_access a i).
Proof.
  intros Ha. apply into_array_ok in Ha. unfold array_access, skip.
  case_match; [apply default_ok|].
  destruct (drop _ (into_array a)) as [|v l] eqn:Hd; cbn; [apply default_ok|].
  assert (Hall : Forall value_ok (drop (Z.to_nat (default 0 (to_usize i))) (into_array a))) by by apply Forall_drop.
  rewrite Hd in Hall. by apply Forall_cons in Hall as [? _].
Qed.

Lemma eval_item_ok i stack s :
  item_ok i → Forall value_ok stack →
  outcome_ok (λ r, Forall value_ok r.1) (eval_item resolve_variable eval_fnc i stack s).1.
Proof.
  intros Hi Hs. destruct i as [v|c|c|op|op|r|val pos|id n| |n]; cbn [eval_item].
  - constructor; [apply resolve_ok|done].
  - constructor; [constructor|done].
  - by constructor.
  - destruct (pop stack) as [y s1] eqn:H1. destruct (pop_ok _ _ _ Hs H1) as [Hy Hs1].
    destruct (pop s1) as [x s2] eqn:H2. destruct (pop_ok _ _ _ Hs1 H2) as [Hx Hs2].
    constructor; [by apply binary_ok|done].
  - destruct (pop stack) as [x s1] eqn:H1. destruct (pop_ok _ _ _ Hs H1) as [Hx Hs1].
    constructor; [by apply unary_ok|done].
  - destruct (pop stack) as [x s1] eqn:H1. destruct (pop_ok _ _ _ Hs H1) as [Hx Hs1].
    constructor; [apply of_bool_ok|done].
  - done.
  - destruct (pop_args (Z.to_nat n) [] stack) as [args s1] eqn:H1.
    destruct (pop_args_ok _ _ _ _ _ (Forall_nil_2 _) Hs H1) as (Hlen & Hargs & Hs1). cbn in Hlen.
    rewrite Nat.add_0_r in Hlen. pose proof (call_safe id n args s Hi Hlen Hargs) as Hc.
    destruct (call eval_fnc id args s) as [[v|[]] s2]; cbn in *; [by constructor|done..].
  - destruct (pop stack) as [y s1] eqn:H1. destruct (pop_ok _ _ _ Hs H1) as [Hy Hs1].
    destruct (pop s1) as [x s2] eqn:H2. destruct (pop_ok _ _ _ Hs1 H2) as [Hx Hs2].
    constructor; [by apply array_access_ok|done].
  - destruct (pop_args (Z.to_nat n) [] stack) as [args s1] eqn:H1.
    destruct (pop_args_ok _ _ _ _ _ (Forall_nil_2 _) Hs H1) as (_ & Hargs & Hs1).
    constructor; [by constructor|done].
Qed.

Lemma eval_loop_ok items skipped stack s :
  Forall item_ok items → Forall value_ok stack →
  outcome_ok value_ok (eval_loop resolve_variable eval_fnc items skipped stack s).1.
Proof.
  intros Hi. revert skipped stack s. induction Hi as [|i items Hi Hitems IH]; intros skipped stack s Hs; cbn.
  - destruct (pop stack) as [v s1] eqn:Hp. by destruct (pop_ok _ _ _ Hs Hp).
  - destruct (0 <? skipped); [by apply IH|]. pose proof (eval_item_ok i stack s Hi Hs) as Ho.
    destruct (eval_item resolve_variable eval_fnc i stack s) as [[[stack' k]|[]] s']; cbn in *; [by apply IH|done..].
Qed.
End Evaluation.

(** ** The parser *)

Definition token_ok (t : Token) : Prop :=
  match t with
  | TConstant c => value_ok (of_constant c)
  | TFunction _ id num_args => call_ok id num_args
  | _ => True
  end.

Definition is_call (t : Token) : bool := match t with TFunction _ _ _ | TRegex _ => true | _ => false end.

(** The calls that wait on the stack *)
Definition calls (ops : list (Token * option nat)) : nat := length (filter (λ op, is_call op.1 = true) ops).

Arguments calls : simpl never.

Definition ops_ok (ops : list (Token * option nat)) : Prop := Forall (λ op, token_ok op.1) ops.

Arguments ops_ok : simpl never.

Definition parser_ok (p : Parser) : Prop :=
  Forall item_ok (p_output p) ∧ ops_ok (p_operators p) ∧ length (p_arg_count p) = calls (p_operators p).

Definition no_panic {A} (P : A → Prop) (r : result ParseError A) : Prop :=
  match r with Ok a => P a | Err e => e ≠ OutOfFuel ∧ e ≠ ParserPanic end.

Lemma calls_cons op ops : calls (op :: ops) = ((if is_call op.1 then 1 else 0) + calls ops)%nat.
Proof. unfold calls. rewrite filter_cons. destruct (is_call op.1); by case_decide. Qed.

Lemma array_id_ok id n : ID_ARRAY_BUILD ≤ id → call_ok id n.
Proof.
  intros Hid. unfold call_ok. rewrite lookup_ge_None_2; [done|].
  unfold ID_ARRAY_BUILD, u32_max in Hid. change (length FUNCTIONS) with 41%nat. lia.
Qed.

Lemma count_item_ok ops : ops_ok ops → ops_ok (count_item ops) ∧ calls (count_item ops) = calls ops.
Proof.
  intros Hops. unfold count_item. set (f := λ op : Token * option nat, _).
  assert (Hf : ∀ op, token_ok op.1 → token_ok (f op).1 ∧ is_call (f op).1 = is_call op.1).
  { intros [[] j] Ht; cbn in *; try done. destruct (Z.eqb_spec id ID_ARRAY_BUILD) as [->|]; [|done].
    split; [|done]. by apply array_id_ok. }
  set (pos := match ops with [_] => _ | _ => _ end). clearbody pos f.
  revert pos. induction Hops as [|op ops Hop Hops IH]; intros pos; [split; [constructor|done]|].
  destruct (Hf op Hop) as [Hop' Hc]. destruct pos as [|pos].
  - change (alter f 0%nat (op :: ops)) with (f op :: ops). split; [by constructor|]. by rewrite !calls_cons, Hc.
  - change (alter f (S pos) (op :: ops)) with (op :: alter f pos ops).
    destruct (IH pos) as [IH1 IH2]. split; [by constructor|]. by rewrite !calls_cons, IH2.
Qed.

Lemma inc_arg_count_ok p : parser_ok p → parser_ok (inc_arg_count p).
Proof.
  destruct p as [out ops c]. intros (Ho & Hops & Hc). unfold inc_arg_count. cbn in *.
  destruct c as [|x c]; [done|]. destruct (count_item_ok ops Hops) as [H1 H2].
  unfold parser_ok. cbn. by rewrite H2.
Qed.

Lemma dec_arg_count_ok p : parser_ok p → parser_ok (dec_arg_count p).
Proof. destruct p as [out ops [|x c]]; [done|]. intros (Ho & Hops & Hc). by split_and!. Qed.

Lemma push_output_ok i p : item_ok i → parser_ok p → parser_ok (push_output i p).
Proof.
  destruct p as [out ops c]. intros Hi (Ho & Hops & Hc). split_and!; [|done..]. cbn.
  apply Forall_app. by repeat constructor.
Qed.

Lemma push_plain_ok t j p : token_ok t → is_call t = false → parser_ok p → parser_ok (push_operator t j p).
Proof.
  destruct p as [out ops c]. intros Ht Hcall (Ho & Hops & Hc). split_and!; [done|by constructor|].
  change (length c = calls ((t, j) :: ops)). rewrite calls_cons. cbn. by rewrite Hcall.
Qed.

Lemma emit_binary_ok op j p : parser_ok p → parser_ok (emit_binary op j p).
Proof.
  intros Hp. apply push_output_ok; [done|]. destruct j as [j|]; [|done].
  destruct p as [out ops c]. destruct Hp as (Ho & Hops & Hc). split_and!; [|done..]. cbn in *.
  apply Forall_alter; [done|]. intros i _ Hi. by destruct i.
Qed.

(** The parser with its operators apart *)
Definition apart_ok (ops : list (Token * option nat)) (p : Parser) : Prop :=
  Forall item_ok (p_output p) ∧ ops_ok ops ∧ length (p_arg_count p) = calls ops.

Lemma apart_emit op j ops p : apart_ok ((TBinary op, j) :: ops) p → apart_ok ops (emit_binary op j p).
Proof.
  intros (Ho & Hops & Hc). apply Forall_cons in Hops as [_ Hops]. rewrite calls_cons in Hc. cbn in Hc.
  pose proof (emit_binary_ok op j (mkParser (p_output p) ops (p_arg_count p))) as He.
  by destruct j; apply He.
Qed.

Lemma apart_push op j ops p : apart_ok ((TUnary op, j) :: ops) p → apart_ok ops (push_output (IUnary op) p).
Proof.
  intros (Ho & Hops & Hc). apply Forall_cons in Hops as [_ Hops]. rewrite calls_cons in Hc. cbn in Hc.
  apply (push_output_ok (IUnary op) (mkParser (p_output p) ops (p_arg_count p))); [done|]. by split_and!.
Qed.

Lemma close_loop_ok is_open ops p :
  (∀ t, is_open t = true → is_call t = false) → apart_ok ops p → no_panic parser_ok (close_loop is_open ops p).
Proof.
  intros Hopen. revert p. induction ops as [|[t j] ops IH]; intros p Hp; cbn; [done|].
  destruct (is_open t) eqn:Ht.
  - destruct Hp as (Ho & Hops & Hc). apply Forall_cons in Hops as [_ Hops]. rewrite calls_cons in Hc. cbn in Hc.
    rewrite (Hopen t Ht) in Hc. by split_and!.
  - destruct t; try done; [by apply IH, apart_emit|by eapply IH, apart_push].
Qed.

Lemma binary_loop_ok bop ops p : apart_ok ops p → parser_ok (binary_loop bop ops p).
Proof.
  revert p. induction ops as [|[t j] ops IH]; intros p Hp; cbn; [done|].
  destruct t; try done; [|by eapply IH, apart_push].
  destruct (_ <=? _); [by apply IH, apart_emit|done].
Qed.

Lemma comma_loop_ok ops p : apart_ok ops p → parser_ok (comma_loop ops p).
Proof.
  revert p. induction ops as [|[t j] ops IH]; intros p Hp; cbn; [done|].
  destruct t; try done; [by apply IH, apart_emit|by eapply IH, apart_push].
Qed.

Lemma final_loop_ok ops p : apart_ok ops p → no_panic parser_ok (final_loop ops p).
Proof.
  revert p. induction ops as [|[t j] ops IH]; intros p Hp; cbn; [done|].
  destruct t; try done; [by apply IH, apart_emit|by eapply IH, apart_push].
Qed.

Lemma close_call_ok p : parser_ok p → no_panic parser_ok (close_call p).
Proof.
  destruct p as [out ops c]. intros (Ho & Hops & Hc). unfold close_call. cbn [p_operators p_arg_count] in *.
  destruct ops as [|[t j] ops]; [by split_and!|].
  pose proof Hops as Hops'. apply Forall_cons in Hops' as [Ht Hrest]. rewrite calls_cons in Hc.
  destruct t; cbn in Hc, Ht; try by split_and!.
  - destruct c as [|got c]; [done|]. injection Hc as Hc. case_match; [case_match; by cbn|].
    apply push_output_ok; [|by split_and!].
    repeat case_match; done.
  - destruct c as [|got c]; [done|]. injection Hc as Hc. case_match; [by cbn|].
    apply push_output_ok; [done|]. by split_and!.
Qed.

Lemma no_panic_bind {A B} (P : A → Prop) (Q : B → Prop) (r : result ParseError A) k :
  no_panic P r → (∀ a, P a → no_panic Q (k a)) → no_panic Q (r ≫= k).
Proof. destruct r as [a|e]; cbn; auto. Qed.

Lemma close_bracket_ok is_open p :
  (∀ t, is_open t = true → is_call t = false) → parser_ok p → no_panic parser_ok (close_bracket is_open p).
Proof.
  intros Hopen Hp. unfold close_bracket. eapply no_panic_bind; [by apply close_loop_ok|apply close_call_ok].
Qed.

Lemma parse_binary_ok bop p : parser_ok p → parser_ok (parse_binary bop p).
Proof.
  intros Hp. unfold parse_binary. pose proof (dec_arg_count_ok p Hp) as Hd.
  pose proof (binary_loop_ok bop _ _ Hd) as Hb.
  destruct bop; apply push_plain_ok; try done; by apply push_output_ok.
Qed.

Lemma open_call_ok t x p :
  token_ok t → is_call t = true → parser_ok p →
  parser_ok (push_operator t None (p <| p_arg_count ::= cons x |>)).
Proof.
  destruct p as [out ops c]. intros Ht Hcall (Ho & Hops & Hc). split_and!; [done|by constructor|].
  change (length (x :: c) = calls ((t, None) :: ops)). rewrite calls_cons. cbn in *. rewrite Hcall, Hc. done.
Qed.

Lemma parse_token_ok last t p :
  token_ok t → parser_ok p → no_panic (λ r, parser_ok r.2) (parse_token last t p).
Proof.
  intros Ht Hp. pose proof (inc_arg_count_ok p Hp) as Hi.
  destruct t; cbn [parse_token].
  - by apply push_output_ok.
  - by apply push_output_ok.
  - by apply open_call_ok.
  - by apply push_output_ok.
  - by apply open_call_ok.
  - by apply parse_binary_ok.
  - by apply push_plain_ok.
  - by apply push_plain_ok.
  - eapply no_panic_bind; [apply close_bracket_ok; [by intros []|done]|done].
  - unfold open_bracket. destruct last; (apply push_plain_ok; [done..|]); apply open_call_ok; try done.
    all: by apply array_id_ok.
  - eapply no_panic_bind; [apply close_bracket_ok; [by intros []|done]|done].
  - by apply comma_loop_ok.
Qed.

Lemma parse_end_ok p : parser_ok p → no_panic (Forall item_ok) (parse_end p).
Proof.
  intros Hp. unfold parse_end. eapply no_panic_bind; [by apply final_loop_ok|]. by intros q (Ho & _).
Qed.

(** ** The tokenizer *)

(** What is left to read, counted so that every token costs *)
Definition size (t : Tokenizer) (it : bytes) : nat := 2 * length it + 2 * length (t_buf t) + length (t_next_token t).

Variable tokens : TokenMap.
Hypothesis tokens_ok : map_Forall (λ _ t, token_ok t) tokens.

Lemma find_char_ok cs it : no_panic (λ r, (length r.2 < length it)%nat) (find_char cs it).
Proof.
  induction it as [|c it IH]; cbn; [done|]. destruct (is_whitespace c).
  - destruct (find_char cs it) as [[x r]|]; cbn in *; [lia|done].
  - case_bool_decide; cbn; [lia|done].
Qed.

Lemma string_loop_shorter q last buf it k rest :
  string_loop q last buf it = Some (k, rest) → (length rest < length it)%nat.
Proof.
  revert last buf. induction it as [|c it IH]; intros last buf; [done|]. cbn.
  repeat case_match; intros Hs; try (apply IH in Hs; lia). injection Hs as <- <-. lia.
Qed.

Lemma parse_string_ok q it : no_panic (λ r, (length r.2 < length it)%nat) (parse_string q it).
Proof.
  unfold parse_string. destruct (string_loop q 0 [] it) as [[k rest]|] eqn:Hs; [|done].
  apply string_loop_shorter in Hs. by destruct (from_utf8 k).
Qed.

Lemma find_function_ok {A} buf i (l : list (bytes * A * Z)) k n :
  find_function buf i l = Some (k, n) → i ≤ k ∧ ∃ e, l !! Z.to_nat (k - i) = Some e ∧ e.2 = n.
Proof.
  revert i. induction l as [|[[name f] m] l IH]; intros i; [done|]. cbn. case_bool_decide.
  - intros [= -> ->]. rewrite Z.sub_diag. split; [lia|]. by eexists.
  - intros Hf. apply IH in Hf as (Hk & e & He & Hn). split; [lia|]. exists e.
    by replace (Z.to_nat (k - i)) with (S (Z.to_nat (k - (i + 1)))) by lia.
Qed.

Lemma service_ids : Forall (λ f, 0 ≤ f.1.2) ASYNC_FUNCTIONS.
Proof. unfold ASYNC_FUNCTIONS. repeat constructor; cbn; lia. Qed.

Lemma lookup_function_ok buf t : lookup_function buf = Some t → token_ok t.
Proof.
  unfold lookup_function. destruct (find_function buf 0 FUNCTIONS) as [[k n]|] eqn:Hf.
  - intros [= <-]. apply find_function_ok in Hf as (Hk & e & He & Hn). cbn. unfold call_ok.
    rewrite Z.sub_0_r in He. rewrite He. by destruct e as [[? ?] ?].
  - destruct (find _ ASYNC_FUNCTIONS) as [[[name idx] n]|] eqn:Hs; [|done]. intros [= <-].
    change (call_ok (idx + 41) n). unfold call_ok.
    apply find_some in Hs as [Hin _]. rewrite <- list_elem_of_In in Hin.
    pose proof service_ids as Hids. rewrite Forall_forall in Hids. apply Hids in Hin. cbn in Hin.
    rewrite lookup_ge_None_2; [done|]. change (length FUNCTIONS) with 41%nat. lia.
Qed.

Lemma small_ok n : -1 ≤ n ≤ 1 → value_ok (VInteger n).
Proof. intros Hn. constructor. unfold is_i64, i64_min, i64_max. lia. Qed.

Lemma parse_name_ok hn hd buf : no_panic token_ok (parse_name tokens hn hd buf).
Proof.
  unfold parse_name. case_match; [apply small_ok; lia|]. case_match; [apply small_ok; lia|].
  match goal with |- no_panic _ (match ?x with Some _ => _ | None => _ end) => destruct x; [done|] end.
  destruct (lookup_function buf) as [t|] eqn:Hl; [by apply lookup_function_ok in Hl|].
  destruct (tokens !! buf) as [t|] eqn:Ht; [by apply tokens_ok in Ht|].
  case_match; [|done]. constructor. apply as_i64_range.
Qed.

Lemma parse_buf_ok t :
  no_panic (λ r, token_ok r.1 ∧ t_buf r.2 = [] ∧ t_next_token r.2 = t_next_token t ∧ t_iter r.2 = t_iter t)
    (parse_buf tokens t).
Proof.
  destruct t as [it buf d nt hn hd ha sign eof]. unfold parse_buf. cbn. destruct (hn && negb ha).
  - destruct hd; [destruct (f_parse buf); [by cbn; auto with value|done]|].
    destruct (parse_i64 buf) as [n|] eqn:Hn; [|done]. cbn. split_and!; try done. constructor. by eapply parse_i64_range.
  - eapply no_panic_bind; [apply parse_name_ok|]. intros k Hk. by split_and!.
Qed.

Lemma tail_length {A} (l : list A) : (length (tail l) ≤ length l)%nat.
Proof. destruct l; cbn; lia. Qed.

Lemma operator_token_ok d ch it :
  no_panic (λ r, match r with Some (k, _, it') => token_ok k ∧ (length it' ≤ length it)%nat | None => True end)
    (operator_token d ch it).
Proof.
  pose proof (tail_length it) as Htail. unfold operator_token.
  repeat match goal with |- no_panic _ (if ?b then _ else _) => destruct b end; cbn [no_panic]; try done.
  all: try (split; [done|]; case_match; lia); try (split; [done|lia]).
  eapply no_panic_bind; [apply parse_string_ok|]. intros [k rest] Hk. cbn in *. split; [auto with value|lia].
Qed.

Lemma prev_token_ok t ch it :
  no_panic (λ r, match r.1.1 with Some k => token_ok k | None => True end ∧ t_buf r.1.2 = [] ∧
      t_next_token r.1.2 = t_next_token t ∧ (length r.2 ≤ length it)%nat)
    (prev_token tokens t ch it).
Proof.
  unfold prev_token. case_match.
  - eapply no_panic_bind; [apply find_char_ok|]. intros [q it1] Hl1. cbn in Hl1.
    eapply no_panic_bind; [apply parse_string_ok|]. intros [k it2] Hl2. cbn in Hl2.
    case_match; [|done]. eapply no_panic_bind; [apply find_char_ok|]. intros [x it3] Hl3. cbn in *.
    split_and!; try done. lia.
  - case_match.
    + eapply no_panic_bind; [apply parse_buf_ok|]. intros [k t'] (Hk & Hb & Hn & _). cbn in *. by split_and!.
    + cbn. split_and!; try done. by case_bool_decide.
Qed.

(** The tokens that wait *)
Definition state_ok (t : Tokenizer) : Prop := Forall token_ok (t_next_token t).

Lemma end_word_ok t ch it :
  t_next_token t = [] →
  no_panic (λ r, match r with
                 | Some (k, t') => token_ok k ∧ state_ok t' ∧ (size t' (t_iter t') < size t (ch :: it))%nat
                 | None => True
                 end) (end_word tokens t ch it).
Proof.
  intros Hnt. unfold end_word. eapply no_panic_bind; [apply prev_token_ok|].
  intros [[prev t1] it1] (Hprev & Hbuf & Hn & Hlen). cbn [fst snd] in *. rewrite Hnt in Hn.
  eapply (no_panic_bind (λ r, match r with Some (k, _, it') => token_ok k ∧ (length it' ≤ length it1)%nat
                                         | None => True end)).
  { destruct (ch =? "-"); [|apply operator_token_ok]. cbn. by destruct (t_is_start t1). }
  destruct t1 as [i1 buf1 d1 nt1 hn hd ha sign eof]. cbn in Hbuf, Hn. subst.
  intros [[[k d'] it']|] Hop; unfold state_ok, size; destruct prev as [pk|]; cbn -[Nat.mul] in *; try done.
  all: unfold RecordSettersUsingExistingGetters.const; destruct_and? Hop.
  all: split_and!; try done; try lia. by constructor.
Qed.

Lemma finish_ok t ch it n :
  t_next_token t = [] → t_iter t = it → (length it ≤ n)%nat →
  no_panic (λ r, match r.1 with
                 | Some k => token_ok k ∧ state_ok r.2 ∧ (size r.2 (t_iter r.2) < 2 * n + 2 * length (t_buf t) + ch)%nat
                 | None => True
                 end) (finish tokens t).
Proof.
  intros Hnt Hit Hlen. unfold finish. case_match; [done|]. case_match; [|done].
  eapply no_panic_bind; [apply parse_buf_ok|]. intros [k t'] (Hk & Hb & Hn & Hi). cbn [fst snd] in *.
  cbn [no_panic fst snd]. unfold state_ok, size. rewrite Hn, Hnt, Hb, Hi, Hit. split_and!; [done|constructor|].
  destruct (t_buf t) as [|x l]; [done|]. cbn -[Nat.mul]. lia.
Qed.

Lemma word_char_size t ch t' :
  word_char t ch = Some t' →
  t_next_token t' = t_next_token t ∧ length (t_buf t') = S (length (t_buf t)).
Proof.
  destruct t as [it buf d nt hn hd ha sign eof]. unfold word_char, push_buf.
  intros Hw. repeat case_match; simplify_eq; cbn; rewrite length_app; cbn; split; done || lia.
Qed.

Lemma next_loop_ok t it :
  t_next_token t = [] →
  no_panic (λ r, match r.1 with
                 | Some k => token_ok k ∧ state_ok r.2 ∧ (size r.2 (t_iter r.2) < size t it)%nat
                 | None => True
                 end) (next_loop tokens t it).
Proof.
  revert t. induction it as [|ch it IH]; intros [it0 buf d nt hn hd ha sign eof] Hnt; cbn [next_loop].
  all: set (t := mkTokenizer it0 buf d nt hn hd ha sign eof) in *.
  - pose proof (finish_ok (mkTokenizer [] buf d nt hn hd ha sign eof) 0 [] 0 Hnt eq_refl (Nat.le_refl _)) as Hf.
    unfold size at 2. by rewrite Hnt.
  - destruct (ch =? "}").
    + pose proof (finish_ok (mkTokenizer it buf d nt hn hd ha sign true) 2 it _ Hnt eq_refl (Nat.le_refl _)) as Hf.
      change (finish tokens _) with (finish tokens (mkTokenizer it buf d nt hn hd ha sign true)).
      destruct (finish tokens _) as [[[k|] t']|]; try done. destruct Hf as (Hk & Hs & Hsz). split_and!; [done..|].
      change (nt = []) in Hnt. cbn -[Nat.mul size] in *. unfold size at 2. subst t nt. cbn -[size]. lia.
    + destruct (word_char t ch) as [t1|] eqn:Hw.
      * apply word_char_size in Hw as [Hn Hl]. rewrite Hnt in Hn. specialize (IH t1 Hn).
        destruct (next_loop tokens t1 it) as [[[k|] t']|]; try done. destruct IH as (Hk & Hs & Hsz).
        split_and!; [done..|]. cbn [snd] in *. unfold size in *. rewrite Hnt. rewrite Hl, Hn in Hsz. cbn in *. lia.
      * pose proof (end_word_ok t ch it Hnt) as He.
        destruct (end_word tokens t ch it) as [[[k t']|]|e]; try done.
        specialize (IH t Hnt). destruct (next_loop tokens t it) as [[[k|] t']|]; try done.
        destruct IH as (Hk & Hs & Hsz). split_and!; [done..|]. cbn [snd] in *. unfold size in *. cbn in *. lia.
Qed.

Lemma next_ok t :
  state_ok t →
  no_panic (λ r, match r.1 with
                 | Some k => token_ok k ∧ state_ok r.2 ∧ (size r.2 (t_iter r.2) < size t (t_iter t))%nat
                 | None => True
                 end) (next tokens t).
Proof.
  destruct t as [it0 buf d nt hn hd ha sign eof].
  set (t := mkTokenizer it0 buf d nt hn hd ha sign eof). intros Ht. unfold next.
  destruct (t_next_token t) as [|k rest] eqn:Hnt.
  - destruct (t_is_eof t); [done|]. pose proof (next_loop_ok (mkTokenizer [] buf d nt hn hd ha sign eof) (t_iter t) Hnt) as Hn.
    exact Hn.
  - unfold state_ok in Ht. rewrite Hnt in Ht. apply Forall_cons in Ht as [Hk Hrest].
    change (nt = k :: rest) in Hnt. subst t nt. cbn -[size]. split_and!; [done..|]. unfold size. cbn.
    unfold RecordSettersUsingExistingGetters.const. lia.
Qed.

Lemma parse_loop_ok fuel last t p :
  state_ok t → parser_ok p → (size t (t_iter t) < fuel)%nat →
  no_panic (Forall item_ok) (parse_loop fuel tokens last t p).
Proof.
  revert last t p. induction fuel as [|fuel IH]; intros last t p Ht Hp Hf; [lia|]. cbn [parse_loop].
  eapply no_panic_bind; [by apply next_ok|]. intros [[k|] t'] Hk; cbn [fst snd] in *; [|by apply parse_end_ok].
  destruct Hk as (Hk & Hs & Hsz). eapply no_panic_bind; [by apply parse_token_ok|].
  intros [last' p'] Hp'. apply IH; [done..|lia].
Qed.

Lemma parse_ok s : no_panic (Forall item_ok) (parse tokens s).
Proof.
  apply parse_loop_ok; [constructor|by repeat constructor|]. unfold size. cbn -[Nat.mul]. lia.
Qed.
End Safe.

(** The names of variables are such names. *)
Lemma with_variables_ok `{ExprBase} vs (m : TokenMap) :
  map_Forall (λ _ t, token_ok t) m → map_Forall (λ _ t, token_ok t) (with_variables vs m).
Proof.
  unfold with_variables. generalize VARIABLES_MAP as l. intros l.
  revert m. induction l as [|[name idx] l IH]; intros m Hm; [done|]. cbn [foldl]. apply IH.
  case_bool_decide; [|done]. unfold TokenMap in *. by apply map_Forall_insert_2.
Qed.


Module SafeExample.
Import ExprExample.

Lemma names_ok : map_Forall (λ _ t, token_ok t) names.
Proof. apply with_variables_ok. unfold TokenMap. apply map_Forall_empty. Qed.

Lemma session_variables_ok v : value_ok (session_variables v).
Proof. unfold session_variables. repeat case_match; constructor. apply as_i64_range. Qed.

Lemma services_ok id args w v w' :
  Forall value_ok args → services id args w = (Ok v, w') → value_ok v.
Proof. intros _ [= <- _]. constructor. apply as_i64_range. Qed.

End SafeExample.
