(* ===== verification/ExprBlock.v ===== *)
(** * If-blocks of the configuration

    crates/common/src/expr/if_block.rs: the conditions of a setting, their values and the
    value of no condition, read from the keys of the configuration: what is accepted is
    complete. *)

From coqutil Require Import Datatypes.RecordSettersUsingExistingGetters.
From S2P Require Import Prelude Utf8 Decimal ExprValue ExprFunctions Expr.

#[local] Open Scope chr_scope.
#[local] Open Scope Z_scope.

#[local] Arguments reverse : simpl never.

Section Blocks.
Context `{ExprBase}.
Variable tokens : TokenMap.

(** The items are those of some key of the configuration. *)
Definition parsed (c : Config) (items : list ExpressionItem) : Prop :=
  ∃ key expr, config_value c key = Some expr ∧ parse tokens expr = Ok items.

Definition complete (c : Config) (it : list ExpressionItem * list ExpressionItem) : Prop :=
  parsed c it.1 ∧ parsed c it.2.

(** A block on the way: all its conditions but perhaps the last have their values. *)
Definition block_ok (c : Config) (b : BlockState) : Prop :=
  (bs_found_else b ≠ [] → parsed c (bs_default b)) ∧
  match reverse (bs_if_then b) with
  | [] => bs_found_then b = false
  | (e, t) :: r =>
      Forall (complete c) r ∧ parsed c e ∧ bs_last_array_pos b ≠ [] ∧ (bs_found_then b = true → parsed c t)
  end.

Lemma try_parse_some key c items c' :
  try_parse tokens key c = (Some items, c') → c' = c ∧ parsed c items.
Proof.
  unfold try_parse. destruct (config_value c key) as [expr|] eqn:Hv; [|done].
  destruct (parse tokens expr) as [i|e] eqn:Hp; intros [= <- <-]. split; [done|]. by exists key, expr.
Qed.

(** The key is not one of an empty position. *)
Definition positioned (prefix item : bytes) : Prop :=
  ∀ suffix, split_once ["."] (drop (length prefix) item) ≠ Some ([], suffix).

Lemma block_if_ok item pos b c e c' :
  pos ≠ [] → block_ok c b → bs_last_array_pos b = [] ∨ bs_found_then b = true →
  try_parse tokens item c = (Some e, c') →
  c' = c ∧ block_ok c (b <| bs_if_then ::= λ l, l ++ [(e, [])] |> <| bs_found_then := false |>
                         <| bs_last_array_pos := pos |> <| bs_found_if := true |>).
Proof.
  destruct b as [l d fi fe ft lp]. intros Hpos [Hd Hb] Hthen Hp. apply try_parse_some in Hp as [-> Hp].
  split; [done|]. split; [done|]. cbn in *. rewrite reverse_snoc. split_and!; try done.
  destruct (reverse l) as [|[e1 t1] r]; [done|]. destruct Hb as (Hr & He & Hlp & Ht).
  constructor; [|done]. split; [done|]. apply Ht. by destruct Hthen.
Qed.

Lemma block_then_ok item b c e c' l :
  block_ok c b → try_parse tokens item c = (Some e, c') → set_last_then e (bs_if_then b) = Some l →
  c' = c ∧ block_ok c (b <| bs_if_then := l |> <| bs_found_then := true |>).
Proof.
  destruct b as [l0 d fi fe ft lp]. intros [Hd Hb] Hp Hl. apply try_parse_some in Hp as [-> Hp].
  split; [done|]. split; [done|]. unfold set_last_then in Hl. cbn in *.
  unfold RecordSettersUsingExistingGetters.const.
  destruct (reverse l0) as [|[e1 t1] r]; [done|]. injection Hl as <-. rewrite reverse_involutive.
  by destruct Hb as (Hr & He & Hlp & Ht).
Qed.

Lemma block_key_ok key prefix item b c b' c' :
  positioned prefix item → block_ok c b → block_key tokens key prefix item b c = (Some b', c') →
  c' = c ∧ block_ok c b'.
Proof.
  intros Hpos Hb. unfold block_key.
  destruct (split_once ["."] (drop (length prefix) item)) as [[pos suffix]|] eqn:Hs; [|done].
  assert (Hne : pos ≠ []) by (intros ->; by eapply Hpos).
  case_bool_decide; [|case_bool_decide; [|case_bool_decide; [|by intros [= <- <-]]]].
  - case_bool_decide; [by intros [= <- <-]|].
    destruct (negb (bool_decide (bs_last_array_pos b = [])) && negb (bs_found_then b)) eqn:Hm; [done|].
    destruct (try_parse tokens item c) as [[e|] c1] eqn:Hp; [|done]. intros [= <- <-].
    eapply block_if_ok; [done..| |done].
    case_bool_decide; [by left|]. right. by destruct (bs_found_then b).
  - case_bool_decide; [|by case_bool_decide; [intros [= <- <-]|]].
    destruct (bs_found_if b); [|done].
    destruct (try_parse tokens item c) as [[e|] c1] eqn:Hp; [|done]. intros [= <- <-].
    apply try_parse_some in Hp as [-> Hp]. split; [done|]. by destruct b, Hb.
  - case_bool_decide; [|done]. case_bool_decide; [|done].
    destruct (bs_found_then b) eqn:Hft; [by intros [= <- <-]|].
    destruct (try_parse tokens item c) as [[e|] c1] eqn:Hp; [|done].
    destruct (set_last_then e (bs_if_then b)) as [l|] eqn:Hl; [|done]. intros [= <- <-].
    by eapply block_then_ok.
Qed.

Lemma block_keys_ok key prefix items b c b' c' :
  Forall (positioned prefix) items → block_ok c b → block_keys tokens key prefix items b c = (Some b', c') →
  c' = c ∧ block_ok c b'.
Proof.
  intros Hpos. revert b. induction Hpos as [|item items Hi Hitems IH]; intros b Hb; cbn; [by intros [= <- <-]|].
  destruct (block_key tokens key prefix item b c) as [[b1|] c1] eqn:Hk; [|done].
  apply block_key_ok in Hk as [-> Hb1]; [|done..]. by apply IH.
Qed.

(** An if-block that the configuration is read to is complete: no error was recorded, it
    has either the one value of its key or at least one condition, each of its conditions and
    the value of each condition was parsed from a key of the configuration, none is missing,
    and so was the value of no condition. *)
Theorem if_block_complete (key : bytes) (c c' : Config) (b : IfBlock) :
  Forall (positioned (key ++ ["."])) (filter (λ k, starts_with k (key ++ ["."]) = true) (c_keys c).*1) →
  if_block_try_parse tokens key c = (Some b, c') →
  c' = c ∧ ib_key b = key ∧ parsed c (ib_default b) ∧ Forall (complete c) (ib_if_then b) ∧
  (config_value c key = None → ib_if_then b ≠ []).
Proof.
  intros Hpos. unfold if_block_try_parse. destruct (config_value c key) as [v|] eqn:Hv.
  - destruct (try_parse tokens key c) as [[e|] c1] eqn:Hp; [|done]. intros [= <- <-].
    apply try_parse_some in Hp as [-> Hp]. by split_and!.
  - destruct (block_keys tokens key _ _ _ c) as [[bs|] c1] eqn:Hk; [|done].
    apply block_keys_ok in Hk as [-> [Hd Hb]]; [|done|done].
    destruct (bs_found_if bs); [cbn|done]. destruct (bs_found_then bs) eqn:Hft; [cbn|done].
    case_bool_decide; [done|]. intros [= <- <-]. cbn. split_and!; [done|done|by apply Hd| |].
    + destruct (reverse (bs_if_then bs)) as [|[e t] r] eqn:Hr; [done|]. destruct Hb as (Hall & He & _ & Ht).
      apply Forall_reverse. rewrite Hr. constructor; [|done]. split; [done|]. by apply Ht.
    + intros _ Hnil. by rewrite Hnil in Hb.
Qed.
End Blocks.

Module BlockExample.
Import ExprExample.

Definition example_config : Config := mkConfig [
  (str "q.rate.0000.if", str "sender == 'a@b'");
  (str "q.rate.0000.then", str "5");
  (str "q.rate.0001.if.0000", str "priority > 3");
  (str "q.rate.0001.then", str "[1, 2]");
  (str "q.rate.0002.else", str "false")
] [].

Definition example_block : IfBlock := mkIfBlock (str "q.rate")
  [([IVariable 2; IConstant (CString (str "a@b")); IBinary OpEq], [IConstant (CInteger 5)]);
   ([IVariable 12; IConstant (CInteger 3); IBinary OpGt],
    [IConstant (CInteger 1); IConstant (CInteger 2); IArrayBuild 2])]
  [IConstant (CInteger 0)].

Lemma example_positioned :
  Forall (positioned (str "q.rate."))
    (filter (λ k, starts_with k (str "q.rate" ++ ["."]) = true) (c_keys example_config).*1).
Proof.
  assert (Hk : filter (λ k, starts_with k (str "q.rate" ++ ["."]) = true) (c_keys example_config).*1 =
    (c_keys example_config).*1) by reflexivity.
  rewrite Hk. repeat constructor; intros suffix Hs; discriminate Hs.
Qed.

Lemma if_block_complete_witness :
  if_block_try_parse names (str "q.rate") example_config = (Some example_block, example_config) ∧
  example_config = example_config ∧ ib_key example_block = str "q.rate" ∧
  parsed names example_config (ib_default example_block) ∧
  Forall (complete names example_config) (ib_if_then example_block) ∧
  (config_value example_config (str "q.rate") = None → ib_if_then example_block ≠ []).
Proof.
  split; [reflexivity|].
  apply (if_block_complete names (str "q.rate") example_config example_config example_block);
    [exact example_positioned|reflexivity].
Defined.

(** A value without a condition and without a position ends the program. *)
Lemma then_without_position_panics :
  if_block_try_parse names (str "q") (mkConfig [(str "q..then", str "5")] []) =
  (None, mkConfig [(str "q..then", str "5")] [(str "q", BlockPanic)]).
Proof. reflexivity. Qed.
End BlockExample.
